(* ===== verification/_CoqProject ===== *)
-Q . S2P
Prelude.v
Float64.v
Json.v
Utf8.v
Prog.v
ToolArgs.v
ToolParsing.v
Http.v
Hooks.v
Gating.v
Access.v
Policy.v
LoopDetector.v
Retry.v
ToolRegistry.v
PublicContext.v
ChatQueue.v
Sanitize.v
Messages.v
ContextBudget.v
AgentLoop.v
AgentRun.v
ProviderChain.v
StreamLoop.v
LoginGuard.v
Otp.v
Pairing.v
Throttle.v
Credentials.v
HttpAuth.v
ChannelWebhook.v
WebhookAuth.v
Webhooks.v
FairQueue.v
DomainFilter.v
Proxy.v
Approval.v
Calc.v
Vault.v
Migration.v
Cron.v
CronService.v
Rpc.v
Gateway.v
WsConnect.v
World.v
Ssrf.v
WebFetch.v
Summary.v
Compaction.v
EnvSubst.v
