(* ===== verification/Prelude.v ===== *)
(** * Moltis: a verified model of its decision-making core

    Moltis is a personal AI gateway: chat networks, webhooks and a web interface
    deliver messages, an agent answers them with the help of language model
    providers and tools, and a scheduler wakes the agent by itself.  This
    development models the parts of it that decide -- who may talk, what may run,
    what is tried next, what happens in which order -- and proves what they promise.
    Sources are named relative to [src/].

    ** How the parts interact

    A message from a chat network passes the access check of its channel
    ([Access], on top of [Gating]); an unknown sender may be offered a one-time code
    ([Otp]); a message that passes waits in the account-fair queue ([FairQueue]).
    The chat service gives each session one turn at a time and queues what arrives
    meanwhile ([ChatQueue]); a turn over a session that answers into a channel is
    public, with a filtered history and reviewed tools only ([PublicContext],
    [ToolRegistry]).

    The agent loop ([AgentLoop], with its theorems in [AgentRun]; chat turns run its streaming
    variant, [StreamLoop]) converts the history
    ([Messages]), keeps it within the context of the model ([ContextBudget]; a session that
    has grown too long is compacted, [Compaction] over [Summary]), and calls
    a provider through the failover chain ([ProviderChain]) within its retry budget
    ([Retry]); the tools the model may call are those the effective policy allows
    ([Policy], [ToolRegistry]); failing tool calls are watched ([LoopDetector]).  A model
    that writes its tool calls as text has them parsed ([ToolParsing]), their arguments
    are repaired, validated and coerced ([ToolArgs]), hooks may watch, change or block
    what happens ([Hooks]), and what comes back is cleaned ([Sanitize]).  A shell command
    passes the approval gate ([Approval]); what a sandboxed tool sends to the network
    passes the proxy ([Proxy]) and the domain filter ([DomainFilter]); a page that is
    fetched, and a request of a plugin, passes the check of destinations ([WebFetch],
    [Ssrf]).

    An HTTP request passes the throttle and the decision whether it is local
    ([Throttle]), then the authentication gate ([HttpAuth]) over the credential store
    ([Credentials]); logins are guarded by [LoginGuard].  Slack and Teams call back
    through [ChannelWebhook]; any other service through the generic webhooks, which are
    verified and limited ([WebhookAuth]), stored, and executed by a worker ([Webhooks]).
    Devices are paired by [Pairing].  A WebSocket earns its role and scopes in the
    handshake ([WsConnect], over [Pairing], [Credentials] and [HttpAuth]) and hands them to
    its message loop ([Gateway]), which asks [Rpc] before it runs a method, and which
    delivers events and the invocations of nodes; [World] has both together, with the
    tables they share.  Secrets at rest are kept by the vault ([Vault]).
    Placeholders of the configuration are filled in by [EnvSubst].
    The scheduler ([Cron], [CronService]) starts agent turns and heartbeats by itself.

    ** Files

    - [Prelude]: this file.  Strings, the [str] and [char] methods the sources use,
      machine integers, [result] and [option] helpers, tactics and lemmas.
    - [Json]: the values of [serde_json]; [Http]: headers, addresses, HMAC; [Prog]:
      programs of statements, for code that talks to a database: each statement may
      fail, and other calls may run between two of them.
    - [Gating]: [crates/channels/src/gating.rs], [operators.rs].  [glob_match_lower]
      with its loop [glob_loop], allowlists, policies, operators.
    - [Access]: [crates/{telegram,discord,matrix,whatsapp,nostr}/src/access.rs], one
      Module per channel with its [check_access]; the class [ChannelAccess] states
      what a channel promises and each channel is an instance.
    - [Policy]: [crates/tools/src/policy.rs].  [resolve_effective_policy] over the six
      layers of the configuration, [is_allowed].
    - [LoopDetector]: [crates/agents/src/tool_loop_detector.rs] and the formatting
      helpers of the runner.
    - [ToolArgs]: [crates/agents/src/{json_repair,tool_arg_validator}.rs], the decoding
      of arguments in [model], [sanitize_tool_name].
    - [ToolParsing]: [crates/agents/src/tool_parsing.rs].  The five collectors, the
      merge of their blocks and the text that remains.
    - [ToolRegistry]: [crates/agents/src/{tool_registry,lazy_tools}.rs] and
      [tool_policy.rs] of [crates/chat/src/service/chat_impl/].
    - [PublicContext]: [public_context.rs] and [channel_security.rs] of the same
      directory, the parameters a client may not set, and the history a public turn sees.
    - [ChatQueue]: [queue_drain.rs] of the same directory, [crates/chat/src/channel_acks.rs]
      and the admission of turns in [types.rs] and [send.rs], as threads of a transition
      system with a step per lock.
    - [Summary]: [crates/chat/src/compaction.rs]; [Compaction]:
      [crates/chat/src/compaction_run/], the four strategies.
    - [EnvSubst]: [crates/config/src/env_subst.rs].
    - [Sanitize]: [crates/agents/src/runner/tool_result.rs], [response_sanitizer.rs].
    - [Messages]: [crates/agents/src/model/{chat,types,convert}.rs].
    - [ContextBudget]: the estimates and the compaction of tool results in
      [crates/agents/src/runner/helpers.rs].
    - [AgentLoop]: [crates/agents/src/runner/non_streaming.rs], a computation in a monad
      with early exits over the models of its parts; [AgentRun]: what a run guarantees,
      by a small logic of preorders on the state.
    - [StreamLoop]: [crates/agents/src/runner/streaming.rs], over the same steps, and the
      part of [crates/chat/src/run_with_tools.rs] that runs it for a turn.
    - [Hooks]: [crates/common/src/hooks.rs].  The registry, its circuit breaker and the
      three ways of dispatch.
    - [Retry]: [crates/agents/src/runner/retry.rs] and the reaction of the two runner
      loops to a failed call.
    - [ProviderChain]: [crates/agents/src/provider_chain.rs].  Error classes, the
      circuit breaker, [complete_with_options_tracked] and [failover_stream].
    - [LoginGuard]: [crates/httpd/src/login_guard.rs].  [check_at],
      [record_failure_at], [record_success], [cleanup].
    - [Throttle]: [crates/auth/src/locality.rs] (Module [Locality]),
      [crates/httpd/src/request_throttle.rs].
    - [Credentials]: [crates/auth/src/credential_store/], the methods that do without a
      vault, statement by statement.
    - [HttpAuth]: [crates/httpd/src/auth_middleware.rs], [auth_routes.rs].  [check_auth],
      [auth_gate], the extractors, and the endpoints as [serve].
    - [Pairing]: [crates/gateway/src/pairing.rs].  The store over three tables, its calls
      one after the other ([exec]) and interleaved ([step]), the older state in memory.
    - [Rpc]: the tables of [crates/gateway/src/methods/dispatch.rs] and
      [authorize_method].
    - [Gateway]: [crates/gateway/src/{broadcast,nodes,state}.rs], the methods that change
      the gateway's own state, [server/location.rs], and the message loop of
      [crates/httpd/src/ws.rs], as tasks that interleave between locks.
    - [WsConnect]: the handshake of [crates/httpd/src/ws.rs] and the upgrade in
      [server/handlers.rs], as a task whose reads are observations.
    - [World]: any number of handshakes and the connections behind them, over tables that
      other tasks change, with the handshake of each connection on record.
    - [Ssrf]: [crates/common/src/ssrf.rs] (Module [Common]), [crates/tools/src/ssrf.rs]
      (Module [Tools]).
    - [WebFetch]: [crates/tools/src/web_fetch.rs], the requests of
      [wasm_component.rs], [crates/gateway/src/push_client.rs].
    - [ChannelWebhook]: [crates/channels/src/channel_webhook_middleware.rs], its
      pipeline, deduplication and token buckets in [crates/gateway/src/channel_webhook_*.rs],
      and the verifiers of Slack and Teams as Modules.
    - [WebhookAuth]: [crates/webhooks/src/{auth,rate_limit}.rs] and [profiles/].
    - [Webhooks]: [crates/webhooks/src/{store,normalize,dedup,worker}.rs] and the ingress
      handler of [crates/httpd/src/server/gateway.rs], stage by stage ([ingest_step]), for
      any number of requests at once ([pool_step]).
    - [Otp]: [crates/channels/src/otp.rs].  [initiate], [verify], [evict_expired].
    - [FairQueue]: [crates/channels/src/fair_queue.rs].  The queue operations,
      [admit_job] (the method [admit]), and the supervisor with its workers as the step relation
      [step].
    - [DomainFilter]: [crates/network-filter/src/types.rs], [domain_approval.rs],
      [buffer.rs].  Patterns, the approval manager, the audit log.
    - [Proxy]: [crates/network-filter/src/proxy.rs].  The request handlers as
      functions from what the outside does to the list of effects.
    - [Approval]: [crates/tools/src/approval.rs].  The dangerous-pattern floor, the
      first binary of a command, [check_command] and the manager.
    - [Float64]: IEEE doubles, on [SpecFloat] of the Standard Library.
    - [Calc]: [crates/tools/src/calc.rs].  The lexer and the precedence climber of the
      calculator tool, against a grammar with its values.
    - [Utf8]: the encoding behind [as_bytes] and [String::from_utf8].
    - [Vault]: [crates/vault/src/{vault,key_wrap,recovery,kdf,traits}.rs].  The state
      machine of the vault over a class [Cipher].
    - [Migration]: [crates/vault/src/migration.rs].  Plaintext to encrypted storage.
    - [Cron]: [crates/cron/src/{types,schedule,parse,heartbeat,system_events}.rs].
    - [CronService]: [crates/cron/src/service.rs], [store.rs], [store_memory.rs].  The
      service over a class [CronStore] with laws, and the store in memory.

    ** What the theorems show

    - Access to the gateway.  The gate lets a request pass only with a session, an API
      key or as a local connection in the cases the code names; every live session was
      earned by a credential or the setup code, or claimed while setup was open without a
      code; authentication is enforced exactly when
      a credential exists; the throttle bounds what one address is granted.
    - Webhooks.  A request is accepted exactly when it passes every check, at most
      once per delivery key under every interleaving, and what was accepted is settled
      after a crash, as far as the statements of the worker succeed; verification is exact in each mode; the limiter agrees with one
      that remembers everything; Slack callbacks are authentic and not replayed.
    - Connections.  A handshake grants the role of a node only to the device that proved
      itself and other authority only for a credential or where none is asked for; every call
      that runs was allowed to the role and scopes that the handshake of its connection
      earned, which composes [WsConnect] with [Gateway] and [Rpc] in [World]; a guarded event
      reaches nobody without its scope; answers of nodes come from the node that was asked or
      from an operator; who may call what is a table of requirements; the registry of nodes is
      consistent, and its counter exact, unless nodes come back too early or the counter is
      reset while nodes come and go.
    - Agent runs.  A run returns, after a bounded number of requests and retries; only tools
      of its registry run, with arguments that fit their schemas and that no hook blocked;
      every call has its result in the history it leaves.
    - Sessions.  No message is lost or answered twice under any interleaving, a session
      has one turn at a time, messages keep their order and have a thread that takes them
      unless drains overlap, a flag is forged or a message comes at the wrong moment; a turn
      over a channel is public whatever a client asked for, and an untrusted turn runs
      reviewed tools only and sees no internal part of the history; what a provider is sent
      has no orphaned tool results and fits the budget, if it has tool results and the size
      of the context is known; compaction leaves a history in which every call has its result
      as far as its input does not reuse identifiers, and keeps head and tail; its summary is
      bounded.
    - Requests made for others.  The private addresses are a table of networks, and what
      the tools' check misses is one too; each request of a fetch was checked right before,
      and a fetch ends; the host prepares requests of a plugin for allowed hosts only, and
      their secrets are those of that host.
    - Pairing.  A device token verifies only if it was issued and never retired, also
      under interleaved calls; a settled request is refused.
    - Tool calls.  The validator types arguments against the schema; coercion is safe;
      the parser partitions the text, and its loops end.
    - Hooks.  A dispatch agrees with a reference, and a guard that blocks is never
      switched off when the threshold is at least one.
    - Channels.  Four channels admit exactly the messages of one abstract policy, and
      fail closed; the allowlist matcher accepts only what the pattern describes.
    - Policy.  The effective policy is a fold over its layers; a tool denied by any
      layer stays denied.
    - Approval and network.  A command with a hijacking assignment never proceeds
      without a human; a command proceeds exactly when floor and policy admit it.
      The proxy contacts only what filter or user permit, logs every request
      once, and a domain passes exactly when the configuration lets it or it was granted
      to its session and not withdrawn.
    - Login and codes.  Bans and lockouts, once imposed, hold through every later
      operation until they expire; an approval needs the latest unexpired code.
    - Vault.  The vault is unsealed only with the password in force or the
      recovery phrase; what was encrypted decrypts to itself after any sequence of
      seals, unseals and password changes; migration of the database is complete,
      idempotent and lossless.
    - Queue.  Exclusive accounts, order per account and draining on shutdown, for every
      interleaving.
    - Providers and loops.  The shape of a failover stream, which providers a completion
      calls, the number of retries; tools are stripped only after a nudge.
    - Calculator.  The evaluator agrees with the conventional grammar in both
      directions, and the normalised expression evaluates to the same result.
    - Cron.  No two runs of a job overlap, additions are all or nothing, the rate
      limiter's window, the grid of interval schedules, the event buffer.

    Flaws the modelling showed are stated as Examples next to the code they concern.

    ** Conventions

    A [str] is a list of code points, so that slicing at char boundaries is slicing
    the list.  A 64-bit or narrower integer is a [Z] with its wrap-around, saturation
    or bound written where the source computes.  Maps are [gmap]s.  State behind a
    lock is a record an operation takes and returns; operations under one lock are
    one step.  Errors are values of [result].  The clock, random numbers and fresh
    identifiers are arguments.

    ** Fuel and termination

    Definitions are structural except for the evaluator of [Calc], whose fuel is twice
    the number of tokens and two, which [Calc.evaluate_spec] shows to be enough, for the loops
    below, and for two scans that carry a fuel of the length of their input: [replace_fuel] ([str::replace]), which removes at least
    one char per replacement, and [heredoc_scan] (the [while] loop of
    [heredoc_delimiters]), which advances at least one char per round; the fuel
    therefore never runs out before the input does.  The collectors of [ToolParsing] are
    [iterate]d over a cursor with the length of the text and one as fuel, enough by
    [ToolParsing.collectors_terminate].  The retry loop is bounded by
    its budget, the supervisor by the measure in [FairQueue.shutdown_drains].

    The agent loop has a fuel of rounds: more than its iterations and eleven retries are enough
    ([AgentRun.agent_loop_returns], [StreamLoop.streaming_loop_returns]).  The loops of [Sanitize] have one round more than there are chars
    ([rounds_enough], [strip_stop_enough], [recover_enough]).  The waits of a handshake in [WsConnect] have
    as fuel the number of observations, as each round takes one.  [WebFetch] has one hop more
    than the redirections allowed, enough by [WebFetch.fetch_is_checked].  The loops of [EnvSubst]
    have one round more than there are chars.

    ** What is a parameter

    Third-party code: Unicode tables beyond ASCII (class [Unicode]), regular
    expressions, hashing, JSON printing, the AEAD cipher, base64 and Argon2, cron
    expressions and time zones, SHA-256, HMAC and Ed25519, WebAuthn, the parsing of
    addresses, URLs and networks, HTML to text, and the network itself.

    ** What is not modelled

    Servers, routes and wiring, wire formats with derived serialisation, SQLite
    itself (its statements are modelled where they carry logic) and file stores, clients of
    remote services, processes and sandboxes, logs and metrics.  Of the credential store
    the variants that rewrap the vault, environment variables and SSH keys; of the webhooks
    their creation and listing.  Of the agent runner the prompts and the instrumentation; of a
    chat turn what prepares the run and reports it; of the gateway the methods that only
    forward to a service.  Parts that decide and are left out: the loading and layering of the
    configuration, schema normalisation for providers, the code index's delta and the text
    splitter, the layout of session files. *)
From stdpp Require Export base list gmap strings numbers sorting.
From stdpp Require pretty.
From Stdlib Require Export Lia.

(** * Characters and strings

    A Rust [char] is a Unicode scalar value and a [str] the sequence of its
    chars.  Indices into a [str] are char indices: every index the source
    computes comes from [find] or from an ASCII test, so it always is a char
    boundary.  [utf8_len] is what [str::len] returns. *)
Notation char := N (only parsing).
Notation str := (list N) (only parsing).

(** ASCII string literals of the source. *)
Fixpoint lit (s : string) : str :=
  match s with
  | EmptyString => []
  | String a s' => Ascii.N_of_ascii a :: lit s'
  end.
Coercion lit : string >-> list.

(** The code point of a one-character literal. *)
Definition ch (s : string) : char :=
  match s with
  | EmptyString => 0%N
  | String a _ => Ascii.N_of_ascii a
  end.

Definition ch_newline : char := 10%N.
Definition ch_cr : char := 13%N.
Definition ch_tab : char := 9%N.
Definition ch_dquote : char := 34%N.
Definition ch_squote : char := 39%N.
Definition ch_backslash : char := 92%N.

Definition str_eqb (a b : str) : bool := bool_decide (a = b).

(** ** Classes of chars *)

Definition is_ascii (c : char) : bool := (c <? 128)%N.
Definition in_range (lo hi c : char) : bool := (lo <=? c)%N && (c <=? hi)%N.
Definition is_ascii_digit (c : char) : bool := in_range 48 57 c.
Definition is_ascii_upper (c : char) : bool := in_range 65 90 c.
Definition is_ascii_lower (c : char) : bool := in_range 97 122 c.
Definition is_ascii_alphabetic (c : char) : bool :=
  is_ascii_upper c || is_ascii_lower c.
Definition is_ascii_alphanumeric (c : char) : bool :=
  is_ascii_alphabetic c || is_ascii_digit c.

(** [u8::is_ascii_whitespace]: space, tab, line feed, form feed, carriage
    return (and not the vertical tab). *)
Definition is_ascii_whitespace (c : char) : bool :=
  bool_decide (c ∈ [32; 9; 10; 12; 13]%N).

(** [char::is_whitespace]: the Unicode [White_Space] property. *)
Definition is_whitespace (c : char) : bool :=
  in_range 9 13 c || in_range 8192 8202 c ||
  bool_decide (c ∈ [32; 133; 160; 5760; 8232; 8233; 8239; 8287; 12288]%N).

Definition ascii_lower (c : char) : char :=
  if is_ascii_upper c then (c + 32)%N else c.
Definition ascii_upper (c : char) : char :=
  if is_ascii_lower c then (c - 32)%N else c.
Definition to_ascii_lowercase (s : str) : str := map ascii_lower s.

(** The parts of the Unicode tables the source reaches through [str] and
    [char] methods; on ASCII text the functions below do not consult them. *)
Class Unicode := {
  unicode_lower : str → str;
  unicode_upper : str → str;
  unicode_alphabetic : char → bool;
}.

(** Tables of an implementation that knows ASCII only. *)
Definition ascii_unicode : Unicode :=
  {| unicode_lower := to_ascii_lowercase; unicode_upper := map ascii_upper;
     unicode_alphabetic := λ _, false |}.

(** [str::to_lowercase]. *)
Definition to_lowercase `{Unicode} (s : str) : str :=
  if forallb is_ascii s then to_ascii_lowercase s else unicode_lower s.

(** [str::to_uppercase]. *)
Definition to_uppercase `{Unicode} (s : str) : str :=
  if forallb is_ascii s then map ascii_upper s else unicode_upper s.

(** [char::is_alphabetic]. *)
Definition is_alphabetic `{Unicode} (c : char) : bool :=
  if is_ascii c then is_ascii_alphabetic c else unicode_alphabetic c.

(** ** [str] methods *)

Definition utf8_len_char (c : char) : nat :=
  if (c <? 128)%N then 1 else if (c <? 2048)%N then 2
  else if (c <? 65536)%N then 3 else 4.
Definition utf8_len (s : str) : nat := sum_list (map utf8_len_char s).

Fixpoint strip_prefix (p s : str) : option str :=
  match p, s with
  | [], _ => Some s
  | a :: p', b :: s' => if (a =? b)%N then strip_prefix p' s' else None
  | _ :: _, [] => None
  end.

Definition starts_with (p s : str) : bool :=
  match strip_prefix p s with Some _ => true | None => false end.

Definition strip_suffix (p s : str) : option str :=
  reverse <$> strip_prefix (reverse p) (reverse s).

Definition ends_with (p s : str) : bool :=
  match strip_suffix p s with Some _ => true | None => false end.

(** [s.find(p)]: index of the leftmost occurrence of [p]. *)
Fixpoint find (p s : str) : option nat :=
  if starts_with p s then Some 0
  else match s with
       | [] => None
       | _ :: s' => S <$> find p s'
       end.

Definition contains (p s : str) : bool :=
  match find p s with Some _ => true | None => false end.

(** The text before the first [m], and after it. *)
Definition cut (m s : str) : option (str * str) :=
  (λ i, (take i s, drop (i + length m) s)) <$> find m s.

(** [s.find(|c| f c)]. *)
Fixpoint find_char (f : char → bool) (s : str) : option nat :=
  match s with
  | [] => None
  | c :: s' => if f c then Some 0 else S <$> find_char f s'
  end.

Fixpoint take_while {A} (f : A → bool) (l : list A) : list A :=
  match l with
  | [] => []
  | x :: l' => if f x then x :: take_while f l' else []
  end.

Fixpoint drop_while {A} (f : A → bool) (l : list A) : list A :=
  match l with
  | [] => []
  | x :: l' => if f x then drop_while f l' else l
  end.

Definition trim_start_matches (f : char → bool) (s : str) : str := drop_while f s.
Definition trim_end_matches (f : char → bool) (s : str) : str :=
  reverse (drop_while f (reverse s)).
Definition trim_start (s : str) : str := trim_start_matches is_whitespace s.
Definition trim_end (s : str) : str := trim_end_matches is_whitespace s.
Definition trim (s : str) : str := trim_end (trim_start s).

(** [s.split_once(c)]: around the leftmost [c]. *)
Fixpoint split_once (c : char) (s : str) : option (str * str) :=
  match s with
  | [] => None
  | d :: s' =>
      if (d =? c)%N then Some ([], s')
      else prod_map (cons d) id <$> split_once c s'
  end.

(** [s.rsplit_once(c)]: around the rightmost [c]. *)
Definition rsplit_once (c : char) (s : str) : option (str * str) :=
  (λ '(b, a), (reverse a, reverse b)) <$> split_once c (reverse s).

(** [s.split(c)]: never empty; one more piece than there are [c]s. *)
Fixpoint split (c : char) (s : str) : list str :=
  match s with
  | [] => [[]]
  | d :: s' =>
      if (d =? c)%N then [] :: split c s'
      else match split c s' with
           | p :: ps => (d :: p) :: ps
           | [] => [[d]]
           end
  end.

Definition is_nonempty {A} (l : list A) : bool :=
  match l with [] => false | _ :: _ => true end.

(** [s.split_whitespace()]: the non-empty pieces between white space. *)
Fixpoint split_ws_aux (cur : str) (s : str) : list str :=
  match s with
  | [] => if is_nonempty cur then [reverse cur] else []
  | c :: s' =>
      if is_whitespace c
      then (if is_nonempty cur then [reverse cur] else []) ++ split_ws_aux [] s'
      else split_ws_aux (c :: cur) s'
  end.
Definition split_whitespace (s : str) : list str := split_ws_aux [] s.

(** [s.lines()]: pieces ended by a line feed, without a carriage return
    before it; an empty last piece is dropped. *)
Fixpoint lines (s : str) : list str :=
  match s with
  | [] => []
  | c :: s' =>
      if (c =? ch_newline)%N then [] :: lines s'
      else match s' with
           | [] => [[c]]
           | _ => if bool_decide (c = ch_cr) && bool_decide (head s' = Some ch_newline)
                  then lines s'
                  else match lines s' with
                       | l :: ls => (c :: l) :: ls
                       | [] => [[c]]
                       end
           end
  end.

(** [pieces.join(sep)]. *)
Fixpoint join (sep : str) (ps : list str) : str :=
  match ps with
  | [] => []
  | [p] => p
  | p :: ps' => p ++ sep ++ join sep ps'
  end.

(** [s.replace(p, r)] for a non-empty [p]: leftmost, non-overlapping; the
    fuel [length s] is enough, since every step consumes a char. *)
Fixpoint replace_fuel (fuel : nat) (p r s : str) : str :=
  match fuel with
  | 0 => s
  | S fuel' =>
      match strip_prefix p s with
      | Some s' => r ++ replace_fuel fuel' p r s'
      | None => match s with
                | [] => []
                | c :: s' => c :: replace_fuel fuel' p r s'
                end
      end
  end.
Definition replace (p r s : str) : str := replace_fuel (length s) p r s.

(** ** Order *)

(** [str]'s order: lexicographic by code point, which is the order of the
    UTF-8 bytes. *)
Fixpoint str_le (a b : str) : bool :=
  match a, b with
  | [], _ => true
  | _ :: _, [] => false
  | x :: a', y :: b' => if (x =? y)%N then str_le a' b' else (x <? y)%N
  end.
Definition str_leP (a b : str) : Prop := str_le a b = true.
Global Instance str_leP_dec : RelDecision str_leP := λ a b, decide (str_le a b = true).

Global Instance str_leP_total : Total str_leP.
Proof.
  intros a. unfold str_leP. induction a as [|x a IH]; intros [|y b]; simpl; auto.
  destruct (N.eqb_spec x y) as [->|Hn]; rewrite ?N.eqb_refl; [apply IH|].
  destruct (N.eqb_spec y x); [congruence|]. rewrite !N.ltb_lt. lia.
Qed.

Global Instance str_leP_trans : Transitive str_leP.
Proof.
  intros a. unfold str_leP. induction a as [|x a IH]; intros [|y b] [|z c]; simpl; try done.
  destruct (N.eqb_spec x y) as [->|], (N.eqb_spec y z) as [->|]; rewrite ?N.eqb_refl.
  - apply IH.
  - destruct (N.eqb_spec y z); [done|]. auto.
  - destruct (N.eqb_spec x z); [done|]. auto.
  - rewrite !N.ltb_lt. intros. destruct (N.eqb_spec x z); rewrite ?N.ltb_lt; lia.
Qed.

Global Instance str_leP_anti : AntiSymm (=) str_leP.
Proof.
  intros a. unfold str_leP. induction a as [|x a IH]; intros [|y b]; simpl; try done.
  destruct (N.eqb_spec x y) as [->|]; rewrite ?N.eqb_refl.
  - intros. f_equal. by apply IH.
  - destruct (N.eqb_spec y x); [congruence|]. rewrite !N.ltb_lt. lia.
Qed.

(** * Machine integers

    The release profile leaves overflow checks off, so [+], [*] and [-] wrap;
    [saturating_*] clamp.  A width is written as the exclusive upper bound. *)
Local Open Scope Z_scope.

Definition u8_bound : Z := 2 ^ 8.
Definition u16_bound : Z := 2 ^ 16.
Definition u32_bound : Z := 2 ^ 32.
Definition u64_bound : Z := 2 ^ 64.
Definition u64_max : Z := u64_bound - 1.

Definition wrap (bound x : Z) : Z := x mod bound.
Definition sat_add (bound x y : Z) : Z := Z.min (x + y) (bound - 1).
Definition sat_mul (bound x y : Z) : Z := Z.min (x * y) (bound - 1).
Definition sat_sub (x y : Z) : Z := Z.max (x - y) 0.
(** [Ord::clamp]. *)
Definition clamp (lo hi x : Z) : Z := if x <? lo then lo else if hi <? x then hi else x.

(** [str::parse] to an unsigned integer: an optional plus sign, at least one
    ASCII digit, nothing else, and a value that fits. *)
Definition digit_value (c : char) : Z := Z.of_N c - 48.
Definition digits_value (s : str) : Z :=
  foldl (λ acc c, acc * 10 + digit_value c) 0 s.
Definition parse_uint (bound : Z) (s : str) : option Z :=
  let ds := match s with c :: s' => if (c =? ch "+")%N then s' else s | [] => [] end in
  if is_nonempty ds && forallb is_ascii_digit ds then
    let v := digits_value ds in
    if v <? bound then Some v else None
  else None.
(** The same to an [i64]: a minus sign is allowed too. *)
Definition parse_i64 (s : str) : option Z :=
  match s with
  | c :: ds =>
      if (c =? ch "-")%N then
        if is_nonempty ds && forallb is_ascii_digit ds && (digits_value ds <=? 2 ^ 63)
        then Some (- digits_value ds) else None
      else parse_uint (2 ^ 63) s
  | [] => None
  end.
Definition parse_u64 (s : str) : option Z := parse_uint u64_bound s.
Definition parse_u16 (s : str) : option Z := parse_uint u16_bound s.

(** [i64] subtraction, which wraps. *)
Definition i64_sub (a b : Z) : Z := (a - b + 2 ^ 63) mod 2 ^ 64 - 2 ^ 63.

(** The distance of an instant of the wall clock to any [i64] is computed exactly when it is small. *)
Lemma i64_sub_close now ts m :
  0 ≤ now < 2 ^ 62 → - 2 ^ 63 ≤ ts < 2 ^ 63 → 0 ≤ m < 2 ^ 61 →
  Z.abs (i64_sub now ts) ≤ m ↔ Z.abs (now - ts) ≤ m.
Proof.
  unfold i64_sub. intros He Ht Hm.
  destruct (Z.le_gt_cases (2 ^ 63) (now - ts)) as [Hbig|Hsmall].
  - replace (now - ts + 2 ^ 63) with (now - ts - 2 ^ 63 + 1 * 2 ^ 64) by lia.
    rewrite Z.mod_add, Z.mod_small by lia. lia.
  - rewrite Z.mod_small by lia. lia.
Qed.

Lemma sorted_snoc l x : StronglySorted Z.le l → Forall (λ s, s ≤ x) l → StronglySorted Z.le (l ++ [x]).
Proof.
  induction 1 as [|y l Hs IH Hy]; simpl; [repeat constructor|].
  intros [Hyx Hl]%Forall_cons. constructor; [by apply IH|]. apply Forall_app. by repeat constructor.
Qed.

(** A parsed integer is in range. *)
Lemma digits_value_nonneg s : forallb is_ascii_digit s = true → 0 ≤ digits_value s.
Proof.
  intros Hs. unfold digits_value. assert (Hgo : ∀ acc, 0 ≤ acc → 0 ≤ foldl (λ acc c, acc * 10 + digit_value c) acc s); [|by apply Hgo].
  induction s as [|c s IH]; intros acc Hacc; simpl in *; [done|]. apply andb_true_iff in Hs as [Hc Hs].
  apply (IH Hs). unfold is_ascii_digit, in_range in Hc. rewrite andb_true_iff, !N.leb_le in Hc.
  unfold digit_value. lia.
Qed.

Lemma parse_uint_range bound s z : parse_uint bound s = Some z → 0 ≤ z < bound.
Proof.
  unfold parse_uint. set (ds := match s with [] => _ | _ => _ end).
  destruct (is_nonempty ds && forallb is_ascii_digit ds) eqn:E; [|done].
  apply andb_true_iff in E as [_ Hd]. destruct (Z.ltb_spec (digits_value ds) bound); [|done].
  intros [= <-]. split; [by apply digits_value_nonneg|done].
Qed.

Lemma parse_i64_range s z : parse_i64 s = Some z → - 2 ^ 63 ≤ z < 2 ^ 63.
Proof.
  unfold parse_i64. destruct s as [|c ds]; [done|]. destruct (c =? ch "-")%N.
  - destruct (_ && _ && _) eqn:E; [|done]. intros [= <-]. rewrite !andb_true_iff, Z.leb_le in E.
    destruct E as [[_ Hd] Hle]. apply digits_value_nonneg in Hd. lia.
  - intros Hz%parse_uint_range. lia.
Qed.

(** [Display] of an integer. *)
Definition show_Z (z : Z) : str := lit (pretty.pretty z).
Definition show_nat (n : nat) : str := lit (pretty.pretty (N.of_nat n)).

(** ** Sorting *)

(** [sort_by_key], which is stable: an element goes before the first one whose key is not smaller. *)
Section sort_by_key.
Context {A : Type} (key : A → Z).

Fixpoint insert_by_key (x : A) (l : list A) : list A :=
  match l with
  | [] => [x]
  | y :: l' => if key x <=? key y then x :: y :: l' else y :: insert_by_key x l'
  end.
Definition sort_by_key (l : list A) : list A := foldr insert_by_key [] l.

Lemma insert_by_key_perm x l : insert_by_key x l ≡ₚ x :: l.
Proof.
  induction l as [|y l IH]; simpl; [done|]. case_match; [done|]. rewrite IH. apply perm_swap.
Qed.
Lemma sort_by_key_perm l : sort_by_key l ≡ₚ l.
Proof. induction l as [|x l IH]; simpl; [done|]. by rewrite insert_by_key_perm, IH. Qed.

Lemma insert_by_key_sorted x l :
  StronglySorted (λ x y, key x ≤ key y) l → StronglySorted (λ x y, key x ≤ key y) (insert_by_key x l).
Proof.
  induction 1 as [|y l Hs IH Hy]; simpl; [by repeat constructor|].
  destruct (Z.leb_spec (key x) (key y)).
  - constructor; [by constructor|]. constructor; [done|]. eapply Forall_impl; [exact Hy|]. simpl. lia.
  - constructor; [done|]. rewrite insert_by_key_perm. constructor; [lia|done].
Qed.
Lemma sort_by_key_sorted l : StronglySorted (λ x y, key x ≤ key y) (sort_by_key l).
Proof. induction l; simpl; [constructor|]. by apply insert_by_key_sorted. Qed.
End sort_by_key.

(** ** Scanning loops

    [while let Some(..) = text[pos..].find(..)]: a step from a position yields the next state and a
    later position, or leaves the loop.  A loop whose steps advance within [n] positions
    needs no more than [n] rounds. *)
Section iterate.
Context {S : Type} (step : S → nat → option (S * nat)).

Fixpoint iterate (fuel : nat) (s : S) (pos : nat) : S :=
  match fuel with
  | 0%nat => s
  | Datatypes.S fuel' => match step s pos with Some (s', pos') => iterate fuel' s' pos' | None => s end
  end.

(** Under the invariant [P] every step moves on, and none starts at [n] or beyond. *)
Definition advances (P : S → nat → Prop) (n : nat) : Prop :=
  ∀ s pos s' pos', P s pos → step s pos = Some (s', pos') → P s' pos' ∧ (pos < pos' ∧ pos < n)%nat.

Lemma iterate_enough P n fuel s pos :
  advances P n → P s pos → (n - pos < fuel)%nat → iterate fuel s pos = iterate (Datatypes.S n) s pos.
Proof.
  intros Ha. enough (Hg : ∀ f1 f2 s pos, P s pos → (n - pos < f1)%nat → (n - pos < f2)%nat →
    iterate f1 s pos = iterate f2 s pos) by (intros; apply Hg; try done; lia).
  clear fuel s pos. induction f1 as [|f1 IH]; intros [|f2] s pos Hp H1 H2; try lia. simpl.
  destruct (step s pos) as [[s' pos']|] eqn:E; [|done]. apply (Ha _ _ _ _ Hp) in E as [? ?].
  apply IH; [done|lia..].
Qed.

(** An invariant of the state. *)
Lemma iterate_inv (P : S → Prop) fuel s pos :
  (∀ s pos s' pos', P s → step s pos = Some (s', pos') → P s') → P s → P (iterate fuel s pos).
Proof.
  intros Hs. revert s pos. induction fuel as [|fuel IH]; intros s pos Hp; [done|]. simpl.
  destruct (step s pos) as [[s' pos']|] eqn:E; [|done]. eauto.
Qed.
End iterate.

(** * Time

    An [Instant] or a [Duration] is a number of nanoseconds. *)
Definition secs (n : Z) : Z := n * 1000000000.
Definition millis (n : Z) : Z := n * 1000000.

(** * Results *)

Inductive result (A E : Type) :=
| Ok (a : A)
| Err (e : E).
Arguments Ok {A E} _.
Arguments Err {A E} _.

Global Instance result_eq_dec `{EqDecision A, EqDecision E} : EqDecision (result A E).
Proof. solve_decision. Defined.

Definition is_ok {A E} (r : result A E) : bool :=
  match r with Ok _ => true | Err _ => false end.

Declare Scope result_scope.
Delimit Scope result_scope with result.
Notation "'let?' x := e 'in' k" :=
  (match e with Ok x => k | Err err => Err err end)
  (at level 10, x pattern, e at level 200, k at level 200)
  : result_scope.

Definition map_err {A E E'} (f : E → E') (r : result A E) : result A E' :=
  match r with Ok a => Ok a | Err e => Err (f e) end.
Definition ok_or {A E} (e : E) (o : option A) : result A E :=
  match o with Some a => Ok a | None => Err e end.

Definition is_some_and {A} (f : A → bool) (o : option A) : bool :=
  match o with Some a => f a | None => false end.
Definition unwrap_or {A} (d : A) (o : option A) : A :=
  match o with Some a => a | None => d end.
Definition or_else {A} (o o' : option A) : option A :=
  match o with Some _ => o | None => o' end.
Definition isSome {A} (o : option A) : bool :=
  match o with Some _ => true | None => false end.

Lemma map_err_Ok {A E E'} (f : E → E') (r : result A E) a : map_err f r = Ok a ↔ r = Ok a.
Proof. destruct r; simpl; split; congruence. Qed.
Lemma ok_or_Ok {A E} (e : E) (o : option A) a : ok_or e o = Ok a ↔ o = Some a.
Proof. destruct o; simpl; split; congruence. Qed.

(** The steps of a chain of [let?] that ends in [Ok]. *)
Lemma bind_Ok {A B E} (r : result A E) (k : A → result B E) b :
  (let? a := r in k a)%result = Ok b → ∃ a, r = Ok a ∧ k a = Ok b.
Proof. destruct r; [eauto|done]. Qed.

Tactic Notation "step" hyp(Hr) "as" simple_intropattern(a) simple_intropattern(Ha) :=
  apply bind_Ok in Hr as (a & Ha & Hr).

(** * Automation *)

Create HintDb moltis.
Create Rewrite HintDb moltis_rw.

(** Split every [if] and [match] of the goal or of a hypothesis on its
    scrutinee, keeping the equation. *)
Ltac break_match_step :=
  match goal with
  | |- context [match ?x with _ => _ end] => destruct x eqn:?
  end.
Ltac break_match_hyp H :=
  match type of H with
  | context [match ?x with _ => _ end] => destruct x eqn:?
  end.
Ltac break := repeat (break_match_step; simplify_eq/=; try done).
Ltac break_in H := repeat (break_match_hyp H; simplify_eq/=; try done).

(** The same, innermost scrutinees first. *)
Ltac inner_match :=
  match goal with
  | |- context [match ?x with _ => _ end] =>
      lazymatch x with
      | context [match _ with _ => _ end] => fail
      | _ => destruct x eqn:?
      end
  end.
Ltac inner_match_hyp H :=
  match type of H with
  | context [match ?x with _ => _ end] =>
      lazymatch x with
      | context [match _ with _ => _ end] => fail
      | _ => destruct x eqn:?
      end
  end.
Ltac cases := repeat (inner_match; simplify_eq/=; try done).
Ltac cases_in H := repeat (inner_match_hyp H; simplify_eq/=; try done).

(** Turn boolean tests among the hypotheses into propositions. *)
Ltac bools :=
  repeat match goal with
  | H : (_ && _) = true |- _ => apply andb_true_iff in H as [? ?]
  | H : (_ || _) = false |- _ => apply orb_false_iff in H as [? ?]
  | H : negb _ = true |- _ => apply negb_true_iff in H
  | H : negb _ = false |- _ => apply negb_false_iff in H
  | H : (_ =? _)%Z = true |- _ => apply Z.eqb_eq in H
  | H : (_ =? _)%Z = false |- _ => apply Z.eqb_neq in H
  | H : (_ <? _)%Z = true |- _ => apply Z.ltb_lt in H
  | H : (_ <? _)%Z = false |- _ => apply Z.ltb_ge in H
  | H : (_ <=? _)%Z = true |- _ => apply Z.leb_le in H
  | H : (_ <=? _)%Z = false |- _ => apply Z.leb_gt in H
  | H : (_ <? _)%nat = true |- _ => apply Nat.ltb_lt in H
  | H : (_ <? _)%nat = false |- _ => apply Nat.ltb_ge in H
  | H : (_ <=? _)%nat = true |- _ => apply Nat.leb_le in H
  | H : (_ <=? _)%nat = false |- _ => apply Nat.leb_gt in H
  | H : (_ =? _)%nat = true |- _ => apply Nat.eqb_eq in H
  | H : (_ =? _)%nat = false |- _ => apply Nat.eqb_neq in H
  | H : (_ =? _)%N = true |- _ => apply N.eqb_eq in H
  | H : (_ =? _)%N = false |- _ => apply N.eqb_neq in H
  | H : bool_decide _ = true |- _ => apply bool_decide_eq_true in H
  | H : bool_decide _ = false |- _ => apply bool_decide_eq_false in H
  end.

(** * Generic lemmas *)

Section strings.
Local Open Scope nat_scope.
Implicit Types (p s r t : str) (c : char) (f : char → bool).

Lemma strip_prefix_Some p s r : strip_prefix p s = Some r ↔ s = p ++ r.
Proof.
  revert s; induction p as [|a p IH]; intros [|b s]; simpl; try naive_solver.
  destruct (N.eqb_spec a b) as [->|]; [rewrite IH|]; naive_solver.
Qed.

Lemma strip_prefix_app p s : strip_prefix p (p ++ s) = Some s.
Proof. by apply strip_prefix_Some. Qed.

Lemma starts_with_spec p s : starts_with p s = true ↔ ∃ r, s = p ++ r.
Proof.
  unfold starts_with. setoid_rewrite <- strip_prefix_Some.
  destruct (strip_prefix p s); naive_solver.
Qed.

Lemma strip_suffix_Some p s r : strip_suffix p s = Some r ↔ s = r ++ p.
Proof.
  unfold strip_suffix. rewrite fmap_Some. setoid_rewrite strip_prefix_Some.
  split.
  - intros (x & Hx & ->). apply (inj reverse).
    by rewrite reverse_app, reverse_involutive.
  - intros ->. exists (reverse r). by rewrite reverse_app, reverse_involutive.
Qed.

Lemma ends_with_spec p s : ends_with p s = true ↔ ∃ r, s = r ++ p.
Proof.
  unfold ends_with. setoid_rewrite <- strip_suffix_Some.
  destruct (strip_suffix p s); naive_solver.
Qed.

Lemma find_Some p s i :
  find p s = Some i →
  ∃ u v, s = u ++ p ++ v ∧ length u = i.
Proof.
  revert i; induction s as [|c s IH]; intros i; simpl; break_match_step.
  - intros [= <-]. apply starts_with_spec in Heqb as [r ->]. by exists [], r.
  - done.
  - intros [= <-]. apply starts_with_spec in Heqb as [r ->]. by exists [], r.
  - intros (j & Hj & ->)%fmap_Some. destruct (IH _ Hj) as (u & v & -> & <-).
    by exists (c :: u), v.
Qed.

Lemma find_app_le p u v : ∃ i, find p (u ++ p ++ v) = Some i ∧ i ≤ length u.
Proof.
  induction u as [|c u [i [IH Hi]]]; simpl.
  - exists 0. destruct (p ++ v) eqn:E; simpl; rewrite <- ?E.
    + apply app_eq_nil in E as [-> ->]. done.
    + replace (starts_with p (p ++ v)) with true; [done|].
      symmetry. apply starts_with_spec. eauto.
  - break_match_step; [exists 0; split; [done|lia]|].
    rewrite IH. exists (S i). split; [done|lia].
Qed.

(** The leftmost occurrence. *)
Lemma find_least p s i u v :
  find p s = Some i → s = u ++ p ++ v → i ≤ length u.
Proof. intros Hf ->. destruct (find_app_le p u v) as (j & ? & ?). naive_solver. Qed.

Lemma find_None p s : find p s = None ↔ ∀ u v, s ≠ u ++ p ++ v.
Proof.
  split.
  - intros Hf u v ->. destruct (find_app_le p u v) as (i & ? & _). congruence.
  - intros H. destruct (find p s) as [i|] eqn:E; [|done].
    apply find_Some in E as (u & v & -> & _). by destruct (H u v).
Qed.

Lemma cut_Some m s a b : cut m s = Some (a, b) → s = a ++ m ++ b ∧ find m s = Some (length a).
Proof.
  unfold cut. destruct (find m s) as [i|] eqn:E; [|done]. intros [= <- <-]. pose proof (find_Some _ _ _ E) as Hs.
  destruct Hs as (u & v & -> & <-). rewrite !take_app_length, drop_app_add, drop_app_length. done.
Qed.
Lemma cut_None m s : cut m s = None ↔ find m s = None.
Proof. unfold cut. by destruct (find m s). Qed.

Lemma contains_spec p s : contains p s = true ↔ ∃ u v, s = u ++ p ++ v.
Proof.
  unfold contains. destruct (find p s) as [i|] eqn:E.
  - apply find_Some in E as (u & v & -> & _). naive_solver.
  - split; [done|]. intros (u & v & Hs). by eapply find_None in Hs.
Qed.
End strings.

Lemma forallb_true {A} (f : A → bool) (l : list A) :
  forallb f l = true ↔ Forall (λ x, f x = true) l.
Proof. rewrite forallb_forall, Forall_forall. setoid_rewrite list_elem_of_In. done. Qed.

Lemma existsb_true {A} (f : A → bool) (l : list A) :
  existsb f l = true ↔ ∃ x, x ∈ l ∧ f x = true.
Proof. rewrite existsb_exists. setoid_rewrite list_elem_of_In. done. Qed.

Lemma filter_all {A} (P : A → Prop) `{∀ x, Decision (P x)} (l : list A) :
  Forall P l → filter P l = l.
Proof. induction 1; [done|]. by rewrite filter_cons_True, IHForall. Qed.

Lemma filter_nothing {A} (P : A → Prop) `{∀ x, Decision (P x)} (l : list A) :
  Forall (λ x, ¬ P x) l → filter P l = [].
Proof. induction 1; [done|]. by rewrite filter_cons_False. Qed.

Lemma is_some_and_true {A} (f : A → bool) (o : option A) :
  is_some_and f o = true ↔ ∃ a, o = Some a ∧ f a = true.
Proof. destruct o; simpl; naive_solver. Qed.

Lemma str_eqb_true (a b : str) : str_eqb a b = true ↔ a = b.
Proof. apply bool_decide_eq_true. Qed.
Lemma str_eqb_refl (a : str) : str_eqb a a = true.
Proof. by apply str_eqb_true. Qed.

Lemma snoc_split {A} (l : list A) x h1 y h2 :
  l ++ [x] = h1 ++ y :: h2 → (h2 = [] ∧ l = h1 ∧ x = y) ∨ ∃ h2', h2 = h2' ++ [x] ∧ l = h1 ++ y :: h2'.
Proof.
  destruct h2 as [|z h2 _] using rev_ind; intros E.
  - apply app_inj_tail in E as [-> ->]. by left.
  - right. rewrite app_comm_cons, app_assoc in E. apply app_inj_tail in E as [-> ->]. by exists h2.
Qed.

(** [ORDER BY f DESC]. *)
Definition newer {A} (f : A → str) (a b : A) : Prop := str_leP (f b) (f a).
Global Instance newer_dec {A} (f : A → str) : RelDecision (newer f) :=
  λ a b, decide (str_leP (f b) (f a)).

(** ** Decimals *)

Global Instance lit_inj : Inj (=) (=) lit.
Proof.
  intros a. induction a as [|x a IH]; intros [|y b]; simpl; try done. intros [= Hc Hs].
  f_equal; [|auto]. by rewrite <- (Ascii.ascii_N_embedding x), Hc, Ascii.ascii_N_embedding.
Qed.

Lemma lit_app a b : lit (a +:+ b) = lit a ++ lit b.
Proof. induction a as [|x a IH]; simpl; [done|]. by rewrite IH. Qed.

Lemma pretty_go_digits x s :
  Forall (λ c, is_ascii_digit c = true) (lit s) →
  Forall (λ c, is_ascii_digit c = true) (lit (pretty.pretty_N_go x s)).
Proof.
  revert s. induction (N.lt_wf_0 x) as [x _ IH]; intros s Hs.
  assert (x = 0 ∨ 0 < x)%N as [->|Hx] by lia; [by rewrite pretty.pretty_N_go_0|].
  rewrite pretty.pretty_N_go_step by done. apply IH; [by apply N.div_lt|]. simpl. constructor; [|done].
  unfold pretty.pretty_N_char. by repeat case_match.
Qed.

Lemma show_nat_digits n : Forall (λ c, is_ascii_digit c = true) (show_nat n).
Proof.
  unfold show_nat, pretty.pretty, pretty.pretty_N. case_decide; [by repeat constructor|].
  apply pretty_go_digits. constructor.
Qed.

Lemma show_nat_inj n m : show_nat n = show_nat m → n = m.
Proof. unfold show_nat. intros E%(inj lit)%(inj pretty.pretty). lia. Qed.

(** A run of digits ends at the first char that is none. *)
Lemma digits_cut (a b : str) c u v :
  Forall (λ c, is_ascii_digit c = true) a → Forall (λ c, is_ascii_digit c = true) b →
  is_ascii_digit c = false → a ++ c :: u = b ++ c :: v → a = b ∧ u = v.
Proof.
  intros Ha. revert b. induction Ha as [|x a Hx Ha IH]; intros b Hb Hc E.
  - destruct Hb as [|y b Hy Hb]; simplify_eq/=; [done|congruence].
  - destruct Hb as [|y b Hy Hb]; simplify_eq/=; [congruence|].
    destruct (IH b) as [-> ->]; done.
Qed.

Lemma utf8_len_app (s t : str) : utf8_len (s ++ t) = (utf8_len s + utf8_len t)%nat.
Proof. unfold utf8_len. by rewrite map_app, sum_list_with_app || (induction s; simpl; lia). Qed.
Lemma utf8_len_char_pos c : (1 ≤ utf8_len_char c)%nat.
Proof. unfold utf8_len_char. repeat case_match; lia. Qed.

(** A prefix is determined by its length in bytes. *)
Lemma utf8_len_cut (a b u v : str) : utf8_len a = utf8_len b → a ++ u = b ++ v → a = b ∧ u = v.
Proof.
  revert b. induction a as [|x a IH]; intros [|y b] Hl E; simpl in *; [done| | |].
  - unfold utf8_len in Hl. simpl in Hl. pose proof (utf8_len_char_pos y). lia.
  - unfold utf8_len in Hl. simpl in Hl. pose proof (utf8_len_char_pos x). lia.
  - injection E as -> E. unfold utf8_len in *. simpl in Hl. destruct (IH b) as [-> ->]; [lia|done|done].
Qed.

(** ** Trimming, and how long a printed number is *)

Section measures.
Local Open Scope nat_scope.
Lemma drop_while_suffix {A} f (l : list A) : drop_while f l `suffix_of` l.
Proof. induction l as [|x l IH]; simpl; [done|]. destruct (f x); [by apply suffix_cons_r|done]. Qed.
Lemma trim_end_prefix s : trim_end s `prefix_of` s.
Proof.
  unfold trim_end, trim_end_matches. destruct (drop_while_suffix is_whitespace (reverse s)) as [k Hk].
  exists (reverse k). by rewrite <- reverse_app, <- Hk, reverse_involutive.
Qed.
Lemma prefix_sublist {A} (l k : list A) : l `prefix_of` k → l `sublist_of` k.
Proof. intros [r ->]. by apply sublist_inserts_r. Qed.
Lemma suffix_sublist {A} (l k : list A) : l `suffix_of` k → l `sublist_of` k.
Proof. intros [r ->]. by apply sublist_inserts_l. Qed.
Lemma trim_sublist s : trim s `sublist_of` s.
Proof.
  unfold trim. etrans; [apply prefix_sublist, trim_end_prefix|].
  apply suffix_sublist, drop_while_suffix.
Qed.
Lemma pretty_go_length k x s :
  (x < 10 ^ N.of_nat k)%N → String.length (pretty.pretty_N_go x s) <= k + String.length s.
Proof.
  revert x s; induction k as [|k IH]; intros x s Hx.
  - replace x with 0%N by (simpl in Hx; lia). by rewrite pretty.pretty_N_go_0.
  - destruct (decide (0 < x)%N) as [Hp|Hp]; [|replace x with 0%N by lia; rewrite pretty.pretty_N_go_0; lia].
    rewrite pretty.pretty_N_go_step by done.
    etrans; [apply IH|simpl; lia]. apply N.Div0.div_lt_upper_bound.
    rewrite Nat2N.inj_succ, N.pow_succ_r' in Hx. lia.
Qed.
Lemma length_lit s : length (lit s) = String.length s.
Proof. induction s; simpl; congruence. Qed.
Lemma show_nat_length k n : 0 < k → (N.of_nat n < 10 ^ N.of_nat k)%N → length (show_nat n) <= k.
Proof.
  intros Hk Hn. unfold show_nat. rewrite length_lit. unfold pretty.pretty, pretty.pretty_N.
  case_decide; [simpl; lia|]. pose proof (pretty_go_length k (N.of_nat n) "" Hn). simpl in *. lia.
Qed.
(** A length of a [String] has few digits. *)
Lemma show_nat_short n : (Z.of_nat n < u64_bound)%Z → length (show_nat n) <= 20.
Proof. intros Hn. apply show_nat_length; [lia|]. unfold u64_bound in Hn. simpl in *. lia. Qed.
End measures.

#[export] Hint Rewrite strip_prefix_app : moltis_rw.
#[export] Hint Resolve strip_prefix_app : moltis.
