(* ===== verification/Float64.v ===== *)
(** Doubles.

    A Rust [f64] is an IEEE 754 double: [SpecFloat] of the Standard Library at precision
    53 and exponent bound 1024, executable and correctly rounded.  What it lacks and the
    sources use -- the remainder, the reading of literals and the cast to [i64] -- is
    defined here.  [f64::powf] calls the platform's mathematical library, whose
    rounding is not specified: it is the class [Libm]. *)
From Stdlib Require Import SpecFloat.
From S2P Require Import Prelude.
Local Open Scope Z_scope.

Notation f64 := spec_float (only parsing).
Notation prec := 53 (only parsing).
Notation emax := 1024 (only parsing).

#[export] Instance f64_eq_dec : EqDecision f64.
Proof. solve_decision. Defined.

Class Libm := { powf : f64 → f64 → f64 }.

Definition f_add : f64 → f64 → f64 := SFadd prec emax.
Definition f_sub : f64 → f64 → f64 := SFsub prec emax.
Definition f_mul : f64 → f64 → f64 := SFmul prec emax.
Definition f_div : f64 → f64 → f64 := SFdiv prec emax.
Definition f_neg : f64 → f64 := SFopp.

Definition f_of_Z (m e : Z) : f64 := binary_normalize prec emax m e false.

(** [x % y]: the exact remainder of the division that truncates, with the sign of [x]. *)
Definition f_rem (x y : f64) : f64 :=
  match x, y with
  | S754_nan, _ | _, S754_nan | S754_infinity _, _ | _, S754_zero _ => S754_nan
  | S754_zero _, _ | _, S754_infinity _ => x
  | S754_finite sx mx ex, S754_finite _ my ey =>
      let e := Z.min ex ey in
      let r := (Z.pos mx * 2 ^ (ex - e)) mod (Z.pos my * 2 ^ (ey - e)) in
      if r =? 0 then S754_zero sx else f_of_Z (if sx then - r else r) e
  end.

Definition f_is_finite (x : f64) : bool :=
  match x with S754_zero _ | S754_finite _ _ _ => true | _ => false end.

(** [x.classify() == Zero]. *)
Definition f_is_zero (x : f64) : bool := match x with S754_zero _ => true | _ => false end.

(** The value of a finite number without its fraction. *)
Definition f_trunc (x : f64) : Z :=
  match x with
  | S754_finite s m e =>
      let a := if 0 <=? e then Z.pos m * 2 ^ e else Z.pos m / 2 ^ (- e) in
      if s then - a else a
  | _ => 0
  end.

(** [x.fract() == 0.0]. *)
Definition f_is_integer (x : f64) : bool :=
  match x with
  | S754_zero _ => true
  | S754_finite _ m e => (0 <=? e) || (Z.pos m mod 2 ^ (- e) =? 0)
  | _ => false
  end.

(** [x as i64] of a finite number. *)
Definition f_to_i64 (x : f64) : Z := clamp (- 2 ^ 63) (2 ^ 63 - 1) (f_trunc x).

(** ** Literals *)

(** The double nearest to [m * 10 ^ e]: an exact numerator and denominator, rounded once. *)
Definition f_of_decimal (m e : Z) : f64 :=
  match m, 10 ^ (- e) with
  | Z.pos p, Z.pos d => f_div (S754_finite false p 0) (S754_finite false d 0)
  | Z.pos _, _ => f_of_Z (m * 10 ^ e) 0
  | _, _ => S754_zero false
  end.

(** The exponent of a literal after its [e]. *)
Definition parse_exponent (s : str) : option Z :=
  match s with
  | c :: ds =>
      if (c =? ch "-")%N then if is_nonempty ds then Some (- digits_value ds) else None
      else if (c =? ch "+")%N then if is_nonempty ds then Some (digits_value ds) else None
      else Some (digits_value s)
  | [] => None
  end.

(** [str::parse::<f64>] of unsigned decimal literals: digits with an optional fraction and
    an optional exponent. *)
Definition parse_f64 (s : str) : option f64 :=
  let int := take_while is_ascii_digit s in
  let rest := drop (length int) s in
  let frac := match rest with
              | c :: r => if (c =? ch ".")%N then take_while is_ascii_digit r else []
              | [] => []
              end in
  let rest := match rest with
              | c :: r => if (c =? ch ".")%N then drop (length frac) r else rest
              | [] => []
              end in
  if negb (is_nonempty (int ++ frac)) then None
  else
    match rest with
    | [] => Some (f_of_decimal (digits_value (int ++ frac)) (- Z.of_nat (length frac)))
    | c :: ex =>
        if (c =? ch "e")%N || (c =? ch "E")%N then
          (λ x, f_of_decimal (digits_value (int ++ frac)) (x - Z.of_nat (length frac))) <$> parse_exponent ex
        else None
    end.

(** The digits at the front, and the rest. *)
Definition split_digits (s : str) : str * str :=
  let ds := take_while is_ascii_digit s in (ds, drop (length ds) s).

(** An optional exponent that fills the rest of a literal. *)
Definition whole_exponent (s : str) : option Z :=
  match s with
  | [] => Some 0
  | c :: ex =>
      if (c =? ch "e")%N || (c =? ch "E")%N then
        let '(neg, ds) := match ex with
                          | d :: r => if (d =? ch "-")%N then (true, r)
                                      else if (d =? ch "+")%N then (false, r) else (false, ex)
                          | [] => (false, [])
                          end in
        if is_nonempty ds && forallb is_ascii_digit ds
        then Some (if neg then - digits_value ds else digits_value ds) else None
      else None
  end.

(** [str::parse::<f64>] in full: a sign, then [inf], [infinity], [nan] in any case, or digits with an
    optional fraction and exponent. *)
Definition f64_from_str (s : str) : option f64 :=
  let '(neg, s) := match s with
                   | c :: r => if (c =? ch "-")%N then (true, r)
                               else if (c =? ch "+")%N then (false, r) else (false, s)
                   | [] => (false, [])
                   end in
  let lower := to_ascii_lowercase s in
  if str_eqb lower "inf" || str_eqb lower "infinity" then Some (S754_infinity neg)
  else if str_eqb lower "nan" then Some S754_nan
  else
    let '(int, rest) := split_digits s in
    let '(frac, rest) := match rest with
                         | c :: r => if (c =? ch ".")%N then split_digits r else ([], rest)
                         | [] => ([], [])
                         end in
    if negb (is_nonempty (int ++ frac)) then None
    else
      e ← whole_exponent rest;
      let x := f_of_decimal (digits_value (int ++ frac)) (e - Z.of_nat (length frac)) in
      Some (if neg then f_neg x else x).

Example f64_from_str_signed : f64_from_str "-2.5e+1" = Some (f_of_Z (-25) 0).
Proof. vm_compute. reflexivity. Qed.
Example f64_from_str_rest : f64_from_str "1e5x" = None ∧ f64_from_str "." = None ∧ f64_from_str "" = None.
Proof. split_and!; vm_compute; reflexivity. Qed.
Example parse_f64_tenth : parse_f64 "0.1" = Some (S754_finite false 7205759403792794 (-56)).
Proof. vm_compute. reflexivity. Qed.
Example parse_f64_exponent : parse_f64 "12.5e1" = parse_f64 "125".
Proof. vm_compute. reflexivity. Qed.
Example f_rem_fraction : f_rem (f_of_Z (-7) 0) (f_of_Z 5 (-1)) = f_of_Z (-2) 0.
Proof. vm_compute. reflexivity. Qed.

(** A [powf] by repeated multiplication for natural exponents, for evaluating examples. *)
Definition toy_powf (x y : f64) : f64 :=
  let n := f_trunc y in
  if f_is_integer y && (0 <=? n)
  then Nat.iter (Z.to_nat n) (f_mul x) (f_of_Z 1 0) else S754_nan.
Definition toy_libm : Libm := {| powf := toy_powf |}.
