(* ===== verification/Json.v ===== *)
(** JSON values.

    [serde_json::Value] as the sources use it: the accessors [as_object], [as_str], [get],
    the insertion into an object, and an induction principle for values.  The workspace
    builds [serde_json] with [preserve_order], so an object is an association list in the
    order of insertion.  Parsing and printing are the crate's and stay parameters of the
    models that need them. *)
From Stdlib Require Import SpecFloat.
From S2P Require Import Prelude Float64.
Local Open Scope Z_scope.

(** [serde_json::Number]: a non-negative or a negative integer of 64 bits, or a finite double. *)
Inductive number :=
| PosInt (n : Z)
| NegInt (z : Z)
| Float (f : f64).

Inductive json :=
| JNull
| JBool (b : bool)
| JNumber (n : number)
| JString (s : str)
| JArray (arr : list json)
| JObject (m : list (str * json)).

(** ** Numbers *)

Definition number_as_i64 (n : number) : option Z :=
  match n with
  | PosInt n => if n <? 2 ^ 63 then Some n else None
  | NegInt z => Some z
  | Float _ => None
  end.
Definition number_as_u64 (n : number) : option Z :=
  match n with PosInt n => Some n | _ => None end.
Definition number_as_f64 (n : number) : option f64 :=
  match n with
  | PosInt n => Some (f_of_Z n 0)
  | NegInt z => Some (f_of_Z z 0)
  | Float f => Some f
  end.
Definition number_of_Z (z : Z) : number := if z <? 0 then NegInt z else PosInt z.
Definition number_of_f64 (f : f64) : option number :=
  if f_is_finite f then Some (Float f) else None.

(** [Display] of a double is the crate's. *)
Class FloatFormat := { show_f64 : f64 → str }.
Definition number_to_string `{FloatFormat} (n : number) : str :=
  match n with
  | PosInt n => show_Z n
  | NegInt z => show_Z z
  | Float f => show_f64 f
  end.

(** A format for evaluating examples: the truncated value. *)
Definition toy_format : FloatFormat := {| show_f64 f := show_Z (f_trunc f) |}.

(** [Display] of a value, which always prints, is the crate's too. *)
Class JsonDisplay := { show_json : json → str }.

(** ** Accessors *)

Definition as_object (v : json) : option (list (str * json)) :=
  match v with JObject m => Some m | _ => None end.
Definition as_array (v : json) : option (list json) :=
  match v with JArray a => Some a | _ => None end.
Definition as_str (v : json) : option str :=
  match v with JString s => Some s | _ => None end.
Definition as_bool (v : json) : option bool :=
  match v with JBool b => Some b | _ => None end.
Definition as_number (v : json) : option number :=
  match v with JNumber n => Some n | _ => None end.
Definition as_i64 (v : json) : option Z := as_number v ≫= number_as_i64.
Definition as_u64 (v : json) : option Z := as_number v ≫= number_as_u64.
Definition as_f64 (v : json) : option f64 := as_number v ≫= number_as_f64.
(** [arr.iter().filter_map(Value::as_str)]. *)
Definition strings (a : list json) : list str := omap as_str a.
Definition is_null (v : json) : bool := match v with JNull => true | _ => false end.

(** [map.get(k)]. *)
Fixpoint assoc {V} (k : str) (m : list (str * V)) : option V :=
  match m with
  | [] => None
  | (k', v) :: m' => if bool_decide (k' = k) then Some v else assoc k m'
  end.

(** [map.insert(k, v)]: in place when the key is there, else at the end. *)
Fixpoint insert_assoc {V} (k : str) (v : V) (m : list (str * V)) : list (str * V) :=
  match m with
  | [] => [(k, v)]
  | (k', v') :: m' => if bool_decide (k' = k) then (k, v) :: m' else (k', v') :: insert_assoc k v m'
  end.

(** [value.get(k)]. *)
Definition get (k : str) (v : json) : option json := as_object v ≫= assoc k.

(** ** Values in general *)

Section json_rect.
Context (P : json → Prop) (Hnull : P JNull) (Hbool : ∀ b, P (JBool b))
  (Hnum : ∀ n, P (JNumber n)) (Hstr : ∀ s, P (JString s))
  (Harr : ∀ a, Forall P a → P (JArray a))
  (Hobj : ∀ m, Forall (λ kv, P kv.2) m → P (JObject m)).

(** Induction with a hypothesis for every element and every member. *)
Fixpoint json_nested_ind (v : json) : P v :=
  match v with
  | JNull => Hnull
  | JBool b => Hbool b
  | JNumber n => Hnum n
  | JString s => Hstr s
  | JArray a => Harr a ((fix go l : Forall P l :=
      match l with
      | [] => Forall_nil_2 _
      | x :: l' => Forall_cons_2 _ _ _ (json_nested_ind x) (go l')
      end) a)
  | JObject m => Hobj m ((fix go l : Forall (λ kv, P kv.2) l :=
      match l with
      | [] => Forall_nil_2 _
      | x :: l' => Forall_cons_2 _ _ _ (json_nested_ind x.2) (go l')
      end) m)
  end.
End json_rect.

(** ** Equality

    [Value]'s [PartialEq]: objects are compared as maps, without regard to the order of their
    members; doubles as IEEE values. *)

Definition number_eqb (a b : number) : bool :=
  match a, b with
  | PosInt n, PosInt m => n =? m
  | NegInt z, NegInt y => z =? y
  | Float f, Float g => SFeqb f g
  | _, _ => false
  end.

Fixpoint json_eqb (a b : json) : bool :=
  match a, b with
  | JNull, JNull => true
  | JBool x, JBool y => Bool.eqb x y
  | JNumber n, JNumber m => number_eqb n m
  | JString s, JString t => str_eqb s t
  | JArray l, JArray r =>
      (fix go (l r : list json) : bool :=
         match l, r with
         | [], [] => true
         | x :: l', y :: r' => json_eqb x y && go l' r'
         | _, _ => false
         end) l r
  | JObject m, JObject m' =>
      bool_decide (length m = length m') &&
      (fix go (l : list (str * json)) : bool :=
         match l with
         | [] => true
         | (k, x) :: l' => match assoc k m' with Some y => json_eqb x y | None => false end && go l'
         end) m
  | _, _ => false
  end.

(** A value as the crate builds it: the keys of an object are distinct and a double is finite. *)
Fixpoint json_wf (v : json) : Prop :=
  match v with
  | JNumber (Float f) => f_is_finite f = true
  | JArray l => (fix go (l : list json) : Prop :=
      match l with [] => True | x :: l' => json_wf x ∧ go l' end) l
  | JObject m => NoDup m.*1 ∧ (fix go (l : list (str * json)) : Prop :=
      match l with [] => True | kv :: l' => json_wf kv.2 ∧ go l' end) m
  | _ => True
  end.

(** ** Association lists *)

Section assoc.
Context {V : Type}.
Implicit Types (m : list (str * V)) (k : str) (v : V).

Lemma assoc_Some k m v : NoDup m.*1 → assoc k m = Some v ↔ (k, v) ∈ m.
Proof.
  induction m as [|[k' v'] m IH]; simpl; [set_solver|].
  rewrite NoDup_cons. intros [Hk Hm]. rewrite elem_of_cons. case_bool_decide as E.
  - subst k'. split; [intros [= ->]; by left|intros [[= ->]|Hin]; [done|]].
    exfalso. apply Hk. apply list_elem_of_fmap. by exists (k, v).
  - rewrite IH by done. split; [by right|intros [[= -> ->]|?]; done].
Qed.

Lemma assoc_perm k m m' : NoDup m.*1 → m ≡ₚ m' → assoc k m = assoc k m'.
Proof.
  intros Hm Hp. assert (NoDup m'.*1) by (by rewrite <- Hp).
  apply option_eq. intros v. by rewrite !assoc_Some, Hp.
Qed.

Lemma assoc_In k m v : assoc k m = Some v → (k, v) ∈ m.
Proof.
  induction m as [|[k' v'] m IH]; simpl; [done|]. case_bool_decide; [|right; auto].
  intros [= ->]. subst. by left.
Qed.

Lemma assoc_insert k v m : assoc k (insert_assoc k v m) = Some v.
Proof.
  induction m as [|[k' v'] m IH]; simpl; [by rewrite bool_decide_eq_true_2|].
  case_bool_decide; simpl; [by rewrite bool_decide_eq_true_2|]. by rewrite bool_decide_eq_false_2.
Qed.

Lemma assoc_insert_ne k k' v m : k ≠ k' → assoc k (insert_assoc k' v m) = assoc k m.
Proof.
  intros Hk. induction m as [|[k2 v2] m IH]; simpl; [by rewrite bool_decide_eq_false_2|].
  destruct (decide (k2 = k')) as [->|Hn].
  - rewrite !bool_decide_eq_true_2 by done. simpl. by rewrite !bool_decide_eq_false_2.
  - rewrite (bool_decide_eq_false_2 (k2 = k')) by done. simpl. by rewrite IH.
Qed.

Lemma insert_keys k v m : k ∈ m.*1 → (insert_assoc k v m).*1 = m.*1.
Proof.
  induction m as [|[k' v'] m IH]; simpl; [by intros ?%not_elem_of_nil|].
  case_bool_decide; [by subst|]. intros [->|Hk]%elem_of_cons; [done|]. simpl. f_equal. by apply IH.
Qed.
End assoc.

(** ** Well-formed values *)

Lemma json_wf_member k v m : json_wf (JObject m) → assoc k m = Some v → json_wf v.
Proof.
  simpl. intros [_ Hw] Ha%assoc_In. induction m as [|[k' x] m IH]; [by apply elem_of_nil in Ha|].
  destruct Hw as [Hx Hw]. apply elem_of_cons in Ha as [[= -> ->]|Ha]; [done|by apply IH].
Qed.

Lemma json_wf_get k v w : json_wf v → get k v = Some w → json_wf w.
Proof. destruct v; try done. unfold get; simpl. intros Hw Ha. by eapply json_wf_member. Qed.

(** Equality is reflexive on the values the crate builds. *)
Lemma json_eqb_refl v : json_wf v → json_eqb v v = true.
Proof.
  induction v as [|b|n|s|a IH|m IH] using json_nested_ind; simpl; intros Hw.
  - done.
  - by destruct b.
  - destruct n as [n|z|f]; simpl; [apply Z.eqb_refl..|].
    destruct f as [s|s| |s m e]; try done; unfold SFeqb; simpl.
    destruct s; rewrite Z.compare_refl; by rewrite Pos.compare_cont_refl.
  - apply str_eqb_refl.
  - induction IH as [|x l Hx _ IH']; [done|]. destruct Hw as [Hw1 Hw2]. by rewrite (Hx Hw1), IH'.
  - rewrite bool_decide_eq_true_2 by done. destruct Hw as [Hnd Hw]. simpl.
    assert (Hsub : ∀ l, (∀ kv, kv ∈ l → kv ∈ m) → Forall (λ kv, json_wf kv.2 → json_eqb kv.2 kv.2 = true) l →
      (fix go (l : list (str * json)) : Prop :=
        match l with [] => True | kv :: l' => json_wf kv.2 ∧ go l' end) l →
      (fix go (l : list (str * json)) : bool :=
         match l with
         | [] => true
         | (k, x) :: l' => match assoc k m with Some y => json_eqb x y | None => false end && go l'
         end) l = true).
    { induction l as [|[k x] l IHl]; [done|]. intros Hin Hall [Hx Hl].
      inversion_clear Hall as [|? ? Hx' Hall'].
      rewrite (proj2 (assoc_Some k m x Hnd)) by (apply Hin; left).
      simpl in Hx'. rewrite Hx' by done. apply IHl; [|done..]. intros kv Hkv. apply Hin. by right. }
    apply Hsub; done.
Qed.
