(* ===== verification/Utf8.v ===== *)
(** UTF-8.

    What [str::as_bytes] and [String::from_utf8] do: the encoding of code points as
    bytes and its strict decoder, with the round trip.  A byte is an [N] below 256. *)
From S2P Require Import Prelude.
Local Open Scope N_scope.

Notation bytes := (list N) (only parsing).

(** A Unicode scalar value, which is what a [char] may be. *)
Definition is_scalar (c : char) : bool :=
  (c <? 55296) || in_range 57344 1114111 c.

Definition utf8_encode_char (c : char) : bytes :=
  if c <? 128 then [c]
  else if c <? 2048 then [192 + c / 64; 128 + c mod 64]
  else if c <? 65536 then [224 + c / 4096; 128 + (c / 64) mod 64; 128 + c mod 64]
  else [240 + c / 262144; 128 + (c / 4096) mod 64; 128 + (c / 64) mod 64; 128 + c mod 64].

(** [s.as_bytes()]. *)
Definition as_bytes (s : str) : bytes := flat_map utf8_encode_char s.

Definition is_cont (b : N) : bool := in_range 128 191 b.

(** [String::from_utf8], [None] for an error. Overlong forms, surrogates and values
    above the last code point are rejected. *)
Fixpoint from_utf8 (bs : bytes) : option str :=
  match bs with
  | [] => Some []
  | b0 :: r0 =>
      if b0 <? 128 then cons b0 <$> from_utf8 r0
      else match r0 with
      | [] => None
      | b1 :: r1 =>
          if in_range 192 223 b0 then
            let c := (b0 - 192) * 64 + (b1 - 128) in
            if is_cont b1 && (128 <=? c) then cons c <$> from_utf8 r1 else None
          else match r1 with
          | [] => None
          | b2 :: r2 =>
              if in_range 224 239 b0 then
                let c := ((b0 - 224) * 64 + (b1 - 128)) * 64 + (b2 - 128) in
                if is_cont b1 && is_cont b2 && (2048 <=? c) && is_scalar c
                then cons c <$> from_utf8 r2 else None
              else match r2 with
              | [] => None
              | b3 :: r3 =>
                  let c := (((b0 - 240) * 64 + (b1 - 128)) * 64 + (b2 - 128)) * 64 + (b3 - 128) in
                  if in_range 240 247 b0 && is_cont b1 && is_cont b2 && is_cont b3 &&
                     (65536 <=? c) && is_scalar c
                  then cons c <$> from_utf8 r3 else None
              end
          end
      end
  end.

Definition is_str (s : str) : Prop := Forall (λ c, is_scalar c = true) s.

Lemma cont_range x : is_cont (128 + x mod 64) = true.
Proof.
  pose proof (N.mod_lt x 64 ltac:(done)) as Hm. revert Hm. generalize (x mod 64). intros m Hm.
  unfold is_cont, in_range. rewrite andb_true_iff, !N.leb_le. lia.
Qed.

Lemma lead_range lo n x : x <= n → in_range lo (lo + n) (lo + x) = true.
Proof. unfold in_range. rewrite andb_true_iff, !N.leb_le. lia. Qed.

Lemma not_range lo hi x : hi < x → in_range lo hi x = false.
Proof. unfold in_range. rewrite andb_false_iff, !N.leb_gt. lia. Qed.

Lemma div_div64 c n : n ≠ 0 → c / (n * 64) = c / n / 64.
Proof. intros. by rewrite N.Div0.div_div. Qed.

Lemma from_utf8_encode_char c s :
  is_scalar c = true → from_utf8 (utf8_encode_char c ++ s) = cons c <$> from_utf8 s.
Proof.
  intros Hc. unfold utf8_encode_char.
  pose proof (N.div_mod c 64 ltac:(done)) as H1. pose proof (N.mod_lt c 64 ltac:(done)) as M1.
  pose proof (N.div_mod (c / 64) 64 ltac:(done)) as H2. pose proof (N.mod_lt (c / 64) 64 ltac:(done)) as M2.
  pose proof (N.div_mod (c / 64 / 64) 64 ltac:(done)) as H3. pose proof (N.mod_lt (c / 64 / 64) 64 ltac:(done)) as M3.
  change 262144 with (64 * 64 * 64). change 4096 with (64 * 64). rewrite !div_div64 by done.
  assert (c < 1114112).
  { unfold is_scalar, in_range in Hc. rewrite orb_true_iff, andb_true_iff, N.ltb_lt, !N.leb_le in Hc. lia. }
  pose proof (cont_range c) as C1. pose proof (cont_range (c / 64)) as C2.
  pose proof (cont_range (c / 64 / 64)) as C3.
  revert H1 M1 H2 M2 H3 M3 C1 C2 C3. generalize (c / 64 / 64 / 64) ((c / 64 / 64) mod 64).
  generalize (c / 64 / 64) ((c / 64) mod 64). generalize (c / 64) (c mod 64).
  intros q1 m1 q2 m2 q3 m3 H1 M1 H2 M2 H3 M3 C1 C2 C3.
  destruct (N.ltb_spec c 128) as [?|?]; [|destruct (N.ltb_spec c 2048) as [?|?];
    [|destruct (N.ltb_spec c 65536) as [?|?]]]; cbn [app from_utf8].
  - by rewrite (proj2 (N.ltb_lt c 128)) by done.
  - rewrite (proj2 (N.ltb_ge _ 128)) by lia. change 223 with (192 + 31).
    rewrite lead_range by lia. cbv zeta. rewrite C1. cbn [andb].
    replace ((192 + q1 - 192) * 64 + (128 + m1 - 128)) with c by lia.
    by rewrite (proj2 (N.leb_le 128 c)) by done.
  - rewrite (proj2 (N.ltb_ge _ 128)), not_range by lia. change 239 with (224 + 15).
    rewrite lead_range by lia. cbv zeta. rewrite C1, C2. cbn [andb].
    replace (((224 + q2 - 224) * 64 + (128 + m2 - 128)) * 64 + (128 + m1 - 128)) with c by lia.
    by rewrite (proj2 (N.leb_le 2048 c)), Hc by done.
  - rewrite (proj2 (N.ltb_ge _ 128)), !not_range by lia. change 247 with (240 + 7).
    rewrite lead_range by lia. cbv zeta. rewrite C1, C2, C3. cbn [andb].
    match goal with |- context [65536 <=? ?x] => replace x with c by lia end.
    by rewrite (proj2 (N.leb_le 65536 c)), Hc by done.
Qed.

(** Decoding the bytes of a string gives it back. *)
Lemma from_utf8_as_bytes s : is_str s → from_utf8 (as_bytes s) = Some s.
Proof.
  induction 1 as [|c s Hc _ IH]; [done|]. change (as_bytes (c :: s)) with (utf8_encode_char c ++ as_bytes s).
  by rewrite from_utf8_encode_char, IH.
Qed.

Lemma as_bytes_inj s t : is_str s → is_str t → as_bytes s = as_bytes t → s = t.
Proof.
  intros Hs Ht E. apply from_utf8_as_bytes in Hs, Ht. rewrite E, Ht in Hs. congruence.
Qed.

Lemma utf8_len_as_bytes s : utf8_len s = length (as_bytes s).
Proof.
  unfold utf8_len. induction s as [|c s IH]; [done|]. simpl. rewrite length_app, IH. f_equal.
  unfold utf8_len_char, utf8_encode_char. by repeat case_match.
Qed.

(** ** Positions in bytes

    [str::is_char_boundary], the walk back to a boundary, and the slice up to one. *)
Section boundaries.
Local Open Scope nat_scope.

Fixpoint is_char_boundary (s : str) (n : nat) : bool :=
  match n, s with
  | O, _ => true
  | _, [] => false
  | _, c :: s' =>
      if (n <? utf8_len_char c)%nat then false else is_char_boundary s' (n - utf8_len_char c)
  end.
Fixpoint floor_boundary (s : str) (n : nat) : nat :=
  match n with
  | O => O
  | S n' => if is_char_boundary s n then n else floor_boundary s n'
  end.
(** [&s[..n]] at a boundary. *)
Fixpoint prefix_bytes (s : str) (n : nat) : str :=
  match s with
  | [] => []
  | c :: s' => if (n <? utf8_len_char c)%nat then [] else c :: prefix_bytes s' (n - utf8_len_char c)
  end.

Lemma boundary_app (s1 s2 : str) : is_char_boundary (s1 ++ s2) (utf8_len s1) = true.
Proof.
  induction s1 as [|c s1 IH]; [by destruct s2|].
  assert (Hl : utf8_len (c :: s1) = (utf8_len_char c + utf8_len s1)%nat) by done.
  pose proof (utf8_len_char_pos c) as Hp. rewrite Hl. simpl app.
  destruct (utf8_len_char c + utf8_len s1)%nat as [|n] eqn:E; [lia|]. simpl. rewrite <- E.
  rewrite (proj2 (Nat.ltb_ge _ _)) by lia. replace (_ - _)%nat with (utf8_len s1) by lia. done.
Qed.

Lemma boundary_prefix s n :
  is_char_boundary s n = true → ∃ s2, s = prefix_bytes s n ++ s2 ∧ utf8_len (prefix_bytes s n) = n.
Proof.
  revert n. induction s as [|c s IH]; intros n Hb.
  - destruct n; [|done]. by exists [].
  - destruct n as [|n]; [exists (c :: s); simpl; pose proof (utf8_len_char_pos c);
      by rewrite (proj2 (Nat.ltb_lt _ _)) by lia|].
    cbn [is_char_boundary] in Hb. cbn [prefix_bytes].
    destruct (Nat.ltb_spec (S n) (utf8_len_char c)); [done|].
    destruct (IH _ Hb) as (s2 & Hs & Hn). exists s2. split; [simpl; by f_equal|].
    change (utf8_len (c :: prefix_bytes s (S n - utf8_len_char c)) = S n).
    unfold utf8_len in *. simpl. lia.
Qed.

Lemma floor_boundary_spec s n :
  (floor_boundary s n <= n)%nat ∧ is_char_boundary s (floor_boundary s n) = true ∧
  ∀ m, (m <= n)%nat → is_char_boundary s m = true → (m <= floor_boundary s n)%nat.
Proof.
  induction n as [|n (IH1 & IH2 & IH3)]; simpl.
  - split_and!; [done|by destruct s|]. intros. lia.
  - destruct (is_char_boundary s (S n)) eqn:E.
    + split_and!; [lia|done|]. intros. lia.
    + split_and!; [lia|done|]. intros m Hm Hb. destruct (decide (m = S n)) as [->|]; [congruence|].
      apply IH3; [lia|done].
Qed.
End boundaries.
