(* ===== verification/Prog.v ===== *)
(** Methods as programs over statements.

    A method of a store that lives in a database is a sequence of statements, each of them atomic;
    between two of them other calls may run, and each may fail, which ends the method with the error
    and has no effect.  The stores share the programs, their runs alone and under faults, and the
    two arguments that carry over to any interleaving. *)
From S2P Require Import Prelude.

Section prog.
(** The tables; the errors of a method. *)
Context {S E : Type}.

(** A method between two statements: finished, or about to execute [q] and go on. *)
Inductive prog (A : Type) : Type :=
| Done (r : result A E)
| Query (B : Set) (q : S → result B str * S) (k : B → prog A).
Arguments Done {A} r.
Arguments Query {A B} q k.

Fixpoint pmap {A B} (f : A → B) (p : prog A) : prog B :=
  match p with
  | Done (Ok a) => Done (Ok (f a))
  | Done (Err e) => Done (Err e)
  | Query q k => Query q (λ b, pmap f (k b))
  end.

(** One method after another, which goes on from its result. *)
Fixpoint pbind {A B} (p : prog A) (f : A → prog B) : prog B :=
  match p with
  | Done (Ok a) => f a
  | Done (Err e) => Done (Err e)
  | Query q k => Query q (λ b, pbind (k b) f)
  end.

(** The error of a failed statement. *)
Context (Db : str → E).

(** One call alone: [faults] says which statements fail, and how; a failed statement has no
    effect. *)
Fixpoint run {A} (p : prog A) (faults : list (option str)) (s : S) : result A E * S :=
  match p with
  | Done r => (r, s)
  | Query q k =>
      match faults with
      | Some e :: _ => (Err (Db e), s)
      | _ => match q s with
             | (Ok b, s') => run (k b) (tail faults) s'
             | (Err e, _) => (Err (Db e), s)
             end
      end
  end.

(** The statements that read, and those that write and cannot violate a constraint. *)
Definition select {A : Set} (f : S → A) : S → result A str * S := λ s, (Ok (f s), s).
Definition update (f : S → S) : S → result unit str * S := λ s, (Ok tt, f s).

(** All executions of a call alone: the faults and outcomes of its statements, one by one. *)
Definition rmap {A B} (g : A → B) (r : result A E) : result B E :=
  match r with Ok a => Ok (g a) | Err e => Err e end.

Lemma run_pmap {A B} (g : A → B) (p : prog A) f s r s' :
  run (pmap g p) f s = (r, s') → ∃ r0, run p f s = (r0, s') ∧ r = rmap g r0.
Proof.
  revert f s. induction p as [[a|e]|C q k IH]; intros f s Hr; cbn in *; simplify_eq; eauto.
  destruct f as [|[e|] f]; [|by simplify_eq; eauto|];
    (destruct (q s) as [[b|e'] s1]; [eauto|by simplify_eq; eauto]).
Qed.

Lemma run_Query {A} (B : Set) (q : S → result B str * S) (k : B → prog A) f s r s' :
  run (Query q k) f s = (r, s') →
  (∃ e, r = Err (Db e) ∧ s' = s) ∨ (∃ b s1 f', q s = (Ok b, s1) ∧ run (k b) f' s1 = (r, s')).
Proof.
  cbn. intros Hr. destruct f as [|[e|] f]; [|by simplify_eq; eauto|];
    (destruct (q s) as [[b|e'] s1] eqn:E0; [right; eauto|simplify_eq; eauto]).
Qed.

Lemma run_pbind {A B} (p : prog A) (g : A → prog B) f s r s' :
  run (pbind p g) f s = (r, s') →
  (∃ e f', run p f' s = (Err e, s') ∧ r = Err e) ∨
  (∃ a s1 f1 f2, run p f1 s = (Ok a, s1) ∧ run (g a) f2 s1 = (r, s')).
Proof.
  revert f s. induction p as [[a|e]|C q k IH]; intros f s Hr; cbn [pbind] in Hr.
  - right. by exists a, s, [], f.
  - left. exists e, []. cbn in Hr. by simplify_eq.
  - apply run_Query in Hr as [(e & -> & ->)|(b & s1 & f' & Hq & Hr)].
    + left. by exists (Db e), [Some e].
    + apply IH in Hr as [(e & f1 & Hr & ->)|(a & s2 & f1 & f2 & Hr & Hg)].
      * left. exists e, (None :: f1). cbn. by rewrite Hq.
      * right. exists a, s2, (None :: f1), f2. cbn. by rewrite Hq.
Qed.

(** Every statement a program may execute changes the tables within [P]. *)
Fixpoint all_statements {A} (P : S → S → Prop) (p : prog A) : Prop :=
  match p with
  | Done _ => True
  | Query q k => ∀ s b s', q s = (Ok b, s') → P s s' ∧ all_statements P (k b)
  end.

(** A program cannot succeed without establishing [K] on the way, at a point where [J] holds. *)
Fixpoint establishes {A} (J K : S → Prop) (p : prog A) : Prop :=
  match p with
  | Done (Ok _) => False
  | Done (Err _) => True
  | Query q k => ∀ s b s', J s → q s = (Ok b, s') → K s' ∨ establishes J K (k b)
  end.

Lemma all_statements_pmap {A B} (g : A → B) P p : all_statements P p → all_statements P (pmap g p).
Proof.
  induction p as [[?|?]|C q k IH]; simpl; try done. intros Ha s b s' Hq.
  destruct (Ha _ _ _ Hq). auto.
Qed.
Lemma all_statements_pbind {A B} P (p : prog A) (f : A → prog B) :
  all_statements P p → (∀ a, all_statements P (f a)) → all_statements P (pbind p f).
Proof.
  intros Hp Hf. induction p as [[a|e]|C q k IH]; simpl in *; [apply Hf|done|].
  intros s b s' Hq. destruct (Hp s b s' Hq). auto.
Qed.
Lemma establishes_pmap {A B} (g : A → B) J K p : establishes J K p → establishes J K (pmap g p).
Proof.
  induction p as [[?|?]|C q k IH]; simpl; try done. intros Ha s b s' Hj Hq.
  destruct (Ha _ _ _ Hj Hq); auto.
Qed.

(** What the statements preserve, the run preserves, whichever of them fail. *)
Lemma run_statements {A} (P : S → S → Prop) `{!PreOrder P} (p : prog A) f s r s' :
  all_statements P p → run p f s = (r, s') → P s s'.
Proof.
  revert f s. induction p as [r0|C q k IH]; intros f s Ha Hr; [by injection Hr as _ <-|].
  apply run_Query in Hr as [(e & _ & ->)|(b & s1 & f' & Hq & Hr)]; [done|].
  destruct (Ha _ _ _ Hq) as [Hp Hk]. etrans; [exact Hp|]. by eapply IH.
Qed.
End prog.
Arguments prog : clear implicits.
Arguments Done {S E A} r.
Arguments Query {S E A B} q k.

Notation "'let*' x := q 'in' k" := (Query q (λ x, k))
  (at level 10, x name, q at level 200, k at level 200).
