(* ===== verification/ToolArgs.v ===== *)
(** Arguments of tool calls: decoding, repair, coercion and validation.

    Models [crates/agents/src/json_repair.rs], the decoding functions of
    [crates/agents/src/model/mod.rs] with their diagnostics of [model/types.rs],
    [crates/agents/src/tool_arg_validator.rs] and [sanitize_tool_name] of
    [crates/agents/src/runner/helpers.rs].

    [serde_json::from_str] and [to_string] are parameters (class [SerdeJson]). *)
From Stdlib Require Import SpecFloat.
From S2P Require Import Prelude Float64 Json Utf8.

Class SerdeJson := {
  from_str : str → result json str;    (** the value, or the error's text *)
  to_string : json → option str;
}.

(** * Repair of malformed JSON *)

(** ** Pass 1: [//] comments *)

(** [while let Some(ch) = chars.next()], by the rest of the chars; [None] is the skipping of a
    comment up to its line's end. *)
Inductive comment_state :=
| Outside (prev_char : char)
| InString (prev_char : char)
| InComment.

Fixpoint strip_comments (st : comment_state) (cs : str) : str :=
  match cs with
  | [] => []
  | c :: cs' =>
      match st with
      | InString prev =>
          c :: strip_comments
                 (if (c =? ch_dquote)%N && negb (prev =? ch_backslash)%N then Outside c else InString c) cs'
      | InComment =>
          if (c =? ch_newline)%N then ch_newline :: strip_comments (Outside ch_newline) cs'
          else strip_comments InComment cs'
      | Outside prev =>
          if (c =? ch_dquote)%N then c :: strip_comments (InString c) cs'
          else if (c =? ch "/")%N && is_some_and (N.eqb (ch "/")) (head cs')
          then strip_comments InComment cs'
          else c :: strip_comments (Outside c) cs'
      end
  end.

(** ** Pass 2: trailing commas *)

(** The state of a scan over JSON text: inside a string or not, after a backslash or not. *)
Record quoting := { in_string : bool; escape_next : bool }.
Definition unquoted : quoting := {| in_string := false; escape_next := false |}.

(** How a scan reacts to a char inside a string. *)
Definition string_char (q : quoting) (c : char) : quoting :=
  if escape_next q then {| in_string := true; escape_next := false |}
  else if (c =? ch_backslash)%N then {| in_string := true; escape_next := true |}
  else if (c =? ch_dquote)%N then unquoted
  else q.

Definition closes (c : char) : bool := (c =? ch "}")%N || (c =? ch "]")%N.

(** The bytes one by one; [b as char] makes each byte a char of its own. *)
Fixpoint strip_commas (q : quoting) (bs : bytes) : str :=
  match bs with
  | [] => []
  | b :: bs' =>
      if in_string q then b :: strip_commas (string_char q b) bs'
      else if (b =? ch_dquote)%N then b :: strip_commas {| in_string := true; escape_next := false |} bs'
      else if (b =? ch ",")%N && is_some_and closes (head (drop_while is_ascii_whitespace bs'))
      then strip_commas q bs'
      else b :: strip_commas q bs'
  end.

(** ** Pass 3: closing what is open *)

Definition opens (c : char) : option char :=
  if (c =? ch "{")%N then Some (ch "}") else if (c =? ch "[")%N then Some (ch "]") else None.

Definition balance_step (st : quoting * list char) (c : char) : quoting * list char :=
  let '(q, stack) := st in
  if in_string q then (string_char q c, stack)
  else if (c =? ch_dquote)%N then ({| in_string := true; escape_next := escape_next q |}, stack)
  else match opens c with
       | Some closer => (q, closer :: stack)
       | None => if closes c && bool_decide (head stack = Some c) then (q, tail stack) else (q, stack)
       end.
Definition scan (cs : str) : quoting * list char := foldl balance_step (unquoted, []) cs.

Definition balance (cleaned : str) : str :=
  let '(q, stack) := scan cleaned in
  cleaned ++ (if in_string q then [ch_dquote] else []) ++ stack.

Section repair.
Context `{SerdeJson}.

Definition clean (input : str) : str :=
  strip_commas unquoted (as_bytes (strip_comments (Outside 0%N) input)).

Definition repair_json (input : str) : option json :=
  match from_str input with
  | Ok v => Some v
  | Err _ =>
      match from_str (clean input) with
      | Ok v => Some v
      | Err _ => match from_str (balance (clean input)) with Ok v => Some v | Err _ => None end
      end
  end.

(** * Decoding *)

Inductive ToolCallArgumentSource := RepairedString | EmptyString | NullOrMissing | MalformedString.

Record ToolCallArgumentDiagnostic := {
  source : ToolCallArgumentSource;
  raw_len : option nat;
  raw_preview : option str;
  parse_error : option str;
}.

Record DecodedToolCallArguments := {
  arguments : json;
  diagnostic : option ToolCallArgumentDiagnostic;
}.

Definition MAX_PREVIEW_CHARS : nat := 160.
Definition raw_argument_preview (raw : str) : str :=
  take MAX_PREVIEW_CHARS raw ++ (if (MAX_PREVIEW_CHARS <? length raw)%nat then lit "..." else []).

Definition decode_tool_call_arguments_from_str (raw : str) : DecodedToolCallArguments :=
  let diag s e := Some {| source := s; raw_len := Some (utf8_len raw);
                          raw_preview := Some (raw_argument_preview raw); parse_error := e |} in
  if negb (is_nonempty (trim raw)) then {| arguments := JObject []; diagnostic := diag EmptyString None |}
  else match from_str raw with
       | Ok v => {| arguments := v; diagnostic := None |}
       | Err error =>
           match repair_json raw with
           | Some v => {| arguments := v; diagnostic := diag RepairedString (Some error) |}
           | None => {| arguments := JObject []; diagnostic := diag MalformedString (Some error) |}
           end
       end.

Definition decode_tool_call_arguments_with_diagnostic (args : option json) : DecodedToolCallArguments :=
  match args with
  | Some (JString raw) => decode_tool_call_arguments_from_str raw
  | Some JNull | None =>
      {| arguments := JObject [];
         diagnostic := Some {| source := NullOrMissing; raw_len := None; raw_preview := None; parse_error := None |} |}
  | Some value => {| arguments := value; diagnostic := None |}
  end.

Definition decode_tool_call_arguments (args : option json) : json :=
  arguments (decode_tool_call_arguments_with_diagnostic args).

Definition short_summary (d : ToolCallArgumentDiagnostic) : str :=
  let src : str := match source d with
                   | RepairedString => "repaired-string"
                   | EmptyString => "empty-string"
                   | NullOrMissing => "null-or-missing"
                   | MalformedString => "malformed-string"
                   end in
  lit "arg_decode=" ++ src ++
  match raw_len d with Some n => lit " raw_len=" ++ show_nat n | None => [] end ++
  match parse_error d with Some e => lit " parse_error=" ++ e | None => [] end.

Definition llm_detail (d : ToolCallArgumentDiagnostic) : str :=
  lit "Argument decode status: " ++ short_summary d ++ lit "." ++
  match raw_preview d with
  | Some p => if is_nonempty p then lit " Raw argument preview: " ++ p else []
  | None => []
  end.
End repair.

(** * Names *)

Definition rfind (c : char) (s : str) : option nat :=
  (λ i, length s - 1 - i)%nat <$> find_char (N.eqb c) (reverse s).

Definition sanitize_tool_name (name : str) : str :=
  let trimmed := trim name in
  let unquoted := unwrap_or trimmed (strip_prefix [ch_dquote] trimmed ≫= strip_suffix [ch_dquote]) in
  let without_prefix := unwrap_or unquoted (strip_prefix "functions_" unquoted) in
  unwrap_or without_prefix
    (pos ← rfind (ch "_") without_prefix;
     let suffix := drop (S pos) without_prefix in
     if is_nonempty suffix && forallb is_ascii_digit suffix && (0 <? pos)%nat
     then Some (take pos without_prefix) else None).

(** * Validation *)

Record TypeMismatch := { field : str; expected : str; actual : str }.
Record ToolArgError := {
  missing_required : list str;
  type_mismatches : list TypeMismatch;
  received : json;
}.

Definition is_integer (v : json) : bool :=
  isSome (as_i64 v) || isSome (as_u64 v) || is_some_and f_is_integer (as_f64 v).

Definition type_matches_single (expected : str) (v : json) : bool :=
  if str_eqb expected "string" then isSome (as_str v)
  else if str_eqb expected "number" then isSome (as_number v)
  else if str_eqb expected "integer" then is_integer v
  else if str_eqb expected "boolean" then isSome (as_bool v)
  else if str_eqb expected "object" then isSome (as_object v)
  else if str_eqb expected "array" then isSome (as_array v)
  else if str_eqb expected "null" then is_null v
  else true.

Definition type_matches (expected v : json) : bool :=
  match expected with
  | JString e => type_matches_single e v
  | JArray es => existsb (λ e, type_matches_single e v) (strings es)
  | _ => true
  end.

Definition expected_type_name (expected : json) : str :=
  match expected with
  | JString single => single
  | JArray types =>
      let labels := strings types in
      if is_nonempty labels then join " | " labels else "unknown"
  | _ => "unknown"
  end.

Definition value_type_name (v : json) : str :=
  match v with
  | JNull => "null"
  | JBool _ => "boolean"
  | JNumber _ => "number"
  | JString _ => "string"
  | JArray _ => "array"
  | JObject _ => "object"
  end.

(** The members of [required] that are strings. *)
Definition required_list (schema_obj : list (str * json)) : list str :=
  unwrap_or [] (strings <$> (assoc "required" schema_obj ≫= as_array)).

Definition properties_of (schema_obj : list (str * json)) : option (list (str * json)) :=
  assoc "properties" schema_obj ≫= as_object.

Definition declared_type (prop_schema : json) : option json := as_object prop_schema ≫= assoc "type".

Definition check_missing (args_obj : list (str * json)) (required : list str) : list str :=
  filter (λ f, match assoc f args_obj with None | Some JNull => true | Some _ => false end = true) required.

(** What the loop over the properties pushes for one of them. *)
Definition check_property (args_obj : list (str * json)) (p : str * json) : option TypeMismatch :=
  v ← assoc p.1 args_obj;
  if is_null v then None
  else
    ty ← declared_type p.2;
    if negb (type_matches ty v)
    then Some {| field := p.1; expected := expected_type_name ty; actual := value_type_name v |}
    else None.

Definition validate_tool_args (schema args : json) : result unit ToolArgError :=
  match as_object schema with
  | None => Ok tt
  | Some schema_obj =>
      if negb (is_nonempty schema_obj) then Ok tt
      else
        let required := required_list schema_obj in
        let properties := properties_of schema_obj in
        if negb (is_nonempty required) && negb (isSome properties) then Ok tt
        else
          match as_object args with
          | None =>
              if negb (is_nonempty required) then Ok tt
              else Err {| missing_required := required; type_mismatches := []; received := args |}
          | Some args_obj =>
              let missing := check_missing args_obj required in
              let mismatches := omap (check_property args_obj) (unwrap_or [] properties) in
              if negb (is_nonempty missing) && negb (is_nonempty mismatches) then Ok tt
              else Err {| missing_required := missing; type_mismatches := mismatches; received := args |}
          end
  end.

Section messages.
Context `{SerdeJson}.

Definition backtick : str := [96%N].

Definition mismatch_line (tm : TypeMismatch) : str :=
  lit "Field `" ++ field tm ++ lit "` has wrong type: expected `" ++ expected tm ++
  lit "`, got `" ++ actual tm ++ lit "`." ++ [ch_newline].

Definition to_llm_error_message_with_argument_diagnostic (e : ToolArgError) (tool_name : str)
    (d : option ToolCallArgumentDiagnostic) : str :=
  lit "Tool call rejected before execution by `" ++ tool_name ++ lit "`." ++ [ch_newline] ++
  (if is_nonempty (missing_required e)
   then lit "Missing required field(s): `" ++ join "`, `" (missing_required e) ++ lit "`." ++ [ch_newline]
   else []) ++
  concat (map mismatch_line (type_mismatches e)) ++
  lit "You sent: " ++ unwrap_or (lit "<unserializable>") (to_string (received e)) ++ [ch_newline] ++
  match d with Some d => llm_detail d ++ [ch_newline] | None => [] end ++
  lit "Do not retry with the same arguments. If you do not know what arguments to use, " ++
  lit "respond in plain text and ask the user for clarification.".

Definition to_llm_error_message (e : ToolArgError) (tool_name : str) : str :=
  to_llm_error_message_with_argument_diagnostic e tool_name None.

Definition short_summary_with_argument_diagnostic (e : ToolArgError)
    (d : option ToolCallArgumentDiagnostic) : str :=
  join " "
    ((if is_nonempty (missing_required e) then [lit "missing=" ++ join "," (missing_required e)] else []) ++
     (if is_nonempty (type_mismatches e)
      then [lit "type_mismatch=" ++
            join "," (map (λ t, field t ++ lit ":" ++ expected t ++ lit "!=" ++ actual t) (type_mismatches e))]
      else []) ++
     match d with Some d => [short_summary d] | None => [] end).

Definition error_short_summary (e : ToolArgError) : str := short_summary_with_argument_diagnostic e None.
End messages.

(** * Coercion *)

Definition type_labels (expected : json) : list str :=
  match expected with
  | JString single => [single]
  | JArray types => strings types
  | _ => []
  end.

(** The value [trimmed] has as the scalar type [label], if it has one. *)
Definition coerce_label (trimmed label : str) : option json :=
  if str_eqb label "boolean" then
    let lower := to_ascii_lowercase trimmed in
    if str_eqb lower "true" then Some (JBool true)
    else if str_eqb lower "false" then Some (JBool false) else None
  else if str_eqb label "integer" then
    match parse_i64 trimmed with
    | Some z => Some (JNumber (number_of_Z z))
    | None => (λ n, JNumber (PosInt n)) <$> parse_u64 trimmed
    end
  else if str_eqb label "number" then
    f ← f64_from_str trimmed; JNumber <$> number_of_f64 f
  else None.

Definition coerce_string_scalar (raw : str) (allowed : list str) : option json :=
  let trimmed := trim raw in
  if negb (is_nonempty trimmed) then None else head (omap (coerce_label trimmed) allowed).

(** What the first loop of [coerce_scalar_args] pushes for a property. *)
Definition rewrite_of (args_obj : list (str * json)) (p : str * json) : option (str * json) :=
  raw ← assoc p.1 args_obj ≫= as_str;
  ty ← declared_type p.2;
  let allowed := type_labels ty in
  if bool_decide (lit "string" ∈ allowed) then None
  else coerced ← coerce_string_scalar raw allowed; Some (p.1, coerced).

Definition coerce_scalar_args (schema args : json) : json :=
  match as_object schema ≫= properties_of, as_object args with
  | Some props, Some args_obj =>
      JObject (foldl (λ m kv, insert_assoc kv.1 kv.2 m) args_obj (omap (rewrite_of args_obj) props))
  | _, _ => args
  end.

(** * Specification *)

(** The types a label stands for; an unknown label stands for every value. *)
Definition known_labels : list str :=
  [lit "string"; lit "number"; lit "integer"; lit "boolean"; lit "object"; lit "array"; lit "null"].

Inductive has_type : str → json → Prop :=
| has_string s : has_type "string" (JString s)
| has_number n : has_type "number" (JNumber n)
| has_pos n : has_type "integer" (JNumber (PosInt n))
| has_neg z : has_type "integer" (JNumber (NegInt z))
| has_whole f : f_is_integer f = true → has_type "integer" (JNumber (Float f))
| has_boolean b : has_type "boolean" (JBool b)
| has_object m : has_type "object" (JObject m)
| has_array a : has_type "array" (JArray a)
| has_null : has_type "null" JNull
| has_unknown l v : l ∉ known_labels → has_type l v.

(** A declared type is one label, any of several, or nothing the validator understands. *)
Definition admits (ty v : json) : Prop :=
  match ty with
  | JString l => has_type l v
  | JArray ls => ∃ l, JString l ∈ ls ∧ has_type l v
  | _ => True
  end.

Definition required_by (schema : json) (f : str) : Prop :=
  ∃ a, get "required" schema = Some (JArray a) ∧ JString f ∈ a.
Definition property (schema : json) (f : str) (ps : json) : Prop :=
  ∃ m, get "properties" schema = Some (JObject m) ∧ (f, ps) ∈ m.
Definition present (f : str) (args : json) : Prop := ∃ v, get f args = Some v ∧ v ≠ JNull.
(** The value of a field is there, is not null and is not of the type [ps] declares for it. *)
Definition mistyped (schema args : json) (f : str) (ty v : json) : Prop :=
  ∃ ps, property schema f ps ∧ declared_type ps = Some ty ∧ get f args = Some v ∧ v ≠ JNull ∧ ¬ admits ty v.

Definition conforms (schema args : json) : Prop :=
  (∀ f, required_by schema f → present f args) ∧ (∀ f ty v, ¬ mistyped schema args f ty v).

(** * Facts *)

Local Arguments lit : simpl never.

Lemma type_matches_single_spec l v : type_matches_single l v = true ↔ has_type l v.
Proof.
  unfold type_matches_single, is_integer.
  repeat match goal with
  | |- (if str_eqb l ?k then _ else _) = true ↔ _ =>
      destruct (str_eqb l k) eqn:?; [match goal with E : str_eqb l k = true |- _ => apply str_eqb_true in E; subst l end|]
  end.
  8: { split; [|done]. intros _. apply has_unknown. unfold known_labels.
    rewrite !elem_of_cons. intros [->|[->|[->|[->|[->|[->|[->|Hn%not_elem_of_nil]]]]]]]; try done;
      match goal with E : str_eqb ?a ?a = false |- _ => by rewrite str_eqb_refl in E end. }
  all: destruct v as [| |[n|z|f]| | |]; cbn; try (split; [intros _; by econstructor|done]);
    try (split; [done|inversion 1; subst; try done;
      match goal with Hk : _ ∉ known_labels |- _ => destruct Hk; unfold known_labels; set_solver end]).
  - rewrite orb_true_r. split; [intros _; constructor|done].
  - split; [by constructor|]. inversion 1; subst; try done. destruct (H0 : _ ∉ known_labels).
    unfold known_labels. set_solver.
Qed.

Lemma elem_of_strings l a : l ∈ strings a ↔ JString l ∈ a.
Proof.
  unfold strings. rewrite list_elem_of_omap. split.
  - intros (v & Hv & E). by destruct v; simplify_eq/=.
  - intros Hl. by exists (JString l).
Qed.

Lemma type_matches_spec ty v : type_matches ty v = true ↔ admits ty v.
Proof.
  destruct ty; simpl; try (by split); [apply type_matches_single_spec|].
  rewrite existsb_true. by setoid_rewrite elem_of_strings; setoid_rewrite type_matches_single_spec.
Qed.

Lemma get_object k m : get k (JObject m) = assoc k m.
Proof. done. Qed.

Lemma required_list_spec m f : f ∈ required_list m ↔ required_by (JObject m) f.
Proof.
  unfold required_list, required_by. rewrite get_object. destruct (assoc "required" m) as [r|]; simpl.
  - destruct r; simpl; try (split; [by intros ?%not_elem_of_nil|by intros (? & [= ] & ?)]).
    rewrite elem_of_strings. split; [eauto|by intros (? & [= ->] & ?)].
  - split; [by intros ?%not_elem_of_nil|by intros (? & [= ] & ?)].
Qed.

Lemma properties_spec m f ps :
  (f, ps) ∈ unwrap_or [] (properties_of m) ↔ property (JObject m) f ps.
Proof.
  unfold properties_of, property. rewrite get_object. destruct (assoc "properties" m) as [r|]; simpl.
  - destruct r; simpl; try (split; [by intros ?%not_elem_of_nil|by intros (? & [= ] & ?)]).
    split; [eauto|by intros (? & [= ->] & ?)].
  - split; [by intros ?%not_elem_of_nil|by intros (? & [= ] & ?)].
Qed.

Lemma check_missing_spec m req f :
  f ∈ check_missing m req ↔ f ∈ req ∧ ¬ present f (JObject m).
Proof.
  unfold check_missing, present. rewrite list_elem_of_filter, get_object.
  destruct (assoc f m) as [v|]; [destruct v|]; naive_solver.
Qed.

Lemma check_property_spec m f ps tm :
  check_property m (f, ps) = Some tm ↔
  ∃ ty v, declared_type ps = Some ty ∧ assoc f m = Some v ∧ v ≠ JNull ∧ ¬ admits ty v ∧
    tm = {| field := f; expected := expected_type_name ty; actual := value_type_name v |}.
Proof.
  unfold check_property. simpl. destruct (assoc f m) as [v|]; simpl; [|naive_solver].
  destruct (is_null v) eqn:En; [destruct v; naive_solver|].
  assert (v ≠ JNull) by (by intros ->).
  destruct (declared_type ps) as [ty|]; simpl; [|naive_solver].
  destruct (type_matches ty v) eqn:Et; simpl.
  - apply type_matches_spec in Et. naive_solver.
  - assert (¬ admits ty v) by (rewrite <- type_matches_spec; congruence). naive_solver.
Qed.

Lemma mismatches_spec schema m tm :
  tm ∈ omap (check_property m) (unwrap_or [] (properties_of schema)) ↔
  ∃ f ty v, mistyped (JObject schema) (JObject m) f ty v ∧
    tm = {| field := f; expected := expected_type_name ty; actual := value_type_name v |}.
Proof.
  rewrite list_elem_of_omap. unfold mistyped. split.
  - intros ([f ps] & Hp & (ty & v & ? & ? & ? & ? & ->)%check_property_spec).
    apply properties_spec in Hp. by exists f, ty, v; split; [exists ps|].
  - intros (f & ty & v & (ps & Hp & ? & ? & ? & ?) & ->). exists (f, ps).
    rewrite properties_spec, check_property_spec. split; [done|]. exists ty, v. by split_and!.
Qed.

Lemma non_object_get f args : as_object args = None → get f args = None.
Proof. unfold get. by intros ->. Qed.

Lemma is_nonempty_false {A} (l : list A) : is_nonempty l = false ↔ l = [].
Proof. by destruct l. Qed.

Lemma empty_iff {A} (l : list A) : l = [] ↔ ∀ x, x ∉ l.
Proof.
  split; [intros ->; apply not_elem_of_nil|]. destruct l as [|x l]; [done|]. intros Hl.
  destruct (Hl x). by left.
Qed.

(** Every outcome of the validator at once. *)
Lemma validate_spec_gen schema args :
  match validate_tool_args schema args with
  | Ok _ => conforms schema args
  | Err e => (∀ f, f ∈ missing_required e ↔ required_by schema f ∧ ¬ present f args) ∧
             (∀ tm, tm ∈ type_mismatches e ↔ ∃ f ty v, mistyped schema args f ty v ∧
                tm = {| field := f; expected := expected_type_name ty; actual := value_type_name v |}) ∧
             received e = args ∧ (missing_required e ≠ [] ∨ type_mismatches e ≠ [])
  end.
Proof.
  unfold validate_tool_args.
  destruct (as_object schema) as [m|] eqn:Es.
  2: { split; [intros f (a & Hr & _)|intros f ty v (ps & (a & Hp & _) & _)]; by rewrite non_object_get in *. }
  destruct schema; simplify_eq/=.
  destruct (is_nonempty m) eqn:Em; cbn [negb].
  2: { apply is_nonempty_false in Em as ->. split; [by intros f (a & Hr & _)|by intros f ty v (ps & (a & Hp & _) & _)]. }
  destruct (negb (is_nonempty (required_list m)) && negb (isSome (properties_of m))) eqn:Ee.
  { bools. apply is_nonempty_false in H. split.
    - intros f Hf%required_list_spec. rewrite H in Hf. by apply not_elem_of_nil in Hf.
    - intros f ty v (ps & Hp%properties_spec & _). destruct (properties_of m); [done|]. by apply not_elem_of_nil in Hp. }
  destruct (as_object args) as [am|] eqn:Ea.
  - destruct args; simplify_eq/=.
    destruct (negb (is_nonempty (check_missing am (required_list m))) && _) eqn:Eo.
    + bools. apply is_nonempty_false in H, H0. rewrite empty_iff in H. rewrite empty_iff in H0. split.
      * intros f Hf. destruct (assoc f am) as [v|] eqn:Ev; [destruct (decide (is_null v = true)) as [En|En]|];
          [|exists v; split; [done|by intros ->]|]; destruct (H f);
          rewrite check_missing_spec, required_list_spec; (split; [done|]);
          intros (v' & Hv' & Hn); rewrite get_object, Ev in Hv'; first [done|injection Hv' as <-; by destruct v].
      * intros f ty v Hm. apply (H0 {| field := f; expected := expected_type_name ty; actual := value_type_name v |}).
        apply mismatches_spec. eauto.
    + simpl. split_and!.
      * intros f. by rewrite check_missing_spec, required_list_spec.
      * intros tm. apply mismatches_spec.
      * done.
      * apply andb_false_iff in Eo as [Eo|Eo]; bools; [left|right]; by intros E; rewrite E in Eo.
  - assert (Hn : ∀ f, ¬ present f args) by (intros f (v & Hv & _); by rewrite non_object_get in Hv).
    destruct (is_nonempty (required_list m)) eqn:Er; simpl.
    + split_and!; [|intros tm; split; [by intros ?%not_elem_of_nil|]|done|].
      * intros f. rewrite required_list_spec. naive_solver.
      * intros (f & ty & v & (ps & _ & _ & Hg & _) & _). by rewrite non_object_get in Hg.
      * left. by destruct (required_list m).
    + apply is_nonempty_false in Er. split.
      * intros f Hf%required_list_spec. rewrite Er in Hf. by apply not_elem_of_nil in Hf.
      * intros f ty v (ps & _ & _ & Hg & _). by rewrite non_object_get in Hg.
Qed.

Lemma validate_Ok schema args : validate_tool_args schema args = Ok tt ↔ conforms schema args.
Proof.
  pose proof (validate_spec_gen schema args) as Hs. destruct (validate_tool_args schema args) as [[]|e]; [done|].
  destruct Hs as (Hm & Ht & _ & Hn). split; [done|]. intros [Hr Hty].
  destruct Hn as [Hn|Hn]; destruct Hn; apply empty_iff.
  - intros f [Hf1 Hf2]%Hm. auto.
  - intros tm (f & ty & v & Hx & _)%Ht. by eapply Hty.
Qed.

(** C33. The validator types the arguments against the schema: it accepts exactly the arguments in which every
    required field is present and not null, and every field that is present and not null has the type that the
    schema declares for it; and an error lists exactly the missing fields and the mistyped values, with what was
    expected.  A schema without required fields still types what is there, see [typed_without_required]. *)
Theorem validate_spec schema args :
  (validate_tool_args schema args = Ok tt ↔ conforms schema args) ∧
  ∀ e, validate_tool_args schema args = Err e →
    (∀ f, f ∈ missing_required e ↔ required_by schema f ∧ ¬ present f args) ∧
    (∀ tm, tm ∈ type_mismatches e ↔ ∃ f ty v, mistyped schema args f ty v ∧
       tm = {| field := f; expected := expected_type_name ty; actual := value_type_name v |}) ∧
    received e = args ∧ (missing_required e ≠ [] ∨ type_mismatches e ≠ []).
Proof.
  split; [apply validate_Ok|]. intros e E. pose proof (validate_spec_gen schema args) as Hs. by rewrite E in Hs.
Qed.

(** ** Coercion *)

(** The fields of the schema's properties are those of a JSON object: no two have one name. *)
Definition unique_properties (schema : json) : Prop :=
  ∀ m, get "properties" schema = Some (JObject m) → NoDup m.*1.

Definition scalar (v : json) : Prop := (∃ b, v = JBool b) ∨ (∃ n, v = JNumber n).

Lemma coerce_label_typed s l v : coerce_label s l = Some v → scalar v ∧ has_type l v.
Proof.
  unfold coerce_label, scalar. intros Hc.
  destruct (str_eqb l "boolean") eqn:E1; [apply str_eqb_true in E1 as ->|].
  { repeat case_match; simplify_eq; (split; [by eauto|constructor]). }
  destruct (str_eqb l "integer") eqn:E2; [apply str_eqb_true in E2 as ->|].
  { destruct (parse_i64 s) as [z|]; simplify_eq.
    - split; [by eauto|]. unfold number_of_Z. case_match; constructor.
    - apply fmap_Some in Hc as (n & _ & ->). split; [by eauto|constructor]. }
  destruct (str_eqb l "number") eqn:E3; [apply str_eqb_true in E3 as ->|done].
  apply bind_Some in Hc as (f & _ & Hc). apply fmap_Some in Hc as (n & _ & ->).
  split; [by eauto|constructor].
Qed.

Lemma coerce_string_scalar_typed raw allowed v :
  coerce_string_scalar raw allowed = Some v → scalar v ∧ ∃ l, l ∈ allowed ∧ has_type l v.
Proof.
  unfold coerce_string_scalar. destruct (negb _); [done|]. intros Hh.
  assert (Hv : v ∈ omap (coerce_label (trim raw)) allowed).
  { destruct (omap _ allowed); simplify_eq/=. by left. }
  apply list_elem_of_omap in Hv as (l & Hl & [Hs Ht]%coerce_label_typed). eauto.
Qed.

Lemma labels_admit ty l v : l ∈ type_labels ty → has_type l v → admits ty v.
Proof.
  destruct ty; simpl; try done; [by intros ->%list_elem_of_singleton|].
  intros Hl%elem_of_strings Ht. eauto.
Qed.

(** A field that coercion rewrites: what it was, and what the schema says of it. *)
Definition coerced (schema : json) (f : str) (old v : json) : Prop :=
  ∃ raw ps ty, old = JString raw ∧ property schema f ps ∧ declared_type ps = Some ty ∧
    lit "string" ∉ type_labels ty ∧ admits ty v ∧ scalar v.

Lemma rewrite_of_coerced schema am f ps f' v :
  (f, ps) ∈ unwrap_or [] (properties_of schema) → rewrite_of am (f, ps) = Some (f', v) →
  f' = f ∧ ∃ old, assoc f am = Some old ∧ coerced (JObject schema) f old v.
Proof.
  unfold rewrite_of. simpl. intros Hp (raw & Hraw & Hc)%bind_Some.
  apply bind_Some in Hraw as (old & Hold & Hraw). apply bind_Some in Hc as (ty & Hty & Hc).
  case_bool_decide as Hs; [done|]. apply bind_Some in Hc as (c & Hc & [= <- <-]).
  split; [done|]. exists old. split; [done|].
  apply coerce_string_scalar_typed in Hc as (Hsc & l & Hl & Ht).
  exists raw, ps, ty. apply properties_spec in Hp.
  split_and!; try done; [|by eapply labels_admit]. by destruct old; simplify_eq/=.
Qed.

Lemma foldl_insert_get f (rs : list (str * json)) m :
  NoDup rs.*1 →
  assoc f (foldl (λ m kv, insert_assoc kv.1 kv.2 m) m rs) =
    match assoc f rs with Some v => Some v | None => assoc f m end.
Proof.
  revert m. induction rs as [|[k v] rs IH]; intros m; [done|]. simpl. intros [Hk Hn]%NoDup_cons.
  rewrite IH by done. destruct (decide (k = f)) as [->|Hf].
  - rewrite bool_decide_eq_true_2 by done. destruct (assoc f rs) eqn:E.
    + destruct Hk. apply assoc_In in E. by apply (list_elem_of_fmap_2 fst) in E.
    + apply assoc_insert.
  - rewrite bool_decide_eq_false_2 by done. by rewrite assoc_insert_ne.
Qed.

Lemma rewrites_keys am props :
  NoDup props.*1 → NoDup (omap (rewrite_of am) props).*1.
Proof.
  induction props as [|[f ps] props IH]; [constructor|]. simpl. intros [Hf Hn]%NoDup_cons.
  destruct (rewrite_of am (f, ps)) as [[f' v]|] eqn:E; [|by apply IH]. simpl. apply NoDup_cons.
  split; [|by apply IH]. intros Hi. apply Hf.
  assert (Hk : ∀ p kv, rewrite_of am p = Some kv → kv.1 = p.1).
  { intros [g qs] [g' w]. unfold rewrite_of. simpl. intros (? & _ & Hc)%bind_Some.
    apply bind_Some in Hc as (? & _ & Hc). case_match; [done|]. by apply bind_Some in Hc as (? & _ & [= <- <-]). }
  apply Hk in E. simpl in E. subst f'.
  apply list_elem_of_fmap in Hi as (kv & -> & (p & Hp & E)%list_elem_of_omap).
  rewrite (Hk _ _ E). by apply list_elem_of_fmap_2.
Qed.

(** The rewritings of a call on objects. *)
Definition rewrites (schema : list (str * json)) (am : list (str * json)) : list (str * json) :=
  omap (rewrite_of am) (unwrap_or [] (properties_of schema)).

Lemma coerce_object schema am :
  coerce_scalar_args (JObject schema) (JObject am) =
    JObject (foldl (λ m kv, insert_assoc kv.1 kv.2 m) am (rewrites schema am)).
Proof. unfold coerce_scalar_args, rewrites. simpl. by destruct (properties_of schema). Qed.

Lemma unique_NoDup schema am : unique_properties (JObject schema) → NoDup (rewrites schema am).*1.
Proof.
  intros Hu. apply rewrites_keys. unfold properties_of.
  destruct (assoc "properties" schema) as [[]|] eqn:E; simpl; try constructor.
  apply Hu. by rewrite get_object.
Qed.

Lemma coerce_get schema args f :
  unique_properties schema →
  get f (coerce_scalar_args schema args) = get f args ∨
  ∃ old v, get f args = Some old ∧ get f (coerce_scalar_args schema args) = Some v ∧ coerced schema f old v.
Proof.
  intros Hu. destruct schema as [| | | | |sm], args as [| | | | |am]; try (by left);
    try (left; unfold coerce_scalar_args; simpl; by destruct (properties_of _)).
  rewrite coerce_object, !get_object, foldl_insert_get by (by apply unique_NoDup).
  destruct (assoc f (rewrites sm am)) as [v|] eqn:E; [right|by left].
  apply assoc_In, list_elem_of_omap in E as ([f0 ps] & Hp & Hr).
  destruct (rewrite_of_coerced _ _ _ _ _ _ Hp Hr) as (-> & old & ? & ?). eauto.
Qed.

Lemma scalar_not_null v : scalar v → v ≠ JNull.
Proof. by intros [(? & ->)|(? & ->)]. Qed.

Lemma NoDup_assoc_unique (m : list (str * json)) f x y : NoDup m.*1 → (f, x) ∈ m → (f, y) ∈ m → x = y.
Proof. intros Hn Hx%assoc_Some Hy%assoc_Some; [congruence|done..]. Qed.

Lemma coerce_conforms schema args :
  unique_properties schema → conforms schema args → conforms schema (coerce_scalar_args schema args).
Proof.
  intros Hu [Hr Ht]. split.
  - intros f Hf. destruct (Hr f Hf) as (v & Hv & Hn). destruct (coerce_get schema args f Hu) as [E|(old & w & _ & E & Hc)].
    + exists v. by rewrite E.
    + exists w. split; [done|]. destruct Hc as (? & ? & ? & _ & _ & _ & _ & _ & ?). by apply scalar_not_null.
  - intros f ty v (ps & Hp & Hty & Hg & Hn & Ha).
    destruct (coerce_get schema args f Hu) as [E|(old & w & _ & E & Hc)].
    + apply (Ht f ty v). exists ps. by rewrite <- E.
    + rewrite E in Hg. simplify_eq. destruct Hc as (raw & ps' & ty' & _ & Hp' & Hty' & _ & Ha' & _).
      destruct Hp as (m & Hm & Hp), Hp' as (m' & Hm' & Hp'). simplify_eq.
      assert (ps = ps') as -> by (by eapply NoDup_assoc_unique; [by apply Hu|..]). by simplify_eq.
Qed.

Lemma coerce_idempotent schema args :
  unique_properties schema →
  coerce_scalar_args schema (coerce_scalar_args schema args) = coerce_scalar_args schema args.
Proof.
  intros Hu. destruct schema as [| | | | |sm]; try done.
  destruct args as [| | | | |am]; try (unfold coerce_scalar_args; simpl; by destruct (properties_of sm)).
  rewrite coerce_object, coerce_object.
  set (am' := foldl _ am _).
  replace (rewrites sm am') with (@nil (str * json)); [done|]. symmetry. unfold rewrites. apply empty_iff.
  intros [f v] ([f0 ps] & Hp & Hr)%list_elem_of_omap.
  destruct (rewrite_of_coerced _ _ _ _ _ _ Hp Hr) as (-> & old & Ho & (raw & ps' & ty & -> & _)).
  subst am'. rewrite foldl_insert_get in Ho by (by apply unique_NoDup).
  destruct (assoc f0 (rewrites sm am)) as [w|] eqn:E.
  - injection Ho as ->. apply assoc_In, list_elem_of_omap in E as ([f1 ps1] & Hp1 & Hr1).
    destruct (rewrite_of_coerced _ _ _ _ _ _ Hp1 Hr1) as (-> & old1 & _ & (? & ? & ? & _ & _ & _ & _ & _ & [(? & ?)|(? & ?)])); done.
  - assert (Hsame : rewrite_of am (f0, ps) = Some (f0, v)).
    { unfold rewrite_of in Hr |- *. simpl in *. rewrite Ho.
      by rewrite foldl_insert_get, E, Ho in Hr by (by apply unique_NoDup). }
    assert (Hin : (f0, v) ∈ rewrites sm am) by (apply list_elem_of_omap; eauto).
    apply assoc_Some in Hin; [congruence|by apply unique_NoDup].
Qed.

(** Coercion is safe: it rewrites only strings in fields whose declared type excludes strings,
    each to a boolean or number of the declared type, and leaves every other field alone; valid arguments stay
    valid; and coercing again changes nothing. *)
Theorem coerce_sound schema args :
  unique_properties schema →
  (∀ f, get f (coerce_scalar_args schema args) = get f args ∨
     ∃ old v, get f args = Some old ∧ get f (coerce_scalar_args schema args) = Some v ∧ coerced schema f old v) ∧
  (validate_tool_args schema args = Ok tt →
   validate_tool_args schema (coerce_scalar_args schema args) = Ok tt) ∧
  coerce_scalar_args schema (coerce_scalar_args schema args) = coerce_scalar_args schema args.
Proof.
  intros Hu. split_and!; [intros f; by apply coerce_get| |by apply coerce_idempotent].
  rewrite !validate_Ok. by apply coerce_conforms.
Qed.

(** ** Closing what is open *)

(** Outside strings no escape is pending, and the stack holds closers. *)
Definition scan_ok (st : quoting * list char) : Prop :=
  (in_string st.1 = false → escape_next st.1 = false) ∧ Forall (λ c, closes c = true) st.2.

Lemma balance_step_ok st c : scan_ok st → scan_ok (balance_step st c).
Proof.
  destruct st as [[i e] stack]. unfold scan_ok. simpl. intros [He Hs]. destruct i; simpl.
  - unfold string_char. simpl. repeat case_match; simpl; done.
  - rewrite He by done. destruct (c =? ch_dquote)%N; [done|].
    unfold opens. destruct (c =? ch "{")%N; [by split; [|constructor]|].
    destruct (c =? ch "[")%N; [by split; [|constructor]|].
    destruct (_ && _); simpl; [|done]. split; [done|]. by destruct Hs.
Qed.

Lemma scan_is_ok cs : scan_ok (scan cs).
Proof.
  unfold scan. assert (scan_ok (unquoted, [])) as H0 by (split; [done|constructor]).
  revert H0. generalize (unquoted, @nil char). induction cs as [|c cs IH]; intros st Hs; [done|].
  simpl. apply IH. by apply balance_step_ok.
Qed.

Lemma closer_step c stack :
  closes c = true → balance_step (unquoted, c :: stack) c = (unquoted, stack).
Proof.
  unfold closes. intros Hc. apply orb_true_iff in Hc as [Hc|Hc]; apply N.eqb_eq in Hc as ->; done.
Qed.

Lemma closers_scan stack :
  Forall (λ c, closes c = true) stack → foldl balance_step (unquoted, stack) stack = (unquoted, []).
Proof. induction 1 as [|c stack Hc Hs IH]; [done|]. cbn [foldl]. by rewrite closer_step. Qed.

(** What pass 3 appends closes everything that was open: scanned again, the repaired text ends outside
    strings with no bracket open, unless the text broke off right after a backslash. *)
Theorem balance_closes cleaned :
  escape_next (scan cleaned).1 = false → scan (balance cleaned) = (unquoted, []).
Proof.
  intros He. unfold balance. pose proof (scan_is_ok cleaned) as [Hq Hs].
  destruct (scan cleaned) as [[i e] stack] eqn:E. simpl in *. subst e.
  unfold scan in *. rewrite foldl_app, E, foldl_app. destruct i; simpl; by apply closers_scan.
Qed.

(** * Witnesses *)

Section witnesses.
Let obj (l : list (string * json)) : json := JObject (map (λ '(k, v), (lit k, v)) l).
Let typed (t : string) : json := obj [("type"%string, JString (lit t))].
Definition demo_schema : json :=
  Eval cbv [obj typed] in
  obj [("type"%string, JString "object");
       ("properties"%string, obj [("cmd"%string, typed "string"); ("timeout"%string, typed "integer")]);
       ("required"%string, JArray [JString "cmd"])].
Definition demo_args (timeout : json) : json :=
  Eval cbv [obj] in obj [("cmd"%string, JString "ls"); ("timeout"%string, timeout)].
End witnesses.

Lemma demo_unique : unique_properties demo_schema.
Proof. intros m Hm. vm_compute in Hm. injection Hm as <-. repeat constructor; set_solver. Defined.

(** The documentation says that a schema without [required] always passes; and a null that is not
    required passes whatever its type. *)
Example typed_without_required :
  let schema := JObject [(lit "properties", JObject [(lit "n", JObject [(lit "type", JString "integer")])])] in
  is_ok (validate_tool_args schema (JObject [(lit "n", JString "many")])) = false ∧
  is_ok (validate_tool_args schema (JObject [(lit "n", JNull)])) = true.
Proof. split; vm_compute; reflexivity. Qed.

Lemma validate_spec_witness :
  conforms demo_schema (demo_args (JNumber (PosInt 30))) ∧
  ∀ f, f ∈ [lit "cmd"] ↔ required_by demo_schema f ∧ ¬ present f (JObject []).
Proof.
  split; [apply (proj1 (validate_spec demo_schema (demo_args (JNumber (PosInt 30))))); vm_compute; reflexivity|].
  exact (proj1 (proj2 (validate_spec demo_schema (JObject []))
    {| missing_required := [lit "cmd"]; type_mismatches := []; received := JObject [] |} ltac:(vm_compute; reflexivity))).
Defined.

Lemma coerce_sound_witness :
  coerce_scalar_args demo_schema (demo_args (JString " 5000 ")) = demo_args (JNumber (PosInt 5000)) ∧
  coerce_scalar_args demo_schema (demo_args (JNumber (PosInt 5000))) = demo_args (JNumber (PosInt 5000)).
Proof.
  assert (E : coerce_scalar_args demo_schema (demo_args (JString " 5000 ")) = demo_args (JNumber (PosInt 5000)))
    by (vm_compute; reflexivity).
  split; [exact E|].
  pose proof (proj2 (proj2 (coerce_sound demo_schema (demo_args (JString " 5000 ")) demo_unique))) as Hi.
  by rewrite E in Hi.
Defined.

Lemma balance_closes_witness :
  let s := lit "{" ++ [ch_dquote] ++ lit "a" ++ [ch_dquote] ++ lit ":[1, " ++ [ch_dquote] ++ lit "x" in
  balance s = s ++ [ch_dquote] ++ lit "]}" ∧ scan (balance s) = (unquoted, []).
Proof.
  intros s. split; [vm_compute; reflexivity|].
  apply (balance_closes s). vm_compute. reflexivity.
Defined.

(** Pass 2 turns each byte into a char: an accented letter in a text that needed any repair comes
    out as two other letters. *)
Example repair_breaks_accents :
  strip_commas unquoted (as_bytes ([ch_dquote] ++ [233%N] ++ [ch_dquote])) =
    [ch_dquote] ++ [195%N; 169%N] ++ [ch_dquote].
Proof. vm_compute. reflexivity. Qed.

(** Pass 1 takes the quote after an escaped backslash for an escaped quote, and so a comment
    behind the string for a part of it. *)
Example comment_after_backslash_stays :
  let s := [ch_dquote; ch_backslash; ch_backslash; ch_dquote] ++ lit " // note" in
  strip_comments (Outside 0%N) s = s.
Proof. vm_compute. reflexivity. Qed.

(** A text that breaks off after a backslash is not closed: the quote is appended as an escaped one. *)
Example dangling_escape_not_closed :
  in_string (scan (balance [ch_dquote; ch_backslash])).1 = true.
Proof. vm_compute. reflexivity. Qed.
