(* ===== verification/ToolParsing.v ===== *)
(** Tool calls in the text of models without native tool calling.

    Models [crates/agents/src/tool_parsing.rs]: the five collectors of blocks, their merge
    and the text that remains.  Positions are char positions; every position the source
    computes lies at an ASCII marker, so slicing there is slicing the list.

    Each [while let Some(..) = text[pos..].find(..)] loop is an [iterate] of the prelude over a step
    that moves its cursor forward; one round more than the text has chars is enough
    ([collectors_terminate]).  The UUID in the id of a call is an argument, by the
    position of the block. *)
From S2P Require Import Prelude Json Utf8 ToolArgs.

Record ToolCall := {
  id : str;
  name : str;
  call_arguments : json;
  argument_diagnostic : option ToolCallArgumentDiagnostic;
  metadata : option (list (str * json));
}.

Record ParsedBlock := { tool_call : ToolCall; start : nat; end_ : nat }.

Definition SYNTHETIC_TOOL_CALL_ID_MAX_LEN : nat := 40.

(** The prefix and the UUID are ASCII. *)
Definition new_synthetic_tool_call_id (prefix uuid : str) : str :=
  take SYNTHETIC_TOOL_CALL_ID_MAX_LEN (prefix ++ lit "_" ++ uuid).

Definition is_name_char (c : char) : bool :=
  is_ascii_alphanumeric c || (c =? ch "_")%N || (c =? ch "-")%N.
Definition is_valid_tool_name (n : str) : bool := is_nonempty n && forallb is_name_char n.

(** [text[pos..].find(p)], as a position of [text]. *)
Definition find_from (p text : str) (pos : nat) : option nat := (λ i, pos + i) <$> find p (drop pos text).

(** [&text[a..b]]. *)
Definition slice (a b : nat) (text : str) : str := take (b - a) (drop a text).

Section parsing.
Context `{SerdeJson} (uuid : nat → str).

Definition new_text_tool_call (at_ : nat) (n : str) (args : list (str * json)) : ToolCall :=
  {| id := new_synthetic_tool_call_id "text" (uuid at_); name := n; call_arguments := JObject args;
     argument_diagnostic := None; metadata := None |}.

Definition try_parse_tool_json (at_ : nat) (json_str : str) : option ToolCall :=
  parsed ← match from_str json_str with Ok v => Some v | Err _ => repair_json json_str end;
  tool_name ← get "tool" parsed ≫= as_str;
  Some {| id := new_synthetic_tool_call_id "text" (uuid at_); name := tool_name;
          call_arguments := unwrap_or (JObject []) (get "arguments" parsed);
          argument_diagnostic := None; metadata := None |}.

Definition parse_param_value (raw : str) : json :=
  match from_str raw with Ok v => v | Err _ => JString raw end.

Section text.
Context (text : str).

(** ** Fenced blocks *)

Definition fence : str := [96; 96; 96]%N.

Definition fenced_step (blocks : list ParsedBlock) (pos : nat) : option (list ParsedBlock * nat) :=
  abs_start ← find_from (fence ++ lit "tool_call") text pos;
  let after_marker := abs_start + 12 in
  fence_end ← find_from fence text after_marker;
  let json_str := trim (slice after_marker fence_end text) in
  let abs_end := fence_end + 3 in
  Some (match try_parse_tool_json abs_start json_str with
        | Some parsed => blocks ++ [{| tool_call := parsed; start := abs_start; end_ := abs_end |}]
        | None => blocks
        end, abs_end).

Definition collect_fenced_blocks (blocks : list ParsedBlock) : list ParsedBlock :=
  iterate fenced_step (S (length text)) blocks 0.
End text.

(** ** [<function=name><parameter=key>value</parameter></function>] *)

(** The arguments so far, and whether one was found. *)
Definition args_state := (list (str * json) * bool)%type.

Definition parameter_step (body : str) (st : args_state) (cursor : nat) : option (args_state * nat) :=
  param_start ← find_from "<parameter=" body cursor;
  let after_param_marker := param_start + 11 in
  param_name_end ← find_from ">" body after_param_marker;
  let param_name := trim (slice after_param_marker param_name_end body) in
  if negb (is_nonempty param_name) || negb (forallb is_name_char param_name)
  then Some (st, param_name_end + 1)
  else
    let value_start := param_name_end + 1 in
    value_end ← find_from "</parameter>" body value_start;
    let value_raw := trim (slice value_start value_end body) in
    Some ((insert_assoc param_name (parse_param_value value_raw) st.1, true), value_end + 12).

Definition function_step (text : str) (blocks : list ParsedBlock) (pos : nat) : option (list ParsedBlock * nat) :=
  abs_start ← find_from "<function=" text pos;
  let after_marker := abs_start + 10 in
  open_end ← find_from ">" text after_marker;
  let tool_name := trim (slice after_marker open_end text) in
  if negb (is_valid_tool_name tool_name) then Some (blocks, after_marker)
  else
    let body_start := open_end + 1 in
    match find_from "</function>" text body_start with
    | None => Some (blocks, body_start)
    | Some body_end =>
        let body := slice body_start body_end text in
        let abs_end := body_end + 11 in
        let final_end :=
          match strip_prefix "</tool_call>" (trim_start (drop abs_end text)) with
          | Some rest => length text - length rest
          | None => abs_end
          end in
        let '(args, found) := iterate (parameter_step body) (S (length body)) ([], false) 0 in
        Some (if (found : bool)
              then blocks ++ [{| tool_call := new_text_tool_call abs_start tool_name args;
                                 start := abs_start; end_ := final_end |}]
              else blocks, final_end)
    end.

Definition collect_function_blocks (text : str) (blocks : list ParsedBlock) : list ParsedBlock :=
  iterate (function_step text) (S (length text)) blocks 0.

(** ** [<invoke name="tool"><arg name="key">value</arg></invoke>] *)

Definition extract_xml_attr (attr_str attr_name : str) : option str :=
  let needle := attr_name ++ lit "=" ++ [ch_dquote] in
  start ← find needle attr_str;
  let rest := drop (start + length needle) attr_str in
  end_ ← find [ch_dquote] rest;
  Some (take end_ rest).

Definition arg_step (body : str) (st : args_state) (cursor : nat) : option (args_state * nat) :=
  arg_start ← find_from "<arg" body cursor;
  let after_arg_tag := arg_start + 4 in
  arg_gt ← find_from ">" body after_arg_tag;
  let value_start := arg_gt + 1 in
  match extract_xml_attr (slice after_arg_tag arg_gt body) "name" with
  | None => Some (st, value_start)
  | Some param_name =>
      if negb (is_nonempty param_name) then Some (st, value_start)
      else
        value_end ← find_from "</arg>" body value_start;
        let value_raw := trim (slice value_start value_end body) in
        Some ((insert_assoc param_name (parse_param_value value_raw) st.1, true), value_end + 6)
  end.

Definition invoke_step (text : str) (blocks : list ParsedBlock) (pos : nat) : option (list ParsedBlock * nat) :=
  abs_start ← find_from "<invoke" text pos;
  let after_marker := abs_start + 7 in
  open_end ← find_from ">" text after_marker;
  let body_start := open_end + 1 in
  match extract_xml_attr (slice after_marker open_end text) "name" with
  | None => Some (blocks, body_start)
  | Some tool_name =>
      if negb (is_valid_tool_name tool_name) then Some (blocks, body_start)
      else
        match find_from "</invoke>" text body_start with
        | None => Some (blocks, body_start)
        | Some body_end =>
            let body := slice body_start body_end text in
            let abs_end := body_end + 9 in
            let '(args, found) := iterate (arg_step body) (S (length body)) ([], false) 0 in
            Some (if (found : bool)
                  then blocks ++ [{| tool_call := new_text_tool_call abs_start tool_name args;
                                     start := abs_start; end_ := abs_end |}]
                  else blocks, abs_end)
        end
  end.

Definition collect_invoke_blocks (text : str) (blocks : list ParsedBlock) : list ParsedBlock :=
  iterate (invoke_step text) (S (length text)) blocks 0.

(** ** [<tool_call>name<arg_key>k</arg_key><arg_value>v</arg_value></tool_call>] *)

Definition zhipu_arg_step (inner : str) (st : args_state) (arg_cursor : nat) : option (args_state * nat) :=
  key_start ← find_from "<arg_key>" inner arg_cursor;
  let key_content_start := key_start + 9 in
  key_end ← find_from "</arg_key>" inner key_content_start;
  let key := trim (slice key_content_start key_end inner) in
  let after_key := key_end + 10 in
  val_start ← find_from "<arg_value>" inner after_key;
  let val_content_start := val_start + 11 in
  val_end ← find_from "</arg_value>" inner val_content_start;
  let val := slice val_content_start val_end inner in
  Some (if is_nonempty key then (insert_assoc key (parse_param_value val) st.1, true) else st, val_end + 12).

Definition zhipu_step (text : str) (blocks : list ParsedBlock) (cursor : nat) : option (list ParsedBlock * nat) :=
  abs_start ← find_from "<tool_call>" text cursor;
  let content_start := abs_start + 11 in
  content_end ← find_from "</tool_call>" text content_start;
  let abs_end := content_end + 12 in
  let inner := slice content_start content_end text in
  if starts_with "{" (trim_start inner) then Some (blocks, abs_end)
  else
    let name_end := unwrap_or (length inner) (find "<arg_key>" inner) in
    let tool_name := trim (take name_end inner) in
    if negb (is_valid_tool_name tool_name) then Some (blocks, content_start)
    else if (name_end =? length inner) then Some (blocks, abs_end)
    else
      let '(args, parsed_any) := iterate (zhipu_arg_step inner) (S (length inner)) ([], false) name_end in
      Some (if (parsed_any : bool)
            then blocks ++ [{| tool_call := new_text_tool_call abs_start tool_name args;
                               start := abs_start; end_ := abs_end |}]
            else blocks, abs_end).

Definition collect_zhipu_blocks (text : str) (blocks : list ParsedBlock) : list ParsedBlock :=
  iterate (zhipu_step text) (S (length text)) blocks 0.

(** ** Bare JSON *)

(** The end of the object that starts the chars: behind the brace that closes it. *)
Fixpoint object_end (depth : Z) (q : quoting) (cs : str) : option nat :=
  match cs with
  | [] => None
  | c :: cs' =>
      if in_string q then S <$> object_end depth (string_char q c) cs'
      else if (c =? ch_dquote)%N then S <$> object_end depth {| in_string := true; escape_next := escape_next q |} cs'
      else if (c =? ch "{")%N then S <$> object_end (depth + 1) q cs'
      else if (c =? ch "}")%N then
        if (depth - 1 =? 0)%Z then Some 1 else S <$> object_end (depth - 1) q cs'
      else S <$> object_end depth q cs'
  end.

Definition needle : str := [ch_dquote] ++ lit "tool" ++ [ch_dquote].

Definition bare_step (text : str) (blocks : list ParsedBlock) (pos : nat) : option (list ParsedBlock * nat) :=
  abs_hit ← find_from needle text pos;
  let skip := Some (blocks, abs_hit + 6) in
  match rfind (ch "{") (take abs_hit text) with
  | None => skip
  | Some obj_start =>
      if existsb (λ b, (start b <=? obj_start) && (obj_start <? end_ b)) blocks then skip
      else
        let abs_end := match object_end 0 unquoted (drop obj_start text) with
                       | Some i => obj_start + i
                       | None => length text
                       end in
        match try_parse_tool_json obj_start (slice obj_start abs_end text) with
        | Some tc => Some (blocks ++ [{| tool_call := tc; start := obj_start; end_ := abs_end |}], abs_end)
        | None => skip
        end
  end.

Definition collect_bare_json_blocks (text : str) (blocks : list ParsedBlock) : list ParsedBlock :=
  iterate (bare_step text) (S (length text)) blocks 0.

(** ** The whole text *)

(** The first loop of [trim_tool_call_wrappers], with the length of the text as fuel: every round removes a tag. *)
Fixpoint trim_leading_tags (fuel : nat) (value : str) : str :=
  match fuel with
  | 0 => value
  | S fuel' =>
      match or_else (strip_prefix "<tool_call>" value) (strip_prefix "</tool_call>" value) with
      | Some s => trim_leading_tags fuel' (trim s)
      | None => value
      end
  end.
Fixpoint trim_trailing_tags (fuel : nat) (value : str) : str :=
  match fuel with
  | 0 => value
  | S fuel' =>
      match or_else (strip_suffix "<tool_call>" value) (strip_suffix "</tool_call>" value) with
      | Some s => trim_trailing_tags fuel' (trim s)
      | None => value
      end
  end.
Definition trim_tool_call_wrappers (text : str) : str :=
  let value := trim text in
  trim_trailing_tags (length text) (trim_leading_tags (length text) value).

Definition collect_blocks (text : str) : list ParsedBlock :=
  collect_bare_json_blocks text (collect_zhipu_blocks text (collect_invoke_blocks text
    (collect_function_blocks text (collect_fenced_blocks text [])))).

(** Keep a block unless it starts before the end of the last one kept. *)
Definition merge_step (merged : list ParsedBlock) (b : ParsedBlock) : list ParsedBlock :=
  match last merged with
  | Some l => if start b <? end_ l then merged else merged ++ [b]
  | None => merged ++ [b]
  end.
Definition merge_blocks (blocks : list ParsedBlock) : list ParsedBlock :=
  foldl merge_step [] (sort_by_key (λ b, Z.of_nat (start b)) blocks).

Fixpoint remaining_parts (text : str) (cursor : nat) (merged : list ParsedBlock) : list str :=
  match merged with
  | [] =>
      let after := trim_tool_call_wrappers (trim (drop cursor text)) in
      if is_nonempty after then [after] else []
  | b :: merged' =>
      let before := trim_tool_call_wrappers (trim (slice cursor (start b) text)) in
      (if is_nonempty before then [before] else []) ++ remaining_parts text (end_ b) merged'
  end.

Definition parse_tool_calls_from_text (text : str) : list ToolCall * option str :=
  let blocks := collect_blocks text in
  if negb (is_nonempty blocks) then ([], Some text)
  else
    let merged := merge_blocks blocks in
    let parts := remaining_parts text 0 merged in
    (map tool_call merged, if is_nonempty parts then Some (join [ch_newline] parts) else None).

Definition parse_tool_call_from_text (text : str) : option (ToolCall * option str) :=
  let '(calls, remaining) := parse_tool_calls_from_text text in
  first ← head calls; Some (first, remaining).

Definition looks_like_failed_tool_call (text : option str) : bool :=
  match text with
  | None => false
  | Some t =>
      let lower := to_ascii_lowercase t in
      (contains needle lower || contains "tool_call" lower || contains "<function=" lower ||
       contains "<invoke" lower || contains "<arg_key>" lower || contains "<arg_value>" lower) &&
      negb (isSome (parse_tool_call_from_text t))
  end.
End parsing.

(** * Facts *)

Local Arguments lit : simpl never.

Lemma find_from_Some p text pos i :
  find_from p text pos = Some i → is_nonempty p = true →
  pos ≤ i ∧ i + length p ≤ length text ∧ starts_with p (drop i text) = true.
Proof.
  unfold find_from. intros (j & Hj & ->)%fmap_Some Hp. apply find_Some in Hj as (u & v & E & <-).
  split; [lia|].
  assert (Hd : drop (pos + length u) text = p ++ v).
  { rewrite <- drop_drop, E. by rewrite drop_app_length. }
  split; [|apply starts_with_spec; by exists v].
  apply (f_equal length) in Hd. rewrite length_drop, length_app in Hd. destruct p; simpl in *; [done|lia].
Qed.

(** Use a successful search: where the marker lies, with its length as a numeral. *)
Ltac found H :=
  lazymatch type of H with
  | find_from ?p _ _ = Some _ =>
      let l := eval vm_compute in (length p) in
      apply find_from_Some in H; [|reflexivity];
      change (length p) with l in H;
      let H1 := fresh "Hlo" in let H2 := fresh "Hhi" in destruct H as (H1 & H2 & H)
  end.

Ltac marker_length :=
  match goal with
  | |- context [length ?p] =>
      lazymatch p with
      | context [lit _] => let l := eval vm_compute in (length p) in change (length p) with l
      end
  end.

Lemma slice_length a b (text : str) : b ≤ length text → length (slice a b text) = b - a.
Proof. intros Hb. unfold slice. rewrite length_take, length_drop. lia. Qed.

Lemma starts_with_take p n (s : str) : starts_with p s = true → length p ≤ n → starts_with p (take n s) = true.
Proof.
  rewrite !starts_with_spec. intros (r & ->) Hn. exists (take (n - length p) r).
  by rewrite take_app_ge.
Qed.

(** What a block of the text begins with. *)
Definition markers : list str :=
  [fence ++ lit "tool_call"; lit "<function="; lit "<invoke"; lit "<tool_call>"; lit "{"].

(** A block lies in the text, and begins with a marker. *)
Definition block_ok (text : str) (b : ParsedBlock) : Prop :=
  start b < end_ b ≤ length text ∧
  ∃ m, m ∈ markers ∧ starts_with m (slice (start b) (end_ b) text) = true.

Lemma block_ok_intro text tc a e m :
  m ∈ markers → starts_with m (drop a text) = true → a + length m ≤ e ≤ length text → is_nonempty m = true →
  block_ok text {| tool_call := tc; start := a; end_ := e |}.
Proof.
  intros Hm Hs He Hn. split; simpl; [destruct m; simpl in *; [done|lia]|]. exists m. split; [done|].
  unfold slice. apply starts_with_take; [done|lia].
Qed.

Section collectors.
Context `{SerdeJson} (uuid : nat → str) (text : str).
Notation n := (length text).

(** What a step does to the blocks and the cursor. *)
Definition good_step (step : list ParsedBlock → nat → option (list ParsedBlock * nat)) : Prop :=
  ∀ bs pos bs' pos', step bs pos = Some (bs', pos') →
    (pos < pos' ∧ pos < n) ∧ (bs' = bs ∨ ∃ b, bs' = bs ++ [b] ∧ block_ok text b).

Lemma fenced_good : good_step (fenced_step uuid text).
Proof.
  intros bs pos bs' pos' Hs. unfold fenced_step in Hs.
  apply bind_Some in Hs as (a & Ha & Hs). apply bind_Some in Hs as (e & He & Hs).
  found Ha. found He. injection Hs as <- <-. split; [lia|].
  destruct (try_parse_tool_json _ _ _); [right|by left]. eexists. split; [done|].
  eapply block_ok_intro; [by left|done| |done]. marker_length. lia.
Qed.

Lemma trim_start_suffix (s : str) : ∃ u, s = u ++ trim_start s.
Proof.
  unfold trim_start, trim_start_matches. induction s as [|c s [u IH]]; [by exists []|]. simpl.
  destruct (is_whitespace c); [|by exists []]. exists (c :: u). simpl. by f_equal.
Qed.

Lemma function_good : good_step (function_step uuid text).
Proof.
  intros bs pos bs' pos' Hs. unfold function_step in Hs.
  apply bind_Some in Hs as (a & Ha & Hs). apply bind_Some in Hs as (o & Ho & Hs).
  found Ha. found Ho.
  destruct (negb _); [injection Hs as <- <-; split; [lia|by left]|].
  destruct (find_from "</function>" text (o + 1)) as [e|] eqn:He; [|injection Hs as <- <-; split; [lia|by left]].
  found He. destruct (iterate _ _ _ _) as [args found].
  set (f := match strip_prefix _ _ with Some _ => _ | None => _ end) in Hs.
  assert (Hf : e + 11 ≤ f ≤ n).
  { subst f. destruct (strip_prefix _ _) as [rest|] eqn:Er; [|lia].
    apply strip_prefix_Some in Er. destruct (trim_start_suffix (drop (e + 11) text)) as [u Eu].
    rewrite Er in Eu. apply (f_equal length) in Eu. rewrite length_drop, !length_app in Eu. lia. }
  injection Hs as <- <-. split; [lia|]. destruct found; [right|by left]. eexists. split; [done|].
  eapply block_ok_intro; [by right; left|done| |done]. marker_length. lia.
Qed.

Lemma invoke_good : good_step (invoke_step uuid text).
Proof.
  intros bs pos bs' pos' Hs. unfold invoke_step in Hs.
  apply bind_Some in Hs as (a & Ha & Hs). apply bind_Some in Hs as (o & Ho & Hs).
  found Ha. found Ho.
  destruct (extract_xml_attr _ _) as [tn|]; [|injection Hs as <- <-; split; [lia|by left]].
  destruct (negb _); [injection Hs as <- <-; split; [lia|by left]|].
  destruct (find_from "</invoke>" text (o + 1)) as [e|] eqn:He; [|injection Hs as <- <-; split; [lia|by left]].
  found He. destruct (iterate _ _ _ _) as [args found].
  injection Hs as <- <-. split; [lia|]. destruct found; [right|by left]. eexists. split; [done|].
  eapply block_ok_intro; [by right; right; left|done| |done]. marker_length. lia.
Qed.

Lemma zhipu_good : good_step (zhipu_step uuid text).
Proof.
  intros bs pos bs' pos' Hs. unfold zhipu_step in Hs.
  apply bind_Some in Hs as (a & Ha & Hs). apply bind_Some in Hs as (e & He & Hs).
  found Ha. found He.
  destruct (starts_with "{" _); [injection Hs as <- <-; split; [lia|by left]|].
  destruct (negb _); [injection Hs as <- <-; split; [lia|by left]|].
  destruct (_ =? _); [injection Hs as <- <-; split; [lia|by left]|].
  destruct (iterate _ _ _ _) as [args found].
  injection Hs as <- <-. split; [lia|]. destruct found; [right|by left]. eexists. split; [done|].
  eapply block_ok_intro; [by right; right; right; left|done| |done]. marker_length. lia.
Qed.

(** ** The scan for bare JSON *)

Lemma rfind_Some c (s : str) i :
  rfind c s = Some i ↔ s !! i = Some c ∧ ∀ j, i < j → s !! j ≠ Some c.
Proof.
  revert i. induction s as [|x s IH] using rev_ind; intros i.
  - split; [done|]. intros [Hi _]. by rewrite lookup_nil in Hi.
  - unfold rfind in *. rewrite reverse_snoc. simpl. destruct (N.eqb_spec c x) as [->|Hx]; simpl.
    + rewrite length_app. simpl. split.
      * intros [= <-]. replace (length s + 1 - 1 - 0) with (length s) by lia. split; [rewrite lookup_app_r by lia; by rewrite Nat.sub_diag|].
        intros j Hj. rewrite lookup_ge_None_2; [done|]. rewrite length_app. simpl. lia.
      * intros [Hi Hj]. f_equal. assert (i < length s + 1) by (apply lookup_lt_Some in Hi; by rewrite length_app in Hi).
        destruct (decide (i = length s)) as [->|]; [lia|]. destruct (Hj (length s)); [lia|]. rewrite lookup_app_r by lia. by rewrite Nat.sub_diag.
    + assert (E : (λ i0, length (s ++ [x]) - 1 - i0) <$> (S <$> find_char (N.eqb c) (reverse s)) =
                  (λ i0, length s - 1 - i0) <$> find_char (N.eqb c) (reverse s)).
      { destruct (find_char _ _) as [k|]; simpl; [|done]. rewrite length_app. simpl. f_equal. lia. }
      rewrite E, IH. split; intros [Hi Hj].
      * split; [by apply lookup_app_l_Some|]. intros j Hl [?|[? ?]]%lookup_app_Some; [by eapply Hj|].
        destruct (j - length s) as [|k] eqn:Ek; simpl in *; [congruence|done].
      * apply lookup_app_Some in Hi as [Hi|[Hge Hi]].
        -- split; [done|]. intros j Hl Hj'. apply (Hj j Hl). by apply lookup_app_l_Some.
        -- destruct (i - length s) as [|k]; simpl in *; [congruence|done].
Qed.

Lemma object_end_pos depth q cs i : object_end depth q cs = Some i → 0 < i ≤ length cs.
Proof.
  revert depth q i. induction cs as [|c cs IH]; intros depth q i; simpl; [done|].
  intros Ho. repeat case_match; try (injection Ho as <-; lia);
    apply fmap_Some in Ho as (j & Hj & ->); apply IH in Hj; lia.
Qed.

(** Every opening brace that a hit behind [pos] would walk back to over [pos] has been dealt with: it lies in
    a block, or does not start a tool call. *)
Definition object_from (o : nat) : nat :=
  match object_end 0 unquoted (drop o text) with Some i => o + i | None => n end.
Definition covered (bs : list ParsedBlock) (o : nat) : bool :=
  existsb (λ b, (start b <=? o) && (o <? end_ b)) bs.
Definition settled (bs : list ParsedBlock) (pos : nat) : Prop :=
  ∀ o, rfind (ch "{") (take pos text) = Some o →
    covered bs o = true ∨ try_parse_tool_json uuid o (slice o (object_from o) text) = None.

Lemma object_from_bounds o : o < n → o < object_from o ≤ n.
Proof.
  intros Ho. unfold object_from. destruct (object_end _ _ _) as [i|] eqn:E; [|lia].
  apply object_end_pos in E. rewrite length_drop in E. lia.
Qed.

Lemma rfind_take_Some c p (s : str) i :
  rfind c (take p s) = Some i ↔ i < p ∧ s !! i = Some c ∧ ∀ j, i < j < p → s !! j ≠ Some c.
Proof.
  rewrite rfind_Some. split.
  - intros [Hi Hj]. destruct (decide (i < p)) as [Hp|Hp]; [|by rewrite lookup_take_ge in Hi by lia].
    rewrite lookup_take_lt in Hi by done. split_and!; [done..|]. intros j Hl Hs.
    apply (Hj j); [lia|]. by rewrite lookup_take_lt by lia.
  - intros (Hp & Hi & Hj). rewrite lookup_take_lt by done. split; [done|]. intros j Hl.
    destruct (decide (j < p)); [rewrite lookup_take_lt by done; apply Hj; lia|by rewrite lookup_take_ge by lia].
Qed.

Lemma needle_no_brace h j : starts_with needle (drop h text) = true → h ≤ j < h + 6 → text !! j ≠ Some (ch "{").
Proof.
  rewrite starts_with_spec. intros (r & E) Hj Hs.
  assert (Hk : (needle ++ r) !! (j - h) = Some (ch "{")) by (rewrite <- E, lookup_drop; by replace (h + (j - h)) with j by lia).
  assert (Hl : j - h < 6) by lia. clear - Hk Hl. revert Hk Hl. generalize (j - h). intros k Hk Hl.
  do 6 (destruct k as [|k]; [done|]). lia.
Qed.

Lemma bare_step_advances : advances (bare_step uuid text) settled n.
Proof.
  intros bs pos bs' pos' Hset Hs. unfold bare_step in Hs.
  apply bind_Some in Hs as (h & Hh & Hs).
  assert (Hn : starts_with needle (drop h text) = true) by (by found Hh).
  found Hh.
  assert (Hskip : (∀ o, rfind (ch "{") (take h text) = Some o →
      covered bs o = true ∨ try_parse_tool_json uuid o (slice o (object_from o) text) = None) →
    settled bs (h + 6) ∧ (pos < h + 6 ∧ pos < n)).
  { intros Ho. split; [|lia]. intros o (Hlt & Hoo & Hj)%rfind_take_Some. apply Ho. apply rfind_take_Some.
    destruct (decide (o < h)); [split_and!; [done..|intros; apply Hj; lia]|].
    destruct (needle_no_brace h o); [done|lia|done]. }
  destruct (rfind _ (take h text)) as [o|] eqn:Eo; [|injection Hs as <- <-; by apply Hskip].
  fold (covered bs o) in Hs.
  destruct (covered bs o) eqn:Ec.
  { injection Hs as <- <-. apply Hskip. intros o' [= <-]. by left. }
  fold (object_from o) in Hs.
  destruct (try_parse_tool_json _ _ _) as [tc|] eqn:Et.
  2: { injection Hs as <- <-. apply Hskip. intros o' [= <-]. by right. }
  injection Hs as <- <-. apply rfind_take_Some in Eo as (Hoh & Ho & Hj).
  assert (Hon : o < n) by (by eapply lookup_lt_Some).
  assert (Hpo : pos ≤ o).
  { destruct (decide (o < pos)) as [Hlt|]; [|lia]. destruct (Hset o) as [?|?]; [|congruence..].
    apply rfind_take_Some. split_and!; [done..|]. intros; apply Hj; lia. }
  pose proof (object_from_bounds o Hon). split; [|lia].
  intros o' (Hlt & Ho' & Hj')%rfind_take_Some. left. unfold covered. rewrite existsb_app. simpl.
  apply orb_true_iff. right. rewrite orb_false_r. apply andb_true_iff.
  rewrite Nat.leb_le, Nat.ltb_lt. split; [|done].
  destruct (decide (o ≤ o')); [done|]. destruct (Hj' o); [lia|done].
Qed.

Lemma bare_good bs pos bs' pos' :
  bare_step uuid text bs pos = Some (bs', pos') → bs' = bs ∨ ∃ b, bs' = bs ++ [b] ∧ block_ok text b.
Proof.
  intros Hs. unfold bare_step in Hs. apply bind_Some in Hs as (h & Hh & Hs).
  destruct (rfind _ (take h text)) as [o|] eqn:Eo; [|injection Hs as <- <-; by left].
  destruct (existsb _ _); [injection Hs as <- <-; by left|].
  fold (object_from o) in Hs.
  destruct (try_parse_tool_json _ _ _) as [tc|]; injection Hs as <- <-; [|by left].
  right. eexists. split; [done|]. apply rfind_take_Some in Eo as (_ & Ho & _).
  assert (Hon : o < n) by (by eapply lookup_lt_Some). pose proof (object_from_bounds o Hon).
  apply (block_ok_intro _ _ _ _ (lit "{")).
  - by do 4 right; left.
  - apply starts_with_spec. exists (drop (S o) text). by rewrite (drop_S _ _ _ Ho).
  - change (length (lit "{")) with 1. lia.
  - done.
Qed.

(** ** The blocks *)

Lemma good_advances step : good_step step → advances step (λ _ _, True) n.
Proof. intros Hg bs pos bs' pos' _ Hs. split; [done|]. by apply (Hg _ _ _ _ Hs). Qed.

Lemma iterate_blocks step fuel bs pos :
  (∀ bs pos bs' pos', step bs pos = Some (bs', pos') → bs' = bs ∨ ∃ b, bs' = bs ++ [b] ∧ block_ok text b) →
  Forall (block_ok text) bs → Forall (block_ok text) (iterate step fuel bs pos).
Proof.
  intros Hg. apply iterate_inv. intros bs0 p0 bs' p' Hb Hs.
  destruct (Hg _ _ _ _ Hs) as [->|(b & -> & ?)]; [done|]. apply Forall_app. by split; [|constructor].
Qed.

Lemma collect_blocks_ok : Forall (block_ok text) (collect_blocks uuid text).
Proof.
  unfold collect_blocks, collect_bare_json_blocks, collect_zhipu_blocks, collect_invoke_blocks,
    collect_function_blocks, collect_fenced_blocks.
  repeat (apply iterate_blocks;
    [first [exact bare_good | intros ? ? ? ? Hs;
       first [by apply zhipu_good in Hs as [_ ?] | by apply invoke_good in Hs as [_ ?] |
              by apply function_good in Hs as [_ ?] | by apply fenced_good in Hs as [_ ?]]]|]).
  constructor.
Qed.

(** Consecutive blocks that do not overlap. *)
Fixpoint in_order (pos : nat) (bs : list ParsedBlock) : Prop :=
  match bs with
  | [] => pos ≤ n
  | b :: bs' => pos ≤ start b ∧ in_order (end_ b) bs'
  end.

Lemma in_order_snoc pos bs b :
  start b ≤ end_ b →
  in_order pos (bs ++ [b]) ↔
    in_order pos bs ∧ (match last bs with Some l => end_ l | None => pos end) ≤ start b ∧ end_ b ≤ n.
Proof.
  intros Hb. revert pos. induction bs as [|x bs IH]; intros pos; [simpl; lia|].
  cbn [app in_order]. rewrite IH, last_cons. destruct (last bs); tauto.
Qed.

Lemma merge_fold bs merged :
  Forall (block_ok text) bs → Forall (block_ok text) merged → in_order 0 merged →
  in_order 0 (foldl merge_step merged bs) ∧ Forall (block_ok text) (foldl merge_step merged bs).
Proof.
  intros Hb. revert merged. induction Hb as [|b bs Hb Hbs IH]; intros merged Hm Ho; [done|]. simpl.
  pose proof Hb as [Hse _]. unfold merge_step at 2 4. destruct (last merged) as [l|] eqn:El.
  - destruct (Nat.ltb_spec (start b) (end_ l)); [by apply IH|].
    apply IH; [apply Forall_app; by split; [|constructor]|].
    apply in_order_snoc; [lia|]. rewrite El. split_and!; [done|lia|lia].
  - apply last_None in El as ->. apply IH; [by constructor|]. simpl. lia.
Qed.

Lemma merge_blocks_ok bs :
  Forall (block_ok text) bs → in_order 0 (merge_blocks bs) ∧ Forall (block_ok text) (merge_blocks bs).
Proof.
  intros Hb. unfold merge_blocks. apply merge_fold; [|constructor|simpl; lia].
  eapply Forall_Permutation; [|apply sort_by_key_perm|]; [|done]. done.
Qed.

Lemma merge_first b bs : foldl merge_step [b] bs ≠ [].
Proof.
  assert (Hg : ∀ m, m ≠ [] → foldl merge_step m bs ≠ []); [|by apply Hg].
  induction bs as [|x bs IH]; intros m Hm; [done|]. simpl. apply IH. unfold merge_step.
  destruct (last m); [destruct (_ <? _); [done|]|]; by destruct m.
Qed.
Lemma merge_blocks_nil bs : merge_blocks bs = [] → bs = [].
Proof.
  unfold merge_blocks. intros Hm. destruct (sort_by_key _ bs) as [|x l] eqn:E.
  - apply Permutation_nil_r. rewrite <- E. symmetry. apply sort_by_key_perm.
  - simpl in Hm. by apply merge_first in Hm.
Qed.

(** ** The pieces of the text *)

(** The text before each block, and the block's own text. *)
Fixpoint pieces (pos : nat) (bs : list ParsedBlock) : list (str * str) :=
  match bs with
  | [] => []
  | b :: bs' => (slice pos (start b) text, slice (start b) (end_ b) text) :: pieces (end_ b) bs'
  end.
(** The text behind the last block. *)
Definition rest_of (pos : nat) (bs : list ParsedBlock) : str :=
  drop (match last bs with Some b => end_ b | None => pos end) text.

Lemma rest_of_cons pos b bs : rest_of pos (b :: bs) = rest_of (end_ b) bs.
Proof. unfold rest_of. rewrite last_cons. by destruct (last bs). Qed.

Lemma slice_drop a b : a ≤ b → slice a b text ++ drop b text = drop a text.
Proof.
  intros Hab. unfold slice. rewrite <- (take_drop (b - a) (drop a text)) at 2.
  by rewrite drop_drop, Nat.add_sub_assoc, Nat.add_comm, Nat.add_sub by done.
Qed.

Lemma pieces_text pos bs :
  in_order pos bs → Forall (block_ok text) bs →
  concat (map (λ p, p.1 ++ p.2) (pieces pos bs)) ++ rest_of pos bs = drop pos text.
Proof.
  intros Ho Hb. revert pos Ho. induction Hb as [|b bs [Hb _] _ IH]; intros pos Ho; [done|].
  destruct Ho as [H1 H2]. rewrite rest_of_cons. simpl. rewrite <- !app_assoc, IH by done.
  rewrite slice_drop by lia. by apply slice_drop.
Qed.

Definition part (s : str) : str := trim_tool_call_wrappers (trim s).

Lemma remaining_pieces pos bs :
  remaining_parts text pos bs =
    filter (λ p, is_nonempty p = true) (map (part ∘ fst) (pieces pos bs) ++ [part (rest_of pos bs)]).
Proof.
  revert pos. induction bs as [|b bs IH]; intros pos.
  - simpl. fold (part (drop pos text)). unfold rest_of. simpl.
    destruct (is_nonempty _) eqn:E; [by rewrite filter_cons_True|by rewrite filter_cons_False by congruence].
  - rewrite rest_of_cons. simpl. rewrite IH. fold (part (slice pos (start b) text)).
    destruct (is_nonempty _) eqn:E; [by rewrite filter_cons_True|by rewrite filter_cons_False by congruence].
Qed.
End collectors.

(** Parsing splits the text: it is the concatenation of the recognised blocks, each beginning with
    one of the five markers, with the pieces between them, in order and without overlap; the calls are those
    of the blocks, and the remaining text is made of exactly the other pieces, trimmed. *)
Theorem parse_partition `{SerdeJson} uuid text calls remaining :
  parse_tool_calls_from_text uuid text = (calls, remaining) →
  (calls = [] ∧ remaining = Some text) ∨
  ∃ blocks last_piece,
    Forall (block_ok text) blocks ∧ calls = map tool_call blocks ∧ calls ≠ [] ∧
    text = concat (map (λ p, p.1 ++ p.2) (pieces text 0 blocks)) ++ last_piece ∧
    map snd (pieces text 0 blocks) = map (λ b, slice (start b) (end_ b) text) blocks ∧
    let parts := filter (λ p, is_nonempty p = true) (map (part ∘ fst) (pieces text 0 blocks) ++ [part last_piece]) in
    remaining = if is_nonempty parts then Some (join [ch_newline] parts) else None.
Proof.
  unfold parse_tool_calls_from_text. pose proof (collect_blocks_ok uuid text) as Hb.
  destruct (is_nonempty (collect_blocks uuid text)) eqn:En; simpl; intros [= <- <-]; [right|by left].
  destruct (merge_blocks_ok uuid text _ Hb) as [Ho Hm].
  exists (merge_blocks (collect_blocks uuid text)), (rest_of text 0 (merge_blocks (collect_blocks uuid text))).
  split_and!; try done.
  - intros E%map_eq_nil%merge_blocks_nil. by rewrite E in En.
  - by rewrite pieces_text.
  - clear. generalize (merge_blocks (collect_blocks uuid text)) 0. intros bs.
    induction bs as [|b bs IH]; intros pos; simpl; [done|]. by rewrite IH.
  - by rewrite remaining_pieces.
Qed.

Section arguments.
Context `{SerdeJson}.

Lemma parameter_advances body : advances (parameter_step body) (λ _ _, True) (length body).
Proof.
  intros st pos st' pos' _ Hs. unfold parameter_step in Hs.
  apply bind_Some in Hs as (a & Ha & Hs). apply bind_Some in Hs as (g & Hg & Hs). found Ha. found Hg.
  destruct (_ || _); [injection Hs as <- <-; lia|].
  apply bind_Some in Hs as (e & He & Hs). found He. injection Hs as <- <-. lia.
Qed.

Lemma arg_advances body : advances (arg_step body) (λ _ _, True) (length body).
Proof.
  intros st pos st' pos' _ Hs. unfold arg_step in Hs.
  apply bind_Some in Hs as (a & Ha & Hs). apply bind_Some in Hs as (g & Hg & Hs). found Ha. found Hg.
  destruct (extract_xml_attr _ _); [|injection Hs as <- <-; lia].
  destruct (negb _); [injection Hs as <- <-; lia|].
  apply bind_Some in Hs as (e & He & Hs). found He. injection Hs as <- <-. lia.
Qed.

Lemma zhipu_arg_advances inner : advances (zhipu_arg_step inner) (λ _ _, True) (length inner).
Proof.
  intros st pos st' pos' _ Hs. unfold zhipu_arg_step in Hs.
  apply bind_Some in Hs as (k & Hk & Hs). apply bind_Some in Hs as (ke & Hke & Hs).
  apply bind_Some in Hs as (v & Hv & Hs). apply bind_Some in Hs as (ve & Hve & Hs).
  found Hk. found Hke. found Hv. found Hve. injection Hs as _ <-. lia.
Qed.

Lemma inner_loops_terminate body st pos fuel :
  length body < fuel →
  iterate (parameter_step body) fuel st pos = iterate (parameter_step body) (S (length body)) st pos ∧
  iterate (arg_step body) fuel st pos = iterate (arg_step body) (S (length body)) st pos ∧
  iterate (zhipu_arg_step body) fuel st pos = iterate (zhipu_arg_step body) (S (length body)) st pos.
Proof.
  intros Hf. split_and!;
    (eapply iterate_enough;
      [first [apply parameter_advances | apply arg_advances | apply zhipu_arg_advances]|done|lia]).
Qed.
End arguments.

(** Every loop of the collectors ends by itself: with any larger number of rounds than it is given the
    result is the same.  For the scan for bare JSON, whose cursor can go back behind the hit it found, this rests on
    what was tried before. *)
Theorem collectors_terminate `{SerdeJson} uuid text blocks fuel :
  length text < fuel →
  iterate (fenced_step uuid text) fuel blocks 0 = collect_fenced_blocks uuid text blocks ∧
  iterate (function_step uuid text) fuel blocks 0 = collect_function_blocks uuid text blocks ∧
  iterate (invoke_step uuid text) fuel blocks 0 = collect_invoke_blocks uuid text blocks ∧
  iterate (zhipu_step uuid text) fuel blocks 0 = collect_zhipu_blocks uuid text blocks ∧
  iterate (bare_step uuid text) fuel blocks 0 = collect_bare_json_blocks uuid text blocks ∧
  ∀ body st pos fuel', length body < fuel' →
    iterate (parameter_step body) fuel' st pos = iterate (parameter_step body) (S (length body)) st pos ∧
    iterate (arg_step body) fuel' st pos = iterate (arg_step body) (S (length body)) st pos ∧
    iterate (zhipu_arg_step body) fuel' st pos = iterate (zhipu_arg_step body) (S (length body)) st pos.
Proof.
  intros Hf. rewrite <- (Nat.sub_0_r (length text)) in Hf.
  split_and!;
    [eapply iterate_enough; [apply good_advances, fenced_good|done|done]
    |eapply iterate_enough; [apply good_advances, function_good|done|done]
    |eapply iterate_enough; [apply good_advances, invoke_good|done|done]
    |eapply iterate_enough; [apply good_advances, zhipu_good|done|done]
    |eapply iterate_enough; [apply bare_step_advances| |done]
    |intros; by apply inner_loops_terminate].
  intros o (Hlt & _)%rfind_take_Some. lia.
Qed.

(** * Witnesses *)

(** A parser that knows one object. *)
Definition toy_serde : SerdeJson :=
  {| from_str s := if str_eqb s "{T}" then Ok (JObject [(lit "tool", JString "exec")]) else Err [];
     to_string _ := None |}.

Section witnesses.
Existing Instance toy_serde.

Definition demo_text : str :=
  lit "Look: " ++ fence ++ lit "tool_call {T} " ++ fence ++
  lit " and <function=read><parameter=path>a</parameter></function></tool_call> done".

Lemma parse_partition_witness :
  let r := parse_tool_calls_from_text (λ _, lit "u") demo_text in
  map name r.1 = [lit "exec"; lit "read"] ∧
  r.2 = Some (lit "Look:" ++ [ch_newline] ++ lit "and" ++ [ch_newline] ++ lit "done") ∧
  ((r.1 = [] ∧ r.2 = Some demo_text) ∨ ∃ blocks last_piece, Forall (block_ok demo_text) blocks ∧
     demo_text = concat (map (λ p, p.1 ++ p.2) (pieces demo_text 0 blocks)) ++ last_piece).
Proof.
  split_and!; [vm_compute; reflexivity..|].
  destruct (parse_partition (λ _, lit "u") demo_text _ _ (surjective_pairing _)) as [?|(bs & l & ? & _ & _ & ? & _)];
    [by left|right; by exists bs, l].
Defined.

Lemma collectors_terminate_witness :
  iterate (bare_step (λ _, []) demo_text) 1000 [] 0 = collect_bare_json_blocks (λ _, []) demo_text [].
Proof.
  refine (proj1 (proj2 (proj2 (proj2 (proj2 (collectors_terminate (λ _, []) demo_text [] 1000 _)))))).
  apply Nat.ltb_lt. vm_compute. reflexivity.
Defined.
End witnesses.
