(* ===== verification/Http.v ===== *)
(** Requests as the HTTP layer hands them over.

    Header maps, addresses and the parameters that several models of request handling
    share: keyed hashing, and the parsing of addresses by the standard library. *)
From S2P Require Import Prelude Json Utf8 ToolArgs.

(** A header map: names in lower case, values in order of arrival; [None] is a value that is
    not visible ASCII, which [to_str] refuses. *)
Notation headers := (list (str * option str)) (only parsing).

(** [headers.get(name)]: the first value. *)
Definition header (name : str) (h : headers) : option (option str) := assoc name h.
(** [headers.get(name).and_then(|v| v.to_str().ok())]. *)
Definition header_str (name : str) (h : headers) : option str := mjoin (header name h).
Definition contains_key (name : str) (h : headers) : bool := isSome (header name h).

(** [std::net::IpAddr]. *)
Inductive IpAddr := V4 (a : Z) | V6 (a : Z).
Global Instance IpAddr_eq_dec : EqDecision IpAddr.
Proof. solve_decision. Defined.
Global Instance IpAddr_countable : Countable IpAddr.
Proof.
  refine (inj_countable' (λ i, match i with V4 a => inl a | V6 a => inr a end)
    (λ x, match x with inl a => V4 a | inr a => V6 a end) _). by intros [].
Defined.

(** [is_loopback]: 127.0.0.0/8, or ::1. *)
Definition is_loopback (ip : IpAddr) : bool :=
  match ip with V4 a => (Z.shiftr a 24 =? 127)%Z | V6 a => (a =? 1)%Z end.

(** [str::parse] to [IpAddr] and to [SocketAddr], of which only the address matters. *)
Class NetParse := {
  parse_ip_addr : str → option IpAddr;
  parse_socket_addr : str → option IpAddr;
}.

(** HMAC-SHA256 under a key of any length. *)
Class Hmac := { hmac_sha256 : bytes → bytes → bytes }.

(** [serde_json::from_slice]: invalid UTF-8 is an error, as it is outside the grammar. *)
Definition from_slice `{SerdeJson} (b : bytes) : result json str :=
  match from_utf8 b with Some s => from_str s | None => Err (lit "invalid unicode code point") end.

(** [subtle]'s [ct_eq] on slices. *)
Definition ct_eq (a b : bytes) : bool := bool_decide (a = b).

(** The value of a hexadecimal digit. *)
Definition hex_digit (c : char) : option N :=
  if is_ascii_digit c then Some (c - 48)%N
  else if in_range 97 102 c then Some (c - 87)%N
  else if in_range 65 70 c then Some (c - 55)%N
  else None.

(** [hex::decode]: pairs of digits. *)
Fixpoint hex_decode_strict (s : str) : option bytes :=
  match s with
  | [] => Some []
  | a :: b :: s' =>
      x ← hex_digit a; y ← hex_digit b; r ← hex_decode_strict s'; Some ((x * 16 + y)%N :: r)
  | [_] => None
  end.

Definition hex_char (n : N) : char := if (n <? 10)%N then (48 + n)%N else (87 + n)%N.
(** [hex::encode]: lower case. *)
Definition hex_encode (bs : bytes) : str :=
  flat_map (λ b, [hex_char (b / 16); hex_char (b mod 16)]%N) bs.

Definition is_byte (b : N) : Prop := (b < 256)%N.

Lemma hex_digit_char n : (n < 16)%N → hex_digit (hex_char n) = Some n.
Proof.
  intros Hn. unfold hex_digit, hex_char, is_ascii_digit, in_range.
  destruct (N.ltb_spec n 10).
  - rewrite !(proj2 (N.leb_le _ _)) by lia. simpl. f_equal. lia.
  - rewrite (proj2 (N.leb_le 48 _)) by lia. rewrite (proj2 (N.leb_gt _ 57)) by lia. simpl.
    rewrite !(proj2 (N.leb_le _ _)) by lia. simpl. f_equal. lia.
Qed.

Lemma hex_roundtrip bs : Forall is_byte bs → hex_decode_strict (hex_encode bs) = Some bs.
Proof.
  unfold is_byte. induction 1 as [|b bs Hb Hbs IH]; [done|]. cbn [hex_encode flat_map app hex_decode_strict].
  rewrite !hex_digit_char by (first [apply N.Div0.div_lt_upper_bound; lia | apply N.mod_lt; lia]).
  simpl. fold (hex_encode bs). rewrite IH. simpl. do 2 f_equal.
  rewrite N.mul_comm. symmetry. by apply N.div_mod.
Qed.
