(* ===== verification/Hooks.v ===== *)
(** Lifecycle hooks and their circuit breaker.

    Models [crates/common/src/hooks.rs]: events and payloads, the registry with its
    priority order, the statistics of a handler, and the dispatch of an event.

    A handler is code outside the model: what it answers in one dispatch, how long that
    takes and when its breaker is looked at is a [Reply] per position of the event's list.
    The statistics of a handler are shared by its entries under all its events, so they live in
    a store and an entry holds their address. *)
From S2P Require Import Prelude Json.
Local Open Scope Z_scope.

(** * Events and payloads *)

Inductive HookEvent :=
| BeforeAgentStart | AgentEnd | BeforeLLMCall | AfterLLMCall | BeforeCompaction | AfterCompaction
| MessageReceived | MessageSending | MessageSent | BeforeToolCall | AfterToolCall
| ToolResultPersist | SessionStart | SessionEnd | GatewayStart | GatewayStop | Command.

Global Instance HookEvent_eq_dec : EqDecision HookEvent.
Proof. solve_decision. Defined.

(** [ALL]. *)
Definition all_events : list HookEvent :=
  [BeforeAgentStart; AgentEnd; BeforeLLMCall; AfterLLMCall; BeforeCompaction; AfterCompaction;
   MessageReceived; MessageSending; MessageSent; BeforeToolCall; AfterToolCall;
   ToolResultPersist; SessionStart; SessionEnd; GatewayStart; GatewayStop; Command].

(** [Display] prints the name of the variant. *)
Definition event_name (e : HookEvent) : str :=
  match e with
  | BeforeAgentStart => "BeforeAgentStart"
  | AgentEnd => "AgentEnd"
  | BeforeLLMCall => "BeforeLLMCall"
  | AfterLLMCall => "AfterLLMCall"
  | BeforeCompaction => "BeforeCompaction"
  | AfterCompaction => "AfterCompaction"
  | MessageReceived => "MessageReceived"
  | MessageSending => "MessageSending"
  | MessageSent => "MessageSent"
  | BeforeToolCall => "BeforeToolCall"
  | AfterToolCall => "AfterToolCall"
  | ToolResultPersist => "ToolResultPersist"
  | SessionStart => "SessionStart"
  | SessionEnd => "SessionEnd"
  | GatewayStart => "GatewayStart"
  | GatewayStop => "GatewayStop"
  | Command => "Command"
  end.

(** [from_str]: the names are tried in turn. *)
Definition event_from_str (value : str) : result HookEvent str :=
  match list_find (λ e, value = event_name e) all_events with
  | Some (_, e) => Ok e
  | None => Err (lit "unknown hook event '" ++ value ++ lit "'")
  end.

Definition is_read_only (e : HookEvent) : bool :=
  match e with
  | AgentEnd | AfterToolCall | MessageSent | AfterCompaction | SessionStart | SessionEnd
  | GatewayStart | GatewayStop | Command => true
  | _ => false
  end.

Record ChannelBinding := {
  surface : option str;
  session_kind : option str;
  channel_type : option str;
  account_id : option str;
  chat_id : option str;
  outbound_to : option str;
  chat_type : option str;
  sender_id : option str;
}.

Definition binding_is_empty (b : ChannelBinding) : bool :=
  forallb (λ o, negb (isSome o))
    [surface b; session_kind b; channel_type b; account_id b; chat_id b; outbound_to b;
     chat_type b; sender_id b].

Inductive HookPayload :=
| PBeforeAgentStart (session_key model : str)
| PAgentEnd (session_key text : str) (iterations tool_calls : nat)
| PBeforeLLMCall (session_key provider model : str) (messages : json) (tool_count iteration : nat)
| PAfterLLMCall (session_key provider model : str) (text : option str) (tool_calls : list json)
    (input_tokens output_tokens : Z) (iteration : nat)
| PBeforeCompaction (session_key : str) (message_count : nat)
| PAfterCompaction (session_key : str) (summary_len : nat)
| PMessageReceived (session_key content : str) (channel : option str) (channel_binding : option ChannelBinding)
| PMessageSending (session_key content : str)
| PMessageSent (session_key content : str)
| PBeforeToolCall (session_key tool_name : str) (arguments : json) (channel : option ChannelBinding)
| PAfterToolCall (session_key tool_name : str) (success : bool) (res : option json) (channel : option ChannelBinding)
| PToolResultPersist (session_key tool_name : str) (res : json) (channel : option ChannelBinding)
| PSessionStart (session_key : str) (channel : option ChannelBinding)
| PSessionEnd (session_key : str)
| PGatewayStart (address : str)
| PGatewayStop
| PCommand (session_key action : str) (sender : option str).

Definition payload_event (p : HookPayload) : HookEvent :=
  match p with
  | PBeforeAgentStart _ _ => BeforeAgentStart
  | PAgentEnd _ _ _ _ => AgentEnd
  | PBeforeLLMCall _ _ _ _ _ _ => BeforeLLMCall
  | PAfterLLMCall _ _ _ _ _ _ _ _ => AfterLLMCall
  | PBeforeCompaction _ _ => BeforeCompaction
  | PAfterCompaction _ _ => AfterCompaction
  | PMessageReceived _ _ _ _ => MessageReceived
  | PMessageSending _ _ => MessageSending
  | PMessageSent _ _ => MessageSent
  | PBeforeToolCall _ _ _ _ => BeforeToolCall
  | PAfterToolCall _ _ _ _ _ => AfterToolCall
  | PToolResultPersist _ _ _ _ => ToolResultPersist
  | PSessionStart _ _ => SessionStart
  | PSessionEnd _ => SessionEnd
  | PGatewayStart _ => GatewayStart
  | PGatewayStop => GatewayStop
  | PCommand _ _ _ => Command
  end.

Inductive HookAction :=
| Continue
| ModifyPayload (v : json)
| Block (reason : str).

(** * Statistics *)

(** The counters are [AtomicU64]s, whose [fetch_add] wraps; latencies are nanoseconds. *)
Record HookStats := {
  call_count : Z;
  failure_count : Z;
  consecutive_failures : Z;
  total_latency_us : Z;
  disabled : bool;
  disabled_at : option Z;
}.

Definition new_stats : HookStats :=
  {| call_count := 0; failure_count := 0; consecutive_failures := 0; total_latency_us := 0;
     disabled := false; disabled_at := None |}.

Definition fetch_add (x y : Z) : Z := wrap u64_bound (x + y).
Definition as_micros (latency : Z) : Z := wrap u64_bound (latency / 1000).

Definition record_success (s : HookStats) (latency : Z) : HookStats :=
  {| call_count := fetch_add (call_count s) 1; failure_count := failure_count s;
     consecutive_failures := 0;
     total_latency_us := fetch_add (total_latency_us s) (as_micros latency);
     disabled := disabled s; disabled_at := disabled_at s |}.

Definition record_failure (s : HookStats) (latency : Z) : HookStats :=
  {| call_count := fetch_add (call_count s) 1; failure_count := fetch_add (failure_count s) 1;
     consecutive_failures := fetch_add (consecutive_failures s) 1;
     total_latency_us := fetch_add (total_latency_us s) (as_micros latency);
     disabled := disabled s; disabled_at := disabled_at s |}.

(** The average in microseconds. *)
Definition avg_latency (s : HookStats) : Z :=
  if call_count s =? 0 then 0 else total_latency_us s / call_count s.

(** * The registry *)

(** The parts of a handler the registry reads; [priority] is an [i32]. *)
Record HookHandler := {
  name : str;
  events : list HookEvent;
  priority : Z;
}.

Record HandlerEntry := { handler : HookHandler; stats : nat }.

(** [handlers] by event; [store] holds the statistics behind the [Arc]s. *)
Record HookRegistry := {
  handlers : HookEvent → list HandlerEntry;
  store : list HookStats;
  circuit_breaker_threshold : Z;
  circuit_breaker_cooldown : Z;
  dry_run : bool;
}.

Definition new : HookRegistry :=
  {| handlers := λ _, []; store := []; circuit_breaker_threshold := 3;
     circuit_breaker_cooldown := secs 60; dry_run := false |}.

Definition with_circuit_breaker (r : HookRegistry) (threshold cooldown : Z) : HookRegistry :=
  {| handlers := handlers r; store := store r; circuit_breaker_threshold := threshold;
     circuit_breaker_cooldown := cooldown; dry_run := dry_run r |}.
Definition with_dry_run (r : HookRegistry) (d : bool) : HookRegistry :=
  {| handlers := handlers r; store := store r;
     circuit_breaker_threshold := circuit_breaker_threshold r;
     circuit_breaker_cooldown := circuit_breaker_cooldown r; dry_run := d |}.
Definition with_store (r : HookRegistry) (st : list HookStats) : HookRegistry :=
  {| handlers := handlers r; store := st;
     circuit_breaker_threshold := circuit_breaker_threshold r;
     circuit_breaker_cooldown := circuit_breaker_cooldown r; dry_run := dry_run r |}.
Definition with_handlers (r : HookRegistry) (e : HookEvent) (l : list HandlerEntry) : HookRegistry :=
  {| handlers := λ e', if decide (e' = e) then l else handlers r e'; store := store r;
     circuit_breaker_threshold := circuit_breaker_threshold r;
     circuit_breaker_cooldown := circuit_breaker_cooldown r; dry_run := dry_run r |}.

(** [sort_by_key(|h| Reverse(priority))]. *)
Definition sort_by_priority (l : list HandlerEntry) : list HandlerEntry :=
  sort_by_key (λ h, - priority (handler h)) l.

Definition register_event (entry : HandlerEntry) (r : HookRegistry) (e : HookEvent) : HookRegistry :=
  with_handlers r e (sort_by_priority (handlers r e ++ [entry])).

Definition register (r : HookRegistry) (h : HookHandler) : HookRegistry :=
  let entry := {| handler := h; stats := length (store r) |} in
  foldl (register_event entry) (with_store r (store r ++ [new_stats])) (events h).

Definition has_handlers (r : HookRegistry) (e : HookEvent) : bool := is_nonempty (handlers r e).

(** Every entry, event by event; the source meets the events in the order of a [HashMap]. *)
Definition all_entries (r : HookRegistry) : list HandlerEntry :=
  e ← all_events; handlers r e.

Definition handler_stats (r : HookRegistry) (n : str) : option HookStats :=
  match list_find (λ e, name (handler e) = n) (all_entries r) with
  | Some (_, e) => store r !! stats e
  | None => None
  end.

Fixpoint dedup (l : list str) : list str :=
  match l with
  | x :: ((y :: _) as l') => if str_eqb x y then dedup l' else x :: dedup l'
  | _ => l
  end.
Definition handler_names (r : HookRegistry) : list str :=
  dedup (merge_sort str_leP (map (λ e, name (handler e)) (all_entries r))).

(** * Dispatch *)

Section dispatch.
Context (threshold cooldown : Z).

(** [check_circuit_breaker]: whether the handler is to be skipped at [now]. *)
Definition check_stats (s : HookStats) (now : Z) : bool * HookStats :=
  if negb (disabled s) then
    if threshold <=? consecutive_failures s then
      (true, {| call_count := call_count s; failure_count := failure_count s;
                consecutive_failures := consecutive_failures s;
                total_latency_us := total_latency_us s;
                disabled := true; disabled_at := Some now |})
    else (false, s)
  else
    match disabled_at s with
    | Some at_ =>
        if cooldown <=? sat_sub now at_ then
          (false, {| call_count := call_count s; failure_count := failure_count s;
                     consecutive_failures := 0; total_latency_us := total_latency_us s;
                     disabled := false; disabled_at := disabled_at s |})
        else (true, s)
    | None => (true, s)
    end.

(** The answer of a handler, its latency, and the time its breaker is looked at. *)
Record Reply := { answer : result HookAction str; latency : Z; checked_at : Z }.

Definition check_circuit_breaker (st : list HookStats) (e : HandlerEntry) (now : Z) : bool * list HookStats :=
  match st !! stats e with
  | Some s => let '(broken, s') := check_stats s now in (broken, <[stats e := s']> st)
  | None => (false, st)   (* every entry has statistics *)
  end.

Definition record_answer (st : list HookStats) (e : HandlerEntry) (r : Reply) : list HookStats :=
  alter (λ s, if is_ok (answer r) then record_success s (latency r) else record_failure s (latency r))
    (stats e) st.

Definition finish (last_modify : option json) : HookAction :=
  match last_modify with Some v => ModifyPayload v | None => Continue end.

(** [dispatch_sequential], with the positions of the handlers it called. *)
Fixpoint sequential_loop (dry : bool) (replies : nat → Reply) (i : nat) (hs : list HandlerEntry)
    (last_modify : option json) (st : list HookStats) : HookAction * list HookStats * list nat :=
  match hs with
  | [] => (finish last_modify, st, [])
  | e :: hs' =>
      let r := replies i in
      let '(broken, st1) := check_circuit_breaker st e (checked_at r) in
      if broken then sequential_loop dry replies (S i) hs' last_modify st1
      else
        let st2 := record_answer st1 e r in
        match answer r with
        | Ok (Block reason) =>
            if dry
            then let '(a, st', called) := sequential_loop dry replies (S i) hs' last_modify st2 in
                 (a, st', i :: called)
            else (Block reason, st2, [i])
        | Ok (ModifyPayload v) =>
            let '(a, st', called) :=
              sequential_loop dry replies (S i) hs' (if dry then last_modify else Some v) st2 in
            (a, st', i :: called)
        | Ok Continue | Err _ =>
            let '(a, st', called) := sequential_loop dry replies (S i) hs' last_modify st2 in
            (a, st', i :: called)
        end
  end.

Definition dispatch_sequential (dry : bool) (replies : nat → Reply) (hs : list HandlerEntry)
    (st : list HookStats) : HookAction * list HookStats * list nat :=
  sequential_loop dry replies 0 hs None st.

(** The loop of [dispatch_parallel] that looks at the breakers and collects the calls. *)
Fixpoint parallel_checks (replies : nat → Reply) (i : nat) (hs : list HandlerEntry)
    (st : list HookStats) : list HookStats * list (nat * HandlerEntry) :=
  match hs with
  | [] => (st, [])
  | e :: hs' =>
      let '(broken, st1) := check_circuit_breaker st e (checked_at (replies i)) in
      let '(st2, calls) := parallel_checks replies (S i) hs' st1 in
      (st2, if broken then calls else (i, e) :: calls)
  end.

(** [completed] is the order in which the calls complete. *)
Definition dispatch_parallel (replies : nat → Reply)
    (completed : list (nat * HandlerEntry) → list (nat * HandlerEntry)) (hs : list HandlerEntry)
    (st : list HookStats) : HookAction * list HookStats * list nat :=
  let '(st1, calls) := parallel_checks replies 0 hs st in
  (Continue, foldl (λ st '(i, e), record_answer st e (replies i)) st1 (completed calls), map fst calls).
End dispatch.

(** What one dispatch meets outside: the replies and the order of completion. *)
Record World := {
  replies : nat → Reply;
  completed : list (nat * HandlerEntry) → list (nat * HandlerEntry);
}.

Definition dispatch (r : HookRegistry) (w : World) (p : HookPayload)
    : result HookAction str * HookRegistry * list nat :=
  let e := payload_event p in
  let hs := handlers r e in
  if is_nonempty hs then
    let '(a, st, called) :=
      if is_read_only e
      then dispatch_parallel (circuit_breaker_threshold r) (circuit_breaker_cooldown r)
             (replies w) (completed w) hs (store r)
      else dispatch_sequential (circuit_breaker_threshold r) (circuit_breaker_cooldown r)
             (dry_run r) (replies w) hs (store r) in
    (Ok a, with_store r st, called)
  else (Ok Continue, r, []).

(** [dispatch_sync] runs the sequential loop for every event. *)
Definition dispatch_sync (r : HookRegistry) (w : World) (p : HookPayload)
    : result HookAction str * HookRegistry * list nat :=
  let hs := handlers r (payload_event p) in
  if is_nonempty hs then
    let '(a, st, called) :=
      dispatch_sequential (circuit_breaker_threshold r) (circuit_breaker_cooldown r)
        (dry_run r) (replies w) hs (store r) in
    (Ok a, with_store r st, called)
  else (Ok Continue, r, []).

(** * Specification *)

(** Whether the breaker of a handler keeps it out, by its statistics before the dispatch. *)
Definition skipped (r : HookRegistry) (w : World) (ie : nat * HandlerEntry) : bool :=
  match store r !! stats ie.2 with
  | Some s => (check_stats (circuit_breaker_threshold r) (circuit_breaker_cooldown r) s
                 (checked_at (replies w ie.1))).1
  | None => false
  end.

(** The positions of the handlers an event is offered to, in order. *)
Definition consulted (r : HookRegistry) (w : World) (e : HookEvent) : list nat :=
  let hs := handlers r e in
  map fst (filter (λ ie, skipped r w ie = false) (zip (seq 0 (length hs)) hs)).

Definition blocks (w : World) (i : nat) : option str :=
  match answer (replies w i) with Ok (Block reason) => Some reason | _ => None end.
Definition modifies (w : World) (i : nat) : option json :=
  match answer (replies w i) with Ok (ModifyPayload v) => Some v | _ => None end.

(** The first block decides and ends the dispatch; without one, the last modification. *)
Definition expected (apply_ : bool) (w : World) (l : list nat) : HookAction * list nat :=
  if negb apply_ then (Continue, l)
  else match list_find (λ i, is_Some (blocks w i)) l with
       | Some (k, i) => (Block (unwrap_or [] (blocks w i)), take (S k) l)
       | None => (finish (last (omap (modifies w) l)), l)
       end.

(** * Facts *)

(** ** The loops *)

Lemma check_stats_keep t c st e now b st' :
  check_circuit_breaker t c st e now = (b, st') →
  (∀ k, k ≠ stats e → st' !! k = st !! k) ∧
  b = match st !! stats e with Some s => (check_stats t c s now).1 | None => false end.
Proof.
  unfold check_circuit_breaker. destruct (st !! stats e) as [s|]; [|by intros [= <- <-]].
  destruct (check_stats t c s now) as [b0 s'] eqn:E. intros [= <- <-]. split; [|done].
  intros k Hk. by rewrite list_lookup_insert_ne.
Qed.

Lemma record_answer_keep st e r k : k ≠ stats e → record_answer st e r !! k = st !! k.
Proof. intros Hk. unfold record_answer. by rewrite list_lookup_alter_ne. Qed.

Lemma expected_block w i reason l :
  blocks w i = Some reason → expected true w (i :: l) = (Block reason, [i]).
Proof. intros E. unfold expected. cbn. rewrite decide_True by (by rewrite E). by rewrite E. Qed.

Lemma expected_pass w i l :
  blocks w i = None →
  expected true w (i :: l) =
    (match (expected true w l).1 with Continue => finish (modifies w i) | x => x end,
     i :: (expected true w l).2).
Proof.
  intros E. unfold expected. cbn. rewrite decide_False by (rewrite E; by intros []).
  destruct (list_find _ l) as [[k j]|]; cbn; [done|]. f_equal.
  destruct (modifies w i) as [v|]; cbn; [|by destruct (last _)].
  destruct (omap (modifies w) l) as [|x l' _] using rev_ind; [done|].
  by rewrite app_comm_cons, !last_snoc.
Qed.

Section loops.
Context (r : HookRegistry) (w : World).
Let t := circuit_breaker_threshold r.
Let c := circuit_breaker_cooldown r.

Definition offered (i : nat) (hs : list HandlerEntry) : list nat :=
  map fst (filter (λ ie, skipped r w ie = false) (zip (seq i (length hs)) hs)).

Lemma offered_cons i e hs :
  offered i (e :: hs) = if skipped r w (i, e) then offered (S i) hs else i :: offered (S i) hs.
Proof.
  unfold offered. cbn [length seq zip zip_with].
  destruct (skipped r w (i, e)) eqn:E; [by rewrite filter_cons_False by congruence|].
  by rewrite filter_cons_True.
Qed.

(** The store agrees with the registry's on the handlers still to come. *)
Definition fresh_for (hs : list HandlerEntry) (st : list HookStats) : Prop :=
  ∀ e, e ∈ hs → st !! stats e = store r !! stats e.

Lemma check_skipped i e hs st b st' :
  fresh_for (e :: hs) st → NoDup (map stats (e :: hs)) →
  check_circuit_breaker t c st e (checked_at (replies w i)) = (b, st') →
  b = skipped r w (i, e) ∧ fresh_for hs st' ∧ fresh_for hs (record_answer st' e (replies w i)).
Proof.
  cbn [map]. intros Hf [Hn _]%NoDup_cons Hc. apply check_stats_keep in Hc as [Hk ->].
  assert (Hne : ∀ e', e' ∈ hs → stats e' ≠ stats e).
  { intros e' Hi E. apply Hn. rewrite <- E. by apply list_elem_of_fmap_2. }
  unfold skipped, fresh_for. cbn [fst snd].
  rewrite (Hf e) by left. split_and!; [done| |]; intros e' Hi.
  - rewrite Hk by auto. apply Hf. by right.
  - rewrite record_answer_keep, Hk by auto. apply Hf. by right.
Qed.

Lemma sequential_loop_expected dry i hs m st a st' called :
  NoDup (map stats hs) → fresh_for hs st →
  sequential_loop t c dry (replies w) i hs m st = (a, st', called) →
  called = (expected (negb dry) w (offered i hs)).2 ∧
  a = match (expected (negb dry) w (offered i hs)).1 with
      | Continue => finish m
      | x => x
      end.
Proof.
  revert i m st a st' called. induction hs as [|e hs IH]; intros i m st a st' called Hn Hf Hl; cbn in Hl.
  - simplify_eq. by destruct dry.
  - destruct (check_circuit_breaker _ _ _ _ _) as [b st1] eqn:Ec.
    destruct (check_skipped i e hs st b st1 Hf Hn Ec) as (Hb & H1 & H2).
    apply NoDup_cons in Hn as [_ Hn]. rewrite offered_cons, <- Hb. destruct b; [exact (IH _ _ _ _ _ _ Hn H1 Hl)|].
    destruct dry; cbn [negb] in *.
    + destruct (answer (replies w i)) as [[|v|reason]|err];
        destruct (sequential_loop _ _ _ _ _ _ _ _) as [[a1 st3] called1] eqn:E; simplify_eq;
        by destruct (IH _ _ _ _ _ _ Hn H2 E) as [-> ->].
    + destruct (answer (replies w i)) as [[|v|reason]|err] eqn:Ea;
        [| |simplify_eq; by rewrite (expected_block _ _ reason) by (by unfold blocks; rewrite Ea)|];
        destruct (sequential_loop _ _ _ _ _ _ _ _) as [[a1 st3] called1] eqn:E; simplify_eq;
        destruct (IH _ _ _ _ _ _ Hn H2 E) as [-> ->];
        rewrite expected_pass by (by unfold blocks; rewrite Ea);
        unfold modifies; rewrite Ea; by destruct (expected true w _).1.
Qed.

Lemma parallel_checks_expected i hs st st' calls :
  NoDup (map stats hs) → fresh_for hs st →
  parallel_checks t c (replies w) i hs st = (st', calls) → map fst calls = offered i hs.
Proof.
  revert i st st' calls. induction hs as [|e hs IH]; intros i st st' calls Hn Hf Hl; cbn in Hl.
  - by simplify_eq.
  - destruct (check_circuit_breaker _ _ _ _ _) as [b st1] eqn:Ec.
    destruct (check_skipped i e hs st b st1 Hf Hn Ec) as (Hb & H1 & H2).
    apply NoDup_cons in Hn as [_ Hn]. rewrite offered_cons, <- Hb. clear Hb.
    destruct (parallel_checks _ _ _ _ _ _) as [st2 calls2] eqn:E. simplify_eq.
    destruct b; simpl; rewrite (IH _ _ _ _ Hn H1 E); done.
Qed.
End loops.

(** ** Registration *)

(** [x] runs before [y]: a higher priority, or the same and registered earlier. *)
Definition before (x y : HandlerEntry) : Prop :=
  priority (handler y) < priority (handler x) ∨
  (priority (handler x) = priority (handler y) ∧ (stats x < stats y)%nat).

Lemma sort_perm l : sort_by_priority l ≡ₚ l.
Proof. apply sort_by_key_perm. Qed.

(** Among entries of one priority, the one registered earlier comes first. *)
Definition stable (x y : HandlerEntry) : Prop :=
  priority (handler x) = priority (handler y) → (stats x < stats y)%nat.

Lemma insert_sorted e l :
  StronglySorted before l → Forall (stable e) l →
  StronglySorted before (insert_by_key (λ h, - priority (handler h)) e l).
Proof.
  unfold stable. induction 1 as [|x l Hs IH Hx]; intros Hf; simpl; [by repeat constructor|].
  apply Forall_cons in Hf as [He Hf].
  destruct (Z.leb_spec (- priority (handler e)) (- priority (handler x))).
  - constructor; [by constructor|]. constructor; [unfold before; lia|].
    rewrite Forall_forall in *. intros y Hy. specialize (Hx y Hy). specialize (Hf y Hy).
    unfold before in *. lia.
  - constructor; [by apply IH|]. rewrite insert_by_key_perm. constructor; [left; lia|done].
Qed.

Lemma sort_sorted l : StronglySorted stable l → StronglySorted before (sort_by_priority l).
Proof.
  unfold sort_by_priority, sort_by_key.
  induction 1 as [|x l Hs IH Hx]; simpl; [constructor|]. apply insert_sorted; [done|].
  fold (sort_by_key (λ h, - priority (handler h)) l). by rewrite sort_by_key_perm.
Qed.

Lemma sort_snoc l e :
  StronglySorted before l → Forall (λ x, (stats x < stats e)%nat) l →
  StronglySorted before (sort_by_priority (l ++ [e])).
Proof.
  intros Hs Hf. apply sort_sorted. induction Hs as [|x l Hs IH Hx]; simpl; [by repeat constructor|].
  apply Forall_cons in Hf as [He Hf]. constructor; [by apply IH|].
  apply Forall_app. split; [|constructor; [by intros _|constructor]].
  eapply Forall_impl; [exact Hx|]. unfold before, stable. intros y. lia.
Qed.

Lemma register_events entry evs r e :
  NoDup evs →
  handlers (foldl (register_event entry) r evs) e =
    if decide (e ∈ evs) then sort_by_priority (handlers r e ++ [entry]) else handlers r e.
Proof.
  revert r. induction evs as [|e' evs IH]; intros r; [done|]. intros [Hn Hd]%NoDup_cons. simpl.
  rewrite IH by done. simpl. destruct (decide (e = e')) as [->|He].
  - by rewrite decide_False, decide_True by (done || by left).
  - destruct (decide (e ∈ evs)); [rewrite decide_True by (by right)|rewrite decide_False by set_solver]; done.
Qed.

Lemma register_events_rest entry evs r :
  let r' := foldl (register_event entry) r evs in
  store r' = store r ∧ circuit_breaker_threshold r' = circuit_breaker_threshold r ∧
  circuit_breaker_cooldown r' = circuit_breaker_cooldown r ∧ dry_run r' = dry_run r.
Proof. cbv zeta. revert r. induction evs as [|e evs IH]; intros r; simpl; [done|]. by destruct (IH (register_event entry r e)) as (-> & -> & -> & ->). Qed.

Lemma register_handlers r h e :
  NoDup (events h) →
  handlers (register r h) e =
    if decide (e ∈ events h)
    then sort_by_priority (handlers r e ++ [{| handler := h; stats := length (store r) |}])
    else handlers r e.
Proof. intros Hn. unfold register. by rewrite register_events. Qed.
Lemma register_rest r h :
  store (register r h) = store r ++ [new_stats] ∧
  circuit_breaker_threshold (register r h) = circuit_breaker_threshold r ∧
  circuit_breaker_cooldown (register r h) = circuit_breaker_cooldown r ∧
  dry_run (register r h) = dry_run r.
Proof. unfold register. pose proof (register_events_rest {| handler := h; stats := length (store r) |} (events h)
  (with_store r (store r ++ [new_stats]))) as E. exact E. Qed.

(** ** What registration establishes *)

(** The registry after handlers were registered one by one with an empty one. *)
Definition registry (t c : Z) (dry : bool) (hs : list HookHandler) : HookRegistry :=
  foldl register (with_dry_run (with_circuit_breaker new t c) dry) hs.

(** The subscribers of an event in the order of their registration. *)
Definition subscribers (e : HookEvent) (hs : list HookHandler) : list HandlerEntry :=
  map (λ ih, {| handler := ih.2; stats := ih.1 |})
      (filter (λ ih, e ∈ events ih.2) (zip (seq 0 (length hs)) hs)).

Lemma subscribers_snoc e hs h :
  subscribers e (hs ++ [h]) =
    subscribers e hs ++ if decide (e ∈ events h) then [{| handler := h; stats := length hs |}] else [].
Proof.
  unfold subscribers. rewrite length_app. simpl. rewrite Nat.add_1_r, seq_S, zip_with_app by (by rewrite length_seq).
  rewrite filter_app, map_app. cbn [zip zip_with].
  destruct (decide (e ∈ events h)); [by rewrite filter_cons_True|by rewrite filter_cons_False].
Qed.

Lemma subscribers_stats e hs : Forall (λ x, (stats x < length hs)%nat) (subscribers e hs).
Proof.
  induction hs as [|h hs IH] using rev_ind; [constructor|]. rewrite subscribers_snoc, length_app. simpl.
  apply Forall_app. split; [eapply Forall_impl; [exact IH|]; simpl; lia|].
  case_decide; repeat constructor. simpl. lia.
Qed.

Lemma registry_rest t c dry hs :
  let r := registry t c dry hs in
  store r = replicate (length hs) new_stats ∧ circuit_breaker_threshold r = t ∧
  circuit_breaker_cooldown r = c ∧ dry_run r = dry.
Proof.
  cbv zeta. unfold registry. induction hs as [|h hs IH] using rev_ind; [done|].
  rewrite foldl_app, length_app. simpl.
  destruct (register_rest (foldl register (with_dry_run (with_circuit_breaker new t c) dry) hs) h) as (-> & -> & -> & ->).
  destruct IH as (-> & -> & -> & ->). rewrite replicate_add. done.
Qed.

Lemma registry_handlers t c dry hs e :
  Forall (λ h, NoDup (events h)) hs →
  handlers (registry t c dry hs) e ≡ₚ subscribers e hs ∧
  StronglySorted before (handlers (registry t c dry hs) e).
Proof.
  induction hs as [|h hs IH] using rev_ind; intros Hn; [split; constructor|].
  apply Forall_app in Hn as [Hn [Hh _]%Forall_cons]. destruct (IH Hn) as [Hp Hs].
  assert (E : registry t c dry (hs ++ [h]) = register (registry t c dry hs) h) by (unfold registry; by rewrite foldl_app).
  destruct (registry_rest t c dry hs) as [Est _]. rewrite E, subscribers_snoc, register_handlers by done.
  rewrite Est, length_replicate. case_decide as Hi; [|by rewrite app_nil_r].
  split; [by rewrite sort_perm, Hp|]. apply sort_snoc; [done|]. rewrite Hp. apply subscribers_stats.
Qed.

Lemma subscribers_NoDup e hs : NoDup (map stats (subscribers e hs)).
Proof.
  induction hs as [|h hs IH] using rev_ind; [constructor|]. rewrite subscribers_snoc, map_app.
  case_decide; [|by rewrite app_nil_r]. apply NoDup_app. split_and!; [done| |repeat constructor; set_solver].
  intros i Hi ->%list_elem_of_singleton. apply list_elem_of_fmap in Hi as (x & Hx & Hi).
  pose proof (subscribers_stats e hs) as Hf. rewrite Forall_forall in Hf. specialize (Hf _ Hi). simpl in Hx. lia.
Qed.

Lemma registry_NoDup t c dry hs e :
  Forall (λ h, NoDup (events h)) hs → NoDup (map stats (handlers (registry t c dry hs) e)).
Proof.
  intros Hn. destruct (registry_handlers t c dry hs e Hn) as [Hp _]. rewrite Hp. apply subscribers_NoDup.
Qed.

(** The handlers of an event are exactly those that subscribed to it, ordered by
    priority, higher first, and within a priority by registration. *)
Theorem handlers_by_priority t c dry hs e :
  Forall (λ h, NoDup (events h)) hs →
  handlers (registry t c dry hs) e ≡ₚ subscribers e hs ∧
  StronglySorted before (handlers (registry t c dry hs) e).
Proof. apply registry_handlers. Qed.

(** ** Dispatching *)

(** A registry whose events list no handler twice. *)
Definition no_duplicates (r : HookRegistry) : Prop := ∀ e, NoDup (map stats (handlers r e)).

Lemma dispatch_outcome r w p :
  no_duplicates r →
  let e := payload_event p in
  let x := expected (negb (is_read_only e) && negb (dry_run r)) w (consulted r w e) in
  (dispatch r w p).1.1 = Ok x.1 ∧ (dispatch r w p).2 = x.2.
Proof.
  intros Hn e x. subst x. specialize (Hn e). unfold dispatch. fold e. unfold consulted.
  change (map fst (filter _ _)) with (offered r w 0 (handlers r e)).
  destruct (is_nonempty (handlers r e)) eqn:En.
  2: { destruct (handlers r e); [|done]. by destruct (is_read_only e), (dry_run r). }
  destruct (is_read_only e); simpl.
  - unfold dispatch_parallel. destruct (parallel_checks _ _ _ _ _ _) as [st calls] eqn:E. simpl.
    split; [done|]. eapply parallel_checks_expected; [done| |done]. by intros ? ?.
  - unfold dispatch_sequential. destruct (sequential_loop _ _ _ _ _ _ _ _) as [[a st] called] eqn:E. simpl.
    eapply sequential_loop_expected in E as [-> ->]; [|done|by intros ? ?].
    split; [|done]. f_equal. by destruct (expected _ _ _).1.
Qed.

(** What a dispatch returns and whom it calls, by priority: the handlers whose breaker is closed;
    for a modifying event outside dry-run, up to the first that blocks, whose reason is
    returned, and the last modification when none blocks.  Informational events and dry runs always
    continue, and no dispatch fails because a handler fails. *)
Theorem dispatch_spec t c dry hs w p st :
  Forall (λ h, NoDup (events h)) hs →
  let r := with_store (registry t c dry hs) st in
  let e := payload_event p in
  let x := expected (negb (is_read_only e) && negb dry) w (consulted r w e) in
  (dispatch r w p).1.1 = Ok x.1 ∧ (dispatch r w p).2 = x.2.
Proof.
  intros Hn r e. destruct (registry_rest t c dry hs) as (_ & _ & _ & Hd).
  replace dry with (dry_run r) at 1 by done. rewrite <- Hd. apply (dispatch_outcome r w p).
  intros e'. by apply registry_NoDup.
Qed.

(** ** A handler that never fails *)

Definition healthy (st : list HookStats) (k : nat) : Prop :=
  ∃ s, st !! k = Some s ∧ disabled s = false ∧ consecutive_failures s = 0.

(** The answers of handler [k] to an event are never errors. *)
Definition reliable (hs : list HandlerEntry) (rp : nat → Reply) (k : nat) : Prop :=
  ∀ i e, hs !! i = Some e → stats e = k → is_ok (answer (rp i)).

Section healthy.
Context (t c : Z) (Ht : 1 ≤ t) (k : nat).

Lemma check_healthy st e now b st' :
  check_circuit_breaker t c st e now = (b, st') → healthy st k →
  healthy st' k ∧ (stats e = k → b = false).
Proof.
  intros Hc (s & Hs & Hd & Hf). destruct (decide (stats e = k)) as [E|E].
  - unfold check_circuit_breaker, check_stats in Hc. rewrite E, Hs, Hd, Hf in Hc. cbn in Hc.
    rewrite (proj2 (Z.leb_gt _ _)) in Hc by lia. injection Hc as <- <-. split; [|done]. exists s.
    by rewrite list_lookup_insert_eq by (by eapply lookup_lt_Some).
  - apply check_stats_keep in Hc as [Hk _]. split; [|done]. exists s. by rewrite Hk.
Qed.

Lemma record_healthy st e r :
  (stats e = k → is_ok (answer r)) → healthy st k → healthy (record_answer st e r) k.
Proof.
  intros Ho (s & Hs & Hd & Hf). destruct (decide (stats e = k)) as [E|E].
  - unfold healthy, record_answer. rewrite E, list_lookup_alter_eq, Hs.
    destruct (is_ok (answer r)); [by eexists|by destruct (Ho E)].
  - exists s. by rewrite record_answer_keep.
Qed.

Lemma sequential_healthy dry rp i hs m st :
  (∀ j e, hs !! j = Some e → stats e = k → is_ok (answer (rp (i + j)%nat))) → healthy st k →
  healthy (sequential_loop t c dry rp i hs m st).1.2 k.
Proof.
  revert i m st. induction hs as [|e hs IH]; intros i m st Ho Hh; [done|]. cbn.
  destruct (check_circuit_breaker _ _ _ _ _) as [b st1] eqn:Ec.
  destruct (check_healthy _ _ _ _ _ Ec Hh) as [H1 _].
  assert (H2 : healthy (record_answer st1 e (rp i)) k).
  { apply record_healthy; [|done]. intros E. rewrite <- (Nat.add_0_r i). by apply (Ho 0%nat e). }
  assert (Ho' : ∀ j e, hs !! j = Some e → stats e = k → is_ok (answer (rp (S i + j)%nat))).
  { intros j e' Hj E. replace (S i + j)%nat with (i + S j)%nat by lia. by apply (Ho (S j) e'). }
  destruct b; [by apply IH|].
  destruct (answer (rp i)) as [[|v|reason]|err]; [| |destruct dry; [|done]|];
    match goal with |- context [sequential_loop _ _ ?d _ _ _ ?m ?s] =>
      specialize (IH (S i) m s Ho' H2); destruct (sequential_loop _ _ d _ _ _ _ _) as [[? ?] ?]; done end.
Qed.

Lemma parallel_healthy rp i hs st :
  healthy st k →
  healthy (parallel_checks t c rp i hs st).1 k ∧
  ∀ j e, (j, e) ∈ (parallel_checks t c rp i hs st).2 → (i ≤ j)%nat ∧ hs !! (j - i)%nat = Some e.
Proof.
  revert i st. induction hs as [|e hs IH]; intros i st Hh; cbn; [split; [done|by intros ? ? ?%not_elem_of_nil]|].
  destruct (check_circuit_breaker _ _ _ _ _) as [b st1] eqn:Ec.
  destruct (check_healthy _ _ _ _ _ Ec Hh) as [H1 _]. specialize (IH (S i) st1 H1).
  destruct (parallel_checks _ _ _ _ _ _) as [st2 calls]. simpl in *. destruct IH as [IH1 IH2].
  split; [done|]. intros j e' Hj.
  assert (Hd : (j, e') = (i, e) ∨ (j, e') ∈ calls) by (destruct b; [by right|by apply elem_of_cons in Hj]).
  destruct Hd as [[= -> ->]|Hd]; [by rewrite Nat.sub_diag|].
  apply IH2 in Hd as [Hl Hd]. split; [lia|]. by replace (j - i)%nat with (S (j - S i)) by lia.
Qed.

Lemma completions_healthy (rp : nat → Reply) calls st :
  (∀ j e, (j, e) ∈ calls → stats e = k → is_ok (answer (rp j))) → healthy st k →
  healthy (foldl (λ st '(i, e), record_answer st e (rp i)) st calls) k.
Proof.
  revert st. induction calls as [|[j e] calls IH]; intros st Ho Hh; [done|]. simpl.
  apply IH; [intros; eapply Ho; [by right|done]|]. apply record_healthy; [|done]. apply Ho. by left.
Qed.
End healthy.

(** One dispatch, asynchronous or synchronous. *)
Record Dispatched := { sync : bool; world : World; payload : HookPayload }.
Definition after (r : HookRegistry) (d : Dispatched) : HookRegistry :=
  (if sync d then dispatch_sync r (world d) (payload d) else dispatch r (world d) (payload d)).1.2.

Lemma after_rest r d :
  handlers (after r d) = handlers r ∧ circuit_breaker_threshold (after r d) = circuit_breaker_threshold r ∧
  circuit_breaker_cooldown (after r d) = circuit_breaker_cooldown r ∧ dry_run (after r d) = dry_run r.
Proof.
  unfold after, dispatch, dispatch_sync. destruct (sync d), (is_nonempty _); try done;
    destruct (if is_read_only _ then _ else _) as [[? ?] ?] || destruct (dispatch_sequential _ _ _ _ _ _) as [[? ?] ?]; done.
Qed.

Lemma after_healthy r d k :
  1 ≤ circuit_breaker_threshold r → (∀ l, completed (world d) l ≡ₚ l) →
  reliable (handlers r (payload_event (payload d))) (replies (world d)) k →
  healthy (store r) k → healthy (store (after r d)) k.
Proof.
  intros Ht Hc Hr Hh. unfold after, dispatch, dispatch_sync.
  assert (Hs : ∀ t c dry, 1 ≤ t → healthy (dispatch_sequential t c dry (replies (world d))
      (handlers r (payload_event (payload d))) (store r)).1.2 k).
  { intros. by apply sequential_healthy. }
  destruct (sync d), (is_nonempty _); try done.
  - specialize (Hs (circuit_breaker_threshold r) (circuit_breaker_cooldown r) (dry_run r) Ht).
    by destruct (dispatch_sequential _ _ _ _ _ _) as [[? ?] ?].
  - destruct (is_read_only _).
    + unfold dispatch_parallel.
      destruct (parallel_healthy (circuit_breaker_threshold r) (circuit_breaker_cooldown r) Ht k
        (replies (world d)) 0 (handlers r (payload_event (payload d))) (store r) Hh) as [H1 H2].
      destruct (parallel_checks _ _ _ _ _ _) as [st1 calls]. simpl in *.
      apply completions_healthy; [|done]. intros j e Hj E. rewrite Hc in Hj.
      apply H2 in Hj as [_ Hj]. rewrite Nat.sub_0_r in Hj. by eapply Hr.
    + specialize (Hs (circuit_breaker_threshold r) (circuit_breaker_cooldown r) (dry_run r) Ht).
      by destruct (dispatch_sequential _ _ _ _ _ _) as [[? ?] ?].
Qed.

(** C31. A handler that never fails guards its events for good.  In a registry whose threshold is at
    least one, however often the handler blocked before, and whatever the other handlers did: when it
    blocks a modifying event, the dispatch returns a block, its own or one of a handler before it;
    unless the registry runs dry, where the handler is called all the same and every dispatch
    continues. *)
Theorem guard_always_blocks t c dry hs hist k w p i e reason :
  let r0 := registry t c dry hs in
  let hs' := handlers r0 (payload_event p) in
  Forall (λ h, NoDup (events h)) hs → 1 ≤ t →
  (∀ d, d ∈ hist → (∀ l, completed (world d) l ≡ₚ l) ∧
     reliable (handlers r0 (payload_event (payload d))) (replies (world d)) k) →
  is_read_only (payload_event p) = false →
  hs' !! i = Some e → stats e = k → answer (replies w i) = Ok (Block reason) →
  let x := dispatch (foldl after r0 hist) w p in
  if dry then x.1.1 = Ok Continue ∧ i ∈ x.2 else ∃ reason', x.1.1 = Ok (Block reason').
Proof.
  intros r0 hs' Hn Ht Hh Hro He Hk Hb. set (r := foldl after r0 hist). cbv zeta.
  destruct (registry_rest t c dry hs) as (Est & Et & Ec & Ed). fold r0 in Est, Et, Ec, Ed.
  assert (Hinv : handlers r = handlers r0 ∧ circuit_breaker_threshold r = t ∧ dry_run r = dry ∧
                 healthy (store r) k).
  { subst r. clear Hb. induction hist as [|d hist IH] using rev_ind.
    - simpl. split_and!; try done. subst k. exists new_stats. split; [|done]. rewrite Est. apply lookup_replicate_2.
      destruct (registry_handlers t c dry hs (payload_event p) Hn) as [Hp _].
      pose proof (subscribers_stats (payload_event p) hs) as Hf. rewrite <- Hp in Hf.
      rewrite Forall_forall in Hf. apply Hf. by eapply list_elem_of_lookup_2.
    - rewrite foldl_app. simpl. destruct IH as (E1 & E2 & E3 & E4).
      { intros d' Hd. apply Hh. apply elem_of_app. by left. }
      destruct (Hh d) as [Hc Hr]; [apply elem_of_app; right; by apply list_elem_of_singleton|].
      destruct (after_rest (foldl after r0 hist) d) as (-> & -> & _ & ->). split_and!; try done.
      apply after_healthy; try done; [by rewrite E2|by rewrite E1]. }
  destruct Hinv as (E1 & E2 & E3 & (s & Hs & Hd & Hf)).
  destruct (dispatch_outcome r w p) as [-> ->].
  { intros e'. rewrite E1. by apply registry_NoDup. }
  rewrite Hro, E3. unfold expected.
  assert (Hi : i ∈ consulted r w (payload_event p)).
  { unfold consulted. rewrite E1. apply list_elem_of_fmap. exists (i, e). split; [done|].
    apply list_elem_of_filter. split.
    - unfold skipped. simpl. rewrite Hk, Hs. unfold check_stats. rewrite Hd, Hf. simpl. rewrite E2.
      by rewrite (proj2 (Z.leb_gt _ _)) by lia.
    - apply list_elem_of_lookup. exists i. rewrite lookup_zip_with. fold hs'. rewrite He.
      rewrite lookup_seq_lt by (by eapply lookup_lt_Some). done. }
  destruct dry; simpl; [by split|].
  assert (Hbi : is_Some (blocks w i)) by (unfold blocks; rewrite Hb; by eexists).
  destruct (list_find _ _) as [[j i']|] eqn:El; [by eexists|].
  apply list_find_None in El. rewrite Forall_forall in El. by destruct (El i).
Qed.

(** ** The breaker of one handler *)

(** A dispatch that comes to the handler: its time, and whether the handler would succeed. *)
Record Attempt := { time : Z; succeeds : bool; took : Z }.

Definition attempt (t c : Z) (s : HookStats) (a : Attempt) : HookStats * bool :=
  let '(broken, s1) := check_stats t c s (time a) in
  if broken then (s1, false)
  else (if succeeds a then record_success s1 (took a) else record_failure s1 (took a), true).

(** Which of the attempts call the handler. *)
Fixpoint attempts (t c : Z) (s : HookStats) (l : list Attempt) : list bool :=
  match l with
  | [] => []
  | a :: l' => let '(s', called) := attempt t c s a in called :: attempts t c s' l'
  end.

Section breaker.
Context (t c : Z) (Ht : 1 ≤ t < u64_bound).

Lemma attempt_closed s a :
  disabled s = false → 0 ≤ consecutive_failures s < t →
  (attempt t c s a).2 = true ∧ disabled (attempt t c s a).1 = false ∧
  consecutive_failures (attempt t c s a).1 = if succeeds a then 0 else consecutive_failures s + 1.
Proof.
  intros Hd Hf. unfold attempt, check_stats. rewrite Hd. cbn [negb].
  rewrite (proj2 (Z.leb_gt _ _)) by lia. destruct (succeeds a); cbn; [done|].
  split_and!; try done. unfold fetch_add, wrap. rewrite Z.mod_small; lia.
Qed.

Lemma attempts_failing s l rest :
  disabled s = false → 0 ≤ consecutive_failures s →
  Forall (λ a, succeeds a = false) l → consecutive_failures s + Z.of_nat (length l) = t →
  ∃ s', attempts t c s (l ++ rest) = replicate (length l) true ++ attempts t c s' rest ∧
        disabled s' = false ∧ consecutive_failures s' = t.
Proof.
  revert s. induction l as [|a l IH]; intros s Hd Hf Hl Hn; simpl in *; [exists s; by rewrite Z.add_0_r in Hn|].
  apply Forall_cons in Hl as [Ha Hl]. destruct (attempt_closed s a Hd) as (H1 & H2 & H3); [lia|].
  destruct (attempt t c s a) as [s1 b]. simpl in *. rewrite Ha in H3. subst b.
  destruct (IH s1 H2) as (s' & -> & ? & ?); [lia|done|lia|]. by exists s'.
Qed.

Lemma attempts_open s l rest at_ :
  disabled s = true → disabled_at s = Some at_ → Forall (λ a, at_ ≤ time a < at_ + c) l →
  attempts t c s (l ++ rest) = replicate (length l) false ++ attempts t c s rest.
Proof.
  intros Hd Ha. induction 1 as [|a l [H1 H2] Hl IH]; simpl; [done|].
  unfold attempt, check_stats. rewrite Hd, Ha. cbn [negb]. unfold sat_sub.
  rewrite (proj2 (Z.leb_gt _ _)) by lia. simpl. by rewrite IH.
Qed.

Lemma attempts_patient s l n :
  disabled s = false → consecutive_failures s = Z.of_nat n → Z.of_nat n < t →
  (∀ l1 l2, l = l1 ++ l2 → Forall (λ a, succeeds a = false) l1 → Z.of_nat (n + length l1) < t) →
  (∀ l1 l2 l3, l = l1 ++ l2 ++ l3 → Forall (λ a, succeeds a = false) l2 → Z.of_nat (length l2) < t) →
  attempts t c s l = replicate (length l) true.
Proof.
  revert s n. induction l as [|a l IH]; intros s n Hd Hf Hn H1 H2; [done|]. simpl.
  destruct (attempt_closed s a Hd) as (E1 & E2 & E3); [lia|].
  destruct (attempt t c s a) as [s1 b]. simpl in *. subst b. f_equal.
  assert (Hr : ∀ l1 l2 l3, l = l1 ++ l2 ++ l3 → Forall (λ a, succeeds a = false) l2 → Z.of_nat (length l2) < t).
  { intros l1 l2 l3 ->. by apply (H2 (a :: l1) l2 l3). }
  destruct (succeeds a) eqn:Ea.
  - apply (IH s1 0%nat); try done; [lia|]. intros l1 l2 -> Hl. rewrite Nat.add_0_l. by apply (Hr [] l1 l2).
  - assert (Hs : ∀ l1 l2, l = l1 ++ l2 → Forall (λ a, succeeds a = false) l1 → Z.of_nat (n + S (length l1)) < t).
    { intros l1 l2 -> Hl. apply (H1 (a :: l1) l2); [done|]. by constructor. }
    apply (IH s1 (S n)); try done; [lia| |].
    + specialize (Hs [] l eq_refl (Forall_nil_2 _)). simpl in Hs. lia.
    + intros l1 l2 E Hl. specialize (Hs l1 l2 E Hl). lia.
Qed.

(** The breaker of a handler: as long as fewer than [t] calls in a row fail, every dispatch calls the
    handler; after [t] failures in a row the next dispatch skips it, and so does every dispatch
    within the cooldown from then; the first one after the cooldown calls it again. *)
Theorem breaker_cycle s fails skip skips retry :
  disabled s = false → consecutive_failures s = 0 →
  (∀ l, (∀ l1 l2 l3, l = l1 ++ l2 ++ l3 → Forall (λ a, succeeds a = false) l2 → Z.of_nat (length l2) < t) →
     attempts t c s l = replicate (length l) true) ∧
  (Forall (λ a, succeeds a = false) fails → Z.of_nat (length fails) = t →
   Forall (λ a, time skip ≤ time a < time skip + c) skips → 0 ≤ c → time skip + c ≤ time retry →
   attempts t c s (fails ++ skip :: skips ++ [retry]) =
     replicate (length fails) true ++ false :: replicate (length skips) false ++ [true]).
Proof.
  intros Hd Hf. split.
  - intros l Hl. apply (attempts_patient s l 0%nat); try done; [lia|].
    intros l1 l2 -> H1. rewrite Nat.add_0_l. by apply (Hl [] l1 l2).
  - intros H1 H2 H3 Hc H4.
    destruct (attempts_failing s fails (skip :: skips ++ [retry])) as (s' & -> & Hd' & Hf'); [done|lia|done|lia|].
    f_equal. cbn [attempts]. unfold attempt, check_stats. rewrite Hd', Hf'. cbn [negb]. rewrite Z.leb_refl.
    f_equal. erewrite attempts_open; [|done|done|done]. f_equal. unfold attempts, attempt, check_stats, sat_sub. cbn [negb disabled disabled_at].
    by rewrite (proj2 (Z.leb_le _ _)) by lia.
Qed.
End breaker.

(** * Witnesses *)

Definition hook (n : string) (p : Z) (evs : list HookEvent) : HookHandler :=
  {| name := lit n; events := evs; priority := p |}.
Definition demo_hooks : list HookHandler :=
  [hook "log" 0 [MessageReceived; AgentEnd]; hook "guard" 10 [MessageReceived]; hook "rewrite" 0 [MessageReceived]].
Definition world_of (f : nat → result HookAction str) : World :=
  {| replies := λ i, {| answer := f i; latency := 0; checked_at := 0 |}; completed := λ l, l |}.
Definition message : HookPayload := PMessageReceived "s" "hi" None None.

Lemma demo_hooks_ok : Forall (λ h, NoDup (events h)) demo_hooks.
Proof. repeat constructor; set_solver. Defined.

Lemma handlers_by_priority_witness :
  map (λ e, name (handler e)) (handlers (registry 3 0 false demo_hooks) MessageReceived) =
    [lit "guard"; lit "log"; lit "rewrite"] ∧
  StronglySorted before (handlers (registry 3 0 false demo_hooks) MessageReceived).
Proof.
  split; [vm_compute; reflexivity|].
  apply (proj2 (handlers_by_priority 3 0 false demo_hooks MessageReceived demo_hooks_ok)).
Defined.

Lemma dispatch_spec_witness :
  let w := world_of (λ i, if (i =? 2)%nat then Ok (ModifyPayload JNull) else Err []) in
  (dispatch (registry 3 0 false demo_hooks) w message).1.1 = Ok (ModifyPayload JNull).
Proof.
  intros w. pose proof (proj1 (dispatch_spec 3 0 false demo_hooks w message
    (store (registry 3 0 false demo_hooks)) demo_hooks_ok)) as E.
  exact (eq_trans E eq_refl).
Defined.

Lemma guard_always_blocks_witness :
  let w := world_of (λ i, if (i =? 0)%nat then Ok (Block "no") else Err []) in
  let d := {| sync := false; world := w; payload := message |} in
  ∃ reason, (dispatch (foldl after (registry 3 0 false demo_hooks) [d; d; d; d]) w message).1.1 = Ok (Block reason).
Proof.
  intros w d.
  refine (guard_always_blocks 3 0 false demo_hooks [d; d; d; d] 1 w message 0
    {| handler := hook "guard" 10 [MessageReceived]; stats := 1 |} "no" demo_hooks_ok _ _ _ _ _ _); try reflexivity; try lia.
  intros d' Hd'. assert (d' = d) as ->.
  { repeat (apply elem_of_cons in Hd' as [->|Hd']; [done|]). by apply not_elem_of_nil in Hd'. }
  split; [reflexivity|]. intros [|[|[|i]]] e He Hs; vm_compute in He; simplify_eq; done.
Defined.

Lemma breaker_cycle_witness :
  let bad x := {| time := x; succeeds := false; took := 0 |} in
  attempts 2 10 new_stats [bad 0; bad 1; bad 5; bad 14; bad 15] = [true; true; false; false; true].
Proof.
  intros bad.
  refine (proj2 (breaker_cycle 2 10 _ new_stats [bad 0; bad 1] (bad 5) [bad 14] (bad 15) eq_refl eq_refl) _ _ _ _ _);
    try (repeat constructor; simpl; lia); done.
Defined.

(** With a threshold of zero every handler is skipped by its first dispatch. *)
Example zero_threshold :
  (dispatch (registry 0 10 false demo_hooks) (world_of (λ _, Ok (Block "no"))) message).1.1 = Ok Continue.
Proof. vm_compute. reflexivity. Qed.

(** Two handlers that rewrite the payload both receive the original; the later one's
    rewriting replaces the earlier one's. *)
Example modifications_do_not_compose :
  (dispatch (registry 3 10 false demo_hooks)
     (world_of (λ i, Ok (ModifyPayload (JString (show_nat i))))) message).1.1 = Ok (ModifyPayload (JString "2")).
Proof. vm_compute. reflexivity. Qed.
