(* ===== verification/Gating.v ===== *)
(** Channel gating: who may talk to the bot, and who is an operator.

    Models [crates/channels/src/gating.rs] (allowlist matching and the policy
    enums) and [crates/channels/src/operators.rs] (the privileged-sender
    lookup).  [glob_match_lower] is compared with a declarative glob relation. *)
From S2P Require Import Prelude.

Definition ch_star : char := ch "*".

(** * Policy enums *)

Inductive MentionMode := Mention | MentionAlways | MentionNone.
Inductive DmPolicy := DmOpen | DmAllowlist | DmDisabled.
Inductive GroupPolicy := GroupOpen | GroupAllowlist | GroupDisabled.

Global Instance MentionMode_eq_dec : EqDecision MentionMode.
Proof. solve_decision. Defined.
Global Instance DmPolicy_eq_dec : EqDecision DmPolicy.
Proof. solve_decision. Defined.
Global Instance GroupPolicy_eq_dec : EqDecision GroupPolicy.
Proof. solve_decision. Defined.

Definition MentionMode_default : MentionMode := Mention.
Definition DmPolicy_default : DmPolicy := DmAllowlist.
Definition GroupPolicy_default : GroupPolicy := GroupOpen.

(** * Allowlist matching *)

(** The [for (i, part) in parts.iter().enumerate()] loop: the final [pos], or
    [None] where the loop returns [false]. *)
Fixpoint glob_loop (text : str) (i : nat) (parts : list str) (pos : nat) : option nat :=
  match parts with
  | [] => Some pos
  | part :: parts' =>
      if negb (is_nonempty part) then glob_loop text (S i) parts' pos
      else match find part (drop pos text) with
           | Some idx =>
               if (i =? 0)%nat && negb (idx =? 0)%nat then None
               else glob_loop text (S i) parts' (pos + idx + length part)
           | None => None
           end
  end.

Definition glob_match_lower (pattern text : str) : bool :=
  let parts := split ch_star pattern in
  if (length parts =? 1)%nat then str_eqb pattern text
  else match glob_loop text 0 parts 0 with
       | None => false
       | Some pos =>
           if is_nonempty (unwrap_or [] (last parts))
           then (pos =? length text)%nat else true
       end.

Section allowlist.
Context `{Unicode}.

Definition is_allowed (peer_id : str) (allowlist : list str) : bool :=
  if negb (is_nonempty allowlist) then true
  else
    let peer_lower := to_lowercase peer_id in
    existsb (λ pattern,
      let pat := to_lowercase pattern in
      if contains [ch_star] pat then glob_match_lower pat peer_lower
      else str_eqb pat peer_lower) allowlist.

Definition sender_matches_allowlist (sender_id : str) (allowlist : list str) : bool :=
  is_allowed sender_id allowlist ||
  is_some_and (λ '(user, _), is_allowed user allowlist)
    (split_once (ch "@") sender_id).
End allowlist.

(** * Operators *)

Inductive ChannelSenderRole := Operator | Guest.

Definition is_operator (r : ChannelSenderRole) : bool :=
  match r with Operator => true | Guest => false end.

Definition is_listed (sender_id : str) (list : list str) : bool :=
  if negb (is_nonempty list) || negb (is_nonempty sender_id) then false
  else existsb (λ listed, str_eqb listed sender_id) list.

Definition resolve_sender_role (sender_id : option str) (operators : list str)
    : ChannelSenderRole :=
  match sender_id with
  | Some sender =>
      if negb (is_nonempty sender) then Guest
      else if is_listed sender operators then Operator else Guest
  | None => Guest
  end.

(** * The declarative glob relation *)

(** [*] stands for any sequence of chars, every other char for itself. *)
Inductive glob : str → str → Prop :=
| glob_nil : glob [] []
| glob_star p u s : glob p s → glob (ch_star :: p) (u ++ s)
| glob_char c p s : c ≠ ch_star → glob p s → glob (c :: p) (c :: s).

(** [floating parts s rest]: [s] contains the parts in order, separated by
    anything, and [rest] is what follows the last one. *)
Inductive floating : list str → str → str → Prop :=
| floating_nil s : floating [] s s
| floating_cons p ps u s rest :
    floating ps s rest → floating (p :: ps) (u ++ p ++ s) rest.

Section glob_facts.
Implicit Types (p s t u part : str) (parts : list str).

Lemma split_cons_ne c s : ∃ p ps, split c s = p :: ps.
Proof.
  induction s as [|d s (p & ps & IH)]; simpl; [eauto|].
  destruct (d =? c)%N; [eauto|]. rewrite IH. eauto.
Qed.

Lemma split_single c s p : split c s = [p] → s = p.
Proof.
  revert p; induction s as [|d s IH]; intros p; simpl; [naive_solver|].
  destruct (split_cons_ne c s) as (q & qs & E). rewrite E.
  destruct (d =? c)%N; [done|]. destruct qs; intros [= <-].
  f_equal. by apply IH.
Qed.

Lemma split_app_sep c s : split c (s ++ [c]) = split c s ++ [[]].
Proof.
  induction s as [|d s IH]; simpl; [by rewrite N.eqb_refl|].
  destruct (d =? c)%N; [by rewrite IH|].
  rewrite IH. by destruct (split_cons_ne c s) as (p & ps & ->).
Qed.

(** A glob, read through the pieces of its pattern. *)
Definition glob_pieces (parts : list str) (t : str) : Prop :=
  match parts with
  | [] => False
  | [q] => t = q
  | q :: qs => ∃ s, t = q ++ s ∧ floating qs s []
  end.

Lemma glob_pieces_star parts u s :
  glob_pieces parts s → glob_pieces ([] :: parts) (u ++ s).
Proof.
  destruct parts as [|q [|q' qs]]; [done|..]; simpl.
  - intros ->. exists (u ++ q). split; [done|].
    rewrite <- (app_nil_r q) at 2. repeat constructor.
  - intros (s' & -> & ?). exists (u ++ q ++ s'). split; [done|]. by constructor.
Qed.

Lemma glob_pieces_cons c q qs s :
  glob_pieces ((c :: q) :: qs) (c :: s) ↔ glob_pieces (q :: qs) s.
Proof. destruct qs; simpl; naive_solver. Qed.

Lemma glob_split p t : glob p t ↔ glob_pieces (split ch_star p) t.
Proof.
  split.
  - induction 1 as [|p u s _ IH|c p s Hc _ IH]; [done|..]; cbn [split].
    + rewrite N.eqb_refl. by apply glob_pieces_star.
    + rewrite (proj2 (N.eqb_neq _ _) Hc).
      destruct (split_cons_ne ch_star p) as (q & qs & E). rewrite E in *.
      by apply glob_pieces_cons.
  - revert t; induction p as [|c p IH]; intros t; cbn [split].
    + simpl. intros ->. constructor.
    + destruct (split_cons_ne ch_star p) as (q & qs & E).
      destruct (N.eqb_spec c ch_star) as [->|Hc].
      * rewrite E. intros (s & -> & Hf). inversion Hf as [|? ? u s' ? Hf']; subst.
        apply (glob_star p u (q ++ s')), IH. rewrite E.
        destruct qs; [by inversion Hf'; subst; rewrite app_nil_r|by exists s'].
      * rewrite E. intros Ht.
        destruct t as [|d t]; [destruct qs; naive_solver|].
        assert (d = c) as -> by (destruct qs; naive_solver).
        apply glob_pieces_cons in Ht. constructor; [done|]. apply IH. by rewrite E.
Qed.

Lemma floating_last_nil parts s rest :
  floating parts s rest → last parts = Some [] → floating parts s [].
Proof.
  induction 1 as [|p ps u s rest Hf IH]; [done|].
  destruct ps as [|p' ps]; simpl; [|by intros; constructor; apply IH].
  intros [= ->]. inversion Hf; subst. rewrite app_nil_l.
  replace (u ++ rest) with ((u ++ rest) ++ [] ++ []) by (by rewrite !app_nil_r).
  repeat constructor.
Qed.

Lemma loop_first text q qs pos :
  glob_loop text 0 (q :: qs) 0 = Some pos ↔
  ∃ s, text = q ++ s ∧ glob_loop text 1 qs (length q) = Some pos.
Proof.
  destruct q as [|c q]; [simpl; naive_solver|].
  cbn -[find]. rewrite drop_0. split.
  - destruct (find (c :: q) text) as [idx|] eqn:E; [|done].
    apply find_Some in E as (u & v & -> & <-).
    destruct u as [|d u]; [|done]. simpl. eauto.
  - intros (s & -> & Hl). destruct (find_app_le (c :: q) [] s) as (i & Hi & Hle).
    rewrite app_nil_l in Hi. cbn [app] in Hi |- *. rewrite Hi.
    replace i with 0%nat by (simpl in Hle; lia). done.
Qed.

Lemma loop_sound text parts i pos pos' :
  glob_loop text (S i) parts pos = Some pos' → (pos ≤ length text)%nat →
  (pos' ≤ length text)%nat ∧ floating parts (drop pos text) (drop pos' text).
Proof.
  revert i pos; induction parts as [|part parts IH]; intros i pos; cbn -[find].
  { intros [= ->] ?. split; [done|constructor]. }
  destruct part as [|c q] eqn:Epart; cbn -[find].
  { intros Hl Hp. destruct (IH _ _ Hl Hp) as [? Hf]. split; [done|].
    apply (floating_cons [] _ []), Hf. }
  rewrite <- Epart. destruct (find part (drop pos text)) as [idx|] eqn:E; [|done].
  intros Hl Hp. apply find_Some in E as (u & v & Hd & <-).
  assert (length text = pos + length u + length part + length v)%nat as Hlen.
  { apply (f_equal length) in Hd. rewrite length_drop, !length_app in Hd. lia. }
  subst part. destruct (IH _ _ Hl) as [? Hf]; [simpl in *; lia|]. split; [done|].
  rewrite Hd. constructor.
  rewrite <- Nat.add_assoc, <- drop_drop, Hd in Hf.
  by rewrite app_assoc, drop_app_length' in Hf by (by rewrite length_app).
Qed.

Lemma loop_complete parts s rest :
  floating parts s rest → ∀ text i pos w,
  drop pos text = w ++ s → ∃ pos', glob_loop text (S i) parts pos = Some pos'.
Proof.
  induction 1 as [|p ps u s rest Hf IH]; intros text i pos w Hd; cbn -[find]; [eauto|].
  destruct (is_nonempty p) eqn:Ep; cbn [negb]; last first.
  { destruct p; [|done]. apply (IH _ _ _ (w ++ u)). by rewrite Hd, <- app_assoc. }
  rewrite Hd, (app_assoc w u).
  destruct (find_app_le p (w ++ u) s) as (idx & -> & Hle).
  apply (IH _ _ _ (drop (idx + length p) (w ++ u ++ p))).
  rewrite <- Nat.add_assoc, <- drop_drop, Hd, !(app_assoc _ _ s).
  rewrite drop_app_le; [done|]. rewrite !length_app in *. lia.
Qed.

Lemma glob_match_unfold p t q q' qs :
  split ch_star p = q :: q' :: qs →
  glob_match_lower p t = true ↔
  ∃ s pos, t = q ++ s ∧ glob_loop t 1 (q' :: qs) (length q) = Some pos ∧
    (is_nonempty (unwrap_or [] (last (q' :: qs))) = true → pos = length t).
Proof.
  intros E. unfold glob_match_lower. rewrite E. cbn [length].
  replace (last (q :: q' :: qs)) with (last (q' :: qs)) by done.
  change ((S (S (length qs)) =? 1)%nat) with false. cbv iota.
  destruct (glob_loop t 0 (q :: q' :: qs) 0) as [pos|] eqn:El.
  - apply loop_first in El as (s & Ht & El). rewrite El. split.
    + intros Hlast. exists s, pos. split; [done|]. split; [done|].
      intros Hn. rewrite Hn in Hlast. by apply Nat.eqb_eq in Hlast.
    + intros (s' & pos' & _ & [= <-] & Hn). case_match; [|done].
      apply Nat.eqb_eq. auto.
  - split; [done|]. intros (s & pos & Ht & El' & _).
    assert (glob_loop t 0 (q :: q' :: qs) 0 = Some pos) by (apply loop_first; eauto).
    congruence.
Qed.

Lemma glob_match_literal p t q :
  split ch_star p = [q] → glob_match_lower p t = true ↔ glob p t.
Proof.
  intros E. rewrite glob_split, E. unfold glob_match_lower, str_eqb.
  rewrite E, (split_single _ _ _ E). simpl. rewrite bool_decide_eq_true. naive_solver.
Qed.
End glob_facts.

(** * Properties *)

(** The allowlist matcher never accepts a peer the glob does not describe. *)
Theorem glob_match_sound (p t : str) : glob_match_lower p t = true → glob p t.
Proof.
  destruct (split_cons_ne ch_star p) as (q & [|q' qs] & E).
  { by apply (glob_match_literal _ _ _ E). }
  rewrite (glob_match_unfold _ _ _ _ _ E), glob_split, E.
  intros (s & pos & -> & Hl & Hlast). exists s. split; [done|].
  destruct (loop_sound _ _ _ _ _ Hl) as [Hpos Hf]; [rewrite length_app; lia|].
  rewrite drop_app_length in Hf.
  destruct (last (q' :: qs)) as [[|c l]|] eqn:El; simpl in Hlast.
  - by eapply floating_last_nil.
  - rewrite drop_ge in Hf; [done|]. by rewrite Hlast.
  - by apply last_None in El.
Qed.

Lemma glob_match_sound_witness :
  glob_match_lower "team-*-bot" "team-red-bot" = true ∧ glob "team-*-bot" "team-red-bot".
Proof. split; [vm_compute; reflexivity|apply glob_match_sound; vm_compute; reflexivity]. Defined.

(** A pattern that ends in [*] is matched exactly as the glob it denotes. *)
Theorem glob_match_trailing_star (p t : str) :
  glob_match_lower (p ++ [ch_star]) t = true ↔ glob (p ++ [ch_star]) t.
Proof.
  split; [apply glob_match_sound|].
  pose proof (split_app_sep ch_star p) as E.
  destruct (split_cons_ne ch_star p) as (q & qs & Ep). rewrite Ep in E.
  destruct qs as [|q' qs]; simpl in E;
    rewrite glob_split, (glob_match_unfold _ _ _ _ _ E), E; intros (s & -> & Hf);
    (destruct (loop_complete _ _ _ Hf (q ++ s) 0 (length q) []) as [pos Hpos];
      [apply drop_app_length|exists s, pos; split; [done|]; split; [done|]]).
  - done.
  - rewrite app_comm_cons, last_snoc. done.
Qed.

(** The matcher is leftmost-greedy, so it is incomplete when text follows the
    last [*]: the glob [*foo] describes [foofoo], the matcher rejects it. *)
Lemma glob_match_incomplete :
  glob "*foo" "foofoo" ∧ glob_match_lower "*foo" "foofoo" = false.
Proof.
  split; [|done]. apply glob_split. vm_compute. exists (lit "foofoo"). split; [done|].
  exact (floating_cons (lit "foo") [] (lit "foo") [] [] (floating_nil [])).
Qed.

Lemma is_listed_spec sender_id l :
  is_listed sender_id l = true ↔ sender_id ≠ [] ∧ sender_id ∈ l.
Proof.
  unfold is_listed, str_eqb. destruct l as [|x l], sender_id as [|c s]; simpl;
    try (split; [done|intros [? ?]; done || set_solver]).
  rewrite orb_true_iff, bool_decide_eq_true, existsb_exists, elem_of_cons.
  setoid_rewrite <- list_elem_of_In. setoid_rewrite bool_decide_eq_true. naive_solver.
Qed.

(** Operator resolution is fail-closed and exact: a sender is an operator
    exactly when it carries a non-empty id that is listed verbatim. *)
Theorem resolve_sender_role_operator (sender_id : option str) (operators : list str) :
  resolve_sender_role sender_id operators = Operator ↔
  ∃ s, sender_id = Some s ∧ s ≠ [] ∧ s ∈ operators.
Proof.
  destruct sender_id as [s|]; simpl; [|naive_solver].
  pose proof (is_listed_spec s operators) as Hl.
  destruct s as [|c s]; simpl; [naive_solver|].
  destruct (is_listed (c :: s) operators); naive_solver.
Qed.

Section allowlist_facts.
Context `{Unicode}.

(** What one allowlist entry says of a peer. *)
Definition entry_allows (peer_id entry : str) : Prop :=
  let pat := to_lowercase entry in
  if contains [ch_star] pat then glob_match_lower pat (to_lowercase peer_id) = true
  else pat = to_lowercase peer_id.

Lemma is_allowed_spec peer_id l :
  is_allowed peer_id l = true ↔ l = [] ∨ ∃ e, e ∈ l ∧ entry_allows peer_id e.
Proof.
  unfold is_allowed, entry_allows. destruct l as [|e l]; [naive_solver|].
  cbn [is_nonempty negb]. rewrite existsb_exists. setoid_rewrite <- list_elem_of_In.
  split.
  - intros (x & Hx & Hm). right. exists x. split; [done|].
    destruct (contains _ _); [done|]. by apply bool_decide_eq_true in Hm.
  - intros [?|(x & Hx & Hm)]; [done|]. exists x. split; [done|].
    destruct (contains _ _); [done|]. by apply bool_decide_eq_true.
Qed.
End allowlist_facts.
