(* ===== verification/Access.v ===== *)
(** Inbound access checks of the chat channels.

    Models [check_access] of Telegram, Discord, Matrix and WhatsApp, Discord's
    channel filter and Nostr's DM check
    ([crates/{telegram,discord,matrix,whatsapp,nostr}/src/access.rs]).  The
    account configurations are records of the fields these functions read.
    The abstract policy [spec_access] is what every channel promises; the
    class [ChannelAccess] states the promise and each channel is an instance. *)
From S2P Require Import Prelude Gating.

(** [moltis_common::types::ChatType]. *)
Inductive ChatType := Dm | Group | Channel.

Module Telegram.
Record TelegramAccountConfig := {
  dm_policy : DmPolicy;
  group_policy : GroupPolicy;
  mention_mode : MentionMode;
  allowlist : list str;
  group_allowlist : list str;
}.

Inductive AccessDenied :=
| DmsDisabled | NotOnAllowlist | GroupsDisabled | GroupNotOnAllowlist
| MentionModeNone | NotMentioned.

Section access.
Context `{Unicode}.

Definition check_dm_access (config : TelegramAccountConfig) (peer_id : str)
    (username : option str) : result () AccessDenied :=
  match dm_policy config with
  | DmDisabled => Err DmsDisabled
  | DmOpen => Ok ()
  | DmAllowlist =>
      if negb (is_nonempty (allowlist config)) then Err NotOnAllowlist
      else if is_allowed peer_id (allowlist config)
           || is_some_and (λ u, is_allowed u (allowlist config)) username
      then Ok () else Err NotOnAllowlist
  end.

Definition check_group_access (config : TelegramAccountConfig) (_peer_id : str)
    (group_id : option str) (bot_mentioned : bool) : result () AccessDenied :=
  let mention_gate :=
    match mention_mode config with
    | MentionAlways => Ok ()
    | MentionNone => Err MentionModeNone
    | Mention => if bot_mentioned then Ok () else Err NotMentioned
    end in
  match group_policy config with
  | GroupDisabled => Err GroupsDisabled
  | GroupAllowlist =>
      let gid := unwrap_or [] group_id in
      if negb (is_nonempty (group_allowlist config))
         || negb (is_allowed gid (group_allowlist config))
      then Err GroupNotOnAllowlist else mention_gate
  | GroupOpen => mention_gate
  end.

Definition check_access (config : TelegramAccountConfig) (chat_type : ChatType)
    (peer_id : str) (username group_id : option str) (bot_mentioned : bool)
    : result () AccessDenied :=
  match chat_type with
  | Dm => check_dm_access config peer_id username
  | Group | Channel => check_group_access config peer_id group_id bot_mentioned
  end.
End access.

Definition AccessDenied_fmt (e : AccessDenied) : str :=
  match e with
  | DmsDisabled => "DMs are disabled"
  | NotOnAllowlist => "user not on allowlist"
  | GroupsDisabled => "groups are disabled"
  | GroupNotOnAllowlist => "group not on allowlist"
  | MentionModeNone => "bot does not respond in groups"
  | NotMentioned => "bot was not mentioned"
  end.
End Telegram.

Module Discord.
Record DiscordAccountConfig := {
  dm_policy : DmPolicy;
  group_policy : GroupPolicy;
  mention_mode : MentionMode;
  allowlist : list str;
  guild_allowlist : list str;
  channel_name_patterns : list str;
  category_allowlist : list str;
}.

Inductive AccessDenied :=
| DmsDisabled | NotOnAllowlist | GuildsDisabled | GuildNotOnAllowlist
| MentionModeNone | NotMentioned.

Section access.
Context `{Unicode}.

Definition check_dm_access (config : DiscordAccountConfig) (peer_id : str)
    (username : option str) : result () AccessDenied :=
  match dm_policy config with
  | DmDisabled => Err DmsDisabled
  | DmOpen => Ok ()
  | DmAllowlist =>
      if negb (is_nonempty (allowlist config)) then Err NotOnAllowlist
      else if is_allowed peer_id (allowlist config)
           || is_some_and (λ u, is_allowed u (allowlist config)) username
      then Ok () else Err NotOnAllowlist
  end.

Definition check_guild_access (config : DiscordAccountConfig)
    (guild_id : option str) (bot_mentioned : bool) : result () AccessDenied :=
  let mention_gate :=
    match mention_mode config with
    | MentionAlways => Ok ()
    | MentionNone => Err MentionModeNone
    | Mention => if bot_mentioned then Ok () else Err NotMentioned
    end in
  match group_policy config with
  | GroupDisabled => Err GuildsDisabled
  | GroupAllowlist =>
      let gid := unwrap_or [] guild_id in
      if negb (is_nonempty (guild_allowlist config))
         || negb (is_allowed gid (guild_allowlist config))
      then Err GuildNotOnAllowlist else mention_gate
  | GroupOpen => mention_gate
  end.

Definition check_access (config : DiscordAccountConfig) (chat_type : ChatType)
    (peer_id : str) (username guild_id : option str) (bot_mentioned : bool)
    : result () AccessDenied :=
  match chat_type with
  | Dm => check_dm_access config peer_id username
  | Group | Channel => check_guild_access config guild_id bot_mentioned
  end.

Definition channel_matches_filter (config : DiscordAccountConfig)
    (channel_name category_id : option str) : bool :=
  if negb (is_nonempty (channel_name_patterns config))
     && negb (is_nonempty (category_allowlist config)) then true
  else
    let name_match := is_nonempty (channel_name_patterns config)
      && is_some_and (λ n, is_allowed n (channel_name_patterns config)) channel_name in
    let cat_match := is_nonempty (category_allowlist config)
      && is_some_and (λ c, is_allowed c (category_allowlist config)) category_id in
    name_match || cat_match.
End access.

Definition AccessDenied_fmt (e : AccessDenied) : str :=
  match e with
  | DmsDisabled => "DMs are disabled"
  | NotOnAllowlist => "user not on allowlist"
  | GuildsDisabled => "guilds are disabled"
  | GuildNotOnAllowlist => "guild not on allowlist"
  | MentionModeNone => "bot does not respond in guilds"
  | NotMentioned => "bot was not mentioned"
  end.
End Discord.

Module Matrix.
Record MatrixAccountConfig := {
  dm_policy : DmPolicy;
  room_policy : GroupPolicy;
  mention_mode : MentionMode;
  user_allowlist : list str;
  room_allowlist : list str;
}.

Inductive AccessDenied :=
| DmsDisabled | NotOnAllowlist | RoomsDisabled | RoomNotOnAllowlist
| MentionModeNone | NotMentioned.

Section access.
Context `{Unicode}.
Local Open Scope result_scope.

Definition check_dm_access (config : MatrixAccountConfig) (sender_id : str)
    : result () AccessDenied :=
  match dm_policy config with
  | DmDisabled => Err DmsDisabled
  | DmOpen => Ok ()
  | DmAllowlist =>
      if negb (is_nonempty (user_allowlist config)) then Err NotOnAllowlist
      else if is_allowed sender_id (user_allowlist config)
      then Ok () else Err NotOnAllowlist
  end.

Definition check_room_access (config : MatrixAccountConfig) (room_id : str)
    (bot_mentioned : bool) : result () AccessDenied :=
  let? _ :=
    match room_policy config with
    | GroupDisabled => Err RoomsDisabled
    | GroupOpen => Ok ()
    | GroupAllowlist =>
        if negb (is_nonempty (room_allowlist config))
           || negb (is_allowed room_id (room_allowlist config))
        then Err RoomNotOnAllowlist else Ok ()
    end in
  match mention_mode config with
  | MentionAlways => Ok ()
  | MentionNone => Err MentionModeNone
  | Mention => if bot_mentioned then Ok () else Err NotMentioned
  end.

Definition check_access (config : MatrixAccountConfig) (chat_type : ChatType)
    (sender_id room_id : str) (bot_mentioned : bool) : result () AccessDenied :=
  match chat_type with
  | Dm => check_dm_access config sender_id
  | Group | Channel => check_room_access config room_id bot_mentioned
  end.
End access.

Definition AccessDenied_fmt (e : AccessDenied) : str :=
  match e with
  | DmsDisabled => "DMs are disabled"
  | NotOnAllowlist => "user not on allowlist"
  | RoomsDisabled => "rooms are disabled"
  | RoomNotOnAllowlist => "room not on allowlist"
  | MentionModeNone => "bot does not respond in rooms"
  | NotMentioned => "bot was not mentioned"
  end.
End Matrix.

Module WhatsApp.
Record WhatsAppAccountConfig := {
  dm_policy : DmPolicy;
  group_policy : GroupPolicy;
  mention_mode : MentionMode;
  allowlist : list str;
  group_allowlist : list str;
}.

Inductive AccessDenied :=
| DmsDisabled | NotOnAllowlist | GroupsDisabled | GroupNotOnAllowlist
| MentionModeNone | NotMentioned.

Section access.
Context `{Unicode}.

Definition check_dm_access (config : WhatsAppAccountConfig) (peer_id : str)
    (username : option str) : result () AccessDenied :=
  match dm_policy config with
  | DmDisabled => Err DmsDisabled
  | DmOpen => Ok ()
  | DmAllowlist =>
      if negb (is_nonempty (allowlist config)) then Err NotOnAllowlist
      else if is_allowed peer_id (allowlist config)
           || is_some_and (λ u, is_allowed u (allowlist config)) username
      then Ok () else Err NotOnAllowlist
  end.

Definition check_group_access (config : WhatsAppAccountConfig)
    (group_id : option str) (bot_mentioned : bool) : result () AccessDenied :=
  let mention_gate :=
    match mention_mode config with
    | MentionAlways => Ok ()
    | MentionNone => Err MentionModeNone
    | Mention => if bot_mentioned then Ok () else Err NotMentioned
    end in
  match group_policy config with
  | GroupDisabled => Err GroupsDisabled
  | GroupAllowlist =>
      let gid := unwrap_or [] group_id in
      if negb (is_nonempty (group_allowlist config))
         || negb (is_allowed gid (group_allowlist config))
      then Err GroupNotOnAllowlist else mention_gate
  | GroupOpen => mention_gate
  end.

Definition check_access (config : WhatsAppAccountConfig) (is_group : bool)
    (peer_id : str) (username group_id : option str) (bot_mentioned : bool)
    : result () AccessDenied :=
  if is_group then check_group_access config group_id bot_mentioned
  else check_dm_access config peer_id username.
End access.

Definition AccessDenied_fmt (e : AccessDenied) : str :=
  match e with
  | DmsDisabled => "DMs are disabled"
  | NotOnAllowlist => "user not on allowlist"
  | GroupsDisabled => "groups are disabled"
  | GroupNotOnAllowlist => "group not on allowlist"
  | MentionModeNone => "bot does not respond in groups"
  | NotMentioned => "bot was not mentioned"
  end.
End WhatsApp.

(** Nostr compares parsed public keys, a type of the [nostr_sdk] crate. *)
Module Nostr.
Inductive AccessDenied := Disabled | NotAllowlisted.

Definition check_dm_access {PublicKey : Type} `{EqDecision PublicKey}
    (sender : PublicKey) (policy : DmPolicy) (allowed : list PublicKey)
    : result () AccessDenied :=
  match policy with
  | DmDisabled => Err Disabled
  | DmOpen => Ok ()
  | DmAllowlist =>
      if existsb (λ pk, bool_decide (pk = sender)) allowed
      then Ok () else Err NotAllowlisted
  end.

Definition AccessDenied_fmt (e : AccessDenied) : str :=
  match e with
  | Disabled => "DMs are disabled"
  | NotAllowlisted => "sender not in allowlist"
  end.
End Nostr.

(** * The promise of a chat channel *)

(** An inbound message, as the channels hand it to their access check. *)
Record inbound := {
  in_chat : ChatType;
  in_peer : str;
  in_username : option str;
  in_group : option str;      (** group, guild or room id *)
  in_mentioned : bool;
}.

(** How WhatsApp's [is_group] flag relates to the chat type. *)
Definition is_group (c : ChatType) : bool :=
  match c with Dm => false | Group | Channel => true end.

(** The access settings of an account, whatever the channel calls them. *)
Record policy := {
  p_dm : DmPolicy;
  p_group : GroupPolicy;
  p_mention : MentionMode;
  p_dm_list : list str;
  p_group_list : list str;
}.

Definition user_ids (m : inbound) : list str := in_peer m :: option_list (in_username m).
Definition group_id (m : inbound) : str := unwrap_or [] (in_group m).

Section spec.
Context `{Unicode}.

(** Listed by an explicit allowlist, which admits nobody when it is empty. *)
Definition listed (ids l : list str) : Prop :=
  l ≠ [] ∧ ∃ i, i ∈ ids ∧ is_allowed i l = true.

Definition dm_admitted (p : policy) (ids : list str) : Prop :=
  p_dm p = DmOpen ∨ p_dm p = DmAllowlist ∧ listed ids (p_dm_list p).

Definition group_admitted (p : policy) (gid : str) (mentioned : bool) : Prop :=
  (p_group p = GroupOpen ∨ p_group p = GroupAllowlist ∧ listed [gid] (p_group_list p)) ∧
  (p_mention p = MentionAlways ∨ p_mention p = Mention ∧ mentioned = true).

(** Who is admitted; [ids] are the identities a DM is matched by. *)
Definition spec_access (p : policy) (ids : list str) (m : inbound) : Prop :=
  match in_chat m with
  | Dm => dm_admitted p ids
  | Group | Channel => group_admitted p (group_id m) (in_mentioned m)
  end.

Class ChannelAccess (Config : Type) := {
  ca_policy : Config → policy;
  ca_ids : inbound → list str;
  ca_check : Config → inbound → bool;
  ca_spec c m : ca_check c m = true ↔ spec_access (ca_policy c) (ca_ids m) m;
}.

Lemma listed_one (i : str) (l : list str) :
  is_nonempty l && is_allowed i l = true ↔ listed [i] l.
Proof.
  unfold listed. setoid_rewrite list_elem_of_singleton.
  destruct l; simpl; naive_solver.
Qed.

Lemma listed_user (peer : str) (username : option str) (l : list str) :
  is_nonempty l &&
    (is_allowed peer l || is_some_and (λ u, is_allowed u l) username) = true ↔
  listed (peer :: option_list username) l.
Proof.
  unfold listed. rewrite andb_true_iff, orb_true_iff.
  destruct l, username; simpl; repeat setoid_rewrite elem_of_cons;
    setoid_rewrite elem_of_nil; naive_solver.
Qed.

(** The two shapes every channel's code takes. *)
Lemma dm_shape {E} (dm : DmPolicy) (l : list str) (b : bool) (e1 e2 e3 : E) :
  is_ok (match dm with
         | DmDisabled => Err e1
         | DmOpen => Ok ()
         | DmAllowlist => if negb (is_nonempty l) then Err e2
                          else if b then Ok () else Err e3
         end) = true ↔
  dm = DmOpen ∨ dm = DmAllowlist ∧ is_nonempty l && b = true.
Proof. destruct dm, l, b; simpl; naive_solver. Qed.

Lemma group_shape {E} (g : GroupPolicy) (mm : MentionMode) (l : list str)
    (b mentioned : bool) (e1 e2 e3 e4 : E) :
  is_ok (match g with
         | GroupDisabled => Err e1
         | GroupAllowlist =>
             if negb (is_nonempty l) || negb b then Err e2
             else match mm with
                  | MentionAlways => Ok ()
                  | MentionNone => Err e3
                  | Mention => if mentioned then Ok () else Err e4
                  end
         | GroupOpen => match mm with
                        | MentionAlways => Ok ()
                        | MentionNone => Err e3
                        | Mention => if mentioned then Ok () else Err e4
                        end
         end) = true ↔
  (g = GroupOpen ∨ g = GroupAllowlist ∧ is_nonempty l && b = true) ∧
  (mm = MentionAlways ∨ mm = Mention ∧ mentioned = true).
Proof. destruct g, mm, l, b, mentioned; simpl; naive_solver. Qed.
End spec.

(** Close a channel's specification with the lemmas above. *)
Ltac channel_spec :=
  intros ? [[] ? ? ? ?];
  unfold spec_access, dm_admitted, group_admitted, group_id, user_ids; simpl;
  rewrite <- ?listed_one, <- ?listed_user; first [apply dm_shape | apply group_shape].

Section instances.
Context `{Unicode}.

#[export] Program Instance telegram_access : ChannelAccess Telegram.TelegramAccountConfig := {|
  ca_policy c := {| p_dm := Telegram.dm_policy c; p_group := Telegram.group_policy c;
    p_mention := Telegram.mention_mode c; p_dm_list := Telegram.allowlist c;
    p_group_list := Telegram.group_allowlist c |};
  ca_ids := user_ids;
  ca_check c m := is_ok (Telegram.check_access c (in_chat m) (in_peer m)
    (in_username m) (in_group m) (in_mentioned m));
|}.
Next Obligation. channel_spec. Qed.

#[export] Program Instance discord_access : ChannelAccess Discord.DiscordAccountConfig := {|
  ca_policy c := {| p_dm := Discord.dm_policy c; p_group := Discord.group_policy c;
    p_mention := Discord.mention_mode c; p_dm_list := Discord.allowlist c;
    p_group_list := Discord.guild_allowlist c |};
  ca_ids := user_ids;
  ca_check c m := is_ok (Discord.check_access c (in_chat m) (in_peer m)
    (in_username m) (in_group m) (in_mentioned m));
|}.
Next Obligation. channel_spec. Qed.

#[export] Program Instance whatsapp_access : ChannelAccess WhatsApp.WhatsAppAccountConfig := {|
  ca_policy c := {| p_dm := WhatsApp.dm_policy c; p_group := WhatsApp.group_policy c;
    p_mention := WhatsApp.mention_mode c; p_dm_list := WhatsApp.allowlist c;
    p_group_list := WhatsApp.group_allowlist c |};
  ca_ids := user_ids;
  ca_check c m := is_ok (WhatsApp.check_access c
    (is_group (in_chat m))
    (in_peer m) (in_username m) (in_group m) (in_mentioned m));
|}.
Next Obligation. channel_spec. Qed.

#[export] Program Instance matrix_access : ChannelAccess Matrix.MatrixAccountConfig := {|
  ca_policy c := {| p_dm := Matrix.dm_policy c; p_group := Matrix.room_policy c;
    p_mention := Matrix.mention_mode c; p_dm_list := Matrix.user_allowlist c;
    p_group_list := Matrix.room_allowlist c |};
  ca_ids m := [in_peer m];
  ca_check c m := is_ok (Matrix.check_access c (in_chat m) (in_peer m)
    (group_id m) (in_mentioned m));
|}.
Next Obligation.
  intros c [[] ? ? ? ?]; unfold spec_access, dm_admitted, group_admitted, group_id; simpl;
    rewrite <- listed_one; [apply dm_shape|..];
    unfold Matrix.check_room_access; simpl;
    destruct (Matrix.room_policy c), (Matrix.mention_mode c),
      (Matrix.room_allowlist c), (is_allowed _ _), in_mentioned0; simpl; naive_solver.
Qed.
End instances.

(** * Properties *)

Section properties.
Context `{Unicode}.

(** The access checks of Telegram, Discord, WhatsApp and Matrix admit a
    message exactly when the abstract policy of the account admits it. *)
Theorem channel_access_refines
    (tg : Telegram.TelegramAccountConfig) (dc : Discord.DiscordAccountConfig)
    (wa : WhatsApp.WhatsAppAccountConfig) (mx : Matrix.MatrixAccountConfig)
    (m : inbound) :
  (is_ok (Telegram.check_access tg (in_chat m) (in_peer m) (in_username m)
     (in_group m) (in_mentioned m)) = true ↔
   spec_access (ca_policy tg) (user_ids m) m) ∧
  (is_ok (Discord.check_access dc (in_chat m) (in_peer m) (in_username m)
     (in_group m) (in_mentioned m)) = true ↔
   spec_access (ca_policy dc) (user_ids m) m) ∧
  (is_ok (WhatsApp.check_access wa
     (is_group (in_chat m))
     (in_peer m) (in_username m) (in_group m) (in_mentioned m)) = true ↔
   spec_access (ca_policy wa) (user_ids m) m) ∧
  (is_ok (Matrix.check_access mx (in_chat m) (in_peer m) (group_id m)
     (in_mentioned m)) = true ↔
   spec_access (ca_policy mx) [in_peer m] m).
Proof.
  split; [|split; [|split]];
    [exact (telegram_access.(ca_spec) tg m)|exact (discord_access.(ca_spec) dc m)
    |exact (whatsapp_access.(ca_spec) wa m)|exact (matrix_access.(ca_spec) mx m)].
Qed.

(** Every channel fails closed: under an allowlist policy an empty list
    admits nobody, and a group message a bot was not mentioned in is admitted
    only in the [always] mode. *)
Theorem channel_access_fail_closed {Config} `{!ChannelAccess Config} (c : Config)
    (m : inbound) (Hadmit : ca_check c m = true) :
  match in_chat m with
  | Dm => p_dm (ca_policy c) ≠ DmDisabled ∧
          (p_dm (ca_policy c) = DmAllowlist → p_dm_list (ca_policy c) ≠ [])
  | Group | Channel =>
      p_group (ca_policy c) ≠ GroupDisabled ∧
      (p_group (ca_policy c) = GroupAllowlist → p_group_list (ca_policy c) ≠ []) ∧
      (in_mentioned m = false → p_mention (ca_policy c) = MentionAlways)
  end.
Proof.
  apply ca_spec in Hadmit. revert Hadmit.
  unfold spec_access, dm_admitted, group_admitted, listed.
  destruct (in_chat m), (p_dm (ca_policy c)), (p_group (ca_policy c)); intuition congruence.
Qed.

(** C? Discord's channel filter is inactive when both lists are empty, and
    otherwise admits a channel matched by either list. *)
Theorem discord_channel_filter (c : Discord.DiscordAccountConfig)
    (name category : option str) :
  Discord.channel_matches_filter c name category = true ↔
  Discord.channel_name_patterns c = [] ∧ Discord.category_allowlist c = [] ∨
  (∃ n, name = Some n ∧ listed [n] (Discord.channel_name_patterns c)) ∨
  (∃ k, category = Some k ∧ listed [k] (Discord.category_allowlist c)).
Proof.
  setoid_rewrite <- listed_one. setoid_rewrite andb_true_iff.
  unfold Discord.channel_matches_filter.
  destruct (Discord.channel_name_patterns c) as [|p ps],
    (Discord.category_allowlist c) as [|q qs]; cbn [is_nonempty negb andb orb];
    rewrite ?orb_true_iff, ?is_some_and_true; naive_solver.
Qed.

(** C? Nostr admits a sender exactly when DMs are open or it is listed. *)
Theorem nostr_dm_access {PublicKey} `{EqDecision PublicKey} (sender : PublicKey)
    (p : DmPolicy) (allowed : list PublicKey) :
  Nostr.check_dm_access sender p allowed = Ok () ↔
  p = DmOpen ∨ p = DmAllowlist ∧ sender ∈ allowed.
Proof.
  unfold Nostr.check_dm_access. rewrite list_elem_of_In.
  destruct p; [naive_solver| |naive_solver].
  destruct (existsb _ allowed) eqn:E.
  - apply existsb_exists in E as (x & Hx & Heq). bools. subst. naive_solver.
  - split; [done|]. intros [?|[_ Hin]]; [done|].
    assert (existsb (λ pk, bool_decide (pk = sender)) allowed = true); [|congruence].
    apply existsb_exists. exists sender. split; [done|]. by apply bool_decide_eq_true.
Qed.
End properties.

Definition demo_config : Telegram.TelegramAccountConfig := {|
  Telegram.dm_policy := DmAllowlist; Telegram.group_policy := GroupOpen;
  Telegram.mention_mode := Mention; Telegram.allowlist := [lit "alice"];
  Telegram.group_allowlist := [] |}.
Definition demo_dm : inbound :=
  {| in_chat := Dm; in_peer := "42"; in_username := Some (lit "Alice");
     in_group := None; in_mentioned := false |}.

Lemma channel_access_fail_closed_witness :
  p_dm (ca_policy (H := ascii_unicode) demo_config) ≠ DmDisabled ∧
  (p_dm (ca_policy (H := ascii_unicode) demo_config) = DmAllowlist →
   p_dm_list (ca_policy (H := ascii_unicode) demo_config) ≠ []).
Proof.
  apply (@channel_access_fail_closed ascii_unicode _ (@telegram_access ascii_unicode)
    demo_config demo_dm).
  vm_compute. reflexivity.
Defined.
