(* ===== verification/Policy.v ===== *)
(** Tool policies: which tools an agent may call.

    Models [crates/tools/src/policy.rs] and the configuration types it reads
    ([crates/config/src/schema/{agents,runtime,tools}.rs]): glob patterns,
    allow/deny evaluation, and the resolution of the effective policy from six
    configuration layers.  The configuration record holds the fields the
    resolution reads.  [resolve_effective_policy] is shown to be a fold of
    [merge_with] over the list of layers, from which the precedence rules of
    its doc comment follow. *)
From S2P Require Import Prelude.

Record ToolPolicy := { allow : list str; deny : list str }.
Definition ToolPolicy_default : ToolPolicy := {| allow := []; deny := [] |}.

Record PolicyContext := {
  agent_id : str;
  provider : option str;
  channel : option str;
  channel_account_id : option str;
  ctx_group_id : option str;
  sender_id : option str;
  sandboxed : bool;
}.

Definition profile_tools (profile : str) : ToolPolicy :=
  if str_eqb profile "minimal" then {| allow := [lit "exec"]; deny := [] |}
  else if str_eqb profile "coding" then
    {| allow := [lit "exec"; lit "browser"; lit "memory"]; deny := [] |}
  else if str_eqb profile "full" then {| allow := [lit "*"]; deny := [] |}
  else ToolPolicy_default.

Definition pattern_matches (pattern name : str) : bool :=
  if str_eqb pattern "*" then true
  else match strip_suffix "*" pattern with
       | Some prefix => starts_with prefix name
       | None => str_eqb pattern name
       end.

Definition is_allowed (p : ToolPolicy) (tool_name : str) : bool :=
  if existsb (λ pattern, pattern_matches pattern tool_name) (deny p) then false
  else if negb (is_nonempty (allow p)) then true
  else existsb (λ pattern, pattern_matches pattern tool_name) (allow p).

Definition merge_with (self other : ToolPolicy) : ToolPolicy :=
  {| allow := if negb (is_nonempty (allow other)) then allow self else allow other;
     deny := deny self ++ deny other |}.

(** ** Configuration *)

Record ToolPolicyConfig := {
  cfg_allow : list str;
  cfg_deny : list str;
  cfg_profile : option str;
}.

Definition McpServerId : Type := str.
Definition to_deny_pattern (server : McpServerId) : str := lit "mcp__" ++ server ++ lit "__*".

Inductive PresetMcpPolicy :=
| McpAll
| McpAllow (servers : list McpServerId)
| McpDeny (servers : list McpServerId).

Record AgentPreset := {
  preset_tools : ToolPolicy;      (** [PresetToolPolicy] *)
  preset_mcp : PresetMcpPolicy;
}.

Record GroupToolPolicy := {
  group_allow : list str;
  group_deny : list str;
  by_sender : gmap str ToolPolicyConfig;
}.

Record ChannelToolPolicyOverride := { groups : gmap str GroupToolPolicy }.

(** The fields of [MoltisConfig] the resolution reads.  Channel accounts are
    JSON values; [Value] is [serde_json::Value]. *)
Record MoltisConfig (Value : Type) := {
  tools_policy : ToolPolicyConfig;
  providers : gmap str (option ToolPolicyConfig);
  presets : gmap str AgentPreset;
  channel_configs : list (str * gmap str Value);
  sandbox_tools_policy : option ToolPolicyConfig;
}.
Arguments tools_policy {Value} _.
Arguments providers {Value} _.
Arguments presets {Value} _.
Arguments channel_configs {Value} _.
Arguments sandbox_tools_policy {Value} _.

Definition nonempty_policy (p : ToolPolicy) : bool :=
  is_nonempty (allow p) || is_nonempty (deny p).

Definition policy_from_config (cfg : ToolPolicyConfig) : ToolPolicy :=
  let p := match cfg_profile cfg with
           | Some profile => if is_nonempty profile then profile_tools profile
                             else ToolPolicy_default
           | None => ToolPolicy_default
           end in
  let explicit := {| allow := cfg_allow cfg; deny := cfg_deny cfg |} in
  if nonempty_policy explicit then merge_with p explicit else p.

Definition get_preset {Value} (config : MoltisConfig Value) (name : str) : option AgentPreset :=
  presets config !! name.

Section resolve.
Context {Value : Type}.
(** [value.get("tools")] followed by [serde_json::from_value]. *)
Context (account_tools : Value → option ChannelToolPolicyOverride).

Definition tool_policy_for_account (config : MoltisConfig Value)
    (channel_type account_id : str) : option ChannelToolPolicyOverride :=
  '(_, accounts) ← list_find (λ p, p.1 = channel_type) (channel_configs config);
  account_val ← accounts.2 !! account_id;
  account_tools account_val.

Definition merge_if_nonempty (effective p : ToolPolicy) : ToolPolicy :=
  if nonempty_policy p then merge_with effective p else effective.

Definition resolve_effective_policy (config : MoltisConfig Value) (context : PolicyContext)
    : ToolPolicy :=
  let effective := ToolPolicy_default in
  (* Layer 1: global profile, then global lists *)
  let effective :=
    match cfg_profile (tools_policy config) with
    | Some profile => if is_nonempty profile
                      then merge_with effective (profile_tools profile) else effective
    | None => effective
    end in
  let global := {| allow := cfg_allow (tools_policy config);
                   deny := cfg_deny (tools_policy config) |} in
  let effective := merge_if_nonempty effective global in
  (* Layer 2: provider *)
  let effective :=
    match provider context with
    | Some provider_name =>
        match providers config !! provider_name with
        | Some (Some provider_policy) =>
            merge_if_nonempty effective (policy_from_config provider_policy)
        | _ => effective
        end
    | None => effective
    end in
  (* Layer 3: agent preset *)
  let effective :=
    match get_preset config (agent_id context) with
    | Some preset =>
        let deny := deny (preset_tools preset) ++
          match preset_mcp preset with
          | McpAll => []
          | McpDeny servers => map to_deny_pattern servers
          | McpAllow _ => []
          end in
        merge_if_nonempty effective {| allow := allow (preset_tools preset); deny := deny |}
    | None => effective
    end in
  (* Layers 4 and 5: group, then sender in the group *)
  let effective :=
    match channel context, channel_account_id context, ctx_group_id context with
    | Some channel, Some account_id, Some group_id =>
        match tool_policy_for_account config channel account_id with
        | Some override_config =>
            match groups override_config !! group_id with
            | Some group_policy =>
                let effective := merge_if_nonempty effective
                  {| allow := group_allow group_policy; deny := group_deny group_policy |} in
                match sender_id context with
                | Some sender =>
                    match by_sender group_policy !! sender with
                    | Some sender_policy =>
                        merge_if_nonempty effective (policy_from_config sender_policy)
                    | None => effective
                    end
                | None => effective
                end
            | None => effective
            end
        | None => effective
        end
    | _, _, _ => effective
    end in
  (* Layer 6: sandbox *)
  if sandboxed context then
    match sandbox_tools_policy config with
    | Some sandbox_policy => merge_if_nonempty effective (policy_from_config sandbox_policy)
    | None => effective
    end
  else effective.

(** ** The layers, as a list *)

Definition layer_profile (config : MoltisConfig Value) : list ToolPolicy :=
  match cfg_profile (tools_policy config) with
  | Some (c :: profile) => [profile_tools (c :: profile)]
  | _ => []
  end.
Definition layer_global (config : MoltisConfig Value) : list ToolPolicy :=
  [{| allow := cfg_allow (tools_policy config); deny := cfg_deny (tools_policy config) |}].
Definition layer_provider (config : MoltisConfig Value) (context : PolicyContext)
    : list ToolPolicy :=
  option_list (policy_from_config <$> (provider context ≫= λ n, mjoin (providers config !! n))).
Definition preset_layer (p : AgentPreset) : ToolPolicy :=
  {| allow := allow (preset_tools p);
     deny := deny (preset_tools p) ++
       match preset_mcp p with McpDeny servers => map to_deny_pattern servers | _ => [] end |}.
Definition layer_preset (config : MoltisConfig Value) (context : PolicyContext)
    : list ToolPolicy :=
  option_list (preset_layer <$> presets config !! agent_id context).
Definition group_of (config : MoltisConfig Value) (context : PolicyContext)
    : option GroupToolPolicy :=
  ch ← channel context; acc ← channel_account_id context; g ← ctx_group_id context;
  o ← tool_policy_for_account config ch acc; groups o !! g.
Definition layer_group (config : MoltisConfig Value) (context : PolicyContext)
    : list ToolPolicy :=
  match group_of config context with
  | Some g =>
      {| allow := group_allow g; deny := group_deny g |} ::
      option_list (policy_from_config <$> (sender_id context ≫= λ s, by_sender g !! s))
  | None => []
  end.
Definition layer_sandbox (config : MoltisConfig Value) (context : PolicyContext)
    : list ToolPolicy :=
  if sandboxed context then option_list (policy_from_config <$> sandbox_tools_policy config)
  else [].

(** Lowest precedence first. *)
Definition layers (config : MoltisConfig Value) (context : PolicyContext) : list ToolPolicy :=
  layer_profile config ++ layer_global config ++ layer_provider config context ++
  layer_preset config context ++ layer_group config context ++ layer_sandbox config context.
End resolve.

(** * Facts *)

Lemma merge_default_r p : merge_with p ToolPolicy_default = p.
Proof. destruct p. unfold merge_with; simpl. by rewrite app_nil_r. Qed.

Lemma merge_default_l p : merge_with ToolPolicy_default p = p.
Proof. destruct p as [[|a l] d]; done. Qed.

Lemma merge_assoc p q r : merge_with p (merge_with q r) = merge_with (merge_with p q) r.
Proof.
  destruct p as [a d], q as [a' d'], r as [[|x a''] d''];
    unfold merge_with; simpl; by rewrite app_assoc.
Qed.

Lemma merge_if_nonempty_eq e p : merge_if_nonempty e p = merge_with e p.
Proof.
  unfold merge_if_nonempty, nonempty_policy. destruct p as [[|x l] [|y l']]; simpl; try done.
  by rewrite (merge_default_r e : merge_with e {| allow := []; deny := [] |} = e).
Qed.

Lemma fold_merge_deny l e : deny (foldl merge_with e l) = deny e ++ concat (map deny l).
Proof.
  revert e; induction l as [|p l IH]; intros e; simpl; [by rewrite app_nil_r|].
  by rewrite IH, app_assoc.
Qed.

(** The allow list of the last layer that has one. *)
Definition last_allow (l : list ToolPolicy) : list str :=
  unwrap_or [] (last (filter (λ a, a ≠ []) (map allow l))).

Lemma fold_merge_allow l e :
  allow (foldl merge_with e l) = last_allow (e :: l).
Proof.
  unfold last_allow. revert e; induction l as [|p l IH]; intros e; simpl.
  - rewrite filter_cons. destruct (allow e); [done|]. by rewrite decide_True by done.
  - rewrite IH. simpl. rewrite !filter_cons.
    destruct e as [[|x a] d], p as [[|y a'] d']; simpl; done.
Qed.

Lemma matches_spec p n :
  pattern_matches p n = true ↔
  (∃ pre r, p = pre ++ [ch "*"] ∧ n = pre ++ r) ∨ (p = n ∧ ∀ pre, p ≠ pre ++ [ch "*"]).
Proof.
  unfold pattern_matches, str_eqb. case_bool_decide as Hs.
  - split; [|done]. intros _. left. exists [], n. by rewrite Hs.
  - destruct (strip_suffix "*" p) as [pre|] eqn:E.
    + apply strip_suffix_Some in E as ->. rewrite starts_with_spec. split.
      * intros [r ->]. left. eauto.
      * intros [(pre' & r & Hp & ->)|[_ H]]; [|by destruct (H pre)].
        apply (inj (λ x, x ++ _)) in Hp. subst. eauto.
    + rewrite bool_decide_eq_true.
      assert (∀ pre, p ≠ pre ++ [ch "*"]) as Hn.
      { intros pre Hp. assert (strip_suffix "*" p = Some pre); [|congruence].
        by apply strip_suffix_Some. }
      naive_solver.
Qed.

Lemma matches_any_spec l n :
  existsb (λ pattern, pattern_matches pattern n) l = true ↔
  ∃ p, p ∈ l ∧ pattern_matches p n = true.
Proof. rewrite existsb_exists. by setoid_rewrite list_elem_of_In. Qed.

(** * Properties *)

(** Deny wins over allow, and an empty allow list allows what is not denied. *)
Theorem is_allowed_deny_wins (p : ToolPolicy) (tool : str) :
  is_allowed p tool = true ↔
  (∀ d, d ∈ deny p → pattern_matches d tool = false) ∧
  (allow p = [] ∨ ∃ a, a ∈ allow p ∧ pattern_matches a tool = true).
Proof.
  unfold is_allowed.
  destruct (existsb _ (deny p)) eqn:E.
  - apply matches_any_spec in E as (d & Hd & Hm). split; [done|].
    intros [Hn _]. by rewrite (Hn d Hd) in Hm.
  - assert (∀ d, d ∈ deny p → pattern_matches d tool = false) as Hn.
    { intros d Hd. destruct (pattern_matches d tool) eqn:Em; [|done].
      rewrite <- E. symmetry. apply matches_any_spec. eauto. }
    destruct (allow p) as [|a l] eqn:Ea; simpl is_nonempty; cbn [negb]; [naive_solver|].
    rewrite matches_any_spec. naive_solver.
Qed.

(** The effective policy is the fold of [merge_with] over the applicable
    layers: every deny pattern of every layer is kept, in layer order, and the
    allow list is that of the last layer that states one. *)
Theorem resolve_effective_policy_layers {Value} (account_tools : Value → option ChannelToolPolicyOverride)
    (config : MoltisConfig Value) (context : PolicyContext) :
  let p := resolve_effective_policy account_tools config context in
  let ls := layers account_tools config context in
  p = foldl merge_with ToolPolicy_default ls ∧
  deny p = concat (map deny ls) ∧ allow p = last_allow ls.
Proof.
  intros p ls.
  assert (p = foldl merge_with ToolPolicy_default ls) as Hp.
  { subst p ls. unfold resolve_effective_policy, layers. rewrite !foldl_app.
    unfold layer_sandbox, layer_group, group_of, layer_preset, layer_provider, layer_profile,
      get_preset.
    set (e1 := foldl merge_with _ (layer_global config)).
    assert (merge_if_nonempty
      match cfg_profile (tools_policy config) with
      | Some profile => if is_nonempty profile
                        then merge_with ToolPolicy_default (profile_tools profile)
                        else ToolPolicy_default
      | None => ToolPolicy_default
      end {| allow := cfg_allow (tools_policy config); deny := cfg_deny (tools_policy config) |}
      = e1) as ->.
    { subst e1. rewrite merge_if_nonempty_eq.
      by destruct (cfg_profile (tools_policy config)) as [[|c pr]|]. }
    clearbody e1.
    destruct (provider context) as [pn|]; simpl;
      [destruct (providers config !! pn) as [[pp|]|]; simpl|]; rewrite ?merge_if_nonempty_eq;
    (match goal with |- context [match presets config !! ?a with _ => _ end] =>
       destruct (presets config !! a) as [pr|] eqn:?; simpl end; rewrite ?merge_if_nonempty_eq);
    unfold preset_layer; try destruct (preset_mcp pr); simpl;
    (destruct (channel context) as [c|], (channel_account_id context) as [acc|],
       (ctx_group_id context) as [g|]; simpl;
     try (destruct (tool_policy_for_account account_tools config c acc) as [o|]; simpl;
          [destruct (groups o !! g) as [gp|]; simpl;
           [destruct (sender_id context) as [s|]; simpl;
            [destruct (by_sender gp !! s); simpl|]|]|]);
     destruct (sandboxed context), (sandbox_tools_policy config); simpl;
     by rewrite ?merge_if_nonempty_eq). }
  split; [done|]. rewrite Hp, fold_merge_deny, fold_merge_allow. split; [done|].
  unfold last_allow. simpl. by rewrite filter_cons_False by (intros H; by apply H).
Qed.

(** No layer of higher precedence can re-allow what a layer denies. *)
Theorem resolve_deny_is_final {Value} (account_tools : Value → option ChannelToolPolicyOverride)
    (config : MoltisConfig Value) (context : PolicyContext) (layer : ToolPolicy)
    (pattern tool : str)
    (Hlayer : layer ∈ layers account_tools config context)
    (Hdeny : pattern ∈ deny layer) (Hmatch : pattern_matches pattern tool = true) :
  is_allowed (resolve_effective_policy account_tools config context) tool = false.
Proof.
  unfold is_allowed.
  destruct (resolve_effective_policy_layers account_tools config context) as (_ & -> & _).
  assert (existsb (λ q, pattern_matches q tool)
    (concat (map deny (layers account_tools config context))) = true) as ->; [|done].
  apply matches_any_spec. exists pattern. split; [|done].
  apply list_elem_of_In, in_concat. exists (deny layer).
  split; [|by apply list_elem_of_In]. apply in_map_iff. exists layer.
  split; [done|by apply list_elem_of_In].
Qed.

Definition demo_policy_config : MoltisConfig () := {|
  tools_policy := {| cfg_allow := []; cfg_deny := [lit "exec"]; cfg_profile := None |};
  providers := ∅; presets := ∅; channel_configs := [];
  sandbox_tools_policy :=
    Some {| cfg_allow := [lit "*"]; cfg_deny := []; cfg_profile := Some (lit "full") |} |}.
Definition demo_policy_context : PolicyContext := {|
  agent_id := "main"; provider := None; channel := None; channel_account_id := None;
  ctx_group_id := None; sender_id := None; sandboxed := true |}.

Lemma resolve_deny_is_final_witness :
  is_allowed (resolve_effective_policy (λ _, None) demo_policy_config demo_policy_context)
    "exec" = false.
Proof.
  apply (resolve_deny_is_final (λ _, None) demo_policy_config demo_policy_context
    {| allow := []; deny := [lit "exec"] |} "exec" "exec").
  - apply (list_elem_of_here _ _).
  - apply (list_elem_of_here _ _).
  - vm_compute. reflexivity.
Defined.
