(* ===== verification/LoopDetector.v ===== *)
(** Detection of reflex loops of failing tool calls.

    Models [crates/agents/src/tool_loop_detector.rs]: fingerprints of tool
    calls, the detector with its window and escalation stages, the two
    intervention messages and the canonical form of JSON arguments.  The 64-bit hash of a
    string ([DefaultHasher]), the printing of doubles and [serde_json::to_string] are
    parameters. *)
From stdpp Require Import pretty.
From S2P Require Import Prelude Json.

(** ** Canonical form *)

Definition quote (s : str) : str := [ch_dquote] ++ s ++ [ch_dquote].

Fixpoint canonicalize `{FloatFormat} (v : json) : str :=
  match v with
  | JNull => "null"
  | JBool b => if b then "true" else "false"
  | JNumber n => number_to_string n
  | JString s => quote s
  | JArray arr => lit "[" ++ join "," (map canonicalize arr) ++ lit "]"
  | JObject m =>
      let rendered := map (λ '(k, v), (k, canonicalize v)) m in
      let keys := merge_sort str_leP (map fst rendered) in
      let inner := map (λ k, quote k ++ lit ":" ++ unwrap_or [] (assoc k rendered)) keys in
      lit "{" ++ join "," inner ++ lit "}"
  end.

(** ** Fingerprints *)

Record ToolCallFingerprint := {
  tool_name : str;
  args_hash : Z;
  failed : bool;
  error_hash : option Z;
  error_text : option str;
  arguments : json;
}.

Section fingerprint.
Context `{FloatFormat} (hash_str : str → Z).

Definition hash_value (v : json) : Z := hash_str (canonicalize v).

Definition fp_success (name : str) (args : json) : ToolCallFingerprint := {|
  tool_name := name; args_hash := hash_value args; failed := false;
  error_hash := None; error_text := None; arguments := args |}.

Definition fp_failure (name : str) (args : json) (error : option str)
    : ToolCallFingerprint := {|
  tool_name := name; args_hash := hash_value args; failed := true;
  error_hash := hash_str <$> error; error_text := error; arguments := args |}.
End fingerprint.

Definition is_failure (fp : ToolCallFingerprint) : bool := failed fp.

(** ** The detector *)

Inductive InterventionStage := StageNone | Nudged | StageStripTools.
Inductive LoopDetectorAction := ActNone | InjectNudge | StripTools.

Global Instance InterventionStage_eq_dec : EqDecision InterventionStage.
Proof. solve_decision. Defined.
Global Instance LoopDetectorAction_eq_dec : EqDecision LoopDetectorAction.
Proof. solve_decision. Defined.

Record ToolLoopDetector := {
  recent : list ToolCallFingerprint;      (** front first *)
  window : nat;
  strip_on_second_fire : bool;
  stage : InterventionStage;
  nudge_delivered : bool;
}.

Definition new (window : nat) (strip_on_second_fire : bool) : ToolLoopDetector := {|
  recent := []; window := window; strip_on_second_fire := strip_on_second_fire;
  stage := StageNone; nudge_delivered := false |}.

Definition is_enabled (d : ToolLoopDetector) : bool := (0 <? window d)%nat.

Definition with_recent (d : ToolLoopDetector) r := {|
  recent := r; window := window d; strip_on_second_fire := strip_on_second_fire d;
  stage := stage d; nudge_delivered := nudge_delivered d |}.
Definition with_stage (d : ToolLoopDetector) s := {|
  recent := recent d; window := window d; strip_on_second_fire := strip_on_second_fire d;
  stage := s; nudge_delivered := nudge_delivered d |}.
Definition with_delivered (d : ToolLoopDetector) b := {|
  recent := recent d; window := window d; strip_on_second_fire := strip_on_second_fire d;
  stage := stage d; nudge_delivered := b |}.

Definition reset (d : ToolLoopDetector) : ToolLoopDetector :=
  with_delivered (with_stage (with_recent d []) StageNone) false.

Definition all_match (recent : list ToolCallFingerprint) : bool :=
  match recent with
  | [] => false
  | first :: _ =>
      if negb (forallb (λ fp, str_eqb (tool_name fp) (tool_name first)) recent) then false
      else
        let all_same_args := forallb (λ fp, (args_hash fp =? args_hash first)%Z) recent in
        let all_same_error := isSome (error_hash first) &&
          forallb (λ fp, bool_decide (error_hash fp = error_hash first)) recent in
        all_same_args || all_same_error
  end.

(** [while recent.len() > window { recent.pop_front(); }] *)
Definition pop_to_window (window : nat) (recent : list ToolCallFingerprint)
    : list ToolCallFingerprint := drop (length recent - window) recent.

Definition record (d : ToolLoopDetector) (fp : ToolCallFingerprint)
    : ToolLoopDetector * LoopDetectorAction :=
  if (window d =? 0)%nat then (d, ActNone)
  else if negb (is_failure fp) then (reset d, ActNone)
  else
    let d := with_recent d (pop_to_window (window d) (recent d ++ [fp])) in
    if (length (recent d) <? window d)%nat then (d, ActNone)
    else if negb (all_match (recent d)) then (d, ActNone)
    else match stage d with
         | StageNone => (with_stage d Nudged, InjectNudge)
         | Nudged =>
             if strip_on_second_fire d then (with_stage d StageStripTools, StripTools)
             else (d, ActNone)
         | StageStripTools => (d, ActNone)
         end.

Definition clear_strip_tools (d : ToolLoopDetector) : ToolLoopDetector :=
  if bool_decide (stage d = StageStripTools)
  then with_delivered (with_recent (with_stage d StageNone) []) false else d.

Definition consume_pending_action (d : ToolLoopDetector)
    : ToolLoopDetector * LoopDetectorAction :=
  match stage d with
  | StageNone => (d, ActNone)
  | Nudged =>
      if nudge_delivered d then (d, ActNone) else (with_delivered d true, InjectNudge)
  | StageStripTools =>
      if nudge_delivered d then (d, StripTools)
      else (with_delivered (with_stage d Nudged) true, InjectNudge)
  end.

Definition window_snapshot (d : ToolLoopDetector) : list ToolCallFingerprint := recent d.

(** ** Messages *)

Definition em_dash : str := [8212%N].
Definition right_arrow : str := [8594%N].
Definition nl : str := [ch_newline].

Fixpoint format_calls (json_to_string : json → option str) (i : nat)
    (window : list ToolCallFingerprint) : str :=
  match window with
  | [] => []
  | fp :: window' =>
      let args_str := unwrap_or (lit "{}") (json_to_string (arguments fp)) in
      let err := unwrap_or (lit "(no error)") (error_text fp) in
      lit "  " ++ show_nat (i + 1) ++ lit ". " ++ tool_name fp ++ lit "(" ++ args_str ++
      lit ") " ++ right_arrow ++ lit " error: " ++ err ++ nl ++
      format_calls json_to_string (S i) window'
  end.

Definition format_intervention_message (json_to_string : json → option str)
    (window : list ToolCallFingerprint) : str :=
  let tool := match window with fp :: _ => tool_name fp | [] => lit "this tool" end in
  lit "SYSTEM INTERVENTION " ++ em_dash ++ lit " LOOP DETECTED" ++ nl ++ nl ++
  lit "Your last " ++ show_nat (length window) ++ lit " tool calls were:" ++ nl ++
  format_calls json_to_string 0 window ++
  nl ++ lit "These are identical failed invocations. Retrying with the same arguments will fail again."
  ++ nl ++ nl ++ lit "On your next turn:" ++ nl ++
  lit "1. Do NOT call `" ++ tool ++ lit "` or any other tool." ++ nl ++
  lit "2. Do NOT repeat this call pattern." ++ nl ++
  lit "3. Respond to the user in plain text." ++ nl ++
  lit "4. Explain what you were trying to accomplish." ++ nl ++
  lit "5. If you do not know what arguments to use, ask the user for clarification." ++ nl ++
  nl ++ lit "The user is waiting for a text response.".

Definition format_strip_tools_message : str :=
  lit "SYSTEM INTERVENTION " ++ em_dash ++ lit " TOOLS DISABLED FOR THIS TURN" ++ nl ++ nl ++
  lit "You have been caught in a reflex retry loop. Tools are disabled for this single turn. Respond to the user in plain text: explain what you were trying to do, and ask for clarification if needed.".

(** ** The runner's side *)

(** [RunnerEvent::LoopInterventionFired { stage, tool_name }]. *)
Record intervention_event := { ev_stage : Z; ev_tool : str }.

(** The runner state an intervention touches: the user messages pushed, the
    strip flag and the events emitted. *)
Record runner := {
  messages : list str;
  strip_tools_next_iter : bool;
  events : list intervention_event;
}.

Definition stuck_tool (window : list ToolCallFingerprint) : str :=
  match window with fp :: _ => tool_name fp | [] => [] end.

Definition apply_loop_detector_intervention (json_to_string : json → option str)
    (d : ToolLoopDetector) (r : runner) : ToolLoopDetector * runner :=
  if negb (is_enabled d) then (d, r)
  else
    let '(d', act) := consume_pending_action d in
    match act with
    | ActNone => (d', r)
    | InjectNudge =>
        let window := window_snapshot d' in
        (d', {| messages := messages r ++ [format_intervention_message json_to_string window];
                strip_tools_next_iter := strip_tools_next_iter r;
                events := events r ++ [{| ev_stage := 1; ev_tool := stuck_tool window |}] |})
    | StripTools =>
        (d', {| messages := messages r ++ [format_strip_tools_message];
                strip_tools_next_iter := true;
                events := events r ++
                  [{| ev_stage := 2; ev_tool := stuck_tool (window_snapshot d') |}] |})
    end.

(** * Facts *)

(** ** The canonical form does not depend on the order of object keys *)

Lemma merge_sort_perm (l l' : list str) :
  l ≡ₚ l' → merge_sort str_leP l = merge_sort str_leP l'.
Proof.
  intros Hp. apply (StronglySorted_unique str_leP).
  - apply (StronglySorted_merge_sort str_leP).
  - apply (StronglySorted_merge_sort str_leP).
  - by rewrite !merge_sort_Permutation.
Qed.

(** ** The invariant of the detector *)

(** [reach w s d g]: [d] is reached from [new w s] by the runner's calls, and
    [g] tells whether [consume_pending_action] returned [InjectNudge] since the
    last successful call or forced text turn. *)
Inductive reach (w : nat) (s : bool) : ToolLoopDetector → bool → Prop :=
| reach_new : reach w s (new w s) false
| reach_record d g fp :
    reach w s d g → reach w s (record d fp).1 (if is_failure fp then g else false)
| reach_consume d g :
    reach w s d g →
    reach w s (consume_pending_action d).1
      (g || bool_decide ((consume_pending_action d).2 = InjectNudge))
| reach_clear d g :
    reach w s d g →
    reach w s (clear_strip_tools d) (if bool_decide (stage d = StageStripTools) then false else g).

Record detector_ok (w : nat) (s : bool) (d : ToolLoopDetector) (g : bool) : Prop := {
  ok_window : window d = w;
  ok_strip : strip_on_second_fire d = s;
  ok_len : length (recent d) ≤ w;
  ok_failed : Forall (λ fp, is_failure fp = true) (recent d);
  ok_ghost : nudge_delivered d = g;
  ok_idle : stage d = StageNone → g = false;
  ok_stage : stage d ≠ StageNone → (0 < w)%nat;
  ok_strip_on : stage d = StageStripTools → s = true;
}.

Lemma reset_ok w s d g : detector_ok w s d g → detector_ok w s (reset d) false.
Proof. intros []. split; simpl; try done; try lia; by constructor. Qed.

Lemma pop_to_window_ok w l :
  Forall (λ fp, is_failure fp = true) l →
  length (pop_to_window w l) ≤ w ∧ Forall (λ fp, is_failure fp = true) (pop_to_window w l).
Proof.
  intros Hf. unfold pop_to_window. rewrite length_drop. split; [lia|]. by apply Forall_drop.
Qed.

Lemma record_ok w s d g fp :
  detector_ok w s d g →
  detector_ok w s (record d fp).1 (if is_failure fp then g else false).
Proof.
  intros Hok. pose proof Hok as [Hw Hs Hl Hf Hg Hi Hst Hso]. unfold record.
  destruct (Nat.eqb_spec (window d) 0) as [Hz|Hz]; simpl.
  - assert (stage d = StageNone) as Hn by (destruct (decide (stage d = StageNone)) as [|Hn']; [done|specialize (Hst Hn'); lia]).
    rewrite (Hi Hn) in *. by destruct (is_failure fp).
  - destruct (is_failure fp) eqn:E; simpl; [|by eapply reset_ok].
    destruct (pop_to_window_ok w (recent d ++ [fp])) as [? ?];
      [by apply Forall_app; split; [done|]; constructor|].
    repeat case_match; split; simpl; rewrite ?Hw; try done; try congruence; try lia; auto.
Qed.

Lemma consume_ok w s d g :
  detector_ok w s d g →
  detector_ok w s (consume_pending_action d).1
    (g || bool_decide ((consume_pending_action d).2 = InjectNudge)).
Proof.
  intros [Hw Hs Hl Hf Hg Hi Hst Hso]. unfold consume_pending_action.
  destruct (stage d) eqn:E, (nudge_delivered d) eqn:En; subst; simpl;
    split; simpl; rewrite ?E, ?En; try done; auto; intros; try (by apply Hst).
Qed.

Lemma clear_ok w s d g :
  detector_ok w s d g →
  detector_ok w s (clear_strip_tools d) (if bool_decide (stage d = StageStripTools) then false else g).
Proof.
  intros Hok. pose proof Hok as []. unfold clear_strip_tools.
  case_bool_decide; [|done]. split; simpl; try done; try lia; by constructor.
Qed.

#[export] Hint Resolve record_ok consume_ok clear_ok : moltis.

Lemma reach_ok w s d g : reach w s d g → detector_ok w s d g.
Proof.
  induction 1; auto with moltis. split; simpl; try done; try lia; by constructor.
Qed.

(** ** What a fired window looks like *)

Definition same_call (first fp : ToolCallFingerprint) : Prop :=
  tool_name fp = tool_name first ∧ args_hash fp = args_hash first.
Definition same_error (first fp : ToolCallFingerprint) : Prop :=
  tool_name fp = tool_name first ∧ ∃ h, error_hash fp = Some h ∧ error_hash first = Some h.

Lemma all_match_true l :
  all_match l = true →
  ∃ first, head l = Some first ∧
    (Forall (same_call first) l ∨ Forall (same_error first) l).
Proof.
  destruct l as [|first l]; [done|]. unfold all_match. cbv beta iota.
  destruct (forallb _ _) eqn:Hn; [|done]. cbn [negb].
  rewrite orb_true_iff, andb_true_iff. rewrite !forallb_true in *.
  intros [Ha|[He Ha]]; exists first; (split; [done|]); [left|right];
    pose proof (proj2 (Forall_and _ _) (conj Hn Ha)) as H;
    refine (Forall_impl _ _ _ H _); unfold str_eqb; intros fp [Hfn Hfa]; bools.
  - by split.
  - split; [done|]. destruct (error_hash first); [|done]. eauto.
Qed.

Lemma pop_to_window_last w l (fp : ToolCallFingerprint) :
  0 < w → last (pop_to_window w (l ++ [fp])) = Some fp.
Proof.
  intros Hw. unfold pop_to_window. rewrite length_app; simpl.
  rewrite drop_app_le by lia. by rewrite last_snoc.
Qed.

(** The detector asks for an intervention only on a full window of failures
    that ends with the call just recorded, all of one tool and all with the same
    arguments or the same error; the call itself failed. *)
Theorem record_fires_on_loop (w : nat) (s : bool) (d : ToolLoopDetector) (g : bool)
    (fp : ToolCallFingerprint) :
  reach w s d g →
  (record d fp).2 ≠ ActNone →
  let r := recent (record d fp).1 in
  length r = w ∧ last r = Some fp ∧ Forall (λ x, is_failure x = true) r ∧
  ∃ first, head r = Some first ∧
    (Forall (same_call first) r ∨ Forall (same_error first) r).
Proof.
  intros Hr. pose proof (reach_ok _ _ _ _ Hr) as [Hw _ Hl Hf _ _ _ _].
  pose proof (record_ok _ _ _ _ fp (reach_ok _ _ _ _ Hr)) as [_ _ Hl' Hf' _ _ _ _].
  revert Hl' Hf'. unfold record. subst w.
  destruct (Nat.eqb_spec (window d) 0) as [|Hz]; [done|].
  destruct (is_failure fp); simpl; [|done].
  pose proof (pop_to_window_last (window d) (recent d) fp) as Hlast.
  set (r := pop_to_window _ _) in *.
  destruct (Nat.ltb_spec (length r) (window d)); simpl; [done|].
  destruct (all_match r) eqn:Ha; simpl; [|done].
  apply all_match_true in Ha.
  destruct (stage d), (strip_on_second_fire d); simpl; intros; try done;
    (split; [lia|split; [auto with lia|done]]).
Qed.

(** Tools are stripped from a turn only in a run with the second stage
    enabled, and only after the nudge text was handed to the runner since the last
    successful call or forced text turn: the escalation never skips a stage, and
    clearing afterwards returns the detector to its initial state. *)
Theorem strip_only_after_nudge (w : nat) (s : bool) (d : ToolLoopDetector) (g : bool) :
  reach w s d g →
  (consume_pending_action d).2 = StripTools →
  g = true ∧ s = true ∧ (0 < w)%nat ∧ clear_strip_tools (consume_pending_action d).1 = new w s.
Proof.
  intros [Hw Hs Hl Hf Hg Hi Hst Hso]%reach_ok. unfold consume_pending_action.
  destruct (stage d) eqn:E, (nudge_delivered d) eqn:En; simpl; try done; intros _.
  split; [congruence|]. split; [by apply Hso|]. split; [by apply Hst|].
  unfold clear_strip_tools. rewrite E. simpl. unfold new. by subst.
Qed.

(** The canonical form, and so the fingerprint, of the arguments does not
    depend on the order in which the keys of an object are met. *)
Theorem canonicalize_key_order `{FloatFormat} (hash_str : str → Z) (m m' : list (str * json)) :
  NoDup m.*1 → m ≡ₚ m' →
  canonicalize (JObject m) = canonicalize (JObject m') ∧
  hash_value hash_str (JObject m) = hash_value hash_str (JObject m').
Proof.
  intros Hn Hp.
  assert (canonicalize (JObject m) = canonicalize (JObject m')) as Hc; [|unfold hash_value; by rewrite Hc].
  simpl. set (f := λ '(k, v), (k, canonicalize v)).
  assert (∀ l : list (str * json), map fst (map f l) = l.*1) as Hf.
  { intros l. rewrite map_map. apply map_ext. by intros []. }
  assert (map f m ≡ₚ map f m') as Hpf by (by rewrite Hp).
  rewrite (merge_sort_perm _ (map fst (map f m'))) by (by rewrite Hpf).
  do 3 f_equal. apply map_ext. intros k. do 3 f_equal.
  rewrite (assoc_perm k (map f m) (map f m')); [done| |done]. unfold fmap, list_fmap. by rewrite Hf.
Qed.

(** * Witnesses *)

#[local] Existing Instance toy_format.

Definition demo_fp : ToolCallFingerprint :=
  fp_failure (λ s, Z.of_nat (length s)) "exec" (JObject []) (Some (lit "missing 'command'")).
Definition demo_run (n : nat) : ToolLoopDetector :=
  Nat.iter n (λ d, (record d demo_fp).1) (new 2 true).

Lemma demo_reach n : reach 2 true (demo_run n) false.
Proof. induction n; [constructor|]. apply (reach_record 2 true (demo_run n) false demo_fp IHn). Qed.

Lemma record_fires_on_loop_witness :
  (record (demo_run 1) demo_fp).2 = InjectNudge ∧
  length (recent (record (demo_run 1) demo_fp).1) = 2.
Proof.
  split; [vm_compute; reflexivity|].
  refine (proj1 (record_fires_on_loop 2 true (demo_run 1) false demo_fp (demo_reach 1) _)).
  vm_compute. discriminate.
Defined.

Lemma strip_only_after_nudge_witness :
  let d := (record (consume_pending_action (demo_run 2)).1 demo_fp).1 in
  (consume_pending_action d).2 = StripTools ∧
  clear_strip_tools (consume_pending_action d).1 = new 2 true.
Proof.
  cbv zeta. split; [vm_compute; reflexivity|].
  refine (proj2 (proj2 (proj2 (strip_only_after_nudge 2 true _ _
    (reach_record 2 true _ _ demo_fp (reach_consume 2 true _ _ (demo_reach 2))) _)))).
  vm_compute. reflexivity.
Defined.

Lemma canonicalize_key_order_witness :
  let a := (lit "a", JNull) in let b := (lit "b", JBool true) in
  canonicalize (JObject [a; b]) = canonicalize (JObject [b; a]).
Proof.
  refine (proj1 (canonicalize_key_order (λ _, 0%Z) [_; _] [_; _] _ _)).
  - vm_compute. repeat constructor; set_solver.
  - apply perm_swap.
Defined.
