(* ===== verification/Retry.v ===== *)
(** Retry of failed provider calls in the agent runner.

    Models [crates/agents/src/runner/retry.rs]: the classes of provider errors,
    the delay hints found in error messages and the retry budget of a run, and
    the part of the runner's loops ([runner/non_streaming.rs],
    [runner/streaming.rs]) that decides what to do with a failed call. *)
From S2P Require Import Prelude.
Local Open Scope Z_scope.

(** ** Classes of errors *)

Definition CONTEXT_WINDOW_PATTERNS : list str := map lit [
  "context_length_exceeded"; "context_window_exceeded"; "context_window_exceeded";
  "max_tokens"; "too many tokens"; "request too large"; "maximum context length";
  "context window"; "token limit"; "input too long"; "input_too_long";
  "content_too_large"; "request_too_large"]%string.

Definition RETRYABLE_SERVER_PATTERNS : list str := map lit [
  "http 500"; "http 502"; "http 503"; "http 529"; "server_error";
  "internal server error"; "overloaded"; "bad gateway"; "service unavailable";
  "the server had an error processing your request"]%string.

Definition RATE_LIMIT_PATTERNS : list str := map lit [
  "http 429"; "status=429"; "status 429"; "status: 429"; "too many requests";
  "rate limit"; "rate_limit"]%string.

Definition BILLING_QUOTA_PATTERNS : list str := map lit [
  "insufficient_quota"; "quota exceeded"; "current quota"; "billing details";
  "billing limit"; "credit balance"]%string.

(** [patterns.iter().any(|p| lower.contains(p))]. *)
Definition any_pattern (patterns : list str) (lower : str) : bool :=
  existsb (λ p, contains p lower) patterns.

Definition is_context_window_error `{Unicode} (msg : str) : bool :=
  any_pattern CONTEXT_WINDOW_PATTERNS (to_lowercase msg).
Definition is_retryable_server_error (msg : str) : bool :=
  any_pattern RETRYABLE_SERVER_PATTERNS (to_ascii_lowercase msg).
Definition is_rate_limit_error (msg : str) : bool :=
  any_pattern RATE_LIMIT_PATTERNS (to_ascii_lowercase msg).
Definition is_billing_quota_error (msg : str) : bool :=
  any_pattern BILLING_QUOTA_PATTERNS (to_ascii_lowercase msg).

(** ** Delays, in milliseconds *)

Definition SERVER_RETRY_DELAY_MS : Z := 2000.
Definition RATE_LIMIT_INITIAL_RETRY_MS : Z := 2000.
Definition RATE_LIMIT_MAX_RETRY_MS : Z := 60000.
Definition RATE_LIMIT_MAX_RETRIES : Z := 10.

Definition next_rate_limit_retry_ms (previous_ms : option Z) : Z :=
  clamp RATE_LIMIT_INITIAL_RETRY_MS RATE_LIMIT_MAX_RETRY_MS
    (unwrap_or RATE_LIMIT_INITIAL_RETRY_MS ((λ ms, sat_mul u64_bound ms 2) <$> previous_ms)).

Definition parse_retry_delay_ms_from_fragment (fragment : str) (unit_default_ms : bool)
    (max_ms : Z) : option Z :=
  start ← find_char is_ascii_digit fragment;
  let tail := drop start fragment in
  let digits := take_while is_ascii_digit tail in
  let digits_len := length digits in
  if (digits_len =? 0)%nat then None
  else
    amount ← parse_u64 (take digits_len tail);
    let unit := trim_start (drop digits_len tail) in
    let ms :=
      if starts_with "ms" unit || starts_with "millisecond" unit then amount
      else if starts_with "sec" unit || starts_with "second" unit || starts_with "s" unit
      then sat_mul u64_bound amount 1000
      else if starts_with "min" unit || starts_with "minute" unit || starts_with "m" unit
      then sat_mul u64_bound amount 60000
      else if unit_default_ms then amount
      else sat_mul u64_bound amount 1000 in
    Some (clamp 1 max_ms ms).

Definition hint_needles : list (str * bool) := [
  (lit "retry_after_ms=", true); (lit "retry-after-ms=", true);
  (lit "retry_after=", false); (lit "retry-after:", false);
  (lit "retry after ", false); (lit "retry in ", false)].

Fixpoint extract_from (needles : list (str * bool)) (lower : str) (max_ms : Z) : option Z :=
  match needles with
  | [] => None
  | (needle, default_ms) :: needles' =>
      match find needle lower with
      | Some idx =>
          let fragment := drop (idx + length needle) lower in
          match parse_retry_delay_ms_from_fragment fragment default_ms max_ms with
          | Some ms => Some ms
          | None => extract_from needles' lower max_ms
          end
      | None => extract_from needles' lower max_ms
      end
  end.

Definition extract_retry_after_ms (msg : str) (max_ms : Z) : option Z :=
  extract_from hint_needles (to_ascii_lowercase msg) max_ms.

(** ** The budget of a run *)

(** The three mutable variables the runner passes. *)
Record budget := {
  server_retries_remaining : Z;       (** u8 *)
  rate_limit_retries_remaining : Z;   (** u8 *)
  rate_limit_backoff_ms : option Z;
}.

Definition next_retry_delay_ms (msg : str) (b : budget) : option Z * budget :=
  if is_billing_quota_error msg then (None, b)
  else if is_rate_limit_error msg then
    if rate_limit_retries_remaining b =? 0 then (None, b)
    else
      let backoff := Some (next_rate_limit_retry_ms (rate_limit_backoff_ms b)) in
      let b' := {| server_retries_remaining := server_retries_remaining b;
                   rate_limit_retries_remaining := wrap u8_bound (rate_limit_retries_remaining b - 1);
                   rate_limit_backoff_ms := backoff |} in
      let hinted_ms := extract_retry_after_ms msg RATE_LIMIT_MAX_RETRY_MS in
      let delay_ms := unwrap_or RATE_LIMIT_INITIAL_RETRY_MS (or_else hinted_ms backoff) in
      (Some (clamp 1 RATE_LIMIT_MAX_RETRY_MS delay_ms), b')
  else if is_retryable_server_error msg then
    if server_retries_remaining b =? 0 then (None, b)
    else
      (Some SERVER_RETRY_DELAY_MS,
       {| server_retries_remaining := wrap u8_bound (server_retries_remaining b - 1);
          rate_limit_retries_remaining := rate_limit_retries_remaining b;
          rate_limit_backoff_ms := rate_limit_backoff_ms b |})
  else (None, b).

(** The values a run starts with. *)
Definition initial_budget : budget := {|
  server_retries_remaining := 1;
  rate_limit_retries_remaining := RATE_LIMIT_MAX_RETRIES;
  rate_limit_backoff_ms := None |}.

Definition DEFAULT_AGENT_MAX_ITERATIONS : Z := 25.
Definition resolve_agent_max_iterations (configured : Z) : Z :=
  if configured =? 0 then DEFAULT_AGENT_MAX_ITERATIONS else configured.

(** ** The runner's reaction to a failed call *)

Inductive error_reaction :=
| ContextWindowExceeded (msg : str)
| RetryAfter (delay_ms : Z)
| Other (msg : str).

Definition on_provider_error `{Unicode} (msg : str) (b : budget) : error_reaction * budget :=
  if is_context_window_error msg then (ContextWindowExceeded msg, b)
  else match next_retry_delay_ms msg b with
       | (Some delay_ms, b') => (RetryAfter delay_ms, b')
       | (None, b') => (Other msg, b')
       end.

(** Failed calls one after the other, as long as the runner retries: the
    delays slept and the error returned, if a call of the list is not retried. *)
Fixpoint run_failures `{Unicode} (msgs : list str) (b : budget) : list Z * option error_reaction :=
  match msgs with
  | [] => ([], None)
  | msg :: msgs' =>
      match on_provider_error msg b with
      | (RetryAfter delay_ms, b') =>
          let '(delays, r) := run_failures msgs' b' in (delay_ms :: delays, r)
      | (r, _) => ([], Some r)
      end
  end.

(** * Facts *)

Definition budget_ok (b : budget) : Prop :=
  0 ≤ server_retries_remaining b < u8_bound ∧ 0 ≤ rate_limit_retries_remaining b < u8_bound.

Lemma clamp_bounds lo hi x : lo ≤ hi → lo ≤ clamp lo hi x ≤ hi.
Proof. unfold clamp. intros. break; bools; lia. Qed.

Lemma clamp_id lo hi x : lo ≤ x ≤ hi → clamp lo hi x = x.
Proof. unfold clamp. intros. break; bools; lia. Qed.

Lemma wrap_pred x : 0 ≤ x < u8_bound → (x =? 0) = false → wrap u8_bound (x - 1) = x - 1.
Proof. unfold wrap, u8_bound. intros; bools. apply Z.mod_small. lia. Qed.

(** What a granted retry costs and how long it waits. *)
Lemma next_retry_spec msg b d b' :
  budget_ok b → next_retry_delay_ms msg b = (Some d, b') →
  budget_ok b' ∧ 1 ≤ d ≤ RATE_LIMIT_MAX_RETRY_MS ∧ is_billing_quota_error msg = false ∧
  (is_rate_limit_error msg = true ∧
     rate_limit_retries_remaining b' = rate_limit_retries_remaining b - 1 ∧
     server_retries_remaining b' = server_retries_remaining b ∧
     rate_limit_backoff_ms b' = Some (next_rate_limit_retry_ms (rate_limit_backoff_ms b))
   ∨ is_rate_limit_error msg = false ∧ is_retryable_server_error msg = true ∧
     d = SERVER_RETRY_DELAY_MS ∧
     server_retries_remaining b' = server_retries_remaining b - 1 ∧
     rate_limit_retries_remaining b' = rate_limit_retries_remaining b ∧
     rate_limit_backoff_ms b' = rate_limit_backoff_ms b).
Proof.
  intros [Hs Hr]. unfold next_retry_delay_ms.
  destruct (is_billing_quota_error msg); [done|].
  destruct (is_rate_limit_error msg); [|destruct (is_retryable_server_error msg); [|done]].
  - destruct (_ =? 0) eqn:E; [done|]. intros [= <- <-].
    pose proof (wrap_pred _ Hr E) as Hw. bools. unfold budget_ok; simpl. rewrite Hw.
    split; [lia|]. split; [apply clamp_bounds; by vm_compute|]. split; [done|]. by left.
  - destruct (_ =? 0) eqn:E; [done|]. intros [= <- <-].
    pose proof (wrap_pred _ Hs E) as Hw. bools. unfold budget_ok; simpl. rewrite Hw.
    split; [lia|]. split; [by vm_compute|]. split; [done|]. by right.
Qed.

(** What is left of the budget bounds the number of retries. *)
Definition budget_total (b : budget) : Z :=
  server_retries_remaining b + rate_limit_retries_remaining b.

Lemma retry_total msg b d b' :
  budget_ok b → next_retry_delay_ms msg b = (Some d, b') →
  budget_ok b' ∧ budget_total b' = budget_total b - 1 ∧ 1 ≤ d ≤ RATE_LIMIT_MAX_RETRY_MS.
Proof.
  intros Hb H. destruct (next_retry_spec _ _ _ _ Hb H) as (? & ? & ? & Hcase).
  unfold budget_total. intuition lia.
Qed.

Lemma on_error_retry `{Unicode} msg b d b' :
  on_provider_error msg b = (RetryAfter d, b') → next_retry_delay_ms msg b = (Some d, b').
Proof. unfold on_provider_error. intros Hr. by break_in Hr. Qed.

(** The retry loop of a run ends: with a budget of [n] retries at most [n]
    failed calls are retried, so that after more than [n] failures in a row the
    run returns an error; and every delay is at least a millisecond and at most
    a minute. *)
Theorem run_failures_bounded `{Unicode} (msgs : list str) (b : budget) :
  budget_ok b →
  let '(delays, r) := run_failures msgs b in
  Z.of_nat (length delays) ≤ budget_total b ∧
  Forall (λ d, 1 ≤ d ≤ RATE_LIMIT_MAX_RETRY_MS) delays ∧
  (budget_total b < Z.of_nat (length msgs) → isSome r = true).
Proof.
  revert b; induction msgs as [|msg msgs IH]; intros b Hb; simpl.
  - unfold budget_ok, budget_total in *. repeat split; [lia|constructor|lia].
  - destruct (on_provider_error msg b) as [r b'] eqn:E.
    destruct r as [m|d|m]; simpl;
      try (unfold budget_ok, budget_total in *; repeat split; [lia|constructor]).
    destruct (retry_total _ _ _ _ Hb (on_error_retry _ _ _ _ E)) as (Hb' & Ht & Hd).
    specialize (IH b' Hb'). destruct (run_failures msgs b') as [ds r]. simpl.
    destruct IH as (? & ? & Hr). repeat split; [lia|by constructor|].
    intros. apply Hr. lia.
Qed.

(** The exponential schedule. *)
Definition backoff_at (k : nat) : Z := Z.min (RATE_LIMIT_INITIAL_RETRY_MS * 2 ^ Z.of_nat k) RATE_LIMIT_MAX_RETRY_MS.
Definition backoff_before (k : nat) : option Z :=
  match k with 0%nat => None | S k' => Some (backoff_at k') end.

Lemma backoff_step k : next_rate_limit_retry_ms (backoff_before k) = backoff_at k.
Proof.
  destruct k as [|k]; [done|].
  unfold next_rate_limit_retry_ms, backoff_before, backoff_at; simpl.
  unfold sat_mul, u64_bound, RATE_LIMIT_INITIAL_RETRY_MS, RATE_LIMIT_MAX_RETRY_MS.
  rewrite Nat2Z.inj_succ, Z.pow_succ_r by lia.
  pose proof (Z.pow_pos_nonneg 2 (Z.of_nat k)) as Hp.
  rewrite (Z.min_l _ (2 ^ 64 - 1)) by lia.
  unfold clamp. break; bools; lia.
Qed.

Lemma backoff_range k : 1 ≤ backoff_at k ≤ RATE_LIMIT_MAX_RETRY_MS.
Proof.
  unfold backoff_at, RATE_LIMIT_INITIAL_RETRY_MS, RATE_LIMIT_MAX_RETRY_MS.
  pose proof (Z.pow_pos_nonneg 2 (Z.of_nat k)). lia.
Qed.

(** A rate-limit error the runner retries on its own schedule. *)
Definition plain_rate_limit `{Unicode} (msg : str) : bool :=
  negb (is_context_window_error msg) && negb (is_billing_quota_error msg) &&
  is_rate_limit_error msg && negb (isSome (extract_retry_after_ms msg RATE_LIMIT_MAX_RETRY_MS)).

Lemma plain_rate_limit_step `{Unicode} msg s r k :
  plain_rate_limit msg = true → 0 < r < u8_bound →
  on_provider_error msg {| server_retries_remaining := s; rate_limit_retries_remaining := r;
                           rate_limit_backoff_ms := backoff_before k |} =
  (RetryAfter (backoff_at k),
   {| server_retries_remaining := s; rate_limit_retries_remaining := r - 1;
      rate_limit_backoff_ms := backoff_before (S k) |}).
Proof.
  unfold plain_rate_limit. intros Hm Hr. bools.
  unfold on_provider_error, next_retry_delay_ms; simpl.
  replace (is_context_window_error msg) with false.
  replace (is_billing_quota_error msg) with false. replace (is_rate_limit_error msg) with true.
  destruct (Z.eqb_spec r 0); [lia|]. rewrite wrap_pred by (try apply Z.eqb_neq; lia).
  destruct (extract_retry_after_ms _ _); [done|]. simpl.
  by rewrite backoff_step, clamp_id by apply backoff_range.
Qed.

Lemma rate_limit_schedule_from `{Unicode} msgs s k :
  Forall (λ m, plain_rate_limit m = true) msgs → (length msgs + k ≤ 10)%nat →
  run_failures msgs {| server_retries_remaining := s;
                       rate_limit_retries_remaining := RATE_LIMIT_MAX_RETRIES - Z.of_nat k;
                       rate_limit_backoff_ms := backoff_before k |} =
  (map backoff_at (seq k (length msgs)), None).
Proof.
  revert k; induction msgs as [|m msgs IH]; intros k Hm Hk; [done|]. simpl in *.
  apply Forall_cons in Hm as [Hm Hms].
  rewrite plain_rate_limit_step by (try done; unfold RATE_LIMIT_MAX_RETRIES, u8_bound; lia).
  replace (RATE_LIMIT_MAX_RETRIES - Z.of_nat k - 1)
    with (RATE_LIMIT_MAX_RETRIES - Z.of_nat (S k)) by lia.
  by rewrite IH by (try done; lia).
Qed.

(** Up to ten rate-limit errors without a delay hint are all retried, the
    [k]-th after [min (2000 * 2^k) 60000] milliseconds. *)
Theorem rate_limit_schedule `{Unicode} (msgs : list str) :
  Forall (λ m, plain_rate_limit m = true) msgs → (length msgs ≤ 10)%nat →
  run_failures msgs initial_budget = (map backoff_at (seq 0 (length msgs)), None).
Proof. intros. by apply (rate_limit_schedule_from msgs 1 0); [|lia]. Qed.

(** * Witnesses *)

Lemma run_failures_bounded_witness :
  budget_ok initial_budget ∧
  (length (run_failures (H := ascii_unicode) (replicate 12 (lit "HTTP 429")) initial_budget).1 ≤ 11)%nat.
Proof.
  split; [by vm_compute|].
  pose proof (run_failures_bounded (H := ascii_unicode)
    (replicate 12 (lit "HTTP 429")) initial_budget ltac:(by vm_compute)) as Hb.
  destruct (run_failures _ _) as [ds r]. destruct Hb as [Hb _]. change (budget_total initial_budget) with 11 in Hb.
  simpl. lia.
Defined.

Lemma rate_limit_schedule_witness :
  run_failures (H := ascii_unicode) (replicate 7 (lit "HTTP 429")) initial_budget =
  ([2000; 4000; 8000; 16000; 32000; 60000; 60000], None).
Proof.
  refine (rate_limit_schedule (H := ascii_unicode) (replicate 7 (lit "HTTP 429")) _ _).
  - apply Forall_forall. intros m [-> _]%elem_of_replicate. vm_compute. reflexivity.
  - simpl. lia.
Defined.

Example hint_seconds : extract_retry_after_ms "Rate limit. Retry in 45 seconds" 60000 = Some 45000.
Proof. reflexivity. Qed.
