(* ===== verification/ToolRegistry.v ===== *)
(** Tool registries and the restriction of a request's tools.

    Models [crates/agents/src/tool_registry.rs], [crates/agents/src/lazy_tools.rs],
    [crates/chat/src/service/chat_impl/tool_policy.rs] (audience and policy of a request,
    the downgrade of a delayed one and the splitting of a queue) and
    [apply_runtime_tool_filters] of [crates/chat/src/prompt.rs].

    A registry is two finite maps by name, as in the source; the [activated] one is shared with
    the [tool_search] tool of a lazy registry.  A tool is the search tool, whose code is here, or
    any other implementation of the trait, which the registry knows by its name, description and
    schema.  Reading a [HashMap] in an arbitrary order is [map_to_list]; every such list is
    sorted before it leaves the registry.

    Theorems: what an untrusted request can reach, in a lazy registry too, whatever is searched
    and activated ([public_request_tools]); who owns a name ([first_registration_wins]).  The
    splitting of a queue is used, and proved right, in ChatQueue.v. *)
From Stdlib Require Import SpecFloat.
From S2P Require Import Prelude Json Http Policy.

Inductive ToolSource :=
| Builtin
| Mcp (server : McpServerId)
| Wasm (component_hash : list N).

Inductive ToolAudience := Public | Trusted.

Global Instance ToolAudience_eq_dec : EqDecision ToolAudience.
Proof. solve_decision. Defined.

Definition allows (self required : ToolAudience) : bool :=
  match self, required with
  | Trusted, _ => true
  | _, Public => true
  | _, _ => false
  end.

Definition audience_as_str (a : ToolAudience) : str :=
  match a with Public => "public" | Trusted => "trusted" end.

(** [Arc<dyn AgentTool>] and the registry's entries.  [ToolSearch] holds the two maps of the
    registry it searches. *)
Inductive AgentTool :=
| External (n d : str) (schema : json)
| ToolSearch (full_tools full_activated : gmap str ToolEntry)
with ToolEntry :=
| Entry (t : AgentTool) (s : ToolSource) (a : ToolAudience).

Definition tool (e : ToolEntry) : AgentTool := let 'Entry t _ _ := e in t.
Definition source (e : ToolEntry) : ToolSource := let 'Entry _ s _ := e in s.
Definition audience (e : ToolEntry) : ToolAudience := let 'Entry _ _ a := e in a.

Definition string_property (description : string) : json :=
  JObject [(lit "type", JString "string"); (lit "description", JString description)].

(** The methods [name], [description] and [parameters_schema]. *)
Definition tool_name (t : AgentTool) : str :=
  match t with External n _ _ => n | ToolSearch _ _ => "tool_search" end.
Definition tool_description (t : AgentTool) : str :=
  match t with
  | External _ d _ => d
  | ToolSearch _ _ => lit "Search for available tools by keyword, or activate a specific tool by exact name. Use `query` to find tools (returns name + description, max 15 results). Use `name` to activate a tool and get its full parameter schema."
  end.
Definition parameters_schema (t : AgentTool) : json :=
  match t with
  | External _ _ s => s
  | ToolSearch _ _ =>
      JObject [(lit "type", JString "object");
               (lit "properties", JObject [
                 (lit "query", string_property "Keyword to search tool names and descriptions");
                 (lit "name", string_property "Exact tool name to activate (returns full schema)")]);
               (lit "additionalProperties", JBool false)]
  end.

Record ToolRegistry := {
  tools : gmap str ToolEntry;
  activated : gmap str ToolEntry;
}.

Definition new : ToolRegistry := {| tools := ∅; activated := ∅ |}.
Definition with_tools (r : ToolRegistry) (m : gmap str ToolEntry) : ToolRegistry :=
  {| tools := m; activated := activated r |}.

Definition is_empty (r : ToolRegistry) : bool :=
  bool_decide (tools r = ∅) && bool_decide (activated r = ∅).

(** ** Registration *)

Definition insert (r : ToolRegistry) (t : AgentTool) (s : ToolSource) (a : ToolAudience) : ToolRegistry :=
  match tools r !! tool_name t with
  | Some _ => r
  | None => with_tools r (<[tool_name t := Entry t s a]> (tools r))
  end.

Definition register_builtin (r : ToolRegistry) (t : AgentTool) (a : ToolAudience) : ToolRegistry :=
  insert r t Builtin a.
Definition register (r : ToolRegistry) (t : AgentTool) : ToolRegistry := register_builtin r t Trusted.
Definition register_public (r : ToolRegistry) (t : AgentTool) : ToolRegistry := register_builtin r t Public.
Definition register_mcp (r : ToolRegistry) (t : AgentTool) (server : McpServerId) : ToolRegistry :=
  insert r t (Mcp server) Trusted.
Definition register_wasm (r : ToolRegistry) (t : AgentTool) (component_hash : list N) : ToolRegistry :=
  insert r t (Wasm component_hash) Trusted.

Definition replace (r : ToolRegistry) (t : AgentTool) : ToolRegistry * bool :=
  let old := tools r !! tool_name t in
  let '(s, a) := unwrap_or (Builtin, Trusted) ((λ e, (source e, audience e)) <$> old) in
  (with_tools r (<[tool_name t := Entry t s a]> (tools r)), isSome old).

Definition unregister (r : ToolRegistry) (name : str) : ToolRegistry * bool :=
  (with_tools r (delete name (tools r)), isSome (tools r !! name)).

Definition is_mcp (e : ToolEntry) : bool := match source e with Mcp _ => true | _ => false end.

Definition unregister_mcp (r : ToolRegistry) : ToolRegistry * nat :=
  let kept := filter (λ p, is_mcp p.2 = false) (tools r) in
  (with_tools r kept, size (tools r) - size kept).

(** ** Reading *)

Definition find_entry (r : ToolRegistry) (name : str) : option ToolEntry :=
  match tools r !! name with Some e => Some e | None => activated r !! name end.
Definition get (r : ToolRegistry) (name : str) : option AgentTool := tool <$> find_entry r name.
Definition get_source (r : ToolRegistry) (name : str) : option ToolSource := source <$> tools r !! name.
Definition get_audience (r : ToolRegistry) (name : str) : option ToolAudience := audience <$> tools r !! name.

Definition is_public_tool_name (name : str) : bool := negb (ends_with "_wasm" name).

Definition entry_to_schema (e : ToolEntry) : json :=
  JObject ([(lit "name", JString (tool_name (tool e)));
            (lit "description", JString (tool_description (tool e)));
            (lit "parameters", parameters_schema (tool e));
            (lit "audience", JString (audience_as_str (audience e)))] ++
    match source e with
    | Builtin => [(lit "source", JString "builtin")]
    | Mcp server => [(lit "source", JString "mcp"); (lit "mcpServer", JString server)]
    | Wasm h => [(lit "source", JString "wasm"); (lit "componentHash", JString (hex_encode h))]
    end).

(** The entries a listing sees: the static ones, then the activated ones they do not shadow. *)
Definition visible (r : ToolRegistry) : list (str * ToolEntry) :=
  filter (λ p, is_public_tool_name p.1 = true) (map_to_list (tools r)) ++
  filter (λ p, tools r !! p.1 = None ∧ is_public_tool_name p.1 = true) (map_to_list (activated r)).

Definition schema_name (schema : json) : option str := Json.get "name" schema ≫= as_str.
Definition schema_le (a b : json) : Prop :=
  str_leP (unwrap_or [] (schema_name a)) (unwrap_or [] (schema_name b)).
Global Instance schema_le_dec : RelDecision schema_le := λ a b, decide (str_leP _ _).

Definition list_schemas (r : ToolRegistry) : list json :=
  merge_sort schema_le (map (λ p, entry_to_schema p.2) (visible r)).
Definition list_schemas_allowed_by (r : ToolRegistry) (predicate : str → bool) : list json :=
  filter (λ s, is_some_and predicate (schema_name s) = true) (list_schemas r).
Definition list_names (r : ToolRegistry) : list str := merge_sort str_leP (map fst (visible r)).

(** ** Copies *)

(** A copy of the static tools that pass [keep], with nothing activated. *)
Definition clone_filtered (r : ToolRegistry) (keep : str → ToolEntry → bool) : ToolRegistry :=
  {| tools := filter (λ p, keep p.1 p.2 = true) (tools r); activated := ∅ |}.

Definition clone_without_prefix (r : ToolRegistry) (prefix : str) : ToolRegistry :=
  clone_filtered r (λ n _, negb (starts_with prefix n)).
Definition clone_without_mcp (r : ToolRegistry) : ToolRegistry := clone_filtered r (λ _ e, negb (is_mcp e)).
Definition clone_without (r : ToolRegistry) (exclude : list str) : ToolRegistry :=
  clone_filtered r (λ n _, negb (bool_decide (n ∈ exclude))).
Definition clone_allowed_entries (r : ToolRegistry) (predicate : str → ToolSource → bool) : ToolRegistry :=
  clone_filtered r (λ n e, predicate n (source e)).
Definition clone_allowed_by (r : ToolRegistry) (predicate : str → bool) : ToolRegistry :=
  clone_allowed_entries r (λ n _, predicate n).
Definition clone_for_audience (r : ToolRegistry) (a : ToolAudience) : ToolRegistry :=
  clone_filtered r (λ _ e, allows a (audience e)).
(** [HashMap::extend]: the other registry's entries win. *)
Definition extend_from (r other : ToolRegistry) : ToolRegistry := with_tools r (tools other ∪ tools r).

(** * The search tool *)

Section search.
Context `{Unicode}.

Definition MAX_SEARCH_RESULTS : nat := 15.

Definition score (query name desc : str) : nat :=
  let query_lower := to_lowercase query in
  let name_lower := to_lowercase name in
  if str_eqb name_lower query_lower then 100
  else if contains query_lower name_lower then 50
  else 10 * length (filter (λ w, contains w name_lower || contains w (to_lowercase desc) = true)
                      (split_whitespace query_lower)).

(** By descending score, then by name. *)
Definition result_le (a b : str * str * nat) : Prop :=
  b.2 < a.2 ∨ b.2 = a.2 ∧ str_leP a.1.1 b.1.1.
Global Instance result_le_dec : RelDecision result_le := λ a b, _.

Definition keyword_search (full : ToolRegistry) (query : str) : list (str * str * nat) :=
  let results := omap (λ name,
    t ← get full name;
    let s := score query name (tool_description t) in
    if 0 <? s then Some (name, tool_description t, s) else None) (list_names full) in
  take MAX_SEARCH_RESULTS (merge_sort result_le results).

Definition result_item (r : str * str * nat) : json :=
  JObject [(lit "name", JString r.1.1); (lit "description", JString r.1.2)].

(** The names of the connected servers, as a [BTreeSet] lists them. *)
Definition mcp_servers (full : ToolRegistry) : list str :=
  merge_sort str_leP (remove_dups (omap (λ schema,
    s ← Json.get "source" schema ≫= as_str;
    if str_eqb s "mcp" then Json.get "mcpServer" schema ≫= as_str else None) (list_schemas full))).

Definition unknown_tool_response (full : ToolRegistry) (name : str) : json :=
  JObject [(lit "activated", JBool false);
           (lit "name", JString name);
           (lit "error", JString (lit "unknown tool: " ++ name));
           (lit "suggestions", JArray (map result_item (keyword_search full name)));
           (lit "mcpServers", JArray (map JString (mcp_servers full)));
           (lit "hint", JString "The `name` field must be an exact tool name from search results or Available Tools. Skills are not tools. For connected MCP servers, search with query set to the server or domain name, then activate the exact `mcp__<server>__<tool>` name.")].

Definition activate_tool (full : ToolRegistry) (act : gmap str ToolEntry) (name : str)
    : json * gmap str ToolEntry :=
  match get full name with
  | None => (unknown_tool_response full name, act)
  | Some t =>
      let s := unwrap_or Builtin (get_source full name) in
      let a := unwrap_or Trusted (get_audience full name) in
      (JObject [(lit "activated", JBool true);
                (lit "name", JString name);
                (lit "description", JString (tool_description t));
                (lit "parameters", parameters_schema t);
                (lit "hint", JString (lit "Tool `" ++ name ++ lit "` is now available. Call it directly on your next turn."))],
       <[name := Entry t s a]> act)
  end.

(** [ToolSearchTool::execute]. *)
Definition search_execute (full : ToolRegistry) (act : gmap str ToolEntry) (params : json)
    : result json str * gmap str ToolEntry :=
  match Json.get "name" params ≫= as_str, Json.get "query" params ≫= as_str with
  | Some name, _ => let '(v, act') := activate_tool full act name in (Ok v, act')
  | None, Some query =>
      (Ok (JObject [(lit "results", JArray (map result_item (keyword_search full query)));
                    (lit "hint", JString "To use a tool, call tool_search again with `name` set to the exact tool name.")]), act)
  | None, None => (Err (lit "Provide either `name` (to activate a tool) or `query` (to search)."), act)
  end.

Definition wrap_registry_lazy (full : ToolRegistry) : ToolRegistry :=
  if is_empty full then full
  else register_public new (ToolSearch (tools full) (activated full)).

(** What running a tool of a registry does to the registry: the search tool may activate one
    more; other implementations have no access to it. *)
Definition execute_in (r : ToolRegistry) (t : AgentTool) (params : json)
    (external : result json str) : result json str * ToolRegistry :=
  match t with
  | ToolSearch full_tools full_activated =>
      let '(v, act) := search_execute {| tools := full_tools; activated := full_activated |}
                         (activated r) params in
      (v, {| tools := tools r; activated := act |})
  | External _ _ _ => (external, r)
  end.
End search.

(** * Restrictions of a request *)

Section request.
(** [serde_json::from_value::<ToolPolicy>]. *)
Context (policy_from_value : json → result ToolPolicy str).

Definition parse_request_tool_policy (params : json) : result (option ToolPolicy) str :=
  match Json.get "_tool_policy" params with
  | None => Ok None
  | Some v => map_err (app "invalid '_tool_policy' parameter: ")
                (match policy_from_value v with Ok p => Ok (Some p) | Err e => Err e end)
  end.

Definition parse_request_tool_audience (params : json) : result ToolAudience str :=
  match Json.get "_tool_audience" params with
  | None => Ok Trusted
  | Some (JString value) =>
      if str_eqb value "public" then Ok Public
      else Err (lit "invalid '_tool_audience' parameter: expected 'public'")
  | Some _ => Err (lit "invalid '_tool_audience' parameter: expected 'public'")
  end.

(** [params[k] = v]: inserts into an object and makes one of [null]; it panics on any other
    value, which [None] stands for. *)
Definition index_set (k : str) (v : json) (params : json) : option json :=
  match params with
  | JObject m => Some (JObject (insert_assoc k v m))
  | JNull => Some (JObject [(k, v)])
  | _ => None
  end.

Definition deny_all : json := JObject [(lit "deny", JArray [JString "*"])].

Definition apply_untrusted_request_context (params : json) : option json :=
  p ← index_set "_tool_audience" (JString "public") params;
  p ← index_set "_tool_policy" deny_all p;
  index_set "_private_context" (JBool false) p.

(** [is_some_and(Value::is_object)]. *)
Definition channel_bound (params : json) : bool :=
  is_some_and (λ c, isSome (as_object c)) (Json.get "channel" params).

Definition downgrade_queued_channel_request (params : json) (private_context : bool) : option (json * bool) :=
  if negb private_context || negb (channel_bound params) then Some (params, false)
  else p ← apply_untrusted_request_context params; Some (p, true).

Definition resolve_request_tool_registry (base : ToolRegistry) (policy : option ToolPolicy)
    (a : ToolAudience) : ToolRegistry :=
  if negb (isSome policy) && bool_decide (a = Trusted) then base
  else
    let audience_registry := clone_for_audience base a in
    match policy with
    | Some policy => clone_allowed_by audience_registry (is_allowed policy)
    | None => audience_registry
    end.

Definition allows_private_context (params : json) : bool :=
  if bool_decide (Json.get "_tool_audience" params ≫= as_str = Some (lit "public")) then false
  else match Json.get "_private_context" params with
       | None => true
       | Some (JBool value) => value
       | Some _ => false
       end.
End request.

(** ** Groups of delayed messages *)

(** [json!] of an [Option<&Value>]. *)
Definition option_value (o : option json) : json := unwrap_or JNull o.

Definition reply_scope (target : json) : json :=
  JObject (map (λ k, (k, option_value (Json.get k target)))
    (map lit ["channel_type"; "account_id"; "chat_id"; "thread_id"; "message_id"]%string)).

Definition request_security_context (params : json)
    : option json * option json * bool * option json * option json :=
  (Json.get "_tool_audience" params, Json.get "_tool_policy" params, allows_private_context params,
   Json.get "channel" params ≫= Json.get "sender_id",
   reply_scope <$> Json.get "_channel_reply_target" params).

Definition option_eqb {A} (f : A → A → bool) (a b : option A) : bool :=
  match a, b with Some x, Some y => f x y | None, None => true | _, _ => false end.

Definition same_context (p q : json) : bool :=
  let '(a, b, c, d, e) := request_security_context p in
  let '(a', b', c', d', e') := request_security_context q in
  option_eqb json_eqb a a' && option_eqb json_eqb b b' && Bool.eqb c c' &&
  option_eqb json_eqb d d' && option_eqb json_eqb e e'.

(** [QueuedMessage] is its params. *)
Definition split_by_request_security_context (queued : list json) : list json * list json :=
  match queued with
  | [] => ([], [])
  | head :: _ =>
      let split := unwrap_or (length queued)
        (fst <$> list_find (λ message, same_context message head = false) queued) in
      (take split queued, drop split queued)
  end.

(** * The filters of a run *)

Section runtime.
Context (account_tools : json → option ChannelToolPolicyOverride).

Definition preset_mcp_allow (config : MoltisConfig json) (context : PolicyContext) : option (list McpServerId) :=
  p ← get_preset config (agent_id context);
  match preset_mcp p with McpAllow servers => Some servers | _ => None end.

Definition apply_runtime_tool_filters (base : ToolRegistry) (config : MoltisConfig json)
    (mcp_disabled : bool) (context : PolicyContext) : ToolRegistry :=
  let base_registry := if mcp_disabled then clone_without_mcp base else clone_without base [] in
  let policy := resolve_effective_policy account_tools config context in
  let mcp_allow := preset_mcp_allow config context in
  clone_allowed_entries base_registry (λ name source,
    if negb (is_allowed policy name) then false
    else match mcp_allow, source with
         | Some allowed_servers, Mcp server => existsb (str_eqb server) allowed_servers
         | _, _ => true
         end).
End runtime.

(** ** The registry of a turn

    What [run_with_tools] makes of the registry of the request; [install] is
    [install_agent_scoped_memory_tools], for a turn with private context. *)
Section turn.
Context (account_tools : json → option ChannelToolPolicyOverride) (install : ToolRegistry → ToolRegistry).

Record TurnSettings := {
  tools_enabled : bool;
  mcp_disabled : bool;
  lazy_mode : bool;
  config : MoltisConfig json;
  policy_ctx : PolicyContext;
}.

Definition turn_registry (s : TurnSettings) (private_context : bool) (request_registry : ToolRegistry) : ToolRegistry :=
  let filtered :=
    if tools_enabled s
    then apply_runtime_tool_filters account_tools request_registry (config s) (mcp_disabled s) (policy_ctx s)
    else clone_without request_registry [] in
  let filtered := if private_context && tools_enabled s then install filtered else filtered in
  if tools_enabled s && lazy_mode s then wrap_registry_lazy filtered else filtered.
End turn.

(** * Specification *)

(** The registries the program builds from implementations of its own, of servers and of
    components. *)
Inductive built : ToolRegistry → Prop :=
| built_new : built new
| built_builtin r n d s a : built r → built (register_builtin r (External n d s) a)
| built_mcp r n d s server : built r → built (register_mcp r (External n d s) server)
| built_wasm r n d s h : built r → built (register_wasm r (External n d s) h)
| built_replace r n d s : built r → built (replace r (External n d s)).1
| built_unregister r n : built r → built (unregister r n).1
| built_unregister_mcp r : built r → built (unregister_mcp r).1
| built_clone r keep : built r → built (clone_filtered r keep)
| built_extend r other : built r → built other → built (extend_from r other).

(** A registry after some of its tools have run, each looked up now or before others of its batch
    ran. *)
Inductive ran `{Unicode} (r : ToolRegistry) : ToolRegistry → Prop :=
| ran_nothing : ran r r
| ran_tool r' r'' n t params external :
    ran r r' → ran r r'' → get r'' n = Some t → ran r (execute_in r' t params external).2.

Definition external (t : AgentTool) : Prop := match t with External _ _ _ => True | _ => False end.

(** What holds of every entry of a built registry. *)
Definition entry_ok (n : str) (e : ToolEntry) : Prop :=
  tool_name (tool e) = n ∧ external (tool e) ∧ (audience e = Public → source e = Builtin).

(** Every entry of the registry, or of the registry its search tool searches, satisfies [P]. *)
Definition flat (P : str → ToolEntry → Prop) (r : ToolRegistry) : Prop :=
  (∀ n e, tools r !! n = Some e → P n e ∧ external (tool e)) ∧ activated r = ∅.
Definition lazily (P : str → ToolEntry → Prop) (r : ToolRegistry) : Prop :=
  ∃ full, flat P full ∧
    tools r = {[ lit "tool_search" := Entry (ToolSearch (tools full) (activated full)) Builtin Public ]} ∧
    (∀ n e, activated r !! n = Some e → P n e ∧ external (tool e)).

(** * Facts *)

Lemma lookup_clone r keep n e :
  tools (clone_filtered r keep) !! n = Some e ↔ tools r !! n = Some e ∧ keep n e = true.
Proof. simpl. by rewrite map_lookup_filter_Some. Qed.

Lemma insert_lookup r t s a n :
  tools (insert r t s a) !! n =
  match tools r !! n with
  | Some e => Some e
  | None => if bool_decide (tool_name t = n) then Some (Entry t s a) else None
  end.
Proof.
  unfold insert. destruct (tools r !! tool_name t) as [e|] eqn:E; simpl.
  - case_bool_decide as Hn; [subst; by rewrite E|]. by destruct (tools r !! n).
  - case_bool_decide as Hn; [subst; by rewrite E, lookup_insert_eq|].
    rewrite lookup_insert_ne by done. by destruct (tools r !! n).
Qed.

Lemma insert_activated r t s a : activated (insert r t s a) = activated r.
Proof. unfold insert. by destruct (tools r !! tool_name t). Qed.

Lemma built_ok r : built r → activated r = ∅ ∧ ∀ n e, tools r !! n = Some e → entry_ok n e.
Proof.
  assert (Hins : ∀ r t s a, activated r = ∅ ∧ (∀ n e, tools r !! n = Some e → entry_ok n e) →
    external t → (a = Public → s = Builtin) →
    activated (insert r t s a) = ∅ ∧ ∀ n e, tools (insert r t s a) !! n = Some e → entry_ok n e).
  { intros r0 t s a [Ha Ht] He Hp. rewrite insert_activated. split; [done|].
    intros n e. rewrite insert_lookup. destruct (tools r0 !! n) eqn:E; [intros [= <-]; by apply Ht|].
    case_bool_decide; [|done]. intros [= <-]. done. }
  induction 1 as [|r n d s a H IH|r n d s sv H IH|r n d s h H IH|r n d s H IH|r n H IH|r H IH|r keep H IH
                 |r o H [Ha IH] H' [Ha' IH']].
  - done.
  - by apply Hins.
  - by apply Hins.
  - by apply Hins.
  - destruct IH as [Ha IH]. unfold replace; simpl. split.
    + destruct (tools r !! n); simpl; done.
    + intros m e. destruct (tools r !! n) as [[t' s' a']|] eqn:E; simpl;
        (destruct (decide (n = m)) as [->|Hn]; [rewrite lookup_insert_eq|rewrite lookup_insert_ne by done; by apply IH]).
      * intros [= <-]. split_and!; [done..|]. simpl. by apply (IH m _ E).
      * by intros [= <-].
  - destruct IH as [Ha IH]. split; [done|]. simpl. intros m e [? ?]%lookup_delete_Some. by apply IH.
  - destruct IH as [Ha IH]. split; [done|]. simpl. intros m e [? ?]%map_lookup_filter_Some. by apply IH.
  - destruct IH as [Ha IH]. split; [done|]. intros m e [? ?]%lookup_clone. by apply IH.
  - split; [done|]. simpl. intros n e [He|[_ He]]%lookup_union_Some_raw; [by apply IH'|by apply IH].
Qed.

(** ** What a lazy registry can reach *)

Section reach.
Context `{Unicode} (P : str → ToolEntry → Prop).

Lemma flat_find r n e : flat P r → find_entry r n = Some e → P n e ∧ external (tool e).
Proof.
  intros [Ht Ha]. unfold find_entry. destruct (tools r !! n) eqn:E; [intros [= <-]; by apply Ht|].
  by rewrite Ha, lookup_empty.
Qed.

Lemma flat_clone r keep : flat P r → flat P (clone_filtered r keep).
Proof. intros [Ht Ha]. split; [|done]. intros n e [? _]%lookup_clone. by apply Ht. Qed.

Lemma flat_wrap r : flat P r → flat P (wrap_registry_lazy r) ∨ lazily P (wrap_registry_lazy r).
Proof.
  intros Hf. unfold wrap_registry_lazy. destruct (is_empty r); [by left|]. right.
  exists r. split; [done|]. split.
  - reflexivity.
  - unfold register_public, register_builtin. rewrite insert_activated. intros n e He.
    change (activated new) with (∅ : gmap str ToolEntry) in He. by rewrite lookup_empty in He.
Qed.

(** Activation copies an entry of the searched registry, with its metadata. *)
Lemma search_activates full act params v act' n e :
  flat P full → search_execute full act params = (v, act') → act' !! n = Some e →
  act !! n = Some e ∨ P n e ∧ external (tool e).
Proof.
  intros Hf. unfold search_execute, activate_tool.
  destruct (Json.get "name" params ≫= as_str) as [m|]; [|by destruct (_ ≫= _); intros [= <- <-]; left].
  unfold get. destruct (find_entry full m) as [e0|] eqn:E; simpl; [|intros [= <- <-]; by left].
  intros [= <- <-]. destruct (decide (m = n)) as [->|Hn]; [|rewrite lookup_insert_ne by done; by left].
  rewrite lookup_insert_eq. intros [= <-]. right.
  destruct (flat_find _ _ _ Hf E) as [HP He]. destruct Hf as [_ Ha].
  unfold find_entry in E. unfold get_source, get_audience.
  destruct (tools full !! n) as [e1|]; [|by rewrite Ha, lookup_empty in E].
  simplify_eq/=. by destruct e0.
Qed.

Lemma ran_flat r r' : flat P r → ran r r' → r' = r.
Proof.
  intros Hf. induction 1 as [|r' r'' n t params ext _ IH _ IH' Hg]; [done|]. subst r' r''.
  unfold get in Hg. destruct (find_entry r n) as [e|] eqn:E; [|done]. simplify_eq/=.
  destruct (flat_find _ _ _ Hf E) as [_ He]. by destruct (tool e).
Qed.

Lemma ran_lazily r r' : lazily P r → ran r r' → lazily P r'.
Proof.
  intros Hl. induction 1 as [|r' r'' n t params ext _ IH _ IH' Hg]; [done|].
  destruct IH as (full & Hf & Ht & Ha), IH' as (full' & Hf' & Ht' & Ha'). unfold get in Hg.
  destruct (find_entry r'' n) as [e|] eqn:E; [|done]. simplify_eq/=.
  unfold find_entry in E. rewrite Ht' in E.
  destruct (decide (n = lit "tool_search")) as [->|Hn].
  - rewrite lookup_singleton_eq in E. simplify_eq/=. exists full. split; [done|]. split; [|].
    + by destruct (search_execute _ _ _).
    + intros m e. destruct full' as [ft fa]. simpl.
      destruct (search_execute _ (activated r') params) as [v act] eqn:Es. simpl. intros He.
      destruct (search_activates _ _ _ _ _ _ _ Hf' Es He); [by apply Ha|done].
  - rewrite lookup_singleton_ne in E by done. destruct (Ha' _ _ E) as [_ He].
    destruct (tool e); [|done]. by exists full.
Qed.

(** Whatever has run, a name leads to an entry of the registry, or to the search tool. *)
Lemma ran_get r r' n t :
  flat P r ∨ lazily P r → ran r r' → get r' n = Some t →
  (n = lit "tool_search" ∧ ¬ external t ∧ lazily P r) ∨ ∃ e, P n e ∧ t = tool e.
Proof.
  intros [Hf|Hl] Hr Hg; unfold get in Hg; destruct (find_entry r' n) as [e|] eqn:E; simplify_eq/=.
  - rewrite (ran_flat _ _ Hf Hr) in E. right. exists e. split; [|done]. by eapply flat_find.
  - destruct (ran_lazily _ _ Hl Hr) as (full & Hf & Ht & Ha).
    unfold find_entry in E. rewrite Ht in E. destruct (decide (n = lit "tool_search")) as [->|Hn].
    + rewrite lookup_singleton_eq in E. simplify_eq/=. left. split_and!; [done|by intros []|done].
    + rewrite lookup_singleton_ne in E by done. right. exists e. split; [|done]. by apply Ha.
Qed.
End reach.

Lemma flat_mono (P Q : str → ToolEntry → Prop) r : (∀ n e, P n e → Q n e) → flat P r → flat Q r.
Proof. intros HPQ [Ht Ha]. split; [|done]. intros n e He. destruct (Ht n e He). auto. Qed.

(** A copy satisfies what it filters by. *)
Lemma flat_filter P r keep : flat P r → flat (λ n e, P n e ∧ keep n e = true) (clone_filtered r keep).
Proof. intros [Ht Ha]. split; [|done]. intros n e [He Hk]%lookup_clone. destruct (Ht n e He). done. Qed.

Lemma built_flat r : built r → flat (λ n e, tools r !! n = Some e ∧ (audience e = Public → source e = Builtin)) r.
Proof.
  intros Hb. destruct (built_ok r Hb) as [Ha Ht]. split; [|done].
  intros n e He. destruct (Ht n e He) as (_ & Hx & Hp). done.
Qed.

(** An untrusted request has no private context. *)
Lemma audience_public params :
  parse_request_tool_audience params = Ok Public → allows_private_context params = false.
Proof.
  unfold parse_request_tool_audience, allows_private_context.
  destruct (Json.get "_tool_audience" params) as [[]|]; simpl; try done.
  destruct (str_eqb _ _) eqn:E; [|done]. apply str_eqb_true in E as ->. by rewrite bool_decide_eq_true_2.
Qed.

(** What the resolved registry of an untrusted request holds. *)
Definition public_entry (base : ToolRegistry) (policy : option ToolPolicy) (n : str) (e : ToolEntry) : Prop :=
  tools base !! n = Some e ∧ audience e = Public ∧ source e = Builtin ∧
  (∀ p, policy = Some p → is_allowed p n = true).

Lemma resolve_public base policy :
  built base → flat (public_entry base policy) (resolve_request_tool_registry base policy Public).
Proof.
  intros Hb. pose proof (flat_filter _ _ (λ _ e, allows Public (audience e)) (built_flat _ Hb)) as Hf.
  unfold resolve_request_tool_registry. rewrite andb_false_r. destruct policy as [p|].
  - apply (flat_filter _ _ (λ n _, is_allowed p n)) in Hf. revert Hf. apply flat_mono.
    intros n e [[[Ht Hs] Ha] Hp]. destruct (audience e) eqn:E; [|done].
    split_and!; auto. by intros ? [= <-].
  - revert Hf. apply flat_mono. intros n e [[Ht Hs] Ha]. destruct (audience e) eqn:E; [|done].
    split_and!; auto. done.
Qed.

Lemma runtime_filters at_ P r cfg mcp ctx :
  flat P r →
  flat (λ n e, P n e ∧ is_allowed (resolve_effective_policy at_ cfg ctx) n = true)
    (apply_runtime_tool_filters at_ r cfg mcp ctx).
Proof.
  intros Hf. unfold apply_runtime_tool_filters, clone_allowed_entries.
  assert (Hb : flat P (if mcp then clone_without_mcp r else clone_without r [])).
  { destruct mcp; by apply flat_clone. }
  apply (flat_filter _ _ (λ n e, if negb (is_allowed (resolve_effective_policy at_ cfg ctx) n) then false
    else match preset_mcp_allow cfg ctx, source e with
         | Some l, Mcp server => existsb (str_eqb server) l | _, _ => true end)) in Hb.
  revert Hb. apply flat_mono. intros n e [HP Hk]. split; [done|].
  by destruct (is_allowed _ n).
Qed.

(** Every name of an untrusted turn leads to a reviewed tool. *)
Lemma public_turn `{Unicode} at_ install policy_from_value base params policy s r n t :
  built base →
  parse_request_tool_audience params = Ok Public →
  parse_request_tool_policy policy_from_value params = Ok policy →
  ran (turn_registry at_ install s (allows_private_context params)
         (resolve_request_tool_registry base policy Public)) r →
  get r n = Some t →
  (n = lit "tool_search" ∧ ¬ external t ∧ lazy_mode s = true) ∨
  ∃ e, tools base !! n = Some e ∧ t = tool e ∧ audience e = Public ∧ source e = Builtin ∧
    (∀ p, policy = Some p → is_allowed p n = true) ∧
    (tools_enabled s = true → is_allowed (resolve_effective_policy at_ (config s) (policy_ctx s)) n = true).
Proof.
  intros Hb Ha Hp Hran Hg. rewrite (audience_public _ Ha) in Hran. unfold turn_registry in Hran. simpl in Hran.
  pose proof (resolve_public base policy Hb) as Hf.
  set (eff := λ n, is_allowed (resolve_effective_policy at_ (config s) (policy_ctx s)) n = true).
  set (Q := λ n e, public_entry base policy n e ∧ (tools_enabled s = true → eff n)).
  set (filtered := if tools_enabled s then _ else _) in Hran.
  assert (HQ : flat Q filtered).
  { unfold filtered. destruct (tools_enabled s) eqn:Ee.
    - eapply flat_mono; [|apply runtime_filters, Hf]. intros m e [? ?]. by split.
    - eapply flat_mono; [|apply flat_clone, Hf]. intros m e ?. by split. }
  assert (Hl : flat Q (if tools_enabled s && lazy_mode s then wrap_registry_lazy filtered else filtered) ∨
               lazily Q (if tools_enabled s && lazy_mode s then wrap_registry_lazy filtered else filtered)
               ∧ lazy_mode s = true).
  { destruct (tools_enabled s && lazy_mode s) eqn:El; [|by left]. apply andb_true_iff in El as [_ El].
    destruct (flat_wrap Q filtered HQ); [by left|by right]. }
  assert (Hl' : flat Q (if tools_enabled s && lazy_mode s then wrap_registry_lazy filtered else filtered) ∨
               lazily Q (if tools_enabled s && lazy_mode s then wrap_registry_lazy filtered else filtered))
    by (destruct Hl as [?|[? _]]; [by left|by right]).
  destruct (ran_get Q _ _ _ _ Hl' Hran Hg) as [(Hn & He & Hlz)|(e & [(H1 & H2 & H3 & H4) H5] & ->)].
  - left. split_and!; [done..|]. destruct Hl as [Hl|[_ Hl]]; [|done].
    exfalso. destruct Hlz as (full & _ & Ht & _), Hl as [Hl _].
    destruct (Hl (lit "tool_search") (Entry (ToolSearch (tools full) (activated full)) Builtin Public)) as [_ []].
    by rewrite Ht, lookup_singleton_eq.
  - right. exists e. split_and!; auto.
Qed.

(** * Theorems *)

(** An untrusted turn reaches reviewed tools only.  Take any registry the program has built,
    a request whose params carry the public audience, and the registry of its turn: filtered by
    audience and by the request's policy, then by the configured policy, wrapped for lazy
    discovery or not.  Then whatever tools have run in the turn, however they were searched and
    activated, a name leads to the search tool of a lazy registry or to a tool that was
    registered under that name as a built-in reviewed for public use, that the request's
    policy allows, and, when tools are enabled, that the effective policy of the run allows.
    In particular no tool of a server or of a component, and no tool of the owner's memory. *)
Theorem public_request_tools `{Unicode} at_ install policy_from_value base params policy s r n t :
  built base →
  parse_request_tool_audience params = Ok Public →
  parse_request_tool_policy policy_from_value params = Ok policy →
  ran (turn_registry at_ install s (allows_private_context params)
         (resolve_request_tool_registry base policy Public)) r →
  get r n = Some t →
  (n = lit "tool_search" ∧ ¬ external t ∧ lazy_mode s = true) ∨
  ∃ e, tools base !! n = Some e ∧ t = tool e ∧ audience e = Public ∧ source e = Builtin ∧
    (∀ p, policy = Some p → is_allowed p n = true) ∧
    (tools_enabled s = true → is_allowed (resolve_effective_policy at_ (config s) (policy_ctx s)) n = true).
Proof. apply public_turn. Qed.

(** A name belongs to the first tool registered under it: registering any tools, from any
    source and for any audience, leaves an entry that is there untouched, and a new name gets the
    first of the tools that carry it, with that tool's own source and audience; a later tool of
    the name cannot take it over, nor widen its audience. *)
Theorem first_registration_wins regs r n :
  tools (foldl (λ r '(t, s, a), insert r t s a) r regs) !! n =
  match tools r !! n with
  | Some e => Some e
  | None => (λ '(_, (t, s, a)), Entry t s a) <$> list_find (λ '(t, _, _), tool_name t = n) regs
  end.
Proof.
  revert r; induction regs as [|[[t s] a] regs IH]; intros r; simpl; [by destruct (tools r !! n)|].
  rewrite IH, insert_lookup. destruct (tools r !! n); [done|].
  destruct (decide (tool_name t = n)) as [Hn|Hn].
  - by rewrite bool_decide_eq_true_2.
  - rewrite bool_decide_eq_false_2 by done. destruct (list_find _ regs) as [[i [[? ?] ?]]|]; done.
Qed.

(** A listing shows exactly the entries a name leads to, but for the names of components. *)
Lemma elem_of_visible r n e : (n, e) ∈ visible r ↔ find_entry r n = Some e ∧ is_public_tool_name n = true.
Proof.
  unfold visible, find_entry. rewrite elem_of_app, !list_elem_of_filter, !elem_of_map_to_list. simpl.
  destruct (tools r !! n) eqn:E; naive_solver.
Qed.

Lemma elem_of_list_schemas r v :
  v ∈ list_schemas r ↔
  ∃ n e, find_entry r n = Some e ∧ is_public_tool_name n = true ∧ v = entry_to_schema e.
Proof.
  unfold list_schemas. rewrite merge_sort_Permutation, list_elem_of_fmap. split.
  - intros ([n e] & -> & [? ?]%elem_of_visible). by exists n, e.
  - intros (n & e & ? & ? & ->). exists (n, e). by rewrite elem_of_visible.
Qed.

Lemma elem_of_list_names r n :
  n ∈ list_names r ↔ isSome (find_entry r n) = true ∧ is_public_tool_name n = true.
Proof.
  unfold list_names. rewrite merge_sort_Permutation, list_elem_of_fmap. split.
  - intros ([n' e] & -> & [He ?]%elem_of_visible). simpl. by rewrite He.
  - intros [He ?]. destruct (find_entry r n) as [e|] eqn:E; [|done]. exists (n, e). by rewrite elem_of_visible.
Qed.

(** ** Witnesses *)

Section witnesses.
Local Existing Instance ascii_unicode.

Definition demo_tool (n : string) : AgentTool := External n "a tool" (JObject []).
Definition demo_base : ToolRegistry :=
  register_mcp (register (register_public new (demo_tool "calc")) (demo_tool "exec")) (demo_tool "mcp__x__y") "x".
Definition demo_config : MoltisConfig json :=
  {| tools_policy := {| cfg_allow := []; cfg_deny := []; cfg_profile := None |};
     providers := ∅; presets := ∅; channel_configs := []; sandbox_tools_policy := None |}.
Definition demo_settings : TurnSettings :=
  {| tools_enabled := true; mcp_disabled := false; lazy_mode := true; config := demo_config;
     policy_ctx := {| agent_id := lit "main"; provider := None; channel := None;
       channel_account_id := None; ctx_group_id := None; sender_id := None; sandboxed := false |} |}.
Definition demo_public : json := JObject [(lit "_tool_audience", JString "public")].
Definition demo_turn : ToolRegistry :=
  turn_registry (λ _, None) (λ r, r) demo_settings (allows_private_context demo_public)
    (resolve_request_tool_registry demo_base None Public).
(** The model activates the calculator. *)
Definition demo_after : ToolRegistry :=
  (execute_in demo_turn (unwrap_or (demo_tool "none") (get demo_turn "tool_search"))
     (JObject [(lit "name", JString "calc")]) (Err [])).2.

Lemma public_request_tools_witness :
  isSome (get demo_turn "calc") = false ∧ isSome (get demo_after "calc") = true ∧
  isSome (get demo_after "exec") = false ∧
  ((lit "calc" = lit "tool_search" ∧ ¬ external (demo_tool "calc") ∧ lazy_mode demo_settings = true) ∨
   ∃ e, tools demo_base !! lit "calc" = Some e ∧ demo_tool "calc" = tool e ∧ audience e = Public ∧ source e = Builtin ∧
    (∀ p, None = Some p → is_allowed p "calc" = true) ∧
    (tools_enabled demo_settings = true →
     is_allowed (resolve_effective_policy (λ _, None) (config demo_settings) (policy_ctx demo_settings)) "calc" = true)).
Proof.
  split_and!; [by vm_compute..|].
  apply (public_request_tools (λ _, None) (λ r, r) (λ _, Err []) demo_base demo_public None demo_settings demo_after).
  - repeat constructor.
  - by vm_compute.
  - by vm_compute.
  - apply (ran_tool _ demo_turn demo_turn (lit "tool_search")); [constructor..|]. by vm_compute.
  - by vm_compute.
Defined.
End witnesses.
