(* ===== verification/PublicContext.v ===== *)
(** Public turns: the context of a session that answers into a channel, and the history such a
    turn may see.

    Models [crates/chat/src/service/chat_impl/public_context.rs],
    [crates/chat/src/service/chat_impl/channel_security.rs], the parameters a client may not set
    ([crates/chat/src/params.rs], [crates/chat/src/request_params.rs]), what the gateway makes of the
    parameters of a client ([crates/gateway/src/methods/services/core.rs]) and
    [crates/gateway/src/external_agents/security.rs].  Stored messages are JSON values, as in the
    source.  The metadata of a session and the reply target of its binding are parameters.

    Theorems: a turn over a session bound to a channel is public whatever a client asked for, and
    whatever was asked for by a caller the gateway does not vouch for ([bound_turn_is_public]); what
    the filter lets through of a history ([public_history_spec]). *)
From S2P Require Import Prelude Json Http Policy ToolRegistry.

(** * Parameters a client may not set *)

Definition ACK_KEYS : str := "_ack_keys".
Definition CHANNEL_REPLY_TARGET : str := "_channel_reply_target".
Definition SERVER_ONLY : list str := [ACK_KEYS; CHANNEL_REPLY_TARGET].
Definition GATEWAY_OWNED_REQUEST_PARAMS : list str :=
  map lit ["channel"; "_channel_reply_target"; "_native_channel_request"]%string.

(** [object.remove(key)]. *)
Definition remove_key (key : str) (params : json) : json :=
  match params with
  | JObject m => JObject (filter (λ kv, kv.1 ≠ key) m)
  | _ => params
  end.

Definition strip_server_only (params : json) : json := foldl (λ p key, remove_key key p) params SERVER_ONLY.
Definition strip_gateway_owned_params (params : json) : json :=
  foldl (λ p key, remove_key key p) params GATEWAY_OWNED_REQUEST_PARAMS.

(** What the registry of clients knows of the caller's connection. *)
Record ClientContext := {
  accept_language : option str;
  remote_ip : option str;
  timezone : option str;
}.

(** The parameters of [chat.send] and [chat.send_sync] as a client's call brings them to the chat
    service; [None] is a panic, of params that are neither an object nor null. *)
Definition prepare_chat_send_params (conn_id : str) (client : option ClientContext) (params : json) : option json :=
  let forward key (f : ClientContext → option str) p :=
    match client ≫= f with Some v => index_set key (JString v) p | None => Some p end in
  p ← index_set "_conn_id" (JString conn_id) (strip_gateway_owned_params (strip_server_only params));
  p ← forward (lit "_accept_language") accept_language p;
  p ← forward (lit "_remote_ip") remote_ip p;
  forward (lit "_timezone") timezone p.

(** * The ceiling of a channel-bound session *)

(** The gateway vouches for a request of a channel that it has authorized. *)
Definition vouched_for (params : json) : bool :=
  bool_decide (Json.get "_native_channel_request" params ≫= as_bool = Some true).

Definition mark_public_channel (params : json) : option json :=
  params ← (if channel_bound params then Some params else index_set "channel" (JObject []) params);
  match Json.get "channel" params with
  | Some (JObject channel) =>
      index_set "channel" (JObject (insert_assoc "private_context" (JBool false) channel)) params
  | _ => Some params
  end.

Section ceiling.
Context (policy_from_value : json → result ToolPolicy str).

(** An error, or the params; [None] is a panic, of params that are neither an object nor null. *)
Definition apply_public_context_ceiling (params : json) : option (result json str) :=
  match parse_request_tool_policy policy_from_value params with
  | Err e => Some (Err e)
  | Ok _ =>
      p ← apply_untrusted_request_context params;
      p ← index_set "channel" (JObject [(lit "sender_id", JString "web")]) p;
      Some (Ok p)
  end.

(** [ChannelReplyTarget], of the channels crate, with its serialisation, its session by default
    and the session that is active for its chat. *)
Context {Target : Type} (target_from_str : str → result Target str) (target_to_value : Target → result json str).
Context (channel_type_of : Target → str) (default_session_key : Target → str) (get_active_session : Target → option str).

Definition set_channel_type (t : Target) (params : json) : option json :=
  match Json.get "channel" params with
  | Some channel => c ← index_set "channel_type" (JString (channel_type_of t)) channel; index_set "channel" c params
  | None => None
  end.

(** [binding] is the [channel_binding] of the session's entry, if it has both; the result says
    whether the session is bound. *)
Definition apply_channel_bound_public_context (binding : option str) (session_key : str) (params : json)
    : option (result (json * bool) str) :=
  if vouched_for params then Some (Ok (params, false))
  else
    match binding with
    | None => Some (Ok (params, false))
    | Some binding_json =>
        r ← apply_public_context_ceiling params;
        match r with
        | Err e => Some (Err e)
        | Ok p =>
            match target_from_str binding_json with
            | Ok t =>
                p ← set_channel_type t p;
                let is_active :=
                  match get_active_session t with
                  | None => str_eqb (default_session_key t) session_key
                  | Some active => str_eqb active session_key
                  end in
                if is_active then
                  match target_to_value t with
                  | Ok v => p ← index_set CHANNEL_REPLY_TARGET v p; Some (Ok (p, true))
                  | Err e => Some (Err (lit "failed to serialize channel reply target: " ++ e))
                  end
                else Some (Ok (remove_key CHANNEL_REPLY_TARGET p, true))
            | Err _ => Some (Ok (remove_key CHANNEL_REPLY_TARGET p, true))
            end
        end
    end.
End ceiling.

(** [allows_external_agent_request]. *)
Definition allows_external_agent_request (params : json) (channel_bound : bool) : bool :=
  let private_context :=
    match Json.get "_private_context" params with
    | None => true
    | Some (JBool value) => value
    | Some _ => false
    end in
  let native_channel := vouched_for params in
  private_context && negb (isSome (Json.get "_tool_policy" params)) &&
  negb (isSome (Json.get "_tool_audience" params)) && (negb channel_bound || native_channel).

(** * The history of a public turn *)

Definition run_id_of (message : json) : option str := Json.get "run_id" message ≫= as_str.
Definition call_id_of (message : json) : option str := Json.get "tool_call_id" message ≫= as_str.
Definition marked_public (message : json) : bool :=
  bool_decide ((channel ← Json.get "channel" message; Json.get "private_context" channel ≫= as_bool) = Some false).

Definition requested_tool_call_ids (message : json) : list str :=
  match Json.get "tool_calls" message ≫= as_array with
  | Some calls => omap (λ call, Json.get "id" call ≫= as_str) calls
  | None => []
  end.

(** The messages of the runs whose user message is marked. *)
Definition public_run_ids (history : list json) : gset str :=
  list_to_set (omap run_id_of (filter (λ m, marked_public m = true) history)).
Definition of_public_run (history : list json) (message : json) : bool :=
  match run_id_of message with Some r => bool_decide (r ∈ public_run_ids history) | None => false end.

Definition fully_answered (answered : gset str) (message : json) : bool :=
  forallb (λ i, bool_decide (i ∈ answered)) (requested_tool_call_ids message).
Definition not_stranded (requested : gset str) (message : json) : bool :=
  match call_id_of message with Some i => bool_decide (i ∈ requested) | None => true end.

Definition filter_public_history (history : list json) : list json :=
  let public := filter (λ m, of_public_run history m = true) history in
  let answered : gset str := list_to_set (omap call_id_of public) in
  let kept := filter (λ m, fully_answered answered m = true) public in
  let requested : gset str := list_to_set (kept ≫= requested_tool_call_ids) in
  filter (λ m, not_stranded requested m = true) kept.

Local Arguments lit : simpl never.

(** Two literals differ. *)
Ltac lit_ne := let H := fresh in intros H; vm_compute in H; discriminate H.

(** * Facts *)

Lemma get_index_set k v p p' : index_set k v p = Some p' → Json.get k p' = Some v.
Proof.
  destruct p as [| | | | |m]; try done; intros [= <-]; unfold Json.get; simpl.
  - by rewrite bool_decide_eq_true_2.
  - apply assoc_insert.
Qed.

Lemma get_index_set_ne k k' v p p' : k ≠ k' → index_set k' v p = Some p' → Json.get k p' = Json.get k p.
Proof.
  intros Hk. destruct p as [| | | | |m]; try done; intros [= <-]; unfold Json.get; simpl.
  - by rewrite bool_decide_eq_false_2.
  - by apply assoc_insert_ne.
Qed.

Lemma get_remove k p : Json.get k (remove_key k p) = None.
Proof.
  destruct p as [| | | | |m]; try done. unfold Json.get; simpl.
  induction m as [|[k' v] m IH]; [done|]. rewrite filter_cons. simpl. case_decide as Hk; [|done].
  simpl. by rewrite bool_decide_eq_false_2.
Qed.

Lemma get_remove_ne k k' p : k ≠ k' → Json.get k (remove_key k' p) = Json.get k p.
Proof.
  intros Hk. destruct p as [| | | | |m]; try done. unfold Json.get; simpl.
  induction m as [|[k2 v] m IH]; [done|]. rewrite filter_cons. simpl. case_decide as Hk2; simpl.
  - by rewrite IH.
  - assert (k2 = k') as -> by (by destruct (decide (k2 = k'))). by rewrite bool_decide_eq_false_2.
Qed.

(** Params whose turn has no trust: the public audience, no tool allowed, no private context. *)
Definition untrusted (p : json) : Prop :=
  Json.get "_tool_audience" p = Some (JString "public") ∧
  Json.get "_tool_policy" p = Some deny_all ∧
  Json.get "_private_context" p = Some (JBool false).

Lemma untrusted_index_set k v p p' :
  index_set k v p = Some p' →
  k ≠ lit "_tool_audience" → k ≠ lit "_tool_policy" → k ≠ lit "_private_context" → untrusted p → untrusted p'.
Proof.
  intros Hp H1 H2 H3 (Ha & Ht & Hc). unfold untrusted.
  rewrite !(λ k' Hk, get_index_set_ne k' k v p p' Hk Hp) by done. done.
Qed.

Lemma untrusted_remove k p :
  k ≠ lit "_tool_audience" → k ≠ lit "_tool_policy" → k ≠ lit "_private_context" →
  untrusted p → untrusted (remove_key k p).
Proof. intros H1 H2 H3 (Ha & Ht & Hc). unfold untrusted. by rewrite !get_remove_ne by done. Qed.

Lemma apply_untrusted p p' : apply_untrusted_request_context p = Some p' → untrusted p'.
Proof.
  unfold apply_untrusted_request_context.
  destruct (index_set "_tool_audience" _ p) as [p1|] eqn:E1; simpl; [|done].
  destruct (index_set "_tool_policy" deny_all p1) as [p2|] eqn:E2; simpl; [|done]. intros E3.
  unfold untrusted. split_and!.
  - rewrite (get_index_set_ne (lit "_tool_audience") (lit "_private_context") _ _ _ ltac:(lit_ne) E3).
    rewrite (get_index_set_ne (lit "_tool_audience") (lit "_tool_policy") _ _ _ ltac:(lit_ne) E2). apply (get_index_set _ _ _ _ E1).
  - rewrite (get_index_set_ne (lit "_tool_policy") (lit "_private_context") _ _ _ ltac:(lit_ne) E3). apply (get_index_set _ _ _ _ E2).
  - apply (get_index_set _ _ _ _ E3).
Qed.

Lemma untrusted_public p :
  untrusted p → parse_request_tool_audience p = Ok Public ∧ allows_private_context p = false.
Proof.
  intros (Ha & _ & _). unfold parse_request_tool_audience, allows_private_context. by rewrite Ha.
Qed.

(** An object stays one. *)
Definition is_obj (p : json) : bool := match p with JObject _ => true | _ => false end.
Lemma index_set_obj k v p : is_obj p = true → ∃ p', index_set k v p = Some p' ∧ is_obj p' = true.
Proof. destruct p; try done. eauto. Qed.

(** * Theorems *)

Section theorems.
Context (policy_from_value : json → result ToolPolicy str) {Target : Type} (target_from_str : str → result Target str)
        (target_to_value : Target → result json str) (channel_type_of : Target → str)
        (default_session_key : Target → str) (get_active_session : Target → option str).
Let apply_ctx := apply_channel_bound_public_context policy_from_value target_from_str target_to_value
  channel_type_of default_session_key get_active_session.

(** Refused, for a tool policy that does not parse or a target that does not serialise; or public: the
    public audience, the policy that denies every tool, no private context, and a reply only to the
    chat of the binding, while the session is the active one of that chat. *)
Definition public_or_refused (binding key : str) (params : json) : Prop :=
  (∃ e, apply_ctx (Some binding) key params = Some (Err e)) ∨
  ∃ p, apply_ctx (Some binding) key params = Some (Ok (p, true)) ∧
    parse_request_tool_audience p = Ok Public ∧ allows_private_context p = false ∧
    Json.get "_tool_policy" p = Some deny_all ∧
    (Json.get CHANNEL_REPLY_TARGET p = None ∨
     ∃ t v, target_from_str binding = Ok t ∧ target_to_value t = Ok v ∧ Json.get CHANNEL_REPLY_TARGET p = Some v ∧
       match get_active_session t with Some active => active = key | None => default_session_key t = key end).

Lemma unvouched_is_public binding key m : vouched_for (JObject m) = false → public_or_refused binding key (JObject m).
Proof.
  intros Hn. unfold public_or_refused, apply_ctx, apply_channel_bound_public_context. rewrite Hn.
  unfold apply_public_context_ceiling.
  destruct (parse_request_tool_policy _ _) as [pol|e]; cbn [mbind option_bind]; [|by left; exists e].
  destruct (apply_untrusted_request_context (JObject m)) as [p1|] eqn:E1; [|done].
  pose proof (apply_untrusted _ _ E1) as Hu1.
  assert (Ho1 : is_obj p1 = true) by (unfold apply_untrusted_request_context in E1; simpl in E1; by simplify_eq).
  cbn [mbind option_bind]. destruct (index_set_obj (lit "channel") (JObject [(lit "sender_id", JString "web")]) p1 Ho1) as (p2 & E2 & Ho2).
  rewrite E2. cbn [mbind option_bind]. pose proof (untrusted_index_set _ _ _ _ E2 ltac:(lit_ne) ltac:(lit_ne) ltac:(lit_ne) Hu1) as Hu2.
  assert (Hpub : ∀ p, untrusted p → parse_request_tool_audience p = Ok Public ∧ allows_private_context p = false ∧
    Json.get "_tool_policy" p = Some deny_all).
  { intros p Hp. destruct (untrusted_public p Hp). destruct Hp as (_ & ? & _). done. }
  assert (Hdrop : ∀ p, untrusted p → ∃ q, Some (Ok (E := str) (remove_key CHANNEL_REPLY_TARGET p, true)) = Some (Ok (q, true)) ∧
    parse_request_tool_audience q = Ok Public ∧ allows_private_context q = false ∧ Json.get "_tool_policy" q = Some deny_all ∧
    Json.get CHANNEL_REPLY_TARGET q = None).
  { intros p Hp. eexists. split; [done|]. destruct (Hpub (remove_key CHANNEL_REPLY_TARGET p)) as (? & ? & ?);
      [apply untrusted_remove; [lit_ne..|done]|]. split_and!; [done..|apply get_remove]. }
  destruct (target_from_str binding) as [t|e].
  2: { destruct (Hdrop p2 Hu2) as (q & Hq & H1 & H2 & H3 & H4). right. exists q. split_and!; [done..|by left]. }
  unfold set_channel_type. rewrite (get_index_set _ _ _ _ E2). change (index_set "channel_type" (JString (channel_type_of t)) (JObject [(lit "sender_id", JString "web")]))
    with (Some (JObject [(lit "sender_id", JString "web"); (lit "channel_type", JString (channel_type_of t))])).
  cbn [mbind option_bind].
  destruct (index_set_obj (lit "channel")
    (JObject [(lit "sender_id", JString "web"); (lit "channel_type", JString (channel_type_of t))]) p2 Ho2) as (p3 & E3 & Ho3).
  rewrite E3. cbn [mbind option_bind]. pose proof (untrusted_index_set _ _ _ _ E3 ltac:(lit_ne) ltac:(lit_ne) ltac:(lit_ne) Hu2) as Hu3.
  destruct (match get_active_session t with None => _ | Some _ => _ end) eqn:Ea.
  2: { destruct (Hdrop p3 Hu3) as (q & Hq & H1 & H2 & H3 & H4). right. exists q. split_and!; [done..|by left]. }
  destruct (target_to_value t) as [v|e] eqn:Ev; [|by left; eexists].
  destruct (index_set_obj CHANNEL_REPLY_TARGET v p3 Ho3) as (p4 & E4 & _). rewrite E4. right. exists p4.
  pose proof (untrusted_index_set _ _ _ _ E4 ltac:(lit_ne) ltac:(lit_ne) ltac:(lit_ne) Hu3) as Hu4.
  destruct (Hpub p4 Hu4) as (? & ? & ?). split_and!; [done..|]. right. exists t, v.
  split_and!; [done|done|by apply (get_index_set _ _ _ _ E4)|].
  destruct (get_active_session t); by apply str_eqb_true in Ea.
Qed.

(** What a client sends is never vouched for. *)
Lemma unvouched_set k v p p' :
  index_set k v p = Some p' → k ≠ lit "_native_channel_request" → vouched_for p' = vouched_for p.
Proof. intros Hp Hk. unfold vouched_for. by rewrite (get_index_set_ne _ k v p p') by done. Qed.
Lemma prepared_unvouched conn client params p :
  prepare_chat_send_params conn client params = Some p → is_obj p = true ∧ vouched_for p = false.
Proof.
  unfold prepare_chat_send_params. set (p0 := strip_gateway_owned_params _).
  assert (H0 : vouched_for p0 = false) by (unfold vouched_for, p0, strip_gateway_owned_params; simpl; by rewrite get_remove).
  assert (Hset : ∀ k v q q', index_set k v q = Some q' → is_obj q' = true) by (by intros k v [] q'; intros [= <-]).
  destruct (index_set "_conn_id" _ p0) as [p1|] eqn:E1; simpl; [|done].
  assert (H1 : is_obj p1 = true ∧ vouched_for p1 = false).
  { split; [by eapply Hset|]. by rewrite (unvouched_set _ _ _ _ E1) by lit_ne. }
  assert (Hforward : ∀ k (f : ClientContext → option str) q q', k ≠ lit "_native_channel_request" →
    is_obj q = true ∧ vouched_for q = false →
    match client ≫= f with Some v => index_set k (JString v) q | None => Some q end = Some q' →
    is_obj q' = true ∧ vouched_for q' = false).
  { intros k f q q' Hk [Ho Hv]. destruct (client ≫= f) as [v|]; [|by intros [= <-]].
    intros E. split; [by eapply Hset|]. by rewrite (unvouched_set _ _ _ _ E). }
  destruct (match client ≫= accept_language with Some _ => _ | None => _ end) as [p2|] eqn:E2; simpl; [|done].
  apply Hforward in E2; [|lit_ne|done].
  destruct (match client ≫= remote_ip with Some _ => _ | None => _ end) as [p3|] eqn:E3; simpl; [|done].
  apply Hforward in E3; [|lit_ne|done]. apply Hforward; [lit_ne|done].
Qed.

(** C16. A turn over a session that answers into a channel is public.  Whatever a client sends, its
    request comes to the chat service such that it is refused or public: with the public audience,
    the policy that denies every tool and no private context, and a reply goes to no other place
    than the chat the session is bound to, and only while the session is the active one of that chat.
    The same holds of any other caller's params, an object, for which the gateway does not vouch; a
    request of a channel that the gateway vouches for keeps what the gateway gave it. *)
Theorem bound_turn_is_public binding key :
  (∀ conn client params p, prepare_chat_send_params conn client params = Some p → public_or_refused binding key p) ∧
  ∀ m, if vouched_for (JObject m) then apply_ctx (Some binding) key (JObject m) = Some (Ok (JObject m, false))
       else public_or_refused binding key (JObject m).
Proof.
  split.
  - intros conn client params p Hp. apply prepared_unvouched in Hp as [Ho Hv]. destruct p as [| | | | |m]; try done.
    by apply unvouched_is_public.
  - intros m. destruct (vouched_for (JObject m)) eqn:Hv; [|by apply unvouched_is_public].
    unfold apply_ctx, apply_channel_bound_public_context. by rewrite Hv.
Qed.

(** A stored message is a result or makes calls, not both. *)
Definition one_sided (message : json) : Prop := isSome (call_id_of message) = true → requested_tool_call_ids message = [].

(** C29. The history a public turn sees.  Every message of it is one of the stored history, in its
    order, and belongs to a run with a message marked as public, so nothing of a private run
    gets through; and it is a valid conversation for a provider: as long as no stored message
    both makes calls and is a result, every call of it has its result in it and every result
    its call.  A message of a public run that neither makes calls nor is a result is kept. *)
Theorem public_history_spec history :
  let out := filter_public_history history in
  out `sublist_of` history ∧
  (∀ m, m ∈ out → ∃ u r, u ∈ history ∧ marked_public u = true ∧ run_id_of u = Some r ∧ run_id_of m = Some r) ∧
  (Forall one_sided history →
   (∀ m i, m ∈ out → i ∈ requested_tool_call_ids m → ∃ r, r ∈ out ∧ call_id_of r = Some i) ∧
   (∀ m i, m ∈ out → call_id_of m = Some i → ∃ c, c ∈ out ∧ i ∈ requested_tool_call_ids c)) ∧
  (∀ m, m ∈ history → of_public_run history m = true → call_id_of m = None → requested_tool_call_ids m = [] → m ∈ out).
Proof.
  intros out. unfold out, filter_public_history. set (public := filter _ history).
  set (answered := list_to_set (omap call_id_of public) : gset str).
  set (kept := filter _ public). set (requested := list_to_set (kept ≫= requested_tool_call_ids) : gset str).
  assert (Hk : ∀ m, m ∈ kept ↔ m ∈ history ∧ of_public_run history m = true ∧ fully_answered answered m = true).
  { intros m. unfold kept, public. rewrite !list_elem_of_filter. tauto. }
  assert (Ho : ∀ m, m ∈ filter (λ m, not_stranded requested m = true) kept ↔ m ∈ kept ∧ not_stranded requested m = true).
  { intros m. rewrite list_elem_of_filter. tauto. }
  split_and!.
  - unfold kept, public. etrans; [apply sublist_filter|]. etrans; [apply sublist_filter|apply sublist_filter].
  - intros m [Hm _]%Ho. apply Hk in Hm as (Hm & Hp & _). unfold of_public_run in Hp.
    destruct (run_id_of m) as [r|] eqn:Er; [|done]. apply bool_decide_eq_true in Hp.
    unfold public_run_ids in Hp. apply elem_of_list_to_set, list_elem_of_omap in Hp as (u & Hu & Hr).
    apply list_elem_of_filter in Hu as [Hmk Hu]. by exists u, r.
  - intros Hone. rewrite Forall_forall in Hone.
    assert (Hreq : ∀ m i, m ∈ kept → i ∈ requested_tool_call_ids m → i ∈ requested).
    { intros m i Hm Hi. unfold requested. apply elem_of_list_to_set, list_elem_of_bind. by exists m. }
    split.
    + intros m i [Hm _]%Ho Hi. pose proof Hm as Hm'. apply Hk in Hm' as (_ & _ & Hf).
      unfold fully_answered in Hf. rewrite forallb_forall in Hf. specialize (Hf i (proj1 (list_elem_of_In _ _) Hi)).
      apply bool_decide_eq_true in Hf. unfold answered in Hf. apply elem_of_list_to_set, list_elem_of_omap in Hf as (r & Hr & Hc).
      exists r. split; [|done]. apply Ho. unfold not_stranded. rewrite Hc. split; [|apply bool_decide_eq_true; by eapply Hreq].
      unfold public in Hr. apply list_elem_of_filter in Hr as [Hpr Hr]. apply Hk. split_and!; [done..|].
      unfold fully_answered. by rewrite (Hone r Hr) by (by rewrite Hc).
    + intros m i [Hm Hs]%Ho Hc. unfold not_stranded in Hs. rewrite Hc in Hs. apply bool_decide_eq_true in Hs.
      unfold requested in Hs. apply elem_of_list_to_set, list_elem_of_bind in Hs as (c & Hi & Hck).
      exists c. split; [|done]. apply Ho. split; [done|]. unfold not_stranded.
      destruct (call_id_of c) as [j|] eqn:Ec; [|done]. apply Hk in Hck as (Hch & _).
      rewrite (Hone c Hch) in Hi by (by rewrite Ec). by apply elem_of_nil in Hi.
  - intros m Hm Hp Hc Hr. apply Ho. unfold not_stranded. rewrite Hc. split; [|done]. apply Hk.
    split_and!; [done..|]. unfold fully_answered. by rewrite Hr.
Qed.
End theorems.

(** ** Witnesses *)

Definition demo_message (role : string) (run : string) (fields : list (str * json)) : json :=
  JObject ((lit "role", JString role) :: (lit "run_id", JString run) :: fields).
Definition demo_calls (i : string) : str * json := (lit "tool_calls", JArray [JObject [(lit "id", JString i)]]).
Definition demo_result (i : string) : str * json := (lit "tool_call_id", JString i).
Definition demo_stored : list json :=
  [demo_message "user" "r1" []; demo_message "assistant" "r1" [demo_calls "a"]; demo_message "tool" "r1" [demo_result "a"];
   demo_message "user" "r2" [(lit "channel", JObject [(lit "private_context", JBool false)])];
   demo_message "assistant" "r2" [demo_calls "b"]; demo_message "tool" "r2" [demo_result "b"];
   demo_message "assistant" "r2" [demo_calls "c"]].

Definition demo_target (b : str) : result str str := Ok b.
Definition demo_value (b : str) : result json str := Ok (JString b).

(** A client that claims to be the gateway. *)
Definition forged : json :=
  JObject [(lit "text", JString "hi"); (lit "_native_channel_request", JBool true); (lit "_private_context", JBool true);
           (lit "channel", JObject [(lit "sender_id", JString "owner")])].
Definition from_browser : option ClientContext :=
  Some {| accept_language := Some (lit "de"); remote_ip := None; timezone := Some (lit "UTC") |}.
Definition demo_apply : option str → str → json → option (result (json * bool) str) :=
  apply_channel_bound_public_context (λ _, Err []) demo_target demo_value (λ _, lit "telegram") (λ t, t) (λ _, None).

Example forged_is_stripped :
  vouched_for forged = true ∧
  (p ← prepare_chat_send_params "c1" from_browser forged; r ← demo_apply (Some (lit "chat")) (lit "chat") p;
   Some (match r with
         | Ok (p, bound) => (bound, vouched_for p, allows_private_context p, Json.get "_conn_id" p, Json.get "_timezone" p)
         | Err _ => (false, true, true, None, None) end))
  = Some (true, false, false, Some (JString "c1"), Some (JString "UTC")).
Proof. split; vm_compute; reflexivity. Qed.

Lemma bound_turn_is_public_witness :
  ∃ p, prepare_chat_send_params "c1" from_browser forged = Some p ∧
    public_or_refused (λ _, Err []) demo_target demo_value (λ _, lit "telegram") (λ t, t) (λ _, None) (lit "chat") (lit "chat") p.
Proof.
  destruct (prepare_chat_send_params "c1" from_browser forged) as [p|] eqn:E; [|vm_compute in E; discriminate E].
  exists p. split; [done|].
  exact (proj1 (bound_turn_is_public (λ _, Err []) demo_target demo_value (λ _, lit "telegram") (λ t, t) (λ _, None)
    (lit "chat") (lit "chat")) _ _ _ _ E).
Defined.

Lemma public_history_spec_witness :
  filter_public_history demo_stored = take 3 (drop 3 demo_stored) ∧
  ∀ m i, m ∈ filter_public_history demo_stored → i ∈ requested_tool_call_ids m →
    ∃ r, r ∈ filter_public_history demo_stored ∧ call_id_of r = Some i.
Proof.
  split; [by vm_compute|]. apply (proj1 (proj2 (proj2 (public_history_spec demo_stored)))).
  repeat (constructor; [by vm_compute|]). constructor.
Defined.
