(* ===== verification/ChatQueue.v ===== *)
(** The queue of a session: messages that arrive while a run is active, and their replay.

    Models [crates/chat/src/service/chat_impl/queue_drain.rs], [crates/chat/src/channel_acks.rs],
    the admission of a turn ([admit_queued_turn], [cancel_queued_messages] and
    [resolve_session_key_from_params] of [crates/chat/src/service/types.rs]) and the parts of
    [crates/chat/src/service/chat_impl/send.rs] around it: who gets the permit of a session, who
    waits, and who drains the queue afterwards.

    The tasks of the service are threads of a transition system.  A thread's step is what it
    does under one lock; between two steps any other thread may take its own, as the locks are
    released there ([take_next] and [finish_draining] take the lock of the queues one after the
    other, and a replay is sent in between).  The semaphore of a session is the set of the
    sessions whose permit is held.  What a turn does, and whether it starts its run or fails
    before, is the event's choice.

    A queued message carries, beside its params, the numbers of the messages it stands for: they
    are not in the program and no step looks at them.

    Theorems: no message is lost or answered twice, in any interleaving ([messages_accounted]);
    a session has one turn at a time ([one_turn_per_session]); messages start in the order of
    their arrival as long as the drains of a session do not overlap ([replay_in_order]), and a
    queued message has a thread that will take it as long as moreover no message arrives between the
    two locks of a drainer that found nothing ([queued_is_served]); without these provisos both fail
    ([session_gets_stuck], [overlapping_drains_stick], [arrival_overtakes]). *)
From S2P Require Import Prelude Json Http Policy ToolRegistry PublicContext.
Local Open Scope nat_scope.

Inductive MessageQueueMode := Followup | Collect.

Record QueuedMessage := {
  params : json;
  origin : list nat;      (** the messages it stands for; not in the program *)
}.
Record SessionMessageQueue := { messages : list QueuedMessage; draining : bool }.
Notation MessageQueues := (gmap str SessionMessageQueue).
Definition empty_queue : SessionMessageQueue := {| messages := []; draining := false |}.
Definition queue_of (queues : MessageQueues) (key : str) : SessionMessageQueue := unwrap_or empty_queue (queues !! key).

Inductive TurnAdmission := Acquired | Queued (position : nat).

(** * Admission *)

Definition resolve_session_key_from_params (active_session_key : str → option str) (p : json) : str :=
  let given (v : option json) := s ← v ≫= as_str; if is_nonempty s then Some s else None in
  match given (Json.get "_session_key" p) with
  | Some key => key
  | None =>
      match given (or_else (Json.get "sessionKey" p) (Json.get "session_key" p)) with
      | Some key => key
      | None => unwrap_or (lit "main") (conn ← Json.get "_conn_id" p ≫= as_str; active_session_key conn)
      end
  end.

Definition queued_replay (p : json) : bool :=
  unwrap_or false (Json.get "_queued_replay" p ≫= as_bool).

(** [available]: whether the permit of the session can be taken. *)
Definition admit_queued_turn (queues : MessageQueues) (available : bool) (session_key : str) (m : QueuedMessage)
    (replay : bool) : MessageQueues * TurnAdmission :=
  let queue := queue_of queues session_key in
  let reserved_replay := replay && draining queue in
  let store ms := <[session_key := {| messages := ms; draining := draining queue |}]> queues in
  let position := Queued (S (length (messages queue))) in
  if negb reserved_replay && (draining queue || is_nonempty (messages queue))
  then (store (messages queue ++ [m]), position)
  else if available then (store (messages queue), Acquired)
  else if reserved_replay then (store (m :: messages queue), position)
  else (store (messages queue ++ [m]), position).

(** The params that wait: a channel's request gives up the trust it came with. *)
Definition queued_params (p : json) : option json :=
  let private_context := allows_private_context p in
  p ← (if private_context then Some p else mark_public_channel p);
  match downgrade_queued_channel_request p private_context with
  | Some (p, true) => mark_public_channel p
  | Some (p, false) => Some p
  | None => None
  end.

Definition cancel_queued_messages (queues : MessageQueues) (session_key : str) : MessageQueues * list QueuedMessage :=
  match queues !! session_key with
  | Some queue =>
      (if draining queue then <[session_key := {| messages := []; draining := true |}]> queues
       else delete session_key queues, messages queue)
  | None => (queues, [])
  end.

(** * Acknowledgments *)

Definition ack_keys_from_params (p : json) : list str :=
  match Json.get ACK_KEYS p ≫= as_array with Some a => strings a | None => [] end.
Definition merged_ack_keys (ps : list json) : list str :=
  foldl (λ keys key, if bool_decide (key ∈ keys) then keys else keys ++ [key]) [] (ps ≫= ack_keys_from_params).

(** * Replay *)

Definition take_next (mode : MessageQueueMode) (queues : MessageQueues) (session_key : str)
    : list QueuedMessage * MessageQueues :=
  match queues !! session_key with
  | None => ([], queues)
  | Some queue =>
      let store ms := <[session_key := {| messages := ms; draining := true |}]> queues in
      match mode with
      | Followup => (take 1 (messages queue), store (drop 1 (messages queue)))
      | Collect =>
          let split := length (split_by_request_security_context (map params (messages queue))).1 in
          (take split (messages queue), store (drop split (messages queue)))
      end
  end.

Definition finish_draining (queues : MessageQueues) (session_key : str) : MessageQueues :=
  match queues !! session_key with
  | Some queue =>
      if is_nonempty (messages queue)
      then <[session_key := {| messages := messages queue; draining := false |}]> queues
      else delete session_key queues
  | None => queues
  end.

Definition message_text (p : json) : option str :=
  or_else (Json.get "text" p) (Json.get "message" p) ≫= as_str.

Definition text_block (t : str) : json := JObject [(lit "type", JString "text"); (lit "text", JString t)].
Definition merge_content_blocks (queued : list json) : list json :=
  queued ≫= λ p,
    match Json.get "content" p ≫= as_array with
    | Some content => content
    | None => match message_text p with Some t => if is_nonempty t then [text_block t] else [] | None => [] end
    end.

(** What a merge comes to: params, nothing to send, or a panic, when the last params are neither an
    object nor null. *)
Inductive Merged := Merge (p : json) | NothingToMerge | Panics.

Definition merge_into (k : str) (v : json) (dropped : list str) (base : json) : Merged :=
  match index_set k v base with
  | Some p => Merge (foldl (λ p key, remove_key key p) p dropped)
  | None => Panics
  end.

Definition merge_collected_content (queued : list json) : Merged :=
  let blocks := merge_content_blocks queued in
  match blocks, last queued with
  | _ :: _, Some base => merge_into "content" (JArray blocks) (map lit ["text"; "message"]%string) base
  | _, _ => NothingToMerge
  end.

Definition blank_line : str := [ch_newline; ch_newline].
Definition merge_collected_text (queued : list json) : Merged :=
  let combined := omap message_text queued in
  match combined, last queued with
  | _ :: _, Some base => merge_into "text" (JString (join blank_line combined)) [lit "message"] base
  | _, _ => NothingToMerge
  end.

Definition merge_collected (queued : list json) : Merged :=
  if existsb (λ p, isSome (Json.get "content" p)) queued then merge_collected_content queued
  else merge_collected_text queued.

(** What to send for the messages taken, with the acknowledgments it answers for. *)
Inductive Replay := Send_replay (p : json) (keys : list str) | Abandon (keys : list str) | Replay_panics.

Definition prepare_collected (queued : list json) : Replay :=
  match merge_collected queued with
  | NothingToMerge => Abandon (merged_ack_keys queued)
  | Panics => Replay_panics
  | Merge p =>
      let keys := merged_ack_keys queued in
      match p ← index_set "_queued_replay" (JBool true) p; index_set ACK_KEYS (JArray (map JString keys)) p with
      | Some p => Send_replay p keys
      | None => Replay_panics
      end
  end.

Definition prepare_replay (mode : MessageQueueMode) (queued : list json) : Replay :=
  match mode with
  | Followup =>
      match queued with
      | first :: _ =>
          match index_set "_queued_replay" (JBool true) first with
          | Some p => Send_replay p (ack_keys_from_params first)
          | None => Replay_panics
          end
      | [] => Abandon []
      end
  | Collect => prepare_collected queued
  end.

(** * The service *)

(** Where a drainer is: before [take_next]; before the replay it sends is admitted; in the turn of
    its replay, which holds the permit of a session; before [finish_draining]. *)
Inductive Phase :=
| Taking
| Sending (m : QueuedMessage) (keys : list str)
| Starting (turn_key : str) (m : QueuedMessage) (keys : list str)
| Finishing.

Inductive Thread :=
| Turn (key : str) (m : QueuedMessage)   (** admitted for a caller, not started yet *)
| Running (key : str)
| Drain (key : str) (p : Phase)
| Over.

Inductive Fate := Started (key : str) | Failed | Abandoned | Cancelled | Refused | Crashed.

Record State := {
  queues : MessageQueues;
  permits : gset str;
  active : gmap str str;                    (** the active session of a connection *)
  threads : list Thread;
  log : list (Fate * list nat);
  next : nat;
}.
Definition init : State :=
  {| queues := ∅; permits := ∅; active := ∅; threads := []; log := []; next := 0 |}.

Definition with_queues (q : MessageQueues) (s : State) : State :=
  {| queues := q; permits := permits s; active := active s; threads := threads s; log := log s; next := next s |}.
Definition with_permits (p : gset str) (s : State) : State :=
  {| queues := queues s; permits := p; active := active s; threads := threads s; log := log s; next := next s |}.
Definition with_threads (t : list Thread) (s : State) : State :=
  {| queues := queues s; permits := permits s; active := active s; threads := t; log := log s; next := next s |}.
Definition settle (f : Fate) (ids : list nat) (s : State) : State :=
  {| queues := queues s; permits := permits s; active := active s; threads := threads s; log := log s ++ [(f, ids)]; next := next s |}.
Definition numbered (s : State) : State :=
  {| queues := queues s; permits := permits s; active := active s; threads := threads s; log := log s; next := S (next s) |}.
Definition set_thread (i : nat) (t : Thread) (s : State) : State := with_threads (<[i := t]> (threads s)) s.
Definition spawn (t : Thread) (s : State) : State := with_threads (threads s ++ [t]) s.
Definition release (key : str) (s : State) : State := with_permits (permits s ∖ {[key]}) s.
Definition acquire (key : str) (s : State) : State := with_permits ({[key]} ∪ permits s) s.

Inductive Event :=
| Send (p : json)              (** [chat.send] *)
| SendNow (p : json)           (** [chat.send_sync], or a [/sh] command: refused instead of queued *)
| Begin (i : nat)              (** the turn of thread [i] starts its run *)
| Fail_turn (i : nat)          (** it ends without one: [finish_unstarted_turn] *)
| Advance (i : nat)            (** the drainer [i] goes on *)
| Reject (i : nat)             (** the replay of drainer [i] is refused before its admission *)
| End_run (i : nat)            (** the run of thread [i] ends, or is aborted *)
| Cancel (key : str)           (** [cancel_queued] *)
| Switch (conn key : str).     (** a connection activates a session *)

Definition session_of (s : State) (p : json) : str := resolve_session_key_from_params (λ conn, active s !! conn) p.

(** The admission of params that stand for [ids]: the state with the queue and permit it leaves,
    and whether the permit was taken. *)
Definition admission (s : State) (p : json) (ids : list nat) : option (State * bool) :=
  q ← queued_params p;
  let key := session_of s p in
  let m := {| params := q; origin := ids |} in
  let '(qs, a) := admit_queued_turn (queues s) (negb (bool_decide (key ∈ permits s))) key m (queued_replay p) in
  match a with
  | Acquired => Some (acquire key (with_queues qs s), true)
  | Queued _ => Some (with_queues qs s, false)
  end.

Definition origins (ms : list QueuedMessage) : list nat := ms ≫= origin.

(** [drain_and_replay], from one lock to the next. *)
Definition advance (mode : MessageQueueMode) (i : nat) (key : str) (p : Phase) (s : State) : option State :=
  match p with
  | Taking =>
      let '(taken, qs) := take_next mode (queues s) key in
      let s := with_queues qs s in
      match taken with
      | [] => Some (set_thread i (Drain key Finishing) s)
      | _ =>
          match prepare_replay mode (map params taken) with
          | Send_replay p keys => Some (set_thread i (Drain key (Sending {| params := p; origin := origins taken |} keys)) s)
          | Abandon _ => Some (settle Abandoned (origins taken) s)
          | Replay_panics => Some (settle Crashed (origins taken) (set_thread i Over s))
          end
      end
  | Sending m keys =>
      r ← admission s (params m) (origin m);
      let '(s', acquired) := r in
      Some (set_thread i (Drain key (if acquired : bool then Starting (session_of s (params m)) m keys else Finishing)) s')
  | Starting _ _ _ => None
  | Finishing => Some (set_thread i Over (with_queues (finish_draining (queues s) key) s))
  end.

Definition step (mode : MessageQueueMode) (s : State) (e : Event) : option State :=
  match e with
  | Send p =>
      r ← admission s p [next s];
      let '(s', acquired) := r in
      Some (numbered (if acquired : bool then spawn (Turn (session_of s p) {| params := p; origin := [next s] |}) s' else s'))
  | SendNow p =>
      let key := session_of s p in
      let queue := queue_of (queues s) key in
      Some (numbered
        (if draining queue || is_nonempty (messages queue) || bool_decide (key ∈ permits s)
         then settle Refused [next s] s
         else spawn (Turn key {| params := p; origin := [next s] |}) (acquire key s)))
  | Begin i =>
      match threads s !! i with
      | Some (Turn key m) => Some (settle (Started key) (origin m) (set_thread i (Running key) s))
      | Some (Drain key (Starting k m _)) =>
          Some (settle (Started k) (origin m) (spawn (Running k) (set_thread i (Drain key Finishing) s)))
      | _ => None
      end
  | Fail_turn i =>
      match threads s !! i with
      | Some (Turn key m) =>
          Some (settle Failed (origin m)
            (set_thread i (if queued_replay (params m) then Over else Drain key Taking) (release key s)))
      | Some (Drain key (Starting k m _)) =>
          Some (settle Failed (origin m) (set_thread i (Drain key Taking) (release k s)))
      | _ => None
      end
  | Advance i => match threads s !! i with Some (Drain key p) => advance mode i key p s | _ => None end
  | Reject i =>
      match threads s !! i with
      | Some (Drain key (Sending m _)) => Some (settle Failed (origin m) (set_thread i (Drain key Taking) s))
      | _ => None
      end
  | End_run i =>
      match threads s !! i with
      | Some (Running key) => Some (set_thread i (Drain key Taking) (release key s))
      | _ => None
      end
  | Cancel key =>
      let '(qs, removed) := cancel_queued_messages (queues s) key in
      Some (settle Cancelled (origins removed) (with_queues qs s))
  | Switch conn key =>
      Some {| queues := queues s; permits := permits s; active := <[conn := key]> (active s); threads := threads s;
              log := log s; next := next s |}
  end.

Fixpoint steps (mode : MessageQueueMode) (s : State) (es : list Event) : option State :=
  match es with [] => Some s | e :: es' => s' ← step mode s e; steps mode s' es' end.

(** * Specification *)

(** A reachable state, by events of a kind. *)
Inductive reached (mode : MessageQueueMode) (ok : State → Event → Prop) : State → Prop :=
| reached_init : reached mode ok init
| reached_step s e s' : reached mode ok s → ok s e → step mode s e = Some s' → reached mode ok s'.
Definition any_event (_ : State) (_ : Event) : Prop := True.

Fixpoint occurrences (x : nat) (l : list nat) : nat :=
  match l with [] => 0 | y :: l' => (if x =? y then 1 else 0) + occurrences x l' end.

(** The messages a thread has in hand, those that are queued and those that are settled. *)
Definition in_hand (t : Thread) : list nat :=
  match t with
  | Turn _ m | Drain _ (Sending m _) | Drain _ (Starting _ m _) => origin m
  | _ => []
  end.
Definition in_flight (s : State) : list nat := threads s ≫= in_hand.
Definition queued_ids (qs : MessageQueues) : list nat := map_to_list qs ≫= λ kq, origins (messages kq.2).
Definition settled (s : State) : list nat := log s ≫= snd.

(** The session whose permit a thread holds. *)
Definition holds (t : Thread) : option str :=
  match t with Turn key _ | Running key | Drain _ (Starting key _ _) => Some key | _ => None end.

(** * Facts *)

Local Arguments lit : simpl never.

Lemma occurrences_app x l l' : occurrences x (l ++ l') = occurrences x l + occurrences x l'.
Proof. induction l as [|y l IH]; simpl; [done|]. rewrite IH. lia. Qed.
#[local] Instance occurrences_perm x : Proper (Permutation ==> eq) (occurrences x).
Proof. intros l l'. induction 1; simpl; lia. Qed.
Lemma occurrences_seq x a n : occurrences x (seq a n) = if (a <=? x) && (x <? a + n) then 1 else 0.
Proof.
  revert a; induction n as [|n IH]; intros a; simpl.
  - destruct (Nat.leb_spec a x), (Nat.ltb_spec x (a + 0)); simpl; lia.
  - rewrite IH. destruct (Nat.eqb_spec x a), (Nat.leb_spec (S a) x), (Nat.ltb_spec x (S a + n)),
      (Nat.leb_spec a x), (Nat.ltb_spec x (a + S n)); simpl; lia.
Qed.

Lemma origins_app ms ms' : origins (ms ++ ms') = origins ms ++ origins ms'.
Proof. apply bind_app. Qed.

(** ** Replacing a thread *)

Lemma bind_insert {A B} (f : A → list B) l i x y :
  l !! i = Some x → ∃ rest, l ≫= f ≡ₚ f x ++ rest ∧ <[i := y]> l ≫= f ≡ₚ f y ++ rest.
Proof.
  intros Hi. exists ((take i l ++ drop (S i) l) ≫= f). pose proof (lookup_lt_Some _ _ _ Hi) as Hl.
  rewrite bind_app. split.
  - rewrite <- (take_drop_middle l i x Hi) at 1. rewrite bind_app. simpl. by rewrite Permutation_app_swap_app.
  - rewrite insert_take_drop by done. rewrite bind_app. simpl. by rewrite Permutation_app_swap_app.
Qed.

(** ** The queues, message by message *)

Lemma queued_split qs key :
  queued_ids qs ≡ₚ origins (messages (queue_of qs key)) ++ queued_ids (delete key qs).
Proof.
  unfold queued_ids, queue_of. destruct (qs !! key) as [q|] eqn:E; simpl.
  - rewrite <- (insert_delete_id qs key q E) at 1. by rewrite map_to_list_insert by apply lookup_delete_eq.
  - by rewrite delete_id.
Qed.
Lemma queued_insert qs key q :
  queued_ids (<[key := q]> qs) ≡ₚ origins (messages q) ++ queued_ids (delete key qs).
Proof.
  unfold queued_ids. rewrite <- insert_delete_eq. by rewrite map_to_list_insert by apply lookup_delete_eq.
Qed.

Lemma admit_ids x qs b key m r qs' a :
  admit_queued_turn qs b key m r = (qs', a) →
  occurrences x (queued_ids qs') =
  occurrences x (queued_ids qs) + match a with Acquired => 0 | Queued _ => occurrences x (origin m) end.
Proof.
  unfold admit_queued_turn. set (q := queue_of qs key). intros E.
  rewrite (queued_split qs key). fold q.
  assert (Hb : ∀ ms p, (<[key := {| messages := ms; draining := draining q |}]> qs, p) = (qs', a) →
    occurrences x (origins ms) = occurrences x (origins (messages q)) +
      match p with Acquired => 0 | Queued _ => occurrences x (origin m) end →
    occurrences x (queued_ids qs') = occurrences x (origins (messages q) ++ queued_ids (delete key qs)) +
      match a with Acquired => 0 | Queued _ => occurrences x (origin m) end).
  { intros ms p [= <- <-] Ho. rewrite queued_insert. simpl. rewrite !occurrences_app. lia. }
  assert (Hend : occurrences x (origins (messages q ++ [m])) = occurrences x (origins (messages q)) + occurrences x (origin m)).
  { rewrite origins_app, occurrences_app. unfold origins at 2. simpl. by rewrite app_nil_r. }
  destruct (negb _ && _); [by apply (Hb _ _ E)|]. destruct b; [apply (Hb _ _ E); lia|].
  destruct (r && draining q); apply (Hb _ _ E); [|done].
  change (origins (m :: messages q)) with (origin m ++ origins (messages q)). rewrite occurrences_app. simpl. lia.
Qed.

Lemma take_ids x mode qs key taken qs' :
  take_next mode qs key = (taken, qs') →
  occurrences x (queued_ids qs) = occurrences x (origins taken) + occurrences x (queued_ids qs').
Proof.
  unfold take_next. rewrite (queued_split qs key). unfold queue_of. destruct (qs !! key) as [q|] eqn:E; simpl.
  - assert (Hn : ∀ n, (take n (messages q), <[key := {| messages := drop n (messages q); draining := true |}]> qs) = (taken, qs') →
      occurrences x (origins (messages q) ++ queued_ids (delete key qs)) =
      occurrences x (origins taken) + occurrences x (queued_ids qs')).
    { intros n [= <- <-]. rewrite queued_insert. simpl. rewrite <- (take_drop n (messages q)) at 1.
      rewrite origins_app, !occurrences_app. lia. }
    destruct mode; apply Hn.
  - intros [= <- <-]. simpl. by rewrite delete_id.
Qed.

Lemma finish_ids x qs key : occurrences x (queued_ids (finish_draining qs key)) = occurrences x (queued_ids qs).
Proof.
  unfold finish_draining. rewrite (queued_split qs key). unfold queue_of. destruct (qs !! key) as [q|] eqn:E; simpl.
  - destruct (messages q) as [|m ms]; simpl; [done|]. by rewrite queued_insert.
  - by rewrite delete_id.
Qed.

Lemma cancel_ids x qs key qs' removed :
  cancel_queued_messages qs key = (qs', removed) →
  occurrences x (queued_ids qs) = occurrences x (origins removed) + occurrences x (queued_ids qs').
Proof.
  unfold cancel_queued_messages. rewrite (queued_split qs key). unfold queue_of.
  destruct (qs !! key) as [q|] eqn:E; simpl; intros [= <- <-].
  - rewrite occurrences_app. destruct (draining q); [|done]. by rewrite queued_insert.
  - simpl. by rewrite delete_id.
Qed.

(** ** Every step accounts for its messages *)

Definition total (x : nat) (s : State) : nat :=
  occurrences x (settled s) + occurrences x (in_flight s) + occurrences x (queued_ids (queues s)).

Lemma total_settle x f ids s : total x (settle f ids s) = total x s + occurrences x ids.
Proof. unfold total, settled, in_flight. simpl. rewrite bind_app, occurrences_app. simpl. rewrite app_nil_r. lia. Qed.
Lemma total_spawn x t s : total x (spawn t s) = total x s + occurrences x (in_hand t).
Proof. unfold total, settled, in_flight. simpl. rewrite bind_app, occurrences_app. simpl. rewrite app_nil_r. lia. Qed.
Lemma total_thread x i t t' s :
  threads s !! i = Some t → total x (set_thread i t' s) + occurrences x (in_hand t) = total x s + occurrences x (in_hand t').
Proof.
  intros Hi. destruct (bind_insert in_hand (threads s) i t t' Hi) as (rest & H1 & H2).
  assert (E1 : occurrences x (in_flight s) = occurrences x (in_hand t) + occurrences x rest)
    by (unfold in_flight; rewrite H1; apply occurrences_app).
  assert (E2 : occurrences x (in_flight (set_thread i t' s)) = occurrences x (in_hand t') + occurrences x rest)
    by (unfold in_flight; simpl; rewrite H2; apply occurrences_app).
  unfold total. rewrite E1, E2. unfold settled. simpl. lia.
Qed.
Lemma total_queues x qs s :
  total x (with_queues qs s) + occurrences x (queued_ids (queues s)) = total x s + occurrences x (queued_ids qs).
Proof. unfold total, settled, in_flight. simpl. lia. Qed.

Lemma admission_total x s p ids s' b :
  admission s p ids = Some (s', b) →
  total x s' = total x s + (if b then 0 else occurrences x ids) ∧ threads s' = threads s ∧ next s' = next s.
Proof.
  unfold admission. destruct (queued_params p) as [q|]; [|done]. simpl.
  destruct (admit_queued_turn _ _ _ _ _) as [qs a] eqn:E. pose proof (admit_ids x _ _ _ _ _ _ _ E) as Ha. simpl in Ha.
  pose proof (total_queues x qs s) as Ht.
  destruct a; intros [= <- <-]; (split; [|done]); unfold total, settled, in_flight in *; simpl in *; lia.
Qed.

Lemma total_numbered x s : total x (numbered s) = total x s.
Proof. done. Qed.
Lemma total_set_release x i t key s : total x (set_thread i t (release key s)) = total x (set_thread i t s).
Proof. done. Qed.

Definition numbers (e : Event) : nat := match e with Send _ | SendNow _ => 1 | _ => 0 end.

Lemma step_total mode s e s' x :
  step mode s e = Some s' →
  next s' = next s + numbers e ∧ total x s' = total x s + (if x =? next s then numbers e else 0).
Proof.
  assert (H0 : ∀ y, (if x =? y then 0 else 0) = 0) by (intros y; by destruct (x =? y)).
  destruct e as [p|p|i|i|i|i|i|key|conn key]; simpl; rewrite ?H0.
  - destruct (admission s p [next s]) as [[s1 b]|] eqn:Ea; [|done]. simpl. intros [= <-].
    destruct (admission_total x _ _ _ _ _ Ea) as (Ht & _ & Hn). destruct b.
    + rewrite (total_numbered x), total_spawn. simpl. rewrite Hn. split; [lia|]. rewrite Ht.
      destruct (x =? next s); simpl; lia.
    + rewrite (total_numbered x). simpl. rewrite Hn. split; [lia|]. rewrite Ht. simpl. destruct (x =? next s); simpl; lia.
  - set (key := session_of s p). destruct (_ || _); simpl; intros [= <-]; (split; [simpl; lia|]); rewrite (total_numbered x).
    + rewrite total_settle. simpl. destruct (x =? next s); simpl; lia.
    + rewrite total_spawn. change (total x (acquire key s)) with (total x s). simpl. destruct (x =? next s); simpl; lia.
  - destruct (threads s !! i) as [[key m| |key [|m k|k m ks|]|]|] eqn:Ei; try done; simpl; intros [= <-]; (split; [simpl; lia|]).
    + rewrite total_settle. pose proof (total_thread x _ _ (Running key) _ Ei). simpl in *. lia.
    + rewrite total_settle, total_spawn. pose proof (total_thread x _ _ (Drain key Finishing) _ Ei). simpl in *. lia.
  - destruct (threads s !! i) as [[key m| |key [|m k|k m ks|]|]|] eqn:Ei; try done; simpl; intros [= <-]; (split; [simpl; lia|]);
      rewrite total_settle, total_set_release.
    + pose proof (total_thread x _ _ (if queued_replay (params m) then Over else Drain key Taking) _ Ei).
      destruct (queued_replay (params m)); simpl in *; lia.
    + pose proof (total_thread x _ _ (Drain key Taking) _ Ei). simpl in *. lia.
  - destruct (threads s !! i) as [[| |key p|]|] eqn:Ei; try done. unfold advance. destruct p as [|m k|k m ks|]; [| |done|].
    + destruct (take_next mode (queues s) key) as [taken qs] eqn:Et.
      pose proof (take_ids x _ _ _ _ _ Et) as Hq. pose proof (total_queues x qs s) as Hs.
      assert (Ei' : threads (with_queues qs s) !! i = Some (Drain key Taking)) by done.
      destruct taken as [|m ms]; [|destruct (prepare_replay mode (map params (m :: ms))) as [p keys|keys|]];
        intros [= <-]; (split; [simpl; lia|]).
      * pose proof (total_thread x _ _ (Drain key Finishing) _ Ei'). simpl in *. lia.
      * pose proof (total_thread x _ _ (Drain key (Sending {| params := p; origin := origins (m :: ms) |} keys)) _ Ei').
        simpl in *. lia.
      * rewrite total_settle. change (origins (m :: ms)) with (origin m ++ origins ms) in *. lia.
      * rewrite total_settle. change (origins (m :: ms)) with (origin m ++ origins ms) in *.
        pose proof (total_thread x _ _ Over _ Ei'). simpl in *. lia.
    + destruct (admission s (params m) (origin m)) as [[s1 b]|] eqn:Ea; [|done]. simpl. intros [= <-].
      destruct (admission_total x _ _ _ _ _ Ea) as (Ht & Hth & Hn). split; [simpl; lia|]. rewrite <- Hth in Ei.
      pose proof (total_thread x _ _ (Drain key (if b then Starting (session_of s (params m)) m k else Finishing)) _ Ei).
      destruct b; simpl in *; lia.
    + intros [= <-]. split; [simpl; lia|].
      pose proof (total_thread x _ _ Over (with_queues (finish_draining (queues s) key) s) Ei).
      pose proof (total_queues x (finish_draining (queues s) key) s). rewrite finish_ids in *. simpl in *. lia.
  - destruct (threads s !! i) as [[| |key [|m k| |]|]|] eqn:Ei; try done. simpl. intros [= <-]. split; [simpl; lia|].
    rewrite total_settle. pose proof (total_thread x _ _ (Drain key Taking) _ Ei). simpl in *. lia.
  - destruct (threads s !! i) as [[|key| |]|] eqn:Ei; try done. intros [= <-]. split; [simpl; lia|].
    rewrite total_set_release. pose proof (total_thread x _ _ (Drain key Taking) _ Ei). simpl in *. lia.
  - destruct (cancel_queued_messages (queues s) key) as [qs removed] eqn:Ec. intros [= <-]. split; [simpl; lia|].
    rewrite total_settle. pose proof (cancel_ids x _ _ _ _ Ec). pose proof (total_queues x qs s). lia.
  - intros [= <-]. split; [simpl; lia|]. by rewrite Nat.add_0_r.
Qed.

(** C15. No message is lost and none is answered twice.  However the threads of the service
    interleave, whatever they are sent, and in both modes, every message handed to the service
    so far is in exactly one place, once: it was settled (its run started, or it was refused,
    abandoned, cancelled, or dropped by a failure), a thread has it in hand, or it waits in a
    queue; merged, requeued and replayed messages included. *)
Theorem messages_accounted mode s :
  reached mode any_event s →
  ∀ x, occurrences x (settled s) + occurrences x (in_flight s) + occurrences x (queued_ids (queues s)) =
       if x <? next s then 1 else 0.
Proof.
  intros Hr x. change (total x s = if x <? next s then 1 else 0). induction Hr as [|s e s' _ IH _ Hs].
  - by vm_compute.
  - destruct (step_total _ _ _ _ x Hs) as [-> ->]. rewrite IH.
    destruct (Nat.eqb_spec x (next s)), (Nat.ltb_spec x (next s)), (Nat.ltb_spec x (next s + numbers e)); try lia;
      destruct e; simpl in *; lia.
Qed.

(** ** One turn per session *)

Definition held (key : str) (t : Thread) : nat := if decide (holds t = Some key) then 1 else 0.
Definition holders (key : str) (ts : list Thread) : nat := sum_list (map (held key) ts).

Lemma holders_insert key ts i t t' :
  ts !! i = Some t → holders key (<[i := t']> ts) + held key t = holders key ts + held key t'.
Proof.
  revert i; induction ts as [|u ts IH]; intros [|i] Hi; simplify_eq/=; [unfold holders; simpl; lia|].
  specialize (IH _ Hi). unfold holders in *. simpl. lia.
Qed.
Lemma holders_spawn key ts t : holders key (ts ++ [t]) = holders key ts + held key t.
Proof. induction ts as [|u ts IH]; unfold holders in *; simpl in *; lia. Qed.

(** The permits are those of the threads. *)
Definition permits_match (s : State) : Prop :=
  ∀ key, holders key (threads s) = if decide (key ∈ permits s) then 1 else 0.

Lemma held_of key t : held key t = match holds t with Some k => if decide (k = key) then 1 else 0 | None => 0 end.
Proof. unfold held. destruct (holds t) as [k|]; repeat case_decide; congruence. Qed.

(** A thread exchanged for one that holds the same. *)
Lemma permits_keep s i t t' s' :
  permits_match s → threads s !! i = Some t → holds t' = holds t →
  threads s' = <[i := t']> (threads s) → permits s' = permits s → permits_match s'.
Proof.
  intros Hp Hi Hh Ht Hs key. rewrite Ht, Hs, <- Hp. pose proof (holders_insert key _ _ _ t' Hi) as He.
  rewrite !held_of, Hh in He. lia.
Qed.

Lemma permits_release s i t t' key s' :
  permits_match s → threads s !! i = Some t → holds t = Some key → holds t' = None →
  threads s' = <[i := t']> (threads s) → permits s' = permits s ∖ {[key]} → permits_match s'.
Proof.
  intros Hp Hi Hh Hh' Ht Hs k. rewrite Ht, Hs. pose proof (holders_insert k _ _ _ t' Hi) as He.
  rewrite !held_of, Hh, Hh' in He. specialize (Hp k). repeat case_decide; set_solver by lia.
Qed.

Lemma admission_permits s p ids s' b :
  admission s p ids = Some (s', b) →
  threads s' = threads s ∧
  (if b then session_of s p ∉ permits s ∧ permits s' = {[session_of s p]} ∪ permits s else permits s' = permits s).
Proof.
  unfold admission. destruct (queued_params p) as [q|]; [|done]. simpl.
  destruct (admit_queued_turn _ _ _ _ _) as [qs a] eqn:E. destruct a; intros [= <- <-]; [|done].
  split; [done|]. split; [|done]. unfold admit_queued_turn in E. destruct (negb _ && _); [done|].
  case_bool_decide; simpl in E; [|done]. by destruct (_ && _).
Qed.

(** The thread of [Ei] is exchanged for one that holds the same. *)
Ltac keep Hp Ei := eapply (permits_keep _ _ _ _ _ Hp Ei); [|reflexivity|reflexivity]; reflexivity.

Lemma step_permits mode s e s' : permits_match s → step mode s e = Some s' → permits_match s'.
Proof.
  intros Hp. destruct e as [p|p|i|i|i|i|i|key|conn key]; simpl.
  - destruct (admission s p [next s]) as [[s1 b]|] eqn:Ea; [|done]. simpl. intros [= <-].
    destruct (admission_permits _ _ _ _ _ Ea) as [Ht Hs]. intros k. destruct b; simpl; rewrite ?Ht.
    + destruct Hs as [Hn ->]. rewrite holders_spawn, Hp, held_of. simpl. repeat case_decide; set_solver by lia.
    + by rewrite Hs.
  - set (key := session_of s p). destruct (_ || _) eqn:Eb; intros [= <-]; [exact Hp|].
    apply orb_false_iff in Eb as [_ Eb]. apply bool_decide_eq_false in Eb.
    intros k. simpl. rewrite holders_spawn, Hp, held_of. simpl. repeat case_decide; set_solver by lia.
  - destruct (threads s !! i) as [[key m| |key [|m k|k m ks|]|]|] eqn:Ei; try done; intros [= <-].
    + by apply (permits_keep s i (Turn key m) (Running key)).
    + intros k'. simpl. rewrite holders_spawn.
      pose proof (holders_insert k' _ _ _ (Drain key Finishing) Ei) as He. rewrite !held_of in *. simpl in *.
      rewrite <- Hp. lia.
  - destruct (threads s !! i) as [[key m| |key [|m k|k m ks|]|]|] eqn:Ei; try done; intros [= <-].
    + apply (permits_release s i (Turn key m) (if queued_replay (params m) then Over else Drain key Taking) key); try done.
      by destruct (queued_replay (params m)).
    + by apply (permits_release s i (Drain key (Starting k m ks)) (Drain key Taking) k).
  - destruct (threads s !! i) as [[| |key p|]|] eqn:Ei; try done. unfold advance. destruct p as [|m k|k m ks|]; [| |done|].
    + destruct (take_next mode (queues s) key) as [taken qs].
      destruct taken as [|m ms]; [|destruct (prepare_replay mode (map params (m :: ms))) as [p keys|keys|]]; intros [= <-];
        [keep Hp Ei|keep Hp Ei|exact Hp|keep Hp Ei].
    + destruct (admission s (params m) (origin m)) as [[s1 b]|] eqn:Ea; [|done]. simpl. intros [= <-].
      destruct (admission_permits _ _ _ _ _ Ea) as [Ht Hs]. destruct b.
      * destruct Hs as [Hn Hs]. intros k'. simpl. rewrite Hs, Ht.
        pose proof (holders_insert k' _ _ _ (Drain key (Starting (session_of s (params m)) m k)) Ei) as He.
        rewrite !held_of in He. simpl in He. specialize (Hp k'). repeat case_decide; set_solver by lia.
      * eapply (permits_keep s i); [done|exact Ei| |by rewrite <- Ht|done]. done.
    + intros [= <-]. keep Hp Ei.
  - destruct (threads s !! i) as [[| |key [|m k| |]|]|] eqn:Ei; try done. intros [= <-]. keep Hp Ei.
  - destruct (threads s !! i) as [[|key| |]|] eqn:Ei; try done. intros [= <-].
    by apply (permits_release s i (Running key) (Drain key Taking) key).
  - destruct (cancel_queued_messages (queues s) key) as [qs removed]. intros [= <-]. exact Hp.
  - intros [= <-]. exact Hp.
Qed.

Lemma reached_permits mode ok s : reached mode ok s → permits_match s.
Proof.
  induction 1 as [|s e s' _ IH _ Hs]; [|by eapply step_permits].
  intros key. rewrite decide_False; [done|]. apply not_elem_of_empty.
Qed.

(** Who holds the permit of a session. *)
Lemma permits_unique s :
  permits_match s →
  (∀ i j t u key, threads s !! i = Some t → threads s !! j = Some u →
     holds t = Some key → holds u = Some key → i = j) ∧
  ∀ key, key ∈ permits s ↔ ∃ t, t ∈ threads s ∧ holds t = Some key.
Proof.
  intros Hp. split.
  - intros i j t u key Hi Hj Ht Hu. destruct (decide (i = j)) as [|Hij]; [done|]. exfalso.
    pose proof (holders_insert key _ _ _ Over Hi) as H1.
    assert (Hj' : <[i := Over]> (threads s) !! j = Some u) by (by rewrite list_lookup_insert_ne).
    pose proof (holders_insert key _ _ _ Over Hj') as H2. rewrite !held_of, Ht, Hu in *. simpl in *.
    rewrite Hp in H1. repeat case_decide; try done; lia.
  - intros key. specialize (Hp key). split.
    + intros Hk. rewrite decide_True in Hp by done. revert Hp. clear.
      induction (threads s) as [|t ts IH]; unfold holders in *; simpl; [done|]. rewrite held_of.
      destruct (holds t) as [k|] eqn:Eh; [case_decide as Hk; [|]|]; intros Hh.
      * exists t. subst. split; [left|done].
      * destruct (IH Hh) as (u & ? & ?). exists u. split; [by right|done].
      * destruct (IH Hh) as (u & ? & ?). exists u. split; [by right|done].
    + intros (t & Ht & Hh). destruct (decide (key ∈ permits s)) as [|Hk]; [done|]. exfalso.
      apply list_elem_of_lookup in Ht as [i Hi]. pose proof (holders_insert key _ _ _ Over Hi) as H1.
      rewrite !held_of, Hh, Hp in H1. simpl in H1. rewrite decide_True in H1 by done. lia.
Qed.

(** C18. A session has one turn at a time.  In every reachable state, at most one thread holds the
    permit of a session, be it preparing a turn, running it, or replaying a queued message, and
    the permit is taken exactly when there is such a thread; so two runs of a session never
    overlap, and no permit is lost when a turn fails, is refused, or ends. *)
Theorem one_turn_per_session mode s :
  reached mode any_event s →
  (∀ i j t u key, threads s !! i = Some t → threads s !! j = Some u →
     holds t = Some key → holds u = Some key → i = j) ∧
  ∀ key, key ∈ permits s ↔ ∃ t, t ∈ threads s ∧ holds t = Some key.
Proof. intros Hr. by eapply permits_unique, reached_permits. Qed.

(** ** What a step does to the queue of a session *)

Lemma queue_of_insert qs k q key : queue_of (<[k := q]> qs) key = if decide (k = key) then q else queue_of qs key.
Proof.
  unfold queue_of. case_decide as Hk; [subst; by rewrite lookup_insert_eq|by rewrite lookup_insert_ne].
Qed.
Lemma queue_of_delete qs k key : queue_of (delete k qs) key = if decide (k = key) then empty_queue else queue_of qs key.
Proof.
  unfold queue_of. case_decide as Hk; [subst; by rewrite lookup_delete_eq|by rewrite lookup_delete_ne].
Qed.

Lemma admit_other qs b k m r qs' a key : admit_queued_turn qs b k m r = (qs', a) → k ≠ key → queue_of qs' key = queue_of qs key.
Proof.
  unfold admit_queued_turn. intros E Hk.
  repeat case_match; simplify_eq; by rewrite queue_of_insert, decide_False.
Qed.

(** Where the message of an admission goes. *)
Lemma admit_here qs b k m r qs' a :
  admit_queued_turn qs b k m r = (qs', a) →
  let q := queue_of qs k in let q' := queue_of qs' k in
  draining q' = draining q ∧
  match a with
  | Acquired => messages q' = messages q ∧ b = true ∧ (r && draining q = false → messages q = [] ∧ draining q = false)
  | Queued _ =>
      (messages q' = if r && draining q then m :: messages q else messages q ++ [m]) ∧
      (b = false ∨ r && draining q = false ∧ (draining q = true ∨ messages q ≠ []))
  end.
Proof.
  unfold admit_queued_turn. set (q := queue_of qs k). intros E. simpl.
  destruct (r && draining q) eqn:Er; simpl in E.
  - destruct b; simplify_eq; rewrite queue_of_insert, decide_True by done; simpl; split_and!; try done. by left.
  - destruct (draining q) eqn:Ed; simpl in E.
    + simplify_eq. rewrite queue_of_insert, decide_True by done. simpl. split_and!; [done..|]. right. split; [done|by left].
    + destruct (messages q) as [|m0 ms] eqn:Em; simpl in E.
      * destruct b; simplify_eq; rewrite queue_of_insert, decide_True by done; simpl; split_and!; try done; by left.
      * simplify_eq. rewrite queue_of_insert, decide_True by done. simpl. split_and!; [done..|]. right. split; [done|by right].
Qed.

Lemma take_other mode qs k taken qs' key : take_next mode qs k = (taken, qs') → k ≠ key → queue_of qs' key = queue_of qs key.
Proof.
  unfold take_next. intros E Hk. repeat case_match; simplify_eq; try done; by rewrite queue_of_insert, decide_False.
Qed.
Lemma take_here mode qs k taken qs' :
  take_next mode qs k = (taken, qs') →
  messages (queue_of qs k) = taken ++ messages (queue_of qs' k) ∧ (taken ≠ [] → draining (queue_of qs' k) = true) ∧
  (draining (queue_of qs k) = true → draining (queue_of qs' k) = true) ∧
  (mode = Followup → taken = [] → messages (queue_of qs k) = []).
Proof.
  unfold take_next. intros E. destruct (qs !! k) as [q|] eqn:Eq.
  - assert (Hq : queue_of qs k = q) by (unfold queue_of; by rewrite Eq). rewrite Hq.
    destruct mode; injection E as <- <-; rewrite queue_of_insert, decide_True by done; simpl; (split_and!; [by rewrite take_drop|done..|]); [|done].
    intros _. by destruct (messages q).
  - simplify_eq. assert (Hq : queue_of qs' k = empty_queue) by (unfold queue_of; by rewrite Eq). by rewrite Hq.
Qed.

Lemma finish_queue qs k key :
  queue_of (finish_draining qs k) key =
  if decide (k = key) then {| messages := messages (queue_of qs key); draining := false |} else queue_of qs key.
Proof.
  unfold finish_draining. destruct (qs !! k) as [q|] eqn:Eq.
  - destruct (messages q) as [|m ms] eqn:Em; simpl.
    + rewrite queue_of_delete. case_decide as Hk; [|done]. subst. unfold queue_of. rewrite Eq. simpl. by rewrite Em.
    + rewrite queue_of_insert. case_decide as Hk; [|done]. subst. unfold queue_of. rewrite Eq. simpl. by rewrite Em.
  - case_decide as Hk; [|done]. subst. unfold queue_of. by rewrite Eq.
Qed.

Lemma cancel_queue qs k qs' removed key :
  cancel_queued_messages qs k = (qs', removed) →
  queue_of qs' key =
  if decide (k = key) then {| messages := []; draining := draining (queue_of qs key) |} else queue_of qs key.
Proof.
  unfold cancel_queued_messages. destruct (qs !! k) as [q|] eqn:Eq; intros [= <- <-].
  - destruct (draining q) eqn:Ed; [rewrite queue_of_insert|rewrite queue_of_delete]; (case_decide as Hk; [|done]);
      subst; unfold queue_of; rewrite Eq; simpl; by rewrite Ed.
  - case_decide as Hk; [|done]. subst. unfold queue_of. by rewrite Eq.
Qed.

Lemma admission_queue s p ids s' b key :
  admission s p ids = Some (s', b) → session_of s p ≠ key → queue_of (queues s') key = queue_of (queues s) key.
Proof.
  unfold admission. destruct (queued_params p) as [q|]; [|done]. simpl.
  destruct (admit_queued_turn _ _ _ _ _) as [qs a] eqn:E. intros Ha Hk.
  pose proof (admit_other _ _ _ _ _ _ _ key E Hk). destruct a; by simplify_eq.
Qed.

(** ** A session that is stuck *)

Definition started (key : str) (s : State) : list nat :=
  log s ≫= λ e, match e.1 with Started k => if decide (k = key) then e.2 else [] | _ => [] end.

(** Messages wait in its queue and no thread is left to take them. *)
Definition stuck (key : str) (s : State) : Prop :=
  messages (queue_of (queues s) key) ≠ [] ∧ draining (queue_of (queues s) key) = false ∧
  ∀ t, t ∈ threads s → holds t ≠ Some key ∧ ∀ p, t ≠ Drain key p.

Lemma elem_of_insert {A} (l : list A) i x y : y ∈ <[i := x]> l → y = x ∨ y ∈ l.
Proof.
  intros [j Hj]%list_elem_of_lookup. destruct (decide (i = j)) as [->|Hn].
  - apply list_lookup_insert_Some in Hj as [(_ & -> & _)|(? & ?)]; [by left|done].
  - rewrite list_lookup_insert_ne in Hj by done. right. by eapply list_elem_of_lookup_2.
Qed.

(** An admission to a stuck session queues the message. *)
Lemma stuck_admission key s p ids s' b :
  stuck key s → admission s p ids = Some (s', b) → stuck key s' ∧ (b = true → session_of s p ≠ key) ∧ log s' = log s.
Proof.
  intros (Hm & Hd & Ht) Ha. destruct (admission_permits _ _ _ _ _ Ha) as [Hth _].
  destruct (decide (session_of s p = key)) as [Hk|Hk].
  - unfold admission in Ha. destruct (queued_params p) as [q|]; [|done]. simpl in Ha. rewrite Hk in Ha.
    destruct (admit_queued_turn _ _ _ _ _) as [qs a] eqn:E. apply admit_here in E as [Hdr Hms]. simpl in *.
    rewrite Hd, andb_false_r in Hms. destruct a as [|n]; simplify_eq.
    + destruct Hms as (_ & _ & Hms). by destruct (Hms eq_refl).
    + destruct Hms as [Hms _]. split_and!; [|done|done]. split_and!; simpl; [|congruence|exact Ht].
      rewrite Hms. by destruct (messages (queue_of (queues s) (session_of s p))).
  - pose proof (admission_queue _ _ _ _ _ key Ha Hk) as Hq. split_and!; [|done|].
    + split_and!; [by rewrite Hq|by rewrite Hq|by rewrite Hth].
    + unfold admission in Ha. destruct (queued_params p); [|done]. simpl in Ha.
      destruct (admit_queued_turn _ _ _ _ _) as [qs [|]]; by simplify_eq.
Qed.

Lemma started_settle key f ids s :
  started key (settle f ids s) =
  started key s ++ match f with Started k => if decide (k = key) then ids else [] | _ => [] end.
Proof. unfold started. simpl. rewrite bind_app. simpl. by rewrite app_nil_r. Qed.

Lemma stuck_thread key s i t' :
  stuck key s → holds t' ≠ Some key → (∀ p, t' ≠ Drain key p) → stuck key (set_thread i t' s).
Proof. intros (Hm & Hd & Ht) H1 H2. split_and!; [done..|]. simpl. intros t [-> | Hin]%elem_of_insert; [done|by apply Ht]. Qed.
Lemma stuck_spawn key s t' :
  stuck key s → holds t' ≠ Some key → (∀ p, t' ≠ Drain key p) → stuck key (spawn t' s).
Proof.
  intros (Hm & Hd & Ht) H1 H2. split_and!; [done..|]. simpl. intros t [Hin| ->%list_elem_of_singleton]%elem_of_app; [by apply Ht|done].
Qed.

(** Nothing but a cancellation gets a stuck session going. *)
Lemma stuck_step mode key s e s' :
  stuck key s → e ≠ Cancel key → step mode s e = Some s' → stuck key s' ∧ started key s' = started key s.
Proof.
  intros Hst He. pose proof Hst as (Hm & Hd & Ht).
  assert (Hthr : ∀ i t, threads s !! i = Some t → holds t ≠ Some key ∧ ∀ p, t ≠ Drain key p)
    by (intros i t Hi; apply Ht; by eapply list_elem_of_lookup_2).
  destruct e as [p|p|i|i|i|i|i|k|conn k]; simpl.
  - destruct (admission s p [next s]) as [[s1 b]|] eqn:Ea; [|done]. simpl. intros [= <-].
    destruct (stuck_admission _ _ _ _ _ _ Hst Ea) as (Hst1 & Hb & Hlog).
    split; [|destruct b; unfold started; simpl; by rewrite Hlog].
    destruct b; [|exact Hst1]. refine (stuck_spawn _ _ _ Hst1 _ _); [simpl|done]. intros [= Hk]. by apply Hb.
  - destruct (decide (session_of s p = key)) as [Hk|Hk].
    + rewrite Hk, Hd. destruct (messages _) eqn:Em; [done|]. simpl. intros [= <-]. split; [exact Hst|unfold started; simpl; by rewrite bind_app, app_nil_r].
    + destruct (_ || _); intros [= <-]; [split; [exact Hst|unfold started; simpl; by rewrite bind_app, app_nil_r]|].
      split; [|done]. refine (stuck_spawn _ (acquire _ s) _ Hst _ _); [|done]. simpl. congruence.
  - destruct (threads s !! i) as [[k m| |k [|m ks|k' m ks|]|]|] eqn:Ei; try done; intros [= <-];
      destruct (Hthr _ _ Ei) as [Hh Hp]; simpl in Hh; rewrite started_settle, decide_False, app_nil_r by congruence.
    + split; [|done]. refine (stuck_thread _ s _ _ Hst _ _); [exact Hh|done].
    + split; [|done]. refine (stuck_spawn _ (set_thread i (Drain k Finishing) s) _ (stuck_thread _ _ _ _ Hst _ _) _ _); try done.
      intros p [= ->]. by eapply Hp.
  - destruct (threads s !! i) as [[k m| |k [|m ks|k' m ks|]|]|] eqn:Ei; try done; intros [= <-];
      destruct (Hthr _ _ Ei) as [Hh Hp]; simpl in Hh; rewrite started_settle, app_nil_r.
    + split; [|done]. refine (stuck_thread _ (release k s) _ _ Hst _ _); destruct (queued_replay (params m)); try done.
      intros p [= -> _]. done.
    + split; [|done]. refine (stuck_thread _ (release k' s) _ _ Hst _ _); [done|]. intros p [= ->]. by eapply Hp.
  - destruct (threads s !! i) as [[| |k ph|]|] eqn:Ei; try done. destruct (Hthr _ _ Ei) as [Hh Hp].
    assert (Hk : k ≠ key) by (intros ->; by eapply Hp). unfold advance. destruct ph as [|m ks|k' m ks|]; [| |done|].
    + destruct (take_next mode (queues s) k) as [taken qs] eqn:Et.
      pose proof (take_other _ _ _ _ _ key Et Hk) as Hq.
      assert (Hst' : stuck key (with_queues qs s)) by (split_and!; simpl; [by rewrite Hq|by rewrite Hq|exact Ht]).
      assert (Hdr : ∀ p, stuck key (set_thread i (Drain k p) (with_queues qs s)) ∨ ∃ k' m ks, p = Starting k' m ks).
      { intros p. destruct p; [left|left|right; eauto|left]; (refine (stuck_thread _ _ _ _ Hst' _ _); [done|]; intros p' [= ->]; done). }
      destruct taken as [|m ms]; [|destruct (prepare_replay mode (map params (m :: ms))) as [p keys|keys|]]; intros [= <-].
      * split; [|done]. destruct (Hdr Finishing) as [?|(?&?&?&?)]; done.
      * split; [|done]. destruct (Hdr (Sending {| params := p; origin := origins (m :: ms) |} keys)) as [?|(?&?&?&?)]; done.
      * rewrite started_settle, app_nil_r. split; [exact Hst'|done].
      * rewrite started_settle, app_nil_r. split; [|done]. by refine (stuck_thread _ _ _ _ Hst' _ _).
    + destruct (admission s (params m) (origin m)) as [[s1 b]|] eqn:Ea; [|done]. simpl. intros [= <-].
      destruct (stuck_admission _ _ _ _ _ _ Hst Ea) as (Hst1 & Hb & Hlog).
      split; [|unfold started; simpl; by rewrite Hlog].
      refine (stuck_thread _ _ _ _ Hst1 _ _); destruct b; simpl; try done.
      * intros [= Hk']. by apply Hb.
      * intros p' [= ->]. done.
      * intros p' [= ->]. done.
    + intros [= <-]. split; [|done]. refine (stuck_thread _ (with_queues _ s) _ _ _ _ _); [|done..].
      split_and!; simpl; rewrite ?finish_queue, ?decide_False by done; done.
  - destruct (threads s !! i) as [[| |k [|m ks| |]|]|] eqn:Ei; try done. destruct (Hthr _ _ Ei) as [Hh Hp]. intros [= <-].
    rewrite started_settle, app_nil_r. split; [|done]. refine (stuck_thread _ s _ _ Hst _ _); [done|].
    intros p [= ->]. by eapply Hp.
  - destruct (threads s !! i) as [[|k| |]|] eqn:Ei; try done. destruct (Hthr _ _ Ei) as [Hh Hp]. intros [= <-].
    split; [|done]. refine (stuck_thread _ (release k s) _ _ Hst _ _); [done|]. simpl in Hh. intros p [= ->]. done.
  - destruct (cancel_queued_messages (queues s) k) as [qs removed] eqn:Ec. intros [= <-].
    rewrite started_settle, app_nil_r. split; [|done].
    pose proof (cancel_queue _ _ _ _ key Ec) as Hq. rewrite decide_False in Hq by congruence.
    split_and!; simpl; rewrite ?Hq; done.
  - intros [= <-]. split; [exact Hst|done].
Qed.

Lemma stuck_steps mode key s es s' :
  stuck key s → Cancel key ∉ es → steps mode s es = Some s' → stuck key s' ∧ started key s' = started key s.
Proof.
  revert s; induction es as [|e es IH]; intros s Hst Hc; simpl; [by intros [= <-]|].
  destruct (step mode s e) as [s1|] eqn:E; [|done]. simpl. intros Hs.
  assert (He : e ≠ Cancel key) by (intros ->; apply Hc; left).
  destruct (stuck_step _ _ _ _ _ Hst He E) as [Hst1 Hst1'].
  assert (Hes : Cancel key ∉ es) by (intros ?; apply Hc; by right).
  destruct (IH s1 Hst1 Hes Hs) as [? ->]. done.
Qed.

Definition text_to (key t : string) : json := JObject [(lit "text", JString t); (lit "sessionKey", JString key)].

(** The first message is answered; the second one arrives after the drainer found the queue empty
    and before it takes the lock again. *)
Definition race : list Event :=
  [Send (text_to "main" "one"); Begin 0; End_run 0; Advance 0; Send (text_to "main" "two"); Advance 0].

(** A session can get stuck.  After a run has ended, its drainer looks into the queue, finds
    nothing, releases the lock, and takes it again to say that it has finished; a message that
    arrives in between is queued for it, and the drainer returns.  From then on no message of
    the session is ever started: whatever is sent, to this or to other sessions, whatever runs
    begin, end or fail, everything for the session joins the queue or is refused, until its
    queue is cancelled. *)
Theorem session_gets_stuck mode :
  ∃ s, steps mode init race = Some s ∧ started "main" s = [0] ∧
    occurrences 1 (queued_ids (queues s)) = 1 ∧
    ∀ es s', Cancel "main" ∉ es → steps mode s es = Some s' →
      started "main" s' = [0] ∧ messages (queue_of (queues s') "main") ≠ [] ∧
      ∀ t, t ∈ threads s' → holds t ≠ Some (lit "main") ∧ ∀ p, t ≠ Drain "main" p.
Proof.
  assert (Hrun : match steps mode init race with
    | Some s => started "main" s = [0] ∧ occurrences 1 (queued_ids (queues s)) = 1 ∧
        messages (queue_of (queues s) "main") ≠ [] ∧ draining (queue_of (queues s) "main") = false ∧ threads s = [Over]
    | None => False end) by (destruct mode; by vm_compute).
  destruct (steps mode init race) as [s|]; [|done]. destruct Hrun as (Hst & Hq & Hm & Hd & Ht).
  assert (Hk : stuck "main" s) by (split_and!; [done..|]; rewrite Ht; intros t ->%list_elem_of_singleton; done).
  exists s. split_and!; [done..|].
  intros es s' Hc He. destruct (stuck_steps _ _ _ _ _ Hk Hc He) as [(Hm' & _ & Ht') ->]. done.
Qed.

(** ** Order *)

Definition in_turn (key : str) (t : Thread) : option (list nat) :=
  match t with Turn k m => if decide (k = key) then Some (origin m) else None | _ => None end.
Definition in_drain (key : str) (t : Thread) : option (list nat) :=
  match t with
  | Drain k p =>
      if decide (k = key) then Some (match p with Sending m _ | Starting _ m _ => origin m | _ => [] end) else None
  | _ => None
  end.

(** At most one thread is in the domain of [f]; [x] is what it has there. *)
Definition only (f : Thread → option (list nat)) (ts : list Thread) (x : list nat) : Prop :=
  (x = [] ∧ ∀ u, u ∈ ts → f u = None) ∨
  ∃ i t, ts !! i = Some t ∧ f t = Some x ∧ ∀ j u, ts !! j = Some u → f u ≠ None → j = i.

Section only.
Context (f : Thread → option (list nat)).

Lemma only_none ts : (∀ u, u ∈ ts → f u = None) → only f ts [].
Proof. by left. Qed.

Lemma only_in ts i t x y : only f ts x → ts !! i = Some t → f t = Some y → x = y ∧ ∀ j u, ts !! j = Some u → f u ≠ None → j = i.
Proof.
  intros [[-> Hn]|(i' & t' & Hi & Ht & Hu)] Hi' Hy.
  - by rewrite (Hn t) in Hy by (by eapply list_elem_of_lookup_2).
  - rewrite (Hu i t) in * by (by rewrite ?Hy). simplify_eq. split; [done|]. intros j u ??. by eapply Hu.
Qed.

(** The thread [i] changes what it has. *)
Lemma only_swap ts i t t' x y y' :
  only f ts x → ts !! i = Some t → f t = Some y → f t' = Some y' → x = y ∧ only f (<[i := t']> ts) y'.
Proof.
  intros Ho Hi Hy Hy'. destruct (only_in _ _ _ _ _ Ho Hi Hy) as [-> Hu]. split; [done|]. right. exists i, t'.
  split_and!; [by apply list_lookup_insert_eq, (lookup_lt_Some _ _ _ Hi)|done|].
  intros j u Hj Hn. destruct (decide (j = i)) as [|Hji]; [done|]. rewrite list_lookup_insert_ne in Hj by done. by eapply Hu.
Qed.

(** It leaves. *)
Lemma only_leave ts i t t' x y :
  only f ts x → ts !! i = Some t → f t = Some y → f t' = None → x = y ∧ only f (<[i := t']> ts) [].
Proof.
  intros Ho Hi Hy Hy'. destruct (only_in _ _ _ _ _ Ho Hi Hy) as [-> Hu]. split; [done|]. apply only_none.
  intros u [j Hj]%list_elem_of_lookup. destruct (decide (i = j)) as [->|Hji].
  - apply list_lookup_insert_Some in Hj as [(_ & <- & _)|[]]; done.
  - rewrite list_lookup_insert_ne in Hj by done. destruct (f u) eqn:E; [|done]. exfalso. apply Hji. symmetry.
    apply (Hu j u Hj). by rewrite E.
Qed.

(** It was not and is not in the domain. *)
Lemma only_out ts i t t' x :
  only f ts x → ts !! i = Some t → f t = None → f t' = None → only f (<[i := t']> ts) x.
Proof.
  intros [[-> Hn]|(i' & u & Hi & Hu & Hun)] Hit Ht Ht'.
  - apply only_none. intros v [->|?]%elem_of_insert; auto.
  - right. exists i', u. assert (i ≠ i') by congruence. rewrite list_lookup_insert_ne by done. split_and!; [done..|].
    intros j v Hj Hv. destruct (decide (i = j)) as [->|].
    + apply list_lookup_insert_Some in Hj as [(_ & <- & _)|[]]; done.
    + rewrite list_lookup_insert_ne in Hj by done. by eapply Hun.
Qed.

(** It comes in where there was none. *)
Lemma only_enter ts i t' y :
  (∀ u, u ∈ ts → f u = None) → i < length ts → f t' = Some y → only f (<[i := t']> ts) y.
Proof.
  intros Hn Hi Hy. right. exists i, t'. split_and!; [by apply list_lookup_insert_eq|done|].
  intros j u Hj Hu. destruct (decide (i = j)) as [|Hij]; [done|]. rewrite list_lookup_insert_ne in Hj by done.
  destruct Hu. apply Hn. by eapply list_elem_of_lookup_2.
Qed.

Lemma only_spawn_out ts t' x : only f ts x → f t' = None → only f (ts ++ [t']) x.
Proof.
  intros [[-> Hn]|(i & u & Hi & Hu & Hun)] Ht'.
  - apply only_none. intros v [?| ->%list_elem_of_singleton]%elem_of_app; auto.
  - right. exists i, u. split_and!; [by apply lookup_app_l_Some|done|].
    intros j v [Hj|[_ Hj]]%lookup_app_Some Hv; [by eapply Hun|].
    apply list_lookup_singleton_Some in Hj as [_ <-]. done.
Qed.

Lemma only_spawn_in ts t' y : (∀ u, u ∈ ts → f u = None) → f t' = Some y → only f (ts ++ [t']) y.
Proof.
  intros Hn Hy. right. exists (length ts), t'. split_and!; [apply list_lookup_middle|done|]; [done|].
  intros j v [Hj|[Hl Hj]]%lookup_app_Some Hv.
  - destruct Hv. apply Hn. by eapply list_elem_of_lookup_2.
  - apply list_lookup_singleton_Some in Hj as [? _]. lia.
Qed.
End only.

Lemma Forall_sublist {A} (P : A → Prop) l k : l `sublist_of` k → Forall P k → Forall P l.
Proof. induction 1 as [|x l k Hs IH|x l k Hs IH]; intros Hk; inversion_clear Hk; [constructor|constructor; auto|auto]. Qed.

Lemma StronglySorted_sublist (l k : list nat) : l `sublist_of` k → StronglySorted lt k → StronglySorted lt l.
Proof.
  induction 1 as [|x l k Hs IH|x l k Hs IH]; intros Hk; inversion_clear Hk; [constructor|constructor|auto]; [auto|].
  by eapply Forall_sublist.
Qed.

(** A line of messages that have their numbers in order, all below [n]. *)
Definition lined (n : nat) (l : list nat) : Prop := StronglySorted lt l ∧ Forall (λ x, x < n) l.
Lemma lined_sublist n n' l k : lined n k → l `sublist_of` k → n ≤ n' → lined n' l.
Proof.
  intros [Hs Hf] Hl Hn. split; [by eapply StronglySorted_sublist|].
  eapply Forall_impl; [by eapply Forall_sublist|]. simpl. lia.
Qed.
Lemma lined_snoc n l : lined n l → lined (S n) (l ++ [n]).
Proof.
  intros [Hs Hf]. split.
  - induction l as [|x l IH]; simpl; [repeat constructor|]. inversion_clear Hs. inversion_clear Hf.
    constructor; [by apply IH|]. apply Forall_app. split; [done|]. by repeat constructor.
  - apply Forall_app. split; [|by repeat constructor]. eapply Forall_impl; [done|]. simpl. lia.
Qed.

Lemma prepare_replay_flag mode l p keys : prepare_replay mode l = Send_replay p keys → queued_replay p = true.
Proof.
  assert (Hf : ∀ q, Json.get "_queued_replay" q = Some (JBool true) → queued_replay q = true)
    by (intros q Hq; unfold queued_replay; by rewrite Hq).
  unfold prepare_replay, prepare_collected. destruct mode.
  - destruct l as [|m l]; [done|]. destruct (index_set "_queued_replay" (JBool true) m) as [q|] eqn:E; [|done].
    intros [= <- <-]. apply Hf, (get_index_set _ _ _ _ E).
  - destruct (merge_collected l) as [q| |]; [|done..].
    destruct (index_set "_queued_replay" (JBool true) q) as [q1|] eqn:E1; [|done]. cbn [mbind option_bind].
    destruct (index_set ACK_KEYS _ q1) as [q2|] eqn:E2; [|done]. intros [= <- <-]. apply Hf.
    rewrite (get_index_set_ne (lit "_queued_replay") ACK_KEYS _ _ _ ltac:(lit_ne) E2). apply (get_index_set _ _ _ _ E1).
Qed.

(** Callers do not claim to be replays, a replay stays with the session of its queue, and no run
    of a session ends while one of its drainers is still at work. *)
Definition orderly (s : State) (e : Event) : Prop :=
  match e with
  | Send p | SendNow p => queued_replay p = false
  | Advance i => ∀ key m ks, threads s !! i = Some (Drain key (Sending m ks)) → session_of s (params m) = key
  | Fail_turn i | End_run i =>
      ∀ key, (threads s !! i = Some (Running key) ∨ ∃ m, threads s !! i = Some (Turn key m)) →
        ∀ p, Drain key p ∉ threads s
  | _ => True
  end.

Definition thread_ok (key : str) (dr : bool) (t : Thread) : Prop :=
  match t with
  | Drain k (Sending m _) => k = key → dr = true ∧ queued_replay (params m) = true
  | Drain k (Starting k' _ _) => k' = k ∧ (k = key → dr = true)
  | _ => True
  end.

(** What started, what is about to, and what waits, in the order of arrival. *)
Definition in_line (key : str) (s : State) : Prop :=
  ∃ t d, only (in_turn key) (threads s) t ∧ only (in_drain key) (threads s) d ∧
    lined (next s) (started key s ++ t ++ d ++ origins (messages (queue_of (queues s) key))) ∧
    ∀ u, u ∈ threads s → thread_ok key (draining (queue_of (queues s) key)) u.

Lemma no_turn key s : permits_match s → key ∉ permits s → ∀ u, u ∈ threads s → in_turn key u = None.
Proof.
  intros Hp Hk u Hu. destruct (permits_unique s Hp) as [_ Hh]. destruct u as [k m| | |]; try done. simpl.
  case_decide as Hkk; [|done]. destruct Hk. apply Hh. exists (Turn k m). by subst.
Qed.
Lemma no_other_turn key s i t :
  permits_match s → threads s !! i = Some t → holds t = Some key → in_turn key t = None →
  ∀ u, u ∈ threads s → in_turn key u = None.
Proof.
  intros Hp Hi Ht Hn u [j Hj]%list_elem_of_lookup. destruct (permits_unique s Hp) as [Hu _].
  destruct u as [k m| | |]; try done. simpl. case_decide as Hk; [|done]. subst k.
  assert (i = j) as -> by (by eapply (Hu i j t (Turn key m) key)). rewrite Hj in Hi. simplify_eq.
  simpl in Hn. by rewrite decide_True in Hn.
Qed.
Lemma only_empty f ts x : (∀ u, u ∈ ts → f u = None) → only f ts x → x = [].
Proof. intros Hn [[-> _]|(i & t & Hi & Ht & _)]; [done|]. by rewrite (Hn t) in Ht by (by eapply list_elem_of_lookup_2). Qed.
Lemma only_at f ts i t x y : only f ts x → ts !! i = Some t → f t = Some y → x = y.
Proof. intros Ho Hi Ht. by destruct (only_in f _ _ _ _ _ Ho Hi Ht). Qed.

Lemma thread_ok_insert key dr (ts : list Thread) i t' :
  (∀ u, u ∈ ts → thread_ok key dr u) → thread_ok key dr t' → ∀ u, u ∈ <[i := t']> ts → thread_ok key dr u.
Proof. intros Hts Ht u [->|?]%elem_of_insert; auto. Qed.
Lemma thread_ok_spawn key dr (ts : list Thread) t' :
  (∀ u, u ∈ ts → thread_ok key dr u) → thread_ok key dr t' → ∀ u, u ∈ ts ++ [t'] → thread_ok key dr u.
Proof. intros Hts Ht u [?| ->%list_elem_of_singleton]%elem_of_app; auto. Qed.

Lemma admission_log s p ids s1 b key :
  admission s p ids = Some (s1, b) → started key s1 = started key s ∧ next s1 = next s.
Proof.
  unfold admission. destruct (queued_params p); [|done]. simpl.
  destruct (admit_queued_turn _ _ _ _ _) as [qs [|]]; intros [= <- <-]; done.
Qed.

(** A caller's turn, in a session whose queue is empty and not being drained. *)
Lemma acquired_in_line key s s' p k :
  permits_match s → in_line key s → k ∉ permits s →
  messages (queue_of (queues s) k) = [] → draining (queue_of (queues s) k) = false →
  threads s' = threads s ++ [Turn k {| params := p; origin := [next s] |}] → next s' = S (next s) →
  started key s' = started key s →
  messages (queue_of (queues s') key) = messages (queue_of (queues s) key) →
  draining (queue_of (queues s') key) = draining (queue_of (queues s) key) → in_line key s'.
Proof.
  intros Hp (t & d & Ht & Hd & Hl & Hok) Hfree Hem Hdr Eth En Es Em Ed. unfold in_line. rewrite Eth, En, Es, Em, Ed.
  destruct (decide (k = key)) as [->|Hk].
  - pose proof (no_turn _ _ Hp Hfree) as Hnt. pose proof (only_empty _ _ _ Hnt Ht) as ->.
    assert (d = []) as ->.
    { destruct Hd as [[-> _]|(i & u & Hi & Hu & _)]; [done|]. destruct u as [| |k ph|]; try done. simpl in Hu.
      case_decide as Hkk; [|done]. simplify_eq.
      specialize (Hok _ (list_elem_of_lookup_2 _ _ _ Hi)). destruct ph as [|m ks|k' m ks|]; simplify_eq/=; try done.
      - destruct Hok; congruence.
      - destruct Hok as [_ Hok]. rewrite Hok in Hdr; congruence. }
    exists [next s], []. split_and!.
    + apply only_spawn_in; [done|]. simpl. by rewrite decide_True.
    + by apply only_spawn_out.
    + rewrite Hem in *. simpl in *. rewrite app_nil_r in *. by apply lined_snoc.
    + by apply thread_ok_spawn.
  - exists t, d. split_and!.
    + apply only_spawn_out; [done|]. simpl. by rewrite decide_False.
    + by apply only_spawn_out.
    + eapply lined_sublist; [exact Hl|done|lia].
    + by apply thread_ok_spawn.
Qed.

(** An admission by a caller. *)
Lemma send_in_line key s p s1 b :
  permits_match s → in_line key s → queued_replay p = false → admission s p [next s] = Some (s1, b) →
  in_line key (numbered (if b then spawn (Turn (session_of s p) {| params := p; origin := [next s] |}) s1 else s1)).
Proof.
  intros Hp Hin Hq Ha. destruct (admission_permits _ _ _ _ _ Ha) as [Hth Hper].
  destruct (admission_log _ _ _ _ _ key Ha) as [Hlog Hnx].
  pose proof (admission_queue _ _ _ _ _ key Ha) as Hother.
  unfold admission in Ha. destruct (queued_params p) as [q|]; [|done]. cbn [mbind option_bind] in Ha.
  destruct (admit_queued_turn _ _ _ _ _) as [qs a] eqn:E. apply admit_here in E as [Hdr Hms]. simpl in *.
  rewrite Hq in Hms. simpl in Hms. destruct a as [|n]; injection Ha as <- <-.
  - destruct Hms as (Hmq & _ & Hem). destruct (Hem eq_refl) as [Hem1 Hem2]. destruct Hper as [Hfree _].
    eapply (acquired_in_line key s _ p (session_of s p)); try done; simpl;
      (destruct (decide (session_of s p = key)) as [<-|Hk]; [done|by rewrite <- Hother]).
  - destruct Hms as [Hmq _]. destruct Hin as (t & d & Ht & Hd & Hl & Hok). exists t, d. simpl in *.
    destruct (decide (session_of s p = key)) as [<-|Hk].
    + split_and!; [done|done| |by rewrite Hdr]. rewrite Hmq, origins_app.
      apply lined_snoc in Hl. by rewrite <- !app_assoc in Hl.
    + rewrite Hother by done. split_and!; [done|done| |done]. eapply lined_sublist; [exact Hl|done|lia].
Qed.

Lemma begin_in_line mode key s i s' :
  permits_match s → in_line key s → step mode s (Begin i) = Some s' → in_line key s'.
Proof.
  intros Hp (t & d & Ht & Hd & Hl & Hok). simpl.
  destruct (threads s !! i) as [[k m| |k [|m ks|k' m ks|]|]|] eqn:Ei; try done; intros [= <-].
  - assert (Hd' : only (in_drain key) (<[i := Running k]> (threads s)) d) by (eapply only_out; done).
    assert (Hok' : ∀ u, u ∈ <[i := Running k]> (threads s) → thread_ok key (draining (queue_of (queues s) key)) u)
      by (by apply thread_ok_insert).
    destruct (decide (k = key)) as [->|Hk].
    + destruct (only_leave (in_turn key) _ _ _ (Running key) _ (origin m) Ht Ei) as [-> Ht']; [simpl; by rewrite decide_True|done|].
      exists [], d. split_and!; [exact Ht'|exact Hd'| |exact Hok']. rewrite started_settle, decide_True by done.
      by rewrite <- app_assoc.
    + exists t, d. split_and!; [|exact Hd'| |exact Hok'].
      * eapply only_out; [exact Ht|exact Ei|simpl; by rewrite decide_False|done].
      * rewrite started_settle, decide_False, app_nil_r by done. exact Hl.
  - pose proof (Hok _ (list_elem_of_lookup_2 _ _ _ Ei)) as [-> Hdr].
    assert (Hok' : ∀ u, u ∈ <[i := Drain k Finishing]> (threads s) ++ [Running k] →
      thread_ok key (draining (queue_of (queues s) key)) u) by (by apply thread_ok_spawn; [apply thread_ok_insert|]).
    assert (Ht' : only (in_turn key) (<[i := Drain k Finishing]> (threads s) ++ [Running k]) t)
      by (apply only_spawn_out; [by eapply only_out|done]).
    destruct (decide (k = key)) as [->|Hk].
    + pose proof (no_other_turn key s i _ Hp Ei eq_refl eq_refl) as Hnt. pose proof (only_empty _ _ _ Hnt Ht) as ->.
      destruct (only_swap (in_drain key) _ _ _ (Drain key Finishing) _ (origin m) [] Hd Ei) as [-> Hd'];
        [simpl; by rewrite decide_True|simpl; by rewrite decide_True|].
      exists [], []. split_and!; [exact Ht'|by apply only_spawn_out| |exact Hok'].
      rewrite started_settle, decide_True by done. by rewrite <- app_assoc.
    + exists t, d. split_and!; [exact Ht'| | |exact Hok'].
      * apply only_spawn_out; [|done]. eapply only_out; [exact Hd|exact Ei|simpl; by rewrite decide_False..].
      * rewrite started_settle, decide_False, app_nil_r by done. exact Hl.
Qed.

(** A drainer that settles what it has in hand, or has nothing, and goes to a phase without. *)
Lemma drop_in_line key s s' i k ph ph' :
  in_line key s → threads s !! i = Some (Drain k ph) → (ph' = Taking ∨ ph' = Finishing) →
  threads s' = <[i := Drain k ph']> (threads s) → next s' = next s → started key s' = started key s →
  queue_of (queues s') key = queue_of (queues s) key → in_line key s'.
Proof.
  intros (t & d & Ht & Hd & Hl & Hok) Ei Hph Eth En Es Eq.
  assert (Hx : ∃ d', only (in_drain key) (threads s') d' ∧ d' `sublist_of` d).
  { rewrite Eth. destruct (decide (k = key)) as [->|Hk].
    - destruct (only_swap (in_drain key) _ _ _ (Drain key ph') _
        (match ph with Sending m _ | Starting _ m _ => origin m | _ => [] end) [] Hd Ei) as [_ Hd'].
      + simpl. by rewrite decide_True.
      + simpl. rewrite decide_True by done. by destruct Hph as [-> | ->].
      + exists []. split; [done|apply sublist_nil_l].
    - exists d. split; [|done]. eapply only_out; [exact Hd|exact Ei|simpl; by rewrite decide_False..]. }
  destruct Hx as (d' & Hd' & Hs). exists t, d'. split_and!; [|exact Hd'| |].
  - rewrite Eth. by eapply only_out.
  - rewrite Es, Eq, En. eapply lined_sublist; [exact Hl| |done]. apply sublist_app; [done|]. apply sublist_app; [done|].
    by apply sublist_app.
  - rewrite Eth, Eq. apply thread_ok_insert; [done|]. by destruct Hph as [-> | ->].
Qed.

(** A drainer of another session goes on, or dies. *)
Lemma other_drainer_in_line key s s' i k ph u' :
  in_line key s → threads s !! i = Some (Drain k ph) → k ≠ key →
  (u' = Over ∨ ∃ ph', u' = Drain k ph' ∧ match ph' with Starting k' _ _ => k' = k | _ => True end) →
  threads s' = <[i := u']> (threads s) → next s' = next s → started key s' = started key s →
  queue_of (queues s') key = queue_of (queues s) key → in_line key s'.
Proof.
  intros (t & d & Ht & Hd & Hl & Hok) Ei Hk Hu Eth En Es Eq. exists t, d. rewrite Eth, En, Es, Eq.
  split_and!; [| |exact Hl|].
  - eapply only_out; [exact Ht|exact Ei|done|]. by destruct Hu as [-> |(ph' & -> & _)].
  - eapply only_out; [exact Hd|exact Ei|simpl; by rewrite decide_False|].
    destruct Hu as [-> |(ph' & -> & _)]; [done|]. simpl. by rewrite decide_False.
  - apply thread_ok_insert; [done|]. destruct Hu as [-> |(ph' & -> & Hph)]; [done|]. by destruct ph'.
Qed.

(** A thread that becomes a drainer, where there is none, or goes away. *)
Lemma new_drainer_in_line key s s' i u u' k :
  in_line key s → threads s !! i = Some u → (u = Running k ∨ ∃ m, u = Turn k m) → (u' = Over ∨ u' = Drain k Taking) →
  (∀ p, Drain k p ∉ threads s) →
  threads s' = <[i := u']> (threads s) → next s' = next s → started key s' = started key s →
  queue_of (queues s') key = queue_of (queues s) key → in_line key s'.
Proof.
  intros (t & d & Ht & Hd & Hl & Hok) Ei Hu Hu' Hno Eth En Es Eq.
  assert (Hud : in_drain key u = None) by (by destruct Hu as [-> | [m ->]]).
  assert (Hut' : in_turn key u' = None) by (by destruct Hu' as [-> | ->]).
  assert (Hx : only (in_drain key) (threads s') d).
  { rewrite Eth. destruct Hu' as [-> | ->]; [by eapply only_out|]. destruct (decide (k = key)) as [->|Hk].
    - assert (Hn : ∀ v, v ∈ threads s → in_drain key v = None).
      { intros v Hv. destruct v as [| |k' p|]; try done. simpl. case_decide as Hkk; [|done]. subst. by destruct (Hno p). }
      pose proof (only_empty _ _ _ Hn Hd) as ->. apply only_enter; [done|by eapply lookup_lt_Some|].
      simpl. by rewrite decide_True.
    - eapply only_out; [exact Hd|exact Ei|exact Hud|]. simpl. by rewrite decide_False. }
  assert (Hy : ∃ t', only (in_turn key) (threads s') t' ∧ t' `sublist_of` t).
  { rewrite Eth. destruct (in_turn key u) as [y|] eqn:Ey.
    - destruct (only_leave (in_turn key) _ _ _ u' _ _ Ht Ei Ey Hut') as [-> Ht']. exists []. split; [done|apply sublist_nil_l].
    - exists t. split; [|done]. by eapply only_out. }
  destruct Hy as (t' & Ht' & Hs). exists t', d. split_and!; [exact Ht'|exact Hx| |].
  - rewrite Es, Eq, En. eapply lined_sublist; [exact Hl| |done]. apply sublist_app; [done|]. by apply sublist_app.
  - rewrite Eth, Eq. apply thread_ok_insert; [done|]. by destruct Hu' as [-> | ->].
Qed.

Lemma advance_in_line mode key s i s' :
  permits_match s → in_line key s → orderly s (Advance i) → step mode s (Advance i) = Some s' → in_line key s'.
Proof.
  intros Hp Hin Ho. simpl. destruct (threads s !! i) as [[| |k ph|]|] eqn:Ei; try done.
  unfold advance. destruct ph as [|m ks|k' m ks|]; [| |done|].
  - (* a drainer takes *)
    destruct (take_next mode (queues s) k) as [taken qs] eqn:Et.
    destruct (decide (k = key)) as [->|Hk].
    2: { pose proof (take_other _ _ _ _ _ key Et Hk) as Hq.
         destruct taken as [|m ms]; [|destruct (prepare_replay mode (map params (m :: ms))) as [p keys|keys|]]; intros [= <-].
         - apply (drop_in_line key s _ i k Taking Finishing Hin Ei); auto.
         - apply (other_drainer_in_line key s _ i k Taking (Drain k (Sending {| params := p; origin := origins (m :: ms) |} keys)) Hin Ei); auto.
           by right; exists (Sending {| params := p; origin := origins (m :: ms) |} keys).
         - apply (drop_in_line key s _ i k Taking Taking Hin Ei); auto; [by rewrite list_insert_id|].
           by rewrite started_settle, app_nil_r.
         - apply (other_drainer_in_line key s _ i k Taking Over Hin Ei); auto. by rewrite started_settle, app_nil_r. }
    destruct Hin as (t & d & Ht & Hd & Hl & Hok).
    destruct (take_here _ _ _ _ _ Et) as (Hms & Hdr & Hdr' & _).
    assert (Hd0 : d = []) by (by eapply (only_at _ _ _ _ _ _ Hd Ei); simpl; rewrite decide_True).
    subst d. rewrite Hms, origins_app in Hl. cbn [app] in Hl.
    assert (Hok' : ∀ u, u ∈ threads s → thread_ok key (draining (queue_of qs key)) u).
    { intros u Hu. specialize (Hok u Hu). destruct u as [| |k' [|m' ks'|k2 m' ks'|]|]; try done; simpl in *; naive_solver. }
    assert (Hsw : ∀ ph y, in_drain key (Drain key ph) = Some y → only (in_drain key) (<[i := Drain key ph]> (threads s)) y).
    { intros ph y Hy. apply (only_swap (in_drain key) _ i (Drain key Taking) _ [] [] y Hd Ei); [simpl; by rewrite decide_True|done]. }
    assert (Htu : ∀ u, in_turn key u = None → only (in_turn key) (<[i := u]> (threads s)) t) by (intros u Hu; by eapply only_out).
    destruct taken as [|m ms]; [|destruct (prepare_replay mode (map params (m :: ms))) as [p keys|keys|] eqn:Epr]; intros [= <-].
    + exists t, []. split_and!; [by apply Htu|by apply Hsw; simpl; rewrite decide_True|exact Hl|by apply thread_ok_insert].
    + exists t, (origins (m :: ms)). split_and!; [by apply Htu|by apply Hsw; simpl; rewrite decide_True|exact Hl|].
      apply thread_ok_insert; [done|]. intros _. split; [by apply Hdr|]. by eapply prepare_replay_flag.
    + exists t, []. split_and!; [exact Ht|exact Hd| |exact Hok']. rewrite started_settle, app_nil_r.
      eapply lined_sublist; [exact Hl| |done]. apply sublist_app; [done|]. apply sublist_app; [done|]. by apply sublist_inserts_l.
    + exists t, []. split_and!; [by apply Htu| | |by apply thread_ok_insert].
      * eapply (only_leave (in_drain key) _ i (Drain key Taking) Over [] []); [exact Hd|exact Ei|simpl; by rewrite decide_True|done].
      * rewrite started_settle, app_nil_r.
        eapply lined_sublist; [exact Hl| |done]. apply sublist_app; [done|]. apply sublist_app; [done|]. by apply sublist_inserts_l.
  - (* its replay is admitted *)
    destruct (admission s (params m) (origin m)) as [[s1 b]|] eqn:Ea; [|done]. cbn [mbind option_bind]. intros [= <-].
    rewrite (Ho _ _ _ Ei). destruct (admission_permits _ _ _ _ _ Ea) as [Hth _].
    destruct (admission_log _ _ _ _ _ key Ea) as [Hlog Hnx].
    destruct (decide (k = key)) as [->|Hk].
    2: { pose proof (admission_queue _ _ _ _ _ key Ea) as Hq. rewrite (Ho _ _ _ Ei) in Hq. specialize (Hq Hk).
         eapply (other_drainer_in_line key s _ i k (Sending m ks) (Drain k _) Hin Ei Hk); [|simpl; by rewrite Hth|done..].
         right. eexists. split; [done|]. by destruct b. }
    destruct Hin as (t & d & Ht & Hd & Hl & Hok).
    destruct (Hok _ (list_elem_of_lookup_2 _ _ _ Ei) eq_refl) as [Hdr Hfl].
    assert (Hd0 : d = origin m) by (by eapply (only_at _ _ _ _ _ _ Hd Ei); simpl; rewrite decide_True). subst d.
    pose proof (Ho _ _ _ Ei) as Hkey. unfold admission in Ea. destruct (queued_params (params m)) as [q|]; [|done].
    cbn [mbind option_bind] in Ea. rewrite Hkey in Ea.
    destruct (admit_queued_turn _ _ _ _ _) as [qs a] eqn:E. apply admit_here in E as [Hdr' Hms]. simpl in Hms.
    rewrite Hdr, Hfl in *. simpl in Hms.
    assert (Hsw : ∀ ph y, in_drain key (Drain key ph) = Some y → only (in_drain key) (<[i := Drain key ph]> (threads s)) y).
    { intros ph y Hy. apply (only_swap (in_drain key) _ i (Drain key (Sending m ks)) _ (origin m) (origin m) y Hd Ei);
        [simpl; by rewrite decide_True|done]. }
    destruct a as [|n]; injection Ea as <- <-.
    + destruct Hms as (Hmq & _ & _). exists t, (origin m). split_and!.
      * by eapply only_out.
      * apply Hsw. simpl. by rewrite decide_True.
      * change (lined (next s) (started key s ++ t ++ origin m ++ origins (messages (queue_of qs key)))). by rewrite Hmq.
      * change (∀ u, u ∈ <[i := Drain key (Starting key m ks)]> (threads s) → thread_ok key (draining (queue_of qs key)) u).
        rewrite Hdr'. apply thread_ok_insert; [done|]. by split.
    + destruct Hms as [Hmq _]. exists t, []. split_and!.
      * by eapply only_out.
      * apply Hsw. simpl. by rewrite decide_True.
      * change (lined (next s) (started key s ++ t ++ [] ++ origins (messages (queue_of qs key)))). by rewrite Hmq.
      * change (∀ u, u ∈ <[i := Drain key Finishing]> (threads s) → thread_ok key (draining (queue_of qs key)) u).
        rewrite Hdr'. by apply thread_ok_insert.
  - (* it says it has finished *)
    intros [= <-]. destruct (decide (k = key)) as [->|Hk].
    2: { eapply (other_drainer_in_line key s _ i k Finishing Over Hin Ei Hk); [by left|done..|].
         simpl. by rewrite finish_queue, decide_False. }
    destruct Hin as (t & d & Ht & Hd & Hl & Hok).
    assert (Hfi : in_drain key (Drain key Finishing) = Some []) by (simpl; by rewrite decide_True).
    destruct (only_in _ _ _ _ _ _ Hd Ei Hfi) as [-> Hu]. exists t, []. simpl. rewrite finish_queue, decide_True by done. simpl.
    split_and!; [by eapply only_out|by eapply (only_leave (in_drain key) _ i _ Over [] []); [exact Hd|exact Ei|..]|exact Hl|].
    intros u [j Hj]%list_elem_of_lookup. destruct (decide (i = j)) as [<-|Hij].
    + apply list_lookup_insert_Some in Hj as [(_ & <- & _)|[]]; done.
    + rewrite list_lookup_insert_ne in Hj by done. destruct u as [| |k' ph|]; try done.
      assert (k' ≠ key). { intros ->. apply Hij. symmetry. eapply Hu; [exact Hj|]. simpl. by rewrite decide_True. }
      specialize (Hok _ (list_elem_of_lookup_2 _ _ _ Hj)). destruct ph; simpl in *; try done. by destruct Hok.
Qed.

Lemma step_in_line mode key s e s' :
  permits_match s → in_line key s → orderly s e → step mode s e = Some s' → in_line key s'.
Proof.
  intros Hp Hin Ho. destruct e as [p|p|i|i|i|i|i|k|conn k].
  - simpl. destruct (admission s p [next s]) as [[s1 b]|] eqn:Ea; [|done]. cbn [mbind option_bind]. intros [= <-].
    by eapply send_in_line.
  - simpl. set (k := session_of s p). destruct (_ || _) eqn:Eb; intros [= <-].
    + destruct Hin as (t & d & Ht & Hd & Hl & Hok). exists t, d. split_and!; [exact Ht|exact Hd| |exact Hok].
      change (lined (S (next s)) (started key (settle Refused [next s] s) ++ t ++ d ++ origins (messages (queue_of (queues s) key)))).
      rewrite started_settle, app_nil_r. eapply lined_sublist; [exact Hl|done|lia].
    + apply orb_false_iff in Eb as [Eb Hper]. apply orb_false_iff in Eb as [Edr Em]. apply bool_decide_eq_false in Hper.
      eapply (acquired_in_line key s _ p k); try done. by destruct (messages _).
  - by apply begin_in_line.
  - simpl. destruct (threads s !! i) as [[k m| |k [|m ks|k' m ks|]|]|] eqn:Ei; try done; intros [= <-].
    + eapply (new_drainer_in_line key s _ i _ (if queued_replay (params m) then Over else Drain k Taking) k Hin Ei); auto.
      * right. by exists m.
      * destruct (queued_replay (params m)); auto.
      * apply Ho. right. by exists m.
      * by rewrite started_settle, app_nil_r.
    + eapply (drop_in_line key s _ i k _ Taking Hin Ei); auto. by rewrite started_settle, app_nil_r.
  - by apply advance_in_line.
  - simpl. destruct (threads s !! i) as [[| |k [|m ks| |]|]|] eqn:Ei; try done. intros [= <-].
    eapply (drop_in_line key s _ i k _ Taking Hin Ei); auto. by rewrite started_settle, app_nil_r.
  - simpl. destruct (threads s !! i) as [[|k| |]|] eqn:Ei; try done. intros [= <-].
    eapply (new_drainer_in_line key s _ i _ (Drain k Taking) k Hin Ei); auto.
  - simpl. destruct (cancel_queued_messages (queues s) k) as [qs removed] eqn:Ec. intros [= <-].
    destruct Hin as (t & d & Ht & Hd & Hl & Hok). pose proof (cancel_queue _ _ _ _ key Ec) as Hq.
    exists t, d. split_and!; [exact Ht|exact Hd| |]; simpl; rewrite ?Hq.
    + rewrite started_settle, app_nil_r. eapply lined_sublist; [exact Hl| |done]. simpl. case_decide; [|done].
      do 3 (apply sublist_app; [done|]). simpl. apply sublist_nil_l.
    + by case_decide.
  - intros [= <-]. exact Hin.
Qed.

Lemma reached_in_line mode s key : reached mode orderly s → in_line key s.
Proof.
  induction 1 as [|s e s' Hr IH Ho Hs].
  - exists [], []. split_and!; [by apply only_none; intros u ?%elem_of_nil|by apply only_none; intros u ?%elem_of_nil| |by intros u ?%elem_of_nil].
    split; constructor.
  - eapply step_in_line; [by eapply reached_permits|exact IH|exact Ho|exact Hs].
Qed.

(** Messages of a session start in the order in which they arrived.  As long as callers do not
    claim to be replays, a replay stays with the session of its queue, and no run of a session
    ends while a drainer of it is still at work, whatever else interleaves: the runs that have
    started, then the turn being prepared, then the messages being replayed, then the queue, are
    numbered in increasing order; so a message that waits is never overtaken by a later one, in
    both modes, also when a replay finds the session busy and goes back to the queue. *)
Theorem replay_in_order mode s key :
  reached mode orderly s →
  StronglySorted lt (started key s) ∧
  ∀ x y, x ∈ started key s → y ∈ origins (messages (queue_of (queues s) key)) → x < y.
Proof.
  intros Hr. pose proof (reached_in_line _ _ key Hr) as Hl.
  destruct Hl as (t & d & _ & _ & [Hl _] & _). split.
  - by apply StronglySorted_app_1_l in Hl.
  - intros x y Hx Hy. eapply StronglySorted_app_1_elem_of; [exact Hl|exact Hx|]. rewrite !elem_of_app. auto.
Qed.

(** ** A queued message has a thread *)

(** The thread will look into the queue of the session, now or after what it does. *)
Definition will_take (key : str) (t : Thread) : bool :=
  match t with
  | Turn k _ | Running k => bool_decide (k = key)
  | Drain _ Finishing | Over => false
  | Drain k _ => bool_decide (k = key)
  end.
Definition drainer (key : str) (t : Thread) : bool :=
  match t with Drain k _ => bool_decide (k = key) | _ => false end.

(** Params as serde_json builds them, and an object. *)
Definition proper (p : json) : Prop := is_obj p = true ∧ json_wf p.

(** As [orderly]; the params of a message are an object; and no message reaches an idle session
    between the two locks of a drainer that found nothing. *)
Definition timely (s : State) (e : Event) : Prop :=
  orderly s e ∧
  match e with
  | Send p => proper p ∧ (session_of s p ∈ permits s ∨ Drain (session_of s p) Finishing ∉ threads s)
  | _ => True
  end.

Definition hand_ok (t : Thread) : Prop :=
  match t with
  | Turn _ m => queued_replay (params m) = false
  | Drain _ (Sending m _) => proper (params m)
  | _ => True
  end.
Definition some_thread (f : Thread → bool) (ts : list Thread) : Prop := ∃ t, t ∈ ts ∧ f t = true.
Definition served (key : str) (s : State) : Prop :=
  (draining (queue_of (queues s) key) = true → some_thread (drainer key) (threads s)) ∧
  (messages (queue_of (queues s) key) ≠ [] → some_thread (will_take key) (threads s)) ∧
  Forall (λ m, proper (params m)) (messages (queue_of (queues s) key)) ∧
  Forall hand_ok (threads s).

Lemma some_thread_spawn f ts t : some_thread f ts → some_thread f (ts ++ [t]).
Proof. intros (u & Hu & Hf). exists u. split; [|done]. apply elem_of_app. by left. Qed.
Lemma some_thread_new f ts t : f t = true → some_thread f (ts ++ [t]).
Proof. intros Hf. exists t. split; [|done]. apply elem_of_app. right. by left. Qed.
Lemma some_thread_here f (ts : list Thread) i t t' : ts !! i = Some t → f t' = true → some_thread f (<[i := t']> ts).
Proof.
  intros Hi Hf. exists t'. split; [|done]. eapply list_elem_of_lookup_2, list_lookup_insert_eq, lookup_lt_Some, Hi.
Qed.
Lemma some_thread_insert f (ts : list Thread) i t t' :
  ts !! i = Some t → (f t = true → f t' = true) → some_thread f ts → some_thread f (<[i := t']> ts).
Proof.
  intros Hi Hf (u & [j Hj]%list_elem_of_lookup & Hu). destruct (decide (i = j)) as [<-|Hij].
  - simplify_eq. eapply some_thread_here; eauto.
  - exists u. split; [|done]. eapply list_elem_of_lookup_2. by rewrite list_lookup_insert_ne.
Qed.

(** *** Params stay proper *)

Lemma json_wf_array l : json_wf (JArray l) ↔ Forall json_wf l.
Proof. simpl. induction l as [|x l IH]; [split; by constructor|]. by rewrite Forall_cons, IH. Qed.
Lemma json_wf_object m : json_wf (JObject m) ↔ NoDup m.*1 ∧ Forall (λ kv, json_wf kv.2) m.
Proof.
  simpl. apply and_iff_compat_l. induction m as [|x m IH]; [split; by constructor|]. by rewrite Forall_cons, IH.
Qed.

Lemma insert_assoc_keys {V} k (v : V) m x : x ∈ (insert_assoc k v m).*1 → x = k ∨ x ∈ m.*1.
Proof.
  induction m as [|[k' v'] m IH]; simpl; [intros [->|?%elem_of_nil]%elem_of_cons; [by left|done]|]. case_bool_decide as Hk; simpl.
  - intros [->|?]%elem_of_cons; [by left|right; by right].
  - intros [->|[->|?]%IH]%elem_of_cons; [right; by left|by left|right; by right].
Qed.
Lemma insert_assoc_wf k v m : json_wf v → json_wf (JObject m) → json_wf (JObject (insert_assoc k v m)).
Proof.
  rewrite !json_wf_object. intros Hv. induction m as [|[k' v'] m IH]; simpl; intros [Hn Hf].
  - split; [|by constructor]. apply NoDup_singleton.
  - inversion_clear Hn. inversion_clear Hf. case_bool_decide as Hk; simpl.
    + subst. split; by constructor.
    + destruct IH as [? ?]; [done|]. split; constructor; try done. intros [->|?]%insert_assoc_keys; done.
Qed.

Lemma index_set_proper k v p p' : json_wf v → json_wf p → index_set k v p = Some p' → proper p'.
Proof.
  intros Hv Hp. destruct p as [| | | | |m]; try done; intros [= <-]; (split; [done|]).
  - apply json_wf_object. split; [apply NoDup_singleton|by constructor].
  - by apply insert_assoc_wf.
Qed.
Lemma index_set_total k v p : json_wf v → proper p → ∃ p', index_set k v p = Some p' ∧ proper p'.
Proof.
  intros Hv [Ho Hp]. destruct (index_set_obj k v p Ho) as (p' & E & _). exists p'. split; [done|].
  exact (index_set_proper k v p p' Hv Hp E).
Qed.
Lemma remove_key_proper k p : proper p → proper (remove_key k p).
Proof.
  intros [Ho Hp]. destruct p as [| | | | |m]; try done. split; [done|]. simpl. apply json_wf_object in Hp as [Hn Hf].
  apply json_wf_object. split; [|by eapply Forall_sublist; [apply sublist_filter|]].
  clear Hf Ho. induction m as [|[k' v] m IH]; [constructor|]. inversion_clear Hn as [|? ? Hni Hnd]. rewrite filter_cons.
  case_decide; [|by apply IH]. simpl. constructor; [|by apply IH]. intros Hin. apply Hni.
  apply list_elem_of_fmap in Hin as (x & -> & [_ Hx]%list_elem_of_filter). apply list_elem_of_fmap. by exists x.
Qed.

Lemma mark_proper p q : proper p → mark_public_channel p = Some q → proper q.
Proof.
  unfold mark_public_channel. intros Hp.
  destruct (if channel_bound p then _ else _) as [r|] eqn:Er; [|done]. cbn [mbind option_bind].
  assert (Hr : proper r).
  { destruct (channel_bound p); [by simplify_eq|]. eapply index_set_proper; [|apply Hp|exact Er].
    apply json_wf_object. split; [apply NoDup_nil_2|constructor]. }
  destruct (Json.get "channel" r) as [[]|] eqn:Eg; intros E; simplify_eq; try done.
  eapply index_set_proper; [|apply Hr|exact E]. apply insert_assoc_wf; [done|]. eapply json_wf_get; [apply Hr|exact Eg].
Qed.
Lemma untrusted_proper p q : proper p → apply_untrusted_request_context p = Some q → proper q.
Proof.
  unfold apply_untrusted_request_context. intros [_ Hp] (p1 & E1 & (p2 & E2 & E3)%bind_Some)%bind_Some.
  apply index_set_proper in E1 as [_ Hp1]; [|done|done]. apply index_set_proper in E2 as [_ Hp2]; [| |done].
  2: { apply json_wf_object. split; [apply NoDup_singleton|]. constructor; [|constructor]. by split. }
  apply index_set_proper in E3; [|done|done]. exact E3.
Qed.
Lemma queued_proper p q : proper p → queued_params p = Some q → proper q.
Proof.
  unfold queued_params. intros Hp.
  destruct (if allows_private_context p then _ else _) as [r|] eqn:Er; [|done]. cbn [mbind option_bind].
  assert (Hr : proper r) by (destruct (allows_private_context p); [by simplify_eq|by eapply mark_proper]).
  destruct (downgrade_queued_channel_request r _) as [[t b]|] eqn:Ed; [|done].
  assert (Ht : proper t).
  { unfold downgrade_queued_channel_request in Ed. destruct (_ || _); [by simplify_eq|].
    destruct (apply_untrusted_request_context r) as [u|] eqn:Eu; [|done]. simpl in Ed. simplify_eq. by eapply untrusted_proper. }
  destruct b; [by apply mark_proper|by intros [= <-]].
Qed.

(** *** A drainer takes something, and can send it *)

Lemma option_eqb_get k p : json_wf p → option_eqb json_eqb (Json.get k p) (Json.get k p) = true.
Proof.
  intros Hp. destruct (Json.get k p) as [v|] eqn:E; [|done]. by eapply json_eqb_refl, json_wf_get.
Qed.
Lemma reply_scope_wf t : json_wf t → json_wf (reply_scope t).
Proof.
  intros Ht. assert (Hv : ∀ k, json_wf (option_value (Json.get k t))).
  { intros k. destruct (Json.get k t) eqn:E; [|done]. by eapply json_wf_get. }
  apply json_wf_object. split.
  - unfold reply_scope. simpl. apply (bool_decide_unpack _). by vm_compute.
  - unfold reply_scope. simpl. by repeat (apply Forall_cons_2; [apply Hv|]).
Qed.
Lemma same_context_refl p : json_wf p → same_context p p = true.
Proof.
  intros Hp. unfold same_context, request_security_context. rewrite !option_eqb_get, Bool.eqb_reflx by done. simpl.
  apply andb_true_iff. split.
  - destruct (Json.get "channel" p) as [ch|] eqn:Ec; [|done]. simpl. apply option_eqb_get. by eapply json_wf_get.
  - destruct (Json.get "_channel_reply_target" p) as [t|] eqn:Et; [|done].
    apply (json_eqb_refl (reply_scope t)), reply_scope_wf. by eapply json_wf_get.
Qed.
Lemma split_takes p l : json_wf p → (split_by_request_security_context (p :: l)).1 ≠ [].
Proof.
  intros Hp. unfold split_by_request_security_context. cbn [list_find fst]. rewrite decide_False by (by rewrite same_context_refl by done).
  destruct (list_find _ l) as [[n x]|]; done.
Qed.
Lemma takes_something mode qs k qs' :
  take_next mode qs k = ([], qs') → Forall (λ m, proper (params m)) (messages (queue_of qs k)) → messages (queue_of qs k) = [].
Proof.
  unfold take_next, queue_of. destruct (qs !! k) as [q|]; [|done]. cbn [unwrap_or]. destruct mode.
  - by destruct (messages q).
  - destruct (messages q) as [|m ms]; [done|]. intros E [[_ Hm] _]%Forall_cons. exfalso.
    cbn [map] in E. pose proof (split_takes (params m) (map params ms) Hm) as Hne.
    apply (f_equal fst) in E. cbn [fst] in E. by destruct (split_by_request_security_context (params m :: map params ms)).1.
Qed.

Lemma strings_wf l : Forall json_wf (map JString l).
Proof. induction l; by constructor. Qed.
Lemma merge_blocks_wf l : Forall proper l → Forall json_wf (merge_content_blocks l).
Proof.
  induction 1 as [|p l [_ Hp] _ IH]; [constructor|]. unfold merge_content_blocks. cbn [mbind list_bind]. apply Forall_app. split; [|exact IH].
  assert (Ht : Forall json_wf (match message_text p with Some t => if is_nonempty t then [text_block t] else [] | None => [] end)).
  { destruct (message_text p) as [t|]; [|constructor]. destruct (is_nonempty t); [|constructor].
    constructor; [|constructor]. apply json_wf_object. split; [|by apply Forall_cons_2; [|apply Forall_cons_2]].
    unfold text_block. simpl. apply (bool_decide_unpack _). by vm_compute. }
  destruct (Json.get "content" p) as [v|] eqn:E; [|exact Ht]. apply json_wf_get in E; [|done].
  destruct v; try exact Ht. by apply json_wf_array.
Qed.
Lemma last_proper l p : Forall proper l → last l = Some p → proper p.
Proof. intros Hl Hp. rewrite last_lookup in Hp. by eapply (Forall_lookup_1 _ _ _ _ Hl Hp). Qed.
Lemma merge_into_proper k v dropped base : json_wf v → proper base → ∃ p, merge_into k v dropped base = Merge p ∧ proper p.
Proof.
  intros Hv Hb. unfold merge_into. destruct (index_set_total k v base Hv Hb) as (p & -> & Hp). eexists. split; [done|].
  revert p Hp. induction dropped as [|d dropped IH]; intros p Hp; [done|]. by apply IH, remove_key_proper.
Qed.
Lemma merge_proper l : Forall proper l → merge_collected l = NothingToMerge ∨ ∃ p, merge_collected l = Merge p ∧ proper p.
Proof.
  intros Hl. unfold merge_collected. destruct (existsb _ l).
  - unfold merge_collected_content. pose proof (merge_blocks_wf l Hl) as Hb.
    destruct (merge_content_blocks l) as [|b bs]; [by left|]. destruct (last l) as [base|] eqn:E; [|by left].
    right. apply merge_into_proper; [by apply json_wf_array|by eapply last_proper].
  - unfold merge_collected_text. destruct (omap message_text l); [by left|]. destruct (last l) as [base|] eqn:E; [|by left].
    right. apply merge_into_proper; [done|by eapply last_proper].
Qed.
Lemma replay_proper mode l :
  Forall proper l → (∃ keys, prepare_replay mode l = Abandon keys) ∨ ∃ p keys, prepare_replay mode l = Send_replay p keys ∧ proper p.
Proof.
  intros Hl. destruct mode; simpl.
  - destruct Hl as [|p l Hp _]; [left; by eexists|right].
    destruct (index_set_total (lit "_queued_replay") (JBool true) p I Hp) as (q & -> & ?). eauto.
  - unfold prepare_collected. destruct (merge_proper l Hl) as [->|(p & -> & Hp)]; [left; by eexists|right].
    destruct (index_set_total (lit "_queued_replay") (JBool true) p I Hp) as (q & -> & Hq). cbn [mbind option_bind].
    destruct (index_set_total ACK_KEYS (JArray (map JString (merged_ack_keys l))) q) as (q' & -> & ?);
      [apply json_wf_array, strings_wf|done|]. eauto.
Qed.

(** What an admission does to the queue of its session. *)
Lemma admission_here s p ids s1 b :
  admission s p ids = Some (s1, b) → proper p →
  let key := session_of s p in let q := queue_of (queues s) key in let q' := queue_of (queues s1) key in
  draining q' = draining q ∧
  (Forall (λ m, proper (params m)) (messages q) → Forall (λ m, proper (params m)) (messages q')) ∧
  if b then messages q' = messages q
  else key ∈ permits s ∨ queued_replay p && draining q = false ∧ (draining q = true ∨ messages q ≠ []).
Proof.
  unfold admission. destruct (queued_params p) as [r|] eqn:Er; [|done]. cbn [mbind option_bind].
  destruct (admit_queued_turn _ _ _ _ _) as [qs a] eqn:E. intros Ha Hp. apply queued_proper in Er; [|done].
  apply admit_here in E as [Hdr Hms]. destruct a as [|n]; injection Ha as <- <-; simpl in *.
  - destruct Hms as (-> & _ & _). auto.
  - destruct Hms as [-> Hwhy]. split_and!; [done| |].
    + intros Hf. destruct (_ && _); [by constructor|]. apply Forall_app. split; [done|by constructor].
    + destruct Hwhy as [Hb|Hwhy]; [left|by right]. apply negb_false_iff, bool_decide_eq_true in Hb. done.
Qed.

Lemma admission_threads s p ids s1 b : admission s p ids = Some (s1, b) → threads s1 = threads s.
Proof. intros Ha. by apply admission_permits in Ha as [? _]. Qed.

(** The thread that holds the permit of a session will look into its queue. *)
Lemma holder_will_take key s :
  permits_match s → in_line key s → key ∈ permits s → ∃ t, t ∈ threads s ∧ will_take key t = true ∧ holds t = Some key.
Proof.
  intros Hp (_ & _ & _ & _ & _ & Hok) Hk. destruct (permits_unique s Hp) as [_ Hh].
  apply Hh in Hk as (t & Ht & Hkey). exists t. split_and!; [done| |done]. specialize (Hok t Ht).
  destruct t as [k m|k|k [| |k' m ks|]|]; simplify_eq/=; try by apply bool_decide_eq_true.
  destruct Hok as [<- _]. by apply bool_decide_eq_true.
Qed.

(** What is served stays so when the queue of the session only loses messages and its flag only
    goes down, and the thread [i] is exchanged. *)
Lemma served_exchange key s s' i t t' :
  served key s → threads s !! i = Some t → threads s' = <[i := t']> (threads s) →
  (draining (queue_of (queues s') key) = true → draining (queue_of (queues s) key) = true) →
  messages (queue_of (queues s') key) `sublist_of` messages (queue_of (queues s) key) →
  (drainer key t = true → drainer key t' = true) → (will_take key t = true → will_take key t' = true) → hand_ok t' →
  served key s'.
Proof.
  intros (Hd & Hm & Ho & Hh) Hi Eth Hdr Hms Hdt Hwt Ht'. unfold served. rewrite Eth. split_and!.
  - intros Hx. eapply some_thread_insert; eauto.
  - intros Hx. eapply some_thread_insert; [exact Hi|exact Hwt|]. apply Hm. intros Hn. rewrite Hn in Hms.
    by apply sublist_nil_r in Hms.
  - by eapply Forall_sublist.
  - by apply Forall_insert.
Qed.

Lemma send_served key s p s1 b :
  permits_match s → in_line key s → served key s → timely s (Send p) → admission s p [next s] = Some (s1, b) →
  served key (numbered (if b then spawn (Turn (session_of s p) {| params := p; origin := [next s] |}) s1 else s1)).
Proof.
  intros Hp Hin (Hd & Hm & Ho & Hh) (Hrep & Hobj & Hfree) Ha. simpl in Hrep.
  pose proof (admission_threads _ _ _ _ _ Ha) as Hth. pose proof (admission_queue _ _ _ _ _ key Ha) as Hother.
  pose proof (admission_here _ _ _ _ _ Ha Hobj) as (Hdr & Hfo & Hwhy).
  destruct (decide (session_of s p = key)) as [Hk|Hk].
  - rewrite Hk in *. destruct b; unfold served; simpl; rewrite Hth, Hdr.
    + rewrite Hwhy. split_and!; [by intros ?; apply some_thread_spawn, Hd| |done|].
      * intros _. apply some_thread_new. simpl. by apply bool_decide_eq_true.
      * apply Forall_app. split; [done|]. by constructor.
    + split_and!; [done| |by apply Hfo|done]. intros _. destruct (decide (key ∈ permits s)) as [Hpk|Hpk].
      * destruct (holder_will_take key s Hp Hin Hpk) as (t & ? & ? & _). by exists t.
      * destruct Hwhy as [?|[_ [Hdrain|Hne]]]; [done| |by apply Hm]. destruct Hfree as [?|Hfree]; [done|].
        destruct (Hd Hdrain) as (t & Ht & Htd). exists t. split; [done|]. destruct t as [| |k ph|]; try done. simpl in Htd.
        apply bool_decide_eq_true in Htd as ->. destruct ph; simpl; try (by apply bool_decide_eq_true). done.
  - specialize (Hother Hk). destruct b; unfold served; simpl; rewrite Hth, Hother; [|by split_and!].
    split_and!; [by intros ?; apply some_thread_spawn, Hd|by intros ?; apply some_thread_spawn, Hm|done|].
    apply Forall_app. split; [done|]. by constructor.
Qed.

Lemma advance_served mode key s i s' :
  permits_match s → (∀ k, in_line k s) → (∀ k, served k s) → orderly s (Advance i) → step mode s (Advance i) = Some s' → served key s'.
Proof.
  intros Hp Hin Hsv Ho. simpl. destruct (threads s !! i) as [[| |k ph|]|] eqn:Ei; try done.
  pose proof (Hsv key) as (Hd & Hm & Hob & Hh). destruct ph as [|m ks|k' m ks|]; simpl; [| |done|].
  - destruct (take_next mode (queues s) k) as [taken qs] eqn:Et.
    pose proof (take_other _ _ _ _ _ key Et) as Hot. pose proof (take_here _ _ _ _ _ Et) as (Hcat & Hdr & Hdr' & _).
    destruct (Hsv k) as (_ & _ & Hobk & _). pose proof Hobk as Hobk0. rewrite Hcat in Hobk. apply Forall_app in Hobk as [Htk _].
    assert (Hmine : ∀ u, Forall hand_ok (<[i := u]> (threads s)) → drainer k u = true →
      (taken = [] ∨ will_take k u = true) → served key (set_thread i u (with_queues qs s))).
    { intros u Hu Hdu Hwu. destruct (decide (k = key)) as [->|Hk].
      - unfold served. simpl. split_and!; [| | |done].
        + intros _. by eapply some_thread_here.
        + intros Hne. destruct Hwu as [->|Hwu]; [|by eapply some_thread_here]. exfalso.
          pose proof (takes_something _ _ _ _ Et Hobk0) as Hnone. rewrite Hnone in Hcat. simpl in Hcat. by rewrite <- Hcat in Hne.
        + rewrite Hcat in Hob. by apply Forall_app in Hob as [_ ?].
      - eapply (served_exchange key s _ i (Drain k Taking) u); try done; simpl; rewrite ?Hot by done; try done;
          [by rewrite bool_decide_eq_false_2..|]. by eapply (Forall_lookup_1 _ _ _ _ Hu), list_lookup_insert_eq, lookup_lt_Some. }
    destruct taken as [|m0 taken].
    + intros [= <-]. apply Hmine; [by apply Forall_insert|simpl; by apply bool_decide_eq_true|by left].
    + destruct (replay_proper mode (map params (m0 :: taken))) as [(keys & ->)|(p & keys & -> & Hpr)]; [by apply Forall_map| |]; intros [= <-].
      * rewrite <- (list_insert_id (threads s) i _ Ei) in Hh.
        assert (Hsv' : served key (set_thread i (Drain k Taking) (with_queues qs s))).
        { apply Hmine; [done|simpl; by apply bool_decide_eq_true|right; simpl; by apply bool_decide_eq_true]. }
        unfold served, set_thread in Hsv'. simpl in Hsv'. by rewrite (list_insert_id (threads s) i _ Ei) in Hsv'.
      * apply Hmine; [by apply Forall_insert|simpl; by apply bool_decide_eq_true|right; simpl; by apply bool_decide_eq_true].
  - destruct (admission s (params m) (origin m)) as [[s1 b]|] eqn:Ea; [|done]. cbn [mbind option_bind]. intros [= <-].
    assert (Hobj : proper (params m)) by (by eapply (Forall_lookup_1 _ _ _ _ Hh Ei)).
    pose proof (admission_here _ _ _ _ _ Ea Hobj) as (Hdr & Hfo & Hwhy). pose proof (admission_queue _ _ _ _ _ key Ea) as Hot.
    pose proof (admission_threads _ _ _ _ _ Ea) as Hth. rewrite (Ho _ _ _ Ei) in *.
    destruct (decide (k = key)) as [->|Hk].
    + unfold served. simpl. rewrite Hth, Hdr. split_and!.
      * intros _. eapply some_thread_here; [exact Ei|]. simpl. by apply bool_decide_eq_true.
      * intros _. destruct b; [eapply some_thread_here; [exact Ei|]; simpl; by apply bool_decide_eq_true|].
        destruct Hwhy as [Hpk|[Hfl _]].
        -- destruct (holder_will_take key s Hp (Hin key) Hpk) as (t & Ht & Htk & Hkey).
           apply list_elem_of_lookup in Ht as [j Hj]. exists t. split; [|done]. eapply list_elem_of_lookup_2.
           rewrite list_lookup_insert_ne; [exact Hj|]. intros ->. by simplify_eq.
        -- destruct (Hin key) as (_ & _ & _ & _ & _ & Hok).
           destruct (Hok _ (list_elem_of_lookup_2 _ _ _ Ei) eq_refl) as [Hdt Hqr]. by rewrite Hdt, Hqr in Hfl.
      * by apply Hfo.
      * apply Forall_insert; [done|]. by destruct b.
    + eapply (served_exchange key s _ i _ (Drain k (if b then Starting k m ks else Finishing))); try done; simpl; rewrite ?Hth, ?Hot by done; try done.
      * by rewrite bool_decide_eq_false_2.
      * by destruct b.
  - intros [= <-]. destruct (decide (k = key)) as [->|Hk].
    + unfold served. simpl. rewrite finish_queue, decide_True by done. simpl. split_and!; [done| |done|by apply Forall_insert].
      intros Hne. eapply some_thread_insert; [exact Ei| |by apply Hm]. done.
    + eapply (served_exchange key s _ i); try done; simpl; rewrite ?finish_queue, ?decide_False by done; try done.
      by rewrite bool_decide_eq_false_2.
Qed.

Lemma step_served mode key s e s' :
  permits_match s → (∀ k, in_line k s) → (∀ k, served k s) → timely s e → step mode s e = Some s' → served key s'.
Proof.
  intros Hp Hin Hsv Hok. pose proof (Hsv key) as Hk. destruct e as [p|p|i|i|i|i|i|k|conn k].
  - simpl. destruct (admission s p [next s]) as [[s1 b]|] eqn:Ea; [|done]. cbn [mbind option_bind]. intros [= <-].
    by eapply send_served.
  - simpl. destruct (_ || _); intros [= <-]; [exact Hk|]. destruct Hk as (Hd & Hm & Ho & Hh). destruct Hok as [Hrep _].
    unfold served. simpl.
    split_and!; [by intros ?; apply some_thread_spawn, Hd|by intros ?; apply some_thread_spawn, Hm|done|].
    apply Forall_app. split; [done|]. by constructor.
  - simpl. destruct (threads s !! i) as [[k m| |k [| |k' m ks|]|]|] eqn:Ei; try done; intros [= <-].
    + by eapply (served_exchange key s _ i).
    + destruct (Hin key) as (_ & _ & _ & _ & _ & Hth). destruct (Hth _ (list_elem_of_lookup_2 _ _ _ Ei)) as [-> _].
      destruct Hk as (Hd & Hm & Ho & Hh). unfold served. simpl. split_and!; [|intros Hne|done|].
      * intros Hdr. apply some_thread_spawn. eapply some_thread_insert; [exact Ei|done|by apply Hd].
      * destruct (decide (k = key)) as [->|Hkk]; [apply some_thread_new; simpl; by apply bool_decide_eq_true|].
        apply some_thread_spawn. eapply some_thread_insert; [exact Ei| |by apply Hm].
        simpl. by rewrite bool_decide_eq_false_2.
      * apply Forall_app. split; [by apply Forall_insert|by constructor].
  - simpl. destruct (threads s !! i) as [[k m| |k [| |k' m ks|]|]|] eqn:Ei; try done; intros [= <-].
    + destruct Hk as (Hd & Hm & Ho & Hh). assert (Hrep : queued_replay (params m) = false) by (by eapply (Forall_lookup_1 _ _ _ _ Hh Ei)).
      rewrite Hrep. by eapply (served_exchange key s _ i).
    + by eapply (served_exchange key s _ i).
  - eapply advance_served; eauto. by destruct Hok.
  - simpl. destruct (threads s !! i) as [[| |k [|m ks| |]|]|] eqn:Ei; try done. intros [= <-]. by eapply (served_exchange key s _ i).
  - simpl. destruct (threads s !! i) as [[|k| |]|] eqn:Ei; try done. intros [= <-]. by eapply (served_exchange key s _ i).
  - simpl. destruct (cancel_queued_messages (queues s) k) as [qs removed] eqn:Ec. intros [= <-].
    pose proof (cancel_queue _ _ _ _ key Ec) as Hq. destruct Hk as (Hd & Hm & Ho & Hh). unfold served. simpl. rewrite Hq.
    case_decide; simpl; by split_and!.
  - intros [= <-]. exact Hk.
Qed.

Lemma reached_mono mode (ok ok' : State → Event → Prop) s :
  (∀ s e, ok s e → ok' s e) → reached mode ok s → reached mode ok' s.
Proof. intros Hm. induction 1; econstructor; eauto. Qed.

(** C19. A queued message has a thread that will take it, in both modes, as long as the params of
    messages are objects, callers do not claim to be replays, a replay stays with the session of its
    queue, no run of a session ends while a drainer of it is still at work, and no message reaches an
    idle session between the two locks of a drainer that found nothing.  Then, whenever messages wait in
    a queue, some thread is preparing a turn of the session, runs it, or is draining the queue and not
    about to leave it; and the queue is marked as being drained only while a drainer is there.  Failed
    turns, refused replays, replays that find the session busy, cancellations, merges and all other
    sessions included.  Without the provisos messages get stuck ([session_gets_stuck],
    [overlapping_drains_stick], [forged_replay_sticks], [moved_replay_sticks]). *)
Theorem queued_is_served mode s key :
  reached mode timely s →
  (messages (queue_of (queues s) key) ≠ [] →
     ∃ t, t ∈ threads s ∧
       match t with Turn k _ | Running k => k = key | Drain k p => k = key ∧ p ≠ Finishing | Over => False end) ∧
  (draining (queue_of (queues s) key) = true → ∃ p, Drain key p ∈ threads s).
Proof.
  intros Hr. assert (Hs : ∀ k, served k s).
  { induction Hr as [|s e s' Hr IH Ho Hs]; intros k; [split_and!; done|]. eapply step_served; [..|exact Ho|exact Hs].
    - by eapply reached_permits.
    - intros k'. eapply reached_in_line, reached_mono, Hr. by intros ?? [? _].
    - exact IH. }
  destruct (Hs key) as (Hd & Hm & _). split.
  - intros (t & Ht & Hw)%Hm. exists t. split; [done|].
    destruct t as [| |k []|]; simpl in Hw; try done; apply bool_decide_eq_true in Hw; try done; by split.
  - intros (t & Ht & Hw)%Hd. destruct t as [| |k p|]; try done. simpl in Hw. apply bool_decide_eq_true in Hw as ->. by exists p.
Qed.

(** ** Runs *)

(** Reached by events that satisfy [ok], given how each is checked. *)
Fixpoint steps_ok (mode : MessageQueueMode) (ok : State → Event → Prop) (s : State) (es : list Event) : Prop :=
  match es with
  | [] => True
  | e :: es' => ok s e ∧ match step mode s e with Some s' => steps_ok mode ok s' es' | None => False end
  end.
Lemma steps_reached mode ok es s s' :
  reached mode ok s → steps_ok mode ok s es → steps mode s es = Some s' → reached mode ok s'.
Proof.
  revert s; induction es as [|e es IH]; intros s Hr; simpl; [by intros _ [= <-]|]. intros [Ho Hes].
  destruct (step mode s e) as [s1|] eqn:E; [|done]. simpl. apply IH; [|done]. by eapply reached_step.
Qed.
Lemma steps_ok_any mode s es : isSome (steps mode s es) = true → steps_ok mode any_event s es.
Proof.
  revert s; induction es as [|e es IH]; intros s; simpl; [done|]. destruct (step mode s e) as [s1|]; [|done]. simpl. by split; auto.
Qed.
Definition state_after (mode : MessageQueueMode) (es : list Event) : State := unwrap_or init (steps mode init es).
Lemma reached_after mode es : isSome (steps mode init es) = true → reached mode any_event (state_after mode es).
Proof.
  intros Hs. unfold state_after. pose proof (steps_ok_any _ _ _ Hs) as Ho. destruct (steps mode init es) as [s|] eqn:E; [|done].
  eapply steps_reached; [constructor|exact Ho|exact E].
Qed.

Definition to_main (t : string) : Event := Send (text_to "main" t).

(** Three messages: the first one runs while the others wait, and each is replayed after the run
    before it. *)
Definition in_turns : list Event :=
  [to_main "a"; Begin 0; to_main "b"; to_main "c"; End_run 0; Advance 0; Advance 0; Begin 0; Advance 0;
   End_run 1; Advance 1; Advance 1; Begin 1; Advance 1].

(** The drainer of the first run is still at work when the second run ends, and takes back the
    claim of the drainer of the second one: the last message passes the one that waits. *)
Definition overtaking : list Event :=
  [to_main "a"; Begin 0; to_main "b"; to_main "c"; End_run 0; Advance 0; Advance 0; Begin 0;
   End_run 1; Advance 1; Advance 0; to_main "d"; Begin 2; End_run 2; Advance 1; Begin 1].

Example in_turns_started : started "main" (state_after Followup in_turns) = [0; 1; 2].
Proof. by vm_compute. Qed.
Example arrival_overtakes : started "main" (state_after Followup overtaking) = [0; 1; 3; 2].
Proof. by vm_compute. Qed.

(** A caller's flag is taken for that of a replay: while the queue is being drained the message is
    admitted before the one that waits. *)
Example forged_replay_overtakes :
  let forged := JObject [(lit "text", JString (lit "d")); (lit "sessionKey", JString (lit "main")); (lit "_queued_replay", JBool true)] in
  started "main" (state_after Followup
    [to_main "a"; Begin 0; to_main "b"; to_main "c"; End_run 0; Advance 0; Send forged; Begin 1]) = [0; 3].
Proof. by vm_compute. Qed.

(** A message that names no session goes to the active one of its connection; when that changes
    while it waits, its replay runs in the other session. *)
Example replay_changes_session :
  let p := JObject [(lit "text", JString (lit "b")); (lit "_conn_id", JString (lit "c1"))] in
  let s := state_after Followup [to_main "a"; Begin 0; Send p; Switch "c1" "other"; End_run 0; Advance 0; Advance 0; Begin 0] in
  started "main" s = [0] ∧ started "other" s = [1].
Proof. by vm_compute. Qed.

(** The provisos of [queued_is_served] are needed: stuck sessions, with nothing but a caller's call
    between them and their messages. *)
Definition stuckb (key : str) (s : State) : bool :=
  is_nonempty (messages (queue_of (queues s) key)) && negb (draining (queue_of (queues s) key)) &&
  forallb (λ t, negb (bool_decide (holds t = Some key)) && negb (drainer key t)) (threads s).
Lemma stuckb_stuck key s : stuckb key s = true → stuck key s.
Proof.
  intros [[Hm Hd]%andb_true_iff Ht]%andb_true_iff. split_and!; [by destruct (messages _)|by apply negb_true_iff in Hd|].
  rewrite forallb_forall in Ht. intros t Hin%list_elem_of_In%Ht.
  apply andb_true_iff in Hin as [Hh%negb_true_iff Hk%negb_true_iff]. apply bool_decide_eq_false in Hh. split; [done|].
  intros ph ->. simpl in Hk. by apply bool_decide_eq_false in Hk.
Qed.

(** The second run ends while the drainer of the first one is still at work; it takes back the claim
    under the replay of the other one, which is queued behind the message that waits. *)
Example overlapping_drains_stick :
  stuck "main" (state_after Followup
    [to_main "a"; Begin 0; to_main "b"; to_main "c"; to_main "d"; End_run 0; Advance 0; Advance 0; Begin 0;
     End_run 1; Advance 1; Advance 0; Advance 1; Advance 1]).
Proof. apply stuckb_stuck. by vm_compute. Qed.

(** A message with a forged flag takes the turn that was reserved, and fails. *)
Example forged_replay_sticks :
  let forged := JObject [(lit "text", JString (lit "d")); (lit "sessionKey", JString (lit "main")); (lit "_queued_replay", JBool true)] in
  stuck "main" (state_after Followup
    [to_main "a"; Begin 0; to_main "b"; End_run 0; Advance 0; Send forged; Advance 0; Advance 0; Fail_turn 1]).
Proof. apply stuckb_stuck. by vm_compute. Qed.

(** A replay that moves to another session leaves the rest of the queue behind. *)
Example moved_replay_sticks :
  let p := JObject [(lit "text", JString (lit "b")); (lit "_conn_id", JString (lit "c1"))] in
  stuck "main" (state_after Followup
    [to_main "a"; Begin 0; Send p; to_main "c"; Switch "c1" "other"; End_run 0; Advance 0; Advance 0; Begin 0; Advance 0]).
Proof. apply stuckb_stuck. by vm_compute. Qed.

(** Collected, the documents of all messages but the last one are dropped. *)
Example collected_documents_dropped :
  let files := JArray [JObject [(lit "name", JString (lit "a.pdf"))]] in
  let p := JObject [(lit "text", JString (lit "see")); (lit "_document_files", files)] in
  let q := JObject [(lit "text", JString (lit "this"))] in
  merge_collected [p; q] = Merge (JObject [(lit "text", JString (lit "see" ++ blank_line ++ lit "this"))]).
Proof. by vm_compute. Qed.

(** ** Witnesses *)

Lemma messages_accounted_witness :
  reached Collect any_event (state_after Collect race) ∧
  ∀ x, let s := state_after Collect race in
    occurrences x (settled s) + occurrences x (in_flight s) + occurrences x (queued_ids (queues s)) = if x <? next s then 1 else 0.
Proof.
  assert (Hr : reached Collect any_event (state_after Collect race)) by (apply reached_after; by vm_compute).
  split; [exact Hr|]. intros x. exact (messages_accounted Collect _ Hr x).
Defined.

Lemma one_turn_per_session_witness :
  let s := state_after Followup (take 8 in_turns) in
  reached Followup any_event s ∧ permits s = {[lit "main"]} ∧ ∃ t, t ∈ threads s ∧ holds t = Some (lit "main").
Proof.
  intros s. assert (Hr : reached Followup any_event s) by (apply reached_after; by vm_compute).
  split_and!; [exact Hr|by vm_compute|]. apply (one_turn_per_session Followup s Hr). by vm_compute.
Defined.

(** The provisos of a concrete run hold. *)
Ltac run_ok :=
  vm_compute; repeat split; intros;
  repeat match goal with
  | H : _ ∨ _ |- _ => destruct H
  | H : ∃ _, _ |- _ => destruct H
  | H : _ ∈ _ |- _ => inversion H; clear H
  | H : list_elem_of _ _ |- _ => inversion H; clear H
  | |- _ ∨ _ => first [by left | right; intros ?]
  | _ => progress simplify_eq
  end; try done; try (apply (bool_decide_unpack _); by vm_compute).

Lemma in_turns_timely n : n = 4 ∨ n = 12 → reached Followup timely (state_after Followup (take n in_turns)).
Proof.
  intros Hn. eapply (steps_reached _ _ (take n in_turns) init); [constructor| |].
  - destruct Hn as [-> | ->]; run_ok.
  - destruct Hn as [-> | ->]; by vm_compute.
Qed.

Lemma in_turns_orderly : reached Followup orderly (state_after Followup (take 12 in_turns)).
Proof. eapply reached_mono, in_turns_timely; [by intros ?? [? _]|auto]. Qed.

Lemma replay_in_order_witness :
  let s := state_after Followup (take 12 in_turns) in
  reached Followup orderly s ∧ started "main" s = [0; 1] ∧ StronglySorted lt (started "main" s).
Proof.
  intros s. split_and!; [exact in_turns_orderly|by vm_compute|]. by destruct (replay_in_order Followup s "main" in_turns_orderly).
Defined.


Lemma queued_is_served_witness :
  let s := state_after Followup (take 4 in_turns) in
  reached Followup timely s ∧ messages (queue_of (queues s) "main") ≠ [] ∧
  ∃ t, t ∈ threads s ∧ match t with Turn k _ | Running k => k = lit "main" | Drain k p => k = lit "main" ∧ p ≠ Finishing | Over => False end.
Proof.
  intros s. assert (Hr : reached Followup timely s) by (apply in_turns_timely; auto).
  assert (Hm : messages (queue_of (queues s) "main") ≠ []) by (by vm_compute).
  split_and!; [exact Hr|exact Hm|]. by apply (queued_is_served Followup s "main" Hr).
Defined.
