(* ===== verification/Sanitize.v ===== *)
(** Text between the tools and the models.

    Models [crates/agents/src/runner/tool_result.rs] (what of a tool's result the model gets) and
    [crates/agents/src/response_sanitizer.rs] (what of a model's response the user gets, and the
    tool calls some models write as XML).

    A loop over [rest.find(..)] takes the rest of the text and a fuel; every round consumes a
    marker, so one round more than there are chars is enough ([rounds_enough],
    [strip_stop_enough], [recover_enough]).

    Theorems: a tool's result reaches the model bounded and without binary dumps
    ([sanitize_tool_result_spec]); the cleaning of a response only removes, and leaves a text
    without markers alone ([clean_response_sound]). *)
From S2P Require Import Prelude Json Utf8 ToolArgs ToolParsing.

(** * Tool results *)

Definition BASE64_TAG : str := "data:".
Definition BASE64_MARKER : str := ";base64,".
Definition BLOB_MIN_LEN : nat := 200.

Definition is_base64_byte (b : N) : bool :=
  is_ascii_alphanumeric b || (b =? ch "+")%N || (b =? ch "/")%N || (b =? ch "=")%N.

(** The data URI whose text after the tag is [after_tag]: the MIME type, where the payload
    starts and how long it is. *)
Definition data_uri (after_tag : str) : option (str * nat * nat) :=
  marker_pos ← find BASE64_MARKER after_tag;
  let payload_start := marker_pos + length BASE64_MARKER in
  Some (take marker_pos after_tag, payload_start,
        length (take_while is_base64_byte (drop payload_start after_tag))).

(** [total_uri_len]: in bytes, the MIME type may hold any char. *)
Definition uri_len (after_tag : str) (consumed : nat) : nat :=
  length BASE64_TAG + utf8_len (take consumed after_tag).

Definition blob_placeholder (mime_part : str) (total_uri_len : nat) : str :=
  if starts_with "image/" mime_part then "[screenshot captured and displayed in UI]"
  else lit "[" ++ mime_part ++ lit " data removed " ++ [8212%N] ++ lit " " ++ show_nat total_uri_len ++ lit " bytes]".

(** A loop that emits text and goes on with the rest of the input, or stops. *)
Fixpoint rounds (round : str → str * option str) (fuel : nat) (rest : str) : str :=
  match fuel with
  | 0 => rest
  | S fuel' =>
      let '(out, next) := round rest in
      out ++ match next with Some rest' => rounds round fuel' rest' | None => [] end
  end.
Definition loop (round : str → str * option str) (text : str) : str := rounds round (S (length text)) text.

Definition base64_round (rest : str) : str * option str :=
  match find BASE64_TAG rest with
  | None => (rest, None)
  | Some start =>
      let before := take start rest in
      let after_tag := drop (start + length BASE64_TAG) rest in
      match data_uri after_tag with
      | Some (mime_part, payload_start, payload_len) =>
          if BLOB_MIN_LEN <=? payload_len then
            let consumed := payload_start + payload_len in
            (before ++ blob_placeholder mime_part (uri_len after_tag consumed), Some (drop consumed after_tag))
          else (before ++ BASE64_TAG, Some after_tag)
      | None => (before ++ BASE64_TAG, Some after_tag)
      end
  end.
Definition strip_base64_blobs (input : str) : str := loop base64_round input.

Definition is_ascii_hexdigit (c : char) : bool :=
  is_ascii_digit c || in_range 65 70 c || in_range 97 102 c.

(** What a run of hex digits becomes. *)
Definition hex_run (run : str) : str :=
  if BLOB_MIN_LEN <=? length run
  then lit "[hex data removed " ++ [8212%N] ++ lit " " ++ show_nat (length run) ++ lit " chars]"
  else run.

(** The scan, with the run it is in the middle of, backwards. *)
Fixpoint strip_hex (run : str) (s : str) : str :=
  match s with
  | [] => hex_run (reverse run)
  | c :: s' =>
      if is_ascii_hexdigit c then strip_hex (c :: run) s'
      else hex_run (reverse run) ++ c :: strip_hex [] s'
  end.
Definition strip_hex_blobs (input : str) : str := strip_hex [] input.

Definition truncation_marker (original_len : nat) : str :=
  [ch_newline; ch_newline] ++ lit "[truncated " ++ [8212%N] ++ lit " " ++ show_nat original_len ++ lit " bytes total]".

Definition sanitize_tool_result (input : str) (max_bytes : nat) : str :=
  let result := strip_hex_blobs (strip_base64_blobs input) in
  if utf8_len result <=? max_bytes then result
  else prefix_bytes result (floor_boundary result max_bytes) ++ truncation_marker (utf8_len result).

(** ** Failures a result encodes *)

(** [filter(|value| !value.is_null())]. *)
Definition non_null (o : option json) : option json :=
  v ← o; if is_null v then None else Some v.

Section failure.
Context `{JsonDisplay}.

Definition tool_result_failure (result : json) : option str :=
  match non_null (Json.get "error" result) with
  | Some error => Some (unwrap_or (show_json error) (as_str error))
  | None =>
      match Json.get "success" result with
      | Some (JBool false) => Some (lit "tool returned success: false")
      | _ => None
      end
  end.

Definition persisted_tool_result_failure (result : json) : option str :=
  or_else (tool_result_failure result) (Json.get "result" result ≫= tool_result_failure).
End failure.

(** ** Images in a result *)

Record ExtractedImage := { media_type : str; data : str }.

Fixpoint extract_images_fuel (fuel : nat) (rest : str) : list ExtractedImage * str :=
  match fuel with
  | 0 => ([], rest)
  | S fuel' =>
      match find BASE64_TAG rest with
      | None => ([], rest)
      | Some start =>
          let after_tag := drop (start + length BASE64_TAG) rest in
          let kept := let '(images, remaining) := extract_images_fuel fuel' after_tag in
                      (images, take start rest ++ BASE64_TAG ++ remaining) in
          match data_uri after_tag with
          | Some (mime_part, payload_start, payload_len) =>
              match strip_prefix "image/" mime_part with
              | Some image_subtype =>
                  if BLOB_MIN_LEN <=? payload_len then
                    let '(images, remaining) :=
                      extract_images_fuel fuel' (drop (payload_start + payload_len) after_tag) in
                    ({| media_type := lit "image/" ++ image_subtype;
                        data := take payload_len (drop payload_start after_tag) |} :: images,
                     take start rest ++ remaining)
                  else kept
              | None => kept
              end
          | None => kept
          end
      end
  end.
Definition extract_images_from_text_impl (input : str) : list ExtractedImage * str :=
  extract_images_fuel (S (length input)) input.

Definition image_block (image : ExtractedImage) : json :=
  JObject [(lit "type", JString "image_url");
           (lit "image_url", JObject [(lit "url",
              JString (lit "data:" ++ media_type image ++ lit ";base64," ++ data image))])].

Definition tool_result_to_content (result : str) (max_bytes : nat) (supports_vision : bool) : json :=
  if negb supports_vision then JString (sanitize_tool_result result max_bytes)
  else
    let '(images, text) := extract_images_from_text_impl result in
    if negb (is_nonempty images) then JString (sanitize_tool_result result max_bytes)
    else
      let sanitized_text := sanitize_tool_result text max_bytes in
      JArray ((if is_nonempty (trim sanitized_text)
               then [JObject [(lit "type", JString "text"); (lit "text", JString sanitized_text)]] else []) ++
              map image_block images).

(** * Responses *)

Definition INTERNAL_TAGS : list str := map lit [
  "thinking"; "think"; "reflection"; "inner_monologue"; "scratchpad"; "reasoning"; "analysis";
  "self_reflection"; "meta"; "internal_thought"; "function_call"; "tool_use"; "invoke"; "tool_calls"]%string.

Definition STANDALONE_PIPE_TOKENS : list str := map lit [
  "<|eot_id|>"; "<|end|>"; "<|im_end|>"; "<|im_start|>"; "<|begin_of_text|>"; "<|end_of_text|>";
  "<|python_tag|>"; "<|eom_id|>"; "<|start_header_id|>"; "<|end_header_id|>"]%string.

Definition TOOL_CALL_TAGS : list str := map lit ["function_call"; "tool_call"]%string.

Definition min_option (a b : option nat) : option nat :=
  match a, b with
  | Some x, Some y => Some (x `min` y)
  | Some x, None | None, Some x => Some x
  | None, None => None
  end.

(** Where the opening tag starts, in either of its forms. *)
Definition opening (tag rest : str) : option nat :=
  min_option (find (lit "<" ++ tag ++ lit ">") rest) (find (lit "<" ++ tag ++ lit " ") rest).
Definition closing (tag : str) : str := lit "</" ++ tag ++ lit ">".

Definition xml_round (tag rest : str) : str * option str :=
  match opening tag rest with
  | None => (rest, None)
  | Some start =>
      let after_open := drop start rest in
      match find ">" after_open with
      | None => (rest, None)
      | Some gt_pos =>
          let after_open_tag := drop (gt_pos + 1) after_open in
          (take start rest,
           (λ close_pos, drop (close_pos + length (closing tag)) after_open_tag) <$>
             find (closing tag) after_open_tag)
      end
  end.
Definition strip_xml_tag (text tag : str) : str := loop (xml_round tag) text.

Definition pipe_round (open close rest : str) : str * option str :=
  match find open rest with
  | None => (rest, None)
  | Some start =>
      let after_open := drop (start + length open) rest in
      (take start rest, (λ close_pos, drop (close_pos + length close) after_open) <$> find close after_open)
  end.
Definition strip_pipe_tag (text tag : str) : str :=
  loop (pipe_round (lit "<|" ++ tag ++ lit "|>") (lit "<|/" ++ tag ++ lit "|>")) text.

Definition strip_internal_tags (text : str) : str :=
  foldl (λ result tag, strip_pipe_tag (strip_xml_tag result tag) tag) text INTERNAL_TAGS.

Definition strip_standalone_pipe_tokens (text : str) : str :=
  foldl (λ result token, replace token [] result) text STANDALONE_PIPE_TOKENS.

(** [s.rfind(p)]. *)
Definition rfind_str (p s : str) : option nat :=
  (λ i, length s - length p - i) <$> find (reverse p) (reverse s).

Definition is_token_char (c : char) : bool := is_ascii_alphanumeric c || (c =? ch "_")%N || (c =? ch "-")%N.

(** The text without the control token it ends in, if it ends in one.  The outer [None] is a
    panic: the slice [&candidate[2..close]] when the token's end overlaps its start, in [<|>]. *)
Definition drop_stop_token (result : str) : option (option str) :=
  let trimmed := trim_end result in
  match rfind_str "<|" trimmed with
  | None => Some None
  | Some start =>
      let candidate := drop start trimmed in
      match find "|>" candidate with
      | None => Some None
      | Some close =>
          if close <? 2 then None
          else
            let token_content := take (close - 2) (drop 2 candidate) in
            if (close + 2 =? length candidate) && is_nonempty token_content && forallb is_token_char token_content
            then Some (Some (take start trimmed)) else Some None
      end
  end.

Fixpoint strip_stop_fuel (fuel : nat) (result : str) : option str :=
  match fuel with
  | 0 => Some result
  | S fuel' =>
      match drop_stop_token result with
      | None => None
      | Some None => Some result
      | Some (Some result') => strip_stop_fuel fuel' result'
      end
  end.
Definition strip_trailing_stop_tokens (text : str) : option str := strip_stop_fuel (S (length text)) text.

Definition strip_reasoning_patterns (text : str) : str :=
  foldl strip_xml_tag text (map lit ["Thinking"; "Reflection"; "Reasoning"; "Analysis"]%string).

(** [None] is the panic of [strip_trailing_stop_tokens]. *)
Definition clean_response (text : str) : option str :=
  result ← strip_trailing_stop_tokens (strip_standalone_pipe_tokens (strip_internal_tags text));
  Some (trim (strip_reasoning_patterns result)).

(** ** Tool calls written as XML *)

Section recover.
Context `{SerdeJson} (uuid : nat → str).

Definition parse_tool_call_json (at_ : nat) (content : str) : option ToolCall :=
  parsed ← match from_str content with Ok v => Some v | Err _ => None end;
  n ← or_else (Json.get "name" parsed) (Json.get "tool" parsed) ≫= as_str;
  Some {| id := lit "xml-" ++ uuid at_; name := n;
          call_arguments := unwrap_or (JObject [])
            (or_else (Json.get "arguments" parsed) (Json.get "parameters" parsed));
          argument_diagnostic := None; metadata := None |}.

(** One round for [tag]: the text without the first block, and the call in it. *)
Definition recover_round (tag : str) (at_ : nat) (cleaned : str) : option (str * option ToolCall) :=
  start ← opening tag cleaned;
  gt_pos ← find ">" (drop start cleaned);
  let content_start := start + gt_pos + 1 in
  let after_content := drop content_start cleaned in
  close_pos ← find (closing tag) after_content;
  Some (take start cleaned ++ drop (close_pos + length (closing tag)) after_content,
        parse_tool_call_json at_ (trim (take close_pos after_content))).

Fixpoint recover_fuel (fuel : nat) (tag cleaned : str) (calls : list ToolCall) : str * list ToolCall :=
  match fuel with
  | 0 => (cleaned, calls)
  | S fuel' =>
      match recover_round tag (length calls) cleaned with
      | Some (cleaned', c) => recover_fuel fuel' tag cleaned' (calls ++ option_list c)
      | None => (cleaned, calls)
      end
  end.

Definition recover_tool_calls_from_content (text : str) : str * list ToolCall :=
  let '(cleaned, calls) :=
    foldl (λ '(cleaned, calls) tag, recover_fuel (S (length cleaned)) tag cleaned calls) (text, []) TOOL_CALL_TAGS in
  (trim cleaned, calls).
End recover.

(** * Specification *)

Definition is_hex (c : char) : Prop := is_ascii_hexdigit c = true.

(** No [BLOB_MIN_LEN] hex digits in a row. *)
Definition no_hex_dump (s : str) : Prop :=
  ∀ u v w, s = u ++ v ++ w → Forall is_hex v → length v < BLOB_MIN_LEN.

(** The same by a scan, after [n] digits. *)
Fixpoint short_runs (n : nat) (s : str) : bool :=
  match s with
  | [] => n <? BLOB_MIN_LEN
  | c :: s' => if is_ascii_hexdigit c then short_runs (S n) s' else (n <? BLOB_MIN_LEN) && short_runs 0 s'
  end.

(** * Facts *)

(** ** Loops *)

(** Every round that goes on has consumed something. *)
Definition consuming (round : str → str * option str) : Prop :=
  ∀ rest out rest', round rest = (out, Some rest') → length rest' < length rest.

Lemma rounds_enough round fuel text :
  consuming round → length text < fuel → rounds round fuel text = loop round text.
Proof.
  intros Hc. unfold loop. enough (Hg : ∀ f1 f2 text, length text < f1 → length text < f2 →
    rounds round f1 text = rounds round f2 text) by (intros; apply Hg; lia).
  clear fuel text. induction f1 as [|f1 IH]; intros [|f2] text H1 H2; try lia. simpl.
  destruct (round text) as [out [rest'|]] eqn:E; [|done]. apply Hc in E. f_equal. apply IH; lia.
Qed.

(** Every round splits its input into what it emits, what it drops and the rest. *)
Definition removing (round : str → str * option str) : Prop :=
  ∀ rest out next, round rest = (out, next) → ∃ dropped, rest = out ++ dropped ++ unwrap_or [] next.

Lemma rounds_sublist round fuel text : removing round → rounds round fuel text `sublist_of` text.
Proof.
  intros Hr. revert text; induction fuel as [|fuel IH]; intros text; simpl; [done|].
  destruct (round text) as [out next] eqn:E. destruct (Hr _ _ _ E) as (d & ->).
  apply sublist_app; [done|]. apply sublist_inserts_l. destruct next as [rest'|]; simpl; [apply IH|done].
Qed.

(** A round that finds nothing leaves its text. *)
Lemma loop_id round text : round text = (text, None) → loop round text = text.
Proof. intros Hr. unfold loop. simpl. by rewrite Hr, app_nil_r. Qed.

Lemma find_split p (s : str) i : find p s = Some i → s = take i s ++ p ++ drop (i + length p) s.
Proof.
  intros (u & v & -> & <-)%find_Some. rewrite take_app_length, <- drop_drop, drop_app_length, drop_app_length. done.
Qed.

Lemma find_bound p (s : str) i : find p s = Some i → i + length p <= length s.
Proof. intros (u & v & -> & <-)%find_Some. rewrite !length_app. lia. Qed.

Lemma base64_consuming : consuming base64_round.
Proof.
  intros rest out rest'. unfold base64_round. destruct (find BASE64_TAG rest) as [start|] eqn:E; [|done].
  apply find_bound in E. change (length BASE64_TAG) with 5 in *.
  assert (Hd : length (drop (start + 5) rest) < length rest) by (rewrite length_drop; lia).
  destruct (data_uri _) as [[[m ps] pl]|]; [case_match|]; intros [= <- <-]; [|done..].
  rewrite length_drop. lia.
Qed.

Lemma xml_removing tag : removing (xml_round tag).
Proof.
  intros rest out next. unfold xml_round. destruct (opening tag rest) as [start|]; [|intros [= <- <-]; exists []; by rewrite app_nil_r].
  destruct (find ">" (drop start rest)) as [gt|] eqn:Eg; [|intros [= <- <-]; exists []; by rewrite app_nil_r].
  intros [= <- <-]. apply find_split in Eg.
  set (after := drop (gt + 1) (drop start rest)) in *.
  destruct (find (closing tag) after) as [cp|] eqn:Ec; simpl.
  - apply find_split in Ec.
    exists (take gt (drop start rest) ++ lit ">" ++ take cp after ++ closing tag).
    rewrite <- (take_drop start rest) at 1. f_equal. rewrite Eg at 1. rewrite <- !app_assoc. f_equal. f_equal.
    change (gt + length (lit ">")) with (gt + 1). fold after. exact Ec.
  - exists (drop start rest). by rewrite app_nil_r, take_drop.
Qed.

Lemma xml_consuming tag : consuming (xml_round tag).
Proof.
  intros rest out rest'. unfold xml_round. destruct (opening tag rest) as [start|]; [|done].
  destruct (find ">" (drop start rest)) as [gt|] eqn:Eg; [|done]. apply find_bound in Eg.
  destruct (find (closing tag) _) as [cp|]; simpl; intros [= <- <-].
  revert Eg. rewrite !length_drop. simpl. lia.
Qed.

Lemma pipe_removing open close : removing (pipe_round open close).
Proof.
  intros rest out next. unfold pipe_round. destruct (find open rest) as [start|] eqn:Es;
    [|intros [= <- <-]; exists []; by rewrite app_nil_r].
  intros [= <- <-]. apply find_split in Es. set (after := drop _ rest) in *.
  destruct (find close after) as [cp|] eqn:Ec; simpl.
  - apply find_split in Ec. exists (open ++ take cp after ++ close).
    rewrite Es at 1. rewrite <- !app_assoc. f_equal. f_equal. exact Ec.
  - exists (open ++ after). by rewrite app_nil_r.
Qed.

Lemma pipe_consuming open close : open ≠ [] → consuming (pipe_round open close).
Proof.
  intros Hn rest out rest'. unfold pipe_round. destruct (find open rest) as [start|] eqn:Es; [|done].
  apply find_bound in Es. destruct (find close _) as [cp|]; simpl; intros [= <- <-].
  rewrite !length_drop. destruct open; simpl in *; [done|lia].
Qed.

Lemma replace_sublist p s : replace p [] s `sublist_of` s.
Proof.
  unfold replace. generalize (length s) as fuel. intros fuel; revert s.
  induction fuel as [|fuel IH]; intros s; simpl; [done|].
  destruct (strip_prefix p s) as [s'|] eqn:E.
  - apply strip_prefix_Some in E as ->. simpl. apply sublist_inserts_l, IH.
  - destruct s as [|c s]; [done|]. by apply sublist_skip.
Qed.

(** ** Hex dumps *)

Lemma short_runs_app_hex n v w : Forall is_hex v → short_runs n (v ++ w) = short_runs (n + length v) w.
Proof.
  intros Hv. revert n; induction Hv as [|c v Hc _ IH]; intros n; simpl; [by rewrite Nat.add_0_r|].
  unfold is_hex in Hc. rewrite Hc, IH. f_equal. lia.
Qed.

Lemma short_runs_bound n s : short_runs n s = true → n < BLOB_MIN_LEN.
Proof.
  revert n; induction s as [|c s IH]; intros n; simpl; [by intros ?%Nat.ltb_lt|].
  destruct (is_ascii_hexdigit c).
  - intros ?%IH. lia.
  - intros [?%Nat.ltb_lt _]%andb_true_iff. done.
Qed.

Lemma short_runs_mono n m s : m <= n → short_runs n s = true → short_runs m s = true.
Proof.
  revert n m; induction s as [|c s IH]; intros n m Hm; simpl; [rewrite !Nat.ltb_lt; lia|].
  destruct (is_ascii_hexdigit c); [apply IH; lia|].
  rewrite !andb_true_iff, !Nat.ltb_lt. intros [? ?]. split; [lia|done].
Qed.

Lemma short_runs_suffix n u s : short_runs n (u ++ s) = true → short_runs 0 s = true.
Proof.
  revert n; induction u as [|c u IH]; intros n; simpl; [apply short_runs_mono; lia|].
  destruct (is_ascii_hexdigit c); [apply IH|]. intros [_ ?]%andb_true_iff. by eapply IH.
Qed.

Lemma short_runs_prefix n s u : short_runs n (s ++ u) = true → short_runs n s = true.
Proof.
  revert n; induction s as [|c s IH]; intros n; simpl; [intros ?%short_runs_bound; by apply Nat.ltb_lt|].
  destruct (is_ascii_hexdigit c); [apply IH|]. rewrite !andb_true_iff. intros [? ?]. auto.
Qed.

Lemma short_runs_sound s : short_runs 0 s = true → no_hex_dump s.
Proof.
  intros Hs u v w -> Hv. apply short_runs_suffix in Hs. rewrite short_runs_app_hex in Hs by done.
  by apply short_runs_bound in Hs.
Qed.

(** A char that is no digit separates. *)
Lemma short_runs_join n a c b :
  is_ascii_hexdigit c = false → short_runs n a = true → short_runs 0 b = true → short_runs n (a ++ c :: b) = true.
Proof.
  intros Hc. revert n; induction a as [|x a IH]; intros n Ha Hb; simpl in *.
  - by rewrite Hc, Ha.
  - destruct (is_ascii_hexdigit x); [by apply IH|]. apply andb_true_iff in Ha as [-> Ha]. simpl. by apply IH.
Qed.

Lemma digit_hex c : is_ascii_digit c = true → is_hex c.
Proof. unfold is_hex, is_ascii_hexdigit. by intros ->. Qed.

Lemma hex_run_short run :
  Forall is_hex run → (Z.of_nat (length run) < u64_bound)%Z → short_runs 0 (hex_run run) = true.
Proof.
  intros Hr Hl. unfold hex_run. destruct (Nat.leb_spec BLOB_MIN_LEN (length run)) as [H|H].
  - set (n := show_nat (length run)).
    assert (Hn : Forall is_hex n).
    { unfold n. eapply Forall_impl; [apply show_nat_digits|]. apply digit_hex. }
    assert (Hd : short_runs 0 (n ++ lit " chars]") = true).
    { rewrite short_runs_app_hex by done. pose proof (show_nat_short _ Hl). fold n in H0.
      simpl. apply andb_true_iff. split; [apply Nat.ltb_lt; unfold BLOB_MIN_LEN; lia|done]. }
    change (short_runs 0 ((lit "[hex data removed ") ++ 8212%N :: (lit " " ++ n ++ lit " chars]")) = true).
    apply short_runs_join; [done|by vm_compute|]. simpl. exact Hd.
  - rewrite <- (app_nil_r run), short_runs_app_hex by done. simpl. by apply Nat.ltb_lt.
Qed.

Lemma strip_hex_short run s :
  Forall is_hex run → (Z.of_nat (length run + length s) < u64_bound)%Z → short_runs 0 (strip_hex run s) = true.
Proof.
  revert run; induction s as [|c s IH]; intros run Hr Hl; simpl in *.
  - apply hex_run_short; [by apply Forall_reverse|]. rewrite length_reverse. lia.
  - destruct (is_ascii_hexdigit c) eqn:Ec.
    + apply IH; [by constructor|]. simpl. lia.
    + apply short_runs_join; [done| |].
      * apply hex_run_short; [by apply Forall_reverse|]. rewrite length_reverse. lia.
      * apply IH; [done|]. simpl. lia.
Qed.

Lemma strip_hex_id run s :
  short_runs (length run) s = true → Forall is_hex run → strip_hex run s = reverse run ++ s.
Proof.
  revert run; induction s as [|c s IH]; intros run Hs Hr; simpl in *.
  - apply Nat.ltb_lt in Hs. unfold hex_run. rewrite length_reverse.
    rewrite (proj2 (Nat.leb_gt _ _)) by done. by rewrite app_nil_r.
  - destruct (is_ascii_hexdigit c) eqn:Ec.
    + rewrite IH by (try constructor; done). by rewrite reverse_cons, <- app_assoc.
    + apply andb_true_iff in Hs as [Hn%Nat.ltb_lt Hs]. unfold hex_run. rewrite length_reverse.
      rewrite (proj2 (Nat.leb_gt _ _)) by done. f_equal. f_equal. by apply IH.
Qed.

Lemma short_runs_complete n s :
  (∀ v w, s = v ++ w → Forall is_hex v → n + length v < BLOB_MIN_LEN) → no_hex_dump s → short_runs n s = true.
Proof.
  revert n; induction s as [|c s IH]; intros n Hn Hs; simpl.
  - apply Nat.ltb_lt. specialize (Hn [] [] eq_refl (Forall_nil_2 _)). simpl in Hn. lia.
  - destruct (is_ascii_hexdigit c) eqn:Ec.
    + apply IH.
      * intros v w -> Hv. specialize (Hn (c :: v) w eq_refl (Forall_cons_2 _ _ _ Ec Hv)). simpl in Hn. lia.
      * intros u v w -> Hv. by apply (Hs (c :: u) v w).
    + apply andb_true_iff. split.
      * apply Nat.ltb_lt. specialize (Hn [] (c :: s) eq_refl (Forall_nil_2 _)). simpl in Hn. lia.
      * apply IH; [|intros u v w -> Hv; by apply (Hs (c :: u) v w)].
        intros v w -> Hv. by apply (Hs [c] v w).
Qed.

Lemma no_hex_dump_prefix p q : no_hex_dump (p ++ q) → no_hex_dump p.
Proof. intros H u v w -> Hv. apply (H u v (w ++ q)); [|done]. by rewrite <- !app_assoc. Qed.

(** ** Markers *)

Lemma find_absent c p (s : str) : c ∈ p → c ∉ s → find p s = None.
Proof. intros Hp Hs. apply find_None. intros u v ->. apply Hs. set_solver. Qed.

Lemma replace_absent c p (s : str) : c ∈ p → c ∉ s → replace p [] s = s.
Proof.
  intros Hp. unfold replace. generalize (length s) as fuel. intros fuel; revert s.
  induction fuel as [|fuel IH]; intros s Hs; simpl; [done|].
  destruct (strip_prefix p s) as [s'|] eqn:E; [apply strip_prefix_Some in E as ->; set_solver|].
  destruct s as [|x s]; [done|]. f_equal. apply IH. set_solver.
Qed.

Lemma rfind_str_Some p (s : str) i :
  rfind_str p s = Some i → s = take i s ++ p ++ drop (i + length p) s.
Proof.
  unfold rfind_str. intros (j & (u & v & Hs & <-)%find_Some & ->)%fmap_Some.
  apply (f_equal reverse) in Hs. rewrite reverse_involutive, !reverse_app, reverse_involutive in Hs.
  assert (Hi : length s - length p - length u = length (reverse v)).
  { rewrite Hs, !length_app, !length_reverse. lia. }
  rewrite Hi, Hs, <- app_assoc, take_app_length, <- drop_drop, drop_app_length, drop_app_length. done.
Qed.

Lemma drop_stop_token_prefix result r :
  drop_stop_token result = Some (Some r) → ∃ k, result = r ++ k ∧ k ≠ [].
Proof.
  unfold drop_stop_token. destruct (rfind_str "<|" (trim_end result)) as [i|] eqn:E; [|done].
  destruct (find "|>" _) as [cl|]; [|done]. destruct (cl <? 2); [done|]. case_match; [|done]. intros [= <-].
  apply rfind_str_Some in E. destruct (trim_end_prefix result) as [k Hk].
  exists (drop i (trim_end result) ++ k). split; [by rewrite app_assoc, take_drop|].
  intros [Hd _]%app_eq_nil. apply (f_equal length) in Hd. apply (f_equal length) in E. revert Hd E.
  rewrite !length_app, !length_drop, length_take. simpl. lia.
Qed.

Lemma strip_stop_prefix fuel text r : strip_stop_fuel fuel text = Some r → r `prefix_of` text.
Proof.
  revert text; induction fuel as [|fuel IH]; intros text; simpl; [by intros [= ->]|].
  destruct (drop_stop_token text) as [[t|]|] eqn:E; [|by intros [= ->]|done].
  intros Hr%IH. etrans; [exact Hr|]. apply drop_stop_token_prefix in E as (k & -> & _). by exists k.
Qed.

Lemma strip_stop_enough fuel text :
  length text < fuel → strip_stop_fuel fuel text = strip_trailing_stop_tokens text.
Proof.
  unfold strip_trailing_stop_tokens. enough (Hg : ∀ f1 f2 text, length text < f1 → length text < f2 →
    strip_stop_fuel f1 text = strip_stop_fuel f2 text) by (intros; apply Hg; lia).
  clear fuel text. induction f1 as [|f1 IH]; intros [|f2] text H1 H2; try lia. simpl.
  destruct (drop_stop_token text) as [[t|]|] eqn:E; [|done..].
  apply drop_stop_token_prefix in E as (k & -> & Hk). rewrite length_app in *.
  destruct k; simpl in *; [done|]. apply IH; lia.
Qed.

Lemma foldl_sublist (f : str → str → str) l text :
  (∀ s p, f s p `sublist_of` s) → foldl f text l `sublist_of` text.
Proof.
  intros Hf. revert text; induction l as [|p l IH]; intros text; simpl; [done|]. etrans; [apply IH|apply Hf].
Qed.

Lemma foldl_id (f : str → str → str) l (text : str) : Forall (λ p, f text p = text) l → foldl f text l = text.
Proof. induction 1 as [|p l Hp _ IH]; simpl; [done|]. by rewrite Hp. Qed.

(** A round over a text in which no marker of it occurs. *)
Lemma xml_id tag text :
  find (lit "<" ++ tag ++ lit ">") text = None → find (lit "<" ++ tag ++ lit " ") text = None →
  strip_xml_tag text tag = text.
Proof. intros H1 H2. apply loop_id. unfold xml_round, opening. by rewrite H1, H2. Qed.

Lemma pipe_id tag text :
  find (lit "<|" ++ tag ++ lit "|>") text = None → strip_pipe_tag text tag = text.
Proof. intros H1. apply loop_id. unfold pipe_round. by rewrite H1. Qed.

Definition lt_char : char := 60%N.

Lemma replace_None p (s : str) : p ≠ [] → find p s = None → replace p [] s = s.
Proof.
  intros Hn. unfold replace. generalize (length s) as fuel. intros fuel; revert s.
  induction fuel as [|fuel IH]; intros s Hs; simpl; [done|].
  destruct (strip_prefix p s) as [s'|] eqn:E.
  - apply strip_prefix_Some in E as ->. by destruct (proj1 (find_None _ _) Hs [] s').
  - destruct s as [|x s]; [done|]. f_equal. apply IH. apply find_None. intros u v ->.
    by destruct (proj1 (find_None _ _) Hs (x :: u) v).
Qed.

(** The passes before the stop tokens, on a text none of whose markers they know. *)
Lemma passes_id text :
  (∀ p, head p = Some lt_char → is_ascii_alphabetic (unwrap_or 0%N (p !! 1)) = true ∨
        is_ascii_alphabetic (unwrap_or 0%N (p !! 2)) = true → find p text = None) →
  strip_standalone_pipe_tokens (strip_internal_tags text) = text ∧ strip_reasoning_patterns text = text.
Proof.
  intros Hf. assert (Hi : strip_internal_tags text = text).
  { apply (foldl_id (λ r tag, strip_pipe_tag (strip_xml_tag r tag) tag)).
    unfold INTERNAL_TAGS. simpl map. repeat constructor;
    (rewrite xml_id; [apply pipe_id|..]); apply Hf; try done; (by left) || by right. }
  rewrite Hi. split.
  - apply (foldl_id (λ r t, replace t [] r)). unfold STANDALONE_PIPE_TOKENS. simpl map.
    repeat constructor; (apply replace_None; [done|]); apply Hf; try done; by right.
  - apply foldl_id. simpl map. repeat constructor; apply xml_id; apply Hf; try done; by left.
Qed.

(** The shape of a text in which a sign occurs once: no marker that goes on differently is found. *)
Lemma find_once p (u r : str) :
  head p = Some lt_char → lt_char ∉ u → lt_char ∉ r → starts_with (tail p) r = false →
  find p (u ++ lt_char :: r) = None.
Proof.
  intros Hp Hu Hr Hd. destruct p as [|c p]; [done|]. simplify_eq/=. apply find_None. intros a b Hs.
  assert (Ha : a = u).
  { apply app_eq_inv in Hs as [(k & -> & Hs)|(k & -> & Hs)].
    - destruct k as [|x k]; simplify_list_eq; [done|]. set_solver.
    - destruct k as [|x k]; simplify_list_eq; [done|]. set_solver. }
  subst a. simplify_list_eq. assert (starts_with p (p ++ b) = true) by (apply starts_with_spec; eauto). congruence.
Qed.

Lemma trim_end_snoc_app u x v : is_whitespace x = false → trim_end (u ++ x :: v) = u ++ x :: trim_end v.
Proof.
  intros Hx. unfold trim_end, trim_end_matches. rewrite reverse_app, reverse_cons, <- app_assoc.
  generalize (reverse v) as w. intros w. induction w as [|y w IH]; simpl.
  - rewrite Hx. by rewrite reverse_cons, reverse_involutive.
  - destruct (is_whitespace y); [exact IH|].
    rewrite !reverse_cons, reverse_app, reverse_cons, reverse_involutive. by rewrite <- !app_assoc.
Qed.

Lemma find_here p (s : str) : find p (p ++ s) = Some 0.
Proof.
  destruct (p ++ s) as [|c l] eqn:E; simpl.
  - apply app_eq_nil in E as [-> ->]. done.
  - rewrite <- E. by rewrite (proj2 (starts_with_spec p (p ++ s))) by eauto.
Qed.

(** The stop-token pass on a text whose only [<] is in [<|>]. *)
Lemma stop_token_panics u v :
  lt_char ∉ v → strip_trailing_stop_tokens (u ++ lit "<|>" ++ v) = None.
Proof.
  intros Hv.
  assert (Ht : u ++ lit "<|>" ++ v = (u ++ lit "<|") ++ 62%N :: v) by (rewrite <- app_assoc; reflexivity).
  rewrite Ht. unfold strip_trailing_stop_tokens. cbn [strip_stop_fuel]. unfold drop_stop_token.
  rewrite trim_end_snoc_app by done. set (w := 62%N :: trim_end v).
  assert (Hw : lt_char ∉ w).
  { unfold w. intros [?|Hin]%elem_of_cons; [done|]. apply Hv.
    destruct (trim_end_prefix v) as [k ->]. set_solver. }
  assert (Hr : rfind_str "<|" ((u ++ lit "<|") ++ w) = Some (length u)).
  { unfold rfind_str. rewrite !reverse_app, !length_app.
    assert (Hf : find (reverse (lit "<|")) (reverse w ++ reverse (lit "<|") ++ reverse u) = Some (length w)).
    { rewrite <- (length_reverse w). assert (Hw' : lt_char ∉ reverse w) by by rewrite elem_of_reverse.
      assert (Hq : reverse (lit "<|") = [124%N; lt_char]) by reflexivity.
      generalize dependent (reverse w). generalize dependent (reverse (lit "<|")).
      clear. intros q -> w Hw. cbn [app]. induction w as [|x w IH].
      - exact (find_here [124%N; lt_char] (reverse u)).
      - cbn [app find]. destruct (starts_with _ _) eqn:E.
        + exfalso. apply starts_with_spec in E as [r E].
          simplify_list_eq. destruct w as [|y w]; simplify_list_eq; set_solver.
        + rewrite IH by set_solver. done. }
    rewrite Hf. simpl. f_equal. lia. }
  rewrite Hr. replace (drop (length u) ((u ++ lit "<|") ++ w)) with (lit "<|" ++ w)
    by (by rewrite <- app_assoc, drop_app_length).
  unfold w. done.
Qed.

Lemma strip_xml_sublist text tag : strip_xml_tag text tag `sublist_of` text.
Proof. unfold strip_xml_tag, loop. apply rounds_sublist, xml_removing. Qed.

Lemma strip_pipe_sublist text tag : strip_pipe_tag text tag `sublist_of` text.
Proof. unfold strip_pipe_tag, loop. apply rounds_sublist, pipe_removing. Qed.

Lemma reasoning_sublist text : strip_reasoning_patterns text `sublist_of` text.
Proof. unfold strip_reasoning_patterns. apply foldl_sublist, strip_xml_sublist. Qed.

Lemma pipe_tokens_sublist text : strip_standalone_pipe_tokens text `sublist_of` text.
Proof. unfold strip_standalone_pipe_tokens. apply foldl_sublist. intros. apply replace_sublist. Qed.

Lemma internal_sublist text : strip_internal_tags text `sublist_of` text.
Proof.
  unfold strip_internal_tags. apply foldl_sublist. intros s p.
  etrans; [apply strip_pipe_sublist|apply strip_xml_sublist].
Qed.

Lemma trailing_sublist text r : strip_trailing_stop_tokens text = Some r → r `sublist_of` text.
Proof. unfold strip_trailing_stop_tokens. intros Hr%strip_stop_prefix. by apply prefix_sublist. Qed.

Lemma clean_removes text out : clean_response text = Some out → out `sublist_of` text.
Proof.
  unfold clean_response. pose proof (internal_sublist text) as H1. revert H1.
  generalize (strip_internal_tags text) as t1. intros t1 H1.
  pose proof (pipe_tokens_sublist t1) as H2. revert H2.
  generalize (strip_standalone_pipe_tokens t1) as t2. intros t2 H2 (r & Hr%trailing_sublist & Ho)%bind_Some.
  injection Ho as <-. etrans; [apply trim_sublist|]. etrans; [apply reasoning_sublist|].
  etrans; [exact Hr|]. by etrans.
Qed.

Lemma rfind_absent text : lt_char ∉ text → rfind_str "<|" (trim_end text) = None.
Proof.
  intros Hl. unfold rfind_str. rewrite (find_absent lt_char); [done|by vm_compute; right; left|].
  rewrite elem_of_reverse. intros Hin. apply Hl. destruct (trim_end_prefix text) as [k ->]. set_solver.
Qed.

Lemma clean_plain text : lt_char ∉ text → clean_response text = Some (trim text).
Proof.
  intros Hl. destruct (passes_id text) as [H1 H2].
  { intros p Hp _. apply (find_absent lt_char); [|done]. destruct p; simplify_eq/=. by left. }
  assert (Hs : strip_trailing_stop_tokens text = Some text).
  { unfold strip_trailing_stop_tokens. cbn [strip_stop_fuel]. unfold drop_stop_token. by rewrite rfind_absent. }
  unfold clean_response. rewrite H1, Hs. cbn [mbind option_bind]. by rewrite H2.
Qed.

Lemma clean_operator u v :
  lt_char ∉ u → lt_char ∉ v → clean_response (u ++ lit "<|>" ++ v) = None.
Proof.
  intros Hu Hv. destruct (passes_id (u ++ lit "<|>" ++ v)) as [H1 H2].
  { intros p Hp Ha. apply (find_once p u (lit "|>" ++ v)); [done..|set_solver|].
    destruct p as [|c0 p]; [done|]. simpl in *. destruct p as [|c1 p]; [by destruct Ha|]. simpl in *.
    destruct (starts_with (c1 :: p) _) eqn:E; [|done]. apply starts_with_spec in E as [r E].
    simplify_list_eq. destruct Ha as [|Ha]; [done|]. by destruct p as [|c2 p]; simplify_list_eq. }
  unfold clean_response. by rewrite H1, stop_token_panics.
Qed.

(** * Theorems *)

(** A tool's result reaches the model bounded and without binary dumps.  Whatever the tool
    returned, the text the model gets is a body that fits the limit, without 200 hex digits in a
    row, followed by nothing or by a marker: nothing exactly when the stripped result fits, and
    then the body is all of it; otherwise the body is the longest prefix that fits without
    cutting through a char and the marker tells the full length.  A result without a data URI and
    without a dump that fits is passed on as it is.  (The hypothesis holds of every [String].) *)
Theorem sanitize_tool_result_spec input max_bytes :
  (Z.of_nat (length (strip_base64_blobs input)) < u64_bound)%Z →
  let full := strip_hex_blobs (strip_base64_blobs input) in
  (∃ body rest tail,
     sanitize_tool_result input max_bytes = body ++ tail ∧ full = body ++ rest ∧
     no_hex_dump body ∧ utf8_len body <= max_bytes ∧
     (rest = [] ∧ tail = [] ∨
      max_bytes < utf8_len full ∧ tail = truncation_marker (utf8_len full) ∧
      ∀ p q, full = p ++ q → utf8_len p <= max_bytes → utf8_len p <= utf8_len body)) ∧
  (contains BASE64_TAG input = false → no_hex_dump input → full = input).
Proof.
  intros Hl full.
  assert (Hfull : no_hex_dump full).
  { apply short_runs_sound. apply strip_hex_short; [constructor|]. simpl. exact Hl. }
  split.
  - unfold sanitize_tool_result. fold full. destruct (Nat.leb_spec (utf8_len full) max_bytes).
    + exists full, [], []. rewrite !app_nil_r. split_and!; auto.
    + destruct (floor_boundary_spec full max_bytes) as (Hle & Hb & Hmax).
      destruct (boundary_prefix _ _ Hb) as (s2 & Hs & Hn).
      exists (prefix_bytes full (floor_boundary full max_bytes)), s2, (truncation_marker (utf8_len full)).
      split_and!; [done|done| |lia|].
      * eapply no_hex_dump_prefix. by rewrite <- Hs.
      * right. split_and!; [done..|]. intros p q Hp Hpl. rewrite Hn. apply Hmax; [done|].
        rewrite Hp. apply boundary_app.
  - intros Hc Hh. assert (Hb : strip_base64_blobs input = input).
    { apply loop_id. unfold base64_round. unfold contains in Hc. by destruct (find BASE64_TAG input). }
    unfold full. rewrite Hb. unfold strip_hex_blobs. rewrite strip_hex_id; [done| |constructor].
    apply short_runs_complete; [|done]. intros v w -> Hv. by apply (Hh [] v w).
Qed.

(** The cleaning of a response only removes: what the user gets is, char by char and in
    order, part of what the model wrote.  A text without [<] is only trimmed.  And a text whose
    only [<] is that of an operator [<|>] does not survive it: the slice between the ends of the
    supposed token is taken before its length is looked at, and panics. *)
Theorem clean_response_sound text :
  (∀ out, clean_response text = Some out → out `sublist_of` text) ∧
  (lt_char ∉ text → clean_response text = Some (trim text)) ∧
  (∀ u v, text = u ++ lit "<|>" ++ v → lt_char ∉ u → lt_char ∉ v → clean_response text = None).
Proof.
  split_and!; [apply clean_removes|apply clean_plain|]. intros u v ->. apply clean_operator.
Qed.

(** ** Recovery *)

Lemma drop_suffix {A} n (l : list A) : drop n l `suffix_of` l.
Proof. exists (take n l). by rewrite take_drop. Qed.

Lemma recover_round_shrinks `{SerdeJson} uuid tag at_ cleaned cleaned' c :
  recover_round uuid tag at_ cleaned = Some (cleaned', c) →
  length cleaned' < length cleaned ∧ cleaned' `sublist_of` cleaned.
Proof.
  unfold recover_round.
  intros (start & Es & (gt & Eg & (cp & Ec & [= <- _])%bind_Some)%bind_Some)%bind_Some.
  apply find_bound in Eg, Ec. change (length (lit ">")) with 1 in Eg. rewrite !length_drop in Eg, Ec.
  assert (Hc : 3 <= length (closing tag)) by (unfold closing; rewrite !length_app, !length_lit; simpl; lia).
  split.
  - rewrite length_app, length_take, !length_drop. lia.
  - rewrite <- (take_drop start cleaned) at 3. apply sublist_app; [done|].
    etrans; [apply suffix_sublist, drop_suffix|].
    replace (start + gt + 1) with (start + (gt + 1)) by lia. rewrite <- (drop_drop cleaned (gt + 1) start).
    apply suffix_sublist, drop_suffix.
Qed.

Lemma recover_enough `{SerdeJson} uuid tag fuel cleaned calls :
  length cleaned < fuel → recover_fuel uuid fuel tag cleaned calls = recover_fuel uuid (S (length cleaned)) tag cleaned calls.
Proof.
  enough (Hg : ∀ f1 f2 cleaned calls, length cleaned < f1 → length cleaned < f2 →
    recover_fuel uuid f1 tag cleaned calls = recover_fuel uuid f2 tag cleaned calls) by (intros; apply Hg; lia).
  clear fuel cleaned calls. induction f1 as [|f1 IH]; intros [|f2] cleaned calls H1 H2; try lia. simpl.
  destruct (recover_round uuid tag (length calls) cleaned) as [[cl c]|] eqn:E; [|done].
  apply recover_round_shrinks in E as [? _]. apply IH; lia.
Qed.

(** ** Witnesses *)

Definition demo_dump : str := lit "k: " ++ replicate 210 97%N ++ lit " end".

Lemma sanitize_tool_result_spec_witness :
  sanitize_tool_result demo_dump 100 = lit "k: [hex data removed " ++ [8212%N] ++ lit " 210 chars] end" ∧
  ∃ body rest tail,
    sanitize_tool_result demo_dump 100 = body ++ tail ∧
    strip_hex_blobs (strip_base64_blobs demo_dump) = body ++ rest ∧
    no_hex_dump body ∧ utf8_len body <= 100.
Proof.
  split; [by vm_compute|].
  destruct (sanitize_tool_result_spec demo_dump 100) as [(b & r & t & H1 & H2 & H3 & H4 & _) _].
  - by vm_compute.
  - exists b, r, t. done.
Defined.
