(* ===== verification/Messages.v ===== *)
(** Messages of a conversation.

    Models [crates/agents/src/model/chat.rs] (typed messages and their provider format),
    [crates/agents/src/model/types.rs] (responses and token usage),
    [crates/agents/src/model/convert.rs] (persisted or hook-provided JSON to typed messages) and
    [parse_data_uri] of [crates/agents/src/multimodal.rs].

    Theorems: the conversion of a stored history sends a provider no tool result without its call
    and no call id twice ([values_no_orphans]); what a provider-format message looks like is read
    back ([roundtrip_messages]); usage counters saturate instead of wrapping
    ([usage_total]). *)
From S2P Require Import Prelude Json Utf8 ToolArgs ToolParsing Sanitize.
Local Open Scope nat_scope.

(** * Token usage *)

(** The fields are [u32]s. *)
Record Usage := {
  input_tokens : Z;
  output_tokens : Z;
  cache_read_tokens : Z;
  cache_write_tokens : Z;
}.
Definition Usage_default : Usage :=
  {| input_tokens := 0; output_tokens := 0; cache_read_tokens := 0; cache_write_tokens := 0 |}.

Inductive InputTokenAccounting := Inclusive | Exclusive.

Definition from_input_tokens (accounting : InputTokenAccounting)
    (reported_input_tokens output_tokens cache_read_tokens cache_write_tokens : Z) : Usage :=
  let input_tokens :=
    match accounting with
    | Inclusive => sat_sub (sat_sub reported_input_tokens cache_read_tokens) cache_write_tokens
    | Exclusive => reported_input_tokens
    end in
  {| input_tokens := input_tokens; output_tokens := output_tokens;
     cache_read_tokens := cache_read_tokens; cache_write_tokens := cache_write_tokens |}.

Definition saturating_add (self other : Usage) : Usage :=
  {| input_tokens := sat_add u32_bound (input_tokens self) (input_tokens other);
     output_tokens := sat_add u32_bound (output_tokens self) (output_tokens other);
     cache_read_tokens := sat_add u32_bound (cache_read_tokens self) (cache_read_tokens other);
     cache_write_tokens := sat_add u32_bound (cache_write_tokens self) (cache_write_tokens other) |}.

Record UsageAccumulator := { total : Usage; request : Usage }.
Definition UsageAccumulator_default : UsageAccumulator := {| total := Usage_default; request := Usage_default |}.
Definition record_request (a : UsageAccumulator) (u : Usage) : UsageAccumulator :=
  {| total := saturating_add (total a) u; request := u |}.

(** * Messages *)

Inductive ContentPart :=
| PartText (text : str)
| PartImage (media_type data : str).

Inductive UserContent :=
| UserText (text : str)
| Multimodal (parts : list ContentPart).

Inductive ChatMessage :=
| System (content : str)
| User (content : UserContent) (name : option str)
| Assistant (content : option str) (tool_calls : list ToolCall) (reasoning : option str)
| Tool (tool_call_id content : str).

Record CompletionResponse := {
  text : option str;
  reasoning : option str;
  tool_calls : list ToolCall;
  usage : Usage;
}.

(** [ChatMessage::from(&response)]. *)
Definition from_response (r : CompletionResponse) : ChatMessage :=
  Assistant (text r) (tool_calls r) (reasoning r).

Definition user (content : str) : ChatMessage := User (UserText content) None.
Definition assistant (content : str) : ChatMessage := Assistant (Some content) [] None.

Definition is_message_name_char (c : char) : bool :=
  is_ascii_alphanumeric c || (c =? ch "_")%N || (c =? ch "-")%N.

Definition sanitize_message_name (name : str) : option str :=
  let sanitized := take 64 (filter (λ c, is_message_name_char c = true)
    (map (λ c, if (c =? 32)%N then ch "_" else c) name)) in
  if is_nonempty sanitized then Some sanitized else None.

Definition content_part_value (part : ContentPart) : json :=
  match part with
  | PartText text => JObject [(lit "type", JString "text"); (lit "text", JString text)]
  | PartImage media_type data =>
      JObject [(lit "type", JString "image_url");
               (lit "image_url", JObject [(lit "url", JString (lit "data:" ++ media_type ++ lit ";base64," ++ data))])]
  end.

Section provider_format.
Context `{JsonDisplay}.

(** Metadata is inserted into the call's object. *)
Definition tool_call_value (tc : ToolCall) : json :=
  JObject (foldl (λ m kv, insert_assoc kv.1 kv.2 m)
    [(lit "id", JString (id tc)); (lit "type", JString "function");
     (lit "function", JObject [(lit "name", JString (name tc));
                               (lit "arguments", JString (show_json (call_arguments tc)))])]
    (unwrap_or [] (metadata tc))).

Definition to_openai_value (m : ChatMessage) : json :=
  match m with
  | System content => JObject [(lit "role", JString "system"); (lit "content", JString content)]
  | User content name =>
      JObject ([(lit "role", JString "user");
                (lit "content", match content with
                                | UserText text => JString text
                                | Multimodal parts => JArray (map content_part_value parts)
                                end)] ++
               match name ≫= sanitize_message_name with
               | Some sanitized => [(lit "name", JString sanitized)]
               | None => []
               end)
  | Assistant content tool_calls _ =>
      match tool_calls with
      | [] => JObject [(lit "role", JString "assistant"); (lit "content", JString (unwrap_or [] content))]
      | _ =>
          JObject ([(lit "role", JString "assistant"); (lit "tool_calls", JArray (map tool_call_value tool_calls))] ++
                   match content with Some text => [(lit "content", JString text)] | None => [] end)
      end
  | Tool tool_call_id content =>
      JObject [(lit "role", JString "tool"); (lit "tool_call_id", JString tool_call_id);
               (lit "content", JString content)]
  end.
End provider_format.

(** * Conversion *)

(** [value[k]]. *)
Definition index (k : str) (v : json) : json := unwrap_or JNull (Json.get k v).

Definition TOOL_CALL_METADATA_KEYS : list str := [lit "thought_signature"].

Definition extract_tool_call_metadata (tc : json) : option (list (str * json)) :=
  obj ← as_object tc;
  let nested := assoc "metadata" obj ≫= as_object in
  let gemini := (extra ← assoc "extra_content" obj; Json.get "google" extra ≫= as_object) in
  let meta := omap (λ k, (λ v, (k, v)) <$>
    or_else (assoc k obj) (or_else (nested ≫= assoc k) (gemini ≫= assoc k))) TOOL_CALL_METADATA_KEYS in
  if is_nonempty meta then Some meta else None.

Definition parse_data_uri (uri : str) : option (str * str) :=
  rest ← strip_prefix "data:" uri;
  at_ ← find BASE64_MARKER rest;
  let media_type := take at_ rest in
  let data := drop (at_ + length BASE64_MARKER) rest in
  if negb (is_nonempty media_type) || negb (is_nonempty data) then None else Some (media_type, data).

(** [a.join(b)] of Unix paths. *)
Definition path_join (a b : str) : str :=
  if starts_with "/" b then b
  else if negb (is_nonempty a) || ends_with "/" a then a ++ b else a ++ lit "/" ++ b.

Section convert.
Context `{SerdeJson} `{JsonDisplay} (data_dir : str).

Definition document_absolute_path_from_media_ref (media_ref : str) : str :=
  if starts_with "/" media_ref then media_ref
  else path_join (path_join data_dir "sessions") media_ref.

Definition maybe_limit_tool_result_content (content : str) (max_tool_result_bytes : option nat) : str :=
  match max_tool_result_bytes with Some max_bytes => sanitize_tool_result content max_bytes | None => content end.

Definition sender_name (val : json) : option str :=
  or_else
    (ch ← Json.get "channel" val; or_else (as_str (index "sender_name" ch)) (as_str (index "username" ch)))
    (as_str (index "name" val)).

Definition document_section (document : json) : option str :=
  display_name ← as_str (index "display_name" document);
  mime_type ← as_str (index "mime_type" document);
  media_ref ← as_str (index "media_ref" document);
  Some (lit "filename: " ++ display_name ++ [ch_newline] ++ lit "mime_type: " ++ mime_type ++ [ch_newline] ++
        lit "local_path: " ++ document_absolute_path_from_media_ref media_ref ++ [ch_newline] ++
        lit "media_ref: " ++ media_ref).

Definition blank_line : str := [ch_newline; ch_newline].

Definition document_context (val : json) : option str :=
  documents ← as_array (index "documents" val);
  let sections := omap document_section documents in
  if is_nonempty sections then Some (join blank_line (lit "[Inbound documents available]" :: sections)) else None.

Definition content_block (block : json) : option ContentPart :=
  block_type ← as_str (index "type" block);
  if str_eqb block_type "text" then PartText <$> as_str (index "text" block)
  else if str_eqb block_type "image_url" then
    url ← as_str (index "url" (index "image_url" block));
    '(media_type, data) ← parse_data_uri url;
    Some (PartImage media_type data)
  else None.

(** The context goes to the first text part, or becomes the first part. *)
Fixpoint append_to_text (ctx : str) (parts : list ContentPart) : option (list ContentPart) :=
  match parts with
  | [] => None
  | PartText text :: parts' =>
      Some (PartText ((if is_nonempty (trim text) then text ++ blank_line else text) ++ ctx) :: parts')
  | p :: parts' => cons p <$> append_to_text ctx parts'
  end.
Definition with_documents (ctx : option str) (parts : list ContentPart) : list ContentPart :=
  match ctx with
  | Some ctx => unwrap_or (PartText ctx :: parts) (append_to_text ctx parts)
  | None => parts
  end.

Definition user_content (val : json) : UserContent :=
  let ctx := document_context val in
  match index "content" val with
  | JString text =>
      UserText (match ctx with
                | Some ctx => if is_nonempty (trim text) then text ++ blank_line ++ ctx else ctx
                | None => text
                end)
  | JArray arr => Multimodal (with_documents ctx (omap content_block arr))
  | _ => UserText (unwrap_or [] ctx)
  end.

(** [trim], [None] when nothing is left. *)
Definition nonblank (s : str) : option str :=
  let trimmed := trim s in if is_nonempty trimmed then Some trimmed else None.

Definition stored_tool_call (tc : json) : option ToolCall :=
  i ← as_str (index "id" tc);
  n ← as_str (index "name" (index "function" tc));
  let decoded := decode_tool_call_arguments_with_diagnostic (Json.get "arguments" (index "function" tc)) in
  Some {| id := i; name := n; call_arguments := arguments decoded;
          argument_diagnostic := diagnostic decoded; metadata := extract_tool_call_metadata tc |}.

(** The messages from the last one on: the first assistant message with the call gets the
    reasoning, if it has none. *)
Fixpoint attach_from_last (rev : list ChatMessage) (tool_call_id tool_reasoning : str) : list ChatMessage :=
  match rev with
  | [] => []
  | Assistant c tcs r :: rev' =>
      if existsb (λ tc, str_eqb (id tc) tool_call_id) tcs
      then Assistant c tcs (Some (unwrap_or tool_reasoning r)) :: rev'
      else Assistant c tcs r :: attach_from_last rev' tool_call_id tool_reasoning
  | m :: rev' => m :: attach_from_last rev' tool_call_id tool_reasoning
  end.
Definition attach_reasoning_to_assistant_tool_call (messages : list ChatMessage)
    (tool_call_id tool_reasoning : str) : list ChatMessage :=
  reverse (attach_from_last (reverse messages) tool_call_id tool_reasoning).

(** The text of a persisted tool execution. *)
Definition stored_result (val : json) : str :=
  match as_str (index "error" val) with
  | Some err => lit "Error: " ++ err
  | None =>
      match Json.get "result" val with
      | Some result => unwrap_or (show_json result) (as_str result)
      | None => []
      end
  end.

(** One round of the loop: the messages so far and the ids of calls without a result. *)
Definition convert_value (filter_orphan_tool_results : bool) (max_tool_result_bytes : option nat)
    (st : list ChatMessage * gset str) (val : json) : list ChatMessage * gset str :=
  let '(messages, pending_tool_call_ids) := st in
  let tool_call_id := unwrap_or [] (as_str (index "tool_call_id" val)) in
  let orphan := filter_orphan_tool_results && negb (bool_decide (tool_call_id ∈ pending_tool_call_ids)) in
  let pending' := pending_tool_call_ids ∖ {[tool_call_id]} in
  match as_str (index "role" val) with
  | None => st
  | Some role =>
      if str_eqb role "system" then
        (messages ++ [System (unwrap_or [] (as_str (index "content" val)))], pending_tool_call_ids)
      else if str_eqb role "user" then
        (messages ++ [User (user_content val) (sender_name val)], pending_tool_call_ids)
      else if str_eqb role "assistant" then
        let tool_calls := match as_array (index "tool_calls" val) with
                          | Some tcs => omap stored_tool_call tcs
                          | None => []
                          end in
        (messages ++ [Assistant (as_str (index "content" val)) tool_calls
                        (as_str (index "reasoning" val) ≫= nonblank)],
         pending_tool_call_ids ∪ list_to_set (map id tool_calls))
      else if str_eqb role "tool" then
        if orphan then (messages, pending')
        else
          let content := unwrap_or (show_json (index "content" val)) (as_str (index "content" val)) in
          (messages ++ [Tool tool_call_id (maybe_limit_tool_result_content content max_tool_result_bytes)], pending')
      else if str_eqb role "tool_result" then
        if orphan then (messages, pending')
        else
          let messages :=
            match as_str (index "reasoning" val) ≫= nonblank with
            | Some reasoning => attach_reasoning_to_assistant_tool_call messages tool_call_id reasoning
            | None => messages
            end in
          (messages ++ [Tool tool_call_id (maybe_limit_tool_result_content (stored_result val) max_tool_result_bytes)],
           pending')
      else st
  end.

Definition values_to_chat_messages_inner (values : list json) (filter_orphan_tool_results : bool)
    (max_tool_result_bytes : option nat) : list ChatMessage :=
  (foldl (convert_value filter_orphan_tool_results max_tool_result_bytes) ([], ∅) values).1.

Definition values_to_chat_messages (values : list json) : list ChatMessage :=
  values_to_chat_messages_inner values true None.
Definition values_to_chat_messages_with_tool_result_limit (values : list json) (max_tool_result_bytes : nat)
    : list ChatMessage := values_to_chat_messages_inner values true (Some max_tool_result_bytes).
Definition provider_values_to_chat_messages (values : list json) : list ChatMessage :=
  values_to_chat_messages_inner values false None.
End convert.

(** * Specification *)

(** The calls of a conversation that have no result yet, in order. *)
Definition call_ids (m : ChatMessage) : list str :=
  match m with Assistant _ tcs _ => map id tcs | _ => [] end.

Definition skeleton (m : ChatMessage) : str + list str :=
  match m with Tool i _ => inl i | _ => inr (call_ids m) end.

(** Every tool result answers a call made before it that no earlier result has answered
    since. *)
Definition answered_step (open : option (gset str)) (m : ChatMessage) : option (gset str) :=
  ids ← open;
  match skeleton m with
  | inl i => if decide (i ∈ ids) then Some (ids ∖ {[i]}) else None
  | inr cs => Some (ids ∪ list_to_set cs)
  end.
Definition well_answered (messages : list ChatMessage) : Prop :=
  is_Some (foldl answered_step (Some ∅) messages).

(** What reading a provider-format message back keeps of a message: a sender's name as the
    format writes it, an assistant's missing text as an empty one unless it calls tools, and of
    a call no diagnostic; reasoning is not part of the format. *)
Definition canonical_call (tc : ToolCall) : ToolCall :=
  {| id := id tc; name := name tc; call_arguments := call_arguments tc; argument_diagnostic := None;
     metadata := metadata tc |}.
Definition canonical (m : ChatMessage) : ChatMessage :=
  match m with
  | System c => System c
  | User c n => User c (n ≫= sanitize_message_name)
  | Assistant c [] _ => Assistant (Some (unwrap_or [] c)) [] None
  | Assistant c tcs _ => Assistant c (map canonical_call tcs) None
  | Tool i c => Tool i c
  end.

(** Messages whose parts the format can carry: images with a type and data, arguments that are
    read back as they are printed, metadata of the one allowed key. *)
Definition part_ok (p : ContentPart) : Prop :=
  match p with
  | PartText _ => True
  | PartImage m d => m ≠ [] ∧ d ≠ [] ∧ find BASE64_MARKER (m ++ BASE64_MARKER ++ d) = Some (length m)
  end.
Definition printable `{SerdeJson} `{JsonDisplay} (v : json) : Prop :=
  from_str (show_json v) = Ok v ∧ trim (show_json v) ≠ [].
Definition call_ok `{SerdeJson} `{JsonDisplay} (tc : ToolCall) : Prop :=
  printable (call_arguments tc) ∧
  match metadata tc with None => True | Some m => m.*1 = [lit "thought_signature"] end.
Definition message_ok `{SerdeJson} `{JsonDisplay} (m : ChatMessage) : Prop :=
  match m with
  | User (Multimodal parts) _ => Forall part_ok parts
  | Assistant _ tcs _ => Forall call_ok tcs
  | _ => True
  end.

(** * Facts *)

Local Arguments lit : simpl never.

(** ** Orphans *)

Lemma answered_skeleton l l' o :
  map skeleton l = map skeleton l' → foldl answered_step o l = foldl answered_step o l'.
Proof.
  revert l' o; induction l as [|m l IH]; intros [|m' l'] o; try done. simpl. intros [= Hm Hl].
  rewrite (IH l' _ Hl). f_equal. unfold answered_step. by rewrite Hm.
Qed.

Lemma attach_from_last_skeleton l i r : map skeleton (attach_from_last l i r) = map skeleton l.
Proof.
  induction l as [|m l IH]; [done|]. destruct m as [c|c n|c tcs rs|j c]; simpl; [by rewrite IH..| |by rewrite IH].
  destruct (existsb _ _); simpl; [done|by rewrite IH].
Qed.

Lemma attach_skeleton l i r : map skeleton (attach_reasoning_to_assistant_tool_call l i r) = map skeleton l.
Proof.
  unfold attach_reasoning_to_assistant_tool_call. rewrite <- (reverse_involutive l) at 2.
  change (map skeleton) with (fmap (M:=list) skeleton). rewrite !fmap_reverse. f_equal.
  rewrite <- fmap_reverse. apply attach_from_last_skeleton.
Qed.

Lemma convert_answered `{SerdeJson} `{JsonDisplay} dir limit values :
  let '(messages, pending) := foldl (convert_value dir true limit) ([], ∅) values in
  foldl answered_step (Some ∅) messages = Some pending.
Proof.
  enough (Hg : ∀ st, foldl answered_step (Some ∅) st.1 = Some st.2 →
    let st' := foldl (convert_value dir true limit) st values in
    foldl answered_step (Some ∅) st'.1 = Some st'.2).
  { specialize (Hg ([], ∅) eq_refl). simpl in Hg. by destruct (foldl _ _ values). }
  induction values as [|v values IH]; intros st Hst; simpl; [done|]. apply IH. clear IH.
  destruct st as [ms ids]. unfold convert_value. simpl in Hst.
  destruct (as_str (index "role" v)) as [role|]; [|done].
  set (i := unwrap_or [] (as_str (index "tool_call_id" v))).
  assert (Hplain : ∀ m cs, skeleton m = inr cs → foldl answered_step (Some ∅) (ms ++ [m]) = Some (ids ∪ list_to_set cs)).
  { intros m cs Hm. rewrite foldl_app, Hst. simpl. unfold answered_step; simpl. by rewrite Hm. }
  assert (Hnil : ids ∪ list_to_set [] = ids) by set_solver.
  assert (Htool : ∀ ms' c, map skeleton ms' = map skeleton ms → i ∈ ids →
    foldl answered_step (Some ∅) (ms' ++ [Tool i c]) = Some (ids ∖ {[i]})).
  { intros ms' c Hm Hi. rewrite foldl_app, (answered_skeleton _ _ _ Hm), Hst. simpl.
    unfold answered_step; simpl. by rewrite decide_True. }
  destruct (str_eqb role "system"); [simpl; rewrite (Hplain _ []) by done; by rewrite Hnil|].
  destruct (str_eqb role "user"); [simpl; rewrite (Hplain _ []) by done; by rewrite Hnil|].
  destruct (str_eqb role "assistant"); [simpl; by erewrite Hplain|].
  rewrite andb_true_l. destruct (bool_decide_reflect (i ∈ ids)) as [Hi|Hi]; simpl.
  - destruct (str_eqb role "tool"); [simpl; by apply Htool|].
    destruct (str_eqb role "tool_result"); [simpl|done]. apply Htool; [|done].
    destruct (_ ≫= nonblank); [apply attach_skeleton|done].
  - assert (Hd : ids ∖ {[i]} = ids) by set_solver. rewrite Hd.
    destruct (str_eqb role "tool"); [done|]. by destruct (str_eqb role "tool_result").
Qed.

Lemma answered_open l ids i :
  foldl answered_step (Some ∅) l = Some ids → i ∈ ids →
  ∃ before m between, l = before ++ m :: between ∧ i ∈ call_ids m ∧ ∀ c, Tool i c ∉ between.
Proof.
  revert ids. induction l as [|m l IH] using rev_ind; intros ids; [by intros [= <-] ?%elem_of_empty|].
  rewrite foldl_app. simpl. destruct (foldl answered_step (Some ∅) l) as [ids0|]; [|done].
  unfold answered_step; simpl. intros Hids Hi.
  assert (Hold : i ∈ ids0 → (∀ c, m ≠ Tool i c) →
    ∃ before m' between, l ++ [m] = before ++ m' :: between ∧ i ∈ call_ids m' ∧ ∀ c, Tool i c ∉ between).
  { intros Hi0 Hm. destruct (IH _ eq_refl Hi0) as (b & m' & b' & -> & Hc & Hb').
    exists b, m', (b' ++ [m]). split; [by rewrite <- app_assoc|]. split; [done|].
    intros c. specialize (Hb' c). specialize (Hm c). set_solver. }
  assert (Hnew : i ∈ call_ids m →
    ∃ before m' between, l ++ [m] = before ++ m' :: between ∧ i ∈ call_ids m' ∧ ∀ c, Tool i c ∉ between).
  { intros Hc. exists l, m, []. split_and!; [done|done|]. intros c. by intros ?%elem_of_nil. }
  destruct m as [c|c n|c tcs r|j c]; simpl in Hids; simplify_eq.
  1-3: apply elem_of_union in Hi as [Hi|Hi]; [by apply Hold|];
    first [by apply elem_of_empty in Hi|apply Hnew; by apply elem_of_list_to_set in Hi].
  case_decide; simplify_eq. apply elem_of_difference in Hi as [Hi Hn].
  apply Hold; [done|]. intros c' [= -> ->]. set_solver.
Qed.

Lemma answered_prefix l m o : foldl answered_step o (l ++ [m]) ≠ None → foldl answered_step o l ≠ None.
Proof. rewrite foldl_app. simpl. by destruct (foldl _ _ l). Qed.

(** * Theorems *)

(** What a stored history becomes has no orphan: however the history was truncated, merged or
    edited, every tool result of the converted conversation comes after an assistant message that
    makes the call it answers, with no other result for that call in between, so a provider never
    gets a result without its call nor two results for one. *)
Theorem values_no_orphans `{SerdeJson} `{JsonDisplay} dir limit values before i c after :
  values_to_chat_messages_inner dir values true limit = before ++ Tool i c :: after →
  ∃ b m between, before = b ++ m :: between ∧ i ∈ call_ids m ∧ ∀ c', Tool i c' ∉ between.
Proof.
  unfold values_to_chat_messages_inner. pose proof (convert_answered dir limit values) as Hc.
  destruct (foldl _ ([], ∅) values) as [ms pending]. simpl. intros ->.
  rewrite cons_middle, app_assoc, foldl_app in Hc.
  destruct (foldl answered_step (Some ∅) (before ++ [Tool i c])) as [ids|] eqn:E.
  - rewrite foldl_app in E. destruct (foldl answered_step (Some ∅) before) as [ids0|] eqn:E0; [|done].
    simpl in E. unfold answered_step in E; simpl in E. case_decide; [|done]. by eapply answered_open.
  - exfalso. clear -Hc. revert Hc. induction after as [|m after IH]; [done|]. exact IH.
Qed.

(** ** Reading a message back *)

Ltac assocs :=
  unfold index, Json.get, str_eqb;
  cbn [as_object as_str as_array mbind option_bind fmap option_fmap option_map assoc unwrap_or or_else app];
  repeat (case_bool_decide; [|try done]; try done;
    cbn [as_object as_str as_array mbind option_bind fmap option_fmap option_map assoc unwrap_or or_else app]).

Lemma content_block_value p : part_ok p → content_block (content_part_value p) = Some p.
Proof.
  intros Hp. destruct p as [t|m d].
  - unfold content_block, content_part_value. by assocs.
  - destruct Hp as (Hm & Hd & Hf). unfold content_block, content_part_value. assocs.
    unfold parse_data_uri. change (lit "data:" ++ m ++ lit ";base64," ++ d) with (lit "data:" ++ (m ++ BASE64_MARKER ++ d)).
    rewrite strip_prefix_app. cbn [mbind option_bind]. rewrite Hf. cbn [mbind option_bind].
    rewrite take_app_length, <- drop_drop, drop_app_length, drop_app_length.
    by destruct m, d.
Qed.

Lemma content_blocks_value parts : Forall part_ok parts → omap content_block (map content_part_value parts) = parts.
Proof.
  induction 1 as [|p parts Hp _ IH]; [done|]. cbn [map]. csimpl. rewrite (content_block_value p Hp). by rewrite IH.
Qed.

Section roundtrip.
Context `{SerdeJson} `{JsonDisplay} (dir : str).
Lemma stored_tool_call_value tc : call_ok tc → stored_tool_call (tool_call_value tc) = Some (canonical_call tc).
Proof.
  destruct tc as [i n args diag meta]. unfold call_ok, canonical_call, tool_call_value. simpl.
  intros [[from_show show_text] Hmeta]. revert Hmeta.
  assert (Hd : decode_tool_call_arguments_with_diagnostic (Some (JString (show_json args))) =
    {| arguments := args; diagnostic := None |}).
  { unfold decode_tool_call_arguments_with_diagnostic, decode_tool_call_arguments_from_str.
    rewrite from_show. by destruct (trim (show_json args)). }
  destruct meta as [meta|]; simpl; [|intros _].
  - destruct meta as [|[k v] [|? ?]]; try done. simpl. intros [= ->].
    unfold stored_tool_call. assocs. rewrite Hd. unfold extract_tool_call_metadata. by assocs.
  - unfold stored_tool_call. assocs. rewrite Hd. unfold extract_tool_call_metadata. by assocs.
Qed.

Lemma stored_tool_calls_value tcs :
  Forall call_ok tcs → omap stored_tool_call (map tool_call_value tcs) = map canonical_call tcs.
Proof.
  induction 1 as [|tc tcs Htc _ IH]; [done|]. cbn [map]. csimpl. rewrite (stored_tool_call_value tc Htc).
  by rewrite IH.
Qed.

Lemma convert_back st m :
  message_ok m → (convert_value dir false None st (to_openai_value m)).1 = st.1 ++ [canonical m].
Proof.
  destruct st as [ms ids]. intros Hm. unfold convert_value, to_openai_value.
  destruct m as [c|c n|c tcs r|i c].
  - assocs.
  - assert (Hr : ∀ v m', as_str (index "role" (JObject ((lit "role", JString "user") :: (lit "content", v) :: m'))) = Some (lit "user"))
      by (intros; by assocs).
    cbn [app]. rewrite Hr. assocs. cbn [fst]. f_equal. f_equal. unfold canonical. f_equal.
    + unfold user_content, document_context. assocs; destruct c as [t|parts]; assocs;
        (destruct (n ≫= sanitize_message_name); assocs); by rewrite ?content_blocks_value.
    + unfold sender_name. assocs; destruct (n ≫= sanitize_message_name); by assocs.
  - destruct tcs as [|tc tcs].
    + assocs.
    + assocs. rewrite stored_tool_calls_value by done.
      destruct c; assocs; done.
  - assocs.
Qed.
End roundtrip.

(** A conversation survives its provider format: reading back what [to_openai_value] writes,
    as the runner does with the messages a [BeforeLLMCall] hook returns, gives the same messages
    in the same order, each up to what the format does not carry ([canonical]); in particular a
    hook that returns the messages unchanged loses no message, no call, no arguments and no tool
    result.  ([from_show] and [show_text] are what printing and parsing of values promise.) *)
Theorem roundtrip_messages `{SerdeJson} `{JsonDisplay} dir ms :
  Forall message_ok ms →
  provider_values_to_chat_messages dir (map to_openai_value ms) = map canonical ms.
Proof.
  intros Hms. unfold provider_values_to_chat_messages, values_to_chat_messages_inner.
  enough (Hg : ∀ st, (foldl (convert_value dir false None) st (map to_openai_value ms)).1 = st.1 ++ map canonical ms)
    by apply Hg.
  induction Hms as [|m ms Hm _ IH]; intros st; [by rewrite app_nil_r|].
  cbn [map foldl]. rewrite IH, (convert_back dir) by done. by rewrite <- app_assoc.
Qed.

(** Totals saturate: over any requests each counter is the sum, or the largest value it can
    hold. *)
Lemma usage_total us :
  Forall (λ u, 0 ≤ input_tokens u)%Z us →
  input_tokens (total (foldl record_request UsageAccumulator_default us)) =
  Z.min (foldr (λ u s, input_tokens u + s) 0 us)%Z (u32_bound - 1).
Proof.
  intros Hus. induction us as [|u us IH] using rev_ind; [done|].
  apply Forall_app in Hus as [Hus Hu]. rewrite foldl_app. simpl. rewrite IH by done.
  rewrite foldr_app. simpl. unfold sat_add.
  assert (Hs : ∀ z, foldr (λ u s, input_tokens u + s)%Z z us = (foldr (λ u s, input_tokens u + s) 0 us + z)%Z).
  { clear. intros z. induction us as [|v us IH]; simpl; lia. }
  rewrite (Hs (_ + _)%Z). inversion Hu; subst.
  assert (0 ≤ foldr (λ u s, input_tokens u + s) 0 us)%Z by (clear -Hus; induction Hus; simpl; lia).
  lia.
Qed.

(** ** Witnesses *)

Definition demo_call : ToolCall :=
  {| id := lit "c1"; name := lit "exec"; call_arguments := JObject []; argument_diagnostic := None; metadata := None |}.
(** A printer for these examples. *)
Definition demo_show (v : json) : str := match v with JString s => s | _ => lit "{}" end.

Lemma values_no_orphans_witness :
  let _ : SerdeJson := {| from_str _ := Err []; to_string _ := None |} in
  let _ : JsonDisplay := {| show_json := demo_show |} in
  let stored := [JObject [(lit "role", JString "tool"); (lit "tool_call_id", JString "c1"); (lit "content", JString "late")];
                 to_openai_value (Assistant None [demo_call] None);
                 to_openai_value (Tool "c1" "out"); to_openai_value (Tool "c1" "again")] in
  length (values_to_chat_messages_inner [] stored true None) = 2 ∧
  ∃ b m between, [Assistant None [{| id := lit "c1"; name := lit "exec"; call_arguments := JObject [];
      argument_diagnostic := argument_diagnostic (unwrap_or demo_call (stored_tool_call (tool_call_value demo_call)));
      metadata := None |}] None] = b ++ m :: between ∧ lit "c1" ∈ call_ids m ∧ ∀ c', Tool "c1" c' ∉ between.
Proof.
  intros S J stored. split; [by vm_compute|].
  apply (values_no_orphans (H := S) (H0 := J) [] None stored _ (lit "c1") (lit "out") []).
  by vm_compute.
Defined.

Lemma roundtrip_messages_witness :
  let _ : SerdeJson := {| from_str _ := Ok (JObject []); to_string _ := None |} in
  let _ : JsonDisplay := {| show_json := demo_show |} in
  provider_values_to_chat_messages []
    (map to_openai_value [user "hi"; Assistant None [demo_call] (Some (lit "hm")); Tool "c1" "out"]) =
  [user "hi"; Assistant None [demo_call] None; Tool "c1" "out"].
Proof.
  intros S J. apply (roundtrip_messages (H := S) (H0 := J) []).
  repeat constructor. by vm_compute.
Defined.
