(* ===== verification/ContextBudget.v ===== *)
(** The context budget of an agent run.

    Models the estimates and the compaction of tool results of
    [crates/agents/src/runner/helpers.rs]: [estimate_prompt_tokens],
    [compact_tool_results_oldest_first_in_place], [enforce_tool_result_context_budget].

    Theorem: what a prompt that passes looks like, and when it does not pass
    ([budget_enforced]). *)
From S2P Require Import Prelude Json Utf8 ToolArgs ToolParsing Sanitize Messages.
Local Open Scope nat_scope.

Definition TOOL_RESULT_COMPACTION_PLACEHOLDER : str := "[tool result compacted to preserve context budget]".
Definition TOOL_RESULT_COMPACTION_MIN_BYTES : nat := 200.

(** The errors of a run. *)
Inductive AgentRunError :=
| ContextWindowExceeded (msg : str)
| Other (msg : str).

Definition usize_max : nat → Prop := λ n, (Z.of_nat n < u64_bound)%Z.

(** [saturating_mul], on values far below the bound. *)
Definition saturating_mul (a b : nat) : nat := Z.to_nat (sat_mul u64_bound (Z.of_nat a) (Z.of_nat b)).

Definition div_ceil (a b : nat) : nat := (a + b - 1) / b.

Definition estimate_prompt_text_tokens (text : str) : nat :=
  let trimmed := trim text in
  if negb (is_nonempty trimmed) then 0 else div_ceil (utf8_len trimmed) 4 `max` 1.

Section budget.
Context `{JsonDisplay}.

Definition estimate_message_tokens (message : ChatMessage) : nat :=
  estimate_prompt_text_tokens (show_json (to_openai_value message)).

Definition estimate_prompt_tokens (messages : list ChatMessage) (tool_schemas : list json) : nat :=
  sum_list (map estimate_message_tokens messages) +
  sum_list (map (λ schema, estimate_prompt_text_tokens (show_json schema)) tool_schemas).

Definition is_tool_message (m : ChatMessage) : bool := match m with Tool _ _ => true | _ => false end.
Definition has_tool_result_messages (messages : list ChatMessage) : bool := existsb is_tool_message messages.

(** The loop over the messages, with what has been reduced so far. *)
Fixpoint compact_loop (tokens_needed reduced : nat) (messages : list ChatMessage) : list ChatMessage * nat :=
  match messages with
  | [] => ([], reduced)
  | message :: rest =>
      if tokens_needed <=? reduced then (messages, reduced)
      else
        let skip := let '(rest', r) := compact_loop tokens_needed reduced rest in (message :: rest', r) in
        match message with
        | Tool tool_call_id content =>
            if str_eqb content TOOL_RESULT_COMPACTION_PLACEHOLDER ||
               (utf8_len content <? TOOL_RESULT_COMPACTION_MIN_BYTES) then skip
            else
              let before := estimate_message_tokens (Tool tool_call_id content) in
              let after := estimate_message_tokens (Tool tool_call_id TOOL_RESULT_COMPACTION_PLACEHOLDER) in
              let saved := before - after in
              if saved =? 0 then skip
              else
                let '(rest', r) := compact_loop tokens_needed (reduced + saved) rest in
                (Tool tool_call_id TOOL_RESULT_COMPACTION_PLACEHOLDER :: rest', r)
        | _ => skip
        end
  end.

Definition compact_tool_results_oldest_first_in_place (messages : list ChatMessage) (tokens_needed : nat)
    : list ChatMessage * nat :=
  if tokens_needed =? 0 then (messages, 0) else compact_loop tokens_needed 0 messages.

Definition overflow_message (current overflow_budget : nat) (tail_ : str) : str :=
  lit "preemptive context overflow: estimated prompt size " ++ show_nat current ++
  lit " tokens exceeds " ++ show_nat overflow_budget ++ lit " token budget" ++ tail_.

(** The messages as they are left, also when the result is an error. *)
Definition enforce_tool_result_context_budget (messages : list ChatMessage) (tool_schemas : list json)
    (context_window compaction_ratio overflow_ratio : nat)
    : list ChatMessage * result unit AgentRunError :=
  if (context_window =? 0) || negb (has_tool_result_messages messages) then (messages, Ok tt)
  else
    let overflow_budget := saturating_mul context_window overflow_ratio / 100 in
    let current_tokens := estimate_prompt_tokens messages tool_schemas in
    if compaction_ratio =? 0 then
      (messages,
       if overflow_budget <? current_tokens
       then Err (ContextWindowExceeded (overflow_message current_tokens overflow_budget " (compaction disabled)"))
       else Ok tt)
    else
      let compaction_budget := saturating_mul context_window compaction_ratio / 100 in
      let messages' :=
        if compaction_budget <? current_tokens
        then (compact_tool_results_oldest_first_in_place messages (current_tokens - compaction_budget)).1
        else messages in
      let post := estimate_prompt_tokens messages' tool_schemas in
      (messages',
       if overflow_budget <? post
       then Err (ContextWindowExceeded (overflow_message post overflow_budget " after tool-result compaction"))
       else Ok tt).

(** * Specification *)

(** A message compaction may shorten, with what that saves. *)
Definition savings (m : ChatMessage) : nat :=
  match m with
  | Tool i c =>
      if str_eqb c TOOL_RESULT_COMPACTION_PLACEHOLDER || (utf8_len c <? TOOL_RESULT_COMPACTION_MIN_BYTES) then 0
      else estimate_message_tokens (Tool i c) - estimate_message_tokens (Tool i TOOL_RESULT_COMPACTION_PLACEHOLDER)
  | _ => 0
  end.
(** The message with its result replaced, when that saves anything. *)
Definition compacted (m : ChatMessage) : ChatMessage :=
  match m with
  | Tool i _ => if savings m =? 0 then m else Tool i TOOL_RESULT_COMPACTION_PLACEHOLDER
  | _ => m
  end.

(** * Facts *)


Lemma compacted_skeleton m : skeleton (compacted m) = skeleton m.
Proof. destruct m as [c|c n|c tcs r|i c]; try done. unfold compacted. by destruct (_ =? _). Qed.

(** Compaction takes messages from the front until it has saved enough. *)
Lemma compact_loop_spec needed reduced ms :
  ∃ k, (compact_loop needed reduced ms).1 = map compacted (take k ms) ++ drop k ms ∧
    (compact_loop needed reduced ms).2 = reduced + sum_list (map savings (take k ms)) ∧
    (needed ≤ (compact_loop needed reduced ms).2 ∨ length ms ≤ k) ∧
    (∀ j, j < k → reduced + sum_list (map savings (take j ms)) < needed).
Proof.
  revert reduced. induction ms as [|m ms IH]; intros reduced.
  { exists 0. simpl. split_and!; [done|lia|by right|lia]. }
  cbn [compact_loop]. destruct (Nat.leb_spec needed reduced) as [Hle|Hlt].
  { exists 0. simpl. split_and!; [done|lia|by left|lia]. }
  set (skip := let '(rest', r) := compact_loop needed reduced ms in (m :: rest', r)).
  assert (Hskip : savings m = 0 → compacted m = m → ∃ k,
    skip.1 = map compacted (take k (m :: ms)) ++ drop k (m :: ms) ∧
    skip.2 = reduced + sum_list (map savings (take k (m :: ms))) ∧
    (needed ≤ skip.2 ∨ length (m :: ms) ≤ k) ∧
    (∀ j, j < k → reduced + sum_list (map savings (take j (m :: ms))) < needed)).
  { intros Hs Hc. destruct (IH reduced) as (k & H1 & H2 & H3 & H4). unfold skip.
    destruct (compact_loop needed reduced ms) as [ms' r]. simpl in *. exists (S k). simpl. rewrite Hs, Hc, H1.
    split_and!; [done|lia|lia|]. intros [|j] Hj; simpl; [lia|]. rewrite Hs. apply H4. lia. }
  destruct m as [c|c n|c tcs r|i c]; try by apply Hskip.
  destruct (str_eqb c _ || _) eqn:Eo; [apply Hskip; unfold compacted; simpl; by rewrite Eo|].
  destruct (Nat.eqb_spec (estimate_message_tokens (Tool i c) -
    estimate_message_tokens (Tool i TOOL_RESULT_COMPACTION_PLACEHOLDER)) 0) as [E|E].
  { apply Hskip; unfold compacted; simpl; rewrite Eo, E; done. }
  clear Hskip skip. set (saved := _ - _) in *.
  assert (Hsav : savings (Tool i c) = saved) by (simpl; by rewrite Eo).
  destruct (IH (reduced + saved)) as (k & H1 & H2 & H3 & H4).
  destruct (compact_loop needed (reduced + saved) ms) as [ms' r]. exists (S k). cbn [fst snd] in *.
  split_and!.
  - cbn [take map drop app]. rewrite H1. f_equal. unfold compacted. rewrite Hsav.
    by destruct (Nat.eqb_spec saved 0).
  - cbn [take map sum_list_with Datatypes.id]. rewrite Hsav. lia.
  - simpl. lia.
  - intros [|j] Hj; [simpl; lia|]. cbn [take map]. specialize (H4 j ltac:(lia)).
    cbn [sum_list_with Datatypes.id]. rewrite Hsav. lia.
Qed.

(** What compacting the first [k] messages leaves. *)
Definition compact_first (k : nat) (ms : list ChatMessage) : list ChatMessage :=
  map compacted (take k ms) ++ drop k ms.


Lemma compact_first_skeleton k ms : map skeleton (compact_first k ms) = map skeleton ms.
Proof.
  unfold compact_first. rewrite map_app, map_map. rewrite <- (take_drop k ms) at 3. rewrite map_app. f_equal.
  apply map_ext. apply compacted_skeleton.
Qed.

Lemma enforce_skeleton ms schemas window compaction overflow :
  map skeleton (enforce_tool_result_context_budget ms schemas window compaction overflow).1 = map skeleton ms.
Proof.
  unfold enforce_tool_result_context_budget. destruct (_ || _); [done|]. destruct (compaction =? 0); [done|]. cbn [fst].
  destruct (_ <? _); [|done]. unfold compact_tool_results_oldest_first_in_place. destruct (_ =? 0); [done|].
  match goal with |- context [compact_loop ?n 0 ms] => destruct (compact_loop_spec n 0 ms) as (k & Hk & _) end.
  rewrite Hk. apply compact_first_skeleton.
Qed.

End budget.

(** ** Witness *)


