(* ===== verification/AgentLoop.v ===== *)
(** The agent loop: ask the model, run its tool calls, repeat.

    Models [run_agent_loop_with_context_and_limits] of
    [crates/agents/src/runner/non_streaming.rs] with the helpers of
    [crates/agents/src/runner/helpers.rs] and [AgentToolControls] of
    [crates/config/src/schema/agents.rs].  It composes the models of its parts: the registry, the
    arguments, the text parsers, the loop detector, the retry budget, the context budget, the
    conversion of messages.

    The state of a run is a record; a round of the loop is a computation that may leave the round
    ([continue]) or the run ([return]), in the monad [M].  What is outside answers through an
    [Env], one [RoundEnv] per round: the provider, the hooks, and for each call of a batch the
    hooks and the tool.  The calls of a batch run concurrently in the source; what one of them
    meets is its own [CallEnv], so every interleaving is some environment, and the trace lists
    the calls one after the other in the order of the batch.  The search tool of a lazy registry
    is the only implementation with access to the registry.

    Instrumentation and logging are left out.  The counters count rounds and calls and are not
    wrapped. *)
From S2P Require Import Prelude Utf8 ToolArgs ToolParsing Sanitize Hooks LoopDetector Retry Json Policy ToolRegistry Messages ContextBudget.
Local Open Scope nat_scope.

(** * Settings *)

Inductive ToolChoice := ChooseAuto | ChooseAny | ChooseNone | ChooseTool (forced : str).

Record AgentToolControls := {
  active_tools : option (list str);
  tool_choice : option ToolChoice;
}.

(** The fields of the configuration the loop reads. *)
Record AgentConfig := {
  max_tool_result_bytes : nat;
  agent_max_auto_continues : nat;
  agent_auto_continue_min_tool_calls : nat;
  tool_result_compaction_ratio : nat;
  preemptive_overflow_ratio : nat;
  compaction_min_iterations : nat;
  agent_max_iterations : nat;
  registry_lazy : bool;
  agent_loop_detector_window : nat;
  agent_loop_detector_strip_tools_on_second_fire : bool;
}.

Record Provider := {
  provider_name : str;
  provider_id : str;
  supports_tools : bool;
  provider_context_window : nat;
}.

Definition MALFORMED_TOOL_RETRY_PROMPT : str :=
  lit "Your tool call was malformed. Retry with exact format:" ++ [ch_newline] ++
  fence ++ lit "tool_call" ++ [ch_newline] ++
  [123%N; 34%N] ++ lit "tool" ++ [34%N] ++ lit ": " ++ [34%N] ++ lit "name" ++ [34%N] ++ lit ", " ++
  [34%N] ++ lit "arguments" ++ [34%N] ++ lit ": {...}}" ++ [ch_newline] ++ fence.
Definition EMPTY_TOOL_NAME_RETRY_PROMPT : str := "Your structured tool call had an empty tool name. Retry the same tool call using the intended tool's exact name and the same arguments.".
Definition AUTO_CONTINUE_NUDGE : str := "Your previous response ended without tool calls and without a final answer. If there are still steps to run, continue executing them. Otherwise reply with exactly: done".
Definition AUTO_CONTINUE_SUBSTANTIVE_TEXT_THRESHOLD : nat := 40.

Section controls.
(** [serde_json::from_value] of the two types. *)
Context (tool_choice_from_value : json → option ToolChoice) (binding_from_value : json → option ChannelBinding).

Definition from_tool_context (tool_context : option json) : AgentToolControls :=
  match tool_context with
  | None => {| active_tools := None; tool_choice := None |}
  | Some context =>
      {| active_tools := (λ items, filter (λ name, is_nonempty name = true) (map trim (strings items))) <$>
           (Json.get "active_tools" context ≫= as_array);
         tool_choice := Json.get "tool_choice" context ≫= tool_choice_from_value |}
  end.

Definition channel_binding_from_tool_context (tool_context : option json) : option ChannelBinding :=
  ctx ← tool_context; v ← Json.get "_channel" ctx; binding_from_value v.
End controls.

Definition resolve_max_iterations (cfg : AgentConfig) (limit : option nat) : nat :=
  let configured := unwrap_or (agent_max_iterations cfg) limit in
  let base := resolve_agent_max_iterations (Z.of_nat configured) in
  Z.to_nat (if registry_lazy cfg then wrap u64_bound (base * 3) else base).

(** ** Small helpers *)

Definition explicit_shell_command (text : str) : option str :=
  let text := trim text in
  if negb (is_nonempty text) || (4096 <? utf8_len text) ||
     bool_decide (ch_newline ∈ text) || bool_decide (ch_cr ∈ text) then None
  else
    rest ← strip_prefix "/" text;
    split_idx ← find_char is_whitespace rest;
    let head := take split_idx rest in
    let command := trim_start (drop split_idx rest) in
    let head_lower := to_ascii_lowercase head in
    let is_sh_prefix := str_eqb head_lower "sh" || is_some_and is_nonempty (strip_prefix "sh@" head_lower) in
    if negb (is_nonempty command) || negb is_sh_prefix then None else Some command.

Definition explicit_shell_command_from_user_content (content : UserContent) : option str :=
  match content with UserText text => explicit_shell_command text | Multimodal _ => None end.

Definition is_substantive_answer_text (text : str) : bool :=
  AUTO_CONTINUE_SUBSTANTIVE_TEXT_THRESHOLD <=? length (trim text).

Definition unnamed (tc : ToolCall) : bool := negb (is_nonempty (sanitize_tool_name (ToolParsing.name tc))).
Definition find_empty_tool_name_call (tcs : list ToolCall) : option ToolCall :=
  snd <$> list_find (λ tc, unnamed tc = true) tcs.
Definition has_named_tool_call (tcs : list ToolCall) : bool := existsb (λ tc, negb (unnamed tc)) tcs.

Definition record_answer_text (last_answer_text : str) (text : option str) : str :=
  match text with Some t => if is_nonempty t then t else last_answer_text | None => last_answer_text end.

Definition legacy_public_tool_alias (name : str) : option str :=
  base ← strip_suffix "_wasm" name; if is_nonempty base then Some base else None.

Definition resolve_tool_lookup (r : ToolRegistry) (name : str) : option AgentTool * str :=
  match (alias ← legacy_public_tool_alias name; t ← ToolRegistry.get r alias; Some (Some t, alias)) with
  | Some found => found
  | None => (ToolRegistry.get r name, name)
  end.

(** * The state of a run *)

Inductive RunnerEvent :=
| Thinking
| ThinkingDone
| ToolCallStart (id name : str) (arguments : json) (metadata : option (list (str * json)))
| ToolCallEnd (id name : str) (success : bool) (error : option str) (res : option json)
| ToolCallRejected (id name : str) (arguments : json) (error : str)
| Iteration (n : nat)
| RetryingAfterError (error : str) (delay_ms : Z)
| AutoContinue (iteration max_iterations : nat)
| LoopInterventionFired (stage : Z) (tool_name : str)
| ThinkingText (t : str)
| TextDelta (t : str)
| ProgressText (t : str)
| FinalText (t : str).

(** What a run does outside. *)
Inductive Action :=
| Emit (e : RunnerEvent)
| Dispatch (p : HookPayload) (answer : result HookAction str)
| Ask (messages : list ChatMessage) (schemas : list json)
| Run (t : AgentTool) (name : str) (args : json)
| Sleep (delay_ms : Z).

Record RunState := {
  messages : list ChatMessage;
  registry : ToolRegistry;
  iterations : nat;
  total_tool_calls : nat;
  usage_accumulator : UsageAccumulator;
  retries : budget;
  last_answer_text : str;
  malformed_retry_count : nat;
  empty_tool_name_retry_count : nat;
  auto_continue_count : nat;
  loop_detector : ToolLoopDetector;
  strip_tools_next_iter : bool;
  trace : list Action;
}.

Record AgentRunResult := {
  run_text : str;
  run_iterations : nat;
  tool_calls_made : nat;
  run_usage : Usage;
  request_usage : Usage;
}.

Inductive Outcome :=
| Returned (r : result AgentRunResult AgentRunError)
| Panicked.

(** ** Setters *)

Definition set_messages (f : list ChatMessage → list ChatMessage) (s : RunState) : RunState :=
  {| messages := f (messages s); registry := registry s; iterations := iterations s;
     total_tool_calls := total_tool_calls s; usage_accumulator := usage_accumulator s; retries := retries s;
     last_answer_text := last_answer_text s; malformed_retry_count := malformed_retry_count s;
     empty_tool_name_retry_count := empty_tool_name_retry_count s; auto_continue_count := auto_continue_count s;
     loop_detector := loop_detector s; strip_tools_next_iter := strip_tools_next_iter s; trace := trace s |}.
Definition set_registry (r : ToolRegistry) (s : RunState) : RunState :=
  {| messages := messages s; registry := r; iterations := iterations s;
     total_tool_calls := total_tool_calls s; usage_accumulator := usage_accumulator s; retries := retries s;
     last_answer_text := last_answer_text s; malformed_retry_count := malformed_retry_count s;
     empty_tool_name_retry_count := empty_tool_name_retry_count s; auto_continue_count := auto_continue_count s;
     loop_detector := loop_detector s; strip_tools_next_iter := strip_tools_next_iter s; trace := trace s |}.
Definition set_counters (it calls malformed unnamed_ auto : nat) (s : RunState) : RunState :=
  {| messages := messages s; registry := registry s; iterations := it;
     total_tool_calls := calls; usage_accumulator := usage_accumulator s; retries := retries s;
     last_answer_text := last_answer_text s; malformed_retry_count := malformed;
     empty_tool_name_retry_count := unnamed_; auto_continue_count := auto;
     loop_detector := loop_detector s; strip_tools_next_iter := strip_tools_next_iter s; trace := trace s |}.
Definition set_iterations (n : nat) (s : RunState) : RunState :=
  set_counters n (total_tool_calls s) (malformed_retry_count s) (empty_tool_name_retry_count s) (auto_continue_count s) s.
Definition add_tool_calls (n : nat) (s : RunState) : RunState :=
  set_counters (iterations s) (total_tool_calls s + n) (malformed_retry_count s) (empty_tool_name_retry_count s) (auto_continue_count s) s.
Definition bump_malformed (s : RunState) : RunState :=
  set_counters (iterations s) (total_tool_calls s) (malformed_retry_count s + 1) (empty_tool_name_retry_count s) (auto_continue_count s) s.
Definition bump_unnamed (s : RunState) : RunState :=
  set_counters (iterations s) (total_tool_calls s) (malformed_retry_count s) (empty_tool_name_retry_count s + 1) (auto_continue_count s) s.
Definition bump_auto (s : RunState) : RunState :=
  set_counters (iterations s) (total_tool_calls s) (malformed_retry_count s) (empty_tool_name_retry_count s) (auto_continue_count s + 1) s.
Definition set_usage (u : UsageAccumulator) (s : RunState) : RunState :=
  {| messages := messages s; registry := registry s; iterations := iterations s;
     total_tool_calls := total_tool_calls s; usage_accumulator := u; retries := retries s;
     last_answer_text := last_answer_text s; malformed_retry_count := malformed_retry_count s;
     empty_tool_name_retry_count := empty_tool_name_retry_count s; auto_continue_count := auto_continue_count s;
     loop_detector := loop_detector s; strip_tools_next_iter := strip_tools_next_iter s; trace := trace s |}.
Definition set_retries (b : budget) (s : RunState) : RunState :=
  {| messages := messages s; registry := registry s; iterations := iterations s;
     total_tool_calls := total_tool_calls s; usage_accumulator := usage_accumulator s; retries := b;
     last_answer_text := last_answer_text s; malformed_retry_count := malformed_retry_count s;
     empty_tool_name_retry_count := empty_tool_name_retry_count s; auto_continue_count := auto_continue_count s;
     loop_detector := loop_detector s; strip_tools_next_iter := strip_tools_next_iter s; trace := trace s |}.
Definition set_answer (t : str) (s : RunState) : RunState :=
  {| messages := messages s; registry := registry s; iterations := iterations s;
     total_tool_calls := total_tool_calls s; usage_accumulator := usage_accumulator s; retries := retries s;
     last_answer_text := t; malformed_retry_count := malformed_retry_count s;
     empty_tool_name_retry_count := empty_tool_name_retry_count s; auto_continue_count := auto_continue_count s;
     loop_detector := loop_detector s; strip_tools_next_iter := strip_tools_next_iter s; trace := trace s |}.
Definition set_detector (d : ToolLoopDetector) (strip : bool) (s : RunState) : RunState :=
  {| messages := messages s; registry := registry s; iterations := iterations s;
     total_tool_calls := total_tool_calls s; usage_accumulator := usage_accumulator s; retries := retries s;
     last_answer_text := last_answer_text s; malformed_retry_count := malformed_retry_count s;
     empty_tool_name_retry_count := empty_tool_name_retry_count s; auto_continue_count := auto_continue_count s;
     loop_detector := d; strip_tools_next_iter := strip; trace := trace s |}.
Definition act (a : list Action) (s : RunState) : RunState :=
  {| messages := messages s; registry := registry s; iterations := iterations s;
     total_tool_calls := total_tool_calls s; usage_accumulator := usage_accumulator s; retries := retries s;
     last_answer_text := last_answer_text s; malformed_retry_count := malformed_retry_count s;
     empty_tool_name_retry_count := empty_tool_name_retry_count s; auto_continue_count := auto_continue_count s;
     loop_detector := loop_detector s; strip_tools_next_iter := strip_tools_next_iter s; trace := trace s ++ a |}.
Definition push (m : ChatMessage) : RunState → RunState := set_messages (λ ms, ms ++ [m]).

(** ** Computations

    A step of a round goes on with a value, ends the round ([continue]), or ends the run. *)
Inductive flow (A : Type) :=
| Go (a : A)
| NextRound
| Leave (o : Outcome).
Arguments Go {A} _.
Arguments NextRound {A}.
Arguments Leave {A} _.

Definition M (A : Type) : Type := RunState → RunState * flow A.

Global Instance M_ret : MRet M := λ A a s, (s, Go a).
Global Instance M_bind : MBind M := λ A B k m s,
  match m s with
  | (s', Go a) => k a s'
  | (s', NextRound) => (s', NextRound)
  | (s', Leave o) => (s', Leave o)
  end.

Definition gets {A} (f : RunState → A) : M A := λ s, (s, Go (f s)).
Definition modify (f : RunState → RunState) : M unit := λ s, (f s, Go tt).
Definition continue {A} : M A := λ s, (s, NextRound).
Definition leave {A} (o : Outcome) : M A := λ s, (s, Leave o).
Definition fail {A} (e : AgentRunError) : M A := leave (Returned (Err e)).
Definition when (b : bool) (m : M unit) : M unit := if b then m else mret tt.
Definition emit (e : RunnerEvent) : M unit := modify (act [Emit e]).

(** The loop over rounds [rd], by the number of rounds. *)
Fixpoint rounds_of (rd : nat → M unit) (fuel i : nat) (s : RunState) : RunState * option Outcome :=
  match fuel with
  | 0 => (s, None)
  | S fuel' =>
      match rd i s with
      | (s', Leave o) => (s', Some o)
      | (s', _) => rounds_of rd fuel' (S i) s'
      end
  end.

(** ** The environment *)

(** What one call of a batch meets. *)
Record CallEnv := {
  before_tool : HookPayload → result HookAction str;
  after_tool : HookPayload → result HookAction str;
  result_persist : HookPayload → result HookAction str;
  implementation : AgentTool → json → result json str;
}.

Record RoundEnv := {
  before_llm : HookPayload → result HookAction str;
  after_llm : HookPayload → result HookAction str;
  complete : list ChatMessage → list json → AgentToolControls → result CompletionResponse str;
  text_uuid : nat → str;
  xml_uuid : nat → str;
  forced_uuid : str;
  call_env : nat → CallEnv;
}.

(** What is fixed for a run. *)
Record RunSetup := {
  config : AgentConfig;
  provider : Provider;
  has_hooks : bool;                        (** [hook_registry.is_some()] *)
  tool_context : option json;
  controls : AgentToolControls;
  session_key : str;
  channel : option ChannelBinding;
  explicit_command : option str;
  max_iterations : nat;
}.

(** How a batch went for one call. *)
Record CallOutcome := {
  success : bool;
  outcome_value : json;
  outcome_error : option str;
  rejected : bool;
}.

Record Prepared := {
  prepared_call : ToolCall;
  prepared_tool : option AgentTool;
  prepared_name : str;
  prepared_args : json;
  validation_error : option str;
}.

Section run.
Context `{Unicode} `{SerdeJson} `{JsonDisplay} `{FloatFormat} (hash_str : str → Z) (data_dir : str).
Context (setup : RunSetup).

(** ** Hooks *)

(** A dispatch whose error is only logged counts as [Continue]. *)
Definition consult (ask : HookPayload → result HookAction str) (p : HookPayload) : M HookAction :=
  if negb (has_hooks setup) then mret Continue
  else
    _ ← modify (act [Dispatch p (ask p)]);
    mret (match ask p with Ok a => a | Err _ => Continue end).

Definition blocked_by (hook : string) (reason : str) : AgentRunError :=
  Other (lit "blocked by " ++ lit hook ++ lit " hook: " ++ reason).

Definition dispatch_before_agent_start_hook (ask : HookPayload → result HookAction str) : M unit :=
  a ← consult ask (PBeforeAgentStart (session_key setup) (provider_id (provider setup)));
  match a with Block reason => fail (blocked_by "BeforeAgentStart" reason) | _ => mret tt end.

Definition apply_before_llm_call_modify_payload (messages : list ChatMessage) (modified_payload : json)
    : list ChatMessage :=
  match or_else (Json.get "messages" modified_payload ≫= as_array) (as_array modified_payload) with
  | None => messages
  | Some modified_messages =>
      let parsed := provider_values_to_chat_messages data_dir modified_messages in
      if is_nonempty parsed then parsed else messages
  end.

Definition build_after_llm_call_payload (text : option str) (tcs : list ToolCall) (u : Usage) (iteration : nat)
    : HookPayload :=
  PAfterLLMCall (session_key setup) (provider_name (provider setup)) (provider_id (provider setup)) text
    (map (λ tc, JObject [(lit "id", JString (ToolParsing.id tc)); (lit "name", JString (ToolParsing.name tc));
                         (lit "arguments", call_arguments tc)]) tcs)
    (input_tokens u) (output_tokens u) iteration.

Definition dispatch_after_llm_call_hook (env : RoundEnv) (text : option str) (tcs : list ToolCall) (u : Usage)
    (iteration : nat) : M unit :=
  a ← consult (after_llm env) (build_after_llm_call_payload text tcs u iteration);
  match a with Block reason => fail (blocked_by "AfterLLMCall" reason) | _ => mret tt end.

(** ** Asking the model *)

Definition listed (r : ToolRegistry) : list json :=
  match active_tools (controls setup) with
  | Some active => list_schemas_allowed_by r (λ n, bool_decide (n ∈ active))
  | None => list_schemas r
  end.

Definition schemas_for_api (r : ToolRegistry) (strip : bool) : result (list json) AgentRunError :=
  if supports_tools (provider setup) && negb strip then
    let schemas := listed r in
    match tool_choice (controls setup) with
    | Some ChooseNone => Ok []
    | Some ChooseAny =>
        if is_nonempty schemas then Ok schemas
        else Err (Other "tool_choice any requires at least one active tool")
    | Some (ChooseTool n) =>
        if existsb (λ s, bool_decide (schema_name s = Some n)) schemas then Ok schemas
        else Err (Other (lit "forced tool_choice references unavailable tool: " ++ n))
    | _ => Ok schemas
    end
  else Ok [].

(** Up to the prompt: the schemas of this round, the strip flag spent, the budget enforced. *)
Definition prepare_prompt : M (list json) :=
  r ← gets registry;
  strip ← gets strip_tools_next_iter;
  match schemas_for_api r strip with
  | Err e => fail e
  | Ok schemas =>
      d ← gets loop_detector;
      _ ← when strip (modify (set_detector (clear_strip_tools d) false));
      it ← gets iterations;
      ms ← gets messages;
      let effective_ratio :=
        if compaction_min_iterations (config setup) <? it
        then tool_result_compaction_ratio (config setup) else 0 in
      let '(ms', r) := enforce_tool_result_context_budget ms schemas
        (provider_context_window (provider setup)) effective_ratio (preemptive_overflow_ratio (config setup)) in
      _ ← modify (set_messages (λ _, ms'));
      match r with Err e => fail e | Ok _ => mret schemas end
  end.

Definition before_llm_call (env : RoundEnv) (schemas : list json) : M unit :=
  ms ← gets messages;
  it ← gets iterations;
  a ← consult (before_llm env)
        (PBeforeLLMCall (session_key setup) (provider_name (provider setup)) (provider_id (provider setup))
           (JArray (map to_openai_value ms)) (length schemas) it);
  match a with
  | Block reason => fail (blocked_by "BeforeLLMCall" reason)
  | ModifyPayload v => modify (set_messages (λ ms, apply_before_llm_call_modify_payload ms v))
  | Continue => mret tt
  end.

(** The provider failed: a transient error costs a retry and gives the iteration back. *)
Definition provider_failed {A} (msg : str) : M A :=
  b ← gets retries;
  let '(reaction, b') := on_provider_error msg b in
  _ ← modify (set_retries b');
  match reaction with
  | Retry.ContextWindowExceeded m => fail (ContextWindowExceeded m)
  | RetryAfter delay_ms =>
      it ← gets iterations;
      _ ← modify (set_iterations (it - 1));
      _ ← emit (RetryingAfterError msg delay_ms);
      _ ← modify (act [Sleep delay_ms]);
      continue
  | Retry.Other m => fail (Other m)
  end.

Definition ask_model (env : RoundEnv) (schemas : list json) : M CompletionResponse :=
  ms ← gets messages;
  _ ← modify (act [Ask ms schemas]);
  match complete env ms schemas (controls setup) with
  | Ok response => mret response
  | Err msg => provider_failed msg
  end.

(** ** Calls in the text *)

Definition with_calls (r : CompletionResponse) (t : option str) (tcs : list ToolCall) : CompletionResponse :=
  {| text := t; reasoning := reasoning r; tool_calls := tcs; usage := usage r |}.

Definition text_fallback (env : RoundEnv) (r : CompletionResponse) : CompletionResponse :=
  match tool_calls r, text r with
  | [], Some t =>
      let '(parsed, remaining) := parse_tool_calls_from_text (text_uuid env) t in
      if is_nonempty parsed then with_calls r remaining parsed else r
  | _, _ => r
  end.

Definition retry_malformed (env : RoundEnv) (r : CompletionResponse) : M unit :=
  n ← gets malformed_retry_count;
  when (negb (is_nonempty (tool_calls r)) && looks_like_failed_tool_call (text_uuid env) (text r) && (n =? 0))
    (_ ← modify bump_malformed;
     _ ← modify (push (assistant (unwrap_or [] (text r))));
     _ ← modify (push (user MALFORMED_TOOL_RETRY_PROMPT));
     continue).

Definition xml_fallback (env : RoundEnv) (r : CompletionResponse) : CompletionResponse :=
  match tool_calls r, text r with
  | [], Some t =>
      if supports_tools (provider setup) then r
      else
        let '(cleaned, recovered) := recover_tool_calls_from_content (xml_uuid env) t in
        if is_nonempty recovered
        then with_calls r (if is_nonempty cleaned then Some cleaned else None) recovered else r
  | _, _ => r
  end.

Definition forced_call (env : RoundEnv) (command : str) : ToolCall :=
  {| ToolParsing.id := new_synthetic_tool_call_id "forced" (forced_uuid env); ToolParsing.name := lit "exec";
     call_arguments := JObject [(lit "command", JString command)]; argument_diagnostic := None; metadata := None |}.

Definition force_explicit_command (env : RoundEnv) (r : CompletionResponse) : M CompletionResponse :=
  it ← gets iterations;
  n ← gets total_tool_calls;
  reg ← gets registry;
  mret (match tool_calls r, explicit_command setup with
        | [], Some command =>
            if (it =? 1) && (n =? 0) && isSome (ToolRegistry.get reg "exec")
            then with_calls r (text r) [forced_call env command] else r
        | _, _ => r
        end).

Definition empty_tool_name_retry_prompt (tc : ToolCall) : str :=
  EMPTY_TOOL_NAME_RETRY_PROMPT ++ [ch_newline] ++ lit "Exact arguments JSON:" ++ [ch_newline] ++
  show_json (call_arguments tc).

Definition retry_unnamed (r : CompletionResponse) : M unit :=
  match find_empty_tool_name_call (tool_calls r) with
  | None => mret tt
  | Some tc =>
      n ← gets empty_tool_name_retry_count;
      when (negb (has_named_tool_call (tool_calls r)) && (n =? 0))
        (_ ← modify bump_unnamed;
         _ ← modify (λ s, set_answer (record_answer_text (last_answer_text s) (text r)) s);
         _ ← modify (push (assistant (unwrap_or [] (text r))));
         _ ← modify (push (user (empty_tool_name_retry_prompt tc)));
         continue)
  end.

(** ** No calls: go on or finish *)

Definition finish_agent_run (s : RunState) (final_text : str) : Outcome :=
  match clean_response final_text with
  | None => Panicked
  | Some t => Returned (Ok {| run_text := t; run_iterations := iterations s; tool_calls_made := total_tool_calls s;
                              run_usage := total (usage_accumulator s); request_usage := request (usage_accumulator s) |})
  end.

Definition without_calls (r : CompletionResponse) : M unit :=
  let response_text := unwrap_or [] (text r) in
  n ← gets total_tool_calls;
  k ← gets auto_continue_count;
  if negb (is_substantive_answer_text response_text) && (0 <? n) &&
     (agent_auto_continue_min_tool_calls (config setup) <=? n) && (k <? agent_max_auto_continues (config setup))
  then
    _ ← modify bump_auto;
    it ← gets iterations;
    _ ← emit (AutoContinue it (max_iterations setup));
    _ ← when (is_nonempty response_text) (modify (push (from_response r)));
    _ ← modify (push (user AUTO_CONTINUE_NUDGE));
    continue
  else
    last ← gets last_answer_text;
    s ← gets (λ s, s);
    leave (finish_agent_run s (if is_nonempty response_text then response_text else last)).

(** ** The calls of a batch *)

(** The members of the context are written over the arguments. *)
Definition inject_context (args : json) : json :=
  match tool_context setup, args with
  | Some (JObject ctx_obj), JObject args_obj => JObject (foldl (λ m kv, insert_assoc kv.1 kv.2 m) args_obj ctx_obj)
  | _, _ => args
  end.

Definition tool_hidden (name : str) : bool :=
  match tool_choice (controls setup) with Some ChooseNone => true | _ => false end ||
  is_some_and (λ active, negb (bool_decide (name ∈ active))) (active_tools (controls setup)).

Definition hidden_reason (name : str) : str :=
  lit "tool `" ++ name ++
  match tool_choice (controls setup) with
  | Some ChooseNone => lit "` cannot be called: tool use is disabled for this turn"
  | _ => lit "` is not active for this turn; choose one of the currently available tools"
  end.

Definition prepare_call (r : ToolRegistry) (tc : ToolCall) : Prepared :=
  let '(t, tc_name) := resolve_tool_lookup r (sanitize_tool_name (ToolParsing.name tc)) in
  let args := inject_context (call_arguments tc) in
  if tool_hidden tc_name then
    {| prepared_call := tc; prepared_tool := t; prepared_name := tc_name; prepared_args := args;
       validation_error := Some (hidden_reason tc_name) |}
  else
    match t with
    | Some t' =>
        let schema := parameters_schema t' in
        let args := coerce_scalar_args schema args in
        {| prepared_call := tc; prepared_tool := t; prepared_name := tc_name; prepared_args := args;
           validation_error :=
             match validate_tool_args schema args with
             | Ok _ => None
             | Err e => Some (to_llm_error_message_with_argument_diagnostic e tc_name (argument_diagnostic tc))
             end |}
    | None =>
        {| prepared_call := tc; prepared_tool := None; prepared_name := tc_name; prepared_args := args;
           validation_error := None |}
    end.

Definition announce (p : Prepared) : M unit :=
  when (negb (isSome (validation_error p)))
    (emit (ToolCallStart (ToolParsing.id (prepared_call p)) (ToolParsing.name (prepared_call p))
             (prepared_args p) (metadata (prepared_call p)))).

Definition error_value (e : str) : json := JObject [(lit "error", JString e)].
Definition failed (e : str) (r : bool) : CallOutcome :=
  {| success := false; outcome_value := error_value e; outcome_error := Some e; rejected := r |}.

(** The arguments to run with, after the [BeforeToolCall] hook; or why the call does not run. *)
Definition before_tool_call (env : CallEnv) (p : Prepared) : M (json + CallOutcome) :=
  a ← consult (before_tool env) (PBeforeToolCall (session_key setup) (prepared_name p) (prepared_args p) (channel setup));
  mret (match a with
        | Block reason => inr (failed (lit "blocked by hook: " ++ reason) false)
        | ModifyPayload v =>
            match prepared_tool p with
            | Some t =>
                let args := coerce_scalar_args (parameters_schema t) v in
                match validate_tool_args (parameters_schema t) args with
                | Ok _ => inl args
                | Err e => inr (failed (to_llm_error_message e (prepared_name p)) false)
                end
            | None => inl v
            end
        | Continue => inl (prepared_args p)
        end).

Definition run_tool (env : CallEnv) (p : Prepared) (t : AgentTool) (args : json) : M CallOutcome :=
  reg ← gets registry;
  let '(answer, reg') := execute_in reg t args (implementation env t args) in
  _ ← modify (λ s, set_registry reg' (act [Run t (prepared_name p) args] s));
  let after ok res := PAfterToolCall (session_key setup) (prepared_name p) ok res (channel setup) in
  match answer with
  | Ok val =>
      let error := tool_result_failure val in
      _ ← consult (after_tool env) (after (negb (isSome error)) (Some val));
      mret {| success := negb (isSome error); outcome_value := JObject [(lit "result", val)];
              outcome_error := error; rejected := false |}
  | Err err_str =>
      _ ← consult (after_tool env) (after false None);
      mret (failed err_str false)
  end.

Definition run_call (env : CallEnv) (p : Prepared) : M CallOutcome :=
  match validation_error p with
  | Some err_msg => mret (failed err_msg true)
  | None =>
      a ← before_tool_call env p;
      match a with
      | inr out => mret out
      | inl args =>
          match prepared_tool p with
          | Some t => run_tool env p t args
          | None => mret (failed (lit "unknown tool: " ++ prepared_name p) false)
          end
      end
  end.

Fixpoint run_calls (env : RoundEnv) (i : nat) (ps : list Prepared) : M (list CallOutcome) :=
  match ps with
  | [] => mret []
  | p :: ps' =>
      out ← run_call (call_env env i) p;
      outs ← run_calls env (S i) ps';
      mret (out :: outs)
  end.

Fixpoint for_each {A} (f : A → M unit) (l : list A) : M unit :=
  match l with [] => mret tt | x :: l' => _ ← f x; for_each f l' end.

(** ** The results, in the order of the calls *)

Definition fingerprint (tc : ToolCall) (o : CallOutcome) : ToolCallFingerprint :=
  if success o then fp_success hash_str (ToolParsing.name tc) (call_arguments tc)
  else fp_failure hash_str (ToolParsing.name tc) (call_arguments tc) (outcome_error o).

Definition call_event (tc : ToolCall) (o : CallOutcome) : RunnerEvent :=
  if rejected o
  then ToolCallRejected (ToolParsing.id tc) (ToolParsing.name tc) (call_arguments tc) (unwrap_or [] (outcome_error o))
  else ToolCallEnd (ToolParsing.id tc) (ToolParsing.name tc) (success o) (outcome_error o)
         (if success o then Json.get "result" (outcome_value o) else None).

Definition persist_result (env : CallEnv) (tc : ToolCall) (o : CallOutcome) : M json :=
  a ← consult (result_persist env)
        (PToolResultPersist (session_key setup) (sanitize_tool_name (ToolParsing.name tc)) (outcome_value o) (channel setup));
  mret (match a with
        | ModifyPayload v => v
        | Block reason => error_value (lit "blocked by hook: " ++ reason)
        | Continue => outcome_value o
        end).

Definition process_result (env : CallEnv) (tc : ToolCall) (o : CallOutcome) : M unit :=
  d ← gets loop_detector;
  strip ← gets strip_tools_next_iter;
  _ ← when (is_enabled d) (modify (set_detector (LoopDetector.record d (fingerprint tc o)).1 strip));
  _ ← emit (call_event tc o);
  res ← persist_result env tc o;
  modify (push (Tool (ToolParsing.id tc) (sanitize_tool_result (show_json res) (max_tool_result_bytes (config setup))))).

Fixpoint process_results (env : RoundEnv) (i : nat) (l : list (ToolCall * CallOutcome)) : M unit :=
  match l with
  | [] => mret tt
  | (tc, o) :: l' =>
      _ ← process_result (call_env env i) tc o;
      process_results env (S i) l'
  end.

(** [apply_loop_detector_intervention] on the state of the run. *)
Definition intervene : M unit :=
  modify (λ s,
    let '(d, r) := apply_loop_detector_intervention to_string (loop_detector s)
      {| LoopDetector.messages := []; LoopDetector.strip_tools_next_iter := strip_tools_next_iter s; LoopDetector.events := [] |} in
    act (map (λ e, Emit (LoopInterventionFired (ev_stage e) (ev_tool e))) (LoopDetector.events r))
      (set_messages (λ ms, ms ++ map user (LoopDetector.messages r))
        (set_detector d (LoopDetector.strip_tools_next_iter r) s))).

(** The batch of a message that is already appended. *)
Definition run_batch (env : RoundEnv) (calls : list ToolCall) : M unit :=
  _ ← modify (add_tool_calls (length calls));
  reg ← gets registry;
  let prepared := map (prepare_call reg) calls in
  _ ← for_each announce prepared;
  outcomes ← run_calls env 0 prepared;
  _ ← process_results env 0 (zip calls outcomes);
  intervene.

Definition with_tool_calls (env : RoundEnv) (r : CompletionResponse) : M unit :=
  _ ← modify (λ s, set_answer (record_answer_text (last_answer_text s) (text r)) s);
  _ ← modify (push (from_response r));
  run_batch env (tool_calls r).

(** ** One round *)

(** Up to the request, with the number of the iteration and the schemas to send. *)
Definition open_round (env : RoundEnv) : M (nat * list json) :=
  _ ← modify (λ s, set_iterations (iterations s + 1) s);
  it ← gets iterations;
  _ ← when (max_iterations setup <? it)
        (fail (Other (lit "agent loop exceeded max iterations (" ++ show_nat (max_iterations setup) ++ lit ")")));
  schemas ← prepare_prompt;
  _ ← emit (Iteration it);
  _ ← before_llm_call env schemas;
  _ ← emit Thinking;
  mret (it, schemas).

(** What follows the provider's answer. *)
Definition after_answer (env : RoundEnv) (it : nat) (response : CompletionResponse) : M unit :=
  _ ← emit ThinkingDone;
  _ ← modify (λ s, set_usage (record_request (usage_accumulator s) (usage response)) s);
  let response := text_fallback env response in
  _ ← retry_malformed env response;
  response ← force_explicit_command env (xml_fallback env response);
  _ ← retry_unnamed response;
  _ ← dispatch_after_llm_call_hook env (text response) (tool_calls response) (usage response) it;
  if is_nonempty (tool_calls response) then with_tool_calls env response else without_calls response.

Definition round (env : RoundEnv) : M unit :=
  r ← open_round env;
  response ← ask_model env r.2;
  after_answer env r.1 response.

Definition rounds (envs : nat → RoundEnv) : nat → nat → RunState → RunState * option Outcome :=
  rounds_of (λ i, round (envs i)).
End run.

(** * A run *)

Section start.
Context `{Unicode} `{SerdeJson} `{JsonDisplay} `{FloatFormat} (hash_str : str → Z) (data_dir : str).
Context (tool_choice_from_value : json → option ToolChoice) (binding_from_value : json → option ChannelBinding).

(** [_session_key] of the tool context. *)
Definition session_key_of (tool_context : option json) : str :=
  unwrap_or [] (ctx ← tool_context; Json.get "_session_key" ctx ≫= as_str).

Definition setup_run (cfg : AgentConfig) (p : Provider) (hooks : bool) (tool_context : option json)
    (content : UserContent) (limit : option nat) : RunSetup :=
  {| config := cfg; provider := p; has_hooks := hooks; tool_context := tool_context;
     controls := from_tool_context tool_choice_from_value tool_context;
     session_key := session_key_of tool_context;
     channel := channel_binding_from_tool_context binding_from_value tool_context;
     explicit_command := explicit_shell_command_from_user_content content;
     max_iterations := resolve_max_iterations cfg limit |}.

Definition initial_state (cfg : AgentConfig) (tools : ToolRegistry) (system_prompt : str) (content : UserContent)
    (history : option (list ChatMessage)) (sender_name : option str) : RunState :=
  {| messages := [System system_prompt] ++ unwrap_or [] history ++ [User content sender_name];
     registry := tools; iterations := 0; total_tool_calls := 0; usage_accumulator := UsageAccumulator_default;
     retries := initial_budget; last_answer_text := []; malformed_retry_count := 0;
     empty_tool_name_retry_count := 0; auto_continue_count := 0;
     loop_detector := LoopDetector.new (agent_loop_detector_window cfg) (agent_loop_detector_strip_tools_on_second_fire cfg);
     strip_tools_next_iter := false; trace := [] |}.

(** [run_agent_loop_with_context_and_limits], for [fuel] rounds at most. *)
Definition run_agent_loop_with_context_and_limits (start_hook : HookPayload → result HookAction str)
    (envs : nat → RoundEnv) (fuel : nat) (cfg : AgentConfig) (p : Provider) (tools : ToolRegistry)
    (system_prompt : str) (content : UserContent) (history : option (list ChatMessage))
    (tool_context : option json) (hooks : bool) (sender_name : option str) (limit : option nat)
    : RunState * option Outcome :=
  let setup := setup_run cfg p hooks tool_context content limit in
  let s := initial_state cfg tools system_prompt content history sender_name in
  match dispatch_before_agent_start_hook setup start_hook s with
  | (s', Leave o) => (s', Some o)
  | (s', _) => rounds hash_str data_dir setup envs fuel 0 s'
  end.
End start.

