(* ===== verification/AgentRun.v ===== *)
(** What a run of the agent loop of AgentLoop.v guarantees: it returns, it asks the model a bounded
    number of times, it runs only tools its registry gives out, with arguments that fit their
    schemas and that no hook blocked, and it leaves a history in which every call has its result.

    The first part is a small logic for the computations of the loop: [steps R m] says that whatever
    [m] does to the state is in the preorder [R], with one rule per construct of the monad. *)
From S2P Require Import Prelude Utf8 ToolArgs ToolParsing Sanitize Hooks LoopDetector Retry Json Policy ToolRegistry Messages ContextBudget AgentLoop.
Local Open Scope nat_scope.

(** * Reasoning about computations *)

(** Whatever a computation does to the state is in [R]. *)
Definition steps {A} (R : relation RunState) (m : M A) : Prop := ∀ s, R s (m s).1.

Section steps.
Context (R : relation RunState) `{!PreOrder R}.

Lemma steps_ret {A} (a : A) : steps R (mret a).
Proof. intros s. reflexivity. Qed.
Lemma steps_gets {A} (f : RunState → A) : steps R (gets f).
Proof. intros s. reflexivity. Qed.
Lemma steps_continue {A} : steps R (continue (A := A)).
Proof. intros s. reflexivity. Qed.
Lemma steps_leave {A} o : steps R (leave (A := A) o).
Proof. intros s. reflexivity. Qed.
Lemma steps_fail {A} e : steps R (fail (A := A) e).
Proof. intros s. reflexivity. Qed.
Lemma steps_modify f : (∀ s, R s (f s)) → steps R (modify f).
Proof. intros Hf s. apply Hf. Qed.
Lemma steps_when b m : steps R m → steps R (when b m).
Proof. intros Hm. destruct b; [exact Hm|apply steps_ret]. Qed.
Lemma steps_bind {A B} (m : M A) (k : A → M B) :
  steps R m → (∀ a, steps R (k a)) → steps R (m ≫= k).
Proof.
  intros Hm Hk s. unfold mbind, M_bind. specialize (Hm s).
  destruct (m s) as [s' [a| |o]]; simpl in *; [|done..]. etrans; [exact Hm|apply Hk].
Qed.
Lemma steps_for_each {A} (f : A → M unit) l : (∀ x, x ∈ l → steps R (f x)) → steps R (for_each f l).
Proof.
  intros Hf. induction l as [|x l IH]; simpl; [apply steps_ret|].
  apply steps_bind; [apply Hf; left|]. intros _. apply IH. intros y Hy. apply Hf. by right.
Qed.
End steps.

(** What a computation may know about the state it runs in. *)
Lemma steps_bind_gets {A B} (R : relation RunState) (f : RunState → A) (k : A → M B) :
  (∀ s, R s (k (f s) s).1) → steps R (gets f ≫= k).
Proof. intros Hk s. apply Hk. Qed.

(** The lemmas [steps R m] of the operations, for each [R]. *)
Create HintDb steps.

(** Decomposes a computation into its primitives, leaving the modifications that need a reason. *)
Ltac steps_tac :=
  repeat first
    [ progress intros
    | solve [auto 2 with steps nocore]
    | apply steps_bind; [apply _| |]
    | apply steps_ret; apply _ | apply steps_gets; apply _ | apply steps_continue; apply _
    | apply steps_leave; apply _ | apply steps_fail; apply _
    | apply steps_when; [apply _|]
    | match goal with |- steps _ (match ?x with _ => _ end) => destruct x eqn:? end
    | match goal with |- steps _ (let '(_, _) := ?x in _) => destruct x eqn:? end ].

Lemma steps_rounds (R : relation RunState) `{!PreOrder R} rd fuel i s :
  (∀ i, steps R (rd i)) → R s (rounds_of rd fuel i s).1.
Proof.
  intros Hrd. revert i s; induction fuel as [|fuel IH]; intros i s; simpl; [reflexivity|].
  pose proof (Hrd i s) as Hr. destruct (rd i s) as [s' [a| |o]]; simpl in *; [ | |done]; (etrans; [exact Hr|apply IH]).
Qed.

(** A computation that does not end the round by itself. *)
Definition straight {A} (m : M A) : Prop := ∀ s, (m s).2 ≠ NextRound.

Lemma straight_bind {A B} (m : M A) (k : A → M B) : straight m → (∀ a, straight (k a)) → straight (m ≫= k).
Proof.
  intros Hm Hk s. unfold mbind, M_bind. specialize (Hm s).
  destruct (m s) as [s' [a| |o]]; simpl in *; [apply Hk|done|done].
Qed.
Lemma straight_when b m : straight m → straight (when b m).
Proof. by destruct b. Qed.

Create HintDb straight.
Ltac straight_tac :=
  repeat first
    [ progress intros
    | solve [auto 2 with straight nocore]
    | apply straight_bind
    | apply straight_when
    | match goal with |- straight (match ?x with _ => _ end) => destruct x eqn:? end
    | (by intros ?) ].

(** The ways a sequence can go. *)
Lemma bind_inv {A B} (m : M A) (k : A → M B) s s' f :
  (m ≫= k) s = (s', f) →
  (∃ s1 a, m s = (s1, Go a) ∧ k a s1 = (s', f)) ∨
  (m s = (s', NextRound) ∧ f = NextRound) ∨ (∃ o, m s = (s', Leave o) ∧ f = Leave o).
Proof. unfold mbind, M_bind. destruct (m s) as [s1 [a| |o]]; naive_solver. Qed.

(** A part of the state a computation does not touch. *)
Definition same {B} (f : RunState → B) : relation RunState := λ s s', f s' = f s.
Global Instance same_preorder {B} (f : RunState → B) : PreOrder (same f).
Proof. split; [done|]. intros s1 s2 s3. unfold same. congruence. Qed.

Definition asks (l : list Action) : nat :=
  length (filter (λ a, match a with Ask _ _ => true | _ => false end = true) l).
Lemma asks_app l l' : asks (l ++ l') = asks l + asks l'.
Proof. unfold asks. by rewrite filter_app, length_app. Qed.

(** The counters termination rests on. *)
Definition clock (s : RunState) : nat * budget * nat := (iterations s, retries s, asks (trace s)).

Section clock.
Context `{Unicode} `{SerdeJson} `{JsonDisplay} `{FloatFormat} (hash_str : str → Z) (data_dir : str) (setup : RunSetup).

Lemma clock_modify f :
  (∀ s, iterations (f s) = iterations s ∧ retries (f s) = retries s ∧ asks (trace (f s)) = asks (trace s)) →
  steps (same clock) (modify f).
Proof. intros Hf. apply steps_modify. intros s. unfold same, clock. destruct (Hf s) as (-> & -> & ->). done. Qed.

Ltac clock_tac :=
  steps_tac; try (apply clock_modify; intros; simpl; rewrite ?asks_app; simpl; split_and!; first [done|lia|apply Nat.add_0_r]).

Lemma consult_clock ask p : steps (same clock) (consult setup ask p).
Proof. unfold consult. clock_tac. Qed.
#[local] Hint Resolve consult_clock : steps.

Lemma emit_clock e : steps (same clock) (emit e).
Proof. unfold emit. clock_tac. Qed.
#[local] Hint Resolve emit_clock : steps.

Lemma prepare_prompt_clock : steps (same clock) (prepare_prompt setup).
Proof. unfold prepare_prompt. clock_tac. Qed.
#[local] Hint Resolve prepare_prompt_clock : steps.

Lemma before_llm_clock env schemas : steps (same clock) (before_llm_call data_dir setup env schemas).
Proof. unfold before_llm_call. clock_tac. Qed.
#[local] Hint Resolve before_llm_clock : steps.

Lemma after_llm_clock env t tcs u it : steps (same clock) (dispatch_after_llm_call_hook setup env t tcs u it).
Proof. unfold dispatch_after_llm_call_hook. clock_tac. Qed.
#[local] Hint Resolve after_llm_clock : steps.

Lemma retry_malformed_clock env r : steps (same clock) (retry_malformed env r).
Proof. unfold retry_malformed. clock_tac. Qed.
#[local] Hint Resolve retry_malformed_clock : steps.

Lemma force_clock env r : steps (same clock) (force_explicit_command setup env r).
Proof. unfold force_explicit_command. clock_tac. Qed.
#[local] Hint Resolve force_clock : steps.

Lemma retry_unnamed_clock r : steps (same clock) (retry_unnamed r).
Proof. unfold retry_unnamed. clock_tac. Qed.
#[local] Hint Resolve retry_unnamed_clock : steps.

Lemma without_calls_clock r : steps (same clock) (without_calls setup r).
Proof. unfold without_calls. clock_tac. Qed.
#[local] Hint Resolve without_calls_clock : steps.

Lemma run_call_clock env p : steps (same clock) (run_call setup env p).
Proof.
  unfold run_call, before_tool_call, run_tool. clock_tac.
Qed.
#[local] Hint Resolve run_call_clock : steps.

Lemma run_calls_clock env i ps : steps (same clock) (run_calls setup env i ps).
Proof. revert i; induction ps as [|p ps IH]; intros i; simpl; clock_tac. Qed.
#[local] Hint Resolve run_calls_clock : steps.

Lemma process_results_clock env i l : steps (same clock) (process_results hash_str setup env i l).
Proof.
  revert i; induction l as [|[tc o] l IH]; intros i; simpl; clock_tac.
Qed.
#[local] Hint Resolve process_results_clock : steps.

Lemma intervene_clock : steps (same clock) intervene.
Proof.
  unfold intervene. apply clock_modify. intros s.
  destruct (apply_loop_detector_intervention _ _ _) as [d r]. simpl. rewrite asks_app. split_and!; [done..|].
  enough (asks (map (λ e, Emit (LoopInterventionFired (ev_stage e) (ev_tool e))) (LoopDetector.events r)) = 0) by lia.
  by induction (LoopDetector.events r).
Qed.
#[local] Hint Resolve intervene_clock : steps.

Lemma run_batch_clock env calls : steps (same clock) (run_batch hash_str setup env calls).
Proof.
  unfold run_batch. clock_tac.
  apply steps_for_each; [apply _|]. intros p _. unfold announce. clock_tac.
Qed.
#[local] Hint Resolve run_batch_clock : steps.

Lemma with_tool_calls_clock env r : steps (same clock) (with_tool_calls hash_str setup env r).
Proof.
  unfold with_tool_calls. clock_tac.
Qed.
#[local] Hint Resolve with_tool_calls_clock : steps.

Lemma prepare_prompt_straight : straight (prepare_prompt setup).
Proof. unfold prepare_prompt. straight_tac. Qed.
#[local] Hint Resolve prepare_prompt_straight : straight.

Lemma consult_straight ask p : straight (consult setup ask p).
Proof. unfold consult. straight_tac. Qed.
#[local] Hint Resolve consult_straight : straight.

Lemma before_llm_straight env schemas : straight (before_llm_call data_dir setup env schemas).
Proof. unfold before_llm_call. straight_tac. Qed.
#[local] Hint Resolve before_llm_straight : straight.

(** What asking the model costs, when it answers and when it fails. *)
Definition asked {A} (s s' : RunState) (f : flow A) : Prop :=
  match f with
  | Go _ => iterations s' = iterations s ∧ retries s' = retries s
  | NextRound => iterations s' = iterations s - 1 ∧ budget_ok (retries s') ∧
                 (budget_total (retries s') = budget_total (retries s) - 1)%Z
  | Leave _ => True
  end.
Lemma provider_failed_clock {A} msg s s' (f : flow A) :
  budget_ok (retries s) → provider_failed msg s = (s', f) → asks (trace s') = asks (trace s) ∧ asked s s' f.
Proof.
  intros Hb. unfold provider_failed, emit, fail, leave, continue, mbind, M_bind, mret, M_ret, gets, modify. cbn -[asks].
  destruct (on_provider_error msg (retries s)) as [re b'] eqn:E. cbn -[asks].
  destruct re as [m|d|m]; cbn -[asks]; intros [= <- <-]; cbn -[asks]; rewrite ?asks_app; try (split; [done|done]).
  split; [by rewrite !Nat.add_0_r|].
  destruct (retry_total _ _ _ _ Hb (on_error_retry _ _ _ _ E)) as (? & ? & _). done.
Qed.
Lemma ask_model_clock env schemas s s' f :
  budget_ok (retries s) → ask_model setup env schemas s = (s', f) →
  asks (trace s') = asks (trace s) + 1 ∧ asked s s' f.
Proof.
  intros Hb. unfold ask_model. unfold mbind at 1, M_bind at 1, gets at 1. unfold mbind at 1, M_bind at 1, modify at 1.
  set (s1 := act _ s). assert (Ha : asks (trace s1) = asks (trace s) + 1) by (unfold s1; simpl; by rewrite asks_app).
  destruct (complete env (messages s) schemas (controls setup)) as [r|msg].
  - intros [= <- <-]. by split.
  - intros E. destruct (provider_failed_clock msg s1 s' f Hb E) as [-> Hf]. by split.
Qed.

Lemma clock_of {A} (m : M A) s s' f : steps (same clock) m → m s = (s', f) → clock s' = clock s.
Proof. intros Hm E. specialize (Hm s). rewrite E in Hm. exact Hm. Qed.

Lemma after_answer_clock env it r : steps (same clock) (after_answer hash_str setup env it r).
Proof.
  unfold after_answer. clock_tac.
Qed.
#[local] Hint Resolve after_answer_clock : steps.

(** Opening a round spends an iteration. *)
Lemma open_round_clock env s s' f :
  open_round data_dir setup env s = (s', f) →
  f ≠ NextRound ∧ retries s' = retries s ∧ asks (trace s') = asks (trace s) ∧
  ∀ r, f = Go r → iterations s' = S (iterations s) ∧ iterations s < max_iterations setup.
Proof.
  unfold open_round. unfold mbind at 1, M_bind at 1, modify at 1. unfold mbind at 1, M_bind at 1, gets at 1.
  set (s1 := set_iterations (iterations s + 1) s).
  assert (Hs1 : clock s1 = (iterations s + 1, retries s, asks (trace s))) by done.
  change (iterations s1) with (iterations s + 1).
  destruct (Nat.ltb_spec (max_iterations setup) (iterations s + 1)) as [Hmax|Hmax].
  { intros [= <- <-]. done. }
  set (rest := _ ≫= _). intros E.
  assert (Hc : steps (same clock) rest) by (unfold rest; clock_tac).
  assert (Hs : straight rest).
  { unfold rest. straight_tac. }
  pose proof (clock_of _ _ _ _ Hc E) as Hcl. rewrite Hs1 in Hcl. injection Hcl as Hi Hr Ha.
  specialize (Hs s1). rewrite E in Hs. split_and!; [done..|]. intros r _. lia.
Qed.

(** What a round costs: asking once, and an iteration or a retry if the run goes on. *)
Definition cost (s s' : RunState) (f : flow unit) : Prop :=
  match f with
  | Leave _ => asks (trace s') = asks (trace s) ∨ asks (trace s') = asks (trace s) + 1 ∧ iterations s < max_iterations setup
  | _ => iterations s < max_iterations setup ∧ asks (trace s') = asks (trace s) + 1 ∧
         (iterations s' = S (iterations s) ∧ retries s' = retries s ∨
          iterations s' = iterations s ∧ budget_ok (retries s') ∧
          (budget_total (retries s') = budget_total (retries s) - 1)%Z)
  end.

(** A round that opens, asks and deals with the answer. *)
Lemma round_cost {A} env (ask : list json → M A) (deal : nat → A → M unit) s s' f :
  budget_ok (retries s) →
  (∀ schemas s s' f, budget_ok (retries s) → ask schemas s = (s', f) → asks (trace s') = asks (trace s) + 1 ∧ asked s s' f) →
  (∀ it a, steps (same clock) (deal it a)) →
  (r ← open_round data_dir setup env; a ← ask r.2; deal r.1 a) s = (s', f) → cost s s' f.
Proof.
  intros Hb Hask Hdeal Hr.
  apply bind_inv in Hr as [(s1 & [it schemas] & E & Hr)|[[E ->]|(o & E & ->)]];
    apply open_round_clock in E as (Hn & Hre & Ha & Hi); [|done|by left].
  destruct (Hi _ eq_refl) as [Hi1 Hi2].
  apply bind_inv in Hr as [(s2 & resp & E & Hr)|[[E ->]|(o & E & ->)]];
    apply Hask in E as [Ha' E]; try (by rewrite Hre).
  - apply (clock_of _ _ _ _ (Hdeal _ resp)) in Hr. injection Hr as Hi' Hre' Ha''.
    destruct E as [E E'].
    assert (asks (trace s') = asks (trace s) + 1 ∧ iterations s' = S (iterations s) ∧ retries s' = retries s)
      by (split_and!; [lia|lia|congruence]).
    destruct f; unfold cost; naive_solver.
  - destruct E as (E & Hok & Ht). rewrite Hre in Ht. split_and!; [lia|lia|]. right.
    split_and!; [lia|done..].
  - right. split; [lia|done].
Qed.

Lemma round_clock env s s' f :
  budget_ok (retries s) → round hash_str data_dir setup env s = (s', f) → cost s s' f.
Proof.
  intros Hb. apply round_cost; [done|intros; by apply ask_model_clock with env schemas|intros; apply after_answer_clock].
Qed.

(** Every round that does not end the run uses up an iteration or a retry. *)
Lemma rounds_return rd fuel i s :
  (∀ i s s' f, budget_ok (retries s) → rd i s = (s', f) → cost s s' f) →
  budget_ok (retries s) →
  (Z.of_nat (max_iterations setup - iterations s) + budget_total (retries s) < Z.of_nat fuel)%Z →
  ∃ s' o, rounds_of rd fuel i s = (s', Some o) ∧
    (Z.of_nat (asks (trace s')) ≤ Z.of_nat (asks (trace s)) + Z.of_nat (max_iterations setup - iterations s) +
      budget_total (retries s))%Z.
Proof.
  intros Hrd. revert i s; induction fuel as [|fuel IH]; intros i s Hb Hf.
  { destruct Hb. unfold budget_total in Hf. lia. }
  simpl. destruct (rd i s) as [s' f] eqn:E. apply Hrd in E; [|done]. unfold cost in E.
  assert (Hnn : (0 ≤ budget_total (retries s))%Z) by (destruct Hb; unfold budget_total; lia).
  destruct f as [a| |o].
  3: { exists s', o. split; [done|]. lia. }
  all: destruct E as (Hi & Ha' & E);
    assert (Hb' : budget_ok (retries s')) by (destruct E as [[_ ->]|(_ & ? & _)]; done);
    assert (Hm : (Z.of_nat (max_iterations setup - iterations s') + budget_total (retries s') + 1 ≤
      Z.of_nat (max_iterations setup - iterations s) + budget_total (retries s))%Z)
      by (destruct E as [[-> ->]|(-> & _ & ->)]; lia);
    destruct (IH (S i) s' Hb') as (s2 & o & -> & Ho); [lia|];
    exists s2, o; split; [done|lia].
Qed.

(** A run from its start: the hook, and the rounds. *)
Lemma run_returns rd ask fuel s0 :
  (∀ i s s' f, budget_ok (retries s) → rd i s = (s', f) → cost s s' f) →
  clock s0 = (0, initial_budget, 0) → max_iterations setup + 11 < fuel →
  ∃ s o, match dispatch_before_agent_start_hook setup ask s0 with
         | (s', Leave o) => (s', Some o)
         | (s', _) => rounds_of rd fuel 0 s'
         end = (s, Some o) ∧ asks (trace s) ≤ max_iterations setup + 11.
Proof.
  intros Hrd Hs0 Hf.
  assert (Hc : steps (same clock) (dispatch_before_agent_start_hook setup ask)).
  { unfold dispatch_before_agent_start_hook. apply (steps_bind _ _ _); [apply consult_clock|]. intros []; steps_tac. }
  specialize (Hc s0). destruct (dispatch_before_agent_start_hook setup ask s0) as [s' f].
  unfold same in Hc. rewrite Hs0 in Hc. injection Hc as Hi Hr Ha.
  assert (Hrounds : ∃ s o, rounds_of rd fuel 0 s' = (s, Some o) ∧ asks (trace s) ≤ max_iterations setup + 11).
  { destruct (rounds_return rd fuel 0 s' Hrd) as (s & o & E & Ho).
    - rewrite Hr. by vm_compute.
    - rewrite Hr, Hi. change (budget_total initial_budget) with 11%Z. lia.
    - exists s, o. split; [done|]. rewrite Hr, Hi, Ha in Ho. change (budget_total initial_budget) with 11%Z in Ho. lia. }
  destruct f as [a| |o]; [exact Hrounds..|]. exists s', o. split; [done|lia].
Qed.
End clock.

(** * What runs *)

Section gate.
Context `{Unicode} `{SerdeJson} `{JsonDisplay} `{FloatFormat} (hash_str : str → Z) (data_dir : str) (setup : RunSetup).
Context (r0 : ToolRegistry).

(** The answer of the hook a call was put to, and the arguments it ran with. *)
Definition let_through (t : AgentTool) (proposed args : json) (answer : result HookAction str) : Prop :=
  match answer with
  | Ok (Block _) => False
  | Ok (ModifyPayload v) => args = coerce_scalar_args (parameters_schema t) v
  | _ => args = proposed
  end.

(** A call ran rightly after [pre]. *)
Definition call_ok (pre : list Action) (t : AgentTool) (name : str) (args : json) : Prop :=
  (∃ r, ran r0 r ∧ ToolRegistry.get r name = Some t) ∧
  tool_hidden setup name = false ∧
  conforms (parameters_schema t) args ∧
  (has_hooks setup = true →
   ∃ earlier proposed answer,
     pre = earlier ++ [Dispatch (PBeforeToolCall (session_key setup) name proposed (channel setup)) answer] ∧
     let_through t proposed args answer).

Definition gated (l : list Action) : Prop :=
  ∀ pre t name args post, l = pre ++ Run t name args :: post → call_ok pre t name args.

Definition is_run (a : Action) : bool := match a with Run _ _ _ => true | _ => false end.

Lemma call_ok_app l pre t name args : call_ok pre t name args → call_ok (l ++ pre) t name args.
Proof.
  intros (Hr & Hh & Hc & Hd). split_and!; [done..|]. intros Hk.
  destruct (Hd Hk) as (e & p & a & -> & Ha). exists (l ++ e), p, a. by rewrite <- app_assoc.
Qed.

Lemma gated_app l l' : gated l → gated l' → gated (l ++ l').
Proof.
  intros Hl Hl' pre t name args post E. apply app_eq_app in E as (m & [[-> E]|[-> E]]).
  - destruct m as [|a m]; simplify_eq/=.
    + rewrite <- (app_nil_r pre). apply call_ok_app. by apply (Hl' [] _ _ _ post).
    + by apply (Hl _ _ _ _ m).
  - apply call_ok_app. by apply (Hl' _ _ _ _ post).
Qed.

Lemma gated_quiet l : forallb (λ a, negb (is_run a)) l = true → gated l.
Proof.
  rewrite forallb_forall. intros Hq pre t name args post ->.
  specialize (Hq (Run t name args)). simpl in Hq. rewrite in_app_iff in Hq. discriminate Hq. by right; left.
Qed.

(** What a computation may do: run tools rightly, and change the registry by nothing else. *)
Definition runs_right : relation RunState := λ s s',
  ran r0 (registry s) → ran r0 (registry s') ∧ ∃ l, trace s' = trace s ++ l ∧ gated l.

Global Instance runs_right_preorder : PreOrder runs_right.
Proof.
  split.
  - intros s Hs. split; [done|]. exists []. split; [by rewrite app_nil_r|]. by intros [].
  - intros s1 s2 s3 H12 H23 Hr. destruct (H12 Hr) as (Hr2 & l & E & Hl), (H23 Hr2) as (Hr3 & l' & E' & Hl').
    split; [done|]. exists (l ++ l'). split; [by rewrite E', E, <- app_assoc|by apply gated_app].
Qed.

(** A modification that runs nothing. *)
Lemma quiet_modify f :
  (∀ s, registry (f s) = registry s ∧ ∃ l, trace (f s) = trace s ++ l ∧ forallb (λ a, negb (is_run a)) l = true) →
  steps runs_right (modify f).
Proof.
  intros Hf. apply steps_modify. intros s Hr. destruct (Hf s) as (-> & l & -> & Hl).
  split; [done|]. exists l. split; [done|by apply gated_quiet].
Qed.

Ltac quiet_tac :=
  steps_tac; try (apply quiet_modify; intros; simpl; split; [done|];
                  first [exists []; by rewrite app_nil_r | by eexists]).

Lemma consult_right ask p : steps runs_right (consult setup ask p).
Proof. unfold consult. quiet_tac. Qed.
#[local] Hint Resolve consult_right : steps.

Lemma emit_right e : steps runs_right (emit e).
Proof. unfold emit. quiet_tac. Qed.
#[local] Hint Resolve emit_right : steps.

Lemma open_round_right env : steps runs_right (open_round data_dir setup env).
Proof. unfold open_round, prepare_prompt, before_llm_call. quiet_tac. Qed.
#[local] Hint Resolve open_round_right : steps.

Lemma provider_failed_right {A} msg : steps runs_right (provider_failed (A := A) msg).
Proof. unfold provider_failed. quiet_tac. Qed.
#[local] Hint Resolve provider_failed_right : steps.
Lemma ask_model_right env schemas : steps runs_right (ask_model setup env schemas).
Proof. unfold ask_model. quiet_tac. Qed.
#[local] Hint Resolve ask_model_right : steps.

(** What is known of a prepared call. *)
Definition prepared_ok (p : Prepared) : Prop :=
  validation_error p = None → ∀ t, prepared_tool p = Some t →
  (∃ r, ran r0 r ∧ ToolRegistry.get r (prepared_name p) = Some t) ∧
  tool_hidden setup (prepared_name p) = false ∧
  conforms (parameters_schema t) (prepared_args p).

Lemma resolve_lookup r n t n' : resolve_tool_lookup r n = (Some t, n') → ToolRegistry.get r n' = Some t.
Proof.
  unfold resolve_tool_lookup. destruct (legacy_public_tool_alias n) as [alias|]; simpl; [|by intros [= ? <-]].
  destruct (ToolRegistry.get r alias) eqn:E; simpl; by intros [= ? <-]; simplify_eq.
Qed.

Lemma prepare_call_ok r tc : ran r0 r → prepared_ok (prepare_call setup r tc).
Proof.
  intros Hr. unfold prepare_call. destruct (resolve_tool_lookup r _) as [t n] eqn:E.
  destruct (tool_hidden setup n) eqn:Eh; [by intros ?|].
  destruct t as [t|]; [|by intros ? ?].
  intros Hv t' [= <-]. simpl in *. apply resolve_lookup in E.
  split_and!; [by exists r|done|]. apply validate_Ok. destruct (validate_tool_args _ _) as [[]|]; done.
Qed.

(** The dispatch that precedes a call, and what it lets through. *)
Lemma before_tool_call_gate env p t s :
  validation_error p = None → prepared_ok p → prepared_tool p = Some t →
  ∃ a, before_tool_call setup env p s =
    (if has_hooks setup then act [Dispatch (PBeforeToolCall (session_key setup) (prepared_name p) (prepared_args p) (channel setup))
       (before_tool env (PBeforeToolCall (session_key setup) (prepared_name p) (prepared_args p) (channel setup)))] s else s, Go a) ∧
    ∀ args, a = inl args → conforms (parameters_schema t) args ∧
      (has_hooks setup = true → let_through t (prepared_args p) args
         (before_tool env (PBeforeToolCall (session_key setup) (prepared_name p) (prepared_args p) (channel setup)))).
Proof.
  intros Hv Hp Ht. destruct (Hp Hv t Ht) as (_ & _ & Hc).
  unfold before_tool_call, consult. set (pl := PBeforeToolCall _ _ _ _).
  unfold mbind, M_bind, mret, M_ret, modify. destruct (has_hooks setup); simpl.
  - eexists. split; [reflexivity|]. destruct (before_tool env pl) as [[|v|reason]|]; simpl.
    + intros args [= <-]. done.
    + rewrite Ht. destruct (validate_tool_args _ _) as [[]|] eqn:E; [|done]. intros args [= <-].
      split; [by apply validate_Ok|done].
    + done.
    + intros args [= <-]. done.
  - eexists. split; [reflexivity|]. by intros args [= <-].
Qed.

Lemma run_call_right env p : prepared_ok p → steps runs_right (run_call setup env p).
Proof.
  intros Hp. unfold run_call. destruct (validation_error p) eqn:Ev; [quiet_tac|].
  destruct (prepared_tool p) as [t|] eqn:Et; [|unfold before_tool_call; quiet_tac].
  intros s. destruct (before_tool_call_gate env p t s Ev Hp Et) as (a & E & Ha).
  unfold mbind, M_bind. rewrite E. set (d := Dispatch _ _) in *. set (s1 := if has_hooks setup then _ else _).
  assert (Hs1 : registry s1 = registry s ∧
    trace s1 = trace s ++ (if has_hooks setup then [d] else [])) by (unfold s1; destruct (has_hooks setup); simpl; rewrite ?app_nil_r; done).
  destruct Hs1 as [Hreg Htr].
  destruct a as [args|out].
  2: { simpl. intros Hr. rewrite Hreg. split; [done|]. exists (if has_hooks setup then [d] else []). split; [done|].
       apply gated_quiet. by destruct (has_hooks setup). }
  destruct (Ha args eq_refl) as [Hc Hl]. destruct (Hp Ev t Et) as ((r & Hr0 & Hget) & Hh & _).
  unfold run_tool. unfold mbind at 1, M_bind at 1, gets at 1.
  destruct (execute_in (registry s1) t args (implementation env t args)) as [answer reg'] eqn:Ex.
  unfold mbind at 1, M_bind at 1, modify at 1. set (s2 := set_registry _ _).
  assert (H12 : runs_right s s2).
  { intros Hr. split.
    - simpl. change reg' with (answer, reg').2. rewrite <- Ex. apply (ran_tool _ (registry s1) r (prepared_name p)); congruence.
    - exists ((if has_hooks setup then [d] else []) ++ [Run t (prepared_name p) args]). simpl.
      rewrite Htr, <- app_assoc. split; [done|].
      intros pre t' name args' post El. destruct (has_hooks setup) eqn:Ehk.
      + destruct pre as [|x [|y pre]]; simplify_eq/=; [|by destruct pre].
        split_and!; [by exists r|done..|]. intros _.
        exists [], (prepared_args p), (before_tool env (PBeforeToolCall (session_key setup) (prepared_name p) (prepared_args p) (channel setup))).
        split; [done|by apply Hl].
      + destruct pre as [|x pre]; simplify_eq/=; [|by destruct pre].
        split_and!; [by exists r|done..|]. by rewrite Ehk. }
  etrans; [exact H12|]. destruct answer; apply (steps_bind _ _ _); intros; quiet_tac.
Qed.

Lemma run_calls_right env i ps : (∀ p, p ∈ ps → prepared_ok p) → steps runs_right (run_calls setup env i ps).
Proof.
  revert i; induction ps as [|p ps IH]; intros i Hps; simpl; [quiet_tac|].
  apply (steps_bind _ _ _); [apply run_call_right, Hps; by left|]. intros out.
  apply (steps_bind _ _ _); [apply IH; intros q Hq; apply Hps; by right|]. intros. quiet_tac.
Qed.

Lemma process_results_right env i l : steps runs_right (process_results hash_str setup env i l).
Proof.
  revert i; induction l as [|[tc o] l IH]; intros i; simpl; [quiet_tac|].
  unfold process_result, persist_result. quiet_tac.
Qed.
#[local] Hint Resolve process_results_right : steps.

Lemma intervene_right : steps runs_right intervene.
Proof.
  unfold intervene. apply quiet_modify. intros s.
  destruct (apply_loop_detector_intervention _ _ _) as [d r]. simpl. split; [done|].
  eexists. split; [done|]. by induction (LoopDetector.events r).
Qed.
#[local] Hint Resolve intervene_right : steps.

Lemma announce_right ps : steps runs_right (for_each announce ps).
Proof. apply (steps_for_each _ _ _). intros p _. unfold announce. quiet_tac. Qed.
#[local] Hint Resolve announce_right : steps.

Lemma run_batch_right env calls : steps runs_right (run_batch hash_str setup env calls).
Proof.
  unfold run_batch. apply (steps_bind _ _ _); [quiet_tac|]; intros _.
  apply steps_bind_gets. intros s Hr.
  refine ((_ : steps runs_right _) s Hr).
  apply (steps_bind _ _ _); [quiet_tac|]. intros _.
  apply (steps_bind _ _ _); [|intros; quiet_tac].
  apply run_calls_right. intros p Hp. apply list_elem_of_fmap in Hp as (tc & -> & _). by apply prepare_call_ok.
Qed.
#[local] Hint Resolve run_batch_right : steps.
Lemma with_tool_calls_right env r : steps runs_right (with_tool_calls hash_str setup env r).
Proof. unfold with_tool_calls. quiet_tac. Qed.
#[local] Hint Resolve with_tool_calls_right : steps.

Lemma round_right env : steps runs_right (round hash_str data_dir setup env).
Proof.
  unfold round. apply (steps_bind _ _ _); [quiet_tac|]. intros r.
  apply (steps_bind _ _ _); [quiet_tac|]. intros response.
  unfold after_answer, retry_malformed, force_explicit_command, retry_unnamed, dispatch_after_llm_call_hook, without_calls.
  quiet_tac.
Qed.

Lemma rounds_right envs fuel i s : runs_right s (rounds hash_str data_dir setup envs fuel i s).1.
Proof. apply (steps_rounds _). intros. apply round_right. Qed.
End gate.

(** * What the history becomes *)

(** An assistant message with the results of its calls after it, by their ids; a message without
    calls is a block of its own. *)
Definition block (calls : list str) : list (str + list str) := inr calls :: map inl calls.

Section pairing.
Context `{Unicode} `{SerdeJson} `{JsonDisplay} `{FloatFormat} (hash_str : str → Z) (data_dir : str) (setup : RunSetup).
Context (base : list (str + list str)).

(** The messages that the hook of this dispatch put in the place of the prompt. *)
Definition rewriting (a : Action) : option (list ChatMessage) :=
  match a with
  | Dispatch (PBeforeLLMCall _ _ _ _ _ _) (Ok (ModifyPayload v)) =>
      ms ← or_else (Json.get "messages" v ≫= as_array) (as_array v);
      let parsed := provider_values_to_chat_messages data_dir ms in
      if is_nonempty parsed then Some parsed else None
  | _ => None
  end.
(** What the prompt begins with after [tr]: the last rewriting, or what the run began with. *)
Definition based (tr : list Action) : list (str + list str) :=
  match last (omap rewriting tr) with Some ms => map skeleton ms | None => base end.

(** That, and complete blocks. *)
Definition complete_blocks (tr : list Action) (ms : list ChatMessage) : Prop :=
  ∃ blocks, map skeleton ms = based tr ++ concat (map block blocks).

(** Neither a question to the model nor a rewriting. *)
Definition calm (a : Action) : bool :=
  match a with Ask _ _ => false | _ => negb (isSome (rewriting a)) end.

Lemma based_snoc tr a :
  based (tr ++ [a]) = match rewriting a with Some ms => map skeleton ms | None => based tr end.
Proof.
  unfold based. rewrite omap_app. change (omap rewriting [a]) with (match rewriting a with Some b => [b] | None => [] end).
  destruct (rewriting a); [by rewrite last_snoc|by rewrite app_nil_r].
Qed.
Lemma calm_based tr l : forallb calm l = true → based (tr ++ l) = based tr.
Proof.
  intros Hl. unfold based. enough (omap rewriting l = []) as Hn by (rewrite omap_app, Hn; by rewrite app_nil_r).
  induction l as [|a l IH]; [done|]. simpl in Hl. apply andb_true_iff in Hl as [Ha Hl].
  change (omap rewriting (a :: l)) with (match rewriting a with Some b => b :: omap rewriting l | None => omap rewriting l end).
  rewrite (IH Hl). unfold calm in Ha. destruct a; try done. by destruct (rewriting _).
Qed.

Definition history_ok (s : RunState) : Prop :=
  complete_blocks (trace s) (messages s) ∧
  ∀ pre ms schemas post, trace s = pre ++ Ask ms schemas :: post → complete_blocks pre ms.
Definition keeps_blocks : relation RunState := λ s s', history_ok s → history_ok s'.
Global Instance keeps_blocks_preorder : PreOrder keeps_blocks.
Proof. unfold keeps_blocks. split; [by intros s Hs|]. intros s1 s2 s3. auto. Qed.

(** Steps that neither touch the messages nor ask. *)
Definition leaves_messages : relation RunState := λ s s',
  messages s' = messages s ∧ ∃ l, trace s' = trace s ++ l ∧ forallb calm l = true.
Global Instance leaves_messages_preorder : PreOrder leaves_messages.
Proof.
  split; [intros s; split; [done|]; exists []; by rewrite app_nil_r|].
  intros s1 s2 s3 (E & l & El & Hl) (E' & l' & El' & Hl'). split; [congruence|].
  exists (l ++ l'). by rewrite El', El, <- app_assoc, forallb_app, Hl, Hl'.
Qed.

(** Questions are asked before and not among calm actions. *)
Lemma calm_ask tr l pre ms schemas post :
  forallb calm l = true → tr ++ l = pre ++ Ask ms schemas :: post → ∃ post', tr = pre ++ Ask ms schemas :: post'.
Proof.
  rewrite forallb_forall. intros Hl E. apply app_eq_app in E as (m & [[-> E]|[-> E]]).
  - destruct m as [|a m]; simplify_eq/=; [|by exists m].
    specialize (Hl (Ask ms schemas)). simpl in Hl. discriminate Hl. by left.
  - specialize (Hl (Ask ms schemas)). subst l. discriminate Hl. apply in_app_iff. right. by left.
Qed.

(** Complete blocks are added. *)
Lemma adds_blocks blocks s s' l :
  map skeleton (messages s') = map skeleton (messages s) ++ concat (map block blocks) →
  trace s' = trace s ++ l → forallb calm l = true → keeps_blocks s s'.
Proof.
  intros Hm Ht Hl [[b Hb] Ha]. split.
  - exists (b ++ blocks). by rewrite Ht, calm_based, Hm, Hb, map_app, concat_app, <- app_assoc.
  - intros pre ms schemas post. rewrite Ht. intros (post' & E)%calm_ask; [|done]. eauto.
Qed.

Lemma leaves_keeps s s' : leaves_messages s s' → keeps_blocks s s'.
Proof. intros (E & l & El & Hl). apply (adds_blocks [] s s' l); [|done..]. by rewrite E, app_nil_r. Qed.

Ltac leaves_tac :=
  steps_tac; try (apply steps_modify; intros; split; [done|]; first [exists []; by rewrite app_nil_r | by eexists]).
(** A step that pushes messages without calls, or touches no message at all. *)
Ltac blocks_tac :=
  steps_tac; try (apply steps_modify; intros;
    first [ eapply (adds_blocks []); [simpl; by rewrite app_nil_r| |]
          | eapply (adds_blocks [[]]); [simpl; by rewrite map_app| |] ];
    first [by rewrite app_nil_r | done]).

(** Only the hook before a call can rewrite. *)
Definition before_llm_hook (p : HookPayload) : bool := match p with PBeforeLLMCall _ _ _ _ _ _ => true | _ => false end.
#[local] Hint Resolve eq_refl : steps.
Lemma consult_leaves ask p : before_llm_hook p = false → steps leaves_messages (consult setup ask p).
Proof.
  intros Hp. unfold consult. leaves_tac. apply steps_modify. intros s. split; [done|]. eexists. split; [done|].
  by destruct p.
Qed.
#[local] Hint Resolve consult_leaves : steps.
Lemma consult_blocks ask p : before_llm_hook p = false → steps keeps_blocks (consult setup ask p).
Proof. intros Hp s. by apply leaves_keeps, consult_leaves. Qed.
#[local] Hint Resolve consult_blocks : steps.

Lemma emit_blocks e : steps keeps_blocks (emit e).
Proof. unfold emit. blocks_tac. Qed.
#[local] Hint Resolve emit_blocks : steps.

Lemma prepare_prompt_blocks : steps keeps_blocks (prepare_prompt setup).
Proof.
  intros s. unfold prepare_prompt, fail, leave, when, mbind, M_bind, mret, M_ret, gets, modify.
  destruct (schemas_for_api _ _ _) as [schemas|e]; [|reflexivity].
  destruct (strip_tools_next_iter s);
    match goal with |- context [enforce_tool_result_context_budget ?m ?sc ?w ?c ?o] =>
      pose proof (enforce_skeleton m sc w c o) as Hsk; destruct (enforce_tool_result_context_budget m sc w c o) as [ms' r] end;
    (apply (adds_blocks [] _ _ []); [|by destruct r; rewrite app_nil_r|done]);
    destruct r; simpl in *; rewrite app_nil_r; exact Hsk.
Qed.
#[local] Hint Resolve prepare_prompt_blocks : steps.

(** The hook before the call rewrites the prompt, or leaves it as it is. *)
Lemma rewriting_applied p v ms :
  before_llm_hook p = true →
  apply_before_llm_call_modify_payload data_dir ms v = unwrap_or ms (rewriting (Dispatch p (Ok (ModifyPayload v)))).
Proof.
  destruct p; try done. intros _. unfold apply_before_llm_call_modify_payload, rewriting. simpl.
  destruct (or_else _ _); simpl; [|done]. by destruct (is_nonempty _).
Qed.
Lemma dispatched_blocks p answer s :
  before_llm_hook p = true →
  keeps_blocks s (set_messages (λ ms, unwrap_or ms (rewriting (Dispatch p answer))) (act [Dispatch p answer] s)).
Proof.
  intros Hp [[b Hb] Ha]. split.
  - unfold complete_blocks. cbn [trace messages set_messages act]. rewrite based_snoc.
    destruct (rewriting (Dispatch p answer)) as [ms|]; [|by exists b]. exists []. by rewrite app_nil_r.
  - intros pre ms schemas post E. simpl in E. destruct post as [|x post _] using rev_ind.
    + by apply app_inj_tail in E as [_ E].
    + rewrite app_comm_cons, app_assoc in E. apply app_inj_tail in E as [E _]. eauto.
Qed.
Lemma before_llm_blocks env schemas : steps keeps_blocks (before_llm_call data_dir setup env schemas).
Proof.
  unfold before_llm_call. do 2 (apply (steps_bind _ _ _); [apply (steps_gets _ _)|intros ?]). intros s. unfold consult.
  destruct (has_hooks setup); [|reflexivity].
  unfold mbind, M_bind, mret, M_ret, modify. set (p := PBeforeLLMCall _ _ _ _ _ _).
  pose proof (dispatched_blocks p (before_llm env p) s eq_refl) as Hd.
  cbn [negb]. destruct (before_llm env p) as [[|v|reason]|]; try exact Hd.
  unfold set_messages in *. cbn [messages act] in *. rewrite <- (rewriting_applied p v) in Hd by done. exact Hd.
Qed.
#[local] Hint Resolve before_llm_blocks : steps.

Lemma open_round_blocks env : steps keeps_blocks (open_round data_dir setup env).
Proof. unfold open_round. blocks_tac. Qed.
#[local] Hint Resolve open_round_blocks : steps.

Lemma provider_failed_blocks {A} msg : steps keeps_blocks (provider_failed (A := A) msg).
Proof. unfold provider_failed. blocks_tac. Qed.
#[local] Hint Resolve provider_failed_blocks : steps.

(** The question itself is about the messages as they are. *)
Lemma ask_blocks s schemas : keeps_blocks s (act [Ask (messages s) schemas] s).
Proof.
  intros [Hm Ha]. split; [unfold complete_blocks; cbn [trace messages act]; by rewrite based_snoc|].
  intros pre ms sch post E. simpl in E. destruct post as [|x post _] using rev_ind.
  - by apply app_inj_tail in E as [<- [= <- <-]].
  - rewrite app_comm_cons, app_assoc in E. apply app_inj_tail in E as [E _]. eauto.
Qed.
Lemma ask_model_blocks env schemas : steps keeps_blocks (ask_model setup env schemas).
Proof.
  unfold ask_model. apply steps_bind_gets. intros s. unfold mbind at 1, M_bind at 1, modify at 1.
  transitivity (act [Ask (messages s) schemas] s); [apply ask_blocks|].
  match goal with |- keeps_blocks ?t (?m ?t).1 => enough (steps keeps_blocks m) as Hs by apply Hs end.
  blocks_tac.
Qed.
#[local] Hint Resolve ask_model_blocks : steps.

Lemma retry_malformed_blocks env r : steps keeps_blocks (retry_malformed env r).
Proof. unfold retry_malformed. blocks_tac. Qed.
#[local] Hint Resolve retry_malformed_blocks : steps.

Lemma force_blocks env r : steps keeps_blocks (force_explicit_command setup env r).
Proof. unfold force_explicit_command. blocks_tac. Qed.
#[local] Hint Resolve force_blocks : steps.

Lemma retry_unnamed_blocks r : steps keeps_blocks (retry_unnamed r).
Proof. unfold retry_unnamed. blocks_tac. Qed.
#[local] Hint Resolve retry_unnamed_blocks : steps.

Lemma without_calls_blocks r : tool_calls r = [] → steps keeps_blocks (without_calls setup r).
Proof.
  intros Hr. unfold without_calls. blocks_tac. apply steps_modify. intros s.
  apply (adds_blocks [[]] _ _ []); [|simpl; by rewrite app_nil_r|done]. simpl. by rewrite map_app; simpl; rewrite Hr.
Qed.
#[local] Hint Resolve without_calls_blocks : steps.

(** ** A batch *)

Lemma run_call_leaves env p : steps leaves_messages (run_call setup env p).
Proof. unfold run_call, before_tool_call, run_tool. leaves_tac. Qed.

(** Every call of a batch has an outcome. *)
Lemma run_calls_leaves env i ps s :
  ∃ s' outs, run_calls setup env i ps s = (s', Go outs) ∧ length outs = length ps ∧ leaves_messages s s'.
Proof.
  revert i s; induction ps as [|p ps IH]; intros i s; simpl; [by exists s, []|].
  pose proof (run_call_leaves (call_env env i) p s) as Hl.
  assert (Hg : ∃ s1 o, run_call setup (call_env env i) p s = (s1, Go o)).
  { clear. unfold run_call, before_tool_call, run_tool, consult, mbind, M_bind, mret, M_ret, gets, modify.
    repeat (case_match; simplify_eq/=; eauto). }
  destruct Hg as (s1 & o & E). rewrite E in Hl. unfold mbind, M_bind. rewrite E.
  destruct (IH (S i) s1) as (s' & outs & E' & Hlen & Hl'). rewrite E'. exists s', (o :: outs).
  split_and!; [done|simpl; congruence|etrans; [exact Hl|exact Hl']].
Qed.

Lemma process_result_block env tc o s :
  ∃ s' l, process_result hash_str setup env tc o s = (s', Go tt) ∧
    map skeleton (messages s') = map skeleton (messages s) ++ [inl (ToolParsing.id tc)] ∧
    trace s' = trace s ++ l ∧ forallb calm l = true.
Proof.
  unfold process_result, persist_result, consult, when, emit, mbind, M_bind, mret, M_ret, gets, modify.
  destruct (is_enabled _), (has_hooks setup); simpl; (eexists _, _; split_and!; [reflexivity|simpl; by rewrite map_app| |]);
    simpl; rewrite <- ?app_assoc; done.
Qed.

Lemma process_results_block env i l s :
  ∃ s' l', process_results hash_str setup env i l s = (s', Go tt) ∧
    map skeleton (messages s') = map skeleton (messages s) ++ map (λ x, inl (ToolParsing.id x.1)) l ∧
    trace s' = trace s ++ l' ∧ forallb calm l' = true.
Proof.
  revert i s; induction l as [|[tc o] l IH]; intros i s; simpl.
  { exists s, []. by rewrite !app_nil_r. }
  destruct (process_result_block (call_env env i) tc o s) as (s1 & l1 & E & Hm & Ht & Hl).
  unfold mbind, M_bind. rewrite E. destruct (IH (S i) s1) as (s2 & l2 & E2 & Hm2 & Ht2 & Hl2).
  exists s2, (l1 ++ l2). rewrite E2. split_and!; [done| | |].
  - by rewrite Hm2, Hm, <- app_assoc.
  - by rewrite Ht2, Ht, <- app_assoc.
  - by rewrite forallb_app, Hl, Hl2.
Qed.
Lemma announce_leaves ps s : ∃ s', for_each announce ps s = (s', Go tt) ∧ leaves_messages s s'.
Proof.
  revert s; induction ps as [|p ps IH]; intros s; simpl; [by exists s|].
  assert (Hp : ∃ s1, announce p s = (s1, Go tt) ∧ leaves_messages s s1).
  { unfold announce, when, emit, modify, mret, M_ret. destruct (negb _); eexists; (split; [reflexivity|]); [|done].
    split; [done|]. by eexists. }
  destruct Hp as (s1 & E & Hl). unfold mbind, M_bind. rewrite E. destruct (IH s1) as (s2 & E2 & Hl2).
  exists s2. split; [done|]. etrans; [exact Hl|exact Hl2].
Qed.

Lemma intervene_blocks : steps keeps_blocks intervene.
Proof.
  apply steps_modify. intros s. destruct (apply_loop_detector_intervention _ _ _) as [d r].
  apply (adds_blocks (map (λ _, []) (LoopDetector.messages r)) _ _
    (map (λ e, Emit (LoopInterventionFired (ev_stage e) (ev_tool e))) (LoopDetector.events r))); [|done|].
  - simpl. rewrite map_app. f_equal. by induction (LoopDetector.messages r) as [|m l IH]; simpl; [|rewrite IH].
  - by induction (LoopDetector.events r).
Qed.
#[local] Hint Resolve intervene_blocks : steps.

(** The assistant's message with the results of all its calls, in their order, is one block. *)
Lemma run_batch_blocks env m calls :
  skeleton m = inr (map ToolParsing.id calls) →
  steps keeps_blocks (_ ← modify (push m); run_batch hash_str setup env calls).
Proof.
  intros Hsk s. unfold run_batch. do 2 (unfold mbind at 1, M_bind at 1, modify at 1).
  unfold mbind at 1, M_bind at 1, gets at 1. set (s1 := add_tool_calls _ _).
  set (prepared := map _ calls).
  destruct (announce_leaves prepared s1) as (s2 & E2 & Hl2).
  unfold mbind at 1, M_bind at 1. rewrite E2.
  destruct (run_calls_leaves env 0 prepared s2) as (s3 & outs & E3 & Hlen & Hl3).
  unfold mbind at 1, M_bind at 1. rewrite E3.
  destruct (process_results_block env 0 (zip calls outs) s3) as (s4 & l4 & E4 & Hm4 & Ht4 & Hl4).
  unfold mbind, M_bind. rewrite E4. transitivity s4; [|apply intervene_blocks].
  assert (H13 : leaves_messages s1 s3) by (etrans; [exact Hl2|exact Hl3]). destruct H13 as (Hm & l & Hl & Hq).
  apply (adds_blocks [map ToolParsing.id calls] _ _ (l ++ l4)).
  - rewrite Hm4, Hm. simpl. rewrite map_app, <- app_assoc. simpl. rewrite app_nil_r, Hsk. do 2 f_equal.
    rewrite <- (map_map fst (λ tc, inl (ToolParsing.id tc))).
    change (map fst (zip calls outs)) with (fst <$> zip calls outs).
    rewrite fst_zip; [by rewrite map_map|]. rewrite Hlen. unfold prepared. by rewrite length_map.
  - by rewrite Ht4, Hl, <- app_assoc.
  - by rewrite forallb_app, Hq, Hl4.
Qed.
Lemma with_tool_calls_blocks env r : steps keeps_blocks (with_tool_calls hash_str setup env r).
Proof.
  unfold with_tool_calls. apply (steps_bind _ _ _); [blocks_tac|]. intros _. by apply run_batch_blocks.
Qed.
#[local] Hint Resolve with_tool_calls_blocks : steps.

Lemma after_llm_blocks env t tcs u it : steps keeps_blocks (dispatch_after_llm_call_hook setup env t tcs u it).
Proof. unfold dispatch_after_llm_call_hook. blocks_tac. Qed.
#[local] Hint Resolve after_llm_blocks : steps.

Lemma answered_blocks env r :
  steps keeps_blocks (if is_nonempty (tool_calls r) then with_tool_calls hash_str setup env r else without_calls setup r).
Proof. destruct (tool_calls r) eqn:E; simpl; [by apply without_calls_blocks|apply with_tool_calls_blocks]. Qed.
#[local] Hint Resolve answered_blocks : steps.

Lemma round_blocks env : steps keeps_blocks (round hash_str data_dir setup env).
Proof.
  unfold round. apply (steps_bind _ _ _); [blocks_tac|]. intros r.
  apply (steps_bind _ _ _); [blocks_tac|]. intros response.
  unfold after_answer. blocks_tac.
Qed.

Lemma rounds_blocks envs fuel i s : keeps_blocks s (rounds hash_str data_dir setup envs fuel i s).1.
Proof. apply (steps_rounds _). intros. apply round_blocks. Qed.
End pairing.

(** * Theorems *)

Section theorems.
Context `{Unicode} `{SerdeJson} `{JsonDisplay} `{FloatFormat} (hash_str : str → Z) (data_dir : str).
Context (tool_choice_from_value : json → option ToolChoice) (binding_from_value : json → option ChannelBinding).
Context (start_hook : HookPayload → result HookAction str) (envs : nat → RoundEnv) (fuel : nat).
Context (cfg : AgentConfig) (p : Provider) (tools : ToolRegistry) (system_prompt : str) (content : UserContent)
        (history : option (list ChatMessage)) (tool_context : option json) (hooks : bool) (sender_name : option str)
        (limit : option nat).

Let start := initial_state cfg tools system_prompt content history sender_name.
Let setup := setup_run tool_choice_from_value binding_from_value cfg p hooks tool_context content limit.
Let run := run_agent_loop_with_context_and_limits hash_str data_dir tool_choice_from_value binding_from_value
  start_hook envs fuel cfg p tools system_prompt content history tool_context hooks sender_name limit.

(** A run is the hook of its start and its rounds. *)
Lemma run_inv (R : relation RunState) `{!PreOrder R} :
  steps R (dispatch_before_agent_start_hook setup start_hook) →
  (∀ s, R s (rounds hash_str data_dir setup envs fuel 0 s).1) → R start run.1.
Proof.
  intros Hs Hr. unfold run, run_agent_loop_with_context_and_limits. fold start setup.
  specialize (Hs start). destruct (dispatch_before_agent_start_hook setup start_hook start) as [s' [a| |o]]; simpl in *; [..|done];
    (etrans; [exact Hs|apply Hr]).
Qed.

(** C13. A run of the agent loop returns.  Whatever the provider, the hooks and the tools answer,
    the loop ends within the rounds its limits allow: the iterations of its configuration, and
    the eleven retries a run grants to failing providers, which give their iteration back.  The
    model is asked at most that many times, so neither a model that keeps calling tools, nor one
    that answers in malformed calls, nor a provider that keeps failing makes it run on. *)
Theorem agent_loop_returns :
  resolve_max_iterations cfg limit + 11 < fuel →
  ∃ s o, run = (s, Some o) ∧ asks (trace s) ≤ resolve_max_iterations cfg limit + 11.
Proof.
  intros Hf. unfold run, run_agent_loop_with_context_and_limits. fold start setup.
  change (resolve_max_iterations cfg limit) with (max_iterations setup) in Hf |- *.
  exact (run_returns setup (λ i, round hash_str data_dir setup (envs i)) start_hook fuel start
    (λ i, round_clock _ _ _ _) eq_refl Hf).
Qed.

(** Every tool that ran was gated. *)
Lemma run_gated : gated setup tools (trace run.1) ∧ ran tools (registry run.1).
Proof.
  destruct (run_inv (runs_right setup tools)) as (Hr & l & El & Hl).
  - unfold dispatch_before_agent_start_hook. apply (steps_bind _ _ _); [apply consult_right|]. intros []; steps_tac.
  - apply rounds_right.
  - constructor.
  - simpl in El. by rewrite El.
Qed.

(** C2. What a run executes.  Every tool that runs was given out, under the name it runs by, by the
    registry of the run or by what tools of the run activated in it; the turn's tool choice
    and its active tools do not hide that name; its arguments conform to the schema of the
    tool; and when hooks are registered the last thing before the run of the tool was the
    [BeforeToolCall] dispatch of this very call, which did not block it, and the arguments
    are those it was shown, or its replacement for them coerced to the schema. *)
Theorem agent_loop_gates pre t name args post :
  trace run.1 = pre ++ Run t name args :: post →
  (∃ r, ran tools r ∧ ToolRegistry.get r name = Some t) ∧
  tool_hidden setup name = false ∧
  conforms (parameters_schema t) args ∧
  (hooks = true →
   ∃ earlier proposed answer,
     pre = earlier ++ [Dispatch (PBeforeToolCall (session_key setup) name proposed (channel setup)) answer] ∧
     let_through t proposed args answer).
Proof.
  intros Ht. by apply (proj1 run_gated _ _ _ _ post).
Qed.

(** C14. The history a run builds.  Every prompt sent to the model, and the history the run ends
    with, is the conversation the run began with, or what a [BeforeLLMCall] hook last put in its
    place, followed by complete blocks: each assistant message is followed at once by one result for
    each of its calls, in their order, and by nothing else before the next block.  Rejected,
    blocked, unknown and failing calls have their results too, and compaction removes none. *)
Theorem agent_loop_answers_calls :
  let initial := map skeleton ([System system_prompt] ++ unwrap_or [] history ++ [User content sender_name]) in
  complete_blocks data_dir initial (trace run.1) (messages run.1) ∧
  ∀ pre ms schemas post, trace run.1 = pre ++ Ask ms schemas :: post → complete_blocks data_dir initial pre ms.
Proof.
  intros initial. apply (run_inv (keeps_blocks data_dir initial)).
  - unfold dispatch_before_agent_start_hook. apply (steps_bind _ _ _); [by apply consult_blocks|]. intros []; steps_tac.
  - intros s. by apply rounds_blocks.
  - split; [exists []; simpl; by rewrite app_nil_r|]. simpl. by intros [|? ?] ? ? ? ?.
Qed.

End theorems.

(** ** Witnesses *)

(** A turn for an untrusted request: the model activates the calculator, runs it, and answers. *)
Section witnesses.
Local Existing Instance ascii_unicode.
Local Existing Instance toy_format.
Let SJ : SerdeJson := {| from_str _ := Err []; to_string _ := None |}.
Let JD : JsonDisplay := {| show_json := demo_show |}.
Local Existing Instance SJ.
Local Existing Instance JD.

Definition demo_agent_config : AgentConfig :=
  {| max_tool_result_bytes := 1000; agent_max_auto_continues := 1; agent_auto_continue_min_tool_calls := 3;
     tool_result_compaction_ratio := 75; preemptive_overflow_ratio := 95; compaction_min_iterations := 2;
     agent_max_iterations := 4; registry_lazy := false; agent_loop_detector_window := 3;
     agent_loop_detector_strip_tools_on_second_fire := true |}.
Definition demo_provider : Provider :=
  {| provider_name := lit "demo"; provider_id := lit "demo"; supports_tools := true; provider_context_window := 8000 |}.
Definition demo_response (n : string) (args : json) : CompletionResponse :=
  {| text := None; reasoning := None;
     tool_calls := [{| ToolParsing.id := lit "c1"; ToolParsing.name := lit n; call_arguments := args;
                       argument_diagnostic := None; metadata := None |}];
     usage := Usage_default |}.
Definition demo_answer : CompletionResponse :=
  {| text := Some (lit "It is two."); reasoning := None; tool_calls := []; usage := Usage_default |}.
Definition demo_call_env : CallEnv :=
  {| before_tool _ := Ok Continue; after_tool _ := Ok Continue; result_persist _ := Ok Continue;
     implementation _ _ := Ok (JString "2") |}.
Definition demo_env (i : nat) : RoundEnv :=
  {| before_llm _ := Ok Continue; after_llm _ := Ok Continue;
     complete _ _ _ := Ok (match i with
       | 0 => demo_response "tool_search" (JObject [(lit "name", JString "calc")])
       | 1 => demo_response "calc" (JObject [])
       | _ => demo_answer
       end);
     text_uuid _ := []; xml_uuid _ := []; forced_uuid := []; call_env _ := demo_call_env |}.
Definition demo_run : RunState * option Outcome :=
  run_agent_loop_with_context_and_limits (λ _, 0%Z) [] (λ _, None) (λ _, None) (λ _, Ok Continue) demo_env 16
    demo_agent_config demo_provider demo_turn [] (UserText (lit "1+1?")) None None true None None.

Definition ran_tools (l : list Action) : list str :=
  omap (λ a, match a with Run _ name _ => Some name | _ => None end) l.

Lemma agent_loop_returns_witness :
  ran_tools (trace demo_run.1) = [lit "tool_search"; lit "calc"] ∧
  resolve_max_iterations demo_agent_config None = 4 ∧
  ∃ s o, demo_run = (s, Some o) ∧ asks (trace s) ≤ resolve_max_iterations demo_agent_config None + 11.
Proof.
  split; [by vm_compute|]. split; [by vm_compute|].
  exact (agent_loop_returns (λ _, 0%Z) [] (λ _, None) (λ _, None) (λ _, Ok Continue) demo_env 16
    demo_agent_config demo_provider demo_turn [] (UserText (lit "1+1?")) None None true None None
    (ltac:(apply Nat.ltb_lt; vm_compute; reflexivity))).
Defined.

(** Where the calculator ran. *)
Definition is_calc (a : Action) : bool := match a with Run _ name _ => str_eqb name "calc" | _ => false end.
Definition calc_at : nat := length (take_while (λ a, negb (is_calc a)) (trace demo_run.1)).
Definition demo_setup : RunSetup :=
  setup_run (λ _, None) (λ _, None) demo_agent_config demo_provider true None (UserText (lit "1+1?")) None.

Lemma agent_loop_gates_witness :
  let pre := take calc_at (trace demo_run.1) in
  0 < length pre ∧
  (∃ r, ran demo_turn r ∧ ToolRegistry.get r "calc" = Some (demo_tool "calc")) ∧
  tool_hidden demo_setup "calc" = false ∧
  conforms (parameters_schema (demo_tool "calc")) (JObject []) ∧
  (true = true →
   ∃ earlier proposed answer,
     pre = earlier ++ [Dispatch (PBeforeToolCall (session_key demo_setup) "calc" proposed (channel demo_setup)) answer] ∧
     let_through (demo_tool "calc") proposed (JObject []) answer).
Proof.
  intros pre. split; [apply Nat.ltb_lt; by vm_compute|].
  refine (agent_loop_gates (λ _, 0%Z) [] (λ _, None) (λ _, None) (λ _, Ok Continue) demo_env 16
    demo_agent_config demo_provider demo_turn [] (UserText (lit "1+1?")) None None true None None
    pre (demo_tool "calc") (lit "calc") (JObject []) (drop (S calc_at) (trace demo_run.1)) _).
  by vm_compute.
Defined.

Lemma agent_loop_answers_calls_witness :
  let initial := map skeleton ([System []] ++ [] ++ [User (UserText (lit "1+1?")) None]) in
  length (messages demo_run.1) = 6 ∧
  complete_blocks [] initial (trace demo_run.1) (messages demo_run.1) ∧
  ∀ pre ms schemas post, trace demo_run.1 = pre ++ Ask ms schemas :: post → complete_blocks [] initial pre ms.
Proof.
  intros initial. split; [by vm_compute|].
  exact (agent_loop_answers_calls (λ _, 0%Z) [] (λ _, None) (λ _, None) (λ _, Ok Continue) demo_env 16
    demo_agent_config demo_provider demo_turn [] (UserText (lit "1+1?")) None None true None None).
Defined.
End witnesses.
