(* ===== verification/ProviderChain.v ===== *)
(** Failover between language model providers.

    Models [crates/agents/src/provider_chain.rs]: the classification of errors,
    the circuit breaker of a provider and the two loops of the chain, for whole
    completions and for streams.  A provider is a record of functions of the
    time of the call (what a remote service answers is a parameter); each
    answer carries the time at which it arrived.  One request at a time runs on
    a chain. *)
From S2P Require Import Prelude Retry.
Local Open Scope Z_scope.

(** ** Errors *)

Inductive ProviderErrorKind :=
| RateLimit | AuthError | ServerError | BillingExhausted | ContextWindow
| InvalidRequest | Unknown.

Global Instance ProviderErrorKind_eq_dec : EqDecision ProviderErrorKind.
Proof. solve_decision. Defined.

Definition should_failover (k : ProviderErrorKind) : bool :=
  match k with
  | RateLimit | AuthError | ServerError | BillingExhausted | Unknown => true
  | ContextWindow | InvalidRequest => false
  end.

Definition CONTEXT_WINDOW_PATTERNS : list str := map lit [
  "context_length_exceeded"; "context_window_exceeded"; "model_context_window_exceeded";
  "max_tokens"; "too many tokens"; "request too large"; "maximum context length";
  "context window"; "token limit"; "input too long"; "input_too_long";
  "content_too_large"; "request_too_large"]%string.

Definition rate_limit_words : list str := map lit [
  "429"; "rate limit"; "rate_limit"; "too many requests"]%string.
Definition auth_words : list str := map lit [
  "401"; "403"; "unauthorized"; "forbidden"; "invalid api key"; "invalid_api_key";
  "authentication"]%string.
Definition billing_words : list str := map lit [
  "billing"; "quota"; "insufficient_quota"; "usage limit"; "credit"]%string.
Definition server_words : list str := map lit [
  "500"; "502"; "503"; "504"; "internal server error"; "bad gateway";
  "service unavailable"; "overloaded"]%string.
Definition invalid_words : list str := map lit ["400"; "bad request"; "invalid_request"]%string.

Definition classify_error `{Unicode} (err : str) : ProviderErrorKind :=
  let msg := to_lowercase err in
  if any_pattern CONTEXT_WINDOW_PATTERNS msg then ContextWindow
  else if any_pattern rate_limit_words msg then RateLimit
  else if any_pattern auth_words msg then AuthError
  else if any_pattern billing_words msg then BillingExhausted
  else if any_pattern server_words msg then ServerError
  else if any_pattern invalid_words msg then InvalidRequest
  else Unknown.

(** ** The circuit breaker *)

Record ProviderState := {
  consecutive_failures : Z;    (** usize *)
  last_failure : option Z;
}.

Definition ProviderState_new : ProviderState :=
  {| consecutive_failures := 0; last_failure := None |}.

Definition record_success (s : ProviderState) : ProviderState :=
  {| consecutive_failures := 0; last_failure := last_failure s |}.

Definition record_failure (now : Z) (s : ProviderState) : ProviderState :=
  {| consecutive_failures := wrap u64_bound (consecutive_failures s + 1);
     last_failure := Some now |}.

(** The answer, and the state: an expired breaker is reset by the test. *)
Definition is_tripped (now : Z) (s : ProviderState) : bool * ProviderState :=
  if consecutive_failures s <? 3 then (false, s)
  else match last_failure s with
       | Some t =>
           if now - t <? secs 60 then (true, s) else (false, record_success s)
       | None => (false, record_success s)
       end.

(** ** Providers and chains *)

Record ProviderIdentity := { pi_name : str; pi_id : str }.

Inductive ProviderAttemptEvent :=
| Started (identity : ProviderIdentity)
| Failed (identity : ProviderIdentity) (error : str).

Section chain.
Context `{Unicode} {response usage raw output : Type}.

(** [Output] stands for the text, reasoning and tool-call events. *)
Inductive StreamEvent :=
| Output (o : output)
| ProviderRaw (r : raw)
| Done (u : usage)
| Error (error : str).

Inductive TrackedStreamEvent :=
| Attempt (e : ProviderAttemptEvent)
| Event (e : StreamEvent).

(** What one call of a provider gives: its result, the attempt events it
    reported and the time at which it returned. *)
Record completion := {
  c_result : result response str;
  c_events : list ProviderAttemptEvent;
  c_time : Z;
}.

(** A finite stream: the events with their arrival times, and the end. *)
Record event_stream := { s_events : list (Z * StreamEvent); s_end : Z }.

Record LlmProvider := {
  name : str;
  id : str;
  tracked : Z → completion;            (** [complete_with_options_tracked] *)
  stream : Z → event_stream;           (** [stream_with_tools_and_options] *)
}.

Definition identity (p : LlmProvider) : ProviderIdentity :=
  {| pi_name := name p; pi_id := id p |}.

(** The default [complete_with_options_tracked] of the trait, around
    [complete_with_options]. *)
Definition default_tracked (ident : ProviderIdentity)
    (complete_with_options : Z → result response str * Z) (now : Z) : completion :=
  let '(result, t) := complete_with_options now in
  {| c_result := result;
     c_events := Started ident ::
       match result with Ok _ => [] | Err error => [Failed ident error] end;
     c_time := t |}.

Record ChainEntry := { provider : LlmProvider; state : ProviderState }.

Definition set_state (e : ChainEntry) (s : ProviderState) : ChainEntry :=
  {| provider := provider e; state := s |}.

Definition chain_new (providers : list LlmProvider) : list ChainEntry :=
  map (λ p, {| provider := p; state := ProviderState_new |}) providers.

(** [chain.iter().all(|entry| entry.state.is_tripped())]: stops at the first
    entry that is not tripped. *)
Fixpoint all_tripped (now : Z) (chain : list ChainEntry) : bool * list ChainEntry :=
  match chain with
  | [] => (true, [])
  | e :: chain' =>
      let '(t, s) := is_tripped now (state e) in
      if t then
        let '(b, chain'') := all_tripped now chain' in (b, set_state e s :: chain'')
      else (false, set_state e s :: chain')
  end.

Definition all_failed (errors : list str) : str :=
  lit "all providers in failover chain failed: " ++ join "; " errors.

Definition entry_error (e : ChainEntry) (error : str) : str :=
  id (provider e) ++ lit ": " ++ error.

(** A call made by the chain: which entry, when, and what came back. *)
Record call := { call_index : nat; call_time : Z; call_result : completion }.

(** The loop of [complete_with_options_tracked] from entry [index] on: the
    result, the calls made and the entries afterwards. *)
Fixpoint complete_loop (force_primary : bool) (index : nat) (chain : list ChainEntry)
    (now : Z) (errors : list str) : result response str * list call * list ChainEntry :=
  match chain with
  | [] => (Err (all_failed errors), [], [])
  | e :: chain' =>
      let '(tripped, s) := is_tripped now (state e) in
      if tripped && negb (force_primary && (index =? 0)%nat) then
        let '(r, calls, chain'') := complete_loop force_primary (S index) chain' now errors in
        (r, calls, set_state e s :: chain'')
      else
        let c := tracked (provider e) now in
        let call := {| call_index := index; call_time := now; call_result := c |} in
        match c_result c with
        | Ok resp => (Ok resp, [call], set_state e (record_success s) :: chain')
        | Err err =>
            let e' := set_state e (record_failure (c_time c) s) in
            if negb (should_failover (classify_error err)) then (Err err, [call], e' :: chain')
            else
              let '(r, calls, chain'') :=
                complete_loop force_primary (S index) chain' (c_time c)
                  (errors ++ [entry_error e err]) in
              (r, call :: calls, e' :: chain'')
        end
  end.

Definition complete_with_options_tracked (chain : list ChainEntry) (now : Z)
    : result response str * list call * list ChainEntry :=
  let '(force_primary, chain) := all_tripped now chain in
  complete_loop force_primary 0 chain now [].

(** The attempt events the caller sees. *)
Definition attempts (calls : list call) : list ProviderAttemptEvent :=
  flat_map (λ c, c_events (call_result c)) calls.

(** *** Streams *)

Inductive stream_exit :=
| Returned
| RetryNext (error : str) (now : Z)
| Ended (emitted_output : bool) (now : Z).

(** The inner [while] over one provider's stream. *)
Fixpoint stream_loop (ident : ProviderIdentity) (events : list (Z * StreamEvent)) (end_time : Z)
    (emitted_output : bool) (s : ProviderState)
    : list TrackedStreamEvent * stream_exit * ProviderState :=
  match events with
  | [] => ([], Ended emitted_output end_time, s)
  | (t, ev) :: events' =>
      match ev with
      | Error error =>
          let s' := record_failure t s in
          let failed := Attempt (Failed ident error) in
          if should_failover (classify_error error) && negb emitted_output
          then ([failed], RetryNext error t, s')
          else ([failed; Event (Error error)], Returned, s')
      | Done u => ([Event (Done u)], Returned, record_success s)
      | ProviderRaw r =>
          let '(out, x, s') := stream_loop ident events' end_time emitted_output s in
          (Event (ProviderRaw r) :: out, x, s')
      | Output o =>
          let '(out, x, s') := stream_loop ident events' end_time true s in
          (Event (Output o) :: out, x, s')
      end
  end.

Definition no_terminal_event : str := lit "provider stream ended without a terminal event".

Fixpoint failover_loop (force_primary : bool) (index : nat) (chain : list ChainEntry)
    (now : Z) (errors : list str) : list TrackedStreamEvent * list ChainEntry :=
  match chain with
  | [] => ([Event (Error (all_failed errors))], [])
  | e :: chain' =>
      let '(tripped, s) := is_tripped now (state e) in
      if tripped && negb (force_primary && (index =? 0)%nat) then
        let '(out, chain'') := failover_loop force_primary (S index) chain' now errors in
        (out, set_state e s :: chain'')
      else
        let ident := identity (provider e) in
        let st := stream (provider e) now in
        let '(evs, x, s') := stream_loop ident (s_events st) (s_end st) false s in
        let evs := Attempt (Started ident) :: evs in
        match x with
        | Returned => (evs, set_state e s' :: chain')
        | RetryNext error t =>
            let '(out, chain'') := failover_loop force_primary (S index) chain' t
                                     (errors ++ [entry_error e error]) in
            (evs ++ out, set_state e s' :: chain'')
        | Ended emitted_output t =>
            let e' := set_state e (record_failure t s') in
            let failed := Attempt (Failed ident no_terminal_event) in
            if emitted_output
            then (evs ++ [failed; Event (Error no_terminal_event)], e' :: chain')
            else
              let '(out, chain'') := failover_loop force_primary (S index) chain' t
                                       (errors ++ [entry_error e no_terminal_event]) in
              (evs ++ failed :: out, e' :: chain'')
        end
  end.

Definition failover_stream (chain : list ChainEntry) (now : Z)
    : list TrackedStreamEvent * list ChainEntry :=
  let '(force_primary, chain) := all_tripped now chain in
  failover_loop force_primary 0 chain now [].

(** [stream_with_tools_and_options]: the events without the attempts. *)
Definition stream_with_tools_and_options (chain : list ChainEntry) (now : Z) : list StreamEvent :=
  omap (λ t, match t with Attempt _ => None | Event e => Some e end)
    (failover_stream chain now).1.

(** * Facts *)

(** ** Completions *)

Definition failover_error (c : completion) : Prop :=
  ∃ err, c_result c = Err err ∧ should_failover (classify_error err) = true.

(** What the calls of a run look like: the [k]-th entries called, in chain order,
    everything before the last call a failure worth a failover. *)
Inductive run_shape : result response str → list call → Prop :=
| shape_ok c resp : c_result (call_result c) = Ok resp → run_shape (Ok resp) [c]
| shape_fatal c err :
    c_result (call_result c) = Err err → should_failover (classify_error err) = false →
    run_shape (Err err) [c]
| shape_none errors : run_shape (Err (all_failed errors)) []
| shape_next r c calls :
    failover_error (call_result c) → run_shape r calls → run_shape r (c :: calls).

(** A call is made to the entry of its index, with the provider's own answer,
    and that entry's breaker was closed unless it is the forced primary. *)
Definition call_allowed (force_primary : bool) (chain : list ChainEntry) (base : nat) (c : call) : Prop :=
  ∃ e, (base ≤ call_index c)%nat ∧ chain !! (call_index c - base)%nat = Some e ∧
    call_result c = tracked (provider e) (call_time c) ∧
    ((is_tripped (call_time c) (state e)).1 = false ∨ force_primary = true ∧ call_index c = 0%nat).

Lemma call_allowed_cons fp e chain base c :
  call_allowed fp chain (S base) c → call_allowed fp (e :: chain) base c.
Proof.
  intros (e' & Hle & Hl & ?). exists e'. split; [lia|]. split; [|done].
  replace (call_index c - base)%nat with (S (call_index c - S base))%nat by lia. done.
Qed.

Lemma complete_loop_spec fp chain : ∀ base now errors r calls chain',
  complete_loop fp base chain now errors = (r, calls, chain') →
  run_shape r calls ∧ Forall (call_allowed fp chain base) calls.
Proof.
  induction chain as [|e chain IH]; intros base now errors r calls chain'; simpl.
  { intros [= <- <- <-]. split; constructor. }
  destruct (is_tripped now (state e)) as [tripped s] eqn:Et.
  assert (∀ l, Forall (call_allowed fp chain (S base)) l →
               Forall (call_allowed fp (e :: chain) base) l) as Hcons.
  { intros l Hl. eapply Forall_impl; [done|]. apply call_allowed_cons. }
  destruct (tripped && _) eqn:Hskip.
  { destruct (complete_loop fp (S base) chain now errors) as [[r0 cs] ch] eqn:E.
    intros [= <- <- <-]. apply IH in E as [? ?]. auto. }
  set (c0 := {| call_index := base; call_time := now; call_result := _ |}).
  assert (call_allowed fp (e :: chain) base c0) as Hc0.
  { exists e. rewrite Nat.sub_diag. simpl. rewrite Et. simpl. repeat split; [done|].
    apply andb_false_iff in Hskip as [->|Hf]; [by left|].
    apply negb_false_iff, andb_true_iff in Hf as [-> ?%Nat.eqb_eq]. by right. }
  destruct (c_result (tracked (provider e) now)) as [resp|err] eqn:Er.
  { intros [= <- <- <-]. split; [by apply shape_ok|by repeat constructor]. }
  destruct (should_failover (classify_error err)) eqn:Ef; simpl.
  - destruct (complete_loop _ _ _ _ _) as [[r0 cs] ch] eqn:E.
    intros [= <- <- <-]. apply IH in E as [? ?].
    split; [apply shape_next; [|done]; by exists err|]. constructor; auto.
  - intros [= <- <- <-]. split; [by apply shape_fatal|by repeat constructor].
Qed.

Lemma is_tripped_false now s : (is_tripped now s).1 = false → (is_tripped now s).2.(consecutive_failures) < 3.
Proof. unfold is_tripped. break; bools; simpl; lia. Qed.

Lemma closed_not_tripped now s : consecutive_failures s < 3 → is_tripped now s = (false, s).
Proof. unfold is_tripped. intros. break; bools; lia. Qed.

(** Some entry of the chain has a closed breaker. *)
Definition some_closed (chain : list ChainEntry) : Prop :=
  Exists (λ e, consecutive_failures (state e) < 3) chain.

Lemma all_tripped_spec now chain b chain' :
  all_tripped now chain = (b, chain') →
  map provider chain' = map provider chain ∧ length chain' = length chain ∧
  (b = false → some_closed chain').
Proof.
  revert b chain'; induction chain as [|e chain IH]; intros b chain'; simpl.
  { by intros [= <- <-]. }
  pose proof (is_tripped_false now (state e)) as Ht.
  destruct (is_tripped now (state e)) as [t s]; simpl in *. destruct t.
  - destruct (all_tripped now chain) as [b0 ch] eqn:E. intros [= <- <-].
    destruct (IH _ _ eq_refl) as (Hp & Hl & Hc). simpl. rewrite Hp, Hl.
    repeat split. intros Hb. right. by apply Hc.
  - intros [= <- <-]. simpl. repeat split. intros _. left. simpl. by apply Ht.
Qed.

Lemma complete_loop_calls fp base chain now errors :
  some_closed chain ∨ (fp = true ∧ base = 0%nat ∧ chain ≠ []) →
  (complete_loop fp base chain now errors).1.2 ≠ [].
Proof.
  revert base now errors; induction chain as [|e chain IH]; intros base now errors Hc.
  { destruct Hc as [Hc|(_ & _ & ?)]; [inversion Hc|done]. }
  simpl. destruct (is_tripped now (state e)) as [t s] eqn:Et.
  destruct (t && _) eqn:Hskip.
  - assert (some_closed chain) as Hs.
    { destruct Hc as [Hc|(-> & -> & _)]; [|by destruct t].
      inversion Hc as [? ? Hlt|]; subst; [|done].
      rewrite closed_not_tripped in Et by done. by injection Et as <- <-. }
    specialize (IH (S base) now errors (or_introl Hs)).
    destruct (complete_loop _ _ _ _ _) as [[? ?] ?]. done.
  - destruct (c_result _) as [|err]; [done|]. destruct (should_failover _); [|done]. cbn [negb].
    destruct (complete_loop _ _ _ _ _) as [[? ?] ?]. done.
Qed.

Lemma complete_loop_sorted fp chain : ∀ base now errors r calls chain',
  complete_loop fp base chain now errors = (r, calls, chain') →
  StronglySorted (λ c c', call_index c < call_index c')%nat calls ∧
  Forall (λ c, base ≤ call_index c)%nat calls.
Proof.
  induction chain as [|e chain IH]; intros base now errors r calls chain'; simpl.
  { intros [= <- <- <-]. split; constructor. }
  assert (∀ l, Forall (λ c, S base ≤ call_index c)%nat l → Forall (λ c, base ≤ call_index c)%nat l) as Hw.
  { intros l Hl. eapply Forall_impl; [done|]. simpl. lia. }
  destruct (is_tripped now (state e)) as [t s]. destruct (t && _).
  { destruct (complete_loop _ _ _ _ _) as [[r0 cs] ch] eqn:E. intros [= <- <- <-].
    apply IH in E as [? ?]. auto. }
  destruct (c_result _) as [resp|err]; [|destruct (negb _)];
    try (intros [= <- <- <-]; split; repeat constructor).
  destruct (complete_loop _ _ _ _ _) as [[r0 cs] ch] eqn:E. intros [= <- <- <-].
  apply IH in E as [? ?]. split; constructor; simpl; auto.
Qed.

Lemma run_shape_ok resp calls :
  run_shape (Ok resp) calls → ∃ c, last calls = Some c ∧ c_result (call_result c) = Ok resp.
Proof.
  remember (Ok resp) as r eqn:Hr. induction 1 as [c resp' Hc| | |r c calls Hf Hs IH]; simplify_eq.
  - by exists c.
  - destruct (IH eq_refl) as (c' & Hl & ?). exists c'. by destruct calls.
Qed.

(** A completion request on a non-empty chain calls at least one provider,
    in chain order, skipping only entries whose breaker is open (unless all are,
    which forces the primary); it moves on only after an error worth a failover
    and returns exactly what the last call returned, or the list of the errors. *)
Theorem complete_spec (chain : list ChainEntry) (now : Z) :
  chain ≠ [] →
  let '(force_primary, chain0) := all_tripped now chain in
  let '(r, calls, chain') := complete_with_options_tracked chain now in
  calls ≠ [] ∧ run_shape r calls ∧ Forall (call_allowed force_primary chain0 0) calls ∧
  StronglySorted (λ c c', call_index c < call_index c')%nat calls ∧
  (∀ resp, r = Ok resp → ∃ c, last calls = Some c ∧ c_result (call_result c) = Ok resp).
Proof.
  intros Hne. unfold complete_with_options_tracked.
  destruct (all_tripped now chain) as [fp ch] eqn:Ea.
  destruct (all_tripped_spec _ _ _ _ Ea) as (_ & Hl & Hc).
  pose proof (complete_loop_calls fp 0 ch now []) as Hcalls.
  destruct (complete_loop fp 0 ch now []) as [[r calls] ch'] eqn:E. simpl in Hcalls.
  pose proof (complete_loop_sorted _ _ _ _ _ _ _ _ E) as [Hsort _].
  apply complete_loop_spec in E as [Hs Hf].
  repeat split; try done.
  - apply Hcalls. destruct fp; [right|left; auto].
    repeat split. intros ->. by destruct chain.
  - intros resp ->. by apply run_shape_ok.
Qed.

(** ** Streams *)

Definition terminal (t : TrackedStreamEvent) : bool :=
  match t with Event (Done _) | Event (Error _) => true | _ => false end.
Definition is_output (t : TrackedStreamEvent) : bool :=
  match t with Event (Output _) => true | _ => false end.
Definition is_started (t : TrackedStreamEvent) : bool :=
  match t with Attempt (Started _) => true | _ => false end.

(** No terminal event, and no attempt started after an output event. *)
Definition quiet (l : list TrackedStreamEvent) : Prop := Forall (λ t, terminal t = false) l.
Definition silent (l : list TrackedStreamEvent) : Prop :=
  Forall (λ t, terminal t = false ∧ is_output t = false) l.
Definition no_start (l : list TrackedStreamEvent) : Prop := Forall (λ t, is_started t = false) l.

(** A whole run: silent attempts, then one attempt that may produce output, then
    one terminal event. *)
Definition run_of (l : list TrackedStreamEvent) : Prop :=
  ∃ pre body t, l = pre ++ body ++ [t] ∧ silent pre ∧ quiet body ∧ no_start body ∧ terminal t = true.

Lemma stream_loop_spec ident evs end_time emitted s out x s' :
  stream_loop ident evs end_time emitted s = (out, x, s') →
  no_start out ∧
  match x with
  | Returned => ∃ body t, out = body ++ [t] ∧ quiet body ∧ terminal t = true
  | RetryNext _ _ => silent out ∧ emitted = false
  | Ended b _ => quiet out ∧ (b = false → silent out ∧ emitted = false)
  end.
Proof.
  unfold no_start, quiet, silent.
  revert emitted s out x s'; induction evs as [|[t ev] evs IH]; intros emitted s out x s'; simpl.
  { intros [= <- <- <-]. split; [done|]. split; [done|]. intros Hb. by split. }
  destruct ev as [o|r|u|error].
  - destruct (stream_loop _ _ _ true s) as [[out0 x0] s0] eqn:E. intros [= <- <- <-].
    apply IH in E as [Hn Hx]. split; [by constructor|].
    destruct x0 as [|? ?|b ?].
    + destruct Hx as (body & t0 & -> & ? & ?). exists (Event (Output o) :: body), t0.
      split; [done|]. split; [by constructor|done].
    + by destruct Hx.
    + destruct Hx as [? Hb]. split; [by constructor|]. intros Hf. by destruct (Hb Hf).
  - destruct (stream_loop _ _ _ emitted s) as [[out0 x0] s0] eqn:E. intros [= <- <- <-].
    apply IH in E as [Hn Hx]. split; [by constructor|].
    destruct x0 as [|? ?|b ?].
    + destruct Hx as (body & t0 & -> & ? & ?). exists (Event (ProviderRaw r) :: body), t0.
      split; [done|]. split; [by constructor|done].
    + destruct Hx. split; [by constructor|done].
    + destruct Hx as [? Hb]. split; [by constructor|]. intros Hf. destruct (Hb Hf).
      split; [by constructor|done].
  - intros [= <- <- <-]. split; [by repeat constructor|]. exists [], (Event (Done u)).
    by repeat constructor.
  - destruct (should_failover _ && _) eqn:Hr; intros [= <- <- <-].
    + apply andb_true_iff in Hr as [_ ?%negb_true_iff]. by repeat constructor.
    + split; [by repeat constructor|]. exists [Attempt (Failed ident error)], (Event (Error error)).
      by repeat constructor.
Qed.

Lemma run_of_silent l pre : silent pre → run_of l → run_of (pre ++ l).
Proof.
  intros Hp (pre0 & body & t & -> & ? & ? & ? & ?).
  exists (pre ++ pre0), body, t. rewrite <- app_assoc. repeat split; try done.
  by apply Forall_app.
Qed.

Lemma failover_loop_spec fp chain : ∀ base now errors,
  run_of (failover_loop fp base chain now errors).1.
Proof.
  induction chain as [|e chain IH]; intros base now errors; simpl.
  { exists [], [], (Event (Error (all_failed errors))). repeat split; constructor. }
  destruct (is_tripped now (state e)) as [t s]. destruct (t && _).
  { specialize (IH (S base) now errors). by destruct (failover_loop _ _ _ _ _). }
  destruct (stream_loop _ _ _ _ _) as [[out x] s'] eqn:E.
  apply stream_loop_spec in E as [Hn Hx].
  set (st := Attempt (Started (identity (provider e)))).
  assert (silent [st]) as Hst by (by repeat constructor).
  destruct x as [|error t'|b t'].
  - destruct Hx as (body & t0 & -> & ? & ?). apply (run_of_silent _ [st]); [done|].
    apply Forall_app in Hn as [? _]. exists [], body, t0. by repeat split; try constructor.
  - destruct Hx as [Hsil _]. specialize (IH (S base) t' (errors ++ [entry_error e error])).
    destruct (failover_loop _ _ _ _ _) as [out' ch]. simpl in *.
    apply (run_of_silent _ (st :: out)); [by constructor|done].
  - set (fl := Attempt (Failed _ _)). destruct b; simpl.
    + destruct Hx as [Hq _]. apply (run_of_silent _ [st]); [done|].
      exists [], (out ++ [fl]), (Event (Error no_terminal_event)). simpl. rewrite <- app_assoc.
      unfold quiet, no_start. rewrite !Forall_app. by repeat split; repeat constructor.
    + destruct Hx as [_ Hb]. destruct (Hb eq_refl) as [Hsil _].
      specialize (IH (S base) t' (errors ++ [entry_error e no_terminal_event])).
      destruct (failover_loop _ _ _ _ _) as [out' ch]. simpl in *.
      replace (st :: out ++ fl :: out') with ((st :: out ++ [fl]) ++ out') by (simpl; by rewrite <- app_assoc).
      apply run_of_silent; [|done]. constructor; [done|]. apply Forall_app. by repeat constructor.
Qed.

(** C39. A failover stream ends with exactly one terminal event, and no provider is
    started once an output event has been passed on: output of two providers is
    never mixed. *)
Theorem failover_stream_shape (chain : list ChainEntry) (now : Z) :
  ∃ body t, (failover_stream chain now).1 = body ++ [t] ∧ terminal t = true ∧ quiet body ∧
    ∀ a o b, (failover_stream chain now).1 = a ++ Event (Output o) :: b → no_start b.
Proof.
  unfold failover_stream. destruct (all_tripped now chain) as [fp ch].
  destruct (failover_loop_spec fp ch 0 now []) as (pre & body & t & Heq & Hp & Hq & Hn & Ht).
  exists (pre ++ body), t. rewrite Heq, <- app_assoc. repeat split; try done.
  { apply Forall_app. split; [|done]. eapply Forall_impl; [done|]. by intros ? []. }
  assert (no_start (body ++ [t])) as Hns.
  { apply Forall_app. split; [done|]. repeat constructor. by destruct t as [|[]]. }
  intros a o b Hs. apply app_eq_inv in Hs as [(k & -> & Hk)|(k & -> & Hk)].
  - destruct k as [|x k]; simpl in Hk.
    + rewrite <- Hk in Hns. by apply Forall_cons in Hns as [_ ?].
    + injection Hk as <- ->. by apply Forall_app in Hp as [_ [[_ ?] _]%Forall_cons].
  - rewrite Hk in Hns. by apply Forall_app in Hns as [_ [_ ?]%Forall_cons].
Qed.

End chain.

(** ** The breaker *)

(** Results of the calls of a provider in order: a failure with its time, or a
    success. *)
Fixpoint breaker_run (outcomes : list (option Z)) (s : ProviderState) : ProviderState :=
  match outcomes with
  | [] => s
  | Some t :: outcomes' => breaker_run outcomes' (record_failure t s)
  | None :: outcomes' => breaker_run outcomes' (record_success s)
  end.

(** The failures since the last success, latest first. *)
Definition failures_since (outcomes : list (option Z)) : list Z :=
  omap (λ o : option Z, o) (take_while isSome (reverse outcomes)).

Lemma breaker_run_snoc os o s :
  breaker_run (os ++ [o]) s =
  match o with
  | Some t => record_failure t (breaker_run os s)
  | None => record_success (breaker_run os s)
  end.
Proof. revert s; induction os as [|[] os IH]; intros s; simpl; [by destruct o|..]; apply IH. Qed.

Lemma failures_since_snoc os o :
  failures_since (os ++ [o]) =
  match o with Some t => t :: failures_since os | None => [] end.
Proof. unfold failures_since. rewrite reverse_snoc. by destruct o. Qed.

Lemma failures_since_le os : (length (failures_since os) ≤ length os)%nat.
Proof.
  induction os as [|o os IH] using rev_ind; [done|].
  rewrite failures_since_snoc, length_app. destruct o; simpl; lia.
Qed.

Lemma breaker_run_state os :
  Z.of_nat (length os) < u64_bound →
  let s := breaker_run os ProviderState_new in
  consecutive_failures s = Z.of_nat (length (failures_since os)) ∧
  (failures_since os ≠ [] → last_failure s = head (failures_since os)).
Proof.
  induction os as [|o os IH] using rev_ind; [done|].
  rewrite length_app, breaker_run_snoc, failures_since_snoc; simpl. intros Hlen.
  destruct (IH ltac:(lia)) as [Hc _]. destruct o as [t|]; simpl; [|done].
  rewrite Hc. split; [|done]. unfold wrap. pose proof (failures_since_le os).
  rewrite Z.mod_small by lia. lia.
Qed.

(** The breaker of a provider is open exactly when its last three or more
    calls failed and the latest failure is less than a minute old; after the
    minute one test call is let through with a clean count. *)
Theorem breaker_open_iff (outcomes : list (option Z)) (now : Z) :
  Z.of_nat (length outcomes) < u64_bound →
  let s := breaker_run outcomes ProviderState_new in
  ((is_tripped now s).1 = true ↔
     (3 ≤ length (failures_since outcomes))%nat ∧
     ∃ t, head (failures_since outcomes) = Some t ∧ now - t < secs 60) ∧
  ((is_tripped now s).1 = false → consecutive_failures (is_tripped now s).2 < 3).
Proof.
  intros Hlen s. destruct (breaker_run_state _ Hlen) as [Hc Hl]. fold s in Hc, Hl.
  split; [|apply is_tripped_false].
  unfold is_tripped. rewrite Hc.
  destruct (failures_since outcomes) as [|t fs]; [split; [done|intros [? _]; simpl in *; lia]|].
  rewrite Hl by done. simpl.
  destruct (Z.ltb_spec (Z.of_nat (S (length fs))) 3); [split; [done|lia]|].
  destruct (Z.ltb_spec (now - t) (secs 60)); simpl.
  - split; [|done]. intros _. split; [lia|]. by exists t.
  - split; [done|]. intros (_ & t' & [= ->] & ?). lia.
Qed.

(** ** The two lists of context-window patterns *)

Lemma contains_trans p q s : contains p q = true → contains q s = true → contains p s = true.
Proof.
  rewrite !contains_spec. intros (u & v & ->) (u' & v' & ->).
  exists (u' ++ u), (v ++ v'). by rewrite <- !app_assoc.
Qed.

(** Every pattern of [ps] has one of [qs] inside. *)
Definition patterns_within (ps qs : list str) : bool :=
  forallb (λ p, existsb (λ q, contains q p) qs) ps.

Lemma any_pattern_within ps qs s :
  patterns_within ps qs = true → any_pattern ps s = true → any_pattern qs s = true.
Proof.
  unfold patterns_within, any_pattern. rewrite forallb_true, !existsb_true, Forall_forall.
  intros Hw (p & Hp & Hs). apply Hw in Hp. apply existsb_true in Hp as (q & Hq & Hqp).
  exists q. split; [done|]. by eapply contains_trans.
Qed.

(** The runner and the chain agree on context-window errors, although they
    keep different pattern lists; such an error is never failed over. *)
Theorem context_window_agree `{Unicode} (err : str) :
  (classify_error err = ContextWindow ↔ is_context_window_error err = true) ∧
  (is_context_window_error err = true → should_failover (classify_error err) = false).
Proof.
  assert (any_pattern CONTEXT_WINDOW_PATTERNS (to_lowercase err) = is_context_window_error err) as Ha.
  { apply eq_true_iff_eq. split; apply any_pattern_within; vm_compute; reflexivity. }
  unfold classify_error. rewrite Ha.
  destruct (is_context_window_error err); [done|]. split; [|done].
  repeat (destruct (any_pattern _ _); [done|]). done.
Qed.

(** * Witnesses *)

Section witness.
Local Existing Instance ascii_unicode.

Definition demo_provider (n : string) (r : result nat str) : LlmProvider :=
  {| name := n; id := n;
     tracked := default_tracked {| pi_name := n; pi_id := n |} (λ t, (r, t + 1));
     stream := λ t, {| s_events := [(t, Error (output := unit) (usage := unit) (raw := unit) "HTTP 429")];
                       s_end := t |} |}.

Definition demo_chain : list ChainEntry :=
  chain_new [demo_provider "a" (Err (lit "HTTP 503")); demo_provider "b" (Ok 7%nat)].

Lemma complete_spec_witness :
  demo_chain ≠ [] ∧
  (complete_with_options_tracked demo_chain 0).1.1 = Ok 7%nat ∧
  (complete_with_options_tracked demo_chain 0).1.2 ≠ [].
Proof.
  split; [discriminate|]. split; [vm_compute; reflexivity|].
  pose proof (complete_spec demo_chain 0 ltac:(discriminate)) as Hs.
  destruct (all_tripped 0 demo_chain) as [fp ch].
  destruct (complete_with_options_tracked demo_chain 0) as [[r cs] ch'].
  exact (proj1 Hs).
Defined.

Example demo_stream :
  stream_with_tools_and_options demo_chain 0 =
  [Error (lit "all providers in failover chain failed: a: HTTP 429; b: HTTP 429")].
Proof. vm_compute. reflexivity. Qed.
End witness.

Lemma breaker_open_iff_witness :
  (is_tripped 5 (breaker_run [Some 1; None; Some 2; Some 3; Some 4] ProviderState_new)).1 = true.
Proof.
  refine (proj2 (proj1 (breaker_open_iff [Some 1; None; Some 2; Some 3; Some 4] 5 _)) _).
  - vm_compute. reflexivity.
  - split; [vm_compute; lia|]. exists 4. split; [reflexivity|vm_compute; reflexivity].
Defined.
