(* ===== verification/StreamLoop.v ===== *)
(** The agent loop of a chat turn, which reads the model's answer as a stream.

    Models [run_agent_loop_streaming_with_limits] of [crates/agents/src/runner/streaming.rs], with
    [streaming_tool_call_message_content] of [helpers.rs], and the part of
    [crates/chat/src/run_with_tools.rs] that runs it: once on the registry of the turn, and once more
    on a compacted history when the context window is exceeded.

    The loop shares its state, its monad and most of its steps with the loop of [AgentLoop]: the
    prompt, the hooks, the batch of calls, the retries.  Of its own it has the events of the stream,
    from which text, reasoning and calls are assembled, what it does with reasoning, and the notes of
    the user that are put in after a batch.  A stream is a finite list of events of [ProviderChain];
    one that just ends counts as complete, as in the source.  The timeout of a turn drops the loop
    between two events: what it has done until then is a prefix of a trace of this file.

    Theorems: the loop returns ([streaming_loop_returns]), runs only what the registry gives out, the
    schemas accept and the hooks let through ([streaming_loop_gates]), answers every call
    ([streaming_loop_answers_calls]), and an untrusted turn runs only reviewed tools
    ([public_turn_runs_reviewed_tools]). *)
From S2P Require Import Prelude Utf8 ToolArgs ToolParsing Sanitize Hooks LoopDetector Retry Json Policy ToolRegistry Messages ContextBudget AgentLoop AgentRun.
From S2P Require ProviderChain.
Local Open Scope nat_scope.

(** * The stream *)

(** The events that [ProviderChain] takes together as output. *)
Inductive StreamOutput :=
| Delta (t : str)
| ReasoningDelta (t : str)
| StreamedCallStart (id name : str) (index : nat) (metadata : option (list (str * json)))
| ToolCallArgumentsDelta (index : nat) (delta : str)
| ToolCallComplete (index : nat).

Notation StreamEvent := (ProviderChain.StreamEvent (usage := Usage) (raw := json) (output := StreamOutput)).
Notation TrackedStreamEvent := (ProviderChain.TrackedStreamEvent (usage := Usage) (raw := json) (output := StreamOutput)).

(** What is accumulated. *)
Record Accumulated := {
  accumulated_text : str;
  accumulated_reasoning : str;
  streamed_calls : list ToolCall;
  tool_call_args : gmap nat str;             (** stream index to arguments *)
  stream_idx_to_vec_pos : gmap nat nat;      (** stream index to position among the calls *)
  stream_usage : Usage;
}.
Definition nothing_yet : Accumulated :=
  {| accumulated_text := []; accumulated_reasoning := []; streamed_calls := []; tool_call_args := ∅;
     stream_idx_to_vec_pos := ∅; stream_usage := Usage_default |}.

Definition add_output (a : Accumulated) (o : StreamOutput) : Accumulated * list RunnerEvent :=
  match o with
  | Delta t =>
      ({| accumulated_text := accumulated_text a ++ t; accumulated_reasoning := accumulated_reasoning a;
          streamed_calls := streamed_calls a; tool_call_args := tool_call_args a;
          stream_idx_to_vec_pos := stream_idx_to_vec_pos a; stream_usage := stream_usage a |},
       [TextDelta t; FinalText t])
  | ReasoningDelta t =>
      ({| accumulated_text := accumulated_text a; accumulated_reasoning := accumulated_reasoning a ++ t;
          streamed_calls := streamed_calls a; tool_call_args := tool_call_args a;
          stream_idx_to_vec_pos := stream_idx_to_vec_pos a; stream_usage := stream_usage a |},
       [ThinkingText (accumulated_reasoning a ++ t)])
  | StreamedCallStart i n index md =>
      let tc := {| ToolParsing.id := i; ToolParsing.name := n; call_arguments := JObject [];
                   argument_diagnostic := None; metadata := md |} in
      ({| accumulated_text := accumulated_text a; accumulated_reasoning := accumulated_reasoning a;
          streamed_calls := streamed_calls a ++ [tc]; tool_call_args := <[index := []]> (tool_call_args a);
          stream_idx_to_vec_pos := <[index := length (streamed_calls a)]> (stream_idx_to_vec_pos a);
          stream_usage := stream_usage a |}, [])
  | ToolCallArgumentsDelta index delta =>
      ({| accumulated_text := accumulated_text a; accumulated_reasoning := accumulated_reasoning a;
          streamed_calls := streamed_calls a; tool_call_args := alter (λ args, args ++ delta) index (tool_call_args a);
          stream_idx_to_vec_pos := stream_idx_to_vec_pos a; stream_usage := stream_usage a |}, [])
  | ToolCallComplete _ => (a, [])
  end.
Definition set_stream_usage (a : Accumulated) (u : Usage) : Accumulated :=
  {| accumulated_text := accumulated_text a; accumulated_reasoning := accumulated_reasoning a;
     streamed_calls := streamed_calls a; tool_call_args := tool_call_args a;
     stream_idx_to_vec_pos := stream_idx_to_vec_pos a; stream_usage := u |}.

(** The loop over the stream: what it accumulates, what it reports, and the error that ended it. *)
Fixpoint consume (a : Accumulated) (events : list TrackedStreamEvent) : Accumulated * list RunnerEvent * option str :=
  match events with
  | [] => (a, [], None)
  | ProviderChain.Attempt (ProviderChain.Started _) :: events => consume a events
  | ProviderChain.Attempt (ProviderChain.Failed _ _) :: events => consume (set_stream_usage a Usage_default) events
  | ProviderChain.Event (ProviderChain.Output o) :: events =>
      let '(a, reported) := add_output a o in
      let '(a, rest, error) := consume a events in
      (a, reported ++ rest, error)
  | ProviderChain.Event (ProviderChain.ProviderRaw _) :: events => consume a events
  | ProviderChain.Event (ProviderChain.Done u) :: events => consume (set_stream_usage a u) events
  | ProviderChain.Event (ProviderChain.Error msg) :: _ => (a, [], Some msg)
  end.

(** What a round of the streaming loop meets: of [round_env] all but [complete]; the events of the
    answer; and what is in the inbox when it is drained. *)
Record StreamEnv := {
  round_env : RoundEnv;
  stream : list ChatMessage → list json → AgentToolControls → list TrackedStreamEvent;
  steer_inbox : list str;
}.

(** The answer as it goes on: the variables that the fallbacks change. *)
Record Streamed := {
  s_text : str;
  s_reasoning : str;
  s_calls : list ToolCall;
  s_usage : Usage;
}.
Definition with_streamed (r : Streamed) (t : str) (tcs : list ToolCall) : Streamed :=
  {| s_text := t; s_reasoning := s_reasoning r; s_calls := tcs; s_usage := s_usage r |}.

Section run.
Context `{Unicode} `{SerdeJson} `{JsonDisplay} `{FloatFormat} (hash_str : str → Z) (data_dir : str).
Context (setup : RunSetup).

(** The arguments of each call, decoded.  A position belongs to one index, so that the order in which
    the map is gone through makes no difference. *)
Definition finalize_args (a : Accumulated) : list ToolCall :=
  foldl (λ calls '(index, args),
    match stream_idx_to_vec_pos a !! index with
    | Some pos =>
        let decoded := decode_tool_call_arguments_from_str args in
        alter (λ tc, {| ToolParsing.id := ToolParsing.id tc; ToolParsing.name := ToolParsing.name tc;
                        call_arguments := ToolArgs.arguments decoded; argument_diagnostic := ToolArgs.diagnostic decoded;
                        metadata := metadata tc |}) pos calls
    | None => calls
    end) (streamed_calls a) (map_to_list (tool_call_args a)).

Definition ask_stream (env : StreamEnv) (schemas : list json) : M Streamed :=
  ms ← gets messages;
  _ ← modify (act [Ask ms schemas]);
  let '(a, reported, error) := consume nothing_yet (stream env ms schemas (controls setup)) in
  _ ← modify (act (map Emit reported));
  _ ← emit ThinkingDone;
  match error with
  | Some msg => provider_failed msg
  | None => mret {| s_text := accumulated_text a; s_reasoning := accumulated_reasoning a;
                    s_calls := finalize_args a; s_usage := stream_usage a |}
  end.

(** ** Calls in the text *)

Definition stream_text_fallback (env : RoundEnv) (r : Streamed) : Streamed :=
  if negb (is_nonempty (s_calls r)) && is_nonempty (s_text r) then
    let '(parsed, remaining) := parse_tool_calls_from_text (text_uuid env) (s_text r) in
    if is_nonempty parsed then with_streamed r (unwrap_or [] remaining) parsed else r
  else r.

Definition stream_retry_malformed (env : RoundEnv) (r : Streamed) : M unit :=
  n ← gets malformed_retry_count;
  when (negb (is_nonempty (s_calls r)) && looks_like_failed_tool_call (text_uuid env) (Some (s_text r)) && (n =? 0))
    (_ ← modify bump_malformed;
     _ ← modify (push (assistant (s_text r)));
     _ ← modify (push (user MALFORMED_TOOL_RETRY_PROMPT));
     continue).

Definition stream_xml_fallback (env : RoundEnv) (r : Streamed) : Streamed :=
  if negb (supports_tools (provider setup)) && negb (is_nonempty (s_calls r)) && is_nonempty (s_text r) then
    let '(cleaned, recovered) := recover_tool_calls_from_content (xml_uuid env) (s_text r) in
    if is_nonempty recovered then with_streamed r cleaned recovered else r
  else r.

Definition stream_force_command (env : RoundEnv) (r : Streamed) : M Streamed :=
  it ← gets iterations;
  n ← gets total_tool_calls;
  reg ← gets registry;
  mret (match s_calls r, explicit_command setup with
        | [], Some command =>
            if (it =? 1) && (n =? 0) && isSome (ToolRegistry.get reg "exec")
            then with_streamed r (s_text r) [forced_call env command] else r
        | _, _ => r
        end).

(** The content of the message of a batch, and the text that is kept as the answer. *)
Definition streaming_tool_call_message_content (last text_ reasoning_ : str) : str * option str :=
  if is_nonempty reasoning_ then (last, Some reasoning_)
  else if is_nonempty text_ then (text_, Some text_)
  else (last, None).

Definition stream_retry_unnamed (r : Streamed) : M unit :=
  match find_empty_tool_name_call (s_calls r) with
  | None => mret tt
  | Some tc =>
      n ← gets empty_tool_name_retry_count;
      when (negb (has_named_tool_call (s_calls r)) && (n =? 0))
        (_ ← modify bump_unnamed;
         last ← gets last_answer_text;
         let '(last, content) := streaming_tool_call_message_content last (s_text r) (s_reasoning r) in
         _ ← modify (set_answer last);
         _ ← modify (push (assistant (unwrap_or [] content)));
         _ ← modify (push (user (empty_tool_name_retry_prompt tc)));
         continue)
  end.

(** ** No calls: go on or finish *)

Definition stream_without_calls (r : Streamed) : M unit :=
  n ← gets total_tool_calls;
  k ← gets auto_continue_count;
  if negb (is_substantive_answer_text (s_text r)) && (0 <? n) &&
     (agent_auto_continue_min_tool_calls (config setup) <=? n) && (k <? agent_max_auto_continues (config setup))
  then
    _ ← modify bump_auto;
    it ← gets iterations;
    _ ← emit (AutoContinue it (max_iterations setup));
    _ ← when (is_nonempty (s_text r)) (modify (push (assistant (s_text r))));
    _ ← modify (push (user AUTO_CONTINUE_NUDGE));
    continue
  else
    last ← gets last_answer_text;
    if negb (is_nonempty (s_text r)) && is_nonempty last then
      _ ← modify (set_answer []);
      match clean_response last with
      | None => leave Panicked
      | Some streamed_final_text =>
          _ ← when (is_nonempty streamed_final_text) (emit (FinalText streamed_final_text));
          s ← gets (λ s, s);
          leave (finish_agent_run s last)
      end
    else
      s ← gets (λ s, s);
      leave (finish_agent_run s (s_text r)).

(** ** A batch *)

Definition steering_note (texts : list str) : str :=
  lit "[Steering note from the user " ++ [8212%N] ++ lit " adjust your approach accordingly]: " ++ join [ch_newline] texts.

Definition drain_steering (env : StreamEnv) : M unit :=
  when (is_nonempty (steer_inbox env)) (modify (push (System (steering_note (steer_inbox env))))).

Definition stream_with_calls (env : StreamEnv) (r : Streamed) : M unit :=
  last ← gets last_answer_text;
  let '(last, content) := streaming_tool_call_message_content last (s_text r) (s_reasoning r) in
  _ ← modify (set_answer last);
  _ ← match content with
      | Some t => emit (if is_nonempty (s_reasoning r) then ThinkingText t else ProgressText t)
      | None => mret tt
      end;
  _ ← (_ ← modify (push (Assistant content (s_calls r) None));
       run_batch hash_str setup (round_env env) (s_calls r));
  drain_steering env.

(** ** One round *)

Definition after_stream (env : StreamEnv) (it : nat) (r : Streamed) : M unit :=
  _ ← modify (λ s, set_usage (record_request (usage_accumulator s) (s_usage r)) s);
  let r := stream_text_fallback (round_env env) r in
  _ ← stream_retry_malformed (round_env env) r;
  r ← stream_force_command (round_env env) (stream_xml_fallback (round_env env) r);
  _ ← stream_retry_unnamed r;
  _ ← dispatch_after_llm_call_hook setup (round_env env)
        (if is_nonempty (s_text r) then Some (s_text r) else None) (s_calls r) (s_usage r) it;
  if is_nonempty (s_calls r) then stream_with_calls env r else stream_without_calls r.

Definition stream_round (env : StreamEnv) : M unit :=
  r ← open_round data_dir setup (round_env env);
  streamed ← ask_stream env r.2;
  after_stream env r.1 streamed.
End run.

(** * A run *)

Section start.
Context `{Unicode} `{SerdeJson} `{JsonDisplay} `{FloatFormat} (hash_str : str → Z) (data_dir : str).
Context (tool_choice_from_value : json → option ToolChoice) (binding_from_value : json → option ChannelBinding).

(** [run_agent_loop_streaming_with_limits], for [fuel] rounds at most. *)
Definition run_agent_loop_streaming_with_limits (start_hook : HookPayload → result HookAction str)
    (envs : nat → StreamEnv) (fuel : nat) (cfg : AgentConfig) (p : Provider) (tools : ToolRegistry)
    (system_prompt : str) (content : UserContent) (history : option (list ChatMessage))
    (tool_context : option json) (hooks : bool) (sender_name : option str) (limit : option nat)
    : RunState * option Outcome :=
  let setup := setup_run tool_choice_from_value binding_from_value cfg p hooks tool_context content limit in
  let s := initial_state cfg tools system_prompt content history sender_name in
  match dispatch_before_agent_start_hook setup start_hook s with
  | (s', Leave o) => (s', Some o)
  | (s', _) => rounds_of (λ i, stream_round hash_str data_dir setup (envs i)) fuel 0 s'
  end.

(** What one run of the loop meets. *)
Record AttemptEnv := {
  start_hook : HookPayload → result HookAction str;
  round_envs : nat → StreamEnv;
  attempt_fuel : nat;
}.

(** The run of a turn, and the second one on the compacted history, if there is a private context, a
    store and a compaction that succeeds.  The second finds activated what the first did activate.
    What was done is that of both. *)
Definition run_turn (first second : AttemptEnv) (private_context : bool)
    (compacted : option (option (list ChatMessage)))
    (cfg : AgentConfig) (p : Provider) (filtered_registry : ToolRegistry) (system_prompt : str) (content : UserContent)
    (history : option (list ChatMessage)) (tool_context : option json) (hooks : bool) (sender_name : option str)
    (limit : option nat) : list Action * option Outcome :=
  let attempt e tools hist := run_agent_loop_streaming_with_limits (start_hook e) (round_envs e) (attempt_fuel e) cfg p
    tools system_prompt content hist tool_context hooks sender_name limit in
  let '(s, o) := attempt first filtered_registry history in
  match o, compacted with
  | Some (Returned (Err (ContextWindowExceeded _))), Some retry_hist =>
      if private_context
      then let '(s', o') := attempt second (registry s) retry_hist in (trace s ++ trace s', o')
      else (trace s, o)
  | _, _ => (trace s, o)
  end.
End start.

(** * Facts *)

(** ** The loop returns *)

Section clock.
Context `{Unicode} `{SerdeJson} `{JsonDisplay} `{FloatFormat} (hash_str : str → Z) (data_dir : str) (setup : RunSetup).

Ltac clock_tac :=
  steps_tac; try (apply clock_modify; intros; simpl; rewrite ?asks_app; simpl; split_and!; first [done|lia|apply Nat.add_0_r]).
#[local] Hint Resolve consult_clock emit_clock after_llm_clock run_batch_clock : steps.

Lemma stream_retry_malformed_clock env r : steps (same clock) (stream_retry_malformed env r).
Proof. unfold stream_retry_malformed. clock_tac. Qed.
Lemma stream_force_clock env r : steps (same clock) (stream_force_command setup env r).
Proof. unfold stream_force_command. clock_tac. Qed.
Lemma stream_retry_unnamed_clock r : steps (same clock) (stream_retry_unnamed r).
Proof. unfold stream_retry_unnamed. clock_tac. Qed.
Lemma stream_without_calls_clock r : steps (same clock) (stream_without_calls setup r).
Proof. unfold stream_without_calls. clock_tac. Qed.
Lemma stream_with_calls_clock env r : steps (same clock) (stream_with_calls hash_str setup env r).
Proof. unfold stream_with_calls, drain_steering. clock_tac. Qed.
#[local] Hint Resolve stream_retry_malformed_clock stream_force_clock stream_retry_unnamed_clock stream_without_calls_clock
  stream_with_calls_clock : steps.

Lemma after_stream_clock env it r : steps (same clock) (after_stream hash_str setup env it r).
Proof. unfold after_stream. clock_tac. Qed.

Lemma asks_emits l : asks (map Emit l) = 0.
Proof. by induction l. Qed.

Lemma ask_stream_clock env schemas s s' f :
  budget_ok (retries s) → ask_stream setup env schemas s = (s', f) →
  asks (trace s') = asks (trace s) + 1 ∧ asked s s' f.
Proof.
  intros Hb. unfold ask_stream. unfold mbind at 1, M_bind at 1, gets at 1. unfold mbind at 1, M_bind at 1, modify at 1.
  destruct (consume _ _) as [[a reported] error]. unfold emit. do 2 (unfold mbind at 1, M_bind at 1, modify at 1).
  set (s1 := act [Emit ThinkingDone] _).
  assert (Ha : asks (trace s1) = asks (trace s) + 1) by (unfold s1; cbn [act trace]; rewrite !asks_app, asks_emits; unfold asks; simpl; lia).
  destruct error as [msg|].
  - intros E. destruct (provider_failed_clock msg s1 s' f Hb E) as [-> Hf]. by split.
  - intros [= <- <-]. by split.
Qed.

Lemma stream_round_clock env s s' f :
  budget_ok (retries s) → stream_round hash_str data_dir setup env s = (s', f) → cost setup s s' f.
Proof.
  intros Hb. apply (round_cost hash_str data_dir setup (round_env env) (ask_stream setup env) (after_stream hash_str setup env)); [done| |].
  - intros schemas ???. apply ask_stream_clock.
  - intros. apply after_stream_clock.
Qed.
End clock.

(** ** What runs *)

Section gate.
Context `{Unicode} `{SerdeJson} `{JsonDisplay} `{FloatFormat} (hash_str : str → Z) (data_dir : str) (setup : RunSetup).
Context (r0 : ToolRegistry).

Ltac quiet_tac :=
  steps_tac; try (apply quiet_modify; intros; simpl; split; [done|];
                  first [exists []; by rewrite app_nil_r | by eexists]).
#[local] Hint Resolve consult_right emit_right open_round_right provider_failed_right run_batch_right : steps.

Lemma ask_stream_right env schemas : steps (runs_right setup r0) (ask_stream setup env schemas).
Proof.
  unfold ask_stream. quiet_tac. apply quiet_modify. intros s. simpl. split; [done|]. eexists. split; [done|].
  clear. by induction l.
Qed.
#[local] Hint Resolve ask_stream_right : steps.

Lemma stream_with_calls_right env r : steps (runs_right setup r0) (stream_with_calls hash_str setup env r).
Proof. unfold stream_with_calls, drain_steering. quiet_tac. Qed.
#[local] Hint Resolve stream_with_calls_right : steps.

Lemma stream_round_right env : steps (runs_right setup r0) (stream_round hash_str data_dir setup env).
Proof.
  unfold stream_round, after_stream, stream_retry_malformed, stream_force_command, stream_retry_unnamed,
    dispatch_after_llm_call_hook, stream_without_calls.
  quiet_tac.
Qed.
End gate.

(** ** What the history becomes *)

Section pairing.
Context `{Unicode} `{SerdeJson} `{JsonDisplay} `{FloatFormat} (hash_str : str → Z) (data_dir : str) (setup : RunSetup).
Context (base : list (str + list str)).

Ltac blocks_tac :=
  steps_tac; try (apply steps_modify; intros;
    first [ eapply (adds_blocks _ _ []); [simpl; by rewrite app_nil_r| |]
          | eapply (adds_blocks _ _ [[]]); [simpl; by rewrite map_app| |] ];
    first [by rewrite app_nil_r | done]).
#[local] Hint Extern 0 (skeleton _ = inr _) => reflexivity : steps.
#[local] Hint Resolve eq_refl run_batch_blocks consult_blocks emit_blocks open_round_blocks provider_failed_blocks after_llm_blocks : steps.

Lemma ask_stream_blocks env schemas : steps (keeps_blocks data_dir base) (ask_stream setup env schemas).
Proof.
  unfold ask_stream. apply steps_bind_gets. intros s. unfold mbind at 1, M_bind at 1, modify at 1.
  transitivity (act [Ask (messages s) schemas] s); [apply ask_blocks|].
  match goal with |- keeps_blocks _ _ ?t (?m ?t).1 => enough (steps (keeps_blocks data_dir base) m) as Hs by apply Hs end.
  blocks_tac. apply steps_modify. intros s1.
  match goal with |- context [map Emit ?l] => apply (adds_blocks _ _ [] _ _ (map Emit l)) end;
    [simpl; by rewrite app_nil_r|done|clear; by induction l].
Qed.
#[local] Hint Resolve ask_stream_blocks : steps.

Lemma stream_with_calls_blocks env r : steps (keeps_blocks data_dir base) (stream_with_calls hash_str setup env r).
Proof. unfold stream_with_calls, drain_steering. blocks_tac. Qed.
#[local] Hint Resolve stream_with_calls_blocks : steps.

Lemma stream_round_blocks env : steps (keeps_blocks data_dir base) (stream_round hash_str data_dir setup env).
Proof.
  unfold stream_round, after_stream, stream_retry_malformed, stream_force_command, stream_retry_unnamed, stream_without_calls.
  blocks_tac.
Qed.
End pairing.

(** * Theorems *)

Section theorems.
Context `{Unicode} `{SerdeJson} `{JsonDisplay} `{FloatFormat} (hash_str : str → Z) (data_dir : str).
Context (tool_choice_from_value : json → option ToolChoice) (binding_from_value : json → option ChannelBinding).
Context (cfg : AgentConfig) (p : Provider) (system_prompt : str) (content : UserContent)
        (tool_context : option json) (hooks : bool) (sender_name : option str) (limit : option nat).

Let setup := setup_run tool_choice_from_value binding_from_value cfg p hooks tool_context content limit.
Let start tools history := initial_state cfg tools system_prompt content history sender_name.
Let run (e : AttemptEnv) tools history := run_agent_loop_streaming_with_limits hash_str data_dir tool_choice_from_value
  binding_from_value (start_hook e) (round_envs e) (attempt_fuel e) cfg p tools system_prompt content history tool_context
  hooks sender_name limit.

(** A run is the hook of its start and its rounds. *)
Lemma stream_run_inv (R : relation RunState) `{!PreOrder R} e tools history :
  steps R (dispatch_before_agent_start_hook setup (start_hook e)) →
  (∀ i, steps R (stream_round hash_str data_dir setup (round_envs e i))) → R (start tools history) (run e tools history).1.
Proof.
  intros Hs Hr. unfold run, run_agent_loop_streaming_with_limits. fold (start tools history) setup.
  specialize (Hs (start tools history)).
  destruct (dispatch_before_agent_start_hook setup (start_hook e) (start tools history)) as [s' [a| |o]]; simpl in *; [..|done];
    (etrans; [exact Hs|by apply steps_rounds]).
Qed.

(** A run of the streaming loop returns, within the iterations of its configuration and the eleven
    retries, whatever the streams bring. *)
Theorem streaming_loop_returns e tools history :
  resolve_max_iterations cfg limit + 11 < attempt_fuel e →
  ∃ s o, run e tools history = (s, Some o) ∧ asks (trace s) ≤ resolve_max_iterations cfg limit + 11.
Proof.
  intros Hf. unfold run, run_agent_loop_streaming_with_limits. fold (start tools history) setup.
  change (resolve_max_iterations cfg limit) with (max_iterations setup) in Hf |- *.
  exact (run_returns setup (λ i, stream_round hash_str data_dir setup (round_envs e i)) (start_hook e) (attempt_fuel e)
    (start tools history) (λ i, stream_round_clock _ _ _ _) eq_refl Hf).
Qed.

(** Every tool that ran was gated, and whatever is activated came about from what ran. *)
Lemma stream_run_gated r0 e tools history :
  ran r0 tools → gated setup r0 (trace (run e tools history).1) ∧ ran r0 (registry (run e tools history).1).
Proof.
  intros Hr0. destruct (stream_run_inv (runs_right setup r0) e tools history) as (Hr & l & El & Hl).
  - unfold dispatch_before_agent_start_hook. apply (steps_bind _ _ _); [apply consult_right|]. intros []; steps_tac.
  - intros i. apply stream_round_right.
  - exact Hr0.
  - simpl in El. by rewrite El.
Qed.

(** What a run of the streaming loop executes: a tool that the registry gave out, or what was
    activated in it, not hidden by the turn, on arguments that conform to its schema, which the hook
    of this very call saw and let through. *)
Theorem streaming_loop_gates e tools history pre t name args post :
  trace (run e tools history).1 = pre ++ Run t name args :: post → call_ok setup tools pre t name args.
Proof. intros Ht. apply (proj1 (stream_run_gated tools e tools history (ran_nothing _)) _ _ _ _ post Ht). Qed.

(** Every prompt of the streaming loop, and the history it ends with, consists of complete blocks. *)
Theorem streaming_loop_answers_calls e tools history :
  let initial := map skeleton ([System system_prompt] ++ unwrap_or [] history ++ [User content sender_name]) in
  let tr := trace (run e tools history).1 in
  complete_blocks data_dir initial tr (messages (run e tools history).1) ∧
  ∀ pre ms schemas post, tr = pre ++ Ask ms schemas :: post → complete_blocks data_dir initial pre ms.
Proof.
  intros initial tr. apply (stream_run_inv (keeps_blocks data_dir initial) e tools history).
  - unfold dispatch_before_agent_start_hook. apply (steps_bind _ _ _); [by apply consult_blocks|]. intros []; steps_tac.
  - intros i. apply stream_round_blocks.
  - split; [exists []; simpl; by rewrite app_nil_r|]. simpl. by intros [|? ?] ? ? ? ?.
Qed.

(** What runs in a turn, in either of its runs. *)
Lemma turn_gated r0 first second private_context compacted history :
  gated setup r0 (run_turn hash_str data_dir tool_choice_from_value binding_from_value first second private_context compacted
    cfg p r0 system_prompt content history tool_context hooks sender_name limit).1.
Proof.
  unfold run_turn. fold (run first r0 history).
  destruct (stream_run_gated r0 first r0 history (ran_nothing _)) as [Hg Hr].
  destruct (run first r0 history) as [s o]. simpl in Hg, Hr.
  destruct o as [[[|[m|m]]|]|]; try done. destruct compacted as [retry_hist|]; [|done]. destruct private_context; [|done].
  fold (run second (registry s) retry_hist). destruct (stream_run_gated r0 second (registry s) retry_hist Hr) as [Hg2 _].
  destruct (run second (registry s) retry_hist) as [s' o']. by apply gated_app.
Qed.

(** C3. An untrusted turn executes nothing but reviewed tools.  Its loop, the streaming one, on the
    registry made for it, runs, whatever the streams of the model ask for and whatever was searched
    and activated before: the search tool of a lazy registry, or a tool registered under the name it
    runs by as a built-in for public use, allowed by the request's policy and, when tools are
    enabled, by the effective policy of the run. *)
Theorem public_turn_runs_reviewed_tools at_ install policy_from_value base params policy s first second compacted history
    t name args :
  built base →
  parse_request_tool_audience params = Ok ToolRegistry.Public →
  parse_request_tool_policy policy_from_value params = Ok policy →
  let filtered_registry := turn_registry at_ install s (allows_private_context params)
    (resolve_request_tool_registry base policy ToolRegistry.Public) in
  Run t name args ∈ (run_turn hash_str data_dir tool_choice_from_value binding_from_value first second
    (allows_private_context params) compacted cfg p filtered_registry system_prompt content history tool_context hooks
    sender_name limit).1 →
  (name = lit "tool_search" ∧ ¬ external t ∧ lazy_mode s = true) ∨
  ∃ e, ToolRegistry.tools base !! name = Some e ∧ t = tool e ∧
    audience e = ToolRegistry.Public ∧ source e = Builtin ∧
    (∀ q, policy = Some q → is_allowed q name = true) ∧
    (tools_enabled s = true →
     is_allowed (resolve_effective_policy at_ (ToolRegistry.config s) (policy_ctx s)) name = true).
Proof.
  intros Hb Ha Hp filtered [pre [post Hrun]]%list_elem_of_split.
  destruct (turn_gated _ _ _ _ _ _ _ _ _ _ _ Hrun) as ((r & Hr & Hg) & _). by eapply public_turn.
Qed.
End theorems.

(** ** Witnesses *)

Section witnesses.
Local Existing Instance ascii_unicode.
Local Existing Instance toy_format.
(** One object can be read. *)
Let SJ : SerdeJson :=
  {| from_str s := if str_eqb s "{calc}" then Ok (JObject [(lit "name", JString "calc")]) else Err (lit "bad");
     to_string _ := None |}.
Let JD : JsonDisplay := {| show_json := demo_show |}.
Local Existing Instance SJ.
Local Existing Instance JD.

Definition out (o : StreamOutput) : TrackedStreamEvent := ProviderChain.Event (ProviderChain.Output o).
Definition done : TrackedStreamEvent := ProviderChain.Event (ProviderChain.Done Usage_default).
Definition streamed_call (n args : string) : list TrackedStreamEvent :=
  [out (ReasoningDelta "hm"); out (StreamedCallStart "c1" n 1 None); out (ToolCallArgumentsDelta 1 args); out (ToolCallComplete 1)].

(** Fragments of two calls in turn, whose indices begin at one: each gets its own. *)
Example fragments_are_assembled :
  finalize_args (consume nothing_yet
    [out (Delta "Let me see."); out (StreamedCallStart "a" "calc" 1 None); out (ToolCallArgumentsDelta 1 "{ca");
     out (StreamedCallStart "b" "exec" 2 None); out (ToolCallArgumentsDelta 2 "{ca"); out (ToolCallArgumentsDelta 1 "lc}");
     out (ToolCallArgumentsDelta 7 "lost"); out (ToolCallArgumentsDelta 2 "lc}"); done]).1.1
  = map (λ '(i, n), {| ToolParsing.id := lit i; ToolParsing.name := lit n;
                       call_arguments := JObject [(lit "name", JString "calc")];
                       argument_diagnostic := None; metadata := None |}) [("a", "calc"); ("b", "exec")]%string.
Proof. vm_compute. reflexivity. Qed.

(** An untrusted turn: a provider that fails at once, a search, the calculator, and the answer. *)
Definition demo_stream (i : nat) : list TrackedStreamEvent :=
  match i with
  | 0 => [ProviderChain.Event (ProviderChain.Error "overloaded")]
  | 1 => streamed_call "tool_search" "{calc}"
  | 2 => streamed_call "calc" ""
  | _ => [out (Delta "It is "); out (Delta "two."); done]
  end.
Definition demo_attempt : AttemptEnv :=
  {| start_hook _ := Ok Continue; attempt_fuel := 16;
     round_envs i := {| round_env := demo_env i; stream _ _ _ := demo_stream i;
                        steer_inbox := if (i =? 1)%nat then [lit "hurry"] else [] |} |}.
Definition demo_stream_run : RunState * option Outcome :=
  run_agent_loop_streaming_with_limits (λ _, 0%Z) [] (λ _, None) (λ _, None) (start_hook demo_attempt) (round_envs demo_attempt)
    (attempt_fuel demo_attempt) demo_agent_config demo_provider demo_turn [] (UserText (lit "1+1?")) None None true None None.

Example demo_stream_result :
  ran_tools (trace demo_stream_run.1) = [lit "tool_search"; lit "calc"] ∧
  map (λ m, match m with System c => Some c | _ => None end) (messages demo_stream_run.1)
    = [Some []; None; None; None; Some (steering_note [lit "hurry"]); None; None] ∧
  match demo_stream_run.2 with Some (Returned (Ok r)) => run_text r = lit "It is two." | _ => False end.
Proof. split_and!; vm_compute; reflexivity. Qed.

(** Where the calculator ran. *)
Definition stream_calc_at : nat := length (take_while (λ a, negb (is_calc a)) (trace demo_stream_run.1)).

Lemma streaming_loop_returns_witness :
  ∃ s o, demo_stream_run = (s, Some o) ∧ asks (trace s) ≤ resolve_max_iterations demo_agent_config None + 11.
Proof.
  exact (streaming_loop_returns (λ _, 0%Z) [] (λ _, None) (λ _, None) demo_agent_config demo_provider [] (UserText (lit "1+1?"))
    None true None None demo_attempt demo_turn None (ltac:(apply Nat.ltb_lt; vm_compute; reflexivity))).
Defined.

Lemma public_turn_runs_reviewed_tools_witness :
  (lit "calc" = lit "tool_search" ∧ ¬ external (demo_tool "calc") ∧ lazy_mode demo_settings = true) ∨
  ∃ e, ToolRegistry.tools demo_base !! lit "calc" = Some e ∧ demo_tool "calc" = tool e ∧
    audience e = ToolRegistry.Public ∧ source e = Builtin ∧
    (∀ q, None = Some q → is_allowed q "calc" = true) ∧
    (tools_enabled demo_settings = true →
     is_allowed (resolve_effective_policy (λ _, None) (ToolRegistry.config demo_settings) (policy_ctx demo_settings)) "calc" = true).
Proof.
  refine (public_turn_runs_reviewed_tools (λ _, 0%Z) [] (λ _, None) (λ _, None) demo_agent_config demo_provider []
    (UserText (lit "1+1?")) None true None None (λ _, None) (λ r, r) (λ _, Err []) demo_base demo_public None demo_settings
    demo_attempt demo_attempt None None (demo_tool "calc") (lit "calc") (JObject []) _ _ _ _).
  - repeat constructor.
  - by vm_compute.
  - by vm_compute.
  - apply (list_elem_of_lookup_2 _ stream_calc_at). by vm_compute.
Defined.
End witnesses.
