(* ===== verification/LoginGuard.v ===== *)
(** Brute-force protection of the login endpoints.

    Models [crates/httpd/src/login_guard.rs]: IP bans with exponential back-off,
    account lockouts and the periodic cleanup.  The two concurrent maps are
    [gmap]s, an [Instant] is a number of nanoseconds, and operations run one at
    a time. *)
From S2P Require Import Prelude.
Local Open Scope Z_scope.

Definition IP_BAN_THRESHOLD : Z := 10.
Definition IP_BAN_BASE : Z := secs (5 * 60).
Definition IP_BAN_CAP : Z := secs (24 * 60 * 60).
Definition ACCOUNT_LOCKOUT_IP_THRESHOLD : nat := 3.
Definition ACCOUNT_LOCKOUT_WINDOW : Z := secs (15 * 60).
Definition ACCOUNT_LOCKOUT_DURATION : Z := secs (15 * 60).
Definition CLEANUP_EVERY : Z := 128.

Record IpRecord := {
  consecutive_failures : Z;   (** u32 *)
  ban_count : Z;              (** u32 *)
  banned_until : option Z;
  last_failure_at : Z;
}.

Inductive BlockReason :=
| IpBanned (retry_after : Z)
| AccountLocked (retry_after : Z).

Section guard.
Context {ip : Type} `{Countable ip}.

Record AccountRecord := {
  recent_ips : list (ip * Z);
  locked_until : option Z;
}.

Record LoginGuard := {
  ips : gmap ip IpRecord;
  accounts : gmap str AccountRecord;
  calls : Z;                  (** u64 *)
}.

Definition new : LoginGuard := {| ips := ∅; accounts := ∅; calls := 0 |}.

(** [now.duration_since(t)]: saturates at zero. *)
Definition duration_since (now t : Z) : Z := sat_sub now t.

Definition active (now : Z) (until : option Z) : bool := is_some_and (λ u, now <? u) until.

Definition check_at (g : LoginGuard) (i : ip) (account : str) (now : Z) : option BlockReason :=
  or_else
    (until ← ips g !! i ≫= banned_until;
     if now <? until then Some (IpBanned (duration_since until now)) else None)
    (until ← accounts g !! account ≫= locked_until;
     if now <? until then Some (AccountLocked (duration_since until now)) else None).

(** [(IP_BAN_BASE * (1u32 << (count - 1).min(10))).min(IP_BAN_CAP)], of the
    [count]-th ban. *)
Definition ban_duration (count : Z) : Z :=
  let multiplier := Z.shiftl 1 (Z.min (sat_sub count 1) 10) in
  Z.min (IP_BAN_BASE * multiplier) IP_BAN_CAP.

(** The update of the entry of the failing address. *)
Definition ip_failure (now : Z) (rec : option IpRecord) : IpRecord :=
  let e := unwrap_or {| consecutive_failures := 0; ban_count := 0; banned_until := None;
                        last_failure_at := now |} rec in
  let failures := wrap u32_bound (consecutive_failures e + 1) in
  if IP_BAN_THRESHOLD <=? failures then
    let count := wrap u32_bound (ban_count e + 1) in
    {| consecutive_failures := 0; ban_count := count;
       banned_until := Some (now + ban_duration count); last_failure_at := now |}
  else {| consecutive_failures := failures; ban_count := ban_count e;
          banned_until := banned_until e; last_failure_at := now |}.

Definition in_window (now : Z) (p : ip * Z) : bool :=
  duration_since now p.2 <? ACCOUNT_LOCKOUT_WINDOW.

Definition retain {A} (f : A → bool) (l : list A) : list A := filter (λ x, f x = true) l.

(** The update of the entry of the targeted account. *)
Definition account_failure (i : ip) (now : Z) (rec : option AccountRecord) : AccountRecord :=
  let e := unwrap_or {| recent_ips := []; locked_until := None |} rec in
  let recent := retain (in_window now) (recent_ips e) in
  let recent :=
    if existsb (λ p, bool_decide (p.1 = i)) recent then recent else recent ++ [(i, now)] in
  let distinct_ips : gset ip := list_to_set (map fst recent) in
  if (ACCOUNT_LOCKOUT_IP_THRESHOLD <=? size distinct_ips)%nat
  then {| recent_ips := []; locked_until := Some (now + ACCOUNT_LOCKOUT_DURATION) |}
  else {| recent_ips := recent; locked_until := locked_until e |}.

Definition keep_ip (now : Z) (rec : IpRecord) : bool :=
  active now (banned_until rec) ||
  (0 <? consecutive_failures rec) &&
  (duration_since now (last_failure_at rec) <? ACCOUNT_LOCKOUT_WINDOW).

Definition prune_account (now : Z) (rec : AccountRecord) : AccountRecord :=
  {| recent_ips := retain (in_window now) (recent_ips rec); locked_until := locked_until rec |}.

Definition keep_account (now : Z) (rec : AccountRecord) : bool :=
  is_nonempty (recent_ips rec) || active now (locked_until rec).

Definition cleanup (g : LoginGuard) (now : Z) : LoginGuard := {|
  ips := filter (λ p, keep_ip now p.2 = true) (ips g);
  accounts := filter (λ p, keep_account now p.2 = true) (prune_account now <$> accounts g);
  calls := calls g |}.

Definition record_failure_at (g : LoginGuard) (i : ip) (account : str) (now : Z) : LoginGuard :=
  let calls := wrap u64_bound (calls g + 1) in
  let g' := {| ips := <[i := ip_failure now (ips g !! i)]> (ips g);
               accounts := <[account := account_failure i now (accounts g !! account)]> (accounts g);
               calls := calls |} in
  if calls mod CLEANUP_EVERY =? 0 then cleanup g' now else g'.

Definition record_success (g : LoginGuard) (i : ip) : LoginGuard := {|
  ips := alter (λ rec, {| consecutive_failures := 0; ban_count := ban_count rec;
                          banned_until := None; last_failure_at := last_failure_at rec |}) i (ips g);
  accounts := accounts g;
  calls := calls g |}.

(** ** Runs *)

Inductive op :=
| Failure (i : ip) (account : str) (now : Z)
| Success (i : ip).

Definition step (g : LoginGuard) (o : op) : LoginGuard :=
  match o with
  | Failure i account now => record_failure_at g i account now
  | Success i => record_success g i
  end.
Definition run (g : LoginGuard) (ops : list op) : LoginGuard := foldl step g ops.

(** * Facts *)

(** What a ban record promises: banned at least until [u] by ban number [c] or a
    later one. *)
Definition banned (g : LoginGuard) (i : ip) (u c : Z) : Prop :=
  ∃ rec until, ips g !! i = Some rec ∧ banned_until rec = Some until ∧ u ≤ until ∧
    c ≤ ban_count rec ∧ 0 ≤ consecutive_failures rec.

Lemma ban_duration_mono c c' : c ≤ c' → ban_duration c ≤ ban_duration c'.
Proof.
  intros Hc. unfold ban_duration, sat_sub. apply Z.min_le_compat_r.
  rewrite !Z.shiftl_mul_pow2 by lia.
  assert (2 ^ Z.min (Z.max (c - 1) 0) 10 ≤ 2 ^ Z.min (Z.max (c' - 1) 0) 10)
    by (apply Z.pow_le_mono_r; lia).
  unfold IP_BAN_BASE, secs. lia.
Qed.

(** Bounds of the records after [n] operations. *)
Definition guard_ok (n : Z) (g : LoginGuard) : Prop :=
  ∀ i rec, ips g !! i = Some rec →
    0 ≤ consecutive_failures rec < IP_BAN_THRESHOLD ∧ 0 ≤ ban_count rec ≤ n.

Lemma new_ok : guard_ok 0 new.
Proof. intros i rec. unfold new; simpl. by rewrite lookup_empty. Qed.

(** One failure of an address with a record in bounds. *)
Lemma ip_failure_spec now rec n :
  0 ≤ n < u32_bound - 1 →
  (∀ r, rec = Some r → 0 ≤ consecutive_failures r < IP_BAN_THRESHOLD ∧ 0 ≤ ban_count r ≤ n) →
  let e := unwrap_or {| consecutive_failures := 0; ban_count := 0; banned_until := None;
                        last_failure_at := now |} rec in
  let e' := ip_failure now rec in
  0 ≤ consecutive_failures e' < IP_BAN_THRESHOLD ∧ 0 ≤ ban_count e' ≤ n + 1 ∧
  (consecutive_failures e + 1 = IP_BAN_THRESHOLD ∧ ban_count e' = ban_count e + 1 ∧
     banned_until e' = Some (now + ban_duration (ban_count e + 1))
   ∨ consecutive_failures e + 1 < IP_BAN_THRESHOLD ∧ ban_count e' = ban_count e ∧
     banned_until e' = banned_until e ∧ consecutive_failures e' = consecutive_failures e + 1).
Proof.
  intros Hn Hrec. unfold ip_failure. cbv zeta. set (e := unwrap_or _ rec).
  assert (0 ≤ consecutive_failures e < IP_BAN_THRESHOLD ∧ 0 ≤ ban_count e ≤ n) as [Hf Hb].
  { subst e. destruct rec as [r|]; simpl; [by apply Hrec|]. unfold IP_BAN_THRESHOLD. lia. }
  unfold wrap. rewrite !Z.mod_small by (unfold u32_bound, IP_BAN_THRESHOLD in *; lia).
  destruct (Z.leb_spec IP_BAN_THRESHOLD (consecutive_failures e + 1)); simpl.
  - repeat split; try lia. left. repeat split; lia.
  - repeat split; try lia. right. repeat split; lia.
Qed.

Lemma cleanup_ok n g now : guard_ok n g → guard_ok n (cleanup g now).
Proof. intros Hg i rec Hi. simpl in Hi. apply map_lookup_filter_Some in Hi as [Hi _]. by apply Hg in Hi. Qed.

Lemma record_failure_ok n g i account now :
  0 ≤ n < u32_bound - 1 → guard_ok n g → guard_ok (n + 1) (record_failure_at g i account now).
Proof.
  intros Hn Hg. unfold record_failure_at. set (g' := {| ips := _ |}).
  assert (guard_ok (n + 1) g') as Hg'.
  { intros j rec. subst g'; simpl. destruct (decide (i = j)) as [<-|].
    - rewrite lookup_insert_eq. intros [= <-].
      destruct (ip_failure_spec now (ips g !! i) n Hn) as (? & ? & _); [|done]. intros r. apply Hg.
    - rewrite lookup_insert_ne by done. intros Hj. apply Hg in Hj. lia. }
  destruct (_ =? 0); [|done]. by apply cleanup_ok.
Qed.

Lemma record_success_ok n g i : guard_ok n g → guard_ok (n + 1) (record_success g i).
Proof.
  intros Hg j rec. simpl. rewrite lookup_alter_Some.
  intros [(-> & r & Hj & ->)|[_ Hj]]; apply Hg in Hj; simpl; unfold IP_BAN_THRESHOLD in *; lia.
Qed.

Lemma run_ok ops n g :
  0 ≤ n → n + Z.of_nat (length ops) < u32_bound - 1 → guard_ok n g →
  guard_ok (n + Z.of_nat (length ops)) (run g ops).
Proof.
  revert n g; induction ops as [|o ops IH]; intros n g H0 Hn Hg; simpl in *.
  { by rewrite Z.add_0_r. }
  replace (n + Z.of_nat (S (length ops))) with (n + 1 + Z.of_nat (length ops)) by lia.
  apply IH; [lia|lia|]. destruct o; [apply record_failure_ok|apply record_success_ok]; try done; lia.
Qed.

Lemma cleanup_banned g i u c now : now < u → banned g i u c → banned (cleanup g now) i u c.
Proof.
  intros Hu (rec & until & Hi & Hb & ? & ? & ?). exists rec, until. split; [|done].
  apply map_lookup_filter_Some. split; [done|]. unfold keep_ip, active. simpl. rewrite Hb. simpl.
  by rewrite (proj2 (Z.ltb_lt now until)) by lia.
Qed.

(** An operation at a time between [t] and [u] that does not clear the ban. *)
Definition op_between (i : ip) (t u : Z) (o : op) : Prop :=
  match o with Failure _ _ now => t ≤ now < u | Success j => j ≠ i end.

Lemma step_banned n g i t c o :
  0 ≤ n < u32_bound - 1 → guard_ok n g → op_between i t (t + ban_duration c) o →
  banned g i (t + ban_duration c) c → banned (step g o) i (t + ban_duration c) c.
Proof.
  intros Hn Hg Ho (rec & until & Hi & Hb & Hu & Hc & Hf). destruct o as [j account now|j]; simpl in *.
  - unfold record_failure_at. set (g' := {| ips := _ |}).
    assert (banned g' i (t + ban_duration c) c) as Hg'.
    { unfold banned. subst g'; simpl. destruct (decide (j = i)) as [->|].
      - rewrite lookup_insert_eq, Hi.
        destruct (ip_failure_spec now (Some rec) n Hn) as (? & ? & Hcase); [intros r [= <-]; by apply (Hg i)|].
        cbn [unwrap_or] in Hcase. eexists _.
        destruct Hcase as [(_ & Hc' & Hb')|(_ & Hc' & Hb' & _)]; rewrite Hb', ?Hc'.
        + pose proof (ban_duration_mono c (ban_count rec + 1)). eexists. repeat split; lia.
        + exists until. repeat split; try done; lia.
      - exists rec, until. by rewrite lookup_insert_ne. }
    destruct (_ =? 0); [|done]. apply cleanup_banned; [lia|done].
  - exists rec, until. simpl. by rewrite lookup_alter_ne.
Qed.

Lemma run_banned ops n g i t c :
  0 ≤ n → n + Z.of_nat (length ops) < u32_bound - 1 → guard_ok n g →
  Forall (op_between i t (t + ban_duration c)) ops →
  banned g i (t + ban_duration c) c → banned (run g ops) i (t + ban_duration c) c.
Proof.
  revert n g; induction ops as [|o ops IH]; intros n g H0 Hn Hg Hops Hb; [done|]. simpl in *.
  apply Forall_cons in Hops as [Ho Hops]. apply (IH (n + 1)); [lia|lia| |done|].
  - apply (run_ok [o] n g); simpl; try done; lia.
  - apply (step_banned n); try done. lia.
Qed.

(** The tenth failure in a row of an address bans it, for five minutes the
    first time, twice as long each further time, at most a day; during the ban
    every check of that address answers with at least the remaining time, whatever
    other failures, logins and cleanups happen. *)
Theorem ip_ban_holds (before after : list op) (i : ip) (account account' : str) (t now : Z) (rec : IpRecord) :
  let g := run new before in
  let u := t + ban_duration (ban_count rec + 1) in
  Z.of_nat (length before + length after) + 1 < u32_bound - 1 →
  ips g !! i = Some rec → consecutive_failures rec = IP_BAN_THRESHOLD - 1 →
  Forall (op_between i t u) after → t ≤ now < u →
  ∃ r, check_at (run (record_failure_at g i account t) after) i account' now = Some (IpBanned r)
       ∧ u - now ≤ r.
Proof.
  intros g u Hlen Hi Hf Hafter Hnow.
  assert (guard_ok (Z.of_nat (length before)) g) as Hg by (apply (run_ok before 0 new); [lia|lia|apply new_ok]).
  assert (banned (record_failure_at g i account t) i u (ban_count rec + 1)) as Hb.
  { unfold record_failure_at. set (g' := {| ips := _ |}).
    assert (banned g' i u (ban_count rec + 1)) as Hg'.
    { unfold banned. subst g'; simpl. rewrite lookup_insert_eq, Hi.
      destruct (ip_failure_spec t (Some rec) (Z.of_nat (length before))) as (? & ? & Hcase);
        [lia|intros r [= <-]; by apply (Hg i)|]. cbn [unwrap_or] in Hcase.
      destruct Hcase as [(_ & Hc' & Hb')|(? & _)]; [|lia].
      eexists _, _. rewrite Hb', Hc'. repeat split; lia. }
    destruct (_ =? 0); [|done]. apply cleanup_banned; [lia|done]. }
  apply (run_banned after (Z.of_nat (length before) + 1)) in Hb as (rec' & until & Hi' & Hb' & Hu & _);
    [|lia|lia|apply record_failure_ok; [lia|done]|done].
  exists (duration_since until now). unfold check_at. rewrite Hi'. simpl. rewrite Hb'. simpl.
  rewrite (proj2 (Z.ltb_lt now until)) by lia. split; [done|]. unfold duration_since, sat_sub. lia.
Qed.

(** *** Account lockouts *)

Definition locked (g : LoginGuard) (account : str) (u : Z) : Prop :=
  ∃ rec until, accounts g !! account = Some rec ∧ locked_until rec = Some until ∧ u ≤ until.

Lemma elem_of_retain {A} (f : A → bool) l x : x ∈ retain f l ↔ f x = true ∧ x ∈ l.
Proof. unfold retain. by rewrite list_elem_of_filter. Qed.

Lemma cleanup_locked g account u now : now < u → locked g account u → locked (cleanup g now) account u.
Proof.
  intros Hu (rec & until & Ha & Hl & ?). exists (prune_account now rec), until. split; [|done].
  apply map_lookup_filter_Some. rewrite lookup_fmap, Ha. split; [done|].
  unfold keep_account, active. simpl. rewrite Hl. simpl.
  by rewrite (proj2 (Z.ltb_lt now until)), orb_true_r by lia.
Qed.

Lemma account_failure_locked i now rec until u :
  locked_until rec = Some until → u ≤ until → u ≤ now + ACCOUNT_LOCKOUT_DURATION →
  ∃ until', locked_until (account_failure i now (Some rec)) = Some until' ∧ u ≤ until'.
Proof. intros Hl ? ?. unfold account_failure. simpl. break_match_step; simpl; eauto. Qed.

Definition failure_between (t u : Z) (o : op) : Prop :=
  match o with Failure _ _ now => t ≤ now < u | Success _ => True end.

Lemma run_locked ops g account t :
  Forall (failure_between t (t + ACCOUNT_LOCKOUT_DURATION)) ops →
  locked g account (t + ACCOUNT_LOCKOUT_DURATION) →
  locked (run g ops) account (t + ACCOUNT_LOCKOUT_DURATION).
Proof.
  revert g; induction ops as [|o ops IH]; intros g Hops Hl; [done|].
  apply Forall_cons in Hops as [Ho Hops]. apply IH; [done|].
  destruct o as [i account' now|i]; simpl in *; [|done].
  unfold record_failure_at. set (g' := {| ips := _ |}).
  assert (locked g' account (t + ACCOUNT_LOCKOUT_DURATION)) as Hg'.
  { destruct Hl as (rec & until & Ha & Hu & Hle). unfold locked. subst g'; simpl.
    destruct (decide (account' = account)) as [->|].
    - rewrite lookup_insert_eq, Ha.
      destruct (account_failure_locked i now rec until (t + ACCOUNT_LOCKOUT_DURATION))
        as (until' & ? & ?); [done|done|lia|]. eauto.
    - rewrite lookup_insert_ne by done. eauto. }
  destruct (_ =? 0); [|done]. apply cleanup_locked; [lia|done].
Qed.

(** A failure from a third address, while two others are listed in the
    account's window, locks the account for a quarter of an hour: until then every
    check of it, from any address, is blocked, whatever else happens. *)
Theorem account_lock_holds (g : LoginGuard) (after : list op) (account : str) (rec : AccountRecord)
    (i i1 i2 i' : ip) (t t1 t2 now : Z) :
  let u := t + ACCOUNT_LOCKOUT_DURATION in
  accounts g !! account = Some rec →
  (i1, t1) ∈ recent_ips rec → (i2, t2) ∈ recent_ips rec → NoDup [i1; i2; i] →
  t - t1 < ACCOUNT_LOCKOUT_WINDOW → t - t2 < ACCOUNT_LOCKOUT_WINDOW →
  Forall (failure_between t u) after → t ≤ now < u →
  check_at (run (record_failure_at g i account t) after) i' account now ≠ None.
Proof.
  intros u Ha H1 H2 Hnd Ht1 Ht2 Hafter Hnow.
  assert (locked (record_failure_at g i account t) account u) as Hl.
  { unfold record_failure_at. set (g' := {| ips := _ |}).
    assert (locked g' account u) as Hg'.
    { unfold locked. subst g'; simpl. rewrite lookup_insert_eq, Ha. eexists. exists u.
      split; [done|]. split; [|lia]. unfold account_failure. cbn [unwrap_or].
      set (r0 := retain _ _). set (r := if existsb _ r0 then _ else _).
      assert (∀ j tj, (j, tj) ∈ recent_ips rec → t - tj < ACCOUNT_LOCKOUT_WINDOW → j ∈ map fst r) as Hin.
      { intros j tj Hj Hw. assert ((j, tj) ∈ r0) as Hr0.
        { apply elem_of_retain. split; [|done]. unfold in_window, duration_since, sat_sub. simpl.
          apply Z.ltb_lt. unfold ACCOUNT_LOCKOUT_WINDOW, secs in *. lia. }
        apply list_elem_of_fmap. exists (j, tj). split; [done|]. subst r.
        destruct (existsb _ _); [done|]. apply elem_of_app. by left. }
      assert (i ∈ map fst r) as Hi.
      { subst r. destruct (existsb _ r0) eqn:E.
        - apply existsb_true in E as ([j tj] & Hj & Hd). bools. simpl in Hd. subst j.
          apply list_elem_of_fmap. by exists (i, tj).
        - rewrite map_app. apply elem_of_app. right. simpl. set_solver. }
      assert (list_to_set [i1; i2; i] ⊆@{gset ip} list_to_set (map fst r)) as Hsub.
      { intros j. rewrite !elem_of_list_to_set, !elem_of_cons, elem_of_nil.
        intros [->|[->|[->|[]]]]; eauto. }
      apply subseteq_size in Hsub. rewrite (size_list_to_set [i1; i2; i]) in Hsub by done.
      change (length _) with ACCOUNT_LOCKOUT_IP_THRESHOLD in Hsub.
      by rewrite (proj2 (Nat.leb_le _ _) Hsub). }
    destruct (_ =? 0); [|done]. apply cleanup_locked; [lia|done]. }
  apply (run_locked after) in Hl as (rec' & until & Ha' & Hu & Hle); [|done].
  unfold check_at. rewrite Ha'. simpl. rewrite Hu. simpl.
  rewrite (proj2 (Z.ltb_lt now until)) by lia.
  destruct (ips _ !! i' ≫= banned_until) as [u'|]; simpl; [by destruct (now <? u')|done].
Qed.

(** The account's addresses all belong to [X], and it is not locked. *)
Definition only_from (X : gset ip) (account : str) (g : LoginGuard) : Prop :=
  ∀ rec, accounts g !! account = Some rec →
    locked_until rec = None ∧ ∀ p, p ∈ recent_ips rec → p.1 ∈ X.

Definition failure_in (X : gset ip) (account : str) (o : op) : Prop :=
  match o with Failure i a _ => a = account → i ∈ X | Success _ => True end.

Lemma step_only_from X account g o :
  (size X < ACCOUNT_LOCKOUT_IP_THRESHOLD)%nat → failure_in X account o →
  only_from X account g → only_from X account (step g o).
Proof.
  intros HX Ho Hg. destruct o as [i account' now|i]; simpl in *; [|done].
  unfold record_failure_at. set (g' := {| ips := _ |}).
  assert (only_from X account g') as Hg'.
  { intros rec. subst g'; simpl. destruct (decide (account' = account)) as [->|]; [|by rewrite lookup_insert_ne; [apply Hg|]].
    rewrite lookup_insert_eq. intros [= <-]. unfold account_failure.
    set (e := unwrap_or _ _). set (r0 := retain _ _). set (r := if existsb _ r0 then _ else _).
    assert (locked_until e = None ∧ ∀ p, p ∈ recent_ips e → p.1 ∈ X) as [Hl He].
    { subst e. destruct (accounts g !! account) eqn:E; simpl; [by apply Hg|].
      split; [done|]. intros p Hp. by apply elem_of_nil in Hp. }
    assert (∀ p, p ∈ r → p.1 ∈ X) as Hr.
    { intros p. subst r. assert (p ∈ r0 → p.1 ∈ X) by (unfold r0; rewrite elem_of_retain; intros []; auto).
      destruct (existsb _ r0); [done|]. rewrite elem_of_app, list_elem_of_singleton.
      intros [?| ->]; [auto|]. by apply Ho. }
    rewrite (proj2 (Nat.leb_gt _ _)); [done|]. eapply Nat.le_lt_trans; [|exact HX].
    apply subseteq_size. intros j. rewrite elem_of_list_to_set. intros (p & -> & ?)%list_elem_of_fmap. auto. }
  destruct (_ =? 0); [|done]. intros rec. simpl. rewrite map_lookup_filter_Some, lookup_fmap.
  intros [(r & Hr & ->)%fmap_Some_1 _]. destruct (Hg' _ Hr) as [? Hin]. split; [done|].
  simpl. intros p [_ ?]%elem_of_retain. auto.
Qed.

(** An account is locked only through failures from three distinct addresses:
    as long as the failures on it come from at most two, no check is ever answered
    with a lockout. *)
Theorem account_lock_needs_three (X : gset ip) (account : str) (ops : list op) (i : ip) (now r : Z) :
  (size X < ACCOUNT_LOCKOUT_IP_THRESHOLD)%nat →
  Forall (failure_in X account) ops →
  check_at (run new ops) i account now ≠ Some (AccountLocked r).
Proof.
  intros HX Hops. assert (only_from X account (run new ops)) as Hg.
  { assert (only_from X account new) as Hnew by (intros rec; unfold new; simpl; by rewrite lookup_empty).
    revert Hnew. generalize new. induction Hops as [|o ops Ho _ IH]; intros g Hg; [done|].
    apply IH. by apply step_only_from. }
  unfold check_at. destruct (ips _ !! i ≫= banned_until) as [u|]; simpl;
    [destruct (now <? u); simpl; [done|]|];
    (destruct (accounts _ !! account) as [rec|] eqn:E; simpl; [|done];
     destruct (Hg _ E) as [-> _]; done).
Qed.
End guard.

(** The window counts the first failure of an address only: here the addresses 1,
    2 and 3 fail within 70 seconds of each other and the account is not locked,
    because an earlier failure of address 1 has just left the window. *)
Example lockout_window_gap :
  let m := secs 60 in
  let g := run new [Failure 1%N (lit "admin") 0; Failure 1%N (lit "admin") (14 * m);
                    Failure 2%N (lit "admin") (14 * m + secs 10);
                    Failure 3%N (lit "admin") (15 * m + secs 10)] in
  check_at g 4%N (lit "admin") (15 * m + secs 10) = None.
Proof. vm_compute. reflexivity. Qed.

(** The durations of the first eleven bans, in minutes. *)
Example ban_schedule :
  map (λ k, ban_duration k / secs 60) [1; 2; 3; 4; 5; 6; 7; 8; 9; 10; 11] =
  [5; 10; 20; 40; 80; 160; 320; 640; 1280; 1440; 1440].
Proof. reflexivity. Qed.

(** * Witnesses *)

Lemma ip_ban_holds_witness :
  let before := replicate 9 (Failure 1%N (lit "admin") 0) in
  ∃ r, check_at (run (record_failure_at (run new before) 1%N (lit "admin") 5) [Failure 2%N (lit "bob") 6])
         1%N (lit "admin") 7 = Some (IpBanned r) ∧ 5 + secs 300 - 7 ≤ r.
Proof.
  refine (ip_ban_holds (replicate 9 (Failure 1%N (lit "admin") 0)) [Failure 2%N (lit "bob") 6]
    1%N (lit "admin") (lit "admin") 5 7
    {| consecutive_failures := 9; ban_count := 0; banned_until := None; last_failure_at := 0 |} _ _ _ _ _).
  - vm_compute. reflexivity.
  - vm_compute. reflexivity.
  - reflexivity.
  - constructor; [|constructor]. vm_compute. split; [discriminate|reflexivity].
  - vm_compute. split; [discriminate|reflexivity].
Defined.

Lemma account_lock_holds_witness :
  let before := [Failure 1%N (lit "admin") 0; Failure 2%N (lit "admin") 1] in
  check_at (run (record_failure_at (run new before) 3%N (lit "admin") 2) []) 9%N (lit "admin") 100 ≠ None.
Proof.
  refine (account_lock_holds (run new [Failure 1%N (lit "admin") 0; Failure 2%N (lit "admin") 1]) []
    (lit "admin") {| recent_ips := [(1%N, 0); (2%N, 1)]; locked_until := None |}
    3%N 1%N 2%N 9%N 2 0 1 100 _ _ _ _ _ _ _ _).
  - vm_compute. reflexivity.
  - simpl. set_solver.
  - simpl. set_solver.
  - repeat constructor; set_solver.
  - vm_compute. reflexivity.
  - vm_compute. reflexivity.
  - constructor.
  - vm_compute. split; [discriminate|reflexivity].
Defined.

Lemma account_lock_needs_three_witness :
  check_at (run new (replicate 20 (Failure 1%N (lit "admin") 0))) 2%N (lit "admin") 1
    ≠ Some (AccountLocked 900).
Proof.
  refine (account_lock_needs_three {[1%N]} (lit "admin") _ 2%N 1 900 _ _).
  - vm_compute. lia.
  - apply Forall_forall. intros o [-> _]%elem_of_replicate. simpl. intros _. set_solver.
Defined.
