(* ===== verification/Otp.v ===== *)
(** One-time codes for the self-approval of unknown senders.

    Models [crates/channels/src/otp.rs]: challenges, wrong-code counting,
    lockouts and expiry.  The maps are [gmap]s keyed by peer, the random code is
    an argument of [initiate] and the clock an argument of every operation. *)
From S2P Require Import Prelude.
Local Open Scope Z_scope.

Definition OTP_TTL : Z := secs 300.
Definition MAX_ATTEMPTS : Z := 3.

Record OtpChallenge := {
  code : str;
  peer_id : str;
  username : option str;
  sender_name : option str;
  created_at : Z;
  expires_at : Z;
  attempts : Z;     (** u32 *)
}.

(** A [Lockout] is its [until]. *)
Record OtpState := {
  challenges : gmap str OtpChallenge;
  lockouts : gmap str Z;
  cooldown : Z;
}.

Inductive OtpInitResult :=
| Created (code : str)
| AlreadyPending
| InitLockedOut.

Inductive OtpVerifyResult :=
| Approved
| WrongCode (attempts_left : Z)
| LockedOut
| NoPending
| Expired.

Definition new (cooldown_secs : Z) : OtpState :=
  {| challenges := ∅; lockouts := ∅; cooldown := secs cooldown_secs |}.

Definition set_cooldown (s : OtpState) (cooldown_secs : Z) : OtpState :=
  {| challenges := challenges s; lockouts := lockouts s; cooldown := secs cooldown_secs |}.

Definition with_challenges (s : OtpState) c : OtpState :=
  {| challenges := c; lockouts := lockouts s; cooldown := cooldown s |}.
Definition with_lockouts (s : OtpState) l : OtpState :=
  {| challenges := challenges s; lockouts := l; cooldown := cooldown s |}.

(** The lockout test both operations start with: [true] when locked out, and an
    elapsed lockout is removed. *)
Definition check_lockout (s : OtpState) (peer : str) (now : Z) : bool * OtpState :=
  match lockouts s !! peer with
  | Some until => if now <? until then (true, s) else (false, with_lockouts s (delete peer (lockouts s)))
  | None => (false, s)
  end.

Definition initiate (s : OtpState) (peer : str) (username sender_name : option str)
    (generated : str) (now : Z) : OtpInitResult * OtpState :=
  let '(locked, s) := check_lockout s peer now in
  if locked then (InitLockedOut, s)
  else
    let create (s : OtpState) :=
      let challenge := {| code := generated; peer_id := peer; username := username;
                          sender_name := sender_name; created_at := now;
                          expires_at := now + OTP_TTL; attempts := 0 |} in
      (Created generated, with_challenges s (<[peer := challenge]> (challenges s))) in
    match challenges s !! peer with
    | Some existing =>
        if now <? expires_at existing then (AlreadyPending, s)
        else create (with_challenges s (delete peer (challenges s)))
    | None => create s
    end.

Definition bump (c : OtpChallenge) : OtpChallenge :=
  {| code := code c; peer_id := peer_id c; username := username c; sender_name := sender_name c;
     created_at := created_at c; expires_at := expires_at c;
     attempts := wrap u32_bound (attempts c + 1) |}.

Definition verify (s : OtpState) (peer submitted : str) (now : Z) : OtpVerifyResult * OtpState :=
  let '(locked, s) := check_lockout s peer now in
  if locked then (LockedOut, s)
  else
    match challenges s !! peer with
    | None => (NoPending, s)
    | Some challenge =>
        if expires_at challenge <=? now then
          (Expired, with_challenges s (delete peer (challenges s)))
        else if str_eqb (code challenge) submitted then
          (Approved, with_challenges s (delete peer (challenges s)))
        else
          let challenge := bump challenge in
          if MAX_ATTEMPTS <=? attempts challenge then
            (LockedOut,
             with_lockouts (with_challenges s (delete peer (challenges s)))
               (<[peer := now + cooldown s]> (lockouts s)))
          else
            (WrongCode (MAX_ATTEMPTS - attempts challenge),
             with_challenges s (<[peer := challenge]> (challenges s)))
    end.

Definition has_pending (s : OtpState) (peer : str) (now : Z) : bool :=
  is_some_and (λ c, now <? expires_at c) (challenges s !! peer).

Definition is_locked_out (s : OtpState) (peer : str) (now : Z) : bool :=
  is_some_and (λ until, now <? until) (lockouts s !! peer).

Record OtpChallengeInfo := {
  info_peer_id : str;
  info_username : option str;
  info_sender_name : option str;
  info_code : str;
  info_expires_at : Z;      (** seconds since the epoch *)
}.

(** [now_system] is the system time in nanoseconds since the epoch. *)
Definition list_pending (s : OtpState) (now now_system : Z) : list OtpChallengeInfo :=
  map (λ p, let c := p.2 in
       let expires_epoch := now_system + sat_sub (expires_at c) now in
       {| info_peer_id := peer_id c; info_username := username c;
          info_sender_name := sender_name c; info_code := code c;
          info_expires_at := if expires_epoch <? 0 then 0 else expires_epoch / secs 1 |})
    (filter (λ p, (now <? expires_at p.2) = true) (map_to_list (challenges s))).

Definition evict_expired (s : OtpState) (now : Z) : OtpState :=
  {| challenges := filter (λ p, (now <? expires_at p.2) = true) (challenges s);
     lockouts := filter (λ p, (now <? p.2) = true) (lockouts s);
     cooldown := cooldown s |}.

(** [random_range(100_000..1_000_000).to_string()] of the number drawn. *)
Definition generate_otp_code (drawn : N) : str := lit (pretty.pretty drawn).

(** ** Runs *)

Inductive op :=
| Initiate (peer : str) (username sender_name : option str) (generated : str) (now : Z)
| Verify (peer submitted : str) (now : Z)
| Evict (now : Z)
| SetCooldown (cooldown_secs : Z).

Inductive reply :=
| RInit (r : OtpInitResult)
| RVerify (r : OtpVerifyResult)
| RUnit.

Definition step (s : OtpState) (o : op) : reply * OtpState :=
  match o with
  | Initiate p u n c now => let '(r, s') := initiate s p u n c now in (RInit r, s')
  | Verify p c now => let '(r, s') := verify s p c now in (RVerify r, s')
  | Evict now => (RUnit, evict_expired s now)
  | SetCooldown c => (RUnit, set_cooldown s c)
  end.

(** The operations of a run with their replies, latest first. *)
Definition history := list (op * reply).

Inductive reach (cd : Z) : OtpState → history → Prop :=
| reach_new : reach cd (new cd) []
| reach_step s h o : reach cd s h → reach cd (step s o).2 ((o, (step s o).1) :: h).

(** The tries of the latest code of [peer], which was [c] and was issued at
    [t]: everything since then. *)
Fixpoint issued (h : history) (peer : str) : option (str * Z * history) :=
  match h with
  | [] => None
  | (Initiate p _ _ c now, RInit (Created _)) as x :: h' =>
      if bool_decide (p = peer) then Some (c, now, [])
      else prod_map id (cons x) <$> issued h' peer
  | x :: h' => prod_map id (cons x) <$> issued h' peer
  end.

Definition is_wrong (peer : str) (x : op * reply) : bool :=
  match x with
  | (Verify p _ _, RVerify (WrongCode _)) => bool_decide (p = peer)
  | _ => false
  end.
(** A code of [peer] was used up: approved, locked out or expired. *)
Definition is_spent (peer : str) (x : op * reply) : bool :=
  match x with
  | (Verify p _ _, RVerify (Approved | Expired)) => bool_decide (p = peer)
  | _ => false
  end.
Definition count_wrong (peer : str) (h : history) : Z :=
  Z.of_nat (length (List.filter (is_wrong peer) h)).

(** * Facts *)

Definition created_for (peer : str) (x : op * reply) : bool :=
  match x with
  | (Initiate p _ _ _ _, RInit (Created _)) => bool_decide (p = peer)
  | _ => false
  end.

Lemma issued_cons x h peer :
  created_for peer x = false → issued (x :: h) peer = prod_map id (cons x) <$> issued h peer.
Proof.
  destruct x as [[p u n c now|p c now|now|cd] [[c'| |]|r|]]; simpl; try done.
  by intros ->.
Qed.

(** A pending challenge is the latest code issued to the peer; its counter is the
    number of wrong tries since, and it has not been used up. *)
Definition pending_ok (s : OtpState) (h : history) : Prop :=
  ∀ peer c, challenges s !! peer = Some c →
    ∃ since, issued h peer = Some (code c, created_at c, since) ∧
      expires_at c = created_at c + OTP_TTL ∧
      attempts c = count_wrong peer since ∧ 0 ≤ attempts c < MAX_ATTEMPTS ∧
      Forall (λ x, is_spent peer x = false) since.

(** A step that leaves the challenge of [peer] as it is and is no event of it. *)
Lemma pending_skip peer c x h :
  created_for peer x = false → is_wrong peer x = false → is_spent peer x = false →
  (∃ since, issued h peer = Some (code c, created_at c, since) ∧
     expires_at c = created_at c + OTP_TTL ∧ attempts c = count_wrong peer since ∧
     0 ≤ attempts c < MAX_ATTEMPTS ∧ Forall (λ x, is_spent peer x = false) since) →
  ∃ since, issued (x :: h) peer = Some (code c, created_at c, since) ∧
     expires_at c = created_at c + OTP_TTL ∧ attempts c = count_wrong peer since ∧
     0 ≤ attempts c < MAX_ATTEMPTS ∧ Forall (λ x, is_spent peer x = false) since.
Proof.
  intros Hc Hw Hs (since & Hi & He & Ha & Hr & Hf). exists (x :: since).
  rewrite issued_cons, Hi by done. split; [done|]. split; [done|].
  unfold count_wrong in *. cbn [List.filter]. rewrite Hw. auto.
Qed.

Lemma check_lockout_spec s peer now :
  challenges (check_lockout s peer now).2 = challenges s ∧
  cooldown (check_lockout s peer now).2 = cooldown s.
Proof. unfold check_lockout. by break. Qed.

Lemma initiate_pending s h peer u n c now :
  pending_ok s h → pending_ok (initiate s peer u n c now).2
    ((Initiate peer u n c now, RInit (initiate s peer u n c now).1) :: h).
Proof.
  intros Hok. unfold initiate. destruct (check_lockout_spec s peer now) as [Hc _].
  destruct (check_lockout s peer now) as [locked s0]. simpl in Hc.
  assert (∀ r, (∀ c', r ≠ Created c') → pending_ok s0 ((Initiate peer u n c now, RInit r) :: h)) as Hsame.
  { intros r Hr p ch Hp. rewrite Hc in Hp. apply pending_skip; try done; [|by apply Hok].
    destruct r; [by edestruct Hr|done|done]. }
  assert (∀ m, (∀ p, p ≠ peer → m !! p = challenges s !! p) →
    pending_ok (with_challenges s0 (<[peer := {| code := c; peer_id := peer; username := u;
        sender_name := n; created_at := now; expires_at := now + OTP_TTL; attempts := 0 |}]> m))
      ((Initiate peer u n c now, RInit (Created c)) :: h)) as Hnew.
  { intros m Hm p ch. cbn [with_challenges challenges]. destruct (decide (peer = p)) as [<-|Hne].
    - rewrite lookup_insert_eq. intros [= <-]. exists []. simpl. rewrite bool_decide_true by done.
      repeat split; try done.
    - rewrite lookup_insert_ne, Hm by done. intros Hp.
      apply pending_skip; try done; [simpl; by apply bool_decide_false|by apply Hok]. }
  destruct locked; [by apply Hsame|]. rewrite Hc.
  destruct (challenges s !! peer) as [ex|]; simpl.
  - destruct (now <? expires_at ex); [by apply Hsame|]. simpl.
    apply Hnew. intros p Hp. by rewrite lookup_delete_ne.
  - by apply Hnew.
Qed.

Lemma verify_pending s h peer c now :
  pending_ok s h → pending_ok (verify s peer c now).2
    ((Verify peer c now, RVerify (verify s peer c now).1) :: h).
Proof.
  intros Hok. unfold verify. destruct (check_lockout_spec s peer now) as [Hc _].
  destruct (check_lockout s peer now) as [locked s0]. simpl in Hc.
  (* the challenges of the other peers *)
  assert (∀ r p ch, p ≠ peer → challenges s !! p = Some ch →
    ∃ since, issued ((Verify peer c now, RVerify r) :: h) p = Some (code ch, created_at ch, since) ∧
     expires_at ch = created_at ch + OTP_TTL ∧ attempts ch = count_wrong p since ∧
     0 ≤ attempts ch < MAX_ATTEMPTS ∧ Forall (λ x, is_spent p x = false) since) as Hother.
  { intros r p ch Hne Hp. apply pending_skip; [done|..|by apply Hok];
      destruct r; simpl; try done; by apply bool_decide_false. }
  assert (∀ r l, pending_ok (with_lockouts (with_challenges s0 (delete peer (challenges s0))) l)
                  ((Verify peer c now, RVerify r) :: h)) as Hdel.
  { intros r l p ch. simpl. rewrite Hc, lookup_delete_Some. intros [Hne Hp]. by apply Hother. }
  destruct locked; cbn [snd fst].
  { intros p ch Hp. simpl in Hp. rewrite Hc in Hp. apply pending_skip; try done. by apply Hok. }
  rewrite Hc. destruct (challenges s !! peer) as [ch|] eqn:Hch; cbv zeta.
  2:{ intros p ch Hp. simpl in Hp. rewrite Hc in Hp. apply pending_skip; try done. by apply Hok. }
  rewrite <- Hc. destruct (expires_at ch <=? now) eqn:E1; [apply (Hdel Expired (lockouts s0))|].
  destruct (str_eqb (code ch) c); [apply (Hdel Approved (lockouts s0))|].
  destruct (Hok _ _ Hch) as (since & Hi & He & Ha & Hr & Hf).
  assert (attempts (bump ch) = attempts ch + 1) as Hw.
  { unfold bump, wrap, u32_bound, MAX_ATTEMPTS in *. simpl. apply Z.mod_small. lia. }
  rewrite Hw. destruct (Z.leb_spec MAX_ATTEMPTS (attempts ch + 1)); simpl; [apply Hdel|].
  intros p ch'. cbn [with_challenges challenges]. destruct (decide (peer = p)) as [<-|Hne].
  - rewrite lookup_insert_eq. intros [= <-]. rewrite Hw.
    set (x := (_, _)). exists (x :: since). rewrite (issued_cons x), Hi by done.
    split; [done|]. split; [done|]. unfold count_wrong in *. subst x. simpl.
    rewrite bool_decide_true by done. simpl. split; [lia|]. split; [lia|]. by constructor.
  - rewrite lookup_insert_ne, Hc by done. intros Hp. by apply Hother.
Qed.

Lemma reach_pending cd s h : reach cd s h → pending_ok s h.
Proof.
  induction 1 as [|s h o _ IH].
  { intros peer c. unfold new; simpl. by rewrite lookup_empty. }
  destruct o as [peer u n c now|peer c now|now|cd']; simpl.
  - pose proof (initiate_pending s h peer u n c now IH). by destruct (initiate _ _ _ _ _ _).
  - pose proof (verify_pending s h peer c now IH). by destruct (verify _ _ _ _).
  - intros p ch. cbn [with_challenges with_lockouts evict_expired challenges]. rewrite map_lookup_filter_Some. intros [Hp _].
    apply pending_skip; try done. by apply IH.
  - intros p ch Hp. simpl in Hp. apply pending_skip; try done. by apply IH.
Qed.

(** A sender is approved only with the code last issued to that very peer,
    within five minutes of its issue, after at most two wrong tries of it, and
    each code approves at most once: it has not been used before and is gone
    afterwards. *)
Theorem verify_approved_sound (cd : Z) (s s' : OtpState) (h : history) (peer submitted : str) (now : Z) :
  reach cd s h →
  verify s peer submitted now = (Approved, s') →
  ∃ t since, issued h peer = Some (submitted, t, since) ∧ now < t + OTP_TTL ∧
    count_wrong peer since < MAX_ATTEMPTS ∧ Forall (λ x, is_spent peer x = false) since ∧
    challenges s' !! peer = None.
Proof.
  intros Hr%reach_pending. unfold verify.
  destruct (check_lockout_spec s peer now) as [Hc _].
  destruct (check_lockout s peer now) as [locked s0]. simpl in Hc. rewrite Hc.
  destruct locked; [done|]. destruct (challenges s !! peer) as [c|] eqn:E; [|done].
  destruct (expires_at c <=? now) eqn:E1; [done|].
  destruct (str_eqb (code c) submitted) eqn:E2; [|by cases].
  intros [= <-]. unfold str_eqb in E2. bools.
  destruct (Hr _ _ E) as (since & Hi & He & Ha & Hlt & Hf). subst submitted.
  exists (created_at c), since. simpl. rewrite lookup_delete_eq. repeat split; try done; lia.
Qed.

(** ** Lockouts *)

Definition op_time_before (u : Z) (o : op) : Prop :=
  match o with
  | Initiate _ _ _ _ now | Verify _ _ now | Evict now => now < u
  | SetCooldown _ => True
  end.

(** The reply to an operation of [peer] is a refusal. *)
Definition refused (peer : str) (x : op * reply) : Prop :=
  match x with
  | (Initiate p _ _ _ _, r) => p = peer → r = RInit InitLockedOut
  | (Verify p _ _, r) => p = peer → r = RVerify LockedOut
  | _ => True
  end.

Fixpoint run (s : OtpState) (ops : list op) : list (op * reply) :=
  match ops with
  | [] => []
  | o :: ops' => let '(r, s') := step s o in (o, r) :: run s' ops'
  end.

Lemma check_lockout_locked s peer u now :
  lockouts s !! peer = Some u → now < u → check_lockout s peer now = (true, s).
Proof. unfold check_lockout. intros -> Hu. by rewrite (proj2 (Z.ltb_lt now u)). Qed.

Lemma check_lockout_other s p peer now :
  p ≠ peer → lockouts (check_lockout s p now).2 !! peer = lockouts s !! peer.
Proof. intros Hne. unfold check_lockout. break. by rewrite lookup_delete_ne. Qed.

Lemma step_locked s peer u o :
  lockouts s !! peer = Some u → op_time_before u o →
  refused peer (o, (step s o).1) ∧ lockouts (step s o).2 !! peer = Some u.
Proof.
  intros Hl Ho. destruct o as [p us n c now|p c now|now|cd]; simpl in *.
  - destruct (decide (p = peer)) as [->|Hne]; unfold initiate.
    + by rewrite (check_lockout_locked _ _ u).
    + pose proof (check_lockout_other s p peer now Hne) as Hk.
      destruct (check_lockout s p now) as [b s0]. simpl in Hk. rewrite Hl in Hk.
      cases; by split.
  - destruct (decide (p = peer)) as [->|Hne]; unfold verify.
    + by rewrite (check_lockout_locked _ _ u).
    + pose proof (check_lockout_other s p peer now Hne) as Hk.
      destruct (check_lockout s p now) as [b s0]. simpl in Hk. rewrite Hl in Hk.
      cases; (split; [done|]); try done. by rewrite lookup_insert_ne.
  - split; [done|]. apply map_lookup_filter_Some. split; [done|]. by apply Z.ltb_lt.
  - done.
Qed.

Lemma run_lockout_kept s peer u ops :
  lockouts s !! peer = Some u → Forall (op_time_before u) ops → Forall (refused peer) (run s ops).
Proof.
  revert s; induction ops as [|o ops IH]; intros s Hl Hops; [constructor|]. simpl.
  apply Forall_cons in Hops as [Ho Hops]. destruct (step_locked _ _ _ _ Hl Ho) as [Hr Hl'].
  destruct (step s o) as [r s']. constructor; [done|]. by apply IH.
Qed.

(** The third wrong code locks the peer out: the code is gone, and until the
    cooldown has passed every try and every request for a new code of that peer is
    refused, whatever other peers, evictions and changes of the cooldown do. *)
Theorem third_wrong_code_locks (cd : Z) (s : OtpState) (h : history) (c : OtpChallenge)
    (peer submitted : str) (now : Z) (later : list op) :
  reach cd s h →
  is_locked_out s peer now = false →
  challenges s !! peer = Some c → now < expires_at c → submitted ≠ code c →
  attempts c = MAX_ATTEMPTS - 1 →
  Forall (op_time_before (now + cooldown s)) later →
  ∃ s', verify s peer submitted now = (LockedOut, s') ∧ challenges s' !! peer = None ∧
    Forall (refused peer) (run s' later).
Proof.
  intros Hr Hnl Hc Hexp Hne Ha Hlater. unfold verify.
  destruct (check_lockout_spec s peer now) as [Hcs Hcd].
  assert ((check_lockout s peer now).1 = false) as Hb.
  { unfold check_lockout, is_locked_out in *. destruct (lockouts s !! peer); [|done]. simpl in *. by rewrite Hnl. }
  destruct (check_lockout s peer now) as [b s0]. simpl in *. subst b. rewrite Hcs, Hc.
  rewrite (proj2 (Z.leb_gt _ _)) by lia.
  unfold str_eqb. rewrite bool_decide_false by congruence. simpl. rewrite Ha. simpl.
  eexists. split; [done|]. simpl. rewrite lookup_delete_eq. split; [done|].
  eapply run_lockout_kept; [apply lookup_insert_eq|]. by rewrite Hcd.
Qed.

(** * Witnesses *)

Definition demo_ops : list op := [
  Initiate "bob" None None "123456" 0; Verify "bob" "000000" 1; Verify "bob" "111111" 2].
Definition demo (n : nat) : OtpState * history :=
  foldl (λ sh o, ((step sh.1 o).2, (o, (step sh.1 o).1) :: sh.2)) (new 60, []) (take n demo_ops).

Lemma otp_demo_reach n : reach 60 (demo n).1 (demo n).2.
Proof.
  assert (∀ ops (sh : OtpState * history), reach 60 sh.1 sh.2 →
    let r := foldl (λ sh o, ((step sh.1 o).2, (o, (step sh.1 o).1) :: sh.2)) sh ops in
    reach 60 r.1 r.2) as Hr; [|apply (Hr _ (new 60, [])); constructor].
  induction ops as [|o ops IH]; intros sh Hsh; [exact Hsh|]. apply IH. by constructor.
Qed.

Lemma verify_approved_sound_witness :
  ∃ t since, issued (demo 3).2 "bob" = Some (lit "123456", t, since) ∧ 3 < t + OTP_TTL.
Proof.
  destruct (verify_approved_sound 60 (demo 3).1 (verify (demo 3).1 "bob" "123456" 3).2 (demo 3).2
    "bob" "123456" 3 (otp_demo_reach 3)) as (t & since & ? & ? & _); [vm_compute; reflexivity|].
  exists t, since. split; assumption.
Defined.

Lemma third_wrong_code_locks_witness :
  ∃ s', verify (demo 3).1 "bob" "222222" 3 = (LockedOut, s') ∧
    Forall (refused "bob") (run s' [Verify "bob" "123456" 4; Initiate "bob" None None "654321" 5]).
Proof.
  destruct (third_wrong_code_locks 60 (demo 3).1 (demo 3).2
    {| code := "123456"; peer_id := "bob"; username := None; sender_name := None;
       created_at := 0; expires_at := OTP_TTL; attempts := 2 |} "bob" "222222" 3
    [Verify "bob" "123456" 4; Initiate "bob" None None "654321" 5] (otp_demo_reach 3)) as (s' & ? & _ & ?).
  - vm_compute. reflexivity.
  - vm_compute. reflexivity.
  - vm_compute. reflexivity.
  - vm_compute. discriminate.
  - reflexivity.
  - repeat constructor; vm_compute; reflexivity.
  - exists s'. split; assumption.
Defined.
