(* ===== verification/Pairing.v ===== *)
(** Pairing of devices and their tokens.

    Models [crates/gateway/src/pairing.rs].  The three SQLite tables are maps from
    their primary keys.  A method is a program over atomic statements ([prog]), because
    the source holds no lock and opens no transaction between its statements: other
    calls may come in between, and any statement may fail and leave the effects of
    the ones before it.  [run] executes one call alone, [exec] a sequence of calls, [step] interleaves the
    statements of concurrent calls.

    Hashing, encodings, RFC 3339 and [julianday] are parameters (class [Kit]). *)
From S2P Require Import Prelude Prog.
Local Open Scope Z_scope.

(** * Data *)

Inductive PairStatus := Pending | Approved | Rejected | Expired.
Global Instance PairStatus_eq_dec : EqDecision PairStatus.
Proof. solve_decision. Defined.

Definition as_str (s : PairStatus) : str :=
  match s with
  | Pending => "pending"
  | Approved => "approved"
  | Rejected => "rejected"
  | Expired => "expired"
  end.

Definition from_str (s : str) : PairStatus :=
  if str_eqb s "approved" then Approved
  else if str_eqb s "rejected" then Rejected
  else if str_eqb s "expired" then Expired
  else Pending.

Inductive Error :=
| PairRequestNotFound
| PairRequestNotPending (s : PairStatus)
| PairRequestExpired
| DeviceNotFound
| InvalidToken
| Db (e : str).

Record PairRequest := {
  id : str;
  device_id : str;
  display_name : option str;
  platform : str;
  public_key : option str;
  nonce : str;
  status : PairStatus;
  created_at : str;
  expires_at : str;
}.

Record DeviceToken := {
  token : str;
  token_device : str;
  scopes : list str;
  issued_at_ms : Z;
  revoked : bool;
}.

Record DeviceTokenVerification := { verified_device : str; verified_scopes : list str }.

Inductive KeyPinningResult :=
| Match
| KeyMismatch (expected : str)
| NoPinnedKey
| KeyRevoked.

Inductive PinPublicKeyResult :=
| Pinned
| AlreadyPinned
| PinMismatch (expected : str)
| PinRevoked
| PinDeviceNotFound.

Record PairedDevice := {
  pd_device_id : str;
  pd_display_name : option str;
  pd_platform : str;
  pd_public_key : option str;
  pd_created_at : str;
}.

Record DeviceTokenEntry := {
  te_token_prefix : str;
  te_device_id : str;
  te_scopes : list str;
  te_issued_at : str;
}.

(** ** Tables *)

(** [pair_requests], keyed by [id]. *)
Record RequestRow := {
  r_device_id : str;
  r_display_name : option str;
  r_platform : str;
  r_public_key : option str;
  r_nonce : str;
  r_status : str;
  r_created_at : str;
  r_expires_at : str;
}.

(** [paired_devices], keyed by [device_id]. *)
Record DeviceRow := {
  d_display_name : option str;
  d_platform : str;
  d_public_key : option str;
  d_status : str;
  d_created_at : str;
  d_revoked_at : option str;
}.

(** [device_tokens], keyed by [token_hash]. *)
Record TokenRow := {
  t_prefix : str;
  t_device_id : str;
  t_scopes : str;
  t_issued_at : str;
  t_revoked : bool;
}.

Record DB := {
  pair_requests : gmap str RequestRow;
  paired_devices : gmap str DeviceRow;
  device_tokens : gmap str TokenRow;
}.

Definition empty_db : DB :=
  {| pair_requests := ∅; paired_devices := ∅; device_tokens := ∅ |}.
Definition with_requests (s : DB) t : DB :=
  {| pair_requests := t; paired_devices := paired_devices s; device_tokens := device_tokens s |}.
Definition with_devices (s : DB) t : DB :=
  {| pair_requests := pair_requests s; paired_devices := t; device_tokens := device_tokens s |}.
Definition with_tokens (s : DB) t : DB :=
  {| pair_requests := pair_requests s; paired_devices := paired_devices s; device_tokens := t |}.

(** ** Parameters *)

Class Kit := {
  sha256_hex : str → str;
  url_safe_base64 : str → str;
  format_datetime : Z → str;              (** RFC 3339 of a time in nanoseconds *)
  parse_datetime : str → option Z;
  julianday : str → option Z;
  civil : Z → Z * Z * Z * Z * Z * Z;      (** year, month, day, hour, minute, second *)
  scopes_to_json : list str → option str;
  scopes_from_json : str → option (list str);
}.

(** What the outside supplies to one call: the clock, two UUIDs, 32 random bytes,
    [datetime('now')] of the database and the epoch in milliseconds. *)
Record env := {
  now : Z;
  uuid1 : str;
  uuid2 : str;
  random : str;
  sql_now : str;
  epoch_ms : Z;
}.

(** * Statements and programs *)

Notation prog := (Prog.prog DB Error) (only parsing).
Notation run := (Prog.run Db) (only parsing).

Definition unique_violation : str := "UNIQUE constraint failed".

(** [INSERT] under a primary key. *)
Definition insert_new {A} (k : str) (row : A) (t : gmap str A) : result (gmap str A) str :=
  match t !! k with Some _ => Err unique_violation | None => Ok (<[k := row]> t) end.

Definition insert_pair_request (k : str) (row : RequestRow) : DB → result unit str * DB := λ s,
  match insert_new k row (pair_requests s) with
  | Ok t => (Ok tt, with_requests s t)
  | Err e => (Err e, s)
  end.

Definition insert_device (k : str) (row : DeviceRow) : DB → result unit str * DB := λ s,
  match insert_new k row (paired_devices s) with
  | Ok t => (Ok tt, with_devices s t)
  | Err e => (Err e, s)
  end.

Definition insert_token (k : str) (row : TokenRow) : DB → result unit str * DB := λ s,
  match insert_new k row (device_tokens s) with
  | Ok t => (Ok tt, with_tokens s t)
  | Err e => (Err e, s)
  end.

Definition set_status (st : str) (r : RequestRow) : RequestRow :=
  {| r_device_id := r_device_id r; r_display_name := r_display_name r; r_platform := r_platform r;
     r_public_key := r_public_key r; r_nonce := r_nonce r; r_status := st;
     r_created_at := r_created_at r; r_expires_at := r_expires_at r |}.

(** [UPDATE pair_requests SET status = .. WHERE id = ?] *)
Definition set_request_status (k st : str) : DB → DB := λ s,
  with_requests s (alter (set_status st) k (pair_requests s)).

(** [INSERT .. ON CONFLICT(device_id) DO UPDATE]; [created_at] stays on conflict. *)
Definition upsert_device (k : str) (name : option str) (plat : str) (key : option str) (created : str)
    : DB → DB := λ s,
  let created' := match paired_devices s !! k with Some d => d_created_at d | None => created end in
  with_devices s (<[k := {| d_display_name := name; d_platform := plat; d_public_key := key;
                            d_status := "active"; d_created_at := created';
                            d_revoked_at := None |}]> (paired_devices s)).

Definition revoke_row (r : TokenRow) : TokenRow :=
  {| t_prefix := t_prefix r; t_device_id := t_device_id r; t_scopes := t_scopes r;
     t_issued_at := t_issued_at r; t_revoked := true |}.

(** [UPDATE device_tokens SET revoked = 1 WHERE device_id = ?]; the further condition
    [revoked = 0] of [rotate_token] changes nothing. *)
Definition revoke_tokens_of (d : str) : DB → DB := λ s,
  with_tokens s ((λ r, if str_eqb (t_device_id r) d then revoke_row r else r) <$> device_tokens s).

Definition set_device_revoked (d at_ : str) : DB → DB := λ s,
  with_devices s (alter (λ r, {| d_display_name := d_display_name r; d_platform := d_platform r;
    d_public_key := d_public_key r; d_status := "revoked"; d_created_at := d_created_at r;
    d_revoked_at := Some at_ |}) d (paired_devices s)).

Definition is_active (r : DeviceRow) : bool := str_eqb (d_status r) "active".
Definition is_revoked (r : DeviceRow) : bool := str_eqb (d_status r) "revoked".

(** [UPDATE .. SET public_key = ? WHERE device_id = ? AND status = 'active' AND public_key
    IS NULL], with the number of rows affected. *)
Definition pin_key (d key : str) : DB → result nat str * DB := λ s,
  match paired_devices s !! d with
  | Some r =>
      if is_active r && negb (isSome (d_public_key r)) then
        (Ok 1%nat, with_devices s (<[d := {| d_display_name := d_display_name r; d_platform := d_platform r;
           d_public_key := Some key; d_status := d_status r; d_created_at := d_created_at r;
           d_revoked_at := d_revoked_at r |}]> (paired_devices s)))
      else (Ok 0%nat, s)
  | None => (Ok 0%nat, s)
  end.

(** * The store *)

Section store.
Context `{Kit}.

(** [PairingStore] holds the pool and the lifetime of a request. *)
Definition pair_ttl : Z := secs 300.

Definition default_scopes : list str :=
  [lit "operator.read"; lit "operator.write"; lit "operator.approvals"].

Definition pad (n : nat) (z : Z) : str :=
  let ds := show_Z z in replicate (n - length ds) (ch "0") ++ ds.

Definition is_expired_sqlite (now : Z) (expires_at : str) : bool :=
  let '(y, mo, d, h, mi, s) := civil now in
  let now_str := pad 4 y ++ lit "-" ++ pad 2 mo ++ lit "-" ++ pad 2 d ++ lit " " ++
                 pad 2 h ++ lit ":" ++ pad 2 mi ++ lit ":" ++ pad 2 s in
  negb (str_le now_str expires_at).

Definition is_expired (now : Z) (expires_at : str) : bool :=
  match parse_datetime expires_at with
  | Some expires => expires <? now
  | None => is_expired_sqlite now expires_at
  end.

Definition generate_token (e : env) : str := url_safe_base64 (random e).
Definition raw_token (e : env) : str := lit "mdt_" ++ generate_token e.

(** The row of a new token; base64 is ASCII, so the prefix is 12 chars. *)
Definition token_row (raw d : str) (sc : list str) (e : env) : TokenRow :=
  {| t_prefix := take 12 raw; t_device_id := d; t_scopes := unwrap_or [] (scopes_to_json sc);
     t_issued_at := sql_now e; t_revoked := false |}.

Definition device_token (raw d : str) (sc : list str) (e : env) : DeviceToken :=
  {| token := raw; token_device := d; scopes := sc; issued_at_ms := epoch_ms e; revoked := false |}.

(** The last statement of [approve], [rotate_token] and [create_device_token]. *)
Definition issue_token (d : str) (sc : list str) (e : env) : prog DeviceToken :=
  let raw := raw_token e in
  let* _ := insert_token (sha256_hex raw) (token_row raw d sc e) in
  Done (Ok (device_token raw d sc e)).

Definition request_pair (e : env) (dev : str) (name : option str) (plat : str) (key : option str)
    : prog PairRequest :=
  let created := format_datetime (now e) in
  let expires := format_datetime (now e + pair_ttl) in
  let* _ := insert_pair_request (uuid1 e)
      {| r_device_id := dev; r_display_name := name; r_platform := plat; r_public_key := key;
         r_nonce := uuid2 e; r_status := "pending"; r_created_at := created; r_expires_at := expires |} in
  Done (Ok {| id := uuid1 e; device_id := dev; display_name := name; platform := plat;
              public_key := key; nonce := uuid2 e; status := Pending;
              created_at := created; expires_at := expires |}).

(** [julianday(a) > julianday(b)], false when either is not a time. *)
Definition jd_gt (a b : str) : bool :=
  match julianday a, julianday b with Some x, Some y => y <? x | _, _ => false end.
Definition jd_le (a b : str) : bool :=
  match julianday a, julianday b with Some x, Some y => x <=? y | _, _ => false end.

Definition to_pair_request (st : PairStatus) (k : str) (r : RequestRow) : PairRequest :=
  {| id := k; device_id := r_device_id r; display_name := r_display_name r;
     platform := r_platform r; public_key := r_public_key r; nonce := r_nonce r; status := st;
     created_at := r_created_at r; expires_at := r_expires_at r |}.

Definition list_pending_at (now : str) : prog (list PairRequest) :=
  let* rows := select (λ s, filter (λ p, str_eqb (r_status p.2) "pending"
                                          && jd_gt (r_expires_at p.2) now = true)
                                   (map_to_list (pair_requests s))) in
  Done (Ok (map (λ p, to_pair_request Pending p.1 p.2) rows)).

Definition list_pending (e : env) : prog (list PairRequest) :=
  list_pending_at (format_datetime (now e)).

Definition approve (e : env) (pair_id : str) : prog DeviceToken :=
  let* row := select (λ s, pair_requests s !! pair_id) in
  match row with
  | None => Done (Err PairRequestNotFound)
  | Some r =>
      let current_status := from_str (r_status r) in
      if negb (bool_decide (current_status = Pending))
      then Done (Err (PairRequestNotPending current_status))
      else if is_expired (now e) (r_expires_at r) then
        let* _ := update (set_request_status pair_id "expired") in
        Done (Err PairRequestExpired)
      else
        let* _ := update (set_request_status pair_id "approved") in
        let* _ := update (upsert_device (r_device_id r) (r_display_name r) (r_platform r)
                            (r_public_key r) (sql_now e)) in
        issue_token (r_device_id r) default_scopes e
  end.

Definition reject (pair_id : str) : prog unit :=
  let* row := select (λ s, pair_requests s !! pair_id) in
  match row with
  | None => Done (Err PairRequestNotFound)
  | Some r =>
      if negb (bool_decide (from_str (r_status r) = Pending))
      then Done (Err (PairRequestNotPending (from_str (r_status r))))
      else
        let* _ := update (set_request_status pair_id "rejected") in
        Done (Ok tt)
  end.

Definition to_device (k : str) (r : DeviceRow) : PairedDevice :=
  {| pd_device_id := k; pd_display_name := d_display_name r; pd_platform := d_platform r;
     pd_public_key := d_public_key r; pd_created_at := d_created_at r |}.

Definition list_devices : prog (list PairedDevice) :=
  let* rows := select (λ s, filter (λ p, is_active p.2 = true) (map_to_list (paired_devices s))) in
  Done (Ok (map (λ p, to_device p.1 p.2)
    (merge_sort (newer (λ p, d_created_at p.2)) rows))).

Definition decode_scopes (json : str) : list str := unwrap_or [] (scopes_from_json json).

Definition live_of (d : str) (r : TokenRow) : bool :=
  str_eqb (t_device_id r) d && negb (t_revoked r).

Definition list_device_tokens (d : str) : prog (list DeviceTokenEntry) :=
  let* rows := select (λ s, filter (λ r, live_of d r = true) (map_to_list (device_tokens s)).*2) in
  Done (Ok (map (λ r, {| te_token_prefix := t_prefix r; te_device_id := d;
                         te_scopes := decode_scopes (t_scopes r); te_issued_at := t_issued_at r |})
    (merge_sort (newer t_issued_at) rows))).

(** [LIMIT 1] without [ORDER BY] may give any live token's scopes; here, the first in the
    map's order. *)
Definition rotate_token (e : env) (d : str) : prog DeviceToken :=
  let* exists_ := select (A := option str) (λ s, d_status <$> paired_devices s !! d) in
  match exists_ with
  | None => Done (Err DeviceNotFound)
  | Some _ =>
      let* scopes_row := select (A := option str) (λ s, t_scopes <$>
          head (filter (λ r, live_of d r = true) (map_to_list (device_tokens s)).*2)) in
      let sc := unwrap_or default_scopes (scopes_row ≫= scopes_from_json) in
      let* _ := update (revoke_tokens_of d) in
      issue_token d sc e
  end.

Definition revoke_token (e : env) (d : str) : prog unit :=
  let* exists_ := select (A := option str) (λ s, d_status <$> paired_devices s !! d) in
  match exists_ with
  | None => Done (Err DeviceNotFound)
  | Some _ =>
      let* _ := update (revoke_tokens_of d) in
      let* _ := update (set_device_revoked d (sql_now e)) in
      Done (Ok tt)
  end.

Definition verify_device_token (raw : str) : prog (option DeviceTokenVerification) :=
  let* row := select (λ s, match device_tokens s !! sha256_hex raw with
                           | Some r => if t_revoked r then None else Some (t_device_id r, t_scopes r)
                           | None => None
                           end) in
  match row with
  | Some (d, json) =>
      let* device_active := select (λ s, match paired_devices s !! d with
                                         | Some r => if is_active r then Some (d_status r) else None
                                         | None => None
                                         end) in
      if isSome device_active
      then Done (Ok (Some {| verified_device := d; verified_scopes := decode_scopes json |}))
      else Done (Ok None)
  | None => Done (Ok None)
  end.

Definition create_device_token (e : env) (name : option str) (plat : str) : prog DeviceToken :=
  let d := uuid1 e in
  let* _ := insert_device d {| d_display_name := name; d_platform := plat; d_public_key := None;
              d_status := "active"; d_created_at := sql_now e; d_revoked_at := None |} in
  issue_token d default_scopes e.

(** A public key is not unique in the table; any row of it may be fetched. *)
Definition device_with_key (key : str) (f : DeviceRow → bool) (s : DB) : option (str * DeviceRow) :=
  head (filter (λ p, bool_decide (d_public_key p.2 = Some key) && f p.2 = true)
               (map_to_list (paired_devices s))).

Definition find_device_by_public_key (key : str) : prog (option PairedDevice) :=
  let* row := select (device_with_key key is_active) in
  Done (Ok ((λ p, to_device p.1 p.2) <$> row)).

Definition is_public_key_revoked (key : str) : prog bool :=
  let* row := select (device_with_key key is_revoked) in
  Done (Ok (isSome row)).

Definition key_and_status (d : str) (s : DB) : option (option str * str) :=
  (λ r, (d_public_key r, d_status r)) <$> paired_devices s !! d.

Definition pin_public_key (d key : str) : prog PinPublicKeyResult :=
  let* row := select (key_and_status d) in
  match row with
  | None => Done (Ok PinDeviceNotFound)
  | Some (stored, st) =>
      if str_eqb st "revoked" then Done (Ok PinRevoked)
      else if negb (str_eqb st "active") then Done (Ok PinDeviceNotFound)
      else match stored with
      | Some stored_key =>
          if str_eqb stored_key key then Done (Ok AlreadyPinned)
          else Done (Ok (PinMismatch stored_key))
      | None =>
          let* affected := pin_key d key in
          if (0 <? affected)%nat then Done (Ok Pinned)
          else
            let* refreshed := select (key_and_status d) in
            match refreshed with
            | Some (Some stored_key, st') =>
                if str_eqb st' "active" && str_eqb stored_key key then Done (Ok AlreadyPinned)
                else if str_eqb st' "active" then Done (Ok (PinMismatch stored_key))
                else if str_eqb st' "revoked" then Done (Ok PinRevoked)
                else Done (Ok PinDeviceNotFound)
            | Some (None, st') =>
                if str_eqb st' "revoked" then Done (Ok PinRevoked) else Done (Ok PinDeviceNotFound)
            | None => Done (Ok PinDeviceNotFound)
            end
      end
  end.

Definition check_key_pinning (d presented : str) : prog KeyPinningResult :=
  let* row := select (key_and_status d) in
  match row with
  | Some (Some stored_key, st) =>
      if str_eqb st "active" then
        if str_eqb stored_key presented then Done (Ok Match)
        else Done (Ok (KeyMismatch stored_key))
      else if str_eqb st "revoked" then Done (Ok KeyRevoked)
      else Done (Ok NoPinnedKey)
  | Some (None, st) =>
      if str_eqb st "active" then Done (Ok NoPinnedKey)
      else if str_eqb st "revoked" then Done (Ok KeyRevoked)
      else Done (Ok NoPinnedKey)
  | None => Done (Ok NoPinnedKey)
  end.

Definition get_pair_status (pair_id : str) : prog (option PairStatus) :=
  let* row := select (A := option str) (λ s, r_status <$> pair_requests s !! pair_id) in
  Done (Ok (from_str <$> row)).

Definition outdated (now : str) (r : RequestRow) : bool :=
  str_eqb (r_status r) "pending" && jd_le (r_expires_at r) now.

Definition evict_expired_at (now : str) : prog nat :=
  let* affected := (λ s,
      (Ok (length (filter (λ p, outdated now p.2 = true) (map_to_list (pair_requests s)))),
       with_requests s ((λ r, if outdated now r then set_status "expired" r else r)
                        <$> pair_requests s))) in
  Done (Ok affected).

Definition evict_expired (e : env) : prog nat := evict_expired_at (format_datetime (now e)).
End store.

(** * Calls *)

(** The methods that write, and the verification of a token, as data. *)
Inductive op :=
| RequestPair (dev : str) (name : option str) (plat : str) (key : option str)
| Approve (pair_id : str)
| Reject (pair_id : str)
| RotateToken (d : str)
| RevokeToken (d : str)
| VerifyDeviceToken (raw : str)
| CreateDeviceToken (name : option str) (plat : str)
| PinPublicKey (d key : str)
| EvictExpired.
Global Instance op_eq_dec : EqDecision op.
Proof. solve_decision. Defined.

Inductive outcome :=
| ORequest (r : PairRequest)
| OToken (t : DeviceToken)
| OVerified (v : option DeviceTokenVerification)
| OPinned (r : PinPublicKeyResult)
| OCount (n : nat)
| OUnit.

Section calls.
Context `{Kit}.

Definition body (e : env) (o : op) : prog outcome :=
  match o with
  | RequestPair dev name plat key => pmap ORequest (request_pair e dev name plat key)
  | Approve i => pmap OToken (approve e i)
  | Reject i => pmap (λ _, OUnit) (reject i)
  | RotateToken d => pmap OToken (rotate_token e d)
  | RevokeToken d => pmap (λ _, OUnit) (revoke_token e d)
  | VerifyDeviceToken raw => pmap OVerified (verify_device_token raw)
  | CreateDeviceToken name plat => pmap OToken (create_device_token e name plat)
  | PinPublicKey d key => pmap OPinned (pin_public_key d key)
  | EvictExpired => pmap OCount (evict_expired e)
  end.

(** ** Calls one after the other *)

Definition call := (env * op * list (option str))%type.
Definition event := (op * result outcome Error)%type.

Definition exec_call (c : call) (st : DB * list event) : DB * list event :=
  let '(e, o, faults) := c in
  let '(r, s') := run (body e o) faults st.1 in
  (s', st.2 ++ [(o, r)]).

Definition exec (cs : list call) : DB * list event :=
  foldl (λ st c, exec_call c st) (empty_db, []) cs.

(** ** Concurrent calls *)

(** The calls in flight by number, and what has finished. *)
Record config := {
  db : DB;
  running : gmap nat (op * prog outcome);
  log : list (nat * event);
}.

Inductive step : config → config → Prop :=
| step_start c n e o :
    running c !! n = None → (∀ ev, (n, ev) ∉ log c) →
    step c {| db := db c; running := <[n := (o, body e o)]> (running c); log := log c |}
| step_query c n o (B : Set) (q : DB → result B str * DB) k b s' :
    running c !! n = Some (o, Query q k) → q (db c) = (Ok b, s') →
    step c {| db := s'; running := <[n := (o, k b)]> (running c); log := log c |}
| step_fault c n o (B : Set) (q : DB → result B str * DB) k e :
    running c !! n = Some (o, Query q k) →
    step c {| db := db c; running := <[n := (o, Done (Err (Db e)))]> (running c); log := log c |}
| step_finish c n o r :
    running c !! n = Some (o, Done r) →
    step c {| db := db c; running := delete n (running c); log := log c ++ [(n, (o, r))] |}.
End calls.

(** * The state in memory *)

Module Memory.
Section memory.
Context `{Kit}.

Record PairingState := {
  pending : gmap str PairRequest;
  devices : gmap str DeviceToken;
}.

Definition new : PairingState := {| pending := ∅; devices := ∅ |}.

Definition with_pending (s : PairingState) p := {| pending := p; devices := devices s |}.
Definition with_devices (s : PairingState) d := {| pending := pending s; devices := d |}.

Definition request_pair (e : env) (s : PairingState) (dev : str) (name : option str) (plat : str)
    (key : option str) : PairRequest * PairingState :=
  let req := {| id := uuid1 e; device_id := dev; display_name := name; platform := plat;
                public_key := key; nonce := uuid2 e; status := Pending;
                created_at := format_datetime (now e);
                expires_at := format_datetime (now e + pair_ttl) |} in
  (req, with_pending s (<[uuid1 e := req]> (pending s))).

Definition list_pending (e : env) (s : PairingState) : list PairRequest :=
  filter (λ r, bool_decide (status r = Pending) &&
               negb (str_le (expires_at r) (format_datetime (now e))) = true)
         (map_to_list (pending s)).*2.

Definition set_status (st : PairStatus) (r : PairRequest) : PairRequest :=
  {| id := id r; device_id := device_id r; display_name := display_name r; platform := platform r;
     public_key := public_key r; nonce := nonce r; status := st; created_at := created_at r;
     expires_at := expires_at r |}.

Definition fresh_token (e : env) (t d : str) (sc : list str) : DeviceToken :=
  {| token := t; token_device := d; scopes := sc; issued_at_ms := epoch_ms e; revoked := false |}.

Definition approve (e : env) (s : PairingState) (pair_id : str)
    : result DeviceToken Error * PairingState :=
  match pending s !! pair_id with
  | None => (Err PairRequestNotFound, s)
  | Some req =>
      if negb (bool_decide (status req = Pending)) then (Err (PairRequestNotPending (status req)), s)
      else if str_le (expires_at req) (format_datetime (now e))
      then (Err PairRequestExpired,
            with_pending s (<[pair_id := set_status Expired req]> (pending s)))
      else
        let t := fresh_token e (uuid1 e) (device_id req) default_scopes in
        (Ok t, {| pending := <[pair_id := set_status Approved req]> (pending s);
                  devices := <[device_id req := t]> (devices s) |})
  end.

Definition reject (s : PairingState) (pair_id : str) : result unit Error * PairingState :=
  match pending s !! pair_id with
  | None => (Err PairRequestNotFound, s)
  | Some req =>
      if negb (bool_decide (status req = Pending)) then (Err (PairRequestNotPending (status req)), s)
      else (Ok tt, with_pending s (<[pair_id := set_status Rejected req]> (pending s)))
  end.

Definition list_devices (s : PairingState) : list DeviceToken :=
  filter (λ d, revoked d = false) (map_to_list (devices s)).*2.

(** The revoked entry is replaced by the new token at once. *)
Definition rotate_token (e : env) (s : PairingState) (d : str)
    : result DeviceToken Error * PairingState :=
  match devices s !! d with
  | None => (Err DeviceNotFound, s)
  | Some existing =>
      let t := fresh_token e (uuid1 e) d (scopes existing) in
      (Ok t, with_devices s (<[d := t]> (devices s)))
  end.

Definition revoke_token (s : PairingState) (d : str) : result unit Error * PairingState :=
  match devices s !! d with
  | None => (Err DeviceNotFound, s)
  | Some t =>
      (Ok tt, with_devices s (<[d := {| token := token t; token_device := token_device t;
                                        scopes := scopes t; issued_at_ms := issued_at_ms t;
                                        revoked := true |}]> (devices s)))
  end.

Definition create_device_token (e : env) (s : PairingState) : DeviceToken * PairingState :=
  let t := fresh_token e (uuid2 e) (uuid1 e) default_scopes in
  (t, with_devices s (<[uuid1 e := t]> (devices s))).

Definition evict_expired (e : env) (s : PairingState) : PairingState :=
  with_pending s (filter (λ p, bool_decide (status p.2 = Pending) &&
                               str_le (expires_at p.2) (format_datetime (now e)) = false)
                         (pending s)).
End memory.
End Memory.

(** * Keys *)

(** base64, Ed25519 and SHA-256 of the crates: a decoder, the parser of a verifying key
    and the check of a signature with it. *)
Class Ed25519 := {
  base64_decode : str → result (list Z) str;
  base64_encode : list Z → str;
  verifying_key : list Z → option str;    (** the error of [VerifyingKey::from_bytes] *)
  verify_signature : list Z → list Z → list Z → bool;
  sha256 : list Z → list Z;
}.

Section keys.
Context `{Ed25519}.
Local Open Scope result_scope.

Definition decode_as (what : str) (size : nat) (b64 : str) (too_long : str) : result (list Z) str :=
  let? bytes := map_err (λ e, lit "invalid " ++ what ++ lit " base64: " ++ e) (base64_decode b64) in
  if (length bytes =? size)%nat then Ok bytes else Err too_long.

Definition decode_public_key (public_key_b64 : str) : result (list Z) str :=
  let? pk := decode_as "public key" 32 public_key_b64 "public key must be exactly 32 bytes" in
  match verifying_key pk with
  | Some e => Err (lit "invalid Ed25519 public key: " ++ e)
  | None => Ok pk
  end.

Definition verify_ed25519_challenge (public_key_b64 : str) (nonce : list Z) (signature_b64 : str)
    : result bool str :=
  let? pk := decode_public_key public_key_b64 in
  let? sig := decode_as "signature" 64 signature_b64 "signature must be exactly 64 bytes" in
  Ok (verify_signature pk nonce sig).

Definition public_key_fingerprint (public_key_b64 : str) : result str str :=
  let? pk := decode_public_key public_key_b64 in
  Ok (lit "SHA256:" ++ base64_encode (sha256 pk)).
End keys.

(** * Specification

    What may be said of tokens and devices from the history of calls and their outcomes alone. *)
Section specification.
Context `{Kit}.

(** The calls that end the tokens of a device. *)
Definition retires (d : str) (o : op) : Prop := o = RotateToken d ∨ o = RevokeToken d.

(** A call returned the token with this hash, and no call that retires its device succeeded since. *)
Definition granted (hist : list event) (h d : str) (sc : list str) : Prop :=
  ∃ h1 o t h2, hist = h1 ++ (o, Ok (OToken t)) :: h2 ∧
    sha256_hex (token t) = h ∧ token_device t = d ∧ scopes t = sc ∧
    ∀ o' x, retires d o' → (o', Ok x) ∉ h2.

Definition requested (hist : list event) (pid d : str) : Prop :=
  ∃ o req, (o, Ok (ORequest req)) ∈ hist ∧ id req = pid ∧ device_id req = d.

(** Whether the failure of an approval may have come after the device was activated. *)
Definition reached {A} (r : result A Error) : Prop := is_ok r ∨ ∃ e, r = Err (Db e).

(** After every successful revocation of the device a request of the device was approved. *)
Definition readmitted (hist : list event) (d : str) : Prop :=
  ∀ h1 x h2, hist = h1 ++ (RevokeToken d, Ok x) :: h2 →
    ∃ pid r, (Approve pid, r) ∈ h2 ∧ reached r ∧ requested hist pid d.
End specification.

(** Documented behaviour of [serde_json]: a list of strings can be printed and is read back. *)
Class KitLaws `{Kit} :=
  scopes_json l : ∃ j, scopes_to_json l = Some j ∧ scopes_from_json j = Some l.

(** * Facts about single statements and calls *)

Local Arguments lit : simpl never.

Section facts.
Context `{Kit}.

Lemma insert_new_Ok {A} k (row : A) t t' : insert_new k row t = Ok t' → t !! k = None ∧ t' = <[k := row]> t.
Proof. unfold insert_new. intros Hi. by destruct (t !! k) eqn:E; simplify_eq. Qed.
Lemma insert_pair_request_Ok k row s u s' :
  insert_pair_request k row s = (Ok u, s') →
  pair_requests s !! k = None ∧ s' = with_requests s (<[k := row]> (pair_requests s)).
Proof. unfold insert_pair_request. intros Hi. destruct (insert_new _ _ _) eqn:E; simplify_eq. apply insert_new_Ok in E as [? ->]. done. Qed.
Lemma insert_device_Ok k row s u s' :
  insert_device k row s = (Ok u, s') →
  paired_devices s !! k = None ∧ s' = with_devices s (<[k := row]> (paired_devices s)).
Proof. unfold insert_device. intros Hi. destruct (insert_new _ _ _) eqn:E; simplify_eq. apply insert_new_Ok in E as [? ->]. done. Qed.
Lemma insert_token_Ok k row s u s' :
  insert_token k row s = (Ok u, s') →
  device_tokens s !! k = None ∧ s' = with_tokens s (<[k := row]> (device_tokens s)).
Proof. unfold insert_token. intros Hi. destruct (insert_new _ _ _) eqn:E; simplify_eq. apply insert_new_Ok in E as [? ->]. done. Qed.

Lemma pin_key_Ok d key s n s' :
  pin_key d key s = (Ok n, s') →
  s' = s ∨ ∃ r r', s' = with_devices s (<[d := r']> (paired_devices s)) ∧
                   paired_devices s !! d = Some r ∧ is_active r = true ∧ d_public_key r = None ∧
                   d_status r' = d_status r ∧ d_public_key r' = Some key.
Proof.
  unfold pin_key. intros Hp. destruct (paired_devices s !! d) as [r|] eqn:E; simplify_eq; [|by left].
  destruct (is_active r && _) eqn:Ea; simplify_eq; [|by left]. right.
  apply andb_true_iff in Ea as [Ea Hk]. destruct (d_public_key r) eqn:?; [done|].
  eexists r, _. by split_and!.
Qed.

(** What the outcome of a statement says about the tables. *)
Ltac query Hq :=
  lazymatch type of Hq with
  | select _ _ = _ => unfold select in Hq; injection Hq as ? ?; subst
  | update _ _ = _ => unfold update in Hq; injection Hq as ? ?; subst
  | insert_pair_request _ _ _ = _ => apply insert_pair_request_Ok in Hq as [? ->]
  | insert_device _ _ _ = _ => apply insert_device_Ok in Hq as [? ->]
  | insert_token _ _ _ = _ => apply insert_token_Ok in Hq as [? ->]
  | pin_key _ _ _ = _ => apply pin_key_Ok in Hq as [->|(? & ? & -> & ? & ? & ? & ? & ?)]
  | _ => injection Hq as ? ?; subst
  end.

Ltac run_cases H :=
  let r0 := fresh "r" in let E := fresh "E" in
  apply run_pmap in H as (r0 & H & E);
  unfold request_pair, approve, reject, rotate_token, revoke_token, verify_device_token,
    create_device_token, pin_public_key, evict_expired, evict_expired_at, issue_token in H;
  repeat (cbv beta zeta in H;
    lazymatch type of H with
    | run (Query _ _) _ _ = _ =>
        let Hq := fresh "Hq" in
        apply run_Query in H as [(? & ? & ?)|(? & ? & ? & Hq & H)]; [subst|query Hq]
    | run (Done _) _ _ = _ => injection H as ? ?; subst
    | run (match ?x with _ => _ end) _ _ = _ => destruct x eqn:?
    | _ => fail
    end).

(** Lookups in an updated table. *)
Ltac look H :=
  repeat match type of H with
  | <[_ := _]> _ !! _ = Some _ => apply lookup_insert_Some in H as [[? ?]|[? H]]
  | alter _ _ _ !! _ = Some _ => apply lookup_alter_Some in H as [(? & ? & H & ?)|[? H]]
  | (_ <$> _) !! _ = Some _ => apply lookup_fmap_Some in H as (? & ? & H)
  end; simplify_eq/=.

Lemma call_requests e o f s r s' pid row' :
  run (body e o) f s = (r, s') → pair_requests s' !! pid = Some row' →
  (∃ row, pair_requests s !! pid = Some row ∧ r_device_id row' = r_device_id row) ∨
  (∃ req, r = Ok (ORequest req) ∧ id req = pid ∧ device_id req = r_device_id row').
Proof.
  intros Hr Hp. destruct o; run_cases Hr; simplify_eq/=; try (left; by eauto); look Hp; eauto 6.
  left. eexists. split; [done|]. by destruct (outdated _ _).
Qed.

Definition active (s : DB) (d : str) : Prop := ∃ row, paired_devices s !! d = Some row ∧ is_active row = true.

Lemma call_devices e o f s r s' d :
  run (body e o) f s = (r, s') → active s' d →
  (∃ pid row, o = Approve pid ∧ reached r ∧ pair_requests s !! pid = Some row ∧ r_device_id row = d) ∨
  (active s d ∧ ¬ (o = RevokeToken d ∧ is_ok r)) ∨ paired_devices s !! d = None.
Proof.
  unfold active, reached. intros Hr (row' & Hd & Ha). destruct o; run_cases Hr; simplify_eq/=;
    try (right; left; split; [by eauto|by intros [? ?]]); look Hd;
    try (right; left; split; [by eauto|by intros [? ?]; simplify_eq]); try (by right; right);
    try (left; eexists _, _; split_and!; [done|by (left + (right; eexists))|done|done]).
  all: right; left; split; [|by intros [? ?]; simplify_eq]; eexists; split; [done|]; unfold is_active in *; congruence.
Qed.

(** A row that was there before, possibly revoked since. *)
Definition older (row row' : TokenRow) : Prop :=
  t_device_id row' = t_device_id row ∧ t_scopes row' = t_scopes row ∧
  (t_revoked row' = false → t_revoked row = false).

Lemma call_tokens e o f s r s' h row' :
  run (body e o) f s = (r, s') → device_tokens s' !! h = Some row' →
  (∃ t, r = Ok (OToken t) ∧ sha256_hex (token t) = h ∧ token_device t = t_device_id row' ∧
        t_scopes row' = unwrap_or [] (scopes_to_json (scopes t)) ∧ t_revoked row' = false) ∨
  (∃ row, device_tokens s !! h = Some row ∧ older row row' ∧
          (t_revoked row' = false → ¬ (retires (t_device_id row) o ∧ is_ok r))).
Proof.
  unfold older, retires. intros Hr Hd. destruct o; run_cases Hr; simplify_eq/=;
    try (right; eexists; split; [done|]; split; [done|]; intros _ [[?|?] ?]; done);
    look Hd; try (left; eexists; by split_and!);
    try (right; eexists; split; [done|]; split; [done|]; intros _ [[?|?] ?]; done).
  all: right; eexists; split; [done|]; destruct (str_eqb _ _) eqn:E; simpl; (split; [done|]); [done|].
  all: intros _ [[?|?] ?]; simplify_eq; by rewrite str_eqb_refl in E.
Qed.

Lemma call_known e o f s r s' d :
  run (body e o) f s = (r, s') →
  paired_devices s !! d ≠ None ∨ (o = RevokeToken d ∧ is_ok r) → paired_devices s' !! d ≠ None.
Proof.
  intros Hr Hk. destruct o; run_cases Hr; simplify_eq/=;
    (destruct Hk as [Hk|[Ho ?]]; [|done || simplify_eq]); try done;
    rewrite ?lookup_insert_None, ?lookup_alter_None; try done; try (by intros []).
  intros Hn. by rewrite Hn in Heqo.
Qed.

Lemma requested_snoc hist ev pid d : requested hist pid d → requested (hist ++ [ev]) pid d.
Proof. intros (o & req & Hi & ?). exists o, req. rewrite elem_of_app. by split; [left|]. Qed.

Lemma readmitted_snoc hist o r d :
  ¬ (o = RevokeToken d ∧ is_ok r) → readmitted hist d → readmitted (hist ++ [(o, r)]) d.
Proof.
  intros Hn Hr h1 x h2 [(-> & _ & ?)|(h2' & -> & E)]%snoc_split; [simplify_eq; by destruct Hn|].
  destruct (Hr _ _ _ E) as (pid & r' & Hi & ? & Hq). exists pid, r'. rewrite elem_of_app.
  split_and!; [by left|done|by apply requested_snoc].
Qed.

Lemma granted_snoc hist o r h d sc :
  ¬ (retires d o ∧ is_ok r) → granted hist h d sc → granted (hist ++ [(o, r)]) h d sc.
Proof.
  intros Hn (h1 & o1 & t & h2 & -> & ? & ? & ? & Hh). exists h1, o1, t, (h2 ++ [(o, r)]).
  split_and!; try done; [by rewrite <- app_assoc|].
  intros o' x Ho [Hi|Hi%list_elem_of_singleton]%elem_of_app; [by eapply Hh|]. simplify_eq. by destruct Hn.
Qed.

(** The tables as the history explains them. *)
Record Inv (s : DB) (hist : list event) : Prop := {
  inv_tokens h row : device_tokens s !! h = Some row → t_revoked row = false →
    granted hist h (t_device_id row) (decode_scopes (t_scopes row));
  inv_devices d : active s d → readmitted hist d;
  inv_requests pid row : pair_requests s !! pid = Some row → requested hist pid (r_device_id row);
  inv_known d x : (RevokeToken d, Ok x) ∈ hist → paired_devices s !! d ≠ None;
}.

Context {HL : KitLaws}.

Lemma Inv_call e o f s r s' hist :
  run (body e o) f s = (r, s') → Inv s hist → Inv s' (hist ++ [(o, r)]).
Proof.
  intros Hr [Ht Hd Hq Hk]. split.
  - intros h row Hl Hv. destruct (call_tokens _ _ _ _ _ _ _ _ Hr Hl) as
      [(t & -> & ? & ? & Hj & _)|(row0 & Hl0 & (Ed & Es & Er) & Hn)].
    + destruct (scopes_json (scopes t)) as (j & Ej & Ej').
      exists hist, o, t, []. split_and!; try done; [|by intros ? ? _ ?%not_elem_of_nil].
      rewrite Hj, Ej. unfold decode_scopes. simpl. by rewrite Ej'.
    + rewrite Ed, Es. apply granted_snoc; auto.
  - intros d Ha. destruct (call_devices _ _ _ _ _ _ _ Hr Ha) as
      [(pid & row & -> & Hre & Hp & <-)|[[Ha0 Hn]|Hn]].
    + intros h1 x h2 [(-> & _ & ?)|(h2' & -> & E)]%snoc_split; [simplify_eq|].
      exists pid, r. split_and!; [set_solver|done|]. apply requested_snoc. by apply Hq.
    + apply readmitted_snoc; [done|]. by apply Hd.
    + intros h1 x h2 [(-> & -> & ?)|(h2' & -> & E)]%snoc_split.
      * simplify_eq. unfold body in Hr. run_cases Hr; simplify_eq/=. by rewrite Hn in *.
      * destruct (Hk d x); [|done]. rewrite E. set_solver.
  - intros pid row' Hl. destruct (call_requests _ _ _ _ _ _ _ _ Hr Hl) as [(row & Hl0 & ->)|(req & -> & ? & ?)].
    + apply requested_snoc. by apply Hq.
    + exists o, req. split; [set_solver|done].
  - intros d x Hi. apply (call_known _ _ _ _ _ _ _ Hr).
    apply elem_of_app in Hi as [Hi|Hi%list_elem_of_singleton]; [left; eauto|right; by simplify_eq].
Qed.

Lemma exec_snoc cs c : exec (cs ++ [c]) = exec_call c (exec cs).
Proof. unfold exec. by rewrite foldl_app. Qed.

Lemma exec_Inv cs s hist : exec cs = (s, hist) → Inv s hist.
Proof.
  revert s hist. induction cs as [|[[e o] f] cs IH] using rev_ind; intros s hist.
  - unfold exec. simpl. intros [= <- <-]. split; try done; [by intros ? (? & ? & ?)|].
    by intros ? ? ?%not_elem_of_nil.
  - rewrite exec_snoc. destruct (exec cs) as [s0 h0]. unfold exec_call.
    destruct (run (body e o) f _) as [r s1] eqn:E. intros [= <- <-]. eapply Inv_call; eauto.
Qed.

Lemma verify_Some raw f s v s' :
  run (verify_device_token raw) f s = (Ok (Some v), s') →
  active s (verified_device v) ∧ ∃ row, device_tokens s !! sha256_hex raw = Some row ∧
    t_revoked row = false ∧ t_device_id row = verified_device v ∧
    decode_scopes (t_scopes row) = verified_scopes v.
Proof.
  unfold verify_device_token. intros Hr.
  apply run_Query in Hr as [(? & ? & ?)|(x & s1 & f' & Hq & Hr)]; [done|]. query Hq.
  destruct (device_tokens _ !! _) as [row|]; [|by cbn in Hr; simplify_eq].
  destruct (t_revoked row) eqn:?; [by cbn in Hr; simplify_eq|].
  apply run_Query in Hr as [(? & ? & ?)|(x & s2 & f2 & Hq & Hr)]; [done|]. query Hq.
  destruct (paired_devices _ !! _) as [d|] eqn:E; [|by cbn in Hr; simplify_eq].
  destruct (is_active d) eqn:?; cbn in Hr; simplify_eq. split; [by exists d|]. eauto 10.
Qed.

(** C11. A device token is accepted only if a call returned it, for that device and with those
    scopes; if no successful rotation or revocation of the device came after that call; and if
    after every successful revocation of the device one of its pairing requests was approved.
    This holds for every sequence of calls in which any statement may fail. *)
Theorem token_needs_grant cs s hist raw f v s' :
  exec cs = (s, hist) → run (verify_device_token raw) f s = (Ok (Some v), s') →
  granted hist (sha256_hex raw) (verified_device v) (verified_scopes v) ∧
  readmitted hist (verified_device v).
Proof.
  intros [Ht Hd _ _]%exec_Inv (Ha & row & Hl & Hv & Ed & <-)%verify_Some. split; [|by apply Hd].
  rewrite <- Ed. by apply Ht.
Qed.

(** ** Tokens in force *)

Definition in_force (s : DB) (h d : str) (sc : list str) : Prop :=
  active s d ∧ ∃ row, device_tokens s !! h = Some row ∧ t_revoked row = false ∧
    t_device_id row = d ∧ decode_scopes (t_scopes row) = sc.

Lemma in_force_verifies s raw d sc :
  in_force s (sha256_hex raw) d sc →
  run (verify_device_token raw) [] s = (Ok (Some {| verified_device := d; verified_scopes := sc |}), s).
Proof.
  intros ((dev & Hd & Ha) & row & Hl & Hv & <- & <-). cbn. rewrite Hl, Hv. cbn. rewrite Hd, Ha. done.
Qed.

Lemma call_active e o f s r s' d :
  run (body e o) f s = (r, s') → o ≠ RevokeToken d → active s d → active s' d.
Proof.
  unfold active. intros Hr Hn (dev & Hd & Ha).
  destruct o; run_cases Hr; simplify_eq/=; try by eauto.
  all: try match goal with |- context [<[?k := _]> _ !! ?d] =>
    destruct (decide (k = d)) as [->|]; rewrite ?lookup_insert_eq, ?lookup_insert_ne by done end; eauto.
  1: rewrite lookup_alter_ne by congruence; eauto.
  all: eexists; split; [done|]; unfold is_active in *; congruence.
Qed.

Lemma call_live e o f s r s' h row :
  run (body e o) f s = (r, s') → ¬ retires (t_device_id row) o →
  device_tokens s !! h = Some row → device_tokens s' !! h = Some row.
Proof.
  unfold retires. intros Hr Hn Hl. destruct o; run_cases Hr; simplify_eq/=; try done;
    rewrite ?lookup_insert_ne
      by (intros <-; match goal with Hk : _ !! _ = None |- _ => by rewrite ?lookup_fmap, Hl in Hk end);
    try done; rewrite lookup_fmap, Hl; simpl;
    destruct (str_eqb _ _) eqn:E; try done; apply str_eqb_true in E; subst; destruct Hn; auto.
Qed.

Lemma call_in_force e o f s r s' h d sc :
  run (body e o) f s = (r, s') → ¬ retires d o → in_force s h d sc → in_force s' h d sc.
Proof.
  intros Hr Hn (Ha & row & Hl & Hv & <- & Es). split.
  - eapply call_active; [done| |done]. intros ->. apply Hn. by right.
  - exists row. split_and!; try done. by eapply call_live.
Qed.

Lemma issued_in_force e o f s t s' :
  (∃ pid, o = Approve pid) ∨ (∃ name plat, o = CreateDeviceToken name plat) →
  run (body e o) f s = (Ok (OToken t), s') → in_force s' (sha256_hex (token t)) (token_device t) (scopes t).
Proof.
  destruct (scopes_json default_scopes) as (j & Ej & Ej').
  unfold in_force, active. intros [(pid & ->)|(name & plat & ->)] Hr; run_cases Hr; simplify_eq/=;
    rewrite !lookup_insert_eq; (split; [by eexists|]); (eexists; split; [done|]); simpl;
    rewrite Ej; unfold decode_scopes; simpl; by rewrite Ej'.
Qed.

(** A token that an approval or [create_device_token] returned is accepted, for its device
    and with its scopes, as long as the device is not rotated or revoked: whatever other calls
    come in between, and whichever of their statements fail. *)
Theorem issued_token_verifies cs1 e o f t cs2 :
  (∃ pid, o = Approve pid) ∨ (∃ name plat, o = CreateDeviceToken name plat) →
  last (exec (cs1 ++ [(e, o, f)])).2 = Some (o, Ok (OToken t)) →
  (∀ e' o' f', (e', o', f') ∈ cs2 → ¬ retires (token_device t) o') →
  let s := (exec (cs1 ++ (e, o, f) :: cs2)).1 in
  run (verify_device_token (token t)) [] s =
    (Ok (Some {| verified_device := token_device t; verified_scopes := scopes t |}), s).
Proof.
  intros Ho Hl Hn s. apply in_force_verifies. subst s.
  assert (H1 : in_force (exec (cs1 ++ [(e, o, f)])).1 (sha256_hex (token t)) (token_device t) (scopes t)).
  { rewrite exec_snoc in *. destruct (exec cs1) as [s0 h0]. unfold exec_call in *.
    destruct (run (body e o) f _) as [r s1] eqn:E. simpl in *. rewrite last_snoc in Hl. simplify_eq.
    by eapply issued_in_force. }
  rewrite cons_middle, app_assoc. clear Hl Ho. revert Hn.
  induction cs2 as [|[[e' o'] f'] cs2 IH] using rev_ind; intros Hn; [by rewrite app_nil_r|].
  rewrite app_assoc, exec_snoc. destruct (exec (_ ++ cs2)) as [s0 h0] eqn:Es. unfold exec_call.
  destruct (run (body e' o') f' _) as [r s1] eqn:E. simpl in *.
  eapply call_in_force; [done| |].
  - apply (Hn e' o' f'). apply elem_of_app. right. by apply list_elem_of_singleton.
  - apply IH. intros e2 o2 f2 Hi. apply (Hn e2 o2 f2). apply elem_of_app. by left.
Qed.

(** ** Settled requests *)

Definition decides (pid : str) (o : op) : Prop := o = Approve pid ∨ o = Reject pid.

(** The status that the outcome of a call gives to its request for good. *)
Definition verdict {A} (o : op) (r : result A Error) : option PairStatus :=
  match o, r with
  | Approve _, Ok _ => Some Approved
  | Approve _, Err PairRequestExpired => Some Expired
  | Reject _, Ok _ => Some Rejected
  | _, _ => None
  end.

Definition has_status (s : DB) (pid : str) (v : PairStatus) : Prop :=
  ∃ row, pair_requests s !! pid = Some row ∧ r_status row = as_str v.

Lemma as_str_inv v : from_str (as_str v) = v.
Proof. by destruct v. Qed.

Lemma verdict_status e o f s r s' pid v :
  run (body e o) f s = (r, s') → decides pid o → verdict o r = Some v → has_status s' pid v ∧ v ≠ Pending.
Proof.
  unfold has_status. intros Hr [-> | ->] Hv; run_cases Hr; simplify_eq/=;
    rewrite lookup_alter_eq; match goal with Hl : _ !! _ = Some _ |- _ => rewrite Hl end; simpl; eauto.
Qed.

Lemma settled_outcome e o f s r s' pid v :
  run (body e o) f s = (r, s') → has_status s pid v → v ≠ Pending → decides pid o →
  (∃ x, r = Err (Db x)) ∨ r = Err (PairRequestNotPending v).
Proof.
  intros Hr (row & Hl & Hs) Hv [-> | ->]; run_cases Hr; simplify_eq/=; eauto;
    rewrite Hs, as_str_inv in *; auto; by rewrite bool_decide_eq_false_2 in *.
Qed.

Lemma settled_stays e o f s r s' pid v :
  run (body e o) f s = (r, s') → has_status s pid v → v ≠ Pending → has_status s' pid v.
Proof.
  unfold has_status. intros Hr (row & Hl & Hs) Hv. destruct o; run_cases Hr; simplify_eq/=; try by eauto.
  2-6: destruct (decide (pair_id = pid)) as [->|]; [|rewrite lookup_alter_ne by done; by eauto];
    simplify_eq; rewrite Hs, as_str_inv in *; by rewrite bool_decide_eq_false_2 in *.
  - rewrite lookup_insert_ne by congruence; eauto.
  - rewrite lookup_fmap, Hl. eexists. split; [done|]. unfold outdated. rewrite Hs.
    by destruct v.
Qed.

(** A request is settled once: after a call approved it, rejected it or found it expired,
    every later approval or rejection of it is refused with the status it was given then (or
    fails in the database), so that a request never yields a second token.  Any statement may fail; calls do not
    overlap (concurrent approvals are another matter, see [double_approval]). *)
Theorem settled_request_refused cs s hist h1 o x h2 pid v o' r :
  exec cs = (s, hist) → hist = h1 ++ (o, x) :: h2 → decides pid o → verdict o x = Some v →
  (o', r) ∈ h2 → decides pid o' →
  (∃ e, r = Err (Db e)) ∨ r = Err (PairRequestNotPending v).
Proof.
  intros He Hh Ho Hv Hr Ho'. assert (Hs : has_status s pid v ∧ v ≠ Pending ∧
    ∀ o' r, (o', r) ∈ h2 → decides pid o' → (∃ e, r = Err (Db e)) ∨ r = Err (PairRequestNotPending v));
    [|destruct Hs as (_ & _ & Hs); eauto].
  clear o' r Hr Ho'. revert s hist h2 He Hh.
  induction cs as [|[[e2 o2] f] cs IH] using rev_ind; intros s hist h2.
  - intros [= <- <-] E. by destruct h1.
  - rewrite exec_snoc. destruct (exec cs) as [s0 h0]. unfold exec_call. simpl.
    destruct (run (body e2 o2) f s0) as [r2 s1] eqn:Er. intros [= <- <-] E.
    apply snoc_split in E as [(-> & -> & ?)|(h2' & -> & ->)]; simplify_eq.
    + destruct (verdict_status _ _ _ _ _ _ _ _ Er Ho Hv). split_and!; try done.
      by intros ? ? ?%not_elem_of_nil.
    + destruct (IH _ _ _ eq_refl eq_refl) as (Hs & Hp & Hl). split_and!; [by eapply settled_stays|done|].
      intros o' r [Hi|Hi%list_elem_of_singleton]%elem_of_app Hd; [eauto|]. simplify_eq.
      eapply settled_outcome; eauto.
Qed.

(** ** Concurrent calls *)

(** A row stays, with its device and scopes, and once revoked it stays revoked. *)
Definition rows_stay (s s' : DB) : Prop :=
  ∀ h row, device_tokens s !! h = Some row → ∃ row', device_tokens s' !! h = Some row' ∧
    t_device_id row' = t_device_id row ∧ (t_revoked row = true → t_revoked row' = true).

Lemma rows_stay_same s s' : device_tokens s' = device_tokens s → rows_stay s s'.
Proof. intros E h row Hl. rewrite E. eauto. Qed.

Lemma rows_stay_revoke d s : rows_stay s (revoke_tokens_of d s).
Proof.
  intros h row Hl. simpl. rewrite lookup_fmap, Hl. simpl. eexists. split; [done|].
  by destruct (str_eqb _ _).
Qed.

Lemma rows_stay_insert h row s : device_tokens s !! h = None → rows_stay s (with_tokens s (<[h := row]> (device_tokens s))).
Proof.
  intros Hn h' row' Hl. simpl. rewrite lookup_insert_ne by congruence. eauto.
Qed.

Ltac statements_by tac :=
  repeat (cbv beta zeta;
    lazymatch goal with
    | |- all_statements _ (pmap _ _) => apply all_statements_pmap
    | |- all_statements _ (Done _) => exact I
    | |- all_statements _ (Query _ _) =>
        let Hq := fresh "Hq" in
        intros ? ? ? Hq; query Hq; (split; [tac|])
    | |- all_statements _ (match ?x with _ => _ end) => destruct x
    end).
Ltac statements :=
  statements_by ltac:(first [by apply rows_stay_same | by apply rows_stay_revoke | by apply rows_stay_insert]).

Lemma body_rows_stay e o : all_statements rows_stay (body e o).
Proof.
  destruct o; unfold body, request_pair, approve, reject, rotate_token, revoke_token,
    verify_device_token, create_device_token, pin_public_key, evict_expired, evict_expired_at,
    issue_token; statements.
Qed.

(** A request stays, for its device and with its key. *)
Definition requests_keep (s s' : DB) : Prop :=
  ∀ k row, pair_requests s !! k = Some row → ∃ row', pair_requests s' !! k = Some row' ∧
    r_device_id row' = r_device_id row ∧ r_public_key row' = r_public_key row.
Global Instance requests_keep_preorder : PreOrder requests_keep.
Proof.
  split; [by intros s k row; eauto|]. intros s1 s2 s3 H1 H2 k row (row2 & Hl & <- & <-)%H1. apply H2 in Hl as (row3 & ? & ? & ?).
  eauto.
Qed.

Lemma requests_keep_same s s' : pair_requests s' = pair_requests s → requests_keep s s'.
Proof. intros E k row Hl. rewrite E. eauto. Qed.
Lemma requests_keep_insert k row s :
  pair_requests s !! k = None → requests_keep s (with_requests s (<[k := row]> (pair_requests s))).
Proof. intros Hn k' row' Hl. simpl. rewrite lookup_insert_ne by congruence. eauto. Qed.
Lemma requests_keep_status k st s : requests_keep s (set_request_status k st s).
Proof.
  intros k' row Hl. simpl. destruct (decide (k = k')) as [<-|Hk].
  - rewrite lookup_alter_eq, Hl. simpl. eauto.
  - rewrite lookup_alter_ne by done. eauto.
Qed.
Lemma requests_keep_evict now s :
  requests_keep s (with_requests s ((λ r, if outdated now r then set_status "expired" r else r) <$> pair_requests s)).
Proof. intros k row Hl. simpl. rewrite lookup_fmap, Hl. simpl. eexists. split; [done|]. by destruct (outdated now row). Qed.

Lemma body_requests_keep e o : all_statements requests_keep (body e o).
Proof.
  destruct o; unfold body, request_pair, approve, reject, rotate_token, revoke_token,
    verify_device_token, create_device_token, pin_public_key, evict_expired, evict_expired_at, issue_token;
    statements_by ltac:(first [by apply requests_keep_same | by apply requests_keep_insert | by apply requests_keep_status
                              | by apply requests_keep_evict]).
Qed.

(** The token with hash [h] belongs to device [d]; it is revoked. *)
Definition belongs (h d : str) (s : DB) : Prop :=
  ∃ row, device_tokens s !! h = Some row ∧ t_device_id row = d.
Definition dead (h : str) (s : DB) : Prop :=
  ∃ row, device_tokens s !! h = Some row ∧ t_revoked row = true.

Lemma belongs_stays h d s s' : rows_stay s s' → belongs h d s → belongs h d s'.
Proof. intros Hs (row & Hl & <-). destruct (Hs _ _ Hl) as (row' & ? & ? & _). by exists row'. Qed.
Lemma dead_stays h s s' : rows_stay s s' → dead h s → dead h s'.
Proof. intros Hs (row & Hl & Hr). destruct (Hs _ _ Hl) as (row' & ? & _ & ?). exists row'. auto. Qed.

Lemma revoke_kills h d s : belongs h d s → dead h (revoke_tokens_of d s).
Proof.
  intros (row & Hl & <-). unfold dead. simpl. rewrite lookup_fmap, Hl. simpl.
  rewrite str_eqb_refl. by eexists.
Qed.

Lemma retire_establishes e o h d : retires d o → establishes (belongs h d) (dead h) (body e o).
Proof.
  intros [-> | ->]; apply establishes_pmap; intros s b s' Hj Hq; query Hq; right;
    destruct (d_status <$> _); try done.
  - intros s1 b1 s1' Hj' Hq; query Hq. right. intros s2 b2 s2' Hj1 Hq; query Hq. left. by apply revoke_kills.
  - intros s1 b1 s1' Hj' Hq; query Hq. left. by apply revoke_kills.
Qed.

Lemma verify_dead raw f s v : dead (sha256_hex raw) s → (run (verify_device_token raw) f s).1 ≠ Ok (Some v).
Proof.
  intros (row & Hl & Hr) E. destruct (run _ _ _) as [r s'] eqn:Er. simpl in E. subst.
  apply verify_Some in Er as (_ & row' & ? & ? & _). congruence.
Qed.

Definition initial (s : DB) : config := {| db := s; running := ∅; log := [] |}.

Definition well_behaved (c : config) : Prop :=
  ∀ n o p, running c !! n = Some (o, p) → all_statements rows_stay p.

Lemma step_well_behaved c c' : step c c' → well_behaved c → well_behaved c' ∧ rows_stay (db c) (db c').
Proof.
  intros Hs Hw. destruct Hs as [c n e o Hn Hl|c n o B q k b s' Hn Hq|c n o B q k e Hn|c n o r Hn]; simpl.
  - split; [|by apply rows_stay_same]. intros m o' p Hp. simpl in *. look Hp; [apply body_rows_stay|eauto].
  - destruct (Hw _ _ _ Hn _ _ _ Hq) as [Hr Ha]. split; [|done]. intros m o' p Hp. simpl in *. look Hp; eauto.
  - split; [|by apply rows_stay_same]. intros m o' p Hp. simpl in *. look Hp; [done|eauto].
  - split; [|by apply rows_stay_same]. intros m o' p Hp. simpl in *.
    apply lookup_delete_Some in Hp as [_ Hp]. eauto.
Qed.

Lemma steps_well_behaved c c' : rtc step c c' → well_behaved c → well_behaved c'.
Proof. induction 1 as [|c c1 c' Hs _ IH]; intros Hw; [done|]. by apply IH, (step_well_behaved _ _ Hs). Qed.

(** Call [n], if it retires [d], is still short of revoking the token, or has revoked it. *)
Definition tracked (n : nat) (h d : str) (c : config) : Prop :=
  belongs h d (db c) ∧
  (dead h (db c) ∨
   (∀ o p, running c !! n = Some (o, p) → retires d o → establishes (belongs h d) (dead h) p) ∧
   (∀ o x, (n, (o, Ok x)) ∈ log c → ¬ retires d o)).

Lemma step_tracked n h d c c' : step c c' → well_behaved c → tracked n h d c → tracked n h d c'.
Proof.
  intros Hs Hw [Hb Ht]. destruct (step_well_behaved _ _ Hs Hw) as [_ Hr].
  split; [by eapply belongs_stays|]. destruct Ht as [Hd|[Hp Hl]]; [left; by eapply dead_stays|].
  destruct Hs as [c m e o Hn Hf|c m o B q k b s' Hn Hq|c m o B q k e Hn|c m o r Hn]; simpl in *.
  - right. split; [|done]. intros o' p Hk Ho. look Hk; [by apply retire_establishes|eauto].
  - destruct (decide (m = n)) as [->|Hm].
    + destruct (decide (o = RotateToken d ∨ o = RevokeToken d)) as [Ho|Ho].
      * destruct (Hp _ _ Hn Ho _ _ _ Hb Hq) as [?|He]; [by left|right]. split; [|done].
        intros o' p Hk _. rewrite lookup_insert_eq in Hk. by simplify_eq.
      * right. split; [|done]. intros o' p Hk Ho'. rewrite lookup_insert_eq in Hk. by simplify_eq.
    + right. split; [|done]. intros o' p Hk. rewrite lookup_insert_ne in Hk by done. eauto.
  - right. split; [|done]. intros o' p Hk Ho'. look Hk; [done|eauto].
  - right. split.
    + intros o' p Hk. apply lookup_delete_Some in Hk as [_ Hk]. eauto.
    + intros o' x [Hi|Hi%list_elem_of_singleton]%elem_of_app Ho; [by eapply Hl|]. simplify_eq.
      exact (Hp _ _ Hn Ho).
Qed.

(** Revocation is final under every interleaving of concurrent calls, whichever of their
    statements fail: once a rotation or revocation of a device that began after a token of the
    device existed has succeeded, that token is never accepted again. *)
Theorem retired_token_stays_dead s0 c c' n o x raw d f v :
  rtc step (initial s0) c → belongs (sha256_hex raw) d (db c) →
  running c !! n = None → (∀ ev, (n, ev) ∉ log c) →
  rtc step c c' → (n, (o, Ok x)) ∈ log c' → retires d o →
  (run (verify_device_token raw) f (db c')).1 ≠ Ok (Some v).
Proof.
  intros H0 Hb Hn Hl Hs Hx Ho. apply verify_dead.
  assert (Hw : well_behaved c) by (by eapply steps_well_behaved; [done|intros ? ? ? ?]).
  assert (Ht : tracked n (sha256_hex raw) d c).
  { split; [done|right]. split; [by intros ? ? ?; simplify_eq|]. intros ? ? Hi. by destruct (Hl _ Hi). }
  clear H0 Hn Hl Hb. revert Hw Ht. induction Hs as [c|c c1 c' Hs _ IH]; intros Hw Ht.
  - destruct Ht as [_ [Hd|[_ Hl]]]; [done|]. by destruct (Hl _ _ Hx).
  - apply IH; [done|by apply (step_well_behaved _ _ Hs)|by eapply step_tracked].
Qed.
End facts.

(** * Witnesses *)

(** Times and lists of strings as one char; hashes and encodings as the identity. *)
Definition plain_kit : Kit :=
  {| sha256_hex := λ s, s; url_safe_base64 := λ s, s;
     format_datetime := λ t, [Z.to_N t];
     parse_datetime := λ s, match s with [n] => Some (Z.of_N n) | _ => None end;
     julianday := λ s, match s with [n] => Some (Z.of_N n) | _ => None end;
     civil := λ _, (2026, 1, 1, 0, 0, 0);
     scopes_to_json := λ l, Some [Npos (encode l)];
     scopes_from_json := λ s, match s with [Npos p] => decode p | _ => None end |}.
Lemma plain_laws : KitLaws (H := plain_kit).
Proof. intros l. eexists. split; [reflexivity|]. simpl. apply decode_encode. Defined.

(** A scheduler for examples: start call [n], or let it execute one statement or finish. *)
Section schedule.
Context `{Kit}.

Definition start (n : nat) (e : env) (o : op) (c : config) : config :=
  {| db := db c; running := <[n := (o, body e o)]> (running c); log := log c |}.

Definition advance (c : config) (n : nat) : config :=
  match running c !! n with
  | Some (o, Query q k) =>
      match q (db c) with
      | (Ok b, s') => {| db := s'; running := <[n := (o, k b)]> (running c); log := log c |}
      | (Err e, _) => {| db := db c; running := <[n := (o, Done (Err (Db e)))]> (running c); log := log c |}
      end
  | Some (o, Done r) => {| db := db c; running := delete n (running c); log := log c ++ [(n, (o, r))] |}
  | None => c
  end.

Lemma advance_steps c n : rtc step c (advance c n).
Proof.
  unfold advance. destruct (running c !! n) as [[o [r|B q k]]|] eqn:E; [| |done].
  - apply rtc_once. by apply step_finish.
  - destruct (q (db c)) as [[b|e] s'] eqn:Eq; apply rtc_once; [by eapply step_query|by eapply step_fault].
Qed.

Lemma schedule_steps c ns : rtc step c (foldl advance c ns).
Proof.
  revert c. induction ns as [|n ns IH]; intros c; [done|]. simpl.
  etrans; [apply advance_steps|apply IH].
Qed.
End schedule.

Section witnesses.
Existing Instance plain_kit.
Existing Instance plain_laws.

Definition at_ (t : Z) (x : string) : env :=
  {| now := t; uuid1 := lit x; uuid2 := lit x; random := lit x; sql_now := lit x; epoch_ms := t |}.

(** A phone is paired and gets the token [mdt_a]. *)
Definition paired : list call :=
  [(at_ 0 "r", RequestPair "phone" None "ios" (Some (lit "key")), []); (at_ 1 "a", Approve "r", [])].

Lemma token_needs_grant_witness :
  granted (exec paired).2 "mdt_a" "phone" default_scopes ∧ readmitted (exec paired).2 "phone".
Proof.
  pose proof (token_needs_grant paired (exec paired).1 (exec paired).2 "mdt_a" []
    {| verified_device := "phone"; verified_scopes := default_scopes |} (exec paired).1) as E.
  exact (E ltac:(vm_compute; reflexivity) ltac:(vm_compute; reflexivity)).
Defined.

Lemma issued_token_verifies_witness :
  (run (verify_device_token "mdt_a") []
    (exec (paired ++ [(at_ 2 "b", Reject "r", []); (at_ 2 "b", RotateToken "tablet", [])])).1).1 =
  Ok (Some {| verified_device := "phone"; verified_scopes := default_scopes |}).
Proof.
  pose proof (issued_token_verifies (take 1 paired) (at_ 1 "a") (Approve "r") []
    (device_token "mdt_a" "phone" default_scopes (at_ 1 "a"))
    [(at_ 2 "b", Reject "r", []); (at_ 2 "b", RotateToken "tablet", [])]) as E.
  apply (f_equal fst) in E; [exact E| | |].
  - left. eexists. reflexivity.
  - vm_compute. reflexivity.
  - intros e o f Hi. unfold retires. repeat (apply elem_of_cons in Hi as [[= -> -> ->]|Hi];
      [by intros [?|?]|]). by apply not_elem_of_nil in Hi.
Defined.

Lemma settled_request_refused_witness :
  let hist := (exec (paired ++ [(at_ 2 "b", Approve "r", [])])).2 in
  ∃ r, last hist = Some (Approve "r", r) ∧ ((∃ e, r = Err (Db e)) ∨ r = Err (PairRequestNotPending Approved)).
Proof.
  intros hist. eexists. split; [vm_compute; reflexivity|].
  apply (settled_request_refused (paired ++ [(at_ 2 "b", Approve "r", [])]) (exec (paired ++ [(at_ 2 "b", Approve "r", [])])).1
    hist (take 1 hist) (Approve "r") (Ok (OToken (device_token "mdt_a" "phone" default_scopes (at_ 1 "a"))))
    (drop 2 hist) "r" Approved (Approve "r")).
  - vm_compute. reflexivity.
  - vm_compute. reflexivity.
  - by left.
  - reflexivity.
  - vm_compute. left.
  - by left.
Defined.

(** A revocation that overlaps a rotation: the rotation's new token is inserted last, and still
    the old token is dead. *)
Definition overlap : config :=
  foldl advance (start 1 (at_ 4 "c") (RotateToken "phone")
    (start 0 (at_ 3 "b") (RevokeToken "phone") (initial (exec paired).1)))
    [1; 0; 0; 1; 0; 1; 0; 1; 1]%nat.

Lemma retired_token_stays_dead_witness :
  (run (verify_device_token "mdt_a") [] (exec paired).1).1 =
    Ok (Some {| verified_device := "phone"; verified_scopes := default_scopes |}) ∧
  ∀ v, (run (verify_device_token "mdt_a") [] (db overlap)).1 ≠ Ok (Some v).
Proof.
  split; [vm_compute; reflexivity|]. intros v.
  refine (retired_token_stays_dead (exec paired).1 (initial (exec paired).1) overlap 0
    (RevokeToken "phone") OUnit "mdt_a" "phone" [] v _ _ _ _ _ _ _).
  - apply rtc_refl.
  - eexists. split; vm_compute; reflexivity.
  - reflexivity.
  - intros ev Hi. by apply not_elem_of_nil in Hi.
  - etrans; [|apply schedule_steps].
    eapply rtc_l; [apply (step_start _ 0%nat); [reflexivity|intros ? Hi; by apply not_elem_of_nil in Hi]|].
    apply rtc_once. apply (step_start _ 1%nat); [reflexivity|intros ? Hi; by apply not_elem_of_nil in Hi].
  - vm_compute. left.
  - by right.
Defined.

(** Two overlapping approvals of one request both pass the test of its status, and both return a token. *)
Example double_approval :
  let c := foldl advance (start 1 (at_ 2 "b") (Approve "r") (start 0 (at_ 1 "a") (Approve "r")
             (initial (exec (take 1 paired)).1))) [0; 1; 0; 0; 0; 0; 1; 1; 1; 1]%nat in
  map (λ ev, match ev.2.2 with Ok (OToken t) => Some (token t) | _ => None end) (log c) =
    [Some (lit "mdt_a"); Some (lit "mdt_b")].
Proof. vm_compute. reflexivity. Qed.

(** A token may be rotated into being for a revoked device; it is not accepted, until the
    device is paired again and the forgotten token comes to life. *)
Definition revived : list call :=
  paired ++ [(at_ 2 "b", RevokeToken "phone", []); (at_ 3 "c", RotateToken "phone", [])].
Example rotation_of_revoked_device :
  (run (verify_device_token "mdt_c") [] (exec revived).1).1 = Ok None ∧
  (run (verify_device_token "mdt_c") []
    (exec (revived ++ [(at_ 4 "s", RequestPair "phone" None "ios" (Some (lit "other")), []);
                       (at_ 5 "d", Approve "s", [])])).1).1 =
    Ok (Some {| verified_device := "phone"; verified_scopes := default_scopes |}).
Proof. split; vm_compute; reflexivity. Qed.

(** Approving a request for a device with a pinned key replaces the key, or drops it. *)
Example approval_drops_pinned_key :
  let s := (exec (paired ++ [(at_ 2 "s", RequestPair "phone" None "ios" None, []);
                             (at_ 3 "b", Approve "s", [])])).1 in
  (run (check_key_pinning "phone" "intruder") [] (exec paired).1).1 = Ok (KeyMismatch "key") ∧
  (run (check_key_pinning "phone" "intruder") [] s).1 = Ok NoPinnedKey.
Proof. split; vm_compute; reflexivity. Qed.
End witnesses.
