(* ===== verification/Throttle.v ===== *)
(** Who is asking, and how often: locality of connections and the request throttle.

    Models [crates/auth/src/locality.rs], [crates/httpd/src/request_throttle.rs] and the recognition of
    Slack callbacks in [crates/httpd/src/auth_middleware.rs].  Instants and durations are nanoseconds.
    One request is handled at a time: an entry of the concurrent map is locked while it is checked. *)
From S2P Require Import Prelude Json Utf8 ToolArgs Http.
Local Open Scope Z_scope.

(** * Locality *)

Module Locality.
Definition has_proxy_headers (h : headers) : bool :=
  contains_key "x-forwarded-for" h || contains_key "x-real-ip" h || contains_key "cf-connecting-ip" h
  || contains_key "forwarded" h.

(** [host.rsplit_once(p)], for a string [p]. *)
Definition rsplit_once_str (p s : str) : option (str * str) :=
  match find (reverse p) (reverse s) with
  | Some i => Some (reverse (drop (i + length p) (reverse s)), reverse (take i (reverse s)))
  | None => None
  end.

Definition count_char (c : char) (s : str) : nat := length (List.filter (N.eqb c) s).

Definition host_name (host : str) : str :=
  if starts_with "[" host then
    trim_end_matches (N.eqb (ch "]")) (trim_start_matches (N.eqb (ch "["))
      match rsplit_once_str "]:" host with Some (addr, _) => addr | None => host end)
  else if (1 <? count_char (ch ":") host)%nat then host
  else match rsplit_once (ch ":") host with Some (addr, _) => addr | None => host end.

Definition is_loopback_host (host : str) : bool :=
  let name := host_name host in
  str_eqb name "localhost" || str_eqb name "127.0.0.1" || str_eqb name "::1" || ends_with ".localhost" name.

Definition is_local_connection (h : headers) (remote : IpAddr) (behind_proxy trust_docker_loopback : bool) : bool :=
  if behind_proxy then false
  else if has_proxy_headers h then false
  else if is_some_and (λ host, negb (is_loopback_host host)) (header_str "host" h) then false
  else if is_loopback remote then true
  else trust_docker_loopback.
End Locality.

(** * Client addresses *)

Section client.
Context `{NetParse}.

Definition parse_ip (value : str) : option IpAddr :=
  if negb (is_nonempty value) then None
  else or_else (parse_ip_addr value) (parse_socket_addr value).

Fixpoint find_map {A B} (f : A → option B) (l : list A) : option B :=
  match l with
  | [] => None
  | x :: l' => match f x with Some y => Some y | None => find_map f l' end
  end.

Definition extract_forwarded_ip (h : headers) : option IpAddr :=
  or_else (xff ← header_str "x-forwarded-for" h; find_map (λ c, parse_ip (trim c)) (split (ch ",") xff))
    (or_else (xri ← header_str "x-real-ip" h; parse_ip (trim xri))
       (cf ← header_str "cf-connecting-ip" h; parse_ip (trim cf))).

Definition resolve_client_ip (h : headers) (addr : IpAddr) (behind_proxy : bool) : IpAddr :=
  if behind_proxy then unwrap_or addr (extract_forwarded_ip h) else addr.
End client.

(** * The throttle *)

Inductive ThrottleScope := Login | AuthApi | Api | Share | Ws | SlackCallbackPreauth.
Global Instance ThrottleScope_eq_dec : EqDecision ThrottleScope.
Proof. solve_decision. Defined.
Global Instance ThrottleScope_countable : Countable ThrottleScope.
Proof.
  refine (inj_countable' (λ s, match s with Login => 0%nat | AuthApi => 1%nat | Api => 2%nat | Share => 3%nat | Ws => 4%nat | SlackCallbackPreauth => 5%nat end)
    (λ n, match n with 0%nat => Login | 1%nat => AuthApi | 2%nat => Api | 3%nat => Share | 4%nat => Ws | _ => SlackCallbackPreauth end) _).
  by intros [].
Defined.

Definition is_slack_callback_path (path : str) : bool :=
  match strip_prefix "/api/channels/slack/" path with
  | None => false
  | Some rest =>
      match split_once (ch "/") rest with
      | Some (account_id, suffix) =>
          is_nonempty account_id &&
          (str_eqb suffix "events" || str_eqb suffix "interactions" || str_eqb suffix "commands")
      | None => false
      end
  end.

(** [post] says whether the method is POST. *)
Definition from_request (post : bool) (path : str) : option ThrottleScope :=
  if post && is_slack_callback_path path then Some SlackCallbackPreauth
  else if str_eqb path "/api/auth/login" && post then Some Login
  else if starts_with "/api/auth/" path then Some AuthApi
  else if starts_with "/api/" path then Some Api
  else if starts_with "/share/" path then Some Share
  else if starts_with "/ws/" path then Some Ws
  else None.

Definition permits_authenticated_bypass (s : ThrottleScope) : bool :=
  negb (bool_decide (s = SlackCallbackPreauth)).

Record RateLimit := { max_requests : nat; window : Z }.
Record ThrottleLimits := {
  login : RateLimit; auth_api : RateLimit; api : RateLimit; share : RateLimit; ws : RateLimit;
  callback_preauth : RateLimit;
}.
Definition per_minute (n : nat) : RateLimit := {| max_requests := n; window := secs 60 |}.
Definition default_limits : ThrottleLimits :=
  {| login := per_minute 5; auth_api := per_minute 120; api := per_minute 180; share := per_minute 90;
     ws := per_minute 30; callback_preauth := per_minute 5000 |}.

Record WindowState := { started_at : Z; count : nat }.
Record RequestThrottle := {
  limits : ThrottleLimits;
  buckets : gmap (IpAddr * ThrottleScope) WindowState;
  requests_seen : Z;     (** u64 *)
}.
Definition with_limits (l : ThrottleLimits) : RequestThrottle :=
  {| limits := l; buckets := ∅; requests_seen := 0 |}.
Definition with_buckets (t : RequestThrottle) b : RequestThrottle :=
  {| limits := limits t; buckets := b; requests_seen := requests_seen t |}.

Inductive ThrottleDecision := Allowed | Denied (retry_after : Z).

Definition limit_for (l : ThrottleLimits) (s : ThrottleScope) : RateLimit :=
  match s with
  | Login => login l
  | AuthApi => auth_api l
  | Api => api l
  | Share => share l
  | Ws => ws l
  | SlackCallbackPreauth => callback_preauth l
  end.

Definition max_window (l : ThrottleLimits) : Z :=
  Z.max (foldr Z.max 0 [window (login l); window (auth_api l); window (api l); window (share l); window (ws l)])
    (window (callback_preauth l)).

Definition CLEANUP_EVERY_REQUESTS : Z := 512.

(** [Instant::duration_since] saturates at zero. *)
Definition duration_since (now t : Z) : Z := sat_sub now t.

Definition cleanup_if_needed (t : RequestThrottle) (now : Z) : RequestThrottle :=
  let seen := wrap u64_bound (requests_seen t + 1) in
  {| limits := limits t;
     buckets :=
       if negb (seen mod CLEANUP_EVERY_REQUESTS =? 0) then buckets t
       else filter (λ kv, duration_since now (started_at kv.2) ≤ 3 * max_window (limits t)) (buckets t);
     requests_seen := seen |}.

Definition check_at (t : RequestThrottle) (ip : IpAddr) (scope : ThrottleScope) (now : Z)
    : ThrottleDecision * RequestThrottle :=
  let limit := limit_for (limits t) scope in
  if (max_requests limit =? 0)%nat then (Denied (Z.max (window limit) (secs 1)), t)
  else
    let fresh := {| started_at := now; count := 1 |} in
    let '(decision, state) :=
      match buckets t !! (ip, scope) with
      | Some st =>
          let elapsed := duration_since now (started_at st) in
          if window limit <=? elapsed then (Allowed, fresh)
          else if (count st <? max_requests limit)%nat
          then (Allowed, {| started_at := started_at st; count := S (count st) |})
          else (Denied (sat_sub (window limit) elapsed), st)
      | None => (Allowed, fresh)
      end in
    (decision, cleanup_if_needed (with_buckets t (<[(ip, scope) := state]> (buckets t))) now).

(** [throttle_gate]: whether the request goes on; [exempt] is the result of [should_bypass_throttling]. *)
Definition throttle_gate `{NetParse} (t : RequestThrottle) (post : bool) (path : str) (exempt : bool) (h : headers)
    (addr : IpAddr) (behind_proxy : bool) (now : Z) : ThrottleDecision * RequestThrottle :=
  match from_request post path with
  | None => (Allowed, t)
  | Some scope =>
      if permits_authenticated_bypass scope && exempt then (Allowed, t)
      else check_at t (resolve_client_ip h addr behind_proxy) scope now
  end.

(** [Retry-After], in seconds. *)
Definition retry_after_secs (retry_after : Z) : Z := Z.max (retry_after / 1000000000) 1.

(** * Facts *)

(** A connection counts as local exactly when nothing speaks against it: the gateway is not known to
    be behind a proxy, no forwarding header is present, a readable Host names a loopback, and the peer is a
    loopback address or the operator vouches for the container network. *)
Theorem local_iff h remote behind_proxy trust :
  Locality.is_local_connection h remote behind_proxy trust = true ↔
  behind_proxy = false ∧
  (∀ n, n ∈ [lit "x-forwarded-for"; lit "x-real-ip"; lit "cf-connecting-ip"; lit "forwarded"] → header n h = None) ∧
  (∀ host, header_str "host" h = Some host → Locality.is_loopback_host host = true) ∧
  (is_loopback remote = true ∨ trust = true).
Proof.
  assert (Hp : Locality.has_proxy_headers h = false ↔
    ∀ n, n ∈ [lit "x-forwarded-for"; lit "x-real-ip"; lit "cf-connecting-ip"; lit "forwarded"] → header n h = None).
  { assert (Hk : ∀ n, contains_key n h = false ↔ header n h = None) by (intros n; unfold contains_key; by destruct (header n h)).
    unfold Locality.has_proxy_headers. rewrite !orb_false_iff, !Hk. split.
    - intros [[[H1 H2] H3] H4] n Hn. rewrite !elem_of_cons, elem_of_nil in Hn. by destruct Hn as [->|[->|[->|[->|[]]]]].
    - intros Hn. repeat split; apply Hn; set_solver. }
  rewrite <- Hp. unfold Locality.is_local_connection.
  destruct behind_proxy; [naive_solver|].
  destruct (Locality.has_proxy_headers h); [naive_solver|].
  destruct (header_str "host" h) as [host|]; simpl; [destruct (Locality.is_loopback_host host) eqn:E; simpl|].
  - destruct (is_loopback remote); naive_solver.
  - split; [done|]. intros (_ & _ & Hh & _). specialize (Hh host eq_refl). congruence.
  - destruct (is_loopback remote); naive_solver.
Qed.

(** ** At most twice the limit in any window *)

(** The requests let through for one key, as windows: the start and the instants, newest first. *)
Notation grants := (list (Z * list Z)) (only parsing).

Section bound.
Context (w : Z) (m : nat).

(** Each window holds at most [m] instants, all within [w] of its start; the starts are [w] apart. *)
Inductive windows : grants → Prop :=
| windows_nil : windows []
| windows_cons s l gs :
    (length l <= m)%nat → Forall (λ g, s ≤ g < s + w) l →
    Forall (λ x, x.1 + w ≤ s) gs → windows gs → windows ((s, l) :: gs).

Lemma windows_inv s l gs :
  windows ((s, l) :: gs) →
  (length l <= m)%nat ∧ Forall (λ g, s ≤ g < s + w) l ∧ Forall (λ x, x.1 + w ≤ s) gs ∧ windows gs.
Proof. by inversion 1. Qed.

(** The instants in [[a, a + w)]. *)
Definition within (a : Z) (l : list Z) : list Z := List.filter (λ g, (a <=? g) && (g <? a + w)) l.
Definition total (a : Z) (gs : grants) : nat := sum_list (map (λ x, length (within a x.2)) gs).

Lemma within_nil a l : Forall (λ g, g < a ∨ a + w ≤ g) l → within a l = [].
Proof.
  induction 1 as [|g l Hg _ IH]; [done|]. unfold within in *. simpl. rewrite IH.
  destruct (Z.leb_spec a g), (Z.ltb_spec g (a + w)); simpl; try done; lia.
Qed.

Lemma within_length a l : (length (within a l) <= length l)%nat.
Proof. unfold within. induction l as [|g l IH]; simpl; [lia|]. destruct (_ && _); simpl; lia. Qed.

Lemma total_old a gs : windows gs → Forall (λ x, x.1 + w ≤ a) gs → total a gs = 0%nat.
Proof.
  induction 1 as [|s l gs Hl Hg Ho Hw IH]; [done|]. intros [Hs Hgs]%Forall_cons. unfold total in *. simpl in *.
  rewrite (IH Hgs), within_nil; [done|]. eapply Forall_impl; [exact Hg|]. simpl. lia.
Qed.

Lemma total_one a gs : windows gs → Forall (λ x, x.1 < a + w) gs → (∀ x, x ∈ gs → x.1 ≤ a) → (total a gs <= m)%nat.
Proof.
  intros Hw _ Hle. destruct Hw as [|s l gs Hl Hg Ho Hw]; [unfold total; simpl; lia|].
  assert (Hz : total a gs = 0%nat).
  { apply total_old; [done|]. eapply Forall_impl; [exact Ho|]. simpl. intros x Hx. specialize (Hle (s, l) ltac:(by left)). simpl in Hle. lia. }
  unfold total in *. simpl. rewrite Hz. pose proof (within_length a l). lia.
Qed.

Lemma total_bound a gs : 0 ≤ w → windows gs → (total a gs <= 2 * m)%nat.
Proof.
  intros Hw0. induction 1 as [|s l gs Hl Hg Ho Hw IH]; [unfold total; simpl; lia|].
  destruct (Z.le_gt_cases (a + w) s) as [Hlate|Hearly].
  - assert (Hz : within a l = []) by (apply within_nil; eapply Forall_impl; [exact Hg|]; simpl; lia).
    unfold total in *. simpl. rewrite Hz. simpl. lia.
  - assert (Hone : (total a gs <= m)%nat).
    { apply total_one; [done|eapply Forall_impl; [exact Ho|]; simpl; lia|].
      intros x Hx. rewrite Forall_forall in Ho. specialize (Ho x Hx). simpl in Ho. lia. }
    unfold total in *. simpl. pose proof (within_length a l). lia.
Qed.
End bound.

(** A request to check: address, scope, instant. *)
Notation checks := (list (IpAddr * ThrottleScope * Z)) (only parsing).

Fixpoint check_all (t : RequestThrottle) (cs : checks) : list ThrottleDecision :=
  match cs with
  | [] => []
  | (ip, scope, now) :: cs => let '(d, t) := check_at t ip scope now in d :: check_all t cs
  end.

(** The clock does not go back. *)
Fixpoint ascending (t : Z) (cs : checks) : Prop :=
  match cs with
  | [] => True
  | (_, now) :: cs => t ≤ now ∧ ascending now cs
  end.

(** When requests of [ip] in [scope] were let through. *)
Definition granted (ip : IpAddr) (scope : ThrottleScope) (cs : checks) (ds : list ThrottleDecision) : list Z :=
  omap (λ '((i, s, now), d), if bool_decide (i = ip ∧ s = scope) then match d with Allowed => Some now | Denied _ => None end else None)
    (zip cs ds).

Section run_bound.
Context (ip : IpAddr) (scope : ThrottleScope) (lim : ThrottleLimits).
Notation w := (window (limit_for lim scope)).
Notation m := (max_requests (limit_for lim scope)).

(** The bucket is the newest window; without one, all windows are over. *)
Definition tracks (t : RequestThrottle) (now : Z) (gs : grants) : Prop :=
  limits t = lim ∧ windows w m gs ∧ Forall (λ x, x.1 ≤ now) gs ∧
  match buckets t !! (ip, scope) with
  | Some st => ∃ l gs', gs = (started_at st, l) :: gs' ∧ length l = count st
  | None => Forall (λ x, x.1 + w ≤ now) gs
  end.

Lemma window_max : w ≤ max_window lim.
Proof. unfold max_window. destruct scope; simpl; lia. Qed.

Lemma tracks_later t now now' gs : now ≤ now' → tracks t now gs → tracks t now' gs.
Proof.
  intros Hn (Hl & Hw & Ha & Hb). split_and!; [done|done|eapply Forall_impl; [exact Ha|]; simpl; lia|].
  destruct (buckets t !! (ip, scope)); [done|]. eapply Forall_impl; [exact Hb|]. simpl. lia.
Qed.

Lemma tracks_cleanup t now gs : 0 < w → tracks t now gs → tracks (cleanup_if_needed t now) now gs.
Proof.
  intros Hw0 (Hl & Hw & Ha & Hb). split_and!; [done|done|done|]. simpl.
  destruct (negb _); [done|]. rewrite map_lookup_filter.
  destruct (buckets t !! (ip, scope)) as [st|] eqn:E; simpl; [|done].
  destruct Hb as (l & gs' & -> & Hc). case_guard as Hold; simpl; [eauto|].
  apply Forall_cons in Ha as [Hs Ha]. destruct (windows_inv _ _ _ _ _ Hw) as (_ & _ & Hprev & _). simpl in *.
  pose proof window_max. rewrite Hl in Hold. unfold duration_since, sat_sub in Hold.
  constructor; [simpl; lia|]. eapply Forall_impl; [exact Hprev|]. simpl. lia.
Qed.

Lemma tracks_other t now gs k st :
  k ≠ (ip, scope) → tracks t now gs → tracks (with_buckets t (<[k := st]> (buckets t))) now gs.
Proof. intros Hk (Hl & Hw & Ha & Hb). split_and!; [done..|]. simpl. by rewrite lookup_insert_ne. Qed.

(** A window that begins now. *)
Lemma new_window now gs :
  0 < w → (0 < m)%nat → Forall (λ x, x.1 + w ≤ now) gs → windows w m gs → windows w m ((now, [now]) :: gs).
Proof.
  intros Hw0 Hm Ho Hw. constructor; [simpl; lia| |done|done]. constructor; [lia|constructor].
Qed.

Lemma check_tracks t t0 now gs d t' :
  0 < w → tracks t t0 gs → t0 ≤ now → check_at t ip scope now = (d, t') →
  ∃ gs', tracks t' now gs' ∧
    ∀ a, total w a gs' = (total w a gs + match d with Allowed => length (within w a [now]) | Denied _ => 0 end)%nat.
Proof.
  intros Hw0 Ht Hn Hc. apply (tracks_later _ _ now) in Ht; [|done]. pose proof Ht as (Hl & Hw & Ha & Hb).
  unfold check_at in Hc. rewrite Hl in Hc.
  destruct (Nat.eqb_spec m 0) as [Hm|Hm].
  { injection Hc as <- <-. exists gs. split; [done|]. intros a. lia. }
  assert (Hins : ∀ st gs', windows w m gs' → Forall (λ x, x.1 ≤ now) gs' →
    (∃ l gs0, gs' = (started_at st, l) :: gs0 ∧ length l = count st) →
    tracks (cleanup_if_needed (with_buckets t (<[(ip, scope) := st]> (buckets t))) now) now gs').
  { intros st gs' Hw' Ha' Hb'. apply tracks_cleanup; [done|]. split_and!; [done..|]. simpl. by rewrite lookup_insert_eq. }
  destruct (buckets t !! (ip, scope)) as [st|].
  - destruct Hb as (l & gs0 & -> & Hcount). apply Forall_cons in Ha as [Hs Ha]. simpl in Hs.
    destruct (windows_inv _ _ _ _ _ Hw) as (Hlen & Hin & Hprev & Hw0').
    destruct (Z.leb_spec w (duration_since now (started_at st))) as [Hover|Hcur].
    + injection Hc as <- <-. exists ((now, [now]) :: (started_at st, l) :: gs0). split.
      * apply Hins; [|by repeat constructor|by eexists _, _].
        apply new_window; [done|lia| |done]. unfold duration_since, sat_sub in Hover.
        constructor; [simpl; lia|]. eapply Forall_impl; [exact Hprev|]. simpl. lia.
      * intros a. unfold total. simpl. lia.
    + destruct (Nat.ltb_spec (count st) m) as [Hroom|Hfull]; injection Hc as <- <-.
      * exists ((started_at st, l ++ [now]) :: gs0). split.
        -- apply Hins; [|by constructor|eexists _, _; split; [done|]; rewrite length_app; simpl; lia].
           unfold duration_since, sat_sub in Hcur.
           constructor; [rewrite length_app; simpl; lia| |done|done]. apply Forall_app. split; [done|].
           constructor; [lia|constructor].
        -- intros a. unfold total. simpl. unfold within. rewrite List.filter_app, length_app. simpl. lia.
      * exists ((started_at st, l) :: gs0). split; [apply Hins; [done|by constructor|by eexists _, _]|].
        intros a. lia.
  - injection Hc as <- <-. exists ((now, [now]) :: gs). split.
    + apply Hins; [by apply new_window; [done|lia|..]|by constructor|by eexists _, _].
    + intros a. unfold total. simpl. lia.
Qed.

Lemma check_other t t0 now gs i s d t' :
  0 < w → (i, s) ≠ (ip, scope) → tracks t t0 gs → t0 ≤ now → check_at t i s now = (d, t') → tracks t' now gs.
Proof.
  intros Hw0 Hk Ht Hn Hc. apply (tracks_later _ _ now) in Ht; [|done]. unfold check_at in Hc.
  destruct (_ =? 0)%nat; [by injection Hc as <- <-|].
  destruct (match buckets t !! (i, s) with Some _ => _ | None => _ end) as [d0 st0].
  injection Hc as <- <-. by apply tracks_cleanup; [|apply tracks_other].
Qed.

Lemma run_total cs : ∀ t t0 gs, 0 < w → tracks t t0 gs → ascending t0 cs →
  ∃ gs', windows w m gs' ∧ ∀ a, total w a gs' = (total w a gs + length (within w a (granted ip scope cs (check_all t cs))))%nat.
Proof.
  induction cs as [|[[i s] now] cs IH]; intros t t0 gs Hw0 Ht Ha.
  - exists gs. split; [apply Ht|]. intros a. unfold granted. simpl. lia.
  - destruct Ha as [Hn Ha]. cbn [check_all]. destruct (check_at t i s now) as [d t1] eqn:Ec.
    destruct (decide (i = ip ∧ s = scope)) as [[-> ->]|Hne].
    + destruct (check_tracks _ _ _ _ _ _ Hw0 Ht Hn Ec) as (gs1 & Ht1 & H1).
      destruct (IH _ _ _ Hw0 Ht1 Ha) as (gs2 & Hw2 & H2). exists gs2. split; [done|]. intros a.
      rewrite H2, H1. unfold granted. cbn [zip zip_with omap list_omap]. rewrite bool_decide_true by done.
      destruct d as [|r]; [|simpl; lia]. unfold within. simpl. destruct (_ && _); simpl; lia.
    + assert (Ht1 : tracks t1 now gs) by (eapply check_other; [done| |done|done|done]; intros [= -> ->]; by apply Hne).
      destruct (IH _ _ _ Hw0 Ht1 Ha) as (gs2 & Hw2 & H2). exists gs2. split; [done|]. intros a.
      rewrite H2. unfold granted. cbn [zip zip_with omap list_omap]. by rewrite bool_decide_false by done.
Qed.
End run_bound.

(** The throttle holds: however requests of any addresses and scopes are mixed and whenever old
    buckets are swept, no interval as long as a window contains more than twice the limit of requests let
    through for one address in one scope; ten login attempts in any minute, with the default limits. *)
Theorem throttle_bound lim ip scope cs a :
  0 < window (limit_for lim scope) → ascending 0 cs →
  (length (within (window (limit_for lim scope)) a (granted ip scope cs (check_all (with_limits lim) cs)))
   <= 2 * max_requests (limit_for lim scope))%nat.
Proof.
  intros Hw Ha. destruct (run_total ip scope lim cs (with_limits lim) 0 [] Hw) as (gs & Hgs & Ht); [|done|].
  - split_and!; [done|constructor|constructor|]. simpl. rewrite lookup_empty. constructor.
  - specialize (Ht a). change (total (window (limit_for lim scope)) a []) with 0%nat in Ht. rewrite Nat.add_0_l in Ht.
    rewrite <- Ht. apply total_bound; [lia|done].
Qed.

(** * Witnesses *)

Definition client_ip : IpAddr := V4 3405803785.
(** Five attempts at the end of one window and five at the start of the next. *)
Definition burst : list (IpAddr * ThrottleScope * Z) :=
  (λ t, (client_ip, Login, secs t)) <$> [0; 59; 59; 59; 59; 59; 60; 60; 60; 60; 60; 60].

Lemma throttle_bound_witness :
  (length (within (secs 60) (secs 59) (granted client_ip Login burst (check_all (with_limits default_limits) burst))) <= 10)%nat ∧
  length (within (secs 60) (secs 59) (granted client_ip Login burst (check_all (with_limits default_limits) burst))) = 9%nat.
Proof.
  split; [|vm_compute; reflexivity].
  apply (throttle_bound default_limits client_ip Login burst (secs 59)); [vm_compute; reflexivity|].
  vm_compute. repeat split; congruence.
Defined.

(** The path and the method of the requests decide their scope. *)
Example scopes_of_paths :
  from_request true "/api/auth/login" = Some Login ∧ from_request false "/api/auth/login" = Some AuthApi ∧
  from_request true "/api/channels/slack/acme/events" = Some SlackCallbackPreauth ∧
  from_request true "/api/channels/slack//events" = Some Api ∧ from_request false "/health" = None.
Proof. repeat split. Qed.

Example loopback_hosts :
  Locality.is_loopback_host "[::1]:18789" = true ∧ Locality.is_loopback_host "moltis.localhost:8080" = true ∧
  Locality.is_loopback_host "localhost.example.com" = false.
Proof. repeat split. Qed.
