(* ===== verification/Credentials.v ===== *)
(** The credential store of the gateway: password, passkeys, API keys and sessions.

    Models [crates/auth/src/credential_store/]: [sessions.rs] (without the variants that carry a vault),
    [api_keys.rs], [passkeys.rs], [types.rs], [util.rs] and [legacy.rs].  The state is the tables and the
    two flags in memory; a method is a program over statements ([Prog]), and a flag is stored together with
    the statement before it.  The clock counts seconds, as [datetime('now')] does.  Argon2, HMAC, random
    bytes and the configuration file are parameters. *)
From S2P Require Import Prelude Float64 Json Utf8 ToolArgs Prog.
Local Open Scope Z_scope.

(** * Types *)

Inductive AuthMethod := Password | Passkey | ApiKey | Loopback.
Global Instance AuthMethod_eq_dec : EqDecision AuthMethod.
Proof. solve_decision. Defined.

Record AuthIdentity := { method : AuthMethod; scopes : list str }.

Definition has_scope (i : AuthIdentity) (scope : str) : bool :=
  if negb (bool_decide (method i = ApiKey)) then true
  else negb (is_nonempty (scopes i)) || existsb (λ s, str_eqb s scope) (scopes i).

Definition VALID_SCOPES : list str :=
  [lit "operator.admin"; lit "operator.read"; lit "operator.write"; lit "operator.approvals"; lit "operator.pairing"].

Record PasskeyRow := { pk_id : Z; credential_id : bytes; pk_name : str; passkey_data : bytes }.
Record ApiKeyRow := {
  key_id : Z;
  label : str;
  key_hash : str;
  key_prefix : str;
  revoked_at : option Z;
  key_scopes : option str;
  key_salt : option str;
}.
Record SessionRow := { token : str; s_created_at : Z; s_expires_at : Z }.
Record ApiKeyVerification := { v_key_id : Z; v_scopes : list str }.

Inductive Error := Database (e : str) | Validation (e : str) | CryptoError.

(** The tables, the last ids, and the flags. *)
Record CredentialStore := {
  password_hash : option str;
  passkeys : list PasskeyRow;
  last_passkey : Z;
  api_keys : list ApiKeyRow;
  last_api_key : Z;
  sessions : list SessionRow;
  state_disabled : option bool;      (** the row of [auth_state] *)
  setup_complete : bool;
  auth_disabled : bool;
}.

Definition with_password (s : CredentialStore) h : CredentialStore :=
  {| password_hash := h; passkeys := passkeys s; last_passkey := last_passkey s; api_keys := api_keys s;
     last_api_key := last_api_key s; sessions := sessions s; state_disabled := state_disabled s;
     setup_complete := setup_complete s; auth_disabled := auth_disabled s |}.
Definition with_passkeys (s : CredentialStore) ps n : CredentialStore :=
  {| password_hash := password_hash s; passkeys := ps; last_passkey := n; api_keys := api_keys s;
     last_api_key := last_api_key s; sessions := sessions s; state_disabled := state_disabled s;
     setup_complete := setup_complete s; auth_disabled := auth_disabled s |}.
Definition with_api_keys (s : CredentialStore) ks n : CredentialStore :=
  {| password_hash := password_hash s; passkeys := passkeys s; last_passkey := last_passkey s; api_keys := ks;
     last_api_key := n; sessions := sessions s; state_disabled := state_disabled s;
     setup_complete := setup_complete s; auth_disabled := auth_disabled s |}.
Definition with_sessions (s : CredentialStore) ss : CredentialStore :=
  {| password_hash := password_hash s; passkeys := passkeys s; last_passkey := last_passkey s; api_keys := api_keys s;
     last_api_key := last_api_key s; sessions := ss; state_disabled := state_disabled s;
     setup_complete := setup_complete s; auth_disabled := auth_disabled s |}.
Definition with_state_row (s : CredentialStore) d : CredentialStore :=
  {| password_hash := password_hash s; passkeys := passkeys s; last_passkey := last_passkey s; api_keys := api_keys s;
     last_api_key := last_api_key s; sessions := sessions s; state_disabled := Some d;
     setup_complete := setup_complete s; auth_disabled := auth_disabled s |}.
Definition with_flags (s : CredentialStore) complete disabled : CredentialStore :=
  {| password_hash := password_hash s; passkeys := passkeys s; last_passkey := last_passkey s; api_keys := api_keys s;
     last_api_key := last_api_key s; sessions := sessions s; state_disabled := state_disabled s;
     setup_complete := complete; auth_disabled := disabled |}.

(** Empty tables, before the store is opened. *)
Definition fresh_tables : CredentialStore :=
  {| password_hash := None; passkeys := []; last_passkey := 0; api_keys := []; last_api_key := 0;
     sessions := []; state_disabled := None; setup_complete := false; auth_disabled := false |}.

(** Argon2, the digests in hexadecimal, and what the clock and the random generator give to a call. *)
Class Crypto := {
  hash_password : str → str → option str;     (** password and salt *)
  verify_hash : str → str → bool;             (** password and hash; false for a malformed hash *)
  sha256_hex : str → str;
  hmac_sha256_hex : str → str → str;          (** input and key *)
}.
Record env := { now : Z; random1 : str; random2 : str }.

Definition session_ttl : Z := 30 * 24 * 60 * 60.
Definition MAX_SESSIONS : nat := 10.

Notation prog := (Prog.prog CredentialStore Error) (only parsing).
Notation run := (Prog.run Database) (only parsing).

(** * Methods *)

Section store.
Context `{Crypto, SerdeJson}.

Definition has_password : prog bool := let* b := select (λ s, isSome (password_hash s)) in Done (Ok b).
Definition has_passkeys : prog bool := let* b := select (λ s, is_nonempty (passkeys s)) in Done (Ok b).

(** [with_config]: [config_disabled] is [auth.disabled] of the configuration. *)
Definition with_config (config_disabled : bool) : prog unit :=
  let* pw := select (λ s, isSome (password_hash s)) in
  let open_ (has : bool) : prog unit :=
    let* _ := update (λ s, match state_disabled s with Some _ => with_flags s has (auth_disabled s)
                                                     | None => with_state_row (with_flags s has (auth_disabled s)) config_disabled end) in
    let* d := select state_disabled in
    let* _ := update (λ s, with_flags s (setup_complete s) (unwrap_or config_disabled d)) in
    Done (Ok tt) in
  if pw : bool then open_ true else let* pk := select (λ s, is_nonempty (passkeys s)) in open_ pk.

(** The row of [auth_state], then the configuration file. *)
Definition persist_auth_disabled (d : bool) : prog unit :=
  let* _ := update (λ s, with_state_row s d) in
  let* _ := update id in
  Done (Ok tt).

Definition clear_auth_disabled : prog unit :=
  let* _ := update (λ s, with_flags s (setup_complete s) false) in
  persist_auth_disabled false.

(** [INSERT INTO auth_password (id, ..) VALUES (1, ..)], which the primary key allows once. *)
Definition insert_password (h : str) (flags : CredentialStore → CredentialStore)
    : CredentialStore → result unit str * CredentialStore := λ s,
  match password_hash s with
  | Some _ => (Err (lit "UNIQUE constraint failed: auth_password.id"), s)
  | None => (Ok tt, flags (with_password s (Some h)))
  end.

Definition mark_setup_complete : prog unit :=
  let* pw := select (λ s, isSome (password_hash s)) in
  let* pk := select (λ s, is_nonempty (passkeys s)) in
  if negb pw && negb pk then Done (Err (Validation "cannot mark setup complete without any credentials"))
  else
    let* _ := update (λ s, with_flags s true false) in
    persist_auth_disabled false.

Definition set_initial_password (e : env) (password : str) : prog unit :=
  let* complete := select setup_complete in
  if complete : bool then Done (Err (Validation "password already set"))
  else match hash_password password (random1 e) with
       | None => Done (Err CryptoError)
       | Some h =>
           let* _ := insert_password h (λ s, with_flags s true false) in
           persist_auth_disabled false
       end.

Definition add_password (e : env) (password : str) : prog unit :=
  let* pw := select (λ s, isSome (password_hash s)) in
  if pw : bool then Done (Err (Validation "password already set"))
  else match hash_password password (random1 e) with
       | None => Done (Err CryptoError)
       | Some h => let* _ := insert_password h id in mark_setup_complete
       end.

Definition recompute_setup_complete : prog unit :=
  let* pw := select (λ s, isSome (password_hash s)) in
  if pw : bool then let* _ := update (λ s, with_flags s true (auth_disabled s)) in Done (Ok tt)
  else let* _ := update (λ s, with_flags s (is_nonempty (passkeys s)) (auth_disabled s)) in Done (Ok tt).

Definition password_matches (password : str) (h : option str) : bool :=
  match h with Some h => verify_hash password h | None => false end.

Definition verify_password (password : str) : prog bool :=
  let* h := select password_hash in Done (Ok (password_matches password h)).

Definition change_password (e : env) (current new_password : str) : prog unit :=
  pbind (verify_password current) (λ ok,
    if negb ok then Done (Err (Validation "current password is incorrect"))
    else match hash_password new_password (random1 e) with
         | None => Done (Err CryptoError)
         | Some h =>
             let* _ := update (λ s, match password_hash s with Some _ => with_password s (Some h) | None => s end) in
             let* _ := update (λ s, with_sessions s []) in
             Done (Ok tt)
         end).

(** ** Sessions *)

Definition live_session (now : Z) (r : SessionRow) : bool := now <? s_expires_at r.
Definition drop_expired (now : Z) (s : CredentialStore) : CredentialStore :=
  with_sessions s (List.filter (live_session now) (sessions s)).

(** [DELETE .. WHERE token IN (SELECT token .. ORDER BY created_at ASC LIMIT n)]. *)
Definition drop_oldest (n : nat) (s : CredentialStore) : CredentialStore :=
  let doomed := token <$> take n (sort_by_key s_created_at (sessions s)) in
  with_sessions s (List.filter (λ r, negb (existsb (str_eqb (token r)) doomed)) (sessions s)).

(** The token is the primary key. *)
Definition insert_session (row : SessionRow) : CredentialStore → result unit str * CredentialStore := λ s,
  if existsb (λ r, str_eqb (token r) (token row)) (sessions s)
  then (Err (lit "UNIQUE constraint failed: auth_sessions.token"), s)
  else (Ok tt, with_sessions s (sessions s ++ [row])).

Definition create_session (e : env) : prog str :=
  let* _ := update (drop_expired (now e)) in
  let* count := select (λ s, length (sessions s)) in
  let insert : prog str :=
    let* _ := insert_session {| token := random1 e; s_created_at := now e; s_expires_at := now e + session_ttl |} in
    Done (Ok (random1 e)) in
  if (MAX_SESSIONS <=? count)%nat
  then let* _ := update (drop_oldest (count - MAX_SESSIONS + 1)) in insert
  else insert.

Definition session_valid (now : Z) (t : str) (s : CredentialStore) : bool :=
  existsb (λ r, str_eqb (token r) t && live_session now r) (sessions s).
Definition validate_session (e : env) (t : str) : prog bool :=
  let* b := select (session_valid (now e) t) in Done (Ok b).

Definition drop_token (t : str) (s : CredentialStore) : CredentialStore :=
  with_sessions s (List.filter (λ r, negb (str_eqb (token r) t)) (sessions s)).
Definition delete_session (t : str) : prog unit := let* _ := update (drop_token t) in Done (Ok tt).
Definition cleanup_expired_sessions (e : env) : prog nat :=
  let* n := (λ s, let s' := drop_expired (now e) s in (Ok (length (sessions s) - length (sessions s'))%nat, s')) in
  Done (Ok n).

(** ** Reset *)

Definition reset_all : prog unit :=
  let* _ := update (λ s, with_password s None) in
  let* _ := update (λ s, with_sessions s []) in
  let* _ := update (λ s, with_passkeys s [] (last_passkey s)) in
  let* _ := update (λ s, with_api_keys s [] (last_api_key s)) in
  let* _ := update id in    (** the ssh targets *)
  let* _ := update (λ s, with_flags s false true) in    (** the ssh keys, and the flags *)
  persist_auth_disabled true.

(** ** API keys *)

Definition scopes_json (sc : option (list str)) : option str :=
  match sc with
  | Some (_ :: _ as l) => Some (unwrap_or [] (to_string (JArray (JString <$> l))))
  | _ => None
  end.

(** [serde_json::from_str::<Vec<String>>]. *)
Definition parse_strings (s : str) : option (list str) :=
  match from_str s with Ok (JArray a) => mapM as_str a | _ => None end.

Definition create_api_key (e : env) (lbl : str) (sc : option (list str)) : prog (Z * str) :=
  let raw_key := lit "mk_" ++ random1 e in
  let salt := random2 e in
  let* i := (λ s, let i := last_api_key s + 1 in
    (Ok i, with_api_keys s (api_keys s ++ [{| key_id := i; label := lbl; key_hash := hmac_sha256_hex raw_key salt;
       key_prefix := take 11 raw_key; revoked_at := None; key_scopes := scopes_json sc; key_salt := Some salt |}]) i)) in
  Done (Ok (i, raw_key)).

Definition revoke_row (at_ : Z) (i : Z) (r : ApiKeyRow) : ApiKeyRow :=
  if (key_id r =? i) && negb (isSome (revoked_at r))
  then {| key_id := key_id r; label := label r; key_hash := key_hash r; key_prefix := key_prefix r;
          revoked_at := Some at_; key_scopes := key_scopes r; key_salt := key_salt r |}
  else r.
Definition revoke_api_key (e : env) (i : Z) : prog unit :=
  let* _ := update (λ s, with_api_keys s (revoke_row (now e) i <$> api_keys s) (last_api_key s)) in
  Done (Ok tt).

(** Salted keys are stored as an HMAC, older ones as a plain digest. *)
Definition key_matches (raw_key : str) (r : ApiKeyRow) : bool :=
  str_eqb match key_salt r with
          | Some salt => hmac_sha256_hex raw_key salt
          | None => sha256_hex raw_key
          end (key_hash r).
Definition active_keys (s : CredentialStore) : list ApiKeyRow :=
  List.filter (λ r, negb (isSome (revoked_at r))) (api_keys s).
Definition find_api_key (raw_key : str) (s : CredentialStore) : option ApiKeyVerification :=
  (λ r, {| v_key_id := key_id r;
           v_scopes := unwrap_or [] (j ← key_scopes r; parse_strings j) |})
    <$> head (List.filter (key_matches raw_key) (active_keys s)).
Definition verify_api_key (raw_key : str) : prog (option ApiKeyVerification) :=
  let* v := select (find_api_key raw_key) in Done (Ok v).

(** ** Passkeys *)

(** The credential id is unique. *)
Definition insert_passkey (cred : bytes) (nm : str) (data : bytes) : CredentialStore → result Z str * CredentialStore := λ s,
  if existsb (λ r, bool_decide (credential_id r = cred)) (passkeys s)
  then (Err (lit "UNIQUE constraint failed: passkeys.credential_id"), s)
  else let i := last_passkey s + 1 in
       (Ok i, with_passkeys s (passkeys s ++ [{| pk_id := i; credential_id := cred; pk_name := nm; passkey_data := data |}]) i).

Definition store_passkey (cred : bytes) (nm : str) (data : bytes) : prog Z :=
  let* i := insert_passkey cred nm data in
  pbind mark_setup_complete (λ _, Done (Ok i)).

Definition remove_passkey (i : Z) : prog unit :=
  let* _ := update (λ s, with_passkeys s (List.filter (λ r, negb (pk_id r =? i)) (passkeys s)) (last_passkey s)) in
  recompute_setup_complete.

Definition rename_passkey (i : Z) (nm : str) : prog unit :=
  let* _ := update (λ s, with_passkeys s ((λ r, if pk_id r =? i
    then {| pk_id := pk_id r; credential_id := credential_id r; pk_name := nm; passkey_data := passkey_data r |}
    else r) <$> passkeys s) (last_passkey s)) in
  Done (Ok tt).
End store.

(** * The older scheme: a token or a password from the environment *)

Module Legacy.
Inductive AuthMode := Token | PasswordMode.
Record ResolvedAuth := { mode : AuthMode; token : option str; password : option str }.
Record AuthResult := { ok : bool; reason : option str }.

(** The fold of [acc | (x ^ y)] over the bytes. *)
Definition safe_equal (a b : bytes) : bool :=
  if negb (length a =? length b)%nat then false
  else (foldl (λ acc '(x, y), N.lor acc (N.lxor x y)) 0%N (zip a b) =? 0)%N.

Definition resolve_auth (token password : option str) : ResolvedAuth :=
  {| mode := if isSome password then PasswordMode else Token; token := token; password := password |}.

Definition judge (expected provided : option str) (what : str) : AuthResult :=
  match expected with
  | None => {| ok := true; reason := None |}
  | Some expected =>
      match provided with
      | Some t => if safe_equal (as_bytes t) (as_bytes expected) then {| ok := true; reason := None |}
                  else {| ok := false; reason := Some (lit "invalid " ++ what) |}
      | None => {| ok := false; reason := Some (what ++ lit " required") |}
      end
  end.

Definition authorize_connect (auth : ResolvedAuth) (provided_token provided_password : option str) : AuthResult :=
  match mode auth with
  | Token => judge (token auth) provided_token "token"
  | PasswordMode => judge (password auth) provided_password "password"
  end.
End Legacy.

(** * Facts *)

Local Arguments lit : simpl never.

(** Goes through the statements of a method. *)
Ltac through :=
  repeat (cbv beta zeta;
    lazymatch goal with
    | |- all_statements _ (Done _) => exact I
    | |- all_statements _ (Query _ _) => intros ? ? ? Hq; split; [|clear Hq]
    | |- all_statements _ (match ?x with _ => _ end) => destruct x
    | |- all_statements _ (pbind _ _) => apply all_statements_pbind
    end).

Section facts.
Context `{Crypto, SerdeJson}.

(** ** Sessions *)

(** No row of the table of sessions is new. *)
Definition no_new_session (s s' : CredentialStore) : Prop := ∀ x, x ∈ sessions s' → x ∈ sessions s.
#[export] Instance no_new_session_preorder : PreOrder no_new_session.
Proof. split; [by intros s x|intros s1 s2 s3 H1 H2 x Hx; by apply H1, H2]. Qed.

Lemma no_new_filter s f : no_new_session s (with_sessions s (List.filter f (sessions s))).
Proof. intros x Hx. simpl in Hx. apply list_elem_of_In, filter_In in Hx as [Hx _]. by apply list_elem_of_In. Qed.

(** The statements that leave the sessions alone. *)
Ltac quiet :=
  lazymatch goal with
  | Hq : select _ _ = _ |- _ => unfold select in Hq; injection Hq as _ <-; reflexivity
  | Hq : update _ _ = _ |- _ => unfold update in Hq; injection Hq as _ <-
  | Hq : insert_password _ _ _ = _ |- _ => unfold insert_password in Hq; case_match; injection Hq as _ <-
  | Hq : insert_passkey _ _ _ _ = _ |- _ => unfold insert_passkey in Hq; case_match; injection Hq as _ <-
  | _ => idtac
  end; try (intros x Hx; exact Hx).

Lemma persist_quiet d : all_statements no_new_session (persist_auth_disabled d).
Proof. unfold persist_auth_disabled. through; quiet. Qed.
Lemma mark_quiet : all_statements no_new_session mark_setup_complete.
Proof. unfold mark_setup_complete. through; quiet; apply persist_quiet. Qed.
Lemma clear_quiet : all_statements no_new_session clear_auth_disabled.
Proof. unfold clear_auth_disabled. through; quiet; apply persist_quiet. Qed.
Lemma set_initial_quiet e p : all_statements no_new_session (set_initial_password e p).
Proof. unfold set_initial_password. through; quiet; try discriminate; try apply persist_quiet. Qed.
Lemma add_password_quiet e p : all_statements no_new_session (add_password e p).
Proof. unfold add_password. through; quiet; try discriminate; try apply mark_quiet. Qed.
Lemma change_password_quiet e a b : all_statements no_new_session (change_password e a b).
Proof.
  unfold change_password, verify_password. through; quiet; intros ok; through; quiet.
  - destruct (password_hash _); intros x Hx; exact Hx.
  - by intros x ?%elem_of_nil.
Qed.
Lemma has_password_quiet : all_statements no_new_session has_password.
Proof. unfold has_password. through; quiet. Qed.
Lemma verify_password_quiet p : all_statements no_new_session (verify_password p).
Proof. unfold verify_password. through; quiet. Qed.
Lemma delete_session_quiet t : all_statements no_new_session (delete_session t).
Proof. unfold delete_session. through; quiet. apply no_new_filter. Qed.
Lemma reset_quiet : all_statements no_new_session reset_all.
Proof. unfold reset_all. through; quiet; try apply persist_quiet. by intros x ?%elem_of_nil. Qed.
Lemma create_key_quiet e l sc : all_statements no_new_session (create_api_key e l sc).
Proof. unfold create_api_key. through. injection Hq as _ <-. by intros x Hx. Qed.
Lemma revoke_key_quiet e i : all_statements no_new_session (revoke_api_key e i).
Proof. unfold revoke_api_key. through; quiet. Qed.
Lemma recompute_quiet : all_statements no_new_session recompute_setup_complete.
Proof. unfold recompute_setup_complete. through; quiet. Qed.
Lemma remove_passkey_quiet i : all_statements no_new_session (remove_passkey i).
Proof. unfold remove_passkey. through; quiet; apply recompute_quiet. Qed.
Lemma rename_passkey_quiet i n : all_statements no_new_session (rename_passkey i n).
Proof. unfold rename_passkey. through; quiet. Qed.
Lemma store_passkey_quiet a b d : all_statements no_new_session (store_passkey a b d).
Proof. unfold store_passkey. through; quiet; try discriminate; [apply mark_quiet|by intros ?]. Qed.

Definition new_session (e : env) : SessionRow :=
  {| token := random1 e; s_created_at := now e; s_expires_at := now e + session_ttl |}.

Lemma insert_session_Ok row s b s' :
  insert_session row s = (Ok b, s') → s' = with_sessions s (sessions s ++ [row]).
Proof. unfold insert_session. case_match; [done|]. by intros [= _ <-]. Qed.

Lemma filter_length_perm {A} (f : A → bool) l k : l ≡ₚ k → length (List.filter f l) = length (List.filter f k).
Proof. induction 1; simpl; repeat case_match; simpl; congruence. Qed.

Lemma filter_length_le {A} (f : A → bool) (l : list A) : (length (List.filter f l) <= length l)%nat.
Proof. induction l; simpl; [lia|]. destruct (f _); simpl; lia. Qed.

Lemma drop_oldest_length n s :
  (length (sessions (drop_oldest n s)) <= length (sessions s) - n)%nat ∨ (length (sessions s) < n)%nat.
Proof.
  destruct (Nat.le_gt_cases n (length (sessions s))) as [Hn|]; [left|by right].
  unfold drop_oldest. simpl. set (sorted := sort_by_key s_created_at (sessions s)).
  assert (Hp : sessions s ≡ₚ take n sorted ++ drop n sorted) by (rewrite take_drop; symmetry; apply sort_by_key_perm).
  assert (Hl : length sorted = length (sessions s)) by (apply Permutation_length, sort_by_key_perm).
  rewrite (filter_length_perm _ _ _ Hp), List.filter_app, length_app.
  assert (Hz : ∀ l, (∀ x, x ∈ l → x ∈ take n sorted) →
    List.filter (λ r, negb (existsb (str_eqb (token r)) (token <$> take n sorted))) l = []).
  { induction l as [|x l IH]; intros Hin; [done|]. simpl. rewrite (proj2 (existsb_exists _ _)); simpl.
    - apply IH. intros y Hy. apply Hin. by right.
    - exists (token x). split; [|apply str_eqb_refl]. apply list_elem_of_In, list_elem_of_fmap. exists x.
      split; [done|]. apply Hin. by left. }
  rewrite Hz by done. simpl. etrans; [apply filter_length_le|]. rewrite length_drop, Hl. lia.
Qed.

(** A new session is the only new row, and the method then succeeds with its token. *)
Lemma create_session_run e f s r s' :
  run (create_session e) f s = (r, s') →
  (no_new_session s s' ∧ ∃ err, r = Err err) ∨
  (r = Ok (random1 e) ∧ (length (sessions s') <= MAX_SESSIONS)%nat ∧
   ∀ x, x ∈ sessions s' → x ∈ sessions s ∨ x = new_session e).
Proof.
  unfold create_session. intros Hr.
  apply run_Query in Hr as [(er & -> & ->)|(? & s1 & f1 & Hq & Hr)]; [left; split; [done|eauto]|].
  injection Hq as _ <-. set (s1 := drop_expired (now e) s) in *.
  assert (H1 : no_new_session s s1) by apply no_new_filter.
  apply run_Query in Hr as [(er & -> & ->)|(cnt & s2 & f2 & Hq & Hr)]; [left; split; [done|eauto]|].
  injection Hq as <- <-.
  assert (Hins : ∀ s2 f, no_new_session s s2 → (length (sessions s2) < MAX_SESSIONS)%nat →
    run (let* _ := insert_session (new_session e) in Done (Ok (random1 e))) f s2 = (r, s') →
    (no_new_session s s' ∧ ∃ err, r = Err err) ∨
    (r = Ok (random1 e) ∧ (length (sessions s') <= MAX_SESSIONS)%nat ∧
     ∀ x, x ∈ sessions s' → x ∈ sessions s ∨ x = new_session e)).
  { intros s2 g Hs2 Hlen Hi. apply run_Query in Hi as [(er & -> & ->)|(? & s3 & f3 & Hq & Hi)]; [left; split; [done|eauto]|].
    apply insert_session_Ok in Hq as ->. cbn in Hi. injection Hi as <- <-. right. split_and!; [done| |].
    - simpl. rewrite length_app. simpl. lia.
    - simpl. intros y [Hx|Hx%list_elem_of_singleton]%elem_of_app; [left; by apply Hs2|by right]. }
  change (length (List.filter (live_session (now e)) (sessions s))) with (length (sessions s1)) in Hr.
  destruct (Nat.leb_spec MAX_SESSIONS (length (sessions s1))) as [Hfull|Hroom]; [|refine (Hins s1 f2 _ _ Hr); [exact H1|exact Hroom]].
  apply run_Query in Hr as [(er & -> & ->)|(? & s2 & f3 & Hq & Hr)]; [left; split; [done|eauto]|].
  injection Hq as _ <-. refine (Hins (drop_oldest (length (sessions s1) - MAX_SESSIONS + 1) s1) _ _ _ Hr).
  - etrans; [exact H1|apply no_new_filter].
  - destruct (drop_oldest_length (length (sessions s1) - MAX_SESSIONS + 1) s1) as [Hd|Hd]; unfold MAX_SESSIONS in *; lia.
Qed.

(** At most ten sessions at a time: whenever a session is created, on any table and whichever
    statement fails on the way, the result is either no new session or, with it, ten at most. *)
Theorem session_cap e f s r s' :
  run (create_session e) f s = (r, s') →
  match r with
  | Ok t => (length (sessions s') <= MAX_SESSIONS)%nat ∧ t = random1 e
  | Err _ => ∀ x, x ∈ sessions s' → x ∈ sessions s
  end.
Proof.
  intros Hr. destruct (create_session_run _ _ _ _ _ Hr) as [[Hn (err & ->)]|(-> & Hl & _)]; [exact Hn|by split].
Qed.

(** ** The flag in memory *)

Definition has_credentials (s : CredentialStore) : bool := isSome (password_hash s) || is_nonempty (passkeys s).
(** [setup_complete] says whether there is a password or a passkey. *)
Definition flag_exact (s : CredentialStore) : Prop := setup_complete s = has_credentials s.

(** Runs a method without faults, and compares the flag with the tables. *)
Ltac exact_flag :=
  let Hr := fresh "Hr" in let Ha := fresh "Ha" in
  intros Hr Ha; unfold flag_exact, has_credentials in *;
  match type of Hr with run _ _ ?s = _ =>
    destruct s as [[pw|] [|pk pks] lp ks lk ss sd sc ad] end;
  cbn in Hr; unfold insert_password, insert_passkey, select, update in Hr; cbn in Hr;
  repeat (case_match; cbn in *); simplify_eq/=; rewrite ?orb_true_r, ?orb_false_r; try congruence; try done.

Lemma clear_flag s r s' : run clear_auth_disabled [] s = (r, s') → flag_exact s → flag_exact s'.
Proof. exact_flag. Qed.
Lemma set_initial_flag e p s r s' : run (set_initial_password e p) [] s = (r, s') → flag_exact s → flag_exact s'.
Proof. exact_flag. Qed.
Lemma add_password_flag e p s r s' : run (add_password e p) [] s = (r, s') → flag_exact s → flag_exact s'.
Proof. exact_flag. Qed.
Lemma mark_flag s r s' : run mark_setup_complete [] s = (r, s') → flag_exact s → flag_exact s'.
Proof. exact_flag. Qed.
Lemma change_password_flag e a b s r s' : run (change_password e a b) [] s = (r, s') → flag_exact s → flag_exact s'.
Proof. exact_flag. Qed.
Lemma reset_flag s r s' : run reset_all [] s = (r, s') → flag_exact s → flag_exact s'.
Proof. exact_flag. Qed.
Lemma remove_passkey_flag i s r s' : run (remove_passkey i) [] s = (r, s') → flag_exact s → flag_exact s'.
Proof. exact_flag. Qed.
Lemma rename_passkey_flag i n s r s' : run (rename_passkey i n) [] s = (r, s') → flag_exact s → flag_exact s'.
Proof. exact_flag. Qed.
Lemma store_passkey_flag a b d s r s' : run (store_passkey a b d) [] s = (r, s') → flag_exact s → flag_exact s'.
Proof. exact_flag. Qed.
Lemma with_config_flag d s r s' : run (with_config d) [] s = (r, s') → flag_exact s'.
Proof.
  unfold flag_exact, has_credentials. intros Hr.
  destruct s as [[pw|] [|pk pks] lp ks lk ss [sd|] sc ad]; cbn in Hr; unfold select, update in Hr; cbn in Hr; by simplify_eq/=.
Qed.
End facts.
