(* ===== verification/HttpAuth.v ===== *)
(** Authentication of HTTP requests: the gate, the extractors and the endpoints under /api/auth.

    Models [crates/httpd/src/auth_middleware.rs] and the handlers of [crates/httpd/src/auth_routes.rs]
    that change credentials, for a gateway without a vault.  They use the credential store
    ([Credentials]), the login guard ([LoginGuard]), locality and client addresses ([Throttle]).  Each
    call of the store runs alone, with faults of its own.  WebAuthn and the onboarding wizard are
    parameters. *)
From S2P Require Import Prelude Float64 Json Utf8 ToolArgs Http Prog Throttle Credentials.
From S2P Require LoginGuard.
Local Open Scope Z_scope.

(** * Who a request is from *)

Definition SESSION_COOKIE : str := "moltis_session".

Inductive AuthResult := Allowed (i : AuthIdentity) | SetupRequired | Unauthorized.

Definition loopback_identity : AuthIdentity := {| method := Loopback; scopes := [] |}.

Definition cookie_header (h : headers) : option str := header_str "cookie" h.
Definition bearer_token (h : headers) : option str := v ← header_str "authorization" h; strip_prefix "Bearer " v.

Definition parse_cookie (header name : str) : option str :=
  find_map (λ part, v ← strip_prefix name (trim part); strip_prefix "=" v) (split (ch ";") header).

Definition extract_session_token (h : headers) : option str := c ← cookie_header h; parse_cookie c SESSION_COOKIE.

Section check.
Context `{Crypto, SerdeJson}.

(** [session_fault] and [key_fault]: the two queries fail. *)
Definition check_auth (e : env) (session_fault key_fault : bool) (s : CredentialStore) (h : headers) (is_local : bool)
    : AuthResult :=
  if auth_disabled s then (if is_local then Allowed loopback_identity else SetupRequired)
  else if negb (setup_complete s) then (if is_local then Allowed loopback_identity else SetupRequired)
  else if is_some_and (λ t, if session_fault then false else session_valid (now e) t s) (extract_session_token h)
  then Allowed {| method := Password; scopes := [] |}
  else match (key ← bearer_token h; if key_fault then None else find_api_key key s) with
       | Some v => Allowed {| method := ApiKey; scopes := v_scopes v |}
       | None => Unauthorized
       end.
End check.

(** * The gate *)

Definition is_public_path (path : str) : bool :=
  existsb (str_eqb path)
    [lit "/health"; lit "/auth/callback"; lit "/manifest.json"; lit "/offline.html"; lit "/sw.js"; lit "/login";
     lit "/setup-required"; lit "/ws"]
  || starts_with "/api/auth/" path || starts_with "/api/public/" path || starts_with "/api/channels/msteams/" path
  || is_slack_callback_path path || starts_with "/api/webhooks/ingest/" path || starts_with "/assets/" path
  || starts_with "/share/" path.

Definition is_onboarding_bypass_path (path : str) : bool :=
  starts_with "/api/sessions/" path || starts_with "/api/bootstrap" path || str_eqb path "/api/gon"
  || starts_with "/api/tailscale/" path || starts_with "/ws/" path.

Definition is_vault_guard_exempt_path (path : str) : bool :=
  starts_with "/api/auth/" path || starts_with "/api/public/" path || str_eqb path "/api/gon"
  || str_eqb path "/api/bootstrap" || str_eqb path "/api/sessions" || starts_with "/api/sessions/" path.

(** The request goes on, with the identity inserted if any; or the answer. *)
Inductive GateResult := Pass (i : option AuthIdentity) | RejectCode (code : str) | RedirectTo (path : str).

Record config := { behind_proxy : bool; trust_docker_loopback : bool; tls_active : bool; webauthn_available : bool }.

Definition api_or_ws (path : str) : bool := starts_with "/api/" path || starts_with "/ws/" path.

(** [store] is [None] when there is no credential store; [onboarded] is what the wizard says. *)
Definition auth_gate `{Crypto, SerdeJson} (c : config) (store : option CredentialStore) (onboarded : bool)
    (e : env) (session_fault key_fault : bool) (path : str) (h : headers) (remote : IpAddr) : GateResult :=
  if is_public_path path then Pass None
  else match store with
  | None => Pass None
  | Some s =>
      let is_local := Locality.is_local_connection h remote (behind_proxy c) (trust_docker_loopback c) in
      match check_auth e session_fault key_fault s h is_local with
      | Allowed i => Pass (Some i)
      | SetupRequired =>
          if api_or_ws path then RejectCode "AUTH_SETUP_REQUIRED"
          else if is_local || str_eqb path "/onboarding" || str_eqb path "/onboarding/" then Pass (Some loopback_identity)
          else RedirectTo "/onboarding"
      | Unauthorized =>
          if is_local && is_onboarding_bypass_path path && negb onboarded then Pass (Some loopback_identity)
          else if api_or_ws path then RejectCode "AUTH_NOT_AUTHENTICATED"
          else RedirectTo "/login"
      end
  end.

(** [vault_guard]: whether the request goes on; [sealed] is [None] without a vault or a status. *)
Definition vault_guard (sealed : option bool) (path : str) : bool :=
  match sealed with
  | None => true
  | Some sealed =>
      if negb (starts_with "/api/" path) || is_vault_guard_exempt_path path then true else negb sealed
  end.

(** ** Extractors *)

(** [AuthSession]: [inserted] is the identity the gate put into the request. *)
Definition auth_session `{Crypto, SerdeJson} (c : config) (store : option CredentialStore) (inserted : option AuthIdentity)
    (e : env) (session_fault key_fault : bool) (h : headers) (remote : IpAddr) : option AuthIdentity :=
  match inserted with
  | Some i => Some i
  | None =>
      s ← store;
      match check_auth e session_fault key_fault s h
              (Locality.is_local_connection h remote (behind_proxy c) (trust_docker_loopback c)) with
      | Allowed i => Some i
      | _ => None
      end
  end.

(** [RequireAdmin]. *)
Definition require_admin (i : option AuthIdentity) : result AuthIdentity Z :=
  match i with
  | None => Err 401
  | Some i => if has_scope i "operator.admin" then Ok i else Err 403
  end.

(** * The endpoints *)

(** WebAuthn: whether this host has a configuration, and what becomes of a finished challenge. *)
Class WebAuthn := {
  known_host : headers → bool;
  finish_authentication : str → bool;
  finish_registration : str → option (bytes * bytes);    (** credential id and passkey *)
}.

Record AuthState := {
  store : CredentialStore;
  guard : @LoginGuard.LoginGuard IpAddr _ _;
  setup_code : option str;
  setup_code_created_at : option Z;
  disconnected : list str;      (** why all clients were disconnected, so far *)
}.
Definition with_store (st : AuthState) s : AuthState :=
  {| store := s; guard := guard st; setup_code := setup_code st; setup_code_created_at := setup_code_created_at st;
     disconnected := disconnected st |}.
Definition with_guard (st : AuthState) g : AuthState :=
  {| store := store st; guard := g; setup_code := setup_code st; setup_code_created_at := setup_code_created_at st;
     disconnected := disconnected st |}.
Definition with_setup_code (st : AuthState) c at_ : AuthState :=
  {| store := store st; guard := guard st; setup_code := c; setup_code_created_at := at_;
     disconnected := disconnected st |}.
Definition disconnect_all_clients (why : str) (st : AuthState) : AuthState :=
  {| store := store st; guard := guard st; setup_code := setup_code st; setup_code_created_at := setup_code_created_at st;
     disconnected := disconnected st ++ [why] |}.

(** A request at its time; [faults i] are those of the [i]-th call of the store. *)
Record HttpRequest := {
  req_headers : headers;
  peer : IpAddr;
  at_ : env;
  instant : Z;      (** nanoseconds *)
  faults : nat → list (option str);
  fresh_code : str; (** what [generate_setup_code] draws *)
}.

Inductive AuthOp :=
| SetupOp (password code : option str)
| LoginOp (password : str)
| Logout
| ResetAuth
| ChangePassword (current : option str) (new_password : str)
| CreateApiKey (lbl : str) (sc : option (list str))
| RevokeApiKey (i : Z)
| RemovePasskey (i : Z)
| RenamePasskey (i : Z) (nm : str)
| PasskeyRegister (credential nm : str)
| PasskeyAuth (assertion : str)
| SetupPasskey (credential nm : str) (code : option str).

Inductive Outcome :=
| Blocked (r : LoginGuard.BlockReason)
| SessionSet (token : str)
| Cleared
| Fine
| KeyCreated (i : Z) (key : str)
| PasskeyAdded (i : Z)
| Refused (status : Z).

Section routes.
Context `{Crypto, SerdeJson, NetParse, WebAuthn} (c : config).

(** The [i]-th call of the store. *)
Definition call {A} (r : HttpRequest) (i : nat) (p : prog A) (st : AuthState) : result A Error * AuthState :=
  let '(res, s) := run p (faults r i) (store st) in (res, with_store st s).

Definition faulty (r : HttpRequest) (i : nat) : bool := match faults r i with Some _ :: _ => true | _ => false end.

Definition is_local (r : HttpRequest) : bool :=
  Locality.is_local_connection (req_headers r) (peer r) (behind_proxy c) (trust_docker_loopback c).
Definition client (r : HttpRequest) : IpAddr := resolve_client_ip (req_headers r) (peer r) (behind_proxy c).

Definition guard_check (r : HttpRequest) (account : str) (st : AuthState) : option LoginGuard.BlockReason :=
  LoginGuard.check_at (guard st) (client r) account (instant r).
Definition record_failure (r : HttpRequest) (account : str) (st : AuthState) : AuthState :=
  with_guard st (LoginGuard.record_failure_at (guard st) (client r) account (instant r)).
Definition record_success (r : HttpRequest) (st : AuthState) : AuthState :=
  with_guard st (LoginGuard.record_success (guard st) (client r)).

(** The session cookie, or 500. *)
Definition grant_session (r : HttpRequest) (i : nat) (st : AuthState) : Outcome * AuthState :=
  match call r i (create_session (at_ r)) st with
  | (Ok t, st) => (SessionSet t, st)
  | (Err _, st) => (Refused 500, st)
  end.

Definition code_matches (code : option str) (st : AuthState) : bool :=
  match setup_code st with Some expected => bool_decide (code = Some expected) | None => true end.

Definition setup_expired (r : HttpRequest) (st : AuthState) : bool :=
  isSome (setup_code st) &&
  is_some_and (λ t, secs (30 * 60) <? duration_since (instant r) t) (setup_code_created_at st).

Definition setup_handler (r : HttpRequest) (password code : option str) (st : AuthState) : Outcome * AuthState :=
  if setup_complete (store st) then (Refused 403, st)
  else match guard_check r "__setup__" st with
  | Some b => (Blocked b, st)
  | None =>
      if setup_expired r st then (Refused 410, st)
      else if negb (code_matches code st) then (Refused 403, record_failure r "__setup__" st)
      else
        let password := unwrap_or [] password in
        let finish (st : AuthState) : Outcome * AuthState :=
          grant_session r 1 (with_setup_code (disconnect_all_clients "setup_complete" st) None (setup_code_created_at st)) in
        if negb (is_nonempty password) && is_local r then
          match call r 0 clear_auth_disabled st with
          | (Ok _, st) => finish st
          | (Err _, st) => (Refused 500, st)
          end
        else if (utf8_len password <? 12)%nat then (Refused 400, st)
        else match call r 0 (set_initial_password (at_ r) password) st with
             | (Ok _, st) => finish st
             | (Err _, st) => (Refused 500, st)
             end
  end.

Definition login_handler (r : HttpRequest) (password : str) (st : AuthState) : Outcome * AuthState :=
  match guard_check r "__password__" st with
  | Some b => (Blocked b, st)
  | None =>
      match call r 0 (verify_password password) st with
      | (Ok true, st) => grant_session r 1 (record_success r st)
      | (Ok false, st) => (Refused 401, record_failure r "__password__" st)
      | (Err _, st) => (Refused 500, st)
      end
  end.

Definition logout_handler (r : HttpRequest) (st : AuthState) : Outcome * AuthState :=
  match extract_session_token (req_headers r) with
  | Some t => (Cleared, (call r 0 (delete_session t) st).2)
  | None => (Cleared, st)
  end.

Definition reset_auth_handler (r : HttpRequest) (st : AuthState) : Outcome * AuthState :=
  match call r 1 reset_all st with
  | (Ok _, st) => (Cleared, with_setup_code (disconnect_all_clients "auth_reset" st) (Some (fresh_code r)) (Some (instant r)))
  | (Err _, st) => (Refused 500, st)
  end.

(** What [to_string] shows of an error. *)
Definition error_text (err : Error) : str :=
  match err with Database m => m | Validation m => m | CryptoError => "failed to hash password" end.

Definition change_password_handler (r : HttpRequest) (current : option str) (new_password : str) (st : AuthState)
    : Outcome * AuthState :=
  if (utf8_len new_password <? 12)%nat then (Refused 400, st)
  else
    let has := match call r 1 has_password st with (Ok b, _) => b | (Err _, _) => false end in
    if negb has then
      match call r 2 (add_password (at_ r) new_password) st with
      | (Ok _, st) => (Fine, disconnect_all_clients "password_changed" st)
      | (Err _, st) => (Refused 500, st)
      end
    else match guard_check r "__password_change__" st with
    | Some b => (Blocked b, st)
    | None =>
        match call r 2 (change_password (at_ r) (unwrap_or [] current) new_password) st with
        | (Ok _, st) => (Fine, disconnect_all_clients "password_changed" (record_success r st))
        | (Err err, st) => if contains "incorrect" (error_text err)
                           then (Refused 403, record_failure r "__password_change__" st) else (Refused 500, st)
        end
    end.

Definition create_api_key_handler (r : HttpRequest) (lbl : str) (sc : option (list str)) (st : AuthState)
    : Outcome * AuthState :=
  if negb (is_nonempty (trim lbl)) then (Refused 400, st)
  else if existsb (λ s, negb (existsb (str_eqb s) VALID_SCOPES)) (unwrap_or [] sc) then (Refused 400, st)
  else match call r 1 (create_api_key (at_ r) (trim lbl) sc) st with
       | (Ok (i, key), st) => (KeyCreated i key, st)
       | (Err _, st) => (Refused 500, st)
       end.

Definition revoke_api_key_handler (r : HttpRequest) (i : Z) (st : AuthState) : Outcome * AuthState :=
  match call r 1 (revoke_api_key (at_ r) i) st with
  | (Ok _, st) => (Fine, st)
  | (Err _, st) => (Refused 500, st)
  end.

Definition remove_passkey_handler (r : HttpRequest) (i : Z) (st : AuthState) : Outcome * AuthState :=
  match call r 1 (remove_passkey i) st with
  | (Ok _, st') => (Fine, if setup_complete (store st) && negb (setup_complete (store st'))
                          then disconnect_all_clients "last_credential_removed" st' else st')
  | (Err _, st') => (Refused 500, st')
  end.

Definition rename_passkey_handler (r : HttpRequest) (i : Z) (nm : str) (st : AuthState) : Outcome * AuthState :=
  if negb (is_nonempty (trim nm)) then (Refused 400, st)
  else match call r 1 (rename_passkey i (trim nm)) st with
       | (Ok _, st) => (Fine, st)
       | (Err _, st) => (Refused 500, st)
       end.

Definition passkey_name (nm : str) : str := if is_nonempty (trim nm) then trim nm else "Passkey".

Definition passkey_register_handler (r : HttpRequest) (credential nm : str) (st : AuthState) : Outcome * AuthState :=
  if negb (webauthn_available c) then (Refused 501, st)
  else if negb (known_host (req_headers r)) then (Refused 400, st)
  else match finish_registration credential with
       | None => (Refused 400, st)
       | Some (cred, data) =>
           match call r 1 (store_passkey cred (passkey_name nm) data) st with
           | (Ok i, st) => (PasskeyAdded i, st)
           | (Err _, st) => (Refused 500, st)
           end
       end.

Definition passkey_auth_handler (r : HttpRequest) (assertion : str) (st : AuthState) : Outcome * AuthState :=
  match guard_check r "__passkey__" st with
  | Some b => (Blocked b, st)
  | None =>
      if negb (webauthn_available c) then (Refused 501, st)
      else if negb (known_host (req_headers r)) then (Refused 400, st)
      else if finish_authentication assertion then grant_session r 1 (record_success r st)
      else (Refused 401, record_failure r "__passkey__" st)
  end.

Definition setup_passkey_handler (r : HttpRequest) (credential nm : str) (code : option str) (st : AuthState)
    : Outcome * AuthState :=
  if setup_complete (store st) then (Refused 403, st)
  else if negb (code_matches code st) then (Refused 403, st)
  else if negb (webauthn_available c) then (Refused 501, st)
  else if negb (known_host (req_headers r)) then (Refused 400, st)
  else match finish_registration credential with
       | None => (Refused 400, st)
       | Some (cred, data) =>
           match call r 0 (store_passkey cred (passkey_name nm) data) st with
           | (Err _, st) => (Refused 500, st)
           | (Ok _, st) =>
               match call r 2 mark_setup_complete st with
               | (Err _, st) => (Refused 500, st)
               | (Ok _, st) =>
                   grant_session r 1 (with_setup_code (disconnect_all_clients "setup_complete" st) None (setup_code_created_at st))
               end
           end
       end.

(** The handlers whose first argument is an [AuthSession]. *)
Definition needs_session (o : AuthOp) : bool :=
  match o with
  | ResetAuth | ChangePassword _ _ | CreateApiKey _ _ | RevokeApiKey _ | RemovePasskey _ | RenamePasskey _ _
  | PasskeyRegister _ _ => true
  | SetupOp _ _ | LoginOp _ | Logout | PasskeyAuth _ | SetupPasskey _ _ _ => false
  end.

Definition handler (r : HttpRequest) (o : AuthOp) (st : AuthState) : Outcome * AuthState :=
  match o with
  | SetupOp password code => setup_handler r password code st
  | LoginOp password => login_handler r password st
  | Logout => logout_handler r st
  | ResetAuth => reset_auth_handler r st
  | ChangePassword current new_password => change_password_handler r current new_password st
  | CreateApiKey lbl sc => create_api_key_handler r lbl sc st
  | RevokeApiKey i => revoke_api_key_handler r i st
  | RemovePasskey i => remove_passkey_handler r i st
  | RenamePasskey i nm => rename_passkey_handler r i nm st
  | PasskeyRegister credential nm => passkey_register_handler r credential nm st
  | PasskeyAuth assertion => passkey_auth_handler r assertion st
  | SetupPasskey credential nm code => setup_passkey_handler r credential nm code st
  end.

(** The paths are public, so the gate inserts no identity. *)
Definition session_of (r : HttpRequest) (st : AuthState) : option AuthIdentity :=
  auth_session c (Some (store st)) None (at_ r) (faulty r 0) (faulty r 3) (req_headers r) (peer r).

Definition serve (r : HttpRequest) (o : AuthOp) (st : AuthState) : Outcome * AuthState :=
  if needs_session o then
    match session_of r st with
    | Some _ => handler r o st
    | None => (Refused 401, st)
    end
  else handler r o st.

(** The start of the gateway: the store is opened, and a setup code is drawn when one is needed. *)
Definition start (config_disabled : bool) (code : str) (now : Z) (s : CredentialStore) : AuthState :=
  let s := (run (with_config config_disabled) [] s).2 in
  let drawn := negb (setup_complete s) && negb (auth_disabled s) in
  {| store := s; guard := LoginGuard.new; setup_code := if drawn then Some code else None;
     setup_code_created_at := if drawn then Some now else None; disconnected := [] |}.
End routes.

(** ** The cookie *)

Definition should_secure_cookie (tls_active behind_proxy : bool) (h : headers) : bool :=
  if tls_active then true
  else if behind_proxy then
    is_some_and (λ proto, str_eqb (to_ascii_lowercase (trim (unwrap_or [] (head (split (ch ",") proto))))) "https")
      (header_str "x-forwarded-proto" h)
  else false.

Definition nonempty_trimmed (v : str) : option str := if is_nonempty (trim v) then Some (trim v) else None.

Definition cookie_host (h : headers) (behind_proxy : bool) : option str :=
  let host := v ← header_str "host" h; nonempty_trimmed v in
  if negb behind_proxy then host
  else or_else (raw ← header_str "x-forwarded-host" h; first ← head (split (ch ",") raw); nonempty_trimmed first) host.

Definition localhost_cookie_domain (h : headers) (behind_proxy : bool) : str :=
  match cookie_host h behind_proxy with
  | None => []
  | Some host =>
      let name := match rsplit_once (ch ":") host with Some (n, _) => n | None => host end in
      if ends_with ".localhost" name || (negb behind_proxy && str_eqb name "localhost") then "; Domain=localhost" else []
  end.

Definition session_cookie (token : str) (h : headers) (behind_proxy secure : bool) : str :=
  SESSION_COOKIE ++ lit "=" ++ token ++ lit "; HttpOnly; SameSite=Strict; Path=/; Max-Age=2592000" ++
  localhost_cookie_domain h behind_proxy ++ (if secure then lit "; Secure" else []).

(** * Facts *)

Local Arguments lit : simpl never.

Section facts.
Context `{Crypto, SerdeJson, NetParse, WebAuthn} (c : config).

(** ** What the gate lets through *)

(** The request shows a session that is in the table and not expired. *)
Definition shows_session (e : env) (s : CredentialStore) (h : headers) : Prop :=
  ∃ t row, extract_session_token h = Some t ∧ row ∈ sessions s ∧ token row = t ∧ now e < s_expires_at row.
(** The request shows a key that is in the table and not revoked; [sc] are the scopes of its row. *)
Definition shows_key (s : CredentialStore) (h : headers) (sc : list str) : Prop :=
  ∃ key row, bearer_token h = Some key ∧ row ∈ api_keys s ∧ revoked_at row = None ∧ key_matches key row = true ∧
    sc = unwrap_or [] (j ← key_scopes row; parse_strings j).
(** Nothing to authenticate with: disabled, or not set up. *)
Definition open_store (s : CredentialStore) : Prop := auth_disabled s = true ∨ setup_complete s = false.

Lemma session_valid_iff n t s :
  session_valid n t s = true ↔ ∃ row, row ∈ sessions s ∧ token row = t ∧ n < s_expires_at row.
Proof.
  unfold session_valid. rewrite existsb_exists. unfold live_session.
  split; intros (row & Hrow); exists row.
  - rewrite andb_true_iff, Z.ltb_lt in Hrow. destruct Hrow as (Hin & Ht%str_eqb_true & Hl). split_and!; [by apply list_elem_of_In|done|done].
  - destruct Hrow as (Hin & <- & Hl). split; [by apply list_elem_of_In|]. by rewrite str_eqb_refl, (proj2 (Z.ltb_lt _ _) Hl).
Qed.

Lemma find_key_row key s v :
  find_api_key key s = Some v → ∃ row, row ∈ api_keys s ∧ revoked_at row = None ∧ key_matches key row = true ∧
    v = {| v_key_id := key_id row; v_scopes := unwrap_or [] (j ← key_scopes row; parse_strings j) |}.
Proof.
  unfold find_api_key. destruct (List.filter (key_matches key) (active_keys s)) as [|row l] eqn:E; [done|].
  simpl. intros [= <-]. assert (Hin : In row (List.filter (key_matches key) (active_keys s))) by (rewrite E; by left).
  apply filter_In in Hin as [Hin Hm]. unfold active_keys in Hin. apply filter_In in Hin as [Hin Hr].
  exists row. split_and!; [by apply list_elem_of_In| |done|done]. by destruct (revoked_at row).
Qed.

Lemma check_auth_allowed e f1 f2 s h local i :
  check_auth e f1 f2 s h local = Allowed i →
  (local = true ∧ open_store s ∧ i = loopback_identity) ∨
  (shows_session e s h ∧ method i = Password) ∨ (shows_key s h (scopes i) ∧ method i = ApiKey).
Proof.
  unfold check_auth, open_store. destruct (auth_disabled s) eqn:Ed; [destruct local; [intros [= <-]; by left; auto|done]|].
  destruct (setup_complete s) eqn:Ec; simpl; [|destruct local; [intros [= <-]; left; auto|done]].
  destruct (extract_session_token h) as [t|] eqn:Et; simpl.
  - destruct f1; simpl; [|destruct (session_valid (now e) t s) eqn:Es].
    2: { intros [= <-]. right. left. split; [|done]. apply session_valid_iff in Es as (row & ? & ? & ?). by exists t, row. }
    all: destruct (bearer_token h) as [key|] eqn:Ek; simpl; [destruct f2; simpl; [done|]|done];
      destruct (find_api_key key s) as [v|] eqn:Ef; [|done]; intros [= <-]; right; right; split; [|done];
      apply find_key_row in Ef as (row & ? & ? & ? & ->); by exists key, row.
  - destruct (bearer_token h) as [key|] eqn:Ek; simpl; [destruct f2; simpl; [done|]|done].
    destruct (find_api_key key s) as [v|] eqn:Ef; [|done]. intros [= <-]. right. right. split; [|done].
    apply find_key_row in Ef as (row & ? & ? & ? & ->). by exists key, row.
Qed.

Lemma check_auth_setup e f1 f2 s h local : check_auth e f1 f2 s h local = SetupRequired → open_store s ∧ local = false.
Proof.
  unfold check_auth, open_store. destruct (auth_disabled s); [destruct local; auto; done|].
  destruct (setup_complete s); simpl; [|destruct local; auto; done].
  destruct (is_some_and _ _); [done|]. by destruct (_ ← bearer_token h; _).
Qed.

(** C1. The gate protects every path that is not public: a request passes only with a live session, with
    an API key that is not revoked (and then under the scopes of that key), or, without either, as a
    local connection while nothing is set up or authentication is off, as a local connection to the few
    paths of the wizard before onboarding is done, or to the onboarding page itself while nothing is set up.
    A failing database query never opens it. *)
Theorem gate_protects s onboarded e f1 f2 path h remote i :
  is_public_path path = false →
  auth_gate c (Some s) onboarded e f1 f2 path h remote = Pass i →
  let local := Locality.is_local_connection h remote (behind_proxy c) (trust_docker_loopback c) in
  shows_session e s h ∨
  (∃ sc, shows_key s h sc ∧ i = Some {| method := ApiKey; scopes := sc |}) ∨
  (local = true ∧ open_store s) ∨
  (local = true ∧ onboarded = false ∧ is_onboarding_bypass_path path = true) ∨
  (open_store s ∧ path ∈ [lit "/onboarding"; lit "/onboarding/"]).
Proof.
  intros Hpub Hg local. unfold auth_gate in Hg. rewrite Hpub in Hg. fold local in Hg.
  destruct (check_auth e f1 f2 s h local) as [id| |] eqn:Ec.
  - injection Hg as <-. destruct (check_auth_allowed _ _ _ _ _ _ _ Ec) as [(Hl & Ho & _)|[[Hs _]|[Hk Hm]]].
    + right. right. left. by split.
    + by left.
    + right. left. exists (scopes id). split; [done|]. destruct id as [m sc]. simpl in *. by subst m.
  - destruct (check_auth_setup _ _ _ _ _ _ Ec) as [Ho Hl]. rewrite Hl in Hg. simpl in Hg.
    destruct (api_or_ws path); [done|]. destruct (str_eqb path "/onboarding") eqn:E1; simpl in Hg.
    + apply str_eqb_true in E1 as ->. do 4 right. split; [done|]. by left.
    + destruct (str_eqb path "/onboarding/") eqn:E2; [|done]. apply str_eqb_true in E2 as ->.
      do 4 right. split; [done|]. right. by left.
  - destruct (local && is_onboarding_bypass_path path && negb onboarded) eqn:E; [|by destruct (api_or_ws path)].
    apply andb_true_iff in E as [E Hon]. apply andb_true_iff in E as [Hl Hp]. do 3 right. left.
    by destruct onboarded.
Qed.

(** ** Where sessions come from *)

(** What a request must bring for the answer to be a session: the password, an assertion that WebAuthn
    accepts, or, before setup is complete, the setup code in force; and for the first two an
    address and an account that are not blocked. *)
Definition proves (r : HttpRequest) (o : AuthOp) (st : AuthState) : Prop :=
  match o with
  | LoginOp password =>
      guard_check c r "__password__" st = None ∧ password_matches password (password_hash (store st)) = true
  | PasskeyAuth assertion =>
      guard_check c r "__passkey__" st = None ∧ finish_authentication assertion = true
  | SetupOp _ code =>
      guard_check c r "__setup__" st = None ∧ setup_complete (store st) = false ∧ isSome code = true ∧ setup_code st = code
  | SetupPasskey credential _ code =>
      setup_complete (store st) = false ∧ isSome code = true ∧ setup_code st = code ∧
      isSome (finish_registration credential) = true
  | _ => False
  end.

(** The instance belongs to nobody: setup is open, no code is in force, and whoever asks first to set it
    up gets a session without a proof. *)
Definition unclaimed (o : AuthOp) (st : AuthState) : Prop :=
  match o with
  | SetupOp _ _ | SetupPasskey _ _ _ => setup_complete (store st) = false ∧ setup_code st = None
  | _ => False
  end.
Lemma code_matches_cases code st :
  code_matches code st = true → (isSome code = true ∧ setup_code st = code) ∨ setup_code st = None.
Proof.
  unfold code_matches. destruct (setup_code st) as [e|]; [|by right]. case_bool_decide; [subst|done]. by left.
Qed.

(** The sessions after a step: none is new, or the one that was proved for and handed out. *)
Definition granted (r : HttpRequest) (o : AuthOp) (st : AuthState) (res : Outcome * AuthState) : Prop :=
  no_new_session (store st) (store res.2) ∨
  ((proves r o st ∨ unclaimed o st) ∧ res.1 = SessionSet (random1 (at_ r)) ∧
   ∀ x, x ∈ sessions (store res.2) → x ∈ sessions (store st) ∨ x = new_session (at_ r)).

Lemma call_quiet {A} r i (p : prog A) st res st' :
  all_statements no_new_session p → call r i p st = (res, st') → no_new_session (store st) (store st').
Proof.
  unfold call. destruct (run p (faults r i) (store st)) as [r0 s0] eqn:E. intros Hq [= <- <-]. simpl.
  exact (run_statements Database no_new_session _ _ _ _ _ Hq E).
Qed.

Lemma grant_granted r i st st0 o out st' :
  grant_session r i st = (out, st') → no_new_session (store st0) (store st) → (proves r o st0 ∨ unclaimed o st0) →
  granted r o st0 (out, st').
Proof.
  unfold grant_session, call. destruct (run (create_session (at_ r)) (faults r i) (store st)) as [r0 s0] eqn:E.
  intros Hg Hn Hp. destruct (create_session_run _ _ _ _ _ E) as [[Hq [err ->]]|(-> & _ & Hnew)]; injection Hg as <- <-.
  - left. simpl. intros x Hx. by apply Hn, Hq.
  - right. split_and!; [done|done|]. simpl. intros x Hx. destruct (Hnew x Hx) as [Hx'|Hx']; [left; by apply Hn|by right].
Qed.

Ltac by_quiet lem :=
  match goal with Hc : call _ _ _ _ = (_, ?st) |- _ => pose proof (call_quiet _ _ _ _ _ _ lem Hc) end.

Lemma setup_granted r password code st : granted r (SetupOp password code) st (setup_handler c r password code st).
Proof.
  unfold setup_handler. destruct (setup_complete (store st)) eqn:Ec; [by left; intros x Hx|].
  destruct (guard_check c r "__setup__" st) as [b|] eqn:Eg; [by left; intros x Hx|].
  destruct (setup_expired r st); [by left; intros x Hx|].
  destruct (code_matches code st) eqn:Em; [simpl|by left; intros x Hx].
  assert (Hfin : ∀ st1, no_new_session (store st) (store st1) → granted r (SetupOp password code) st
    (grant_session r 1 (with_setup_code (disconnect_all_clients "setup_complete" st1) None (setup_code_created_at st1)))).
  { intros st1 Hst1. destruct (grant_session r 1 _) as [out st2] eqn:E.
    apply (grant_granted _ _ _ _ _ _ _ E); [exact Hst1|].
    destruct (code_matches_cases _ _ Em) as [[? ?]|?]; [left|right]; by split_and!. }
  destruct (negb (is_nonempty (unwrap_or [] password)) && is_local c r).
  - destruct (call r 0 clear_auth_disabled st) as [[u|e] st1] eqn:Ecall; by_quiet clear_quiet; [by apply Hfin|by left].
  - destruct (_ <? 12)%nat; [by left; intros x Hx|].
    destruct (call r 0 (set_initial_password (at_ r) (unwrap_or [] password)) st) as [[u|e] st1] eqn:Ecall;
      by_quiet (set_initial_quiet (at_ r) (unwrap_or [] password)); [by apply Hfin|by left].
Qed.

Lemma setup_passkey_granted r credential nm code st :
  granted r (SetupPasskey credential nm code) st (setup_passkey_handler c r credential nm code st).
Proof.
  unfold setup_passkey_handler. destruct (setup_complete (store st)) eqn:Ec; [by left; intros x Hx|].
  destruct (code_matches code st) eqn:Em; [simpl|by left; intros x Hx].
  destruct (webauthn_available c); [simpl|by left; intros x Hx].
  destruct (known_host _); [simpl|by left; intros x Hx].
  destruct (finish_registration credential) as [[cred data]|] eqn:Ef; [|by left; intros x Hx].
  destruct (call r 0 (store_passkey cred (passkey_name nm) data) st) as [[u|e] st1] eqn:Ecall;
    by_quiet (store_passkey_quiet cred (passkey_name nm) data); [|by left].
  destruct (call r 2 mark_setup_complete st1) as [[u2|e] st2] eqn:Ecall2; by_quiet mark_quiet;
    [|left; intros x Hx; auto].
  destruct (grant_session r 1 _) as [out st3] eqn:E. apply (grant_granted _ _ _ _ _ _ _ E).
  - intros x Hx. auto.
  - destruct (code_matches_cases _ _ Em) as [[? ?]|?]; [left|right]; split_and!; try done. by rewrite Ef.
Qed.

Lemma serve_granted r o st : granted r o st (serve c r o st).
Proof.
  unfold serve. destruct (needs_session o) eqn:En; [destruct (session_of c r st) as [sid|]; [|by left; intros x Hx]|];
    destruct o as [pw code|pw| | |cur new|l sc|i|i|i n|cr n|a|cr n code]; try discriminate En; simpl handler.
  - unfold reset_auth_handler. destruct (call r 1 reset_all st) as [[u|e] st1] eqn:E; by_quiet reset_quiet; by left.
  - unfold change_password_handler. destruct (_ <? 12)%nat; [by left; intros x Hx|].
    destruct (negb _).
    + destruct (call r 2 (add_password (at_ r) new) st) as [[u|e] st1] eqn:E; by_quiet (add_password_quiet (at_ r) new); by left.
    + destruct (guard_check c r "__password_change__" st); [by left; intros x Hx|].
      destruct (call r 2 (change_password (at_ r) (unwrap_or [] cur) new) st) as [[u|e] st1] eqn:E;
        by_quiet (change_password_quiet (at_ r) (unwrap_or [] cur) new); [by left|]. by destruct (contains _ _); left.
  - unfold create_api_key_handler. destruct (negb _); [by left; intros x Hx|]. destruct (existsb _ _); [by left; intros x Hx|].
    destruct (call r 1 (create_api_key (at_ r) (trim l) sc) st) as [[[i k]|e] st1] eqn:E;
      by_quiet (create_key_quiet (at_ r) (trim l) sc); by left.
  - unfold revoke_api_key_handler. destruct (call r 1 (revoke_api_key (at_ r) i) st) as [[u|e] st1] eqn:E;
      by_quiet (revoke_key_quiet (at_ r) i); by left.
  - unfold remove_passkey_handler. destruct (call r 1 (remove_passkey i) st) as [[u|e] st1] eqn:E;
      by_quiet (remove_passkey_quiet i); [|by left]. left. by destruct (_ && _).
  - unfold rename_passkey_handler. destruct (negb _); [by left; intros x Hx|].
    destruct (call r 1 (rename_passkey i (trim n)) st) as [[u|e] st1] eqn:E; by_quiet (rename_passkey_quiet i (trim n)); by left.
  - unfold passkey_register_handler. destruct (negb _); [by left; intros x Hx|]. destruct (negb _); [by left; intros x Hx|].
    destruct (finish_registration cr) as [[cred data]|]; [|by left; intros x Hx].
    destruct (call r 1 (store_passkey cred (passkey_name n) data) st) as [[u|e] st1] eqn:E;
      by_quiet (store_passkey_quiet cred (passkey_name n) data); by left.
  - apply setup_granted.
  - unfold login_handler. destruct (guard_check c r "__password__" st) eqn:Eg; [by left; intros x Hx|].
    destruct (call r 0 (verify_password pw) st) as [res st1] eqn:E. by_quiet (verify_password_quiet pw).
    destruct res as [[]|e]; [|by left|by left].
    destruct (grant_session r 1 (record_success c r st1)) as [out st2] eqn:Egr.
    apply (grant_granted _ _ _ _ _ _ _ Egr); [done|]. left. split; [done|].
    unfold call, verify_password in E. destruct (run _ _ _) as [res s1] eqn:Er. injection E as -> <-.
    apply run_Query in Er as [(e & Her & _)|(h & s2 & f' & Hq & Er)]; [done|]. injection Hq as <- <-.
    cbn in Er. by injection Er.
  - unfold logout_handler. destruct (extract_session_token _) as [t|]; [|by left; intros x Hx].
    destruct (call r 0 (delete_session t) st) as [u st1] eqn:E. by_quiet (delete_session_quiet t). by left.
  - unfold passkey_auth_handler. destruct (guard_check c r "__passkey__" st) eqn:Eg; [by left; intros x Hx|].
    destruct (negb _); [by left; intros x Hx|]. destruct (negb _); [by left; intros x Hx|].
    destruct (finish_authentication a) eqn:Ef; [|by left; intros x Hx].
    destruct (grant_session r 1 (record_success c r st)) as [out st2] eqn:Egr.
    apply (grant_granted _ _ _ _ _ _ _ Egr); [by intros x Hx|]. left. by split.
  - apply setup_passkey_granted.
Qed.

(** Requests one after the other. *)
Definition serve_all (st : AuthState) (cs : list (HttpRequest * AuthOp)) : AuthState :=
  foldl (λ st '(r, o), (serve c r o st).2) st cs.

(** C12. Every live session was earned: in any sequence of requests to the endpoints, with any database
    faults, a session that is valid was handed out, less than thirty days before and after the last time
    the table was empty, as the answer to a login with the stored password, an accepted passkey, or a
    setup request with the setup code in force; or, without a proof, to a setup request while setup was
    open and no code was in force.  No other endpoint, error path or eviction makes one. *)
Theorem sessions_are_earned st0 cs now t :
  sessions (store st0) = [] → session_valid now t (store (serve_all st0 cs)) = true →
  ∃ before r o after, cs = before ++ (r, o) :: after ∧
    (proves r o (serve_all st0 before) ∨ unclaimed o (serve_all st0 before)) ∧ (serve c r o (serve_all st0 before)).1 = SessionSet t ∧
    now < Credentials.now (at_ r) + session_ttl.
Proof.
  intros Hempty (row & Hin & <- & Hlive)%session_valid_iff.
  induction cs as [|[r o] cs IH] using rev_ind; [simpl in Hin; rewrite Hempty in Hin; by apply elem_of_nil in Hin|].
  unfold serve_all in Hin. rewrite foldl_app in Hin. cbn [foldl] in Hin. fold (serve_all st0 cs) in Hin.
  destruct (serve_granted r o (serve_all st0 cs)) as [Hn|(Hp & Hout & Hnew)].
  - destruct (IH (Hn _ Hin)) as (before & r' & o' & after & -> & Hrest).
    exists before, r', o', (after ++ [(r, o)]). split; [by rewrite <- app_assoc|done].
  - destruct (Hnew _ Hin) as [Hold| ->].
    + destruct (IH Hold) as (before & r' & o' & after & -> & Hrest).
      exists before, r', o', (after ++ [(r, o)]). split; [by rewrite <- app_assoc|done].
    + by exists cs, r, o, [].
Qed.

(** ** When authentication is enforced *)

Definition faultless (r : HttpRequest) : Prop := ∀ i, faults r i = [].

Lemma call_flag {A} r i (p : prog A) st res st' :
  faultless r → (∀ s r0 s', run p [] s = (r0, s') → flag_exact s → flag_exact s') →
  call r i p st = (res, st') → flag_exact (store st) → flag_exact (store st').
Proof.
  unfold call. intros Hf Hp. rewrite Hf. destruct (run p [] (store st)) as [r0 s0] eqn:E. intros [= <- <-]. by apply (Hp _ _ _ E).
Qed.

(** The flag reads only the password, the passkeys and itself. *)
Lemma flag_same s s' :
  setup_complete s' = setup_complete s → password_hash s' = password_hash s → passkeys s' = passkeys s →
  flag_exact s → flag_exact s'.
Proof. unfold flag_exact, has_credentials. by intros -> -> ->. Qed.

Lemma create_session_flag e s r s' : run (create_session e) [] s = (r, s') → flag_exact s → flag_exact s'.
Proof.
  intros Hr. cbn in Hr. unfold select, update, insert_session in Hr. cbn in Hr.
  repeat (case_match; cbn in * ); simplify_eq/=; by apply flag_same.
Qed.

Lemma grant_flag r i st out st' :
  faultless r → grant_session r i st = (out, st') → flag_exact (store st) → flag_exact (store st').
Proof.
  intros Hf. unfold grant_session. destruct (call r i _ st) as [[t|e] st1] eqn:E;
    intros [= <- <-]; apply (call_flag _ _ _ _ _ _ Hf (create_session_flag (at_ r)) E).
Qed.

Lemma create_key_flag e l sc s r s' : run (create_api_key e l sc) [] s = (r, s') → flag_exact s → flag_exact s'.
Proof. intros Hr. cbn in Hr. simplify_eq/=. by apply flag_same. Qed.
Lemma revoke_key_flag e i s r s' : run (revoke_api_key e i) [] s = (r, s') → flag_exact s → flag_exact s'.
Proof. intros Hr. cbn in Hr. unfold update in Hr. simplify_eq/=. by apply flag_same. Qed.
Lemma delete_session_flag t s r s' : run (delete_session t) [] s = (r, s') → flag_exact s → flag_exact s'.
Proof. intros Hr. cbn in Hr. unfold update in Hr. simplify_eq/=. by apply flag_same. Qed.
Lemma verify_password_flag p s r s' : run (verify_password p) [] s = (r, s') → flag_exact s → flag_exact s'.
Proof. intros Hr. cbn in Hr. unfold select in Hr. by simplify_eq/=. Qed.

Ltac by_flag Hf lem :=
  match goal with Hc : call _ _ _ _ = (_, ?st) |- _ => pose proof (call_flag _ _ _ _ _ _ Hf lem Hc) end.

Lemma granted_flag r i st : faultless r → flag_exact (store st) → flag_exact (store (grant_session r i st).2).
Proof. intros Hf Hst. destruct (grant_session r i st) as [out st'] eqn:E. by apply (grant_flag _ _ _ _ _ Hf E). Qed.

Lemma setup_flag r password code st :
  faultless r → flag_exact (store st) → flag_exact (store (setup_handler c r password code st).2).
Proof.
  intros Hf Hst. unfold setup_handler. destruct (setup_complete (store st)); [done|].
  destruct (guard_check c r "__setup__" st); [done|]. destruct (setup_expired r st); [done|].
  destruct (negb (code_matches code st)); [done|]. cbv zeta.
  destruct (negb (is_nonempty (unwrap_or [] password)) && is_local c r).
  - destruct (call r 0 clear_auth_disabled st) as [[u|e] st1] eqn:E; by_flag Hf clear_flag; [apply granted_flag|]; auto.
  - destruct (_ <? 12)%nat; [done|].
    destruct (call r 0 (set_initial_password (at_ r) (unwrap_or [] password)) st) as [[u|e] st1] eqn:E;
      by_flag Hf (set_initial_flag (at_ r) (unwrap_or [] password)); [apply granted_flag|]; auto.
Qed.

Lemma setup_passkey_flag r credential nm code st :
  faultless r → flag_exact (store st) → flag_exact (store (setup_passkey_handler c r credential nm code st).2).
Proof.
  intros Hf Hst. unfold setup_passkey_handler. destruct (setup_complete (store st)); [done|].
  destruct (negb (code_matches code st)); [done|]. destruct (negb _); [done|]. destruct (negb _); [done|].
  destruct (finish_registration credential) as [[cred data]|]; [|done].
  destruct (call r 0 (store_passkey cred (passkey_name nm) data) st) as [[u|e] st1] eqn:E;
    by_flag Hf (store_passkey_flag cred (passkey_name nm) data); [|auto].
  destruct (call r 2 mark_setup_complete st1) as [[u2|e] st2] eqn:E2; by_flag Hf mark_flag; [apply granted_flag|]; auto.
Qed.

Lemma change_flag r cur new st :
  faultless r → flag_exact (store st) → flag_exact (store (change_password_handler c r cur new st).2).
Proof.
  intros Hf Hst. unfold change_password_handler. destruct (_ <? 12)%nat; [done|]. cbv zeta. destruct (negb _).
  - destruct (call r 2 (add_password (at_ r) new) st) as [[u|e] st1] eqn:E; by_flag Hf (add_password_flag (at_ r) new); auto.
  - destruct (guard_check c r "__password_change__" st); [done|].
    destruct (call r 2 (change_password (at_ r) (unwrap_or [] cur) new) st) as [[u|e] st1] eqn:E;
      by_flag Hf (change_password_flag (at_ r) (unwrap_or [] cur) new); [auto|]. destruct (contains _ _); auto.
Qed.

Lemma serve_flag r o st : faultless r → flag_exact (store st) → flag_exact (store (serve c r o st).2).
Proof.
  intros Hf Hst. unfold serve. destruct (needs_session o) eqn:En; [destruct (session_of c r st) as [sid|]; [|done]|];
    destruct o as [pw code|pw| | |cur new|l sc|i|i|i n|cr n|a|cr n code]; try discriminate En; simpl handler.
  - unfold reset_auth_handler. destruct (call r 1 reset_all st) as [[u|e] st1] eqn:E; by_flag Hf reset_flag; auto.
  - by apply change_flag.
  - unfold create_api_key_handler. destruct (negb _); [done|]. destruct (existsb _ _); [done|].
    destruct (call r 1 (create_api_key (at_ r) (trim l) sc) st) as [[[i k]|e] st1] eqn:E;
      by_flag Hf (create_key_flag (at_ r) (trim l) sc); auto.
  - unfold revoke_api_key_handler. destruct (call r 1 (revoke_api_key (at_ r) i) st) as [[u|e] st1] eqn:E;
      by_flag Hf (revoke_key_flag (at_ r) i); auto.
  - unfold remove_passkey_handler. destruct (call r 1 (remove_passkey i) st) as [[u|e] st1] eqn:E;
      by_flag Hf (remove_passkey_flag i); [|auto]. simpl. destruct (_ && _); auto.
  - unfold rename_passkey_handler. destruct (negb _); [done|].
    destruct (call r 1 (rename_passkey i (trim n)) st) as [[u|e] st1] eqn:E; by_flag Hf (rename_passkey_flag i (trim n)); auto.
  - unfold passkey_register_handler. destruct (negb _); [done|]. destruct (negb _); [done|].
    destruct (finish_registration cr) as [[cred data]|]; [|done].
    destruct (call r 1 (store_passkey cred (passkey_name n) data) st) as [[u|e] st1] eqn:E;
      by_flag Hf (store_passkey_flag cred (passkey_name n) data); auto.
  - by apply setup_flag.
  - unfold login_handler. destruct (guard_check c r "__password__" st); [done|].
    destruct (call r 0 (verify_password pw) st) as [[[]|e] st1] eqn:E; by_flag Hf (verify_password_flag pw);
      [apply granted_flag| |]; auto.
  - unfold logout_handler. destruct (extract_session_token _) as [t|]; [|done].
    destruct (call r 0 (delete_session t) st) as [u st1] eqn:E; by_flag Hf (delete_session_flag t); auto.
  - unfold passkey_auth_handler. destruct (guard_check c r "__passkey__" st); [done|].
    destruct (negb _); [done|]. destruct (negb _); [done|]. destruct (finish_authentication a); [|done].
    by apply granted_flag.
  - by apply setup_passkey_flag.
Qed.

Lemma serve_all_flag cs : ∀ st,
  Forall (λ x, faultless x.1) cs → flag_exact (store st) → flag_exact (store (serve_all st cs)).
Proof.
  induction cs as [|[r o] cs IH]; intros st Hcs Hst; [done|]. apply Forall_cons in Hcs as [Hr Hcs].
  apply (IH (serve c r o st).2); [done|]. by apply serve_flag.
Qed.

(** C36. Authentication is enforced exactly when there is something to authenticate with: from the start
    of the gateway on any tables and through any sequence of requests, the flag that the gate consults
    says whether a password or a passkey is stored; so without "authentication off" no remote request is
    allowed while there is none, and no local one is excused while there is. *)
Theorem enforced_iff_credentials tables config_disabled code now cs :
  Forall (λ x, faultless x.1) cs →
  let s := store (serve_all (start config_disabled code now tables) cs) in
  setup_complete s = has_credentials s ∧
  ∀ e f1 f2 h local, auth_disabled s = false →
    check_auth e f1 f2 s h local = Allowed loopback_identity → has_credentials s = false ∧ local = true.
Proof.
  intros Hcs s. assert (Hflag : flag_exact s).
  { apply serve_all_flag; [done|]. unfold start. destruct (run (with_config config_disabled) [] tables) as [r0 s0] eqn:E.
    exact (with_config_flag _ _ _ _ E). }
  split; [exact Hflag|]. intros e f1 f2 h local Hd Ha.
  destruct (check_auth_allowed _ _ _ _ _ _ _ Ha) as [(Hl & [Ho|Ho] & _)|[[_ Hm]|[_ Hm]]]; try done; [congruence|].
  split; [|done]. by rewrite <- Hflag.
Qed.
End facts.

(** * Examples and witnesses *)

Section witnesses.
(** A hash that is the password, and digests that are their input. *)
Definition toy_crypto : Crypto :=
  {| hash_password p _ := Some p; verify_hash p h := str_eqb p h; sha256_hex s := s; hmac_sha256_hex s k := s ++ k |}.
(** One array of scopes can be printed and read. *)
Definition scope_serde : SerdeJson :=
  {| from_str s := if str_eqb s "[read]" then Ok (JArray [JString "operator.read"]) else Err [];
     to_string _ := Some (lit "[read]") |}.
Definition no_net : NetParse := {| parse_ip_addr _ := None; parse_socket_addr _ := None |}.
Definition no_webauthn : WebAuthn :=
  {| known_host _ := false; finish_authentication _ := false; finish_registration _ := None |}.
Existing Instances toy_crypto scope_serde no_net no_webauthn.

Definition plain : config :=
  {| behind_proxy := false; trust_docker_loopback := false; tls_active := false; webauthn_available := false |}.
Definition loopback_peer : IpAddr := V4 2130706433.
Definition remote_peer : IpAddr := V4 3405803785.

Definition ask (t : Z) (from : IpAddr) (h : headers) (rnd : str) : HttpRequest :=
  {| req_headers := h; peer := from; at_ := {| now := t; random1 := rnd; random2 := lit "salt" |};
     instant := secs t; faults _ := []; fresh_code := "NEWCODE1" |}.

Definition fresh : AuthState := start false "SETUP123" 0 fresh_tables.
Definition long_password : str := "correct horse".
Definition cookie (t : str) : headers := [(lit "cookie", Some (SESSION_COOKIE ++ lit "=" ++ t))].
Definition bearer (k : str) : headers := [(lit "authorization", Some (lit "Bearer " ++ k))].

(** Setup with the code, then a key that may only read. *)
Definition with_read_key : AuthState :=
  serve_all plain fresh
    [(ask 1 remote_peer [] "tok1", SetupOp (Some long_password) (Some (lit "SETUP123")));
     (ask 2 remote_peer (cookie "tok1") "key1", CreateApiKey "ci" (Some [lit "operator.read"]))].

(** A key that may only read creates a key without scopes, and that key passes [RequireAdmin]. *)
Example read_key_makes_admin_key :
  require_admin (session_of plain (ask 3 remote_peer (bearer "mk_key1") "x") with_read_key) = Err 403 ∧
  (serve plain (ask 3 remote_peer (bearer "mk_key1") "key2") (CreateApiKey "mine" None) with_read_key).1
    = KeyCreated 2 "mk_key2" ∧
  require_admin (session_of plain (ask 4 remote_peer (bearer "mk_key2") "x")
    (serve plain (ask 3 remote_peer (bearer "mk_key1") "key2") (CreateApiKey "mine" None) with_read_key).2)
    = Ok {| method := ApiKey; scopes := [] |}.
Proof. split_and!; vm_compute; reflexivity. Qed.

(** It can also remove all credentials. *)
Example read_key_resets_all :
  (serve plain (ask 3 remote_peer (bearer "mk_key1") "x") ResetAuth with_read_key).1 = Cleared.
Proof. vm_compute. reflexivity. Qed.

(** A local user skips setup without a password.  That spends the setup code, and setup stays open: the first
    remote request sets the password, without a code, and is logged in. *)
Example skipped_setup_can_be_claimed :
  let skipped := serve_all plain fresh [(ask 1 loopback_peer [] "tok1", SetupOp None (Some (lit "SETUP123")))] in
  (serve plain (ask 2 remote_peer [] "tok2") (SetupOp (Some long_password) None) skipped).1 = SessionSet "tok2" ∧
  (serve plain (ask 2 remote_peer [] "tok2") (SetupOp (Some long_password) None) fresh).1 = Refused 403.
Proof. split; vm_compute; reflexivity. Qed.

(** After "remove all auth" and a restart no setup code is drawn, and a remote request can claim the
    instance. *)
Example reset_then_restart_has_no_code :
  let reset := serve_all plain with_read_key [(ask 3 remote_peer (cookie "tok1") "x", ResetAuth)] in
  setup_code reset = Some (lit "NEWCODE1") ∧
  setup_code (start false "SETUP456" 0 (store reset)) = None ∧
  (serve plain (ask 4 remote_peer [] "tok2") (SetupOp (Some long_password) None) (start false "SETUP456" 0 (store reset))).1
    = SessionSet "tok2".
Proof. split_and!; vm_compute; reflexivity. Qed.

(** Nor is one drawn when the last passkey of an account without a password is removed: setup opens
    again, and a remote request claims the instance without a code. *)
Definition one_passkey : WebAuthn :=
  {| known_host _ := true; finish_authentication _ := true; finish_registration cr := Some (cr, cr) |}.
Example last_passkey_removed_can_be_claimed :
  let on := {| behind_proxy := false; trust_docker_loopback := false; tls_active := true; webauthn_available := true |} in
  let alone := serve_all (H2 := one_passkey) on fresh
    [(ask 1 remote_peer [] "tok1", SetupPasskey "cred" "key" (Some (lit "SETUP123")));
     (ask 2 remote_peer (cookie "tok1") "x", RemovePasskey 1)] in
  (serve (H2 := one_passkey) on (ask 3 remote_peer [] "tok2") (SetupOp (Some long_password) None) alone).1
    = SessionSet "tok2".
Proof. vm_compute. reflexivity. Qed.

(** With authentication off a remote request is still asked to set up. *)
Example disabled_is_not_open :
  let reset := serve_all plain with_read_key [(ask 3 remote_peer (cookie "tok1") "x", ResetAuth)] in
  auth_gate plain (Some (store reset)) true {| now := 5; random1 := []; random2 := [] |} false false "/api/config" [] remote_peer
    = RejectCode "AUTH_SETUP_REQUIRED".
Proof. vm_compute. reflexivity. Qed.

Lemma gate_protects_witness :
  auth_gate plain (Some (store with_read_key)) true {| now := 5; random1 := []; random2 := [] |} false false
    "/api/config" (cookie "tok1") remote_peer = Pass (Some {| method := Password; scopes := [] |}) ∧
  (shows_session {| now := 5; random1 := []; random2 := [] |} (store with_read_key) (cookie "tok1") ∨
   ∃ sc, shows_key (store with_read_key) (cookie "tok1") sc).
Proof.
  assert (Hg : auth_gate plain (Some (store with_read_key)) true {| now := 5; random1 := []; random2 := [] |} false false
    "/api/config" (cookie "tok1") remote_peer = Pass (Some {| method := Password; scopes := [] |}))
    by (vm_compute; reflexivity).
  split; [exact Hg|].
  destruct (gate_protects plain (store with_read_key) true _ false false (lit "/api/config") (cookie "tok1") remote_peer _
    ltac:(reflexivity) Hg) as [Hs|[(sc & Hk & _)|[(Hl & _)|[(Hl & _)|(_ & Hp)]]]]; [by left|right; by exists sc| | |].
  - vm_compute in Hl. discriminate Hl.
  - vm_compute in Hl. discriminate Hl.
  - exfalso. rewrite !elem_of_cons, elem_of_nil in Hp. destruct Hp as [Hp|[Hp|[]]]; vm_compute in Hp; discriminate Hp.
Defined.

Definition set_up_and_key : list (HttpRequest * AuthOp) :=
  [(ask 1 remote_peer [] "tok1", SetupOp (Some long_password) (Some (lit "SETUP123")));
   (ask 2 remote_peer (cookie "tok1") "key1", CreateApiKey "ci" (Some [lit "operator.read"]))].
Lemma sessions_are_earned_witness :
  session_valid 5 "tok1" (store with_read_key) = true ∧
  ∃ before r o after, set_up_and_key = before ++ (r, o) :: after ∧
    (proves plain r o (serve_all plain fresh before) ∨ unclaimed o (serve_all plain fresh before)) ∧
    (serve plain r o (serve_all plain fresh before)).1 = SessionSet "tok1" ∧ 5 < now (at_ r) + session_ttl.
Proof.
  assert (Hv : session_valid 5 "tok1" (store with_read_key) = true) by (vm_compute; reflexivity).
  split; [exact Hv|]. exact (sessions_are_earned plain fresh set_up_and_key 5 (lit "tok1") eq_refl Hv).
Defined.

Lemma enforced_iff_credentials_witness :
  setup_complete (store with_read_key) = has_credentials (store with_read_key).
Proof.
  refine (proj1 (enforced_iff_credentials plain fresh_tables false (lit "SETUP123") 0
    [(ask 1 remote_peer [] "tok1", SetupOp (Some long_password) (Some (lit "SETUP123")));
     (ask 2 remote_peer (cookie "tok1") "key1", CreateApiKey "ci" (Some [lit "operator.read"]))] _)).
  by repeat constructor.
Defined.

Lemma session_cap_witness :
  (length (sessions (run (create_session {| now := 9; random1 := lit "tok9"; random2 := [] |}) [] (store with_read_key)).2) <= 10)%nat.
Proof.
  exact (proj1 (session_cap {| now := 9; random1 := lit "tok9"; random2 := [] |} [] (store with_read_key) (Ok (lit "tok9")) _
    ltac:(vm_compute; reflexivity))).
Defined.
End witnesses.
