(* ===== verification/ChannelWebhook.v ===== *)
(** Webhooks of chat channels: verification, freshness, rate limit, deduplication.

    Models [crates/channels/src/channel_webhook_middleware.rs], the pipeline in
    [crates/gateway/src/channel_webhook_middleware.rs] with its stores
    [channel_webhook_dedup.rs] and [channel_webhook_rate_limit.rs], and the verifiers of
    [crates/slack] and [crates/msteams].

    The monotonic clock counts nanoseconds and the wall clock seconds; both are arguments.
    HMAC, JSON and form decoding are parameters. *)
From Stdlib Require Import SpecFloat.
From S2P Require Import Prelude Float64 Json Utf8 ToolArgs Http.
Local Open Scope Z_scope.

(** * Shared types *)

Record VerifiedChannelWebhook := {
  idempotency_key : option str;
  verified_body : bytes;
  timestamp_epoch : option Z;
}.

Inductive ChannelWebhookDedupeResult := New | Duplicate.

(** [retry_after] is the double of seconds that [Duration::from_secs_f64] rounds. *)
Inductive ChannelWebhookRejection :=
| BadSignature (msg : str)
| StaleTimestamp (age_seconds max_seconds : Z)
| MissingHeaders (header : str)
| RejectDuplicate
| RateLimited (retry_after : f64).

Definition reason_label (r : ChannelWebhookRejection) : str :=
  match r with
  | BadSignature _ => "bad_signature"
  | StaleTimestamp _ _ => "stale_timestamp"
  | MissingHeaders _ => "missing_headers"
  | RejectDuplicate => "duplicate"
  | RateLimited _ => "rate_limited"
  end.

(** [TimestampGuard::check]; [max_age] in seconds. *)
Definition check_timestamp (epoch : Z) (timestamp : option Z) (max_age : Z)
    : result unit ChannelWebhookRejection :=
  match timestamp with
  | None => Ok tt
  | Some ts =>
      let age := Z.abs (i64_sub epoch ts) in
      if max_age <? age then Err (StaleTimestamp age max_age) else Ok tt
  end.

Record ChannelWebhookRatePolicy := { max_requests_per_minute : Z; burst : Z }.
Definition default_policy : ChannelWebhookRatePolicy := {| max_requests_per_minute := 60; burst := 10 |}.

(** [dyn ChannelWebhookVerifier]. *)
Record Verifier := {
  verify : headers → bytes → result VerifiedChannelWebhook ChannelWebhookRejection;
  max_timestamp_age : Z;
  rate_policy : ChannelWebhookRatePolicy;
  channel_type : str;
}.

(** * Deduplication *)

Definition MAX_ENTRIES_PER_SCOPE : nat := 2500.
Definition DEDUPE_TTL : Z := millis 300000.

(** [DedupeScope]: channel, account, endpoint. *)
Notation scope := (str * str * str)%type (only parsing).
Definition unscoped : scope := ([], [], []).

Record DedupeStore := {
  partitions : gmap (str * str * str) (gmap str Z);   (** a [DedupeEntry] is its [inserted_at] *)
  ttl : Z;
  max_entries_per_scope : nat;
}.

Definition new_store : DedupeStore :=
  {| partitions := ∅; ttl := DEDUPE_TTL; max_entries_per_scope := MAX_ENTRIES_PER_SCOPE |}.
Definition with_partitions (s : DedupeStore) p : DedupeStore :=
  {| partitions := p; ttl := ttl s; max_entries_per_scope := max_entries_per_scope s |}.

Definition live (s : DedupeStore) (now : Z) (entries : gmap str Z) : gmap str Z :=
  filter (λ kv, now - ttl s < kv.2) entries.

Definition evict_expired (s : DedupeStore) (now : Z) : DedupeStore :=
  with_partitions s (filter (λ kv, kv.2 ≠ ∅) (live s now <$> partitions s)).

(** [min_by_key] over the entries, by their time. *)
Fixpoint oldest (l : list (str * Z)) : option (str * Z) :=
  match l with
  | [] => None
  | x :: l' => match oldest l' with
               | Some y => if x.2 <=? y.2 then Some x else Some y
               | None => Some x
               end
  end.

Definition insert_new (s : DedupeStore) (now : Z) (sc : scope) (key : str) : DedupeStore :=
  let entries := unwrap_or ∅ (partitions s !! sc) in
  let entries :=
    if (max_entries_per_scope s <=? size entries)%nat then
      match oldest (map_to_list entries) with
      | Some (oldest_key, _) => delete oldest_key entries
      | None => entries
      end
    else entries in
  with_partitions s (<[sc := <[key := now]> entries]> (partitions s)).

Definition known (s : DedupeStore) (sc : scope) (key : str) : bool :=
  match partitions s !! sc with Some entries => isSome (entries !! key) | None => false end.

Definition check_and_insert_scoped (s : DedupeStore) (now : Z) (sc : scope) (key : str) : bool * DedupeStore :=
  let s := evict_expired s now in
  if known s sc key then (true, s) else (false, insert_new s now sc key).

Definition check_and_insert (s : DedupeStore) (now : Z) (key : str) : bool * DedupeStore :=
  check_and_insert_scoped s now unscoped key.

Inductive ChannelWebhookAdmission := AdmDuplicate | AdmAccepted | AdmRejected.

(** [admit_] (the argument [admit]) is called on the caller's state [w], and only for a key that is new. *)
Definition admit_scoped {W} (s : DedupeStore) (now : Z) (sc : scope) (key : str) (admit_ : W → bool * W) (w : W)
    : ChannelWebhookAdmission * DedupeStore * W :=
  let s := evict_expired s now in
  if known s sc key then (AdmDuplicate, s, w)
  else
    let '(ok, w) := admit_ w in
    if ok then (AdmAccepted, insert_new s now sc key, w) else (AdmRejected, s, w).

(** * Rate limit *)

(** The lengths are those of the UTF-8 bytes. *)
Definition bucket_key (channel account_id endpoint : str) : str :=
  show_nat (utf8_len channel) ++ lit ":" ++ channel ++
  show_nat (utf8_len account_id) ++ lit ":" ++ account_id ++
  show_nat (utf8_len endpoint) ++ lit ":" ++ endpoint.

Record Bucket := { tokens : f64; last_refill : Z }.
Record RateLimiter := { buckets : gmap str Bucket; max_buckets : nat }.
Definition new_limiter : RateLimiter := {| buckets := ∅; max_buckets := 10000 |}.
Definition with_buckets (l : RateLimiter) b : RateLimiter := {| buckets := b; max_buckets := max_buckets l |}.

Definition as_secs_f64 (d : Z) : f64 :=
  f_add (f_of_Z (d / 1000000000) 0) (f_div (f_of_Z (d mod 1000000000) 0) (f_of_Z 1000000000 0)).
(** [f64::min] of numbers. *)
Definition f_min (x y : f64) : f64 := if SFltb y x then y else x.

Definition evict_stale (l : RateLimiter) (now max_idle : Z) : RateLimiter :=
  with_buckets l (filter (λ kv, now - max_idle < last_refill kv.2) (buckets l)).

Definition evict_if_full (l : RateLimiter) : RateLimiter :=
  if (size (buckets l) <=? max_buckets l)%nat then l
  else
    let entries := sort_by_key (λ kv, last_refill kv.2) (map_to_list (buckets l)) in
    let remove_count := Nat.div (length entries) 2 in
    with_buckets l (foldr (λ kv m, delete kv.1 m) (buckets l) (take remove_count entries)).

(** [created] is the clock when a new bucket is made, [now] when it is refilled. *)
Definition check_rate (l : RateLimiter) (created now : Z) (channel account_id endpoint : str)
    (policy : ChannelWebhookRatePolicy) : result unit ChannelWebhookRejection * RateLimiter :=
  let key := bucket_key channel account_id endpoint in
  let rate_per_sec := f_div (f_of_Z (max_requests_per_minute policy) 0) (f_of_Z 60 0) in
  let capacity := f_of_Z (wrap u32_bound (max_requests_per_minute policy + burst policy)) 0 in
  let bucket := unwrap_or {| tokens := capacity; last_refill := created |} (buckets l !! key) in
  let elapsed := as_secs_f64 (sat_sub now (last_refill bucket)) in
  let filled := f_min (f_add (tokens bucket) (f_mul elapsed rate_per_sec)) capacity in
  let one := f_of_Z 1 0 in
  let '(res, left_) :=
    if SFleb one filled then (Ok tt, f_sub filled one)
    else (Err (RateLimited (f_div (f_sub one filled) rate_per_sec)), filled) in
  (res, evict_if_full (with_buckets l (<[key := {| tokens := left_; last_refill := now |}]> (buckets l)))).

(** * The pipeline *)

(** What one request brings, and the clocks while it is handled. *)
Record Call := {
  account_id : str;
  endpoint : str;
  request_headers : headers;
  request_body : bytes;
  instant : Z;
  epoch : Z;
}.

Definition verify_channel_webhook (v : Verifier) (l : RateLimiter) (c : Call)
    : result VerifiedChannelWebhook ChannelWebhookRejection * RateLimiter :=
  match verify v (request_headers c) (request_body c) with
  | Err rejection => (Err rejection, l)
  | Ok envelope =>
      match check_timestamp (epoch c) (timestamp_epoch envelope) (max_timestamp_age v) with
      | Err rejection => (Err rejection, l)
      | Ok _ =>
          match check_rate l (instant c) (instant c) (channel_type v) (account_id c) (endpoint c) (rate_policy v) with
          | (Err rejection, l) => (Err rejection, l)
          | (Ok _, l) => (Ok envelope, l)
          end
      end
  end.

Definition scope_of (v : Verifier) (c : Call) : scope := (channel_type v, account_id c, endpoint c).

Definition channel_webhook_gate (v : Verifier) (st : DedupeStore * RateLimiter) (c : Call)
    : result (VerifiedChannelWebhook * ChannelWebhookDedupeResult) ChannelWebhookRejection *
      (DedupeStore * RateLimiter) :=
  let '(dedup_store, rate_limiter) := st in
  match verify_channel_webhook v rate_limiter c with
  | (Err rejection, l) => (Err rejection, (dedup_store, l))
  | (Ok envelope, l) =>
      match idempotency_key envelope with
      | Some key =>
          let '(dup, s) := check_and_insert_scoped dedup_store (instant c) (scope_of v c) key in
          (Ok (envelope, if dup then Duplicate else New), (s, l))
      | None => (Ok (envelope, New), (dedup_store, l))
      end
  end.

(** * Verifiers *)

Module Slack.
(** [form_urlencoded::parse]. *)
Class Forms := { form_parse : bytes → list (str * str) }.

Section slack.
Context `{Hmac, SerdeJson, Forms}.

(** [u8::from_str_radix] of two chars, which allows a plus sign. *)
Definition hex_pair (a b : char) : option N :=
  if (a =? ch "+")%N then hex_digit b
  else x ← hex_digit a; y ← hex_digit b; Some (x * 16 + y)%N.

(** The local [hex_decode]; header values are ASCII. *)
Fixpoint hex_decode (s : str) : option bytes :=
  match s with
  | [] => Some []
  | a :: b :: s' => x ← hex_pair a b; r ← hex_decode s'; Some (x :: r)
  | [_] => None
  end.

Definition signed_content (timestamp : str) (body : bytes) : bytes :=
  as_bytes (lit "v0:") ++ as_bytes timestamp ++ as_bytes (lit ":") ++ body.

Definition verify_signature (signing_secret timestamp : str) (body : bytes) (signature : str) : bool :=
  match strip_prefix "v0=" signature with
  | None => false
  | Some sig_hex =>
      match hex_decode sig_hex with
      | None => false
      | Some sig_bytes => ct_eq (hmac_sha256 (as_bytes signing_secret) (signed_content timestamp body)) sig_bytes
      end
  end.

Definition form_value (body : bytes) (name : str) : option str := assoc name (form_parse body).

Definition is_trigger_id (value : str) : bool :=
  is_nonempty value && negb (existsb (λ c, (c =? ch "%")%N || (c =? 65533)%N) value).

Definition trigger_filter (o : option str) : option str :=
  v ← o; if is_trigger_id v then Some v else None.

Definition event_id (body : bytes) : option str :=
  match from_slice body with Ok v => get "event_id" v ≫= as_str | Err _ => None end.

Definition slack_idempotency_key (body : bytes) : option str :=
  match event_id body with
  | Some event_id => Some event_id
  | None =>
      match trigger_filter (form_value body "trigger_id") with
      | Some trigger_id => Some trigger_id
      | None =>
          trigger_filter (payload ← form_value body "payload";
                          match from_str payload with Ok v => get "trigger_id" v ≫= as_str | Err _ => None end)
      end
  end.

Definition slack_verify (signing_secret : str) (h : headers) (body : bytes)
    : result VerifiedChannelWebhook ChannelWebhookRejection :=
  (let? timestamp := ok_or (MissingHeaders "x-slack-request-timestamp") (header_str "x-slack-request-timestamp" h) in
   let? signature := ok_or (MissingHeaders "x-slack-signature") (header_str "x-slack-signature" h) in
   let? ts := ok_or (BadSignature "invalid Slack request timestamp") (parse_i64 timestamp) in
   if negb (verify_signature signing_secret timestamp body signature)
   then Err (BadSignature "invalid Slack webhook signature")
   else Ok {| idempotency_key := slack_idempotency_key body; verified_body := body;
              timestamp_epoch := Some ts |})%result.

Definition slack_verifier (signing_secret : str) : Verifier :=
  {| verify := slack_verify signing_secret; max_timestamp_age := 300;
     rate_policy := {| max_requests_per_minute := 600; burst := 200 |}; channel_type := "slack" |}.
End slack.
End Slack.

Module Teams.
Section teams.
Context `{SerdeJson}.

Definition teams_idempotency_key (body : bytes) : option str :=
  match from_slice body with Ok v => get "id" v ≫= as_str | Err _ => None end.

Definition teams_verify (webhook_secret : option str) (require_secret : bool) (h : headers) (body : bytes)
    : result VerifiedChannelWebhook ChannelWebhookRejection :=
  let configured := expected ← webhook_secret; if is_nonempty expected then Some expected else None in
  let accept := Ok {| idempotency_key := teams_idempotency_key body; verified_body := body;
                      timestamp_epoch := None |} in
  match configured with
  | Some expected =>
      let provided := header_str "x-moltis-webhook-secret" h in
      if negb (is_some_and (λ p, ct_eq (as_bytes p) (as_bytes expected)) provided)
      then Err (BadSignature "invalid Teams webhook secret")
      else accept
  | None =>
      if require_secret then Err (BadSignature "Teams webhook_secret is required but not configured")
      else accept
  end.

Definition teams_verifier (webhook_secret : option str) (require_secret : bool) : Verifier :=
  {| verify := teams_verify webhook_secret require_secret; max_timestamp_age := 300;
     rate_policy := default_policy; channel_type := "msteams" |}.
End teams.
End Teams.

(** * Facts *)

(** ** The keys of the buckets *)

Lemma frame_inj (a a' u u' : str) :
  show_nat (utf8_len a) ++ lit ":" ++ a ++ u = show_nat (utf8_len a') ++ lit ":" ++ a' ++ u' →
  a = a' ∧ u = u'.
Proof.
  intros E. apply (digits_cut _ _ (ch ":")) in E as [Hl E]; try apply show_nat_digits; [|done].
  apply utf8_len_cut; [by apply show_nat_inj|done].
Qed.

(** Rate limits are kept apart: two requests share a bucket only if channel, account and endpoint
    are the same, whatever chars the names contain. *)
Theorem bucket_key_injective c a e c' a' e' :
  bucket_key c a e = bucket_key c' a' e' → c = c' ∧ a = a' ∧ e = e'.
Proof.
  unfold bucket_key. intros E.
  apply frame_inj in E as [-> E]. apply frame_inj in E as [-> E].
  rewrite <- (app_nil_r e), <- (app_nil_r e') in E. rewrite !(app_nil_r e), !(app_nil_r e') in E at 1.
  assert (E' : show_nat (utf8_len e) ++ lit ":" ++ e ++ [] = show_nat (utf8_len e') ++ lit ":" ++ e' ++ [])
    by (by rewrite !app_nil_r in *).
  by apply frame_inj in E' as [-> _].
Qed.

(** ** Deduplication *)

Lemma oldest_Some l x : oldest l = Some x → x ∈ l ∧ ∀ y, y ∈ l → x.2 ≤ y.2.
Proof.
  revert x. induction l as [|z l IH]; intros x; simpl; [done|].
  destruct (oldest l) as [y|] eqn:E.
  - destruct (IH y eq_refl) as [Hy Hle]. destruct (Z.leb_spec z.2 y.2); intros [= <-].
    + split; [by left|]. intros w [->|Hw]%elem_of_cons; [done|]. specialize (Hle w Hw). lia.
    + split; [by right|]. intros w [->|Hw]%elem_of_cons; [lia|]. auto.
  - intros [= <-]. destruct l as [|w l]; [|simpl in E; destruct (oldest l); [destruct (_ <=? _)|]; done].
    split; [by left|]. by intros y ->%list_elem_of_singleton.
Qed.

(** No entry is younger than [t]. *)
Definition not_after (s : DedupeStore) (t : Z) : Prop :=
  ∀ sc e k x, partitions s !! sc = Some e → e !! k = Some x → x ≤ t.

Definition younger (t1 : Z) (e : gmap str Z) : gmap str Z := filter (λ kv, t1 < kv.2) e.

(** The entry of [key] in [sc] dates from [t1], is the only one that does, and at most [n] are younger. *)
Definition tracked (s : DedupeStore) (sc : scope) (key : str) (t1 : Z) (n : nat) : Prop :=
  ∃ e, partitions s !! sc = Some e ∧ e !! key = Some t1 ∧ (∀ k, e !! k = Some t1 → k = key) ∧
    (size (younger t1 e) ≤ n)%nat.

Lemma evict_lookup s now sc e :
  partitions (evict_expired s now) !! sc = Some e ↔
  ∃ e0, partitions s !! sc = Some e0 ∧ e = live s now e0 ∧ e ≠ ∅.
Proof.
  simpl. rewrite map_lookup_filter_Some, lookup_fmap_Some. simpl. naive_solver.
Qed.

Lemma live_lookup s now e k x : live s now e !! k = Some x ↔ e !! k = Some x ∧ now - ttl s < x.
Proof. unfold live. rewrite map_lookup_filter_Some. done. Qed.

Lemma evict_rest s now : ttl (evict_expired s now) = ttl s ∧ max_entries_per_scope (evict_expired s now) = max_entries_per_scope s.
Proof. done. Qed.

Lemma evict_not_after s now t : not_after s t → not_after (evict_expired s now) t.
Proof.
  intros Hn sc e k x (e0 & He0 & -> & _)%evict_lookup [Hk _]%live_lookup. by eapply Hn.
Qed.

Lemma insert_not_after s now sc key t : not_after s t → t ≤ now → not_after (insert_new s now sc key) now.
Proof.
  intros Hn Ht sc' e k x He Hk. unfold insert_new in He. simpl in He.
  apply lookup_insert_Some in He as [[<- <-]|[_ He]]; [|specialize (Hn _ _ _ _ He Hk); lia].
  apply lookup_insert_Some in Hk as [[_ <-]|[_ Hk]]; [done|].
  assert (Hk' : unwrap_or ∅ (partitions s !! sc) !! k = Some x).
  { destruct (_ <=? _)%nat; [|done]. destruct (oldest _) as [[ok ot]|]; [|done].
    by apply lookup_delete_Some in Hk as [_ Hk]. }
  destruct (partitions s !! sc) as [e|] eqn:Es; [|done]. specialize (Hn _ _ _ _ Es Hk'). lia.
Qed.

Lemma evict_tracked s now sc key t1 n :
  tracked s sc key t1 n → now - t1 < ttl s → tracked (evict_expired s now) sc key t1 n.
Proof.
  intros (e & He & Hk & Hu & Hn) Ht.
  assert (Hl : live s now e !! key = Some t1) by (apply live_lookup; split; [done|lia]).
  exists (live s now e). split_and!.
  - apply evict_lookup. exists e. split_and!; [done|done|]. intros E. by rewrite E in Hl.
  - done.
  - intros k [Hx _]%live_lookup. auto.
  - etrans; [|exact Hn]. apply map_subseteq_size.
    unfold younger, live. rewrite map_filter_comm. apply map_filter_subseteq.
Qed.

Lemma younger_insert (t1 : Z) (k : str) (x : Z) (e : gmap str Z) :
  (size (younger t1 (<[k := x]> e)) ≤ S (size (younger t1 e)))%nat.
Proof.
  transitivity (size (<[k := x]> (younger t1 e))).
  - apply map_subseteq_size, map_subseteq_spec. intros k' x' [Hl Hf]%map_lookup_filter_Some.
    apply lookup_insert_Some in Hl as [[<- <-]|[Hne Hl]]; [by rewrite lookup_insert_eq|].
    rewrite lookup_insert_ne by done. by apply map_lookup_filter_Some.
  - rewrite map_size_insert. destruct (_ !! _); simpl; lia.
Qed.

Lemma younger_mono (t1 : Z) (e e' : gmap str Z) : e ⊆ e' → (size (younger t1 e) ≤ size (younger t1 e'))%nat.
Proof.
  intros Hs. apply map_subseteq_size, map_subseteq_spec. intros k x [Hl Hf]%map_lookup_filter_Some.
  apply map_lookup_filter_Some. split; [by eapply lookup_weaken|done].
Qed.

Lemma insert_tracked s now sc key t1 n sc' key' :
  tracked s sc key t1 n → t1 < now → known s sc' key' = false →
  (sc' = sc ∧ (tracked (insert_new s now sc' key') sc key t1 (S n) ∨ (max_entries_per_scope s ≤ S n)%nat)) ∨
  (sc' ≠ sc ∧ tracked (insert_new s now sc' key') sc key t1 n).
Proof.
  intros (e & He & Hk & Hu & Hn) Ht Hnew.
  destruct (decide (sc' = sc)) as [->|Hsc]; [left; split; [done|]|right; split; [done|]].
  2: { exists e. split_and!; try done. simpl. by rewrite lookup_insert_ne. }
  assert (Hkey : key' ≠ key).
  { intros ->. unfold known in Hnew. by rewrite He, Hk in Hnew. }
  unfold insert_new. rewrite He. simpl.
  set (e1 := if (_ <=? _)%nat then _ else _).
  assert (He1 : e1 ⊆ e ∧ (e1 !! key = Some t1 ∨ (max_entries_per_scope s ≤ S n)%nat)).
  { subst e1. destruct (Nat.leb_spec (max_entries_per_scope s) (size e)) as [Hsz|]; [|by auto].
    destruct (oldest _) as [[ok ot]|] eqn:Eo; [|by auto].
    split; [apply delete_subseteq|]. destruct (decide (ok = key)) as [->|]; [right|left; by rewrite lookup_delete_ne].
    apply oldest_Some in Eo as [Hin Hmin]. apply elem_of_map_to_list in Hin. simplify_eq.
    transitivity (size e); [done|]. transitivity (S (size (delete key e))).
    { rewrite map_size_delete, Hk. simpl. lia. }
    apply le_n_S. etrans; [|exact Hn]. apply map_subseteq_size, map_subseteq_spec.
    intros k x [Hne Hl]%lookup_delete_Some. apply map_lookup_filter_Some. split; [done|]. simpl.
    assert (t1 ≤ x) by (apply (Hmin (k, x)); by apply elem_of_map_to_list).
    destruct (decide (x = t1)) as [->|]; [|lia]. by destruct Hne; rewrite (Hu k). }
  destruct He1 as [Hsub [Hk1|?]]; [left|by right].
  exists (<[key' := now]> e1). simpl. split_and!.
  - by rewrite lookup_insert_eq.
  - by rewrite lookup_insert_ne.
  - intros k [[<- <-]|[_ Hx]]%lookup_insert_Some; [lia|]. apply Hu. by eapply lookup_weaken.
  - etrans; [apply younger_insert|]. apply le_n_S. etrans; [by apply younger_mono|done].
Qed.

(** What a check does to a tracked entry: find it, leave it, or count one more admission. *)
Lemma check_tracked s now sc key t1 n sc' key' b s' :
  tracked s sc key t1 n → t1 < now → now - t1 < ttl s →
  check_and_insert_scoped s now sc' key' = (b, s') →
  ((sc', key') = (sc, key) → b = true) ∧
  (tracked s' sc key t1 (if decide (sc' = sc) then if b then n else S n else n) ∨
   (sc' = sc ∧ b = false ∧ (max_entries_per_scope s ≤ S n)%nat)).
Proof.
  intros Ht Hlt Httl Hc. unfold check_and_insert_scoped in Hc.
  pose proof (evict_tracked s now sc key t1 n Ht Httl) as He.
  destruct (known (evict_expired s now) sc' key') eqn:Ek; simplify_eq.
  - split; [done|]. left. by case_decide.
  - split.
    + intros [= -> ->]. destruct He as (e & He & Hk & _). unfold known in Ek. by rewrite He, Hk in Ek.
    + destruct (insert_tracked _ now _ _ _ _ _ _ He Hlt Ek) as [(-> & [?|?])|[? ?]].
      * left. by rewrite decide_True.
      * by right.
      * left. by rewrite decide_False.
Qed.

Lemma check_not_after s now sc key b s' t :
  check_and_insert_scoped s now sc key = (b, s') → not_after s t → t ≤ now → not_after s' now.
Proof.
  unfold check_and_insert_scoped. intros Hc Hn Ht. apply (evict_not_after _ now) in Hn.
  destruct (known _ _ _); simplify_eq; [|by eapply insert_not_after].
  intros sc' e k x He Hk. specialize (Hn _ _ _ _ He Hk). lia.
Qed.

Lemma check_new s now sc key s' t :
  check_and_insert_scoped s now sc key = (false, s') → not_after s t → t < now → tracked s' sc key now 0.
Proof.
  unfold check_and_insert_scoped. destruct (known _ _ _) eqn:Ek; [done|]. intros [= <-] Hn Ht.
  apply (evict_not_after _ now) in Hn. set (s1 := evict_expired s now) in *.
  unfold insert_new. set (e1 := if (_ <=? _)%nat then _ else _).
  assert (He1 : ∀ k x, e1 !! k = Some x → x < now).
  { intros k x Hx. assert (Hx' : unwrap_or ∅ (partitions s1 !! sc) !! k = Some x).
    { subst e1. destruct (_ <=? _)%nat; [|done]. destruct (oldest _) as [[? ?]|]; [|done].
      by apply lookup_delete_Some in Hx as [_ Hx]. }
    destruct (partitions s1 !! sc) as [e|] eqn:Ee; [|done]. specialize (Hn _ _ _ _ Ee Hx'). lia. }
  exists (<[key := now]> e1). simpl. rewrite !lookup_insert_eq. split_and!; [done..| |].
  - intros k [[<- _]|[_ Hx]]%lookup_insert_Some; [done|]. apply He1 in Hx. lia.
  - unfold younger. rewrite (proj2 (map_empty_filter _ _)); [by rewrite map_size_empty|].
    intros k x [[_ <-]|[_ Hx]]%lookup_insert_Some; simpl; [lia|]. apply He1 in Hx. lia.
Qed.

(** ** The gate *)

Notation outcome := (result (VerifiedChannelWebhook * ChannelWebhookDedupeResult) ChannelWebhookRejection).

(** Calls one after the other; the stores are locked for each step. *)
Fixpoint gate_run (st : DedupeStore * RateLimiter) (cs : list (Verifier * Call))
    : list outcome * (DedupeStore * RateLimiter) :=
  match cs with
  | [] => ([], st)
  | (v, c) :: cs =>
      let '(r, st) := channel_webhook_gate v st c in
      let '(rs, st) := gate_run st cs in (r :: rs, st)
  end.

(** Each call is later than the one before it. *)
Fixpoint later (t : Z) (cs : list (Verifier * Call)) : Prop :=
  match cs with
  | [] => True
  | (_, c) :: cs => t < instant c ∧ later (instant c) cs
  end.

Lemma later_lookup t cs i v c : later t cs → cs !! i = Some (v, c) → t < instant c.
Proof.
  revert t i. induction cs as [|[v1 c1] cs IH]; intros t [|i] Hl Hc; simplify_eq/=; [by destruct Hl|].
  destruct Hl as [Hlt Hl]. specialize (IH _ _ Hl Hc). lia.
Qed.

(** The request was let through as new, under [key]. *)
Definition admitted_key (r : outcome) : option str :=
  match r with
  | Ok (envelope, New) => idempotency_key envelope
  | _ => None
  end.

(** How many keys were admitted in [sc]. *)
Definition admissions (sc : scope) (cs : list (Verifier * Call)) (rs : list outcome) : nat :=
  length (List.filter (λ '((v, c), r), bool_decide (scope_of v c = sc) && isSome (admitted_key r)) (zip cs rs)).

(** The gate touches the deduplication store by one check, or not at all. *)
Lemma gate_dedup v s l c r s' l' :
  channel_webhook_gate v (s, l) c = (r, (s', l')) →
  (s' = s ∧ admitted_key r = None) ∨
  ∃ key b, check_and_insert_scoped s (instant c) (scope_of v c) key = (b, s') ∧
    admitted_key r = if b then None else Some key.
Proof.
  unfold channel_webhook_gate. destruct (verify_channel_webhook v l c) as [[env|rej] l1].
  - destruct (idempotency_key env) as [key|] eqn:Ek.
    + destruct (check_and_insert_scoped s (instant c) (scope_of v c) key) as [b s1] eqn:Ec.
      intros [= <- <- <-]. right. exists key, b. split; [done|]. destruct b; simpl; [done|by rewrite Ek].
    + intros [= <- <- <-]. left. simpl. by rewrite Ek.
  - intros [= <- <- <-]. by left.
Qed.

Lemma check_config s now sc key b s' :
  check_and_insert_scoped s now sc key = (b, s') →
  ttl s' = ttl s ∧ max_entries_per_scope s' = max_entries_per_scope s.
Proof. unfold check_and_insert_scoped. destruct (known _ _ _); by intros [= <- <-]. Qed.

(** While an entry is tracked its key is not admitted again. *)
Lemma tracked_run sc key t1 cs : ∀ t n s l rs st,
  tracked s sc key t1 n → t1 ≤ t → later t cs → gate_run (s, l) cs = (rs, st) →
  ∀ i v c r, cs !! i = Some (v, c) → rs !! i = Some r → scope_of v c = sc → admitted_key r = Some key →
  instant c - t1 < ttl s →
  (max_entries_per_scope s ≤ n + admissions sc (take i cs) (take i rs))%nat.
Proof.
  induction cs as [|[v0 c0] cs IH]; intros t n s l rs st Ht Ht1 Hlater Hrun i v c r Hc Hr Hsc Hkey Httl; [done|].
  cbn [gate_run] in Hrun. destruct (channel_webhook_gate v0 (s, l) c0) as [r0 [s1 l1]] eqn:Eg.
  destruct (gate_run (s1, l1) cs) as [rs1 st1] eqn:Er. injection Hrun as <- <-.
  destruct Hlater as [Hlt Hlater].
  assert (Hle : instant c0 ≤ instant c).
  { destruct i as [|i]; [by simplify_eq/=|]. pose proof (later_lookup _ _ _ _ _ Hlater Hc). lia. }
  destruct (gate_dedup _ _ _ _ _ _ _ Eg) as [[-> Hnone]|(key0 & b & Hck & Hadm)].
  - destruct i as [|i]; simplify_eq/=.
    unfold admissions. simpl. rewrite Hnone, andb_false_r. eapply (IH (instant c0)); eauto. lia.
  - destruct (check_tracked _ _ _ _ _ _ _ _ _ _ Ht (Z.le_lt_trans _ _ _ Ht1 Hlt) ltac:(lia) Hck) as [Hdup Htr].
    destruct (check_config _ _ _ _ _ _ Hck) as [Httl' Hmax'].
    destruct i as [|i]; simplify_eq/=.
    + destruct b; [congruence|]. rewrite Hkey in Hadm. simplify_eq/=. by specialize (Hdup eq_refl).
    + unfold admissions. simpl. rewrite Hadm.
      destruct Htr as [Htr|(Hsc0 & -> & Hfull)].
      * assert (Hgoal := IH (instant c0) _ _ _ _ _ Htr ltac:(lia) Hlater Er _ _ _ _ Hc Hr eq_refl Hkey ltac:(lia)).
        unfold admissions in Hgoal. rewrite Hmax' in Hgoal.
        case_decide as Hd; [rewrite bool_decide_true by done|rewrite bool_decide_false by done]; destruct b; simpl; lia.
      * rewrite bool_decide_true by done. simpl. lia.
Qed.

(** Replays within the window are caught: if a key is let through twice in one scope, the two
    requests are at least the lifetime of an entry apart, or the scope has admitted as many other keys in
    between as it can hold.  Requests of other channels, accounts or endpoints, rejected requests and
    duplicates do not matter. *)
Theorem no_replay t0 s l v1 c1 cs rs st i v2 c2 r2 key :
  not_after s t0 → later t0 ((v1, c1) :: cs) → gate_run (s, l) ((v1, c1) :: cs) = (rs, st) →
  rs !! 0%nat ≫= admitted_key = Some key →
  cs !! i = Some (v2, c2) → rs !! S i = Some r2 → scope_of v2 c2 = scope_of v1 c1 →
  admitted_key r2 = Some key →
  ttl s ≤ instant c2 - instant c1 ∨
  (max_entries_per_scope s ≤ admissions (scope_of v1 c1) (take i cs) (take i (tail rs)))%nat.
Proof.
  intros Hn [Hlt Hlater] Hrun H1 Hc2 Hr2 Hsc Hkey. cbn [gate_run] in Hrun.
  destruct (channel_webhook_gate v1 (s, l) c1) as [r1 [s1 l1]] eqn:Eg.
  destruct (gate_run (s1, l1) cs) as [rs1 st1] eqn:Er. injection Hrun as <- <-. cbn in H1, Hr2 |- *.
  destruct (gate_dedup _ _ _ _ _ _ _ Eg) as [[_ Hnone]|(key0 & b & Hck & Hadm)]; [congruence|].
  rewrite H1 in Hadm. destruct b; [done|]. assert (key0 = key) as -> by congruence.
  destruct (check_config _ _ _ _ _ _ Hck) as [Httl' Hmax'].
  pose proof (check_new _ _ _ _ _ _ Hck Hn Hlt) as Htr.
  destruct (Z.le_gt_cases (ttl s) (instant c2 - instant c1)) as [|Hlt2]; [by left|right].
  rewrite <- Hmax'. rewrite <- Httl' in Hlt2.
  exact (tracked_run _ _ _ _ _ _ _ _ _ _ Htr (Z.le_refl _) Hlater Er _ _ _ _ Hc2 Hr2 Hsc Hkey Hlt2).
Qed.

(** ** Authenticity *)

Lemma verify_signature_spec `{Hmac} secret ts body signature :
  Slack.verify_signature secret ts body signature = true →
  ∃ hex, strip_prefix "v0=" signature = Some hex ∧
    Slack.hex_decode hex = Some (hmac_sha256 (as_bytes secret) (Slack.signed_content ts body)).
Proof.
  unfold Slack.verify_signature. destruct (strip_prefix "v0=" signature) as [hex|]; [|done].
  destruct (Slack.hex_decode hex) as [sig|] eqn:E; [|done]. unfold ct_eq. intros ->%bool_decide_eq_true.
  by exists hex.
Qed.

(** What the Slack gate lets through is authentic and fresh: both headers are there, the signature
    decodes to the HMAC of [v0:timestamp:body] under the signing secret, and the signed timestamp is within
    five minutes of the wall clock, in either direction and without the subtraction wrapping around. *)
Theorem slack_gate_authentic `{Hmac, SerdeJson, Slack.Forms} secret st c env d st' :
  0 ≤ epoch c < 2 ^ 62 →
  channel_webhook_gate (Slack.slack_verifier secret) st c = (Ok (env, d), st') →
  verified_body env = request_body c ∧
  ∃ timestamp ts signature hex,
    header_str "x-slack-request-timestamp" (request_headers c) = Some timestamp ∧
    header_str "x-slack-signature" (request_headers c) = Some signature ∧
    parse_i64 timestamp = Some ts ∧ Z.abs (epoch c - ts) ≤ 300 ∧
    strip_prefix "v0=" signature = Some hex ∧
    Slack.hex_decode hex = Some (hmac_sha256 (as_bytes secret) (Slack.signed_content timestamp (request_body c))).
Proof.
  intros Hepoch Hg. destruct st as [s l]. unfold channel_webhook_gate, verify_channel_webhook in Hg. simpl in Hg.
  destruct (Slack.slack_verify secret (request_headers c) (request_body c)) as [e|] eqn:Ev; [|done].
  destruct (check_timestamp (epoch c) (timestamp_epoch e) 300) as [[]|] eqn:Et; [|done].
  assert (e = env) as ->.
  { destruct (check_rate _ _ _ _ _ _ _) as [[[]|] l1]; [|done].
    destruct (idempotency_key e); [destruct (check_and_insert_scoped _ _ _ _)|]; by simplify_eq. }
  unfold Slack.slack_verify in Ev.
  step Ev as timestamp Hts. step Ev as signature Hsig. step Ev as ts Hp.
  apply ok_or_Ok in Hts, Hsig, Hp.
  destruct (Slack.verify_signature secret timestamp (request_body c) signature) eqn:Hvs; [|done].
  apply verify_signature_spec in Hvs as (hex & Hpre & Hhex). simplify_eq/=. split; [done|].
  exists timestamp, ts, signature, hex. split_and!; try done.
  apply i64_sub_close; [done|by eapply parse_i64_range|lia|].
  destruct (Z.ltb_spec 300 (Z.abs (i64_sub (epoch c) ts))); [done|lia].
Qed.

(** * Witnesses *)

Section witnesses.
(** A keyed "hash" that is the key and the message. *)
Definition toy_hmac : Hmac := {| hmac_sha256 k m := k ++ m |}.
Definition event_serde : SerdeJson :=
  {| from_str s := if str_eqb s "E" then Ok (JObject [(lit "event_id", JString "Ev1")]) else Err []; to_string _ := None |}.
Definition no_forms : Slack.Forms := {| Slack.form_parse _ := [] |}.
Existing Instances toy_hmac event_serde no_forms.

Definition demo_verifier : Verifier := Slack.slack_verifier "k".

(** A request signed for second 1200 and received at second [t]. *)
Definition demo_call (t : Z) : Call :=
  {| account_id := "acme"; endpoint := "events";
     request_headers := [(lit "x-slack-request-timestamp", Some (lit "1200"));
                         (lit "x-slack-signature",
                          Some (lit "v0=" ++ hex_encode (lit "k" ++ lit "v0:1200:E")))];
     request_body := lit "E"; instant := t * 10 ^ 9; epoch := t |}.

Definition demo_calls : list (Verifier * Call) := [(demo_verifier, demo_call 1000); (demo_verifier, demo_call 1400)].

(** The signature of one request is good from 300 seconds before its timestamp to 300 seconds after it, and
    the key is forgotten 300 seconds after its first use: the same bytes are admitted as new again. *)
Example signed_request_replayed :
  admitted_key <$> fst (gate_run (new_store, new_limiter) demo_calls) = [Some (lit "Ev1"); Some (lit "Ev1")].
Proof. vm_compute. reflexivity. Qed.

(** The same request three seconds later is a duplicate. *)
Example prompt_replay_caught :
  admitted_key <$> fst (gate_run (new_store, new_limiter) [(demo_verifier, demo_call 1000); (demo_verifier, demo_call 1003)])
  = [Some (lit "Ev1"); None].
Proof. vm_compute. reflexivity. Qed.

Lemma bucket_key_injective_witness :
  lit "slack" = lit "slack" ∧ lit "a:b" = lit "a:b" ∧ lit "c" = lit "c".
Proof. apply (bucket_key_injective "slack" "a:b" "c" "slack" "a:b" "c"). reflexivity. Defined.

Lemma no_replay_witness :
  DEDUPE_TTL ≤ 1400 * 10 ^ 9 - 1000 * 10 ^ 9 ∨ (2500 <= 0)%nat.
Proof.
  destruct (gate_run (new_store, new_limiter) demo_calls) as [rs st] eqn:E.
  assert (Hrs : rs = fst (gate_run (new_store, new_limiter) demo_calls)) by (by rewrite E).
  assert (Hr : ∃ r2, rs !! 1%nat = Some r2 ∧ admitted_key r2 = Some (lit "Ev1")).
  { rewrite Hrs. eexists. split; [vm_compute; reflexivity|reflexivity]. }
  destruct Hr as (r2 & Hr2 & Hk).
  refine (no_replay 0 new_store new_limiter demo_verifier (demo_call 1000) [(demo_verifier, demo_call 1400)]
    rs st 0%nat demo_verifier (demo_call 1400) r2 (lit "Ev1") _ _ E _ _ Hr2 _ Hk).
  - intros sc e k x He. simpl in He. by rewrite lookup_empty in He.
  - repeat split.
  - rewrite Hrs. vm_compute. reflexivity.
  - reflexivity.
  - reflexivity.
Defined.

Lemma slack_gate_authentic_witness :
  verified_body {| idempotency_key := Some (lit "Ev1"); verified_body := lit "E"; timestamp_epoch := Some 1200 |}
    = request_body (demo_call 1000) ∧ Z.abs (1000 - 1200) ≤ 300.
Proof.
  destruct (channel_webhook_gate demo_verifier (new_store, new_limiter) (demo_call 1000)) as [r st] eqn:E.
  assert (Hr : r = Ok ({| idempotency_key := Some (lit "Ev1"); verified_body := lit "E"; timestamp_epoch := Some 1200 |}, New)).
  { replace r with (fst (channel_webhook_gate demo_verifier (new_store, new_limiter) (demo_call 1000))) by (by rewrite E).
    vm_compute. reflexivity. }
  rewrite Hr in E.
  destruct (slack_gate_authentic (lit "k") (new_store, new_limiter) (demo_call 1000) _ _ _ ltac:(vm_compute; split; congruence) E)
    as (Hb & ts & z & _ & _ & Hts & _ & Hz & Hage & _).
  split; [exact Hb|]. vm_compute in Hts. injection Hts as <-. vm_compute in Hz. injection Hz as <-. exact Hage.
Defined.
End witnesses.
