(* ===== verification/WebhookAuth.v ===== *)
(** Generic webhooks: authentication, rate limit and source profiles.

    Models [crates/webhooks/src/auth.rs], [rate_limit.rs], [profiles/] and the enumerations of
    [types.rs].  The wall clock is an argument, in seconds for signatures and in milliseconds for
    the rate limiter. *)
From S2P Require Import Prelude Float64 Json Utf8 ToolArgs Http.
Local Open Scope Z_scope.

(** SHA-256, pretty printing and [{:.2}] of a double are the crates'. *)
Class WebhookKit := {
  sha256 : bytes → bytes;
  to_string_pretty : json → option str;
  show_fixed2 : f64 → str;
}.

(** [v.get(k).and_then(as_str)], and the same for unsigned integers. *)
Definition member_str (k : str) (v : json) : option str := x ← get k v; as_str x.
Definition member_u64 (k : str) (v : json) : option Z := x ← get k v; as_u64 x.

(** * Authentication *)

Inductive AuthMode :=
| AuthNone
| StaticHeader
| Bearer
| GithubHmacSha256
| GitlabToken
| StripeWebhookSignature
| LinearWebhookSignature
| PagerdutyV2Signature
| SentryWebhookSignature.

Section auth.
Context `{Hmac}.
Local Open Scope result_scope.

(** An error is the [reason] of [Error::AuthFailed]. *)
Notation checked := (result unit str) (only parsing).

Definition get_config_str (config : option json) (key : str) : result str str :=
  ok_or (lit "missing auth config key: " ++ key) (c ← config; member_str key c).

(** Header names are compared in lower case. *)
Definition get_header_str (h : headers) (name : str) : result str str :=
  ok_or (lit "missing header: " ++ name) (header_str (to_ascii_lowercase name) h).

Definition verify_static_header (config : option json) (h : headers) : checked :=
  let? header_name := get_config_str config "header" in
  let? expected := get_config_str config "value" in
  let? actual := get_header_str h header_name in
  if ct_eq (as_bytes actual) (as_bytes expected) then Ok tt else Err (lit "static header mismatch").

Definition verify_bearer (config : option json) (h : headers) : checked :=
  let? expected := get_config_str config "token" in
  let? auth := get_header_str h "authorization" in
  let? token := ok_or (lit "invalid Bearer format") (strip_prefix "Bearer " auth) in
  if ct_eq (as_bytes token) (as_bytes expected) then Ok tt else Err (lit "bearer token mismatch").

Definition verify_github_hmac (config : option json) (h : headers) (body : bytes) : checked :=
  let? secret := get_config_str config "secret" in
  let? sig_header := get_header_str h "x-hub-signature-256" in
  let? sig_hex := ok_or (lit "invalid signature format") (strip_prefix "sha256=" sig_header) in
  let? sig_bytes := ok_or (lit "invalid signature hex") (hex_decode_strict sig_hex) in
  if ct_eq (hmac_sha256 (as_bytes secret) body) sig_bytes
  then Ok tt else Err (lit "HMAC signature mismatch").

Definition verify_gitlab_token (config : option json) (h : headers) : checked :=
  let? expected := get_config_str config "token" in
  let? actual := get_header_str h "x-gitlab-token" in
  if ct_eq (as_bytes actual) (as_bytes expected) then Ok tt else Err (lit "GitLab token mismatch").

(** The loop over [t=TIMESTAMP,v1=SIG]: the last timestamp, and every signature. *)
Definition stripe_part (st : option str * list str) (part : str) : option str * list str :=
  match split_once (ch "=") part with
  | Some (k, v) =>
      if str_eqb k "t" then (Some v, st.2)
      else if str_eqb k "v1" then (st.1, st.2 ++ [v])
      else st
  | None => st
  end.

Definition verify_stripe_signature (now : Z) (config : option json) (h : headers) (body : bytes) : checked :=
  let? secret := get_config_str config "secret" in
  let? sig_header := get_header_str h "stripe-signature" in
  let '(timestamp, signatures) := foldl stripe_part (None, []) (split (ch ",") sig_header) in
  let? ts := ok_or (lit "missing timestamp in Stripe signature") timestamp in
  if negb (is_nonempty signatures) then Err (lit "missing v1 signature")
  else
    let? ts_secs := ok_or (lit "invalid Stripe signature timestamp") (parse_i64 ts) in
    if 300 <? Z.abs (i64_sub now ts_secs) then Err (lit "Stripe signature timestamp too old")
    else
      let expected := hex_encode (hmac_sha256 (as_bytes secret) (as_bytes (ts ++ lit ".") ++ body)) in
      if existsb (λ s, ct_eq (as_bytes s) (as_bytes expected)) signatures
      then Ok tt else Err (lit "Stripe signature mismatch").

Definition verify_hmac_header (config : option json) (h : headers) (body : bytes)
    (header_name config_key prefix : str) : checked :=
  let? secret := get_config_str config config_key in
  let? sig_header := get_header_str h header_name in
  let? sig_hex :=
    if negb (is_nonempty prefix) then Ok sig_header
    else ok_or (lit "invalid " ++ header_name ++ lit " format") (strip_prefix prefix sig_header) in
  let? sig_bytes := ok_or (lit "invalid signature hex") (hex_decode_strict sig_hex) in
  if ct_eq (hmac_sha256 (as_bytes secret) body) sig_bytes
  then Ok tt else Err (header_name ++ lit " mismatch").

Definition verify_linear_signature (config : option json) (h : headers) (body : bytes) : checked :=
  verify_hmac_header config h body "linear-signature" "secret" "sha256=".
Definition verify_sentry_signature (config : option json) (h : headers) (body : bytes) : checked :=
  verify_hmac_header config h body "sentry-hook-signature" "secret" [].

Definition pagerduty_match (expected part : str) : bool :=
  match strip_prefix "v1=" (trim part) with
  | Some sig_hex => ct_eq (as_bytes sig_hex) (as_bytes expected)
  | None => false
  end.

Definition verify_pagerduty_signature (config : option json) (h : headers) (body : bytes) : checked :=
  let? secret := get_config_str config "secret" in
  let? sig_header := get_header_str h "x-pagerduty-signature" in
  let expected := hex_encode (hmac_sha256 (as_bytes secret) body) in
  if existsb (pagerduty_match expected) (split (ch ",") sig_header)
  then Ok tt else Err (lit "x-pagerduty-signature mismatch").

Definition verify (now : Z) (mode : AuthMode) (config : option json) (h : headers) (body : bytes) : checked :=
  match mode with
  | AuthNone => Ok tt
  | StaticHeader => verify_static_header config h
  | Bearer => verify_bearer config h
  | GithubHmacSha256 => verify_github_hmac config h body
  | GitlabToken => verify_gitlab_token config h
  | StripeWebhookSignature => verify_stripe_signature now config h body
  | LinearWebhookSignature => verify_linear_signature config h body
  | PagerdutyV2Signature => verify_pagerduty_signature config h body
  | SentryWebhookSignature => verify_sentry_signature config h body
  end.
End auth.

(** * Rate limit *)

Module RateLimit.
Local Open Scope nat_scope.

(** [RateLimitState]; a [VecDeque] is its list, oldest first. *)
Record RateLimitState := { per_webhook : gmap Z (list Z); global : list Z }.
Record WebhookRateLimiter := { state : RateLimitState; global_max : nat }.

Definition new (global_max : nat) : WebhookRateLimiter :=
  {| state := {| per_webhook := ∅; global := [] |}; global_max := global_max |}.
Definition default : WebhookRateLimiter := new 300.
Definition with_state (l : WebhookRateLimiter) s := {| state := s; global_max := global_max l |}.

(** The loop that pops the front while it is older than the window. *)
Definition prune (window_start : Z) (window : list Z) : list Z :=
  drop_while (λ t, (t <? window_start)%Z) window.

Definition check (now : Z) (l : WebhookRateLimiter) (webhook_id : Z) (per_webhook_max : nat)
    : bool * WebhookRateLimiter :=
  let window_start := sat_sub now 60000 in
  let st := state l in
  let g := prune window_start (global st) in
  if global_max l <=? length g then
    (false, with_state l {| per_webhook := per_webhook st; global := g |})
  else
    let window := prune window_start (unwrap_or [] (per_webhook st !! webhook_id)) in
    if per_webhook_max <=? length window then
      (false, with_state l {| per_webhook := <[webhook_id := window]> (per_webhook st); global := g |})
    else
      (true, with_state l {| per_webhook := <[webhook_id := window ++ [now]]> (per_webhook st);
                             global := g ++ [now] |}).
End RateLimit.

(** * Filters and profiles *)

Record EventFilter := { allow : list str; deny : list str }.

Definition accepts (f : EventFilter) (event_type : str) : bool :=
  if is_nonempty (allow f) && negb (existsb (λ a, str_eqb a event_type) (allow f)) then false
  else negb (existsb (λ d, str_eqb d event_type) (deny f)).

Inductive SessionMode := PerDelivery | PerEntity | NamedSession.

Definition truncate_str (s : str) (max_bytes : nat) : str :=
  if (utf8_len s <=? max_bytes)%nat then s else prefix_bytes s (floor_boundary s max_bytes).

(** [dyn SourceProfile]; of a normalized payload the summary, the rest is the payload itself. *)
Record SourceProfile := {
  id : str;
  parse_event_type : headers → bytes → option str;
  parse_delivery_key : headers → bytes → option str;
  entity_key : str → json → option str;
  normalize_payload : str → json → str;
}.

(** [format!] of a line that is there only with its value. *)
Definition line (prefix : str) (o : option str) (suffix : str) : str :=
  match o with Some v => prefix ++ v ++ suffix | None => [] end.
Definition newline : str := [ch_newline].

Section profiles.
Context `{SerdeJson, WebhookKit, Unicode}.

(** The value of the first of these headers that is there and visible ASCII. *)
Definition first_header (names : list str) (h : headers) : option str :=
  head (omap (λ n, header_str n h) names).

Definition parsed (body : bytes) : option json :=
  match from_slice body with Ok v => Some v | Err _ => None end.

Definition full_payload_note : str := newline ++ lit "Full payload available via webhook_get_full_payload tool.".

(** ** Generic *)

Definition pretty_or_empty (v : json) : str := unwrap_or [] (to_string_pretty v).

Definition generic_summary (event_type : str) (body : json) : str :=
  let pretty := pretty_or_empty body in
  let truncated :=
    if (8192 <? utf8_len pretty)%nat then
      truncate_str pretty 8192 ++ newline ++ newline ++ lit "... (truncated, " ++ show_nat (utf8_len pretty) ++
      lit " bytes total. Use webhook_get_full_payload tool for full body.)"
    else pretty in
  let event_line :=
    if is_nonempty event_type then lit "Event type: " ++ event_type ++ newline ++ newline else [] in
  event_line ++ lit "JSON payload:" ++ newline ++ truncated.

Definition GenericProfile : SourceProfile := {|
  id := "generic";
  parse_event_type h _ := first_header [lit "x-event-type"; lit "x-webhook-event"; lit "event-type"] h;
  parse_delivery_key h _ :=
    first_header [lit "x-delivery-id"; lit "x-request-id"; lit "x-webhook-id"; lit "idempotency-key"] h;
  entity_key _ _ := None;
  normalize_payload := generic_summary;
|}.

(** ** GitHub *)

Definition github_event_type (h : headers) (body : bytes) : option str :=
  event ← header_str "x-github-event" h;
  Some (match (v ← parsed body; member_str "action" v) with
        | Some action => event ++ lit "." ++ action
        | None => event
        end).

Definition github_entity_key (event_type : str) (body : json) : option str :=
  repo ← (r ← get "repository" body; member_str "full_name" r);
  if starts_with "pull_request" event_type then
    number ← (n ← or_else (get "pull_request" body) (get "number" body);
              or_else (member_u64 "number" n) (as_u64 n));
    Some (lit "github:" ++ repo ++ lit ":pr:" ++ show_Z number)
  else if starts_with "issues" event_type || starts_with "issue_comment" event_type then
    number ← (i ← get "issue" body; member_u64 "number" i);
    Some (lit "github:" ++ repo ++ lit ":issue:" ++ show_Z number)
  else None.

Definition github_title_line (kind : str) (v : json) : str :=
  match member_u64 "number" v with
  | Some number => kind ++ lit " #" ++ show_Z number ++ lit ": " ++ [ch_dquote] ++
                   unwrap_or (lit "(untitled)") (member_str "title" v) ++ [ch_dquote] ++ newline
  | None => []
  end.
Definition user_login (v : json) : option str := u ← get "user" v; member_str "login" u.
Definition clipped (text : str) (n : nat) : str :=
  if (n <? utf8_len text)%nat then truncate_str text n ++ lit "..." else text.

Definition github_pr_lines (pr : json) : str :=
  github_title_line "PR" pr ++
  line (lit "  Author: @") (user_login pr) newline ++
  match (h ← get "head" pr; member_str "ref" h), (b ← get "base" pr; member_str "ref" b) with
  | Some head_, Some base => lit "  Branch: " ++ head_ ++ lit " -> " ++ base ++ newline
  | _, _ => []
  end ++
  line (lit "  URL: ") (member_str "html_url" pr) newline ++
  line (lit "  Draft: ") (d ← get "draft" pr; b ← as_bool d; Some (if (b : bool) then lit "true" else lit "false")) newline ++
  match member_str "body" pr with
  | Some text =>
      if is_nonempty text
      then newline ++ lit "Description:" ++ newline ++ lit "  " ++ clipped text 500 ++ newline else []
  | None => []
  end ++
  match member_u64 "additions" pr, member_u64 "deletions" pr with
  | Some add, Some del =>
      newline ++ lit "Changed files: " ++ show_Z (unwrap_or 0 (member_u64 "changed_files" pr)) ++
      lit " (+" ++ show_Z add ++ lit " / -" ++ show_Z del ++ lit ")" ++ newline
  | _, _ => []
  end.

Definition github_issue_lines (issue : json) : str :=
  github_title_line "Issue" issue ++
  line (lit "  Author: @") (user_login issue) newline ++
  line (lit "  URL: ") (member_str "html_url" issue) newline.

Definition github_comment_lines (comment : json) : str :=
  line (newline ++ lit "Comment by @") (user_login comment) (lit ":" ++ newline) ++
  line (lit "  ") (t ← member_str "body" comment; Some (clipped t 1000)) newline.

Definition opt_lines (f : json → str) (o : option json) : str :=
  match o with Some v => f v | None => [] end.

Definition github_summary (event_type : str) (body : json) : str :=
  lit "GitHub event: " ++ event_type ++ newline ++ newline ++
  line (lit "Repository: ") (r ← get "repository" body; member_str "full_name" r) newline ++
  opt_lines github_pr_lines (get "pull_request" body) ++
  opt_lines github_issue_lines (get "issue" body) ++
  opt_lines github_comment_lines (get "comment" body) ++
  full_payload_note.

Definition GitHubProfile : SourceProfile := {|
  id := "github";
  parse_event_type := github_event_type;
  parse_delivery_key h _ := header_str "x-github-delivery" h;
  entity_key := github_entity_key;
  normalize_payload := github_summary;
|}.

(** ** GitLab *)

Definition gitlab_event_name (event : str) : str :=
  if str_eqb event "Merge Request Hook" then "merge_request"
  else if str_eqb event "Push Hook" then "push"
  else if str_eqb event "Issue Hook" then "issue"
  else if str_eqb event "Note Hook" then "note"
  else if str_eqb event "Pipeline Hook" then "pipeline"
  else if str_eqb event "Release Hook" then "release"
  else if str_eqb event "Tag Push Hook" then "tag_push"
  else event.

Definition gitlab_event_type (h : headers) (body : bytes) : option str :=
  event ← header_str "x-gitlab-event" h;
  let normalized := gitlab_event_name event in
  Some (match (v ← parsed body; oa ← get "object_attributes" v; member_str "action" oa) with
        | Some action => normalized ++ lit "." ++ action
        | None => normalized
        end).

Definition gitlab_delivery_key (h : headers) (body : bytes) : option str :=
  match header_str "idempotency-key" h with
  | Some key => Some key
  | None => Some (lit "sha256:" ++ hex_encode (sha256 body))
  end.

Definition gitlab_entity_key (event_type : str) (body : json) : option str :=
  project ← (p ← get "project" body; member_str "path_with_namespace" p);
  let iid := oa ← get "object_attributes" body; member_u64 "iid" oa in
  if starts_with "merge_request" event_type then
    n ← iid; Some (lit "gitlab:" ++ project ++ lit ":mr:" ++ show_Z n)
  else if starts_with "issue" event_type then
    n ← iid; Some (lit "gitlab:" ++ project ++ lit ":issue:" ++ show_Z n)
  else None.

Definition gitlab_attribute_lines (event_type : str) (oa : json) : str :=
  match member_u64 "iid" oa with
  | Some iid =>
      (if starts_with "merge_request" event_type then lit "MR" else lit "Issue") ++
      lit " !" ++ show_Z iid ++ lit ": " ++ [ch_dquote] ++
      unwrap_or (lit "(untitled)") (member_str "title" oa) ++ [ch_dquote] ++ newline
  | None => []
  end ++
  line (lit "  URL: ") (member_str "url" oa) newline.

Definition gitlab_summary (event_type : str) (body : json) : str :=
  lit "GitLab event: " ++ event_type ++ newline ++ newline ++
  line (lit "Project: ") (p ← get "project" body; member_str "path_with_namespace" p) newline ++
  opt_lines (gitlab_attribute_lines event_type) (get "object_attributes" body) ++
  line (lit "  Author: @") (u ← get "user" body; member_str "username" u) newline ++
  full_payload_note.

Definition GitLabProfile : SourceProfile := {|
  id := "gitlab";
  parse_event_type := gitlab_event_type;
  parse_delivery_key := gitlab_delivery_key;
  entity_key := gitlab_entity_key;
  normalize_payload := gitlab_summary;
|}.

(** ** Stripe *)

Definition stripe_object (body : json) : option json := d ← get "data" body; get "object" d.

Definition stripe_entity_key (event_type : str) (body : json) : option str :=
  data ← stripe_object body;
  if starts_with "customer.subscription" event_type then
    sub_id ← member_str "id" data; Some (lit "stripe:" ++ sub_id)
  else if starts_with "invoice" event_type then
    sub_id ← member_str "subscription" data; Some (lit "stripe:" ++ sub_id)
  else if starts_with "charge.dispute" event_type then
    charge_id ← member_str "charge" data; Some (lit "stripe:dispute:" ++ charge_id)
  else None.

Definition stripe_data_lines (data : json) : str :=
  newline ++
  line (lit "Customer: ") (member_str "customer" data) newline ++
  line (lit "Email: ") (e ← or_else (get "customer_email" data) (get "email" data); as_str e) newline ++
  match (a ← or_else (get "amount_total" data) (get "amount" data); as_i64 a) with
  | Some amount =>
      let formatted := f_div (f_of_Z amount 0) (f_of_Z 100 0) in
      lit "Amount: " ++ show_fixed2 formatted ++ lit " " ++
      to_uppercase (unwrap_or (lit "usd") (member_str "currency" data)) ++ newline
  | None => []
  end ++
  line (lit "Status: ") (member_str "status" data) newline.

Definition stripe_summary (event_type : str) (body : json) : str :=
  lit "Stripe event: " ++ event_type ++ newline ++ newline ++
  line (lit "Event ID: ") (member_str "id" body) newline ++
  line (lit "Livemode: ") (l ← get "livemode" body; b ← as_bool l; Some (if (b : bool) then lit "true" else lit "false")) newline ++
  opt_lines stripe_data_lines (stripe_object body) ++
  full_payload_note.

Definition StripeProfile : SourceProfile := {|
  id := "stripe";
  parse_event_type _ body := v ← parsed body; member_str "type" v;
  parse_delivery_key _ body := v ← parsed body; member_str "id" v;
  entity_key := stripe_entity_key;
  normalize_payload := stripe_summary;
|}.

(** ** Registry *)

Definition profiles : list SourceProfile := [GenericProfile; GitHubProfile; GitLabProfile; StripeProfile].

(** [ProfileRegistry::get]. *)
Definition get_profile (name : str) : option SourceProfile :=
  head (List.filter (λ p, str_eqb (id p) name) profiles).
End profiles.

(** * Facts *)

Local Arguments lit : simpl never.

(** ** Authentication *)

Section auth_facts.
Context `{Hmac}.

(** The key of the configuration that holds a string. *)
Definition configured (config : option json) (key v : str) : Prop := (c ← config; member_str key c) = Some v.
Definition carries (h : headers) (name v : str) : Prop := header_str name h = Some v.

(** What a part of a Stripe header may be: [t=...] or [v1=...]. *)
Definition stripe_time (p : str) : option str :=
  kv ← split_once (ch "=") p; if str_eqb kv.1 "t" then Some kv.2 else None.
Definition stripe_sig (p : str) : option str :=
  kv ← split_once (ch "=") p; if str_eqb kv.1 "v1" then Some kv.2 else None.

(** What a request must prove in each mode: possession of the configured secret, by showing it or by
    a MAC of the body, and for Stripe of a recent timestamp too. *)
Inductive authentic (now : Z) (h : headers) (body : bytes) (config : option json) : AuthMode → Prop :=
| authentic_none : authentic now h body config AuthNone
| authentic_static name value actual :
    configured config "header" name → configured config "value" value →
    carries h (to_ascii_lowercase name) actual → as_bytes actual = as_bytes value →
    authentic now h body config StaticHeader
| authentic_bearer expected token :
    configured config "token" expected → carries h "authorization" (lit "Bearer " ++ token) →
    as_bytes token = as_bytes expected → authentic now h body config Bearer
| authentic_github secret hex :
    configured config "secret" secret → carries h "x-hub-signature-256" (lit "sha256=" ++ hex) →
    hex_decode_strict hex = Some (hmac_sha256 (as_bytes secret) body) →
    authentic now h body config GithubHmacSha256
| authentic_gitlab expected token :
    configured config "token" expected → carries h "x-gitlab-token" token →
    as_bytes token = as_bytes expected → authentic now h body config GitlabToken
| authentic_stripe secret v ts secs sig :
    configured config "secret" secret → carries h "stripe-signature" v →
    last (omap stripe_time (split (ch ",") v)) = Some ts →
    parse_i64 ts = Some secs → Z.abs (now - secs) ≤ 300 →
    sig ∈ omap stripe_sig (split (ch ",") v) →
    as_bytes sig = as_bytes (hex_encode (hmac_sha256 (as_bytes secret) (as_bytes (ts ++ lit ".") ++ body))) →
    authentic now h body config StripeWebhookSignature
| authentic_linear secret hex :
    configured config "secret" secret → carries h "linear-signature" (lit "sha256=" ++ hex) →
    hex_decode_strict hex = Some (hmac_sha256 (as_bytes secret) body) →
    authentic now h body config LinearWebhookSignature
| authentic_pagerduty secret v part sig :
    configured config "secret" secret → carries h "x-pagerduty-signature" v →
    part ∈ split (ch ",") v → trim part = lit "v1=" ++ sig →
    as_bytes sig = as_bytes (hex_encode (hmac_sha256 (as_bytes secret) body)) →
    authentic now h body config PagerdutyV2Signature
| authentic_sentry secret hex :
    configured config "secret" secret → carries h "sentry-hook-signature" hex →
    hex_decode_strict hex = Some (hmac_sha256 (as_bytes secret) body) →
    authentic now h body config SentryWebhookSignature.

Lemma bind_iff {A B E} (r : result A E) (k : A → result B E) b :
  (let? a := r in k a)%result = Ok b ↔ ∃ a, r = Ok a ∧ k a = Ok b.
Proof. split; [apply bind_Ok|]. by intros (a & -> & ?). Qed.

Lemma check_iff (b : bool) (e : str) : (if b then Ok tt else Err e) = Ok tt ↔ b = true.
Proof. by destruct b. Qed.

Lemma ct_eq_iff a b : ct_eq a b = true ↔ a = b.
Proof. apply bool_decide_eq_true. Qed.

Lemma config_iff config key v : get_config_str config key = Ok v ↔ configured config key v.
Proof. unfold get_config_str. by rewrite ok_or_Ok. Qed.

Lemma header_iff h name v : get_header_str h name = Ok v ↔ carries h (to_ascii_lowercase name) v.
Proof. unfold get_header_str. by rewrite ok_or_Ok. Qed.

Lemma last_cons_or {A} (x : A) l : last (x :: l) = or_else (last l) (Some x).
Proof. revert x. induction l as [|y l IH]; intros x; [done|]. change (last (x :: y :: l)) with (last (y :: l)). by rewrite IH; destruct (last l). Qed.

Lemma stripe_fold parts ts sigs :
  foldl stripe_part (ts, sigs) parts =
  (or_else (last (omap stripe_time parts)) ts, sigs ++ omap stripe_sig parts).
Proof.
  revert ts sigs. induction parts as [|p parts IH]; intros ts sigs; cbn [foldl omap list_omap]; [by rewrite app_nil_r|].
  assert (Hp : stripe_part (ts, sigs) p =
    (or_else (stripe_time p) ts, sigs ++ match stripe_sig p with Some v => [v] | None => [] end)).
  { unfold stripe_part, stripe_time, stripe_sig. destruct (split_once (ch "=") p) as [[k v]|]; simpl; [|by rewrite app_nil_r].
    destruct (str_eqb k "t") eqn:E; simpl; [|by destruct (str_eqb k "v1"); rewrite ?app_nil_r].
    apply str_eqb_true in E as ->. by rewrite app_nil_r. }
  rewrite Hp, IH. cbn [omap list_omap]. f_equal.
  - destruct (stripe_time p) as [v|]; simpl; [|done]. rewrite last_cons_or. unfold omap. by destruct (last _).
  - rewrite <- app_assoc. by destruct (stripe_sig p).
Qed.

Lemma any_match {A} (f : A → bool) l : existsb f l = true ↔ ∃ x, x ∈ l ∧ f x = true.
Proof. rewrite existsb_exists. by setoid_rewrite <- list_elem_of_In. Qed.

Lemma omap_nonempty {A B} (f : A → option B) l x : x ∈ omap f l → is_nonempty (omap f l) = true.
Proof. destruct (omap f l); [by intros ?%elem_of_nil|done]. Qed.

Lemma hmac_header_iff config h body name prefix :
  to_ascii_lowercase name = name →
  verify_hmac_header config h body name "secret" prefix = Ok tt ↔
  ∃ secret hex, configured config "secret" secret ∧ carries h name (prefix ++ hex) ∧
    hex_decode_strict hex = Some (hmac_sha256 (as_bytes secret) body).
Proof.
  intros Hname. unfold verify_hmac_header.
  assert (Hpre : ∀ (e v x : str), (if negb (is_nonempty prefix) then Ok v else ok_or e (strip_prefix prefix v)) = Ok x ↔ v = prefix ++ x).
  { intros e v x. destruct prefix as [|c p]; simpl is_nonempty; cbv iota beta delta [negb].
    - split; [by intros [= ->]|by intros ->].
    - by rewrite ok_or_Ok, strip_prefix_Some. }
  rewrite !bind_iff. setoid_rewrite bind_iff. setoid_rewrite bind_iff. setoid_rewrite bind_iff.
  setoid_rewrite config_iff. setoid_rewrite header_iff. setoid_rewrite Hpre. setoid_rewrite ok_or_Ok.
  setoid_rewrite check_iff. setoid_rewrite ct_eq_iff. rewrite Hname.
  split; [intros (secret & Hs & v & Hv & hex & -> & sig & Hh & <-); eauto|].
  intros (secret & hex & Hs & Hv & Hh). eauto 10.
Qed.

Lemma stripe_iff now config h body :
  0 ≤ now < 2 ^ 62 →
  verify_stripe_signature now config h body = Ok tt ↔ authentic now h body config StripeWebhookSignature.
Proof.
  intros Hnow. unfold verify_stripe_signature. split.
  - intros Hv. step Hv as secret Hs. step Hv as v Hh. rewrite stripe_fold in Hv. simpl in Hv.
    step Hv as ts Ht. destruct (is_nonempty _) eqn:En; [|done]. step Hv as secs Hsecs.
    apply ok_or_Ok in Ht, Hsecs. destruct (Z.ltb_spec 300 (Z.abs (i64_sub now secs))) as [|Hage]; [done|].
    apply check_iff, any_match in Hv as (sig & Hin & Hsig). apply ct_eq_iff in Hsig.
    apply config_iff in Hs. apply header_iff in Hh.
    eapply authentic_stripe; [done|done| |done| |done|done].
    + by destruct (last _).
    + apply i64_sub_close; [done|by eapply parse_i64_range|lia|done].
  - intros Ha. inversion Ha as [| | | | |secret v ts secs sig Hs Hh Ht Hsecs Hage Hin Hsig| | |]; subst.
    rewrite (proj2 (config_iff _ _ _) Hs), (proj2 (header_iff h (lit "stripe-signature") v) Hh).
    rewrite stripe_fold, Ht. cbn -[omap parse_i64 hex_encode ch]. rewrite (omap_nonempty _ _ _ Hin). cbn -[omap parse_i64 hex_encode ch].
    rewrite Hsecs. cbn -[omap parse_i64 hex_encode ch]. pose proof (parse_i64_range _ _ Hsecs) as Hrange.
    apply (i64_sub_close now secs 300) in Hage; [|done|done|lia].
    destruct (Z.ltb_spec 300 (Z.abs (i64_sub now secs))); [lia|].
    apply check_iff, any_match. exists sig. by rewrite ct_eq_iff.
Qed.

(** The chain of checks of a mode as a conjunction. *)
Ltac as_iff :=
  rewrite !bind_iff; repeat setoid_rewrite bind_iff; repeat setoid_rewrite config_iff;
  repeat setoid_rewrite header_iff; repeat setoid_rewrite ok_or_Ok; repeat setoid_rewrite strip_prefix_Some;
  repeat setoid_rewrite check_iff; repeat setoid_rewrite ct_eq_iff.

(** C35. Authentication is exact: a request passes if and only if it proves, in the mode of its webhook,
    possession of the configured secret.  A missing or non-string secret, a missing or unreadable header, a
    malformed or foreign signature, and for Stripe a timestamp more than five minutes off (the last one of
    several counts), all fail. *)
Theorem auth_spec now mode config h body :
  0 ≤ now < 2 ^ 62 → verify now mode config h body = Ok tt ↔ authentic now h body config mode.
Proof.
  intros Hnow. destruct mode; simpl verify.
  - split; [constructor|done].
  - unfold verify_static_header. as_iff.
    split; [intros (n & ? & e & ? & a & ? & ?); by econstructor|inversion 1; eauto 10].
  - unfold verify_bearer. as_iff.
    split; [intros (e & ? & a & ? & t & -> & ?); by econstructor|inversion 1; eauto 10].
  - unfold verify_github_hmac. as_iff.
    split; [intros (e & ? & a & ? & x & -> & s & ? & <-); by econstructor|inversion 1; eauto 12].
  - unfold verify_gitlab_token. as_iff.
    split; [intros (e & ? & a & ? & ?); by econstructor|inversion 1; eauto 10].
  - by apply stripe_iff.
  - unfold verify_linear_signature. rewrite hmac_header_iff by done.
    split; [intros (? & ? & ? & ? & ?); by econstructor|inversion 1; eauto].
  - unfold verify_pagerduty_signature. as_iff. setoid_rewrite any_match. split.
    + intros (secret & Hs & v & Hv & part & Hin & Hm). unfold pagerduty_match in Hm.
      destruct (strip_prefix _ _) as [sig|] eqn:E; [|done]. apply strip_prefix_Some in E. apply ct_eq_iff in Hm.
      by econstructor.
    + inversion 1 as [| | | | | | |secret v part sig Hs Hv Hin Ht Hsig|]; subst.
      exists secret. split; [done|]. exists v. split; [done|]. exists part. split; [done|].
      unfold pagerduty_match. rewrite Ht, strip_prefix_app. by apply ct_eq_iff.
  - unfold verify_sentry_signature. rewrite hmac_header_iff by done.
    split; [intros (? & ? & ? & ? & ?); by econstructor|inversion 1; eauto].
Qed.
End auth_facts.

(** ** The rate limiter *)

Module RateLimitSpec.
Import RateLimit.
Local Open Scope nat_scope.

(** The log of what was accepted, oldest first: webhook and time. *)
Notation accepted := (list (Z * Z)) (only parsing).

(** How many of these times lie in the minute that ends now. *)
Definition recent (now : Z) (ts : list Z) : nat := length (List.filter (λ t, (sat_sub now 60000 <=? t)%Z) ts).
Definition times (hist : accepted) : list Z := hist.*2.
Definition times_of (id : Z) (hist : accepted) : list Z := times (List.filter (λ x, (x.1 =? id)%Z) hist).

(** The specification: count the log. *)
Definition spec_check (now : Z) (global_max : nat) (hist : accepted) (id : Z) (max : nat) : bool * accepted :=
  if (recent now (times hist) <? global_max) && (recent now (times_of id hist) <? max)
  then (true, hist ++ [(id, now)]) else (false, hist).

(** A sequence of requests: time, webhook, limit of the webhook. *)
Notation requests := (list (Z * Z * nat)) (only parsing).
Fixpoint check_all (l : WebhookRateLimiter) (rs : requests) : list bool :=
  match rs with
  | [] => []
  | (now, id, max) :: rs => let '(b, l) := check now l id max in b :: check_all l rs
  end.
Fixpoint spec_all (global_max : nat) (hist : accepted) (rs : requests) : list bool :=
  match rs with
  | [] => []
  | (now, id, max) :: rs =>
      let '(b, hist) := spec_check now global_max hist id max in b :: spec_all global_max hist rs
  end.
(** The clock does not go back. *)
Fixpoint ascending (t : Z) (rs : requests) : Prop :=
  match rs with
  | [] => True
  | (now, _, _) :: rs => (t <= now)%Z /\ ascending now rs
  end.

(** [w] is what is left of [ts] after pruning at some point up to [now]. *)
Definition window_of (now : Z) (ts w : list Z) : Prop :=
  ∃ c, (c <= sat_sub now 60000)%Z ∧ w = prune c ts.

Lemma prune_prune c c' ts : (c <= c')%Z → prune c' (prune c ts) = prune c' ts.
Proof.
  intros Hc. induction ts as [|t ts IH]; [done|]. unfold prune in *. simpl.
  destruct (Z.ltb_spec t c); [|done]. rewrite IH. destruct (Z.ltb_spec t c'); [done|lia].
Qed.
Lemma prune_snoc c ts t : (c <= t)%Z → prune c (ts ++ [t]) = prune c ts ++ [t].
Proof.
  intros Hc. unfold prune. induction ts as [|x ts IH]; simpl.
  - destruct (Z.ltb_spec t c); [lia|done].
  - destruct (x <? c)%Z; [done|by rewrite app_comm_cons].
Qed.
Lemma prune_recent now ts :
  StronglySorted Z.le ts → length (prune (sat_sub now 60000) ts) = recent now ts.
Proof.
  intros Hs. unfold recent, prune.
  induction Hs as [|t ts Hs IH Hall]; [done|]. simpl. destruct (Z.ltb_spec t (sat_sub now 60000)) as [Hl|Hl].
  - rewrite (proj2 (Z.leb_gt _ _)) by lia. done.
  - rewrite (proj2 (Z.leb_le _ _)) by lia. simpl. f_equal. clear IH Hs.
    induction Hall as [|x ts Hx _ IH]; [done|]. simpl. rewrite (proj2 (Z.leb_le _ _)) by lia. simpl. by f_equal.
Qed.

(** The limiter holds, of every list of times, a window. *)
Definition represents (t : Z) (l : WebhookRateLimiter) (hist : accepted) : Prop :=
  window_of t (times hist) (global (state l)) ∧
  (∀ id, window_of t (times_of id hist) (unwrap_or [] (per_webhook (state l) !! id))) ∧
  StronglySorted Z.le (times hist) ∧ Forall (λ x, (x <= t)%Z) (times hist).

Lemma window_later t now ts w : window_of t ts w → (t <= now)%Z → window_of now ts w.
Proof. intros (c & Hc & ->) Ht. exists c. split; [|done]. unfold sat_sub in *. lia. Qed.

Lemma window_prune now ts w : window_of now ts w → prune (sat_sub now 60000) w = prune (sat_sub now 60000) ts.
Proof. intros (c & Hc & ->). by apply prune_prune. Qed.

Lemma window_pruned now ts : window_of now ts (prune (sat_sub now 60000) ts).
Proof. by eexists. Qed.

Lemma window_snoc now ts : (0 <= now)%Z → window_of now (ts ++ [now]) (prune (sat_sub now 60000) ts ++ [now]).
Proof. intros Hn. eexists. split; [reflexivity|]. rewrite prune_snoc; [done|]. unfold sat_sub. lia. Qed.

Lemma times_of_sub id hist : sublist (times_of id hist) (times hist).
Proof.
  unfold times_of, times. induction hist as [|[i t] hist IH]; simpl; [constructor|].
  destruct (i =? id)%Z; simpl; by constructor.
Qed.

Lemma sorted_sublist (l k : list Z) : sublist l k → StronglySorted Z.le k → StronglySorted Z.le l.
Proof.
  intros Hs Hk. induction Hs as [|x l k Hs IH|x l k Hs IH]; inversion Hk; subst; [done| |auto].
  constructor; [auto|]. rewrite Forall_forall in *. eauto using elem_of_sublist.
Qed.

Lemma times_of_snoc id id' now hist :
  times_of id (hist ++ [(id', now)]) = times_of id hist ++ (if (id' =? id)%Z then [now] else []).
Proof. unfold times_of, times. rewrite List.filter_app, fmap_app. simpl. by destruct (id' =? id)%Z. Qed.

Lemma check_represents t l hist now id max b l' :
  represents t l hist → (0 <= t <= now)%Z → check now l id max = (b, l') →
  ∃ hist', spec_check now (global_max l) hist id max = (b, hist') ∧ represents now l' hist' ∧
    global_max l' = global_max l.
Proof.
  intros (Hg & Hw & Hs & Ht) Hnow Hc. unfold check in Hc.
  assert (Hg' := window_prune _ _ _ (window_later _ _ _ _ Hg (proj2 Hnow))).
  assert (Hw' := window_prune _ _ _ (window_later _ _ _ _ (Hw id) (proj2 Hnow))).
  assert (Hsi := sorted_sublist _ _ (times_of_sub id hist) Hs).
  rewrite Hg', Hw', !prune_recent in Hc by done. unfold spec_check.
  assert (Hlater : Forall (λ x, (x <= now)%Z) (times hist)) by (eapply Forall_impl; [done|]; simpl; lia).
  destruct (Nat.leb_spec (global_max l) (recent now (times hist))) as [Hge|Hlt].
  - injection Hc as <- <-. rewrite (proj2 (Nat.ltb_ge _ _)) by done. eexists. split_and!; [done| |done].
    split_and!; [apply window_pruned| |done|done]. intros i. eapply window_later; [apply Hw|lia].
  - rewrite (proj2 (Nat.ltb_lt _ _)) by done. simpl.
    destruct (Nat.leb_spec max (recent now (times_of id hist))) as [Hge|Hlt2]; injection Hc as <- <-.
    + rewrite (proj2 (Nat.ltb_ge _ _)) by done. eexists. split_and!; [done| |done].
      split_and!; [apply window_pruned| |done|done]. intros i. simpl.
      destruct (decide (i = id)) as [->|]; [rewrite lookup_insert_eq; apply window_pruned|].
      rewrite lookup_insert_ne by done. eapply window_later; [apply Hw|lia].
    + rewrite (proj2 (Nat.ltb_lt _ _)) by done. eexists. split_and!; [done| |done].
      assert (Htimes : times (hist ++ [(id, now)]) = times hist ++ [now]) by (unfold times; by rewrite fmap_app).
      split_and!.
      * rewrite Htimes. apply window_snoc. lia.
      * intros i. rewrite times_of_snoc. simpl.
        destruct (Z.eqb_spec id i) as [<-|]; [rewrite lookup_insert_eq; apply window_snoc; lia|].
        rewrite lookup_insert_ne, app_nil_r by done. eapply window_later; [apply Hw|lia].
      * rewrite Htimes. by apply sorted_snoc.
      * rewrite Htimes. apply Forall_app. split; [done|]. constructor; [lia|done].
Qed.

(** C32. The rate limiter is exact: over any sequence of requests with a clock that does not go back, it
    lets a request through if and only if fewer than the global maximum of all requests, and fewer than the
    webhook's maximum of its own, were let through in the minute up to now.  The deques, pruned from the
    front only and only when touched, lose nothing that counts. *)
Theorem limiter_exact gmax rs : ascending 0 rs → check_all (new gmax) rs = spec_all gmax [] rs.
Proof.
  assert (Hgo : ∀ rs t l hist, (0 <= t)%Z → represents t l hist → ascending t rs →
            check_all l rs = spec_all (global_max l) hist rs).
  { clear. induction rs as [|[[now id] max] rs IH]; intros t l hist H0 Hr Ha; [done|]. simpl.
    destruct Ha as [Ht Ha]. destruct (check now l id max) as [b l'] eqn:Ec.
    destruct (check_represents _ _ _ _ _ _ _ _ Hr (conj H0 Ht) Ec) as (hist' & Es & Hr' & Hmax).
    rewrite Es. f_equal. rewrite <- Hmax. apply (IH now); [lia|done|done]. }
  intros Ha. apply (Hgo rs 0%Z (new gmax) []); [lia| |done].
  split_and!; [by eexists (-1)%Z| |constructor|constructor].
  intros id. simpl. rewrite lookup_empty. by exists (-1)%Z.
Qed.
End RateLimitSpec.

(** ** Truncation *)

(** Truncation never cuts through a char and loses no more than it has to: the result is a prefix of
    at most [max_bytes] bytes, and no longer prefix fits. *)
Theorem truncate_longest s max_bytes :
  ∃ rest, s = truncate_str s max_bytes ++ rest ∧ (utf8_len (truncate_str s max_bytes) <= max_bytes)%nat ∧
    ∀ p rest', s = p ++ rest' → (utf8_len p <= max_bytes)%nat → (utf8_len p <= utf8_len (truncate_str s max_bytes))%nat.
Proof.
  unfold truncate_str. destruct (Nat.leb_spec (utf8_len s) max_bytes).
  - exists []. rewrite app_nil_r. split_and!; [done|done|]. intros p rest' ->. rewrite utf8_len_app. lia.
  - destruct (floor_boundary_spec s max_bytes) as (Hle & Hb & Hmax).
    destruct (boundary_prefix s _ Hb) as (s2 & Hs & Hn). exists s2. rewrite Hn. split_and!; [done|done|].
    intros p rest' Hp Hl. apply Hmax; [done|]. rewrite Hp. apply boundary_app.
Qed.

(** * Witnesses *)

Section witnesses.
(** A keyed "hash" that is the key and the message. *)
Definition plain_hmac : Hmac := {| hmac_sha256 k m := k ++ m |}.
Existing Instance plain_hmac.

Definition demo_config : option json := Some (JObject [(lit "secret", JString "k")]).
Definition stripe_headers : headers :=
  [(lit "stripe-signature", Some (lit "t=1,t=1000,v1=00,v1=" ++ hex_encode (lit "k1000.hi")))].

Lemma auth_spec_witness :
  verify 1200 StripeWebhookSignature demo_config stripe_headers (lit "hi") = Ok tt ∧
  authentic 1200 stripe_headers (lit "hi") demo_config StripeWebhookSignature.
Proof.
  assert (Hv : verify 1200 StripeWebhookSignature demo_config stripe_headers (lit "hi") = Ok tt) by reflexivity.
  split; [exact Hv|]. exact (proj1 (auth_spec 1200 StripeWebhookSignature demo_config stripe_headers (lit "hi") ltac:(lia)) Hv).
Defined.

Lemma limiter_exact_witness :
  RateLimitSpec.spec_all 2 [] [(0, 1, 2%nat); (10, 1, 1%nat); (20, 2, 1%nat); (30, 3, 1%nat); (60011, 3, 1%nat)]
  = [true; false; true; false; true].
Proof.
  rewrite <- (RateLimitSpec.limiter_exact 2
    [(0, 1, 2%nat); (10, 1, 1%nat); (20, 2, 1%nat); (30, 3, 1%nat); (60011, 3, 1%nat)]); [reflexivity|].
  simpl. lia.
Defined.
End witnesses.
