(* ===== verification/Webhooks.v ===== *)
(** Generic webhooks: the store, the ingress handler and the worker.

    Models [crates/webhooks/src/store.rs], [types.rs], [normalize.rs], [dedup.rs], [worker.rs] and the
    route [/api/webhooks/ingest/{public_id}] of [crates/httpd/src/server/gateway.rs].  The tables are lists
    of rows in the order of their ids; a statement is atomic and may fail, leaving them as they were.
    The handler is a sequence of stages, one for each statement or lock it waits for, so that any number
    of requests can be interleaved.  The vault, the agent and the channels are parameters. *)
From S2P Require Import Prelude Float64 Json Utf8 ToolArgs Http WebhookAuth.
Local Open Scope Z_scope.

(** * Types *)

Record ToolPolicy := { tp_allow : list str; tp_deny : list str }.

Record Webhook := {
  wid : Z;
  name : str;
  description : option str;
  enabled : bool;
  public_id : str;
  agent_id : option str;
  model : option str;
  system_prompt_suffix : option str;
  tool_policy : option ToolPolicy;
  auth_mode : AuthMode;
  auth_config : option json;
  source_profile : str;
  source_config : option json;
  event_filter : EventFilter;
  session_mode : SessionMode;
  named_session_key : option str;
  allowed_cidrs : list str;
  max_body_bytes : nat;
  rate_limit_per_minute : nat;
  deliver_only : bool;
  prompt_template : option str;
  deliver_to : option str;
  deliver_extra : option json;
  delivery_count : Z;
  last_delivery_at : option str;
  created_at : str;
  updated_at : str;
}.

(** [Webhook::redacted]. *)
Definition redacted (w : Webhook) : Webhook :=
  let redact (c : option json) := match c with Some _ => Some (JString "[REDACTED]") | None => None end in
  {| wid := wid w; name := name w; description := description w; enabled := enabled w;
     public_id := public_id w; agent_id := agent_id w; model := model w;
     system_prompt_suffix := system_prompt_suffix w; tool_policy := tool_policy w;
     auth_mode := auth_mode w; auth_config := redact (auth_config w);
     source_profile := source_profile w; source_config := redact (source_config w);
     event_filter := event_filter w; session_mode := session_mode w;
     named_session_key := named_session_key w; allowed_cidrs := allowed_cidrs w;
     max_body_bytes := max_body_bytes w; rate_limit_per_minute := rate_limit_per_minute w;
     deliver_only := deliver_only w; prompt_template := prompt_template w; deliver_to := deliver_to w;
     deliver_extra := deliver_extra w; delivery_count := delivery_count w;
     last_delivery_at := last_delivery_at w; created_at := created_at w; updated_at := updated_at w |}.

Record WebhookPatch := {
  p_name : option str;
  p_description : option (option str);
  p_enabled : option bool;
  p_agent_id : option (option str);
  p_model : option (option str);
  p_system_prompt_suffix : option (option str);
  p_tool_policy : option (option ToolPolicy);
  p_auth_mode : option AuthMode;
  p_auth_config : option (option json);
  p_source_config : option (option json);
  p_event_filter : option EventFilter;
  p_session_mode : option SessionMode;
  p_named_session_key : option (option str);
  p_allowed_cidrs : option (list str);
  p_max_body_bytes : option nat;
  p_rate_limit_per_minute : option nat;
  p_deliver_only : option bool;
  p_prompt_template : option (option str);
  p_deliver_to : option (option str);
  p_deliver_extra : option (option json);
}.

Definition apply_patch (p : WebhookPatch) (now : str) (w : Webhook) : Webhook :=
  {| wid := wid w;
     name := unwrap_or (name w) (p_name p);
     description := unwrap_or (description w) (p_description p);
     enabled := unwrap_or (enabled w) (p_enabled p);
     public_id := public_id w;
     agent_id := unwrap_or (agent_id w) (p_agent_id p);
     model := unwrap_or (model w) (p_model p);
     system_prompt_suffix := unwrap_or (system_prompt_suffix w) (p_system_prompt_suffix p);
     tool_policy := unwrap_or (tool_policy w) (p_tool_policy p);
     auth_mode := unwrap_or (auth_mode w) (p_auth_mode p);
     auth_config := unwrap_or (auth_config w) (p_auth_config p);
     source_profile := source_profile w;
     source_config := unwrap_or (source_config w) (p_source_config p);
     event_filter := unwrap_or (event_filter w) (p_event_filter p);
     session_mode := unwrap_or (session_mode w) (p_session_mode p);
     named_session_key := unwrap_or (named_session_key w) (p_named_session_key p);
     allowed_cidrs := unwrap_or (allowed_cidrs w) (p_allowed_cidrs p);
     max_body_bytes := unwrap_or (max_body_bytes w) (p_max_body_bytes p);
     rate_limit_per_minute := unwrap_or (rate_limit_per_minute w) (p_rate_limit_per_minute p);
     deliver_only := unwrap_or (deliver_only w) (p_deliver_only p);
     prompt_template := unwrap_or (prompt_template w) (p_prompt_template p);
     deliver_to := unwrap_or (deliver_to w) (p_deliver_to p);
     deliver_extra := unwrap_or (deliver_extra w) (p_deliver_extra p);
     delivery_count := delivery_count w;
     last_delivery_at := last_delivery_at w;
     created_at := created_at w;
     updated_at := now |}.

Inductive DeliveryStatus :=
| Received | StatusFiltered | StatusDeduplicated | StatusRejected | Queued | Processing | Completed | Failed.
Global Instance DeliveryStatus_eq_dec : EqDecision DeliveryStatus.
Proof. solve_decision. Defined.

(** [NewDelivery], and the row made of it. *)
Record NewDelivery := {
  webhook_id : Z;
  received_at : str;
  status : DeliveryStatus;
  event_type : option str;
  delivery_entity_key : option str;
  delivery_key : option str;
  http_method : option str;
  content_type : option str;
  remote_ip : option str;
  headers_json : option str;
  body_size : nat;
  body_blob : option bytes;
  rejection_reason : option str;
}.

Record WebhookDelivery := {
  did : Z;
  delivery : NewDelivery;
  d_status : DeliveryStatus;
  session_key : option str;
  run_error : option str;
  started_at : option str;
  finished_at : option str;
  duration_ms : option Z;
  input_tokens : option Z;
  output_tokens : option Z;
}.

Record DeliveryUpdate := {
  u_session_key : option str;
  u_run_error : option str;
  u_started_at : option str;
  u_finished_at : option str;
  u_duration_ms : option Z;
  u_input_tokens : option Z;
  u_output_tokens : option Z;
}.
Definition no_update : DeliveryUpdate :=
  {| u_session_key := None; u_run_error := None; u_started_at := None; u_finished_at := None;
     u_duration_ms := None; u_input_tokens := None; u_output_tokens := None |}.

(** * The store *)

(** The tables, and the counter of [AUTOINCREMENT]. *)
Record WebhookStore := {
  webhooks : list Webhook;
  deliveries : list WebhookDelivery;
  last_id : Z;
}.
Definition with_webhooks (s : WebhookStore) ws :=
  {| webhooks := ws; deliveries := deliveries s; last_id := last_id s |}.
Definition with_deliveries (s : WebhookStore) ds :=
  {| webhooks := webhooks s; deliveries := ds; last_id := last_id s |}.

Definition first {A} (f : A → bool) (l : list A) : option A := head (List.filter f l).

Definition get_webhook (s : WebhookStore) (i : Z) : option Webhook := first (λ w, wid w =? i) (webhooks s).
Definition get_webhook_by_public_id (s : WebhookStore) (p : str) : option Webhook :=
  first (λ w, str_eqb (public_id w) p) (webhooks s).
Definition get_delivery (s : WebhookStore) (i : Z) : option WebhookDelivery :=
  first (λ d, did d =? i) (deliveries s).

(** [UPDATE ... WHERE id = ?]. *)
Definition update_where {A} (sel : A → bool) (f : A → A) (l : list A) : list A :=
  map (λ x, if sel x then f x else x) l.

Definition update_webhook (s : WebhookStore) (i : Z) (p : WebhookPatch) (now : str)
    : option Webhook * WebhookStore :=
  match get_webhook s i with
  | None => (None, s)
  | Some w =>
      let w' := apply_patch p now w in
      (Some w', with_webhooks s (update_where (λ x, wid x =? i) (λ _, w') (webhooks s)))
  end.

(** One transaction: the deliveries, then the webhook; nothing happens when there is none. *)
Definition delete_webhook (s : WebhookStore) (i : Z) : bool * WebhookStore :=
  if existsb (λ w, wid w =? i) (webhooks s) then
    (true, {| webhooks := List.filter (λ w, negb (wid w =? i)) (webhooks s);
              deliveries := List.filter (λ d, negb (webhook_id (delivery d) =? i)) (deliveries s);
              last_id := last_id s |})
  else (false, s).

Definition count_delivery (i : Z) (at_ : str) (w : Webhook) : Webhook :=
  {| wid := wid w; name := name w; description := description w; enabled := enabled w;
     public_id := public_id w; agent_id := agent_id w; model := model w;
     system_prompt_suffix := system_prompt_suffix w; tool_policy := tool_policy w;
     auth_mode := auth_mode w; auth_config := auth_config w;
     source_profile := source_profile w; source_config := source_config w;
     event_filter := event_filter w; session_mode := session_mode w;
     named_session_key := named_session_key w; allowed_cidrs := allowed_cidrs w;
     max_body_bytes := max_body_bytes w; rate_limit_per_minute := rate_limit_per_minute w;
     deliver_only := deliver_only w; prompt_template := prompt_template w; deliver_to := deliver_to w;
     deliver_extra := deliver_extra w; delivery_count := delivery_count w + 1;
     last_delivery_at := Some at_; created_at := created_at w; updated_at := updated_at w |}.
Definition increment_delivery_count (s : WebhookStore) (i : Z) (at_ : str) : WebhookStore :=
  with_webhooks s (update_where (λ w, wid w =? i) (count_delivery i at_) (webhooks s)).

Definition same_key (webhook : Z) (key : str) (d : WebhookDelivery) : bool :=
  (webhook_id (delivery d) =? webhook) &&
  match delivery_key (delivery d) with Some k => str_eqb k key | None => false end.

Definition find_by_delivery_key (s : WebhookStore) (webhook : Z) (key : str) : option Z :=
  did <$> first (same_key webhook key) (deliveries s).

Definition unique_violation : str :=
  "UNIQUE constraint failed: webhook_deliveries.webhook_id, webhook_deliveries.delivery_key".

Definition new_row (i : Z) (d : NewDelivery) : WebhookDelivery :=
  {| did := i; delivery := d; d_status := status d; session_key := None; run_error := None;
     started_at := None; finished_at := None; duration_ms := None; input_tokens := None;
     output_tokens := None |}.

(** [INSERT]: the unique index covers the rows whose key is not null. *)
Definition insert_delivery (s : WebhookStore) (d : NewDelivery) : result Z str * WebhookStore :=
  let i := last_id s + 1 in
  let insert := (Ok i, {| webhooks := webhooks s; deliveries := deliveries s ++ [new_row i d]; last_id := i |}) in
  match delivery_key d with
  | Some key => if existsb (same_key (webhook_id d) key) (deliveries s) then (Err unique_violation, s) else insert
  | None => insert
  end.

(** [COALESCE(?, column)]. *)
Definition coalesce {A} (new old : option A) : option A := or_else new old.
Definition set_status (st : DeliveryStatus) (u : DeliveryUpdate) (d : WebhookDelivery) : WebhookDelivery :=
  {| did := did d; delivery := delivery d; d_status := st;
     session_key := coalesce (u_session_key u) (session_key d);
     run_error := coalesce (u_run_error u) (run_error d);
     started_at := coalesce (u_started_at u) (started_at d);
     finished_at := coalesce (u_finished_at u) (finished_at d);
     duration_ms := coalesce (u_duration_ms u) (duration_ms d);
     input_tokens := coalesce (u_input_tokens u) (input_tokens d);
     output_tokens := coalesce (u_output_tokens u) (output_tokens d) |}.
Definition update_delivery_status (s : WebhookStore) (i : Z) (st : DeliveryStatus) (u : DeliveryUpdate)
    : WebhookStore :=
  with_deliveries s (update_where (λ d, did d =? i) (set_status st u) (deliveries s)).

Definition unprocessed (d : WebhookDelivery) : bool :=
  bool_decide (d_status d ∈ [Received; Queued; Processing]).
Definition by_received (a b : WebhookDelivery) : Prop :=
  str_leP (received_at (delivery a)) (received_at (delivery b)).
Global Instance by_received_dec : RelDecision by_received :=
  λ a b, str_leP_dec (received_at (delivery a)) (received_at (delivery b)).
Definition list_unprocessed_deliveries (s : WebhookStore) : list Z :=
  did <$> merge_sort by_received (List.filter unprocessed (deliveries s)).

Definition prune_deliveries_before (s : WebhookStore) (before : str) : WebhookStore :=
  with_deliveries s (List.filter (λ d, str_le before (received_at (delivery d))) (deliveries s)).

(** [check_duplicate]: an empty key is never looked up. *)
Definition check_duplicate (s : WebhookStore) (webhook : Z) (key : option str) : option Z :=
  match key with
  | Some key => if is_nonempty key then find_by_delivery_key s webhook key else None
  | None => None
  end.

(** * Messages *)

Section messages.
Context `{SerdeJson, WebhookKit, FloatFormat}.

Definition build_delivery_message (w : Webhook) (event_type delivery_key : option str)
    (received_at normalized_summary : str) : str :=
  let rule := newline ++ newline ++ lit "---" ++ newline ++ newline in
  lit "Webhook delivery received." ++ newline ++ newline ++
  lit "Webhook: " ++ name w ++ lit " (" ++ public_id w ++ lit ")" ++ newline ++
  lit "Source: " ++ source_profile w ++ newline ++
  line (lit "Event: ") event_type newline ++
  line (lit "Delivery: ") delivery_key newline ++
  lit "Received: " ++ received_at ++ newline ++
  newline ++ lit "---" ++ newline ++ newline ++ normalized_summary ++
  line rule (system_prompt_suffix w) [].

Fixpoint resolve_segments (segments : list str) (v : json) : option json :=
  match segments with
  | [] => Some v
  | s :: rest => v' ← get s v; resolve_segments rest v'
  end.
Definition resolve_path (v : json) (path : str) : option json := resolve_segments (split (ch ".") path) v.

(** What stands for a closed placeholder. *)
Definition render_placeholder (payload : json) (key : str) : str :=
  let literal := lit "{" ++ key ++ lit "}" in
  if negb (is_nonempty key) then literal
  else if str_eqb key "__raw__" then truncate_str (unwrap_or [] (to_string_pretty payload)) 4000
  else match resolve_path payload key with
       | Some (JString s) => s
       | Some (JNumber n) => number_to_string n
       | Some (JBool true) => "true"
       | Some (JBool false) => "false"
       | Some JNull => "null"
       | Some other => truncate_str (unwrap_or [] (to_string other)) 2000
       | None => literal
       end.

(** The loop over the chars; [Some key] while a placeholder is being collected. *)
Fixpoint render_go (payload : json) (key : option str) (s : str) : str :=
  match s, key with
  | [], None => []
  | [], Some key => lit "{" ++ key
  | c :: s', None =>
      if (c =? ch "{")%N then render_go payload (Some []) s' else c :: render_go payload None s'
  | c :: s', Some key =>
      if (c =? ch "}")%N then render_placeholder payload key ++ render_go payload None s'
      else render_go payload (Some (key ++ [c])) s'
  end.
Definition render_template (template : str) (payload : json) : str := render_go payload None template.

Definition safe_prefixes : list str :=
  [lit "x-github-"; lit "x-gitlab-"; lit "x-stripe-"; lit "x-pagerduty-"; lit "x-linear-"; lit "x-sentry-";
   lit "x-request-id"; lit "x-delivery-id"; lit "x-event-type"; lit "content-type"; lit "content-length";
   lit "user-agent"; lit "idempotency-key"].
Definition deny_headers : list str :=
  [lit "authorization"; lit "x-gitlab-token"; lit "cookie"; lit "x-hub-signature-256";
   lit "x-pagerduty-signature"; lit "stripe-signature"; lit "linear-signature"; lit "sentry-hook-signature"].

Definition extract_safe_headers (h : headers) : json :=
  JObject (foldl (λ m '(name, value),
    if existsb (str_eqb name) deny_headers then m
    else if existsb (λ p, starts_with p name || str_eqb name p) safe_prefixes then
      match value with Some v => insert_assoc name (JString v) m | None => m end
    else m) [] h).
End messages.

(** * The ingress handler *)

(** [ipnet::IpNet], [Display] of addresses, and the decryption of a webhook's secrets. *)
Class Ingress := {
  parse_ipnet : str → option (IpAddr → bool);
  show_ip : IpAddr → str;
  decrypt_webhook_secrets : Webhook → option Webhook;
}.

Record Gateway := {
  store : WebhookStore;
  limiter : RateLimit.WebhookRateLimiter;
  queue : list Z;          (** the channel to the worker *)
}.
Definition with_store (g : Gateway) s := {| store := s; limiter := limiter g; queue := queue g |}.
Definition with_limiter (g : Gateway) l := {| store := store g; limiter := l; queue := queue g |}.
Definition with_queue (g : Gateway) q := {| store := store g; limiter := limiter g; queue := q |}.

(** One request; [now_secs], [now_ms] and [now_iso] are the clocks when it is handled. *)
Record Request := {
  path_id : str;
  peer : IpAddr;
  req_headers : headers;
  body : bytes;
  behind_proxy : bool;
  now_secs : Z;
  now_ms : Z;
  now_iso : str;
}.

Inductive Response :=
| WebhookNotFound                  (** 404 *)
| SecretsUnavailable               (** 503 *)
| IpForbidden                      (** 403 *)
| PayloadTooLarge (max : nat)      (** 413 *)
| Unauthorized                     (** 401 *)
| Filtered (event_type : str)      (** 200 *)
| TooManyRequests                  (** 429 *)
| Deduplicated (existing : Z)      (** 200 *)
| PersistFailed                    (** 500 *)
| Accepted (delivery_id : Z) (event_type : option str) (received_at : str).  (** 202 *)

Definition status_code (r : Response) : Z :=
  match r with
  | WebhookNotFound => 404
  | SecretsUnavailable => 503
  | IpForbidden => 403
  | PayloadTooLarge _ => 413
  | Unauthorized => 401
  | Filtered _ | Deduplicated _ => 200
  | TooManyRequests => 429
  | PersistFailed => 500
  | Accepted _ _ _ => 202
  end.

Section ingress.
Context `{SerdeJson, WebhookKit, FloatFormat, Unicode, Hmac, NetParse, Ingress}.

Definition client_ip (r : Request) : str :=
  let peer := show_ip (peer r) in
  if behind_proxy r then
    match (v ← header_str "x-forwarded-for" (req_headers r); first_ ← head (split (ch ",") v); Some (trim first_)) with
    | Some ip => ip
    | None => match header_str "x-real-ip" (req_headers r) with
              | Some v => trim v
              | None => peer
              end
    end
  else peer.

Definition cidr_matches (ip : str) (addr : IpAddr) (cidr : str) : bool :=
  match parse_ipnet cidr with Some contains => contains addr | None => str_eqb cidr ip end.

Definition ip_allowed (w : Webhook) (ip : str) : bool :=
  if is_nonempty (allowed_cidrs w) then
    match parse_ip_addr ip with
    | Some addr => existsb (cidr_matches ip addr) (allowed_cidrs w)
    | None => false
    end
  else true.

Definition event_type_of (w : Webhook) (r : Request) : option str :=
  p ← get_profile (source_profile w); parse_event_type p (req_headers r) (body r).
Definition delivery_key_of (w : Webhook) (r : Request) : option str :=
  p ← get_profile (source_profile w); parse_delivery_key p (req_headers r) (body r).
Definition body_json (b : bytes) : json := match from_slice b with Ok v => v | Err _ => JNull end.
Definition entity_key_of (w : Webhook) (r : Request) : option str :=
  p ← get_profile (source_profile w); et ← event_type_of w r; entity_key p et (body_json (body r)).

Definition new_delivery (w : Webhook) (r : Request) : NewDelivery :=
  {| webhook_id := wid w; received_at := now_iso r; status := Queued;
     event_type := event_type_of w r; delivery_entity_key := entity_key_of w r;
     delivery_key := delivery_key_of w r; http_method := Some (lit "POST");
     content_type := header_str "content-type" (req_headers r); remote_ip := Some (client_ip r);
     headers_json := to_string (extract_safe_headers (req_headers r));
     body_size := length (body r); body_blob := Some (body r); rejection_reason := None |}.

(** The checks between the lookup of the webhook and the rate limiter. *)
Definition precheck (w : Webhook) (r : Request) : result Webhook Response :=
  match decrypt_webhook_secrets w with
  | None => Err SecretsUnavailable
  | Some w =>
      if negb (ip_allowed w (client_ip r)) then Err IpForbidden
      else if (max_body_bytes w <? length (body r))%nat then Err (PayloadTooLarge (max_body_bytes w))
      else match verify (now_secs r) (auth_mode w) (auth_config w) (req_headers r) (body r) with
           | Err _ => Err Unauthorized
           | Ok _ =>
               match event_type_of w r with
               | Some et => if accepts (event_filter w) et then Ok w else Err (Filtered et)
               | None => Ok w
               end
           end
  end.

(** Where a request stands. *)
Inductive Stage :=
| Lookup
| Limit (w : Webhook)
| Dedup (w : Webhook)
| Insert (w : Webhook)
| Count (w : Webhook) (id : Z)
| Enqueue (w : Webhook) (id : Z)
| Responded (resp : Response).

(** One stage; [fault] makes its statement fail, or the send to the worker. *)
Definition ingest_step (r : Request) (fault : bool) (st : Stage) (g : Gateway) : Stage * Gateway :=
  match st with
  | Lookup =>
      match (if fault then None else get_webhook_by_public_id (store g) (path_id r)) with
      | Some w =>
          if enabled w then
            match precheck w r with
            | Ok w => (Limit w, g)
            | Err resp => (Responded resp, g)
            end
          else (Responded WebhookNotFound, g)
      | None => (Responded WebhookNotFound, g)
      end
  | Limit w =>
      let '(ok, l) := RateLimit.check (now_ms r) (limiter g) (wid w) (rate_limit_per_minute w) in
      let g := with_limiter g l in
      if negb ok then (Responded TooManyRequests, g)
      else match delivery_key_of w r with
           | Some _ => (Dedup w, g)
           | None => (Insert w, g)
           end
  | Dedup w =>
      match (if fault then None else check_duplicate (store g) (wid w) (delivery_key_of w r)) with
      | Some existing => (Responded (Deduplicated existing), g)
      | None => (Insert w, g)
      end
  | Insert w =>
      match (if fault then (Err (lit "fault"), store g) else insert_delivery (store g) (new_delivery w r)) with
      | (Ok i, s) => (Count w i, with_store g s)
      | (Err _, s) => (Responded PersistFailed, with_store g s)
      end
  | Count w i =>
      (Enqueue w i, if fault then g else with_store g (increment_delivery_count (store g) (wid w) (now_iso r)))
  | Enqueue w i =>
      (Responded (Accepted i (event_type_of w r) (now_iso r)), if fault then g else with_queue g (queue g ++ [i]))
  | Responded resp => (Responded resp, g)
  end.

(** A request alone; six stages are the most there are. *)
Fixpoint ingest_run (r : Request) (faults : list bool) (st : Stage) (g : Gateway) : Stage * Gateway :=
  match faults with
  | [] => (st, g)
  | f :: faults => let '(st, g) := ingest_step r f st g in ingest_run r faults st g
  end.
Definition ingest (r : Request) (g : Gateway) : Stage * Gateway := ingest_run r (replicate 6 false) Lookup g.

(** What else happens to the tables meanwhile: the worker, and edits of webhooks. *)
Inductive store_edit (s : WebhookStore) : WebhookStore → Prop :=
| edit_status i st u : store_edit s (update_delivery_status s i st u)
| edit_webhook i p now : store_edit s (update_webhook s i p now).2.

(** Any number of requests at once. *)
Record Pool := { gateway : Gateway; requests : gmap nat (Request * Stage) }.

Inductive pool_step : Pool → Pool → Prop :=
| pool_arrive p n r :
    requests p !! n = None →
    pool_step p {| gateway := gateway p; requests := <[n := (r, Lookup)]> (requests p) |}
| pool_advance p n r st fault st' g' :
    requests p !! n = Some (r, st) → ingest_step r fault st (gateway p) = (st', g') →
    pool_step p {| gateway := g'; requests := <[n := (r, st')]> (requests p) |}
| pool_edit p s' :
    store_edit (store (gateway p)) s' →
    pool_step p {| gateway := with_store (gateway p) s'; requests := requests p |}.
End ingress.

(** * The worker *)

Record ProcessResult := { result_session : str; result_input : option Z; result_output : option Z }.
Record ExecuteRequest := {
  ex_webhook : Z; ex_delivery : Z; ex_session : str; ex_agent : option str; ex_model : option str;
  ex_policy : option ToolPolicy; ex_message : str;
}.
Record DeliverRequest := { channel : str; message : str; extra : option json }.

Section worker.
Context `{SerdeJson, WebhookKit, FloatFormat, Unicode}.
(** The two callbacks, and the clock of the run. *)
Context (execute_fn : ExecuteRequest → result ProcessResult str)
  (deliver_fn : option (DeliverRequest → result unit str))
  (started finished : str) (duration : Z).

Definition build_session_key (w : Webhook) (delivery_id : Z) (entity : option str) : str :=
  let base := lit "webhook:" ++ public_id w in
  match session_mode w with
  | PerDelivery => base ++ lit ":" ++ show_Z delivery_id
  | PerEntity => match entity with
                 | Some e => base ++ lit ":" ++ e
                 | None => base ++ lit ":" ++ show_Z delivery_id
                 end
  | NamedSession => unwrap_or base (named_session_key w)
  end.

Definition delivery_message (w : Webhook) (d : NewDelivery) : str :=
  let v := body_json (unwrap_or [] (body_blob d)) in
  let et := unwrap_or (lit "unknown") (event_type d) in
  let p := unwrap_or GenericProfile (get_profile (source_profile w)) in
  match prompt_template w with
  | Some template => render_template template v
  | None => build_delivery_message w (event_type d) (delivery_key d) (received_at d) (normalize_payload p et v)
  end.

(** Templates in the string members of [deliver_extra]. *)
Definition render_extra (v body : json) : json :=
  match v with
  | JObject m => JObject (map (λ '(k, x), (k, match x with JString s => JString (render_template s body) | _ => x end)) m)
  | _ => v
  end.

Definition deliver_direct (w : Webhook) (d : NewDelivery) : DeliverRequest * result unit str :=
  let v := body_json (unwrap_or [] (body_blob d)) in
  let ch_ := unwrap_or (lit "log") (deliver_to w) in
  let req := {| channel := ch_; message := delivery_message w d;
                extra := e ← deliver_extra w; Some (render_extra e v) |} in
  (req, match deliver_fn with
        | Some f => f req
        | None => if str_eqb ch_ "log" then Ok tt
                  else Err (lit "deliver_only: no deliver callback configured for channel '" ++ ch_ ++ lit "'")
        end).

Definition finish (session : option str) (err : option str) (i o : option Z) : DeliveryUpdate :=
  {| u_session_key := session; u_run_error := err; u_started_at := None; u_finished_at := Some finished;
     u_duration_ms := Some duration; u_input_tokens := i; u_output_tokens := o |}.

Definition start : DeliveryUpdate :=
  {| u_session_key := None; u_run_error := None; u_started_at := Some started; u_finished_at := None;
     u_duration_ms := None; u_input_tokens := None; u_output_tokens := None |}.

(** Which statements fail while a delivery is processed. *)
Record Faults := { f_mark : bool; f_delivery : bool; f_webhook : bool; f_body : bool; f_finish : bool }.
Definition no_faults : Faults :=
  {| f_mark := false; f_delivery := false; f_webhook := false; f_body := false; f_finish := false |}.
Definition failing {A} (fault : bool) (r : result A str) : result A str := if fault then Err (lit "database error") else r.

(** The store, and what has been executed, in order.  An error ends the processing where it comes up. *)
Definition process_delivery (f : Faults) (st : WebhookStore * list Z) (i : Z) : result unit str * (WebhookStore * list Z) :=
  let '(s, ran) := st in
  match failing (f_mark f) (Ok (update_delivery_status s i Processing start)) with
  | Err e => (Err e, (s, ran))
  | Ok s =>
  match failing (f_delivery f) (ok_or (lit "delivery not found: " ++ show_Z i) (get_delivery s i)) with
  | Err e => (Err e, (s, ran))
  | Ok row =>
  let d := delivery row in
  match failing (f_webhook f) (ok_or (lit "webhook not found: " ++ show_Z (webhook_id d)) (get_webhook s (webhook_id d))) with
  | Err e => (Err e, (s, ran))
  | Ok w =>
  match failing (f_body f) (Ok (body_blob d)) with
  | Err e => (Err e, (s, ran))
  | Ok _ =>
      let settle st u :=
        match failing (f_finish f) (Ok (update_delivery_status s i st u)) with
        | Ok s => (Ok tt, (s, ran ++ [i]))
        | Err e => (Err e, (s, ran ++ [i]))
        end in
      if deliver_only w then
        let '(req, res) := deliver_direct w d in
        match res with
        | Ok _ => settle Completed (finish (Some (lit "deliver_only:" ++ channel req)) None None None)
        | Err e => settle Failed (finish None (Some e) None None)
        end
      else
        let req := {| ex_webhook := wid w; ex_delivery := i;
                      ex_session := build_session_key w i (delivery_entity_key d);
                      ex_agent := agent_id w; ex_model := model w; ex_policy := tool_policy w;
                      ex_message := delivery_message w d |} in
        match execute_fn req with
        | Ok p => settle Completed (finish (Some (result_session p)) None (result_input p) (result_output p))
        | Err e => settle Failed (finish None (Some e) None None)
        end
  end
  end
  end
  end.

(** [faults n] are those of the [n]-th delivery; a delivery whose processing fails is passed over. *)
Fixpoint process_all (faults : nat → Faults) (st : WebhookStore * list Z) (ids : list Z) : WebhookStore * list Z :=
  match ids with
  | [] => st
  | i :: ids => process_all (λ n, faults (S n)) (process_delivery (faults 0%nat) st i).2 ids
  end.

(** [run]: first what a previous run left, if it can be listed, then the channel until it is closed. *)
Definition run_worker (query_fault : bool) (faults : nat → Faults) (s : WebhookStore) (received : list Z)
    : WebhookStore * list Z :=
  match failing query_fault (Ok (list_unprocessed_deliveries s)) with
  | Ok ids => process_all (λ n, faults (length ids + n)%nat) (process_all faults (s, []) ids) received
  | Err _ => process_all faults (s, []) received
  end.
End worker.

(** * Facts *)

Local Arguments lit : simpl never.

(** ** Acceptance *)

Section acceptance.
Context `{SerdeJson, WebhookKit, FloatFormat, Unicode, Hmac, NetParse, Ingress}.

(** No row of the webhook has this key. *)
Definition fresh_key (s : WebhookStore) (webhook : Z) (key : option str) : Prop :=
  ∀ k, key = Some k → existsb (same_key webhook k) (deliveries s) = false.

(** Everything the handler asks of a request, in its order. *)
Record admissible (r : Request) (g : Gateway) (w : Webhook) : Prop := {
  adm_found : ∃ w0, get_webhook_by_public_id (store g) (path_id r) = Some w0 ∧ enabled w0 = true ∧
                    decrypt_webhook_secrets w0 = Some w;
  adm_ip : ip_allowed w (client_ip r) = true;
  adm_size : (length (body r) <= max_body_bytes w)%nat;
  adm_auth : verify (now_secs r) (auth_mode w) (auth_config w) (req_headers r) (body r) = Ok tt;
  adm_event : ∀ et, event_type_of w r = Some et → accepts (event_filter w) et = true;
  adm_rate : (RateLimit.check (now_ms r) (limiter g) (wid w) (rate_limit_per_minute w)).1 = true;
  adm_key : fresh_key (store g) (wid w) (delivery_key_of w r);
}.

Lemma precheck_Ok w0 r w :
  precheck w0 r = Ok w ↔
  decrypt_webhook_secrets w0 = Some w ∧ ip_allowed w (client_ip r) = true ∧
  (length (body r) <= max_body_bytes w)%nat ∧
  verify (now_secs r) (auth_mode w) (auth_config w) (req_headers r) (body r) = Ok tt ∧
  ∀ et, event_type_of w r = Some et → accepts (event_filter w) et = true.
Proof.
  unfold precheck. destruct (decrypt_webhook_secrets w0) as [w1|]; [|naive_solver].
  destruct (ip_allowed w1 _) eqn:Ei; simpl; [|split; [done|intros ([= ->] & ? & _); congruence]].
  destruct (Nat.ltb_spec (max_body_bytes w1) (length (body r))); [split; [done|intros ([= ->] & ? & ? & _); lia]|].
  destruct (verify _ _ _ _ _) as [[]|e] eqn:Ev; [|split; [done|intros ([= ->] & ? & ? & ? & _); congruence]].
  destruct (event_type_of w1 r) as [et|] eqn:Ee; [destruct (accepts (event_filter w1) et) eqn:Ea|];
    (split; [intros [= <-] || done|intros ([= ->] & ? & ? & ? & Hf)]); try done;
    try (split_and!; try done; intros et' ?; congruence).
  specialize (Hf et Ee). congruence.
Qed.

Lemma first_none {A} (f : A → bool) l : first f l = None ↔ existsb f l = false.
Proof.
  unfold first. induction l as [|x l IH]; [done|]. simpl. destruct (f x); [done|]. exact IH.
Qed.

Lemma duplicate_fresh s w key :
  existsb (same_key w key) (deliveries s) = false → check_duplicate s w (Some key) = None.
Proof.
  intros Hf. unfold check_duplicate, find_by_delivery_key. destruct (is_nonempty key); [|done].
  by rewrite (proj2 (first_none _ _) Hf).
Qed.

Lemma insert_fresh s w r :
  fresh_key s (wid w) (delivery_key_of w r) →
  insert_delivery s (new_delivery w r) =
  (Ok (last_id s + 1), {| webhooks := webhooks s; deliveries := deliveries s ++ [new_row (last_id s + 1) (new_delivery w r)];
                          last_id := last_id s + 1 |}).
Proof.
  intros Hf. unfold insert_delivery. simpl. destruct (delivery_key_of w r) as [key|] eqn:E; [|done].
  by rewrite (Hf key).
Qed.

Lemma insert_stale s w r key :
  delivery_key_of w r = Some key → existsb (same_key (wid w) key) (deliveries s) = true →
  insert_delivery s (new_delivery w r) = (Err unique_violation, s).
Proof. intros Hk He. unfold insert_delivery. simpl. by rewrite Hk, He. Qed.

(** The state after a request was accepted. *)
Definition accepted_state (r : Request) (g : Gateway) (w : Webhook) : Gateway :=
  let i := last_id (store g) + 1 in
  let s := {| webhooks := webhooks (store g); deliveries := deliveries (store g) ++ [new_row i (new_delivery w r)];
              last_id := i |} in
  {| store := increment_delivery_count s (wid w) (now_iso r);
     limiter := (RateLimit.check (now_ms r) (limiter g) (wid w) (rate_limit_per_minute w)).2;
     queue := queue g ++ [i] |}.

(** Evaluates the stages as far as they are known. *)
Ltac stages H := cbn [replicate ingest_run ingest_step store limiter queue with_limiter negb] in H.

Lemma ingest_lookup r g w0 w :
  get_webhook_by_public_id (store g) (path_id r) = Some w0 → enabled w0 = true → precheck w0 r = Ok w →
  ingest r g = ingest_run r (replicate 5 false) (Limit w) g.
Proof. intros Hw He Hp. unfold ingest. cbn [replicate ingest_run ingest_step]. by rewrite Hw, He, Hp. Qed.

Lemma ingest_admissible r g w :
  admissible r g w →
  ingest r g = (Responded (Accepted (last_id (store g) + 1) (event_type_of w r) (now_iso r)), accepted_state r g w).
Proof.
  intros [(w0 & Hw & He & Hd) Hip Hsz Hauth Hev Hrate Hkey].
  rewrite (ingest_lookup r g w0 w Hw He) by (by apply precheck_Ok).
  cbn [replicate ingest_run ingest_step]. unfold accepted_state.
  destruct (RateLimit.check _ _ _ _) as [ok l]. simpl in Hrate. subst ok. cbn [negb].
  destruct (delivery_key_of w r) as [key|] eqn:Ek; cbn [ingest_run ingest_step store limiter queue with_limiter].
  - rewrite Ek, duplicate_fresh by (by apply Hkey). cbn [ingest_run ingest_step store limiter queue with_limiter].
    rewrite insert_fresh by (by rewrite Ek). done.
  - rewrite insert_fresh by (by rewrite Ek). done.
Qed.

(** A request is accepted exactly when it passes every check: the webhook exists and is enabled, its
    secrets are readable, the address is on the allowlist, the body fits, the authentication proves the
    secret, a known event type passes the filter, the minute's budget is not used up, and no delivery
    of the webhook has the same key.  It then leaves one row, queued once, under a new id. *)
Theorem accepted_iff r g i et at_ g' :
  ingest r g = (Responded (Accepted i et at_), g') ↔
  ∃ w, admissible r g w ∧ i = last_id (store g) + 1 ∧ et = event_type_of w r ∧ at_ = now_iso r ∧
       g' = accepted_state r g w.
Proof.
  split; [|by intros (w & Ha & -> & -> & -> & ->); apply ingest_admissible].
  intros Hi. destruct (get_webhook_by_public_id (store g) (path_id r)) as [w0|] eqn:Ew;
    [|by unfold ingest in Hi; stages Hi; rewrite Ew in Hi].
  destruct (enabled w0) eqn:Ee; [|by unfold ingest in Hi; stages Hi; rewrite Ew, Ee in Hi].
  destruct (precheck w0 r) as [w|resp] eqn:Ep.
  2: { unfold ingest in Hi. stages Hi. rewrite Ew, Ee, Ep in Hi.
       injection Hi as Hr _. exfalso. subst resp. unfold precheck in Ep. repeat case_match; simplify_eq. }
  destruct (proj1 (precheck_Ok _ _ _) Ep) as (Hd & Hip & Hsz & Hauth & Hev).
  destruct (RateLimit.check (now_ms r) (limiter g) (wid w) (rate_limit_per_minute w)) as [ok l] eqn:Er.
  assert (Ha : ok = true ∧ fresh_key (store g) (wid w) (delivery_key_of w r)).
  { rewrite (ingest_lookup r g w0 w Ew Ee Ep) in Hi. stages Hi. rewrite Er in Hi.
    destruct ok; stages Hi; [|done]. split; [done|].
    intros key Hk. destruct (existsb (same_key (wid w) key) (deliveries (store g))) eqn:Ex; [|done]. exfalso.
    rewrite Hk in Hi. stages Hi. rewrite Hk in Hi. destruct (check_duplicate _ _ _) as [ex|]; stages Hi; [done|].
    by rewrite (insert_stale _ _ _ key Hk Ex) in Hi. }
  destruct Ha as [-> Hkey].
  assert (Hadm : admissible r g w) by (constructor; eauto; by rewrite Er).
  exists w. rewrite (ingest_admissible r g w Hadm) in Hi. by simplify_eq.
Qed.
End acceptance.

(** ** No delivery is accepted twice *)

(** The rows as far as they never change. *)
Definition rows (s : WebhookStore) : list (Z * NewDelivery) := (λ d, (did d, delivery d)) <$> deliveries s.

Definition same_delivery (a b : NewDelivery) : Prop :=
  webhook_id a = webhook_id b ∧ ∃ k, delivery_key a = Some k ∧ delivery_key b = Some k.

(** What the primary key and the unique index guarantee. *)
Record well_indexed (s : WebhookStore) : Prop := {
  ids_bounded : ∀ x, x ∈ rows s → x.1 ≤ last_id s;
  keys_unique : ∀ x y, x ∈ rows s → y ∈ rows s → same_delivery x.2 y.2 → x.1 = y.1;
}.

Lemma same_key_rows w k s :
  existsb (same_key w k) (deliveries s) = false →
  ∀ x, x ∈ rows s → ¬ (webhook_id x.2 = w ∧ delivery_key x.2 = Some k).
Proof.
  intros Hf x Hx [Hw Hk]. apply list_elem_of_fmap in Hx as (d & -> & Hd). simpl in *.
  assert (Ht : existsb (same_key w k) (deliveries s) = true); [|congruence].
  apply existsb_exists. exists d. split; [by apply list_elem_of_In|]. unfold same_key.
  rewrite Hk, (proj2 (Z.eqb_eq _ _) Hw). apply str_eqb_refl.
Qed.

Lemma rows_status s i st u : rows (update_delivery_status s i st u) = rows s.
Proof.
  unfold rows, update_delivery_status, update_where. simpl. rewrite <- list_fmap_compose.
  apply list_fmap_ext. intros _ d _. simpl. by destruct (did d =? i).
Qed.

Lemma edit_rows s s' : store_edit s s' → rows s' = rows s ∧ last_id s' = last_id s.
Proof.
  destruct 1; [by rewrite rows_status|]. unfold update_webhook. by destruct (get_webhook s i).
Qed.

Lemma insert_rows s d r s' :
  insert_delivery s d = (r, s') → well_indexed s →
  well_indexed s' ∧ (∀ x, x ∈ rows s → x ∈ rows s') ∧
  match r with Ok i => (i, d) ∈ rows s' ∧ i = last_id s + 1 ∧ last_id s' = i | Err _ => s' = s end.
Proof.
  intros Hi Hwf. unfold insert_delivery in Hi.
  assert (Hnew : (∀ k, delivery_key d = Some k → existsb (same_key (webhook_id d) k) (deliveries s) = false) →
    let s1 := {| webhooks := webhooks s; deliveries := deliveries s ++ [new_row (last_id s + 1) d]; last_id := last_id s + 1 |} in
    well_indexed s1 ∧ (∀ x, x ∈ rows s → x ∈ rows s1) ∧ (last_id s + 1, d) ∈ rows s1).
  { intros Hfresh s1. destruct Hwf as [Hb Hk].
    assert (Hr : rows s1 = rows s ++ [(last_id s + 1, d)]) by (unfold rows, s1; simpl; by rewrite fmap_app).
    rewrite Hr. split; [|split; [intros; apply elem_of_app; by left|apply elem_of_app; right; by left]].
    constructor; rewrite Hr; simpl.
    - intros x [Hx| ->%list_elem_of_singleton]%elem_of_app; [apply Hb in Hx; lia|simpl; lia].
    - intros x y [Hx| ->%list_elem_of_singleton]%elem_of_app [Hy| ->%list_elem_of_singleton]%elem_of_app Hs; [auto| | |done];
        destruct Hs as [Hw (k & Hk1 & Hk2)]; simpl in *; exfalso.
      + by eapply (same_key_rows (webhook_id d) k); [apply Hfresh| |].
      + by eapply (same_key_rows (webhook_id d) k); [apply Hfresh| |]. }
  destruct (delivery_key d) as [k|].
  - destruct (existsb _ _) eqn:Ex; simplify_eq; [done|].
    destruct Hnew as (? & ? & ?); [by intros ? [= <-]|]. by split_and!.
  - simplify_eq. destruct Hnew as (? & ? & ?); [done|]. by split_and!.
Qed.

Section concurrent.
Context `{SerdeJson, WebhookKit, FloatFormat, Unicode, Hmac, NetParse, Ingress}.

(** The delivery a request has inserted. *)
Definition owned (st : Stage) : option Z :=
  match st with
  | Count _ i | Enqueue _ i | Responded (Accepted i _ _) => Some i
  | _ => None
  end.

Record pool_inv (p : Pool) : Prop := {
  inv_store : well_indexed (store (gateway p));
  inv_owned : ∀ n r st i, requests p !! n = Some (r, st) → owned st = Some i →
    ∃ w, (i, new_delivery w r) ∈ rows (store (gateway p));
  inv_distinct : ∀ n m x y i, requests p !! n = Some x → requests p !! m = Some y →
    owned x.2 = Some i → owned y.2 = Some i → n = m;
}.

(** A step inserts at most the row its request comes to own. *)
Lemma step_rows r fault st g st' g' :
  ingest_step r fault st g = (st', g') → well_indexed (store g) →
  well_indexed (store g') ∧ (∀ x, x ∈ rows (store g) → x ∈ rows (store g')) ∧
  (owned st' = owned st ∨
   ∃ w, owned st' = Some (last_id (store g) + 1) ∧ (last_id (store g) + 1, new_delivery w r) ∈ rows (store g')).
Proof.
  intros Hs Hwf. destruct st as [| w | w | w | w i | w i | resp]; simpl in Hs.
  - repeat case_match; simplify_eq; (split_and!; [done|done|]); left; try done.
    all: unfold precheck in *; repeat case_match; simplify_eq; done.
  - destruct (RateLimit.check _ _ _ _) as [[] l]; simpl in Hs; [destruct (delivery_key_of w r)|]; simplify_eq; by auto.
  - repeat case_match; simplify_eq; by auto.
  - destruct fault; [simplify_eq; by auto|].
    destruct (insert_delivery (store g) (new_delivery w r)) as [res s1] eqn:Ei.
    destruct (insert_rows _ _ _ _ Ei Hwf) as (Hwf' & Hsub & Hres). destruct res as [i|e]; simplify_eq.
    + destruct Hres as (Hin & -> & _). split_and!; [done|done|]. right. by exists w.
    + by auto.
  - destruct fault; simplify_eq; [by auto|].
    assert (Hr : rows (store (with_store g (increment_delivery_count (store g) (wid w) (now_iso r)))) = rows (store g)) by done.
    split_and!; [|by rewrite Hr|by left]. constructor; rewrite Hr; apply Hwf.
  - destruct fault; simplify_eq; by auto.
  - simplify_eq. by auto.
Qed.

Lemma pool_step_inv p p' : pool_step p p' → pool_inv p → pool_inv p'.
Proof.
  intros Hs [Hwf Hown Hdist]. destruct Hs as [p n r Hn|p n r st fault st' g' Hn Hstep|p s' He].
  - constructor; simpl; [done| |].
    + intros m r' st i Hm Ho. apply lookup_insert_Some in Hm as [[<- [= <- <-]]|[_ Hm]]; [done|eauto].
    + intros m k x y i Hm Hk Hx Hy.
      apply lookup_insert_Some in Hm as [[<- <-]|[_ Hm]]; [done|].
      apply lookup_insert_Some in Hk as [[<- <-]|[_ Hk]]; [done|eauto].
  - destruct (step_rows _ _ _ _ _ _ Hstep Hwf) as (Hwf' & Hsub & Hnew).
    assert (Hlt : ∀ m x i, requests p !! m = Some x → owned x.2 = Some i → i ≤ last_id (store (gateway p))).
    { intros m [r0 st0] i Hm Ho. destruct (Hown _ _ _ _ Hm Ho) as (w & Hin). apply (ids_bounded _ Hwf _ Hin). }
    constructor; simpl; [done| |].
    + intros m r' st0 i Hm Ho. apply lookup_insert_Some in Hm as [[<- [= <- <-]]|[_ Hm]].
      * destruct Hnew as [Heq|(w & Heq & Hin)]; [|exists w; congruence].
        rewrite Heq in Ho. destruct (Hown _ _ _ _ Hn Ho) as (w & Hin). eauto.
      * destruct (Hown _ _ _ _ Hm Ho) as (w & Hin). eauto.
    + assert (Hone : ∀ m y i, m ≠ n → requests p !! m = Some y → owned st' = Some i → owned y.2 = Some i → False).
      { intros m y i Hne Hm Hi Hy. destruct Hnew as [Heq|(w & Heq & _)].
        - rewrite Heq in Hi. by apply Hne, (Hdist m n y (r, st) i).
        - specialize (Hlt _ _ _ Hm Hy). assert (i = last_id (store (gateway p)) + 1) by congruence. lia. }
      intros m k x y i Hm Hk Hx Hy.
      apply lookup_insert_Some in Hm as [[<- <-]|[Hm' Hm]];
        apply lookup_insert_Some in Hk as [[<- <-]|[Hk' Hk]]; simpl in *; [done| | |eauto].
      * exfalso. by eapply (Hone k y i).
      * exfalso. by eapply (Hone m x i).
  - destruct (edit_rows _ _ He) as [Hr Hl].
    constructor; simpl; [|rewrite Hr; done|done].
    constructor; rewrite Hr, ?Hl; apply Hwf.
Qed.

(** C10. A delivery is accepted at most once, however the requests interleave and whichever statements
    fail: two requests that were both told 202 own different rows, and these are not deliveries of one
    webhook under one key.  The check before the insertion may race; the unique index decides. *)
Theorem delivered_once p0 p n1 r1 i1 et1 t1 n2 r2 i2 et2 t2 :
  well_indexed (store (gateway p0)) → requests p0 = ∅ → rtc pool_step p0 p →
  requests p !! n1 = Some (r1, Responded (Accepted i1 et1 t1)) →
  requests p !! n2 = Some (r2, Responded (Accepted i2 et2 t2)) → n1 ≠ n2 →
  i1 ≠ i2 ∧ ∃ w1 w2, (i1, new_delivery w1 r1) ∈ rows (store (gateway p)) ∧
    (i2, new_delivery w2 r2) ∈ rows (store (gateway p)) ∧
    ¬ same_delivery (new_delivery w1 r1) (new_delivery w2 r2).
Proof.
  intros Hwf Hempty Hreach Hr1 Hr2 Hne.
  assert (Hinv : pool_inv p).
  { assert (Hinit : pool_inv p0) by (constructor; [done|by rewrite Hempty|by rewrite Hempty]).
    clear -Hreach Hinit. induction Hreach as [|x y z Hs _ IH]; [done|]. eauto using pool_step_inv. }
  destruct Hinv as [Hwf' Hown Hdist].
  assert (Hi : i1 ≠ i2) by (intros ->; by apply Hne, (Hdist n1 n2 _ _ i2 Hr1 Hr2)).
  split; [done|].
  destruct (Hown _ _ _ _ Hr1 eq_refl) as (w1 & Hw1), (Hown _ _ _ _ Hr2 eq_refl) as (w2 & Hw2).
  exists w1, w2. split_and!; [done|done|]. intros Hs. by apply Hi, (keys_unique _ Hwf' _ _ Hw1 Hw2 Hs).
Qed.
End concurrent.

(** ** Nothing queued is lost *)

Section recovery.
Context `{SerdeJson, WebhookKit, FloatFormat, Unicode}.
Context (execute_fn : ExecuteRequest → result ProcessResult str)
  (deliver_fn : option (DeliverRequest → result unit str))
  (started finished : str) (duration : Z).

Notation process := (process_delivery execute_fn deliver_fn started finished duration).
Notation work := (run_worker execute_fn deliver_fn started finished duration).
Notation process_ids := (process_all execute_fn deliver_fn started finished duration).

(** A row with its status. *)
Definition view (d : WebhookDelivery) : (Z * NewDelivery) * DeliveryStatus := ((did d, delivery d), d_status d).
Definition settled (st : DeliveryStatus) : Prop := st = Completed ∨ st = Failed.

(** Every delivery has its webhook, as the foreign key demands. *)
Definition referenced (s : WebhookStore) : Prop :=
  ∀ x, x ∈ rows s → ∃ w, get_webhook s (webhook_id x.2) = Some w.

Lemma view_status s i st u v :
  v ∈ view <$> deliveries (update_delivery_status s i st u) →
  (v.1.1 = i ∧ v.2 = st) ∨ (v.1.1 ≠ i ∧ v ∈ view <$> deliveries s).
Proof.
  intros (d & -> & Hd)%list_elem_of_fmap. simpl in Hd. unfold update_where in Hd.
  apply list_elem_of_In, in_map_iff in Hd as (d0 & <- & Hd0).
  destruct (Z.eqb_spec (did d0) i) as [Hi|Hi]; [left; by split|right].
  split; [done|]. apply list_elem_of_fmap. exists d0. split; [done|by apply list_elem_of_In].
Qed.

Lemma first_some {A} (f : A → bool) l x : x ∈ l → f x = true → ∃ y, first f l = Some y ∧ y ∈ l ∧ f y = true.
Proof.
  intros Hx Hf. destruct (first f l) as [y|] eqn:E.
  - exists y. split; [done|]. unfold first in E. destruct (List.filter f l) as [|z k] eqn:Ef; [done|]. simplify_eq/=.
    assert (Hin : In y (List.filter f l)) by (rewrite Ef; by left). apply filter_In in Hin as [? ?].
    split; [by apply list_elem_of_In|done].
  - apply first_none in E. exfalso. assert (existsb f l = true); [|congruence].
    apply existsb_exists. exists x. split; [by apply list_elem_of_In|done].
Qed.

Lemma get_delivery_row s i d : (i, d) ∈ rows s → ∃ row, get_delivery s i = Some row ∧ (i, delivery row) ∈ rows s.
Proof.
  intros (d0 & [= -> ->] & Hd0)%list_elem_of_fmap.
  destruct (first_some (λ x, did x =? did d0) (deliveries s) d0 Hd0 (Z.eqb_refl _)) as (y & Hy & Hin & Hi%Z.eqb_eq).
  exists y. split; [done|]. apply list_elem_of_fmap. exists y. by rewrite Hi.
Qed.

(** The delivery is executed; and nothing fails at all. *)
Definition executes (f : Faults) : bool := negb (f_mark f || f_delivery f || f_webhook f || f_body f).
Definition clean (f : Faults) : bool := executes f && negb (f_finish f).

(** A delivery that has a row and a webhook is executed unless a statement before fails; it comes to an
    end unless one fails at all; and no other delivery is touched. *)
Lemma process_settles f s ran i d :
  (i, d) ∈ rows s → referenced s →
  ∃ r s', process f (s, ran) i = (r, (s', ran ++ (if executes f then [i] else []))) ∧
    rows s' = rows s ∧ webhooks s' = webhooks s ∧
    ∀ v, v ∈ view <$> deliveries s' → (v.1.1 = i ∧ (clean f = true → settled v.2)) ∨ (v.1.1 ≠ i ∧ v ∈ view <$> deliveries s).
Proof.
  intros Hd Href. unfold process_delivery, executes, clean, executes, failing.
  destruct f as [f1 f2 f3 f4 f5]. cbn [f_mark f_delivery f_webhook f_body f_finish].
  set (s1 := update_delivery_status s i Processing (start started)).
  assert (Hrows : rows s1 = rows s) by apply rows_status.
  assert (Hsame : ∀ v, v ∈ view <$> deliveries s → (v.1.1 = i ∧ (false = true → settled v.2)) ∨ (v.1.1 ≠ i ∧ v ∈ view <$> deliveries s)).
  { intros v Hv. destruct (decide (v.1.1 = i)); [by left|by right]. }
  assert (Hmark : ∀ v, v ∈ view <$> deliveries s1 → (v.1.1 = i ∧ (false = true → settled v.2)) ∨ (v.1.1 ≠ i ∧ v ∈ view <$> deliveries s)).
  { intros v [[? _]|?]%view_status; [by left|by right]. }
  assert (Hend : ∀ st u, settled st →
    let s' := update_delivery_status s1 i st u in rows s' = rows s ∧ webhooks s' = webhooks s ∧
    ∀ v, v ∈ view <$> deliveries s' → (v.1.1 = i ∧ (true = true → settled v.2)) ∨ (v.1.1 ≠ i ∧ v ∈ view <$> deliveries s)).
  { intros st u Hst s'. split_and!; [by unfold s'; rewrite rows_status|done|].
    intros v [[Hi Hv]|[Hne Hv]]%view_status; [left; split; [done|by rewrite Hv]|right; split; [done|]].
    by apply view_status in Hv as [[? _]|[_ ?]]. }
  destruct f1; [simpl; rewrite app_nil_r; eauto 10|]. destruct f2; [simpl; rewrite app_nil_r; eauto 10|].
  destruct (get_delivery_row s1 i d) as (row & -> & Hrow); [by rewrite Hrows|].
  rewrite Hrows in Hrow. destruct (Href _ Hrow) as (w & Hw). simpl in Hw.
  cbn [ok_or]. cbv zeta. destruct f3; [simpl; rewrite app_nil_r; eauto 10|].
  change (get_webhook s1) with (get_webhook s). rewrite Hw. cbn [ok_or].
  destruct f4; [simpl; rewrite app_nil_r; eauto 10|]. cbn [orb negb andb].
  assert (Hsettle : ∀ st u, settled st → ∃ r s',
    match (if f5 then Err (lit "database error") else Ok (E := str) (update_delivery_status s1 i st u)) with
    | Ok s0 => (Ok tt, (s0, ran ++ [i])) | Err e => (Err e, (s1, ran ++ [i])) end = (r, (s', ran ++ [i])) ∧
    rows s' = rows s ∧ webhooks s' = webhooks s ∧
    ∀ v, v ∈ view <$> deliveries s' →
      (v.1.1 = i ∧ (negb f5 = true → settled v.2)) ∨ (v.1.1 ≠ i ∧ v ∈ view <$> deliveries s)).
  { intros st u Hst. destruct f5; [by eauto 10|]. destruct (Hend st u Hst) as (? & ? & ?). eauto 10. }
  destruct (deliver_only w).
  - destruct (deliver_direct deliver_fn w (delivery row)) as [req [[]|e]]; apply Hsettle; first [by left|by right].
  - destruct (execute_fn _) as [pr|e]; apply Hsettle; first [by left|by right].
Qed.

Lemma process_all_snoc ids i : ∀ faults st,
  process_ids faults st (ids ++ [i]) = (process (faults (length ids)) (process_ids faults st ids) i).2.
Proof. induction ids as [|j ids IH]; intros faults st; [done|]. cbn [app process_all length]. by rewrite IH. Qed.
Lemma process_all_app ids1 ids2 : ∀ faults st,
  process_ids faults st (ids1 ++ ids2) = process_ids (λ n, faults (length ids1 + n)%nat) (process_ids faults st ids1) ids2.
Proof. induction ids1 as [|j ids IH]; intros faults st; [done|]. cbn [app process_all length]. by rewrite IH. Qed.

(** What of a list was executed, by the faults of each position. *)
Fixpoint executed (faults : nat → Faults) (ids : list Z) : list Z :=
  match ids with
  | [] => []
  | i :: ids => (if executes (faults 0%nat) then [i] else []) ++ executed (λ n, faults (S n)) ids
  end.
Lemma executed_snoc ids i : ∀ faults,
  executed faults (ids ++ [i]) = executed faults ids ++ (if executes (faults (length ids)) then [i] else []).
Proof. induction ids as [|j ids IH]; intros faults; simpl; [by rewrite app_nil_r|]. by rewrite IH, app_assoc. Qed.
Lemma executed_all faults ids : (∀ n, executes (faults n) = true) → executed faults ids = ids.
Proof. revert faults. induction ids as [|i ids IH]; intros faults Hf; [done|]. simpl. rewrite Hf, IH by done. done. Qed.

(** The last time the delivery was taken, at [n], something failed. *)
Definition failed_last (faults : nat → Faults) (ids : list Z) (i : Z) : Prop :=
  ∃ n, ids !! n = Some i ∧ clean (faults n) = false ∧ ∀ m, (n < m)%nat → ids !! m ≠ Some i.

Lemma process_all_settles faults ids : ∀ s s' ran,
  (∀ i, i ∈ ids → ∃ d, (i, d) ∈ rows s) → referenced s → process_ids faults (s, []) ids = (s', ran) →
  ran = executed faults ids ∧ rows s' = rows s ∧ webhooks s' = webhooks s ∧
  ∀ v, v ∈ view <$> deliveries s' →
    (v.1.1 ∈ ids ∧ (settled v.2 ∨ failed_last faults ids v.1.1)) ∨ (v.1.1 ∉ ids ∧ v ∈ view <$> deliveries s).
Proof.
  induction ids as [|i ids IH] using rev_ind; intros s s' ran Hin Href Hp.
  - injection Hp as <- <-. split_and!; [done..|]. intros v Hv. right. split; [by intros ?%elem_of_nil|done].
  - rewrite process_all_snoc in Hp. destruct (process_ids faults (s, []) ids) as [s1 ran1] eqn:E.
    destruct (IH s s1 ran1) as (-> & Hr & Hw & Hv); [intros j Hj; apply Hin, elem_of_app; by left|done|done|].
    destruct (Hin i) as (d & Hd); [apply elem_of_app; right; by apply list_elem_of_singleton|].
    assert (Href1 : referenced s1).
    { intros x Hx. rewrite Hr in Hx. destruct (Href x Hx) as (w & ?). exists w. unfold get_webhook in *. by rewrite Hw. }
    destruct (process_settles (faults (length ids)) s1 (executed faults ids) i d) as (r & s2 & Hone & Hr1 & Hw1 & Hv1);
      [by rewrite Hr|done|]. rewrite Hone in Hp. injection Hp as <- <-.
    split_and!; [by rewrite executed_snoc|congruence|congruence|]. intros v Hv'. destruct (Hv1 v Hv') as [[Hi Hc]|[Hne Hv2]].
    + left. split; [apply elem_of_app; right; rewrite Hi; by apply list_elem_of_singleton|].
      destruct (clean (faults (length ids))) eqn:Ec; [left; by apply Hc|right]. exists (length ids).
      split_and!; [by rewrite lookup_app_r, Nat.sub_diag, Hi by lia|done|].
      intros m Hm. rewrite lookup_ge_None_2; [done|]. rewrite length_app. simpl. lia.
    + destruct (Hv v Hv2) as [[Hj [Hs|(n & Hn & Hc & Hlast)]]|[Hj Hs]].
      * left. split; [apply elem_of_app; by left|by left].
      * left. split; [apply elem_of_app; by left|right]. exists n.
        split_and!; [by apply lookup_app_l_Some|done|]. intros m Hm Hl. apply lookup_app_Some in Hl as [Hl|[_ Hl]]; [by eapply Hlast|].
        apply list_lookup_singleton_Some in Hl as [_ Hl]. congruence.
      * right. split; [|done]. intros [?|?%list_elem_of_singleton]%elem_of_app; [done|congruence].
Qed.

(** A delivery that is not done. *)
Definition unfinished (d : WebhookDelivery) : Prop :=
  d_status d = Received ∨ d_status d = Queued ∨ d_status d = Processing.
Global Instance unfinished_dec d : Decision (unfinished d) := _.
Definition earlier (a b : WebhookDelivery) : Prop := str_le (received_at (delivery a)) (received_at (delivery b)) = true.

Global Instance by_received_total : Total by_received.
Proof. intros a b. unfold by_received. apply total. apply _. Qed.
Global Instance by_received_trans : Transitive by_received.
Proof. intros a b c. unfold by_received. apply str_leP_trans. Qed.

Lemma unprocessed_filter l : List.filter unprocessed l = filter unfinished l.
Proof.
  induction l as [|d l IH]; [done|]. cbn [List.filter]. rewrite IH.
  assert (Hd : unprocessed d = bool_decide (unfinished d)).
  { unfold unprocessed, unfinished. apply bool_decide_ext. set_solver. }
  rewrite Hd, filter_cons. by case_bool_decide; case_decide.
Qed.

(** What the query lists: the unfinished deliveries, the earliest first. *)
Lemma unprocessed_listed s :
  ∃ ds, list_unprocessed_deliveries s = did <$> ds ∧ ds ≡ₚ filter unfinished (deliveries s) ∧ StronglySorted earlier ds.
Proof.
  exists (merge_sort by_received (List.filter unprocessed (deliveries s))). split_and!; [done| |].
  - rewrite (merge_sort_Permutation by_received). by rewrite unprocessed_filter.
  - apply (StronglySorted_merge_sort by_received).
Qed.

(** C30. Nothing that was accepted stays undone.  Whatever a crash, or faults of earlier runs, left in
    the table: the worker takes every unfinished delivery, received, queued or in processing, once and
    in order of arrival, and then what the channel brings.  It executes each of them unless a statement
    fails before; and a delivery that is unfinished afterwards is so because a statement failed the last
    time it was taken, or because the unfinished ones could not be listed and the channel did not bring
    it.  So a run without faults executes all of them and leaves none unfinished, whether or not
    executions failed; and as every run leaves the table fit for the next one, this also settles what a
    run with faults left.  Nothing else writes to the table during the run: what is accepted meanwhile
    has its row from the start, and its number comes through the channel. *)
Theorem recovery_settles query_fault faults s received s' ran :
  referenced s → (∀ i, i ∈ received → ∃ d, (i, d) ∈ rows s) →
  work query_fault faults s received = (s', ran) →
  referenced s' ∧ rows s' = rows s ∧
  ∃ ds, ds ≡ₚ filter unfinished (deliveries s) ∧ StronglySorted earlier ds ∧
    let taken := (if query_fault then [] else did <$> ds) ++ received in
    ran = executed faults taken ∧
    (∀ d, d ∈ deliveries s' → unfinished d →
       failed_last faults taken (did d) ∨ (query_fault = true ∧ did d ∉ received)) ∧
    (query_fault = false → (∀ n, clean (faults n) = true) →
       ran = (did <$> ds) ++ received ∧ ∀ d, d ∈ deliveries s' → ¬ unfinished d).
Proof.
  intros Href Hrec Hrun. destruct (unprocessed_listed s) as (ds & Hl & Hp & Hs).
  set (taken := (if query_fault then [] else did <$> ds) ++ received).
  assert (Hall : process_ids faults (s, []) taken = (s', ran)).
  { unfold run_worker, failing in Hrun. unfold taken. destruct query_fault; [done|]. by rewrite process_all_app, <- Hl. }
  destruct (process_all_settles faults taken s s' ran) as (Hran & Hr & Hw & Hv); [|done|done|].
  { intros i [Hi|Hi]%elem_of_app; [|by apply Hrec]. destruct query_fault; [by apply elem_of_nil in Hi|].
    apply list_elem_of_fmap in Hi as (d & -> & Hd). rewrite Hp in Hd. apply list_elem_of_filter in Hd as [_ Hd].
    exists (delivery d). apply list_elem_of_fmap. by exists d. }
  assert (Hund : ∀ d, d ∈ deliveries s' → unfinished d → failed_last faults taken (did d) ∨ (query_fault = true ∧ did d ∉ received)).
  { intros d Hd Hu. destruct (Hv (view d)) as [[_ [Hset|Hf]]|[Hn (d0 & Hd0 & Hin)%list_elem_of_fmap]];
      [by apply list_elem_of_fmap; eauto| |by left|].
    - simpl in Hset. exfalso. unfold unfinished in Hu. destruct Hset as [E|E]; rewrite E in Hu; naive_solver.
    - simpl in Hn. injection Hd0 as Hi _ Hst. unfold taken in Hn. rewrite elem_of_app in Hn. destruct query_fault; [right; split; [done|naive_solver]|].
      exfalso. apply Hn. left. apply list_elem_of_fmap. exists d0. split; [done|]. rewrite Hp. apply list_elem_of_filter.
      split; [|done]. unfold unfinished in *. by rewrite <- Hst. }
  split; [|split; [done|]].
  - intros x Hx. rewrite Hr in Hx. destruct (Href x Hx) as (w & ?). exists w. unfold get_webhook in *. by rewrite Hw.
  - exists ds. split; [done|]. split; [done|]. split; [done|]. split; [done|]. intros -> Hclean. split.
    + rewrite Hran. apply executed_all. intros n. specialize (Hclean n). unfold clean in Hclean. by apply andb_true_iff in Hclean as [? _].
    + intros d Hd Hu. destruct (Hund d Hd Hu) as [(n & _ & Hc & _)|[? _]]; [|done]. by rewrite Hclean in Hc.
Qed.
End recovery.

(** ** Templates *)

Section templates.
Context `{SerdeJson, WebhookKit, FloatFormat}.

(** A template as text ([inl]) and closed placeholders ([inr]). *)
Definition template_text (segs : list (str + str)) : str :=
  flat_map (λ s, match s with inl x => x | inr k => lit "{" ++ k ++ lit "}" end) segs.
Definition rendered (payload : json) (segs : list (str + str)) : str :=
  flat_map (λ s, match s with inl x => x | inr k => render_placeholder payload k end) segs.

Lemma render_go_segments s : ∀ key, (∀ k, key = Some k → ch "}" ∉ k) →
  ∃ segs, match key with Some k => lit "{" ++ k | None => [] end ++ s = template_text segs ∧
    (∀ k, inr k ∈ segs → ch "}" ∉ k) ∧ ∀ payload, render_go payload key s = rendered payload segs.
Proof.
  induction s as [|c s IH]; intros key Hkey.
  - destruct key as [k|].
    + exists [inl (lit "{" ++ k)]. split_and!; [by simpl; rewrite !app_nil_r| |by intros; simpl; rewrite app_nil_r].
      by intros ? [?|?%elem_of_nil]%elem_of_cons.
    + exists []. split_and!; [done|by intros ? ?%elem_of_nil|done].
  - destruct key as [k|].
    + destruct (N.eqb_spec c (ch "}")) as [->|Hc].
      * destruct (IH None ltac:(done)) as (segs & Ht & Hk & Hr). exists (inr k :: segs). split_and!.
        -- cbn [template_text flat_map]. fold (template_text segs). rewrite <- Ht. by rewrite <- !app_assoc.
        -- intros k' [[= ->]|Hin]%elem_of_cons; [by apply Hkey|by apply Hk].
        -- intros payload. cbn [render_go rendered flat_map]. rewrite N.eqb_refl, Hr. done.
      * destruct (IH (Some (k ++ [c]))) as (segs & Ht & Hk & Hr).
        { intros k' [= <-] [Hin|Hin%list_elem_of_singleton]%elem_of_app; [by eapply Hkey|congruence]. }
        exists segs. split_and!; [by rewrite <- Ht, <- !app_assoc|done|].
        intros payload. cbn [render_go]. by rewrite (proj2 (N.eqb_neq _ _) Hc).
    + destruct (N.eqb_spec c (ch "{")) as [->|Hc].
      * destruct (IH (Some [])) as (segs & Ht & Hk & Hr); [by intros k' [= <-] ?%elem_of_nil|].
        exists segs. split_and!; [by rewrite <- Ht|done|]. intros payload. cbn [render_go]. by rewrite N.eqb_refl.
      * destruct (IH None ltac:(done)) as (segs & Ht & Hk & Hr). exists (inl [c] :: segs). split_and!.
        -- cbn [template_text flat_map]. fold (template_text segs). by rewrite <- Ht.
        -- intros k' [?|Hin]%elem_of_cons; [done|by apply Hk].
        -- intros payload. cbn [render_go rendered flat_map]. rewrite (proj2 (N.eqb_neq _ _) Hc), Hr. done.
Qed.

(** Rendering substitutes closed placeholders and nothing else: a template is text and
    placeholders, the same for every payload; the text is copied as it is, each placeholder is replaced
    once, and what replaces it is not scanned again. *)
Theorem render_verbatim template :
  ∃ segs, template = template_text segs ∧ (∀ k, inr k ∈ segs → ch "}" ∉ k) ∧
    ∀ payload, render_template template payload = rendered payload segs.
Proof.
  destruct (render_go_segments template None ltac:(done)) as (segs & Ht & Hk & Hr). by exists segs.
Qed.
End templates.

(** * Witnesses *)

Section witnesses.
Definition no_json : SerdeJson := {| from_str _ := Err []; to_string _ := None |}.
Definition toy_kit : WebhookKit := {| sha256 b := b; to_string_pretty _ := None; show_fixed2 _ := [] |}.
Definition toy_hmac : Hmac := {| hmac_sha256 k m := k ++ m |}.
Definition toy_net : NetParse :=
  {| parse_ip_addr s := if str_eqb s "10.0.0.1" then Some (V4 167772161) else None; parse_socket_addr _ := None |}.
Definition toy_ingress : Ingress :=
  {| parse_ipnet _ := None; show_ip _ := "203.0.113.9"; decrypt_webhook_secrets w := Some w |}.
Existing Instances no_json toy_kit toy_format ascii_unicode toy_hmac toy_net toy_ingress.

Definition demo_webhook : Webhook :=
  {| wid := 1; name := "ci"; description := None; enabled := true; public_id := "wh_1"; agent_id := None;
     model := None; system_prompt_suffix := None; tool_policy := None; auth_mode := Bearer;
     auth_config := Some (JObject [(lit "token", JString "s3cret")]); source_profile := "generic";
     source_config := None; event_filter := {| allow := [lit "push"]; deny := [] |};
     session_mode := PerDelivery; named_session_key := None; allowed_cidrs := [lit "10.0.0.1"];
     max_body_bytes := 64; rate_limit_per_minute := 60; deliver_only := true; prompt_template := None;
     deliver_to := Some (lit "slack"); deliver_extra := None; delivery_count := 0; last_delivery_at := None;
     created_at := "t0"; updated_at := "t0" |}.

Definition demo_gateway : Gateway :=
  {| store := {| webhooks := [demo_webhook]; deliveries := []; last_id := 0 |};
     limiter := RateLimit.default; queue := [] |}.

(** Behind a proxy that appends the address it saw; the first address is the client's own claim. *)
Definition demo_request (key : str) (event : option str) : Request :=
  {| path_id := "wh_1"; peer := V4 3405803785;
     req_headers := [(lit "x-forwarded-for", Some (lit "10.0.0.1, 203.0.113.9"));
                     (lit "authorization", Some (lit "Bearer s3cret"));
                     (lit "x-request-id", Some key)] ++
                    match event with Some e => [(lit "x-event-type", Some e)] | None => [] end;
     body := lit "{}"; behind_proxy := true; now_secs := 1000; now_ms := 1000000; now_iso := "t1" |}.

Definition ask (r : Request) (g : Gateway) : option Response :=
  match (ingest r g).1 with Responded resp => Some resp | _ => None end.

(** The allowlist is met by what the client wrote into X-Forwarded-For. *)
Example spoofed_forwarded_for :
  ask (demo_request "k1" (Some (lit "push"))) demo_gateway = Some (Accepted 1 (Some (lit "push")) (lit "t1")).
Proof. reflexivity. Qed.

(** A request without an event type passes a filter that allows one type only. *)
Example no_event_type_passes :
  ask (demo_request "k1" None) demo_gateway = Some (Accepted 1 None (lit "t1")).
Proof. reflexivity. Qed.

(** A redelivery is reported as a duplicate, unless its key is empty: the key is then not looked up, but
    the unique index covers it, and the sender gets 500 for every delivery after the first. *)
Example empty_key_refused :
  ask (demo_request "k1" None) (ingest (demo_request "k1" None) demo_gateway).2 = Some (Deduplicated 1) ∧
  ask (demo_request [] None) (ingest (demo_request [] None) demo_gateway).2 = Some PersistFailed.
Proof. split; reflexivity. Qed.

(** The gateway builds its worker without a delivery callback, so a direct delivery to a channel fails. *)
Example deliver_only_never_delivers execute :
  d_status <$> get_delivery (run_worker execute None [] [] 0 false (λ _, no_faults)
    (store (ingest (demo_request "k1" None) demo_gateway).2) [1]).1 1 = Some Failed.
Proof. reflexivity. Qed.

Lemma accepted_iff_witness :
  ∃ w, admissible (demo_request "k1" None) demo_gateway w ∧ 1 = last_id (store demo_gateway) + 1.
Proof.
  destruct (ingest (demo_request "k1" None) demo_gateway) as [st g'] eqn:E.
  assert (Hst : st = Responded (Accepted 1 None (lit "t1"))).
  { change st with (st, g').1. rewrite <- E. vm_compute. reflexivity. }
  rewrite Hst in E. apply accepted_iff in E as (w & Ha & Hi & _). exists w. by split.
Defined.

Definition demo_pool (reqs : gmap nat (Request * Stage)) (g : Gateway) : Pool := {| gateway := g; requests := reqs |}.

(** Two different deliveries, one after the other. *)
Definition two_done : Pool :=
  let g1 := (ingest (demo_request "k1" None) demo_gateway).2 in
  let g2 := (ingest (demo_request "k2" None) g1).2 in
  demo_pool (<[1%nat := (demo_request "k2" None, Responded (Accepted 2 None (lit "t1")))]>
             (<[0%nat := (demo_request "k1" None, Responded (Accepted 1 None (lit "t1")))]> ∅)) g2.

Lemma alone_in_pool r faults : ∀ reqs n st g st' g',
  ingest_run r faults st g = (st', g') →
  rtc pool_step (demo_pool (<[n := (r, st)]> reqs) g) (demo_pool (<[n := (r, st')]> reqs) g').
Proof.
  induction faults as [|f faults IH]; intros reqs n st g st' g' Hr; simpl in Hr; [by simplify_eq|].
  destruct (ingest_step r f st g) as [st1 g1] eqn:E. eapply rtc_l; [|by apply (IH reqs n st1 g1)].
  rewrite <- (insert_insert_eq reqs n (r, st1) (r, st)).
  refine (pool_advance (demo_pool (<[n := (r, st)]> reqs) g) n r st f st1 g1 _ E). apply lookup_insert_eq.
Qed.

Lemma two_done_reachable : rtc pool_step (demo_pool ∅ demo_gateway) two_done.
Proof.
  eapply rtc_l; [apply (pool_arrive _ 0%nat (demo_request "k1" None)); done|].
  etransitivity; [apply (alone_in_pool _ (replicate 6 false)); apply surjective_pairing|].
  eapply rtc_l; [apply (pool_arrive _ 1%nat (demo_request "k2" None)); simpl; by rewrite lookup_insert_ne|].
  etransitivity; [apply (alone_in_pool _ (replicate 6 false)); apply surjective_pairing|].
  reflexivity.
Qed.

Lemma demo_indexed s : deliveries s = [] → well_indexed s.
Proof.
  intros E. constructor; unfold rows; rewrite E.
  - by intros x Hx%elem_of_nil.
  - by intros x y Hx%elem_of_nil.
Qed.

Lemma delivered_once_witness :
  (1 : Z) ≠ 2 ∧ ∃ w1 w2,
    (1, new_delivery w1 (demo_request "k1" None)) ∈ rows (store (gateway two_done)) ∧
    (2, new_delivery w2 (demo_request "k2" None)) ∈ rows (store (gateway two_done)) ∧
    ¬ same_delivery (new_delivery w1 (demo_request "k1" None)) (new_delivery w2 (demo_request "k2" None)).
Proof.
  exact (delivered_once (demo_pool ∅ demo_gateway) two_done
    0%nat (demo_request "k1" None) 1 None (lit "t1") 1%nat (demo_request "k2" None) 2 None (lit "t1")
    (demo_indexed (store demo_gateway) eq_refl) eq_refl two_done_reachable eq_refl eq_refl ltac:(discriminate)).
Defined.

Definition down : ExecuteRequest → result ProcessResult str := λ _, Err (lit "down").

Definition one_stored : WebhookStore := store (ingest (demo_request "k1" None) demo_gateway).2.
Lemma one_referenced : referenced one_stored.
Proof. intros x Hx. apply list_elem_of_singleton in Hx as ->. by exists (count_delivery 1 (lit "t1") demo_webhook). Qed.

(** A delivery that is accepted before the worker lists what is unfinished, and is in the channel as
    well, is executed twice. *)
Example accepted_at_start_runs_twice :
  (run_worker down None [] [] 0 false (λ _, no_faults) one_stored [1]).2 = [1; 1].
Proof. vm_compute. reflexivity. Qed.

(** When its end cannot be written a delivery stays in processing, although it was executed; the next run
    executes it again. *)
Definition end_fails : Faults := {| f_mark := false; f_delivery := false; f_webhook := false; f_body := false; f_finish := true |}.
Example interrupted_runs_again :
  let first := run_worker down None [] [] 0 false (λ _, end_fails) one_stored [] in
  first.2 = [1] ∧ d_status <$> get_delivery first.1 1 = Some Processing ∧
  (run_worker down None [] [] 0 false (λ _, no_faults) first.1 []).2 = [1].
Proof. split_and!; vm_compute; reflexivity. Qed.

Lemma recovery_settles_witness :
  let r := run_worker down None [] [] 0 false (λ _, no_faults) one_stored [] in
  r.2 = [1] ∧ ∀ d, d ∈ deliveries r.1 → ¬ unfinished d.
Proof.
  cbv zeta. split; [vm_compute; reflexivity|].
  destruct (recovery_settles down None [] [] 0 false (λ _, no_faults) one_stored [] _ _ one_referenced
    ltac:(by intros i ?%elem_of_nil) (surjective_pairing _)) as (_ & _ & ds & _ & _ & _ & _ & Hok).
  exact (proj2 (Hok eq_refl (λ _, eq_refl))).
Defined.
End witnesses.
