(* ===== verification/FairQueue.v ===== *)
(** The account-fair work queue for inbound channel callbacks.

    Models [crates/channels/src/fair_queue.rs]: the queue operations as
    functions, admission, and the supervisor with its workers as a step
    relation whose interleavings are arbitrary.  Admission ([admit_job]) holds the lock from its
    first look at the queue to its end and so is one step; the moment it reads
    the cancellation flag and the outcome of [try_lock] are left open.  A
    semaphore is its number of available permits. *)
From S2P Require Import Prelude.
Local Open Scope nat_scope.

Record FairQueueConfig := {
  capacity : nat;
  workers : nat;
  per_account_capacity : nat;
}.

Definition FairQueueConfig_new (capacity workers : nat) : FairQueueConfig := {|
  capacity := capacity;
  workers := max workers 1;
  per_account_capacity := max (capacity / max workers 1) 1 |}.

Inductive Admission := JobAdmitted | Rejected.

Section queue.
Context {J : Type} (account_id : J → str).

Record AccountQueue := { jobs : list J; active : bool }.

Record Queues := {
  accounts : gmap str AccountQueue;
  ready : list str;
  account_cap : nat;
}.

Definition Queues_new (cap : nat) : Queues := {| accounts := ∅; ready := []; account_cap := cap |}.

Definition b2n (b : bool) : nat := if b then 1 else 0.

Definition has_capacity (q : Queues) (a : str) : bool :=
  match accounts q !! a with
  | None => true
  | Some acc => length (jobs acc) + b2n (active acc) <? account_cap q
  end.

Definition with_account (q : Queues) (a : str) (acc : AccountQueue) (r : list str) : Queues :=
  {| accounts := <[a := acc]> (accounts q); ready := r; account_cap := account_cap q |}.
Definition without_account (q : Queues) (a : str) (r : list str) : Queues :=
  {| accounts := delete a (accounts q); ready := r; account_cap := account_cap q |}.
Definition with_ready (q : Queues) (r : list str) : Queues :=
  {| accounts := accounts q; ready := r; account_cap := account_cap q |}.

Definition is_nil {A} (l : list A) : bool := negb (is_nonempty l).

Definition try_enqueue (q : Queues) (job : J) : bool * Queues :=
  let a := account_id job in
  if negb (has_capacity q a) then (false, q)
  else
    let acc := unwrap_or {| jobs := []; active := false |} (accounts q !! a) in
    let became_ready := negb (active acc) && is_nil (jobs acc) in
    (true, with_account q a {| jobs := jobs acc ++ [job]; active := active acc |}
             (if became_ready then ready q ++ [a] else ready q)).

Definition pop_back {A} (l : list A) : list A := take (length l - 1) l.

Definition rollback_last (q : Queues) (a : str) : Queues :=
  match accounts q !! a with
  | Some acc =>
      let js := pop_back (jobs acc) in
      if negb (active acc) && is_nil js
      then without_account q a (filter (λ r, r ≠ a) (ready q))
      else with_account q a {| jobs := js; active := active acc |} (ready q)
  | None => q
  end.

(** The loop over [ready], whose entries without work are dropped. *)
Fixpoint take_loop (q : Queues) (r : list str) : option J * Queues :=
  match r with
  | [] => (None, with_ready q [])
  | a :: r' =>
      match accounts q !! a with
      | None => take_loop q r'
      | Some acc =>
          match jobs acc with
          | [] => take_loop q r'
          | job :: js => (Some job, with_account q a {| jobs := js; active := true |} r')
          end
      end
  end.
Definition take_next (q : Queues) : option J * Queues := take_loop q (ready q).

Definition complete (q : Queues) (a : str) : Queues :=
  match accounts q !! a with
  | Some acc =>
      if is_nil (jobs acc) then without_account q a (ready q)
      else with_account q a {| jobs := jobs acc; active := false |} (ready q ++ [a])
  | None => q
  end.

Definition is_empty (q : Queues) : bool := bool_decide (accounts q = ∅).

(** ** The running queue *)

(** What a busy worker is doing: the job in its channel, the job being
    processed, or the account whose completion it is about to send. *)
Inductive phase :=
| Assigned (job : J)
| Processing (job : J)
| Reporting (a : str).

Record FairQueue := {
  queues : Queues;
  permits : nat;                       (** available *)
  cancelled : bool;
  accepting : bool;                    (** the wake channel is open *)
  stopped : bool;                      (** the supervisor left its loop *)
  idle : list nat;
  busy : list (nat * phase);
  completions : list (nat * str);      (** the channel, oldest first *)
  (** the jobs admitted, started and finished so far, in order *)
  admitted : list J;
  started : list J;
  finished : list J;
}.

Definition start (config : FairQueueConfig) : FairQueue := {|
  queues := Queues_new (per_account_capacity config);
  permits := capacity config; cancelled := false; accepting := true; stopped := false;
  idle := seq 0 (workers config); busy := []; completions := [];
  admitted := []; started := []; finished := [] |}.

(** what [admit] meets: the cancellation flag it read, whether the lock was
    contended. *)
Record admit_env := { saw_cancelled : bool; contended : bool }.

Definition admit_job (s : FairQueue) (env : admit_env) (job : J) : Admission * FairQueue :=
  if saw_cancelled env then (Rejected, s)
  else if contended env then (Rejected, s)
  else
    let a := account_id job in
    if negb (has_capacity (queues s) a) then (Rejected, s)
    else match permits s with
    | 0 => (Rejected, s)
    | S permits' =>
        let '(ok, q) := try_enqueue (queues s) job in
        if negb ok then (Rejected, s)
        else if accepting s then
          (JobAdmitted,
           {| queues := q; permits := permits'; cancelled := cancelled s; accepting := accepting s;
              stopped := stopped s; idle := idle s; busy := busy s; completions := completions s;
              admitted := admitted s ++ [job]; started := started s; finished := finished s |})
        else
          (Rejected,
           {| queues := rollback_last q a; permits := permits s; cancelled := cancelled s;
              accepting := accepting s; stopped := stopped s; idle := idle s; busy := busy s;
              completions := completions s; admitted := admitted s; started := started s;
              finished := finished s |})
    end.

(** One turn of the supervisor's dispatch loop: the oldest idle worker gets the
    next job; [None] when there is no idle worker or no job. *)
Definition dispatch (s : FairQueue) : option FairQueue :=
  match idle s with
  | [] => None
  | index :: idle' =>
      match take_next (queues s) with
      | (None, _) => None
      | (Some job, q) =>
          Some {| queues := q; permits := permits s; cancelled := cancelled s;
                  accepting := accepting s; stopped := stopped s; idle := idle';
                  busy := busy s ++ [(index, Assigned job)]; completions := completions s;
                  admitted := admitted s; started := started s ++ [job]; finished := finished s |}
      end
  end.

Definition with_busy (s : FairQueue) b : FairQueue :=
  {| queues := queues s; permits := permits s; cancelled := cancelled s; accepting := accepting s;
     stopped := stopped s; idle := idle s; busy := b; completions := completions s;
     admitted := admitted s; started := started s; finished := finished s |}.

(** A worker ends a job (also by a panic of the job): the permit is returned. *)
Definition finish (s : FairQueue) b (job : J) : FairQueue :=
  {| queues := queues s; permits := S (permits s); cancelled := cancelled s;
     accepting := accepting s; stopped := stopped s; idle := idle s; busy := b;
     completions := completions s; admitted := admitted s; started := started s;
     finished := finished s ++ [job] |}.

Definition send_completion (s : FairQueue) b (index : nat) (a : str) : FairQueue :=
  {| queues := queues s; permits := permits s; cancelled := cancelled s; accepting := accepting s;
     stopped := stopped s; idle := idle s; busy := b;
     completions := completions s ++ [(index, a)];
     admitted := admitted s; started := started s; finished := finished s |}.

(** The [completions.recv()] branch. *)
Definition receive_completion (s : FairQueue) : option FairQueue :=
  match completions s with
  | [] => None
  | (index, a) :: cs =>
      Some {| queues := complete (queues s) a; permits := permits s; cancelled := cancelled s;
              accepting := accepting s; stopped := stopped s; idle := idle s ++ [index];
              busy := busy s; completions := cs; admitted := admitted s; started := started s;
              finished := finished s |}
  end.

Definition with_flags (s : FairQueue) c acc st : FairQueue :=
  {| queues := queues s; permits := permits s; cancelled := c; accepting := acc;
     stopped := st; idle := idle s; busy := busy s; completions := completions s;
     admitted := admitted s; started := started s; finished := finished s |}.

Inductive step : FairQueue → FairQueue → Prop :=
| step_admit s env job :
    (saw_cancelled env = true → cancelled s = true) →
    step s (admit_job s env job).2
| step_cancel s : step s (with_flags s true (accepting s) (stopped s))
| step_stop_accepting s :
    cancelled s = true → step s (with_flags s true false (stopped s))
| step_dispatch s s' : stopped s = false → dispatch s = Some s' → step s s'
| step_receive s s' : stopped s = false → receive_completion s = Some s' → step s s'
| step_exit s :
    accepting s = false → is_empty (queues s) = true →
    step s (with_flags s (cancelled s) (accepting s) true)
| step_work s b1 b2 index job :
    busy s = b1 ++ (index, Assigned job) :: b2 →
    step s (with_busy s (b1 ++ (index, Processing job) :: b2))
| step_finish s b1 b2 index job :
    busy s = b1 ++ (index, Processing job) :: b2 →
    step s (finish s (b1 ++ (index, Reporting (account_id job)) :: b2) job)
| step_report s b1 b2 index a :
    busy s = b1 ++ (index, Reporting a) :: b2 →
    step s (send_completion s (b1 ++ b2) index a).

Inductive reachable (config : FairQueueConfig) : FairQueue → Prop :=
| reachable_start : reachable config (start config)
| reachable_step s s' : reachable config s → step s s' → reachable config s'.

(** * Facts *)

(** ** The queue invariant *)

Record queues_ok (q : Queues) : Prop := {
  ok_nodup : NoDup (ready q);
  ok_ready a : a ∈ ready q ↔ ∃ acc, accounts q !! a = Some acc ∧ active acc = false;
  ok_account a acc : accounts q !! a = Some acc →
    (active acc = false → jobs acc ≠ []) ∧
    length (jobs acc) + b2n (active acc) ≤ max (account_cap q) 1 ∧
    Forall (λ j, account_id j = a) (jobs acc);
}.

Definition jobs_of (q : Queues) (a : str) : list J :=
  match accounts q !! a with Some acc => jobs acc | None => [] end.
Definition active_in (q : Queues) (a : str) : Prop :=
  ∃ acc, accounts q !! a = Some acc ∧ active acc = true.

Lemma Queues_new_ok cap : queues_ok (Queues_new cap).
Proof.
  split; simpl; [constructor| |].
  - intros a. rewrite elem_of_nil, lookup_empty. naive_solver.
  - intros a acc. by rewrite lookup_empty.
Qed.

Lemma is_nil_true {A} (l : list A) : is_nil l = true ↔ l = [].
Proof. by destruct l. Qed.
Lemma is_nil_false {A} (l : list A) : is_nil l = false ↔ l ≠ [].
Proof. by destruct l. Qed.

Lemma jobs_of_insert q a acc r b :
  jobs_of (with_account q a acc r) b = if decide (a = b) then jobs acc else jobs_of q b.
Proof.
  unfold jobs_of; simpl. destruct (decide (a = b)) as [->|].
  - by rewrite lookup_insert_eq.
  - by rewrite lookup_insert_ne.
Qed.
Lemma active_insert q a acc r b :
  active_in (with_account q a acc r) b ↔ if decide (a = b) then active acc = true else active_in q b.
Proof.
  unfold active_in; simpl. destruct (decide (a = b)) as [->|].
  - rewrite lookup_insert_eq. naive_solver.
  - by rewrite lookup_insert_ne.
Qed.
Lemma jobs_of_delete q a r b :
  jobs_of (without_account q a r) b = if decide (a = b) then [] else jobs_of q b.
Proof.
  unfold jobs_of; simpl. destruct (decide (a = b)) as [->|].
  - by rewrite lookup_delete_eq.
  - by rewrite lookup_delete_ne.
Qed.
Lemma active_delete q a r b :
  active_in (without_account q a r) b ↔ a ≠ b ∧ active_in q b.
Proof.
  unfold active_in; simpl. destruct (decide (a = b)) as [->|].
  - rewrite lookup_delete_eq. naive_solver.
  - rewrite lookup_delete_ne by done. naive_solver.
Qed.

(** An inactive account with work is in [ready], once. *)
Lemma with_account_ok q a acc r :
  queues_ok q →
  (active acc = false → jobs acc ≠ []) →
  length (jobs acc) + b2n (active acc) ≤ max (account_cap q) 1 →
  Forall (λ j, account_id j = a) (jobs acc) →
  NoDup r →
  (∀ b, b ∈ r ↔ if decide (a = b) then active acc = false else b ∈ ready q) →
  queues_ok (with_account q a acc r).
Proof.
  intros [_ Hr Ha] ? ? ? Hnd Hrb. split; simpl; [done| |].
  - intros b. rewrite Hrb. destruct (decide (a = b)) as [->|].
    + rewrite lookup_insert_eq. naive_solver.
    + rewrite lookup_insert_ne by done. apply Hr.
  - intros b acc'. destruct (decide (a = b)) as [<-|].
    + rewrite lookup_insert_eq. by intros [= <-].
    + rewrite lookup_insert_ne by done. apply Ha.
Qed.

Lemma without_account_ok q a r :
  queues_ok q → NoDup r → (∀ b, b ∈ r ↔ a ≠ b ∧ b ∈ ready q) →
  queues_ok (without_account q a r).
Proof.
  intros [_ Hr Ha] Hnd Hrb. split; simpl; [done| |].
  - intros b. rewrite Hrb. destruct (decide (a = b)) as [->|].
    + rewrite lookup_delete_eq. naive_solver.
    + rewrite lookup_delete_ne, Hr by done. naive_solver.
  - intros b acc'. rewrite lookup_delete_Some. intros [_ ?]. by apply Ha.
Qed.

Lemma NoDup_snoc {A} (l : list A) x : NoDup l → x ∉ l → NoDup (l ++ [x]).
Proof. intros. apply NoDup_app. split; [done|]. split; [set_solver|]. repeat constructor. set_solver. Qed.

Lemma try_enqueue_ok q job ok q' :
  queues_ok q → try_enqueue q job = (ok, q') →
  queues_ok q' ∧ account_cap q' = account_cap q ∧ (∀ a, active_in q' a ↔ active_in q a) ∧
  (∀ a, jobs_of q' a = jobs_of q a ++ (if ok then filter (λ j, account_id j = a) [job] else [])).
Proof.
  intros Hq. unfold try_enqueue. set (a := account_id job).
  destruct (has_capacity q a) eqn:Hcap; simpl; intros [= <- <-];
    [|split; [done|split; [done|split; [done|intros; by rewrite app_nil_r]]]].
  set (acc := unwrap_or _ _). pose proof Hq as [Hnd Hr Ha].
  assert (jobs acc = jobs_of q a) as Hj by (unfold acc, jobs_of; by destruct (accounts q !! a)).
  assert (active acc = true ↔ active_in q a) as Hact.
  { unfold acc, active_in. destruct (accounts q !! a); simpl; naive_solver. }
  assert (length (jobs acc) + b2n (active acc) < max (account_cap q) 1) as Hlt.
  { unfold acc, has_capacity in *. destruct (accounts q !! a); simpl; bools; lia. }
  assert (Forall (λ j, account_id j = a) (jobs acc)) as Hacc.
  { unfold acc. destruct (accounts q !! a) eqn:E; simpl; [by apply (Ha a)|constructor]. }
  assert (a ∈ ready q ↔ active acc = false ∧ jobs acc ≠ []) as Hin.
  { rewrite Hr. unfold acc. destruct (accounts q !! a) eqn:E; simpl; [|naive_solver].
    split; [intros (x & [= <-] & Hf); split; [done|]; by apply (Ha a)|naive_solver]. }
  split; [|split; [done|split]].
  - apply with_account_ok; simpl; try done.
    + intros _. by destruct (jobs acc).
    + rewrite length_app; simpl. lia.
    + apply Forall_app. split; [done|]. by repeat constructor.
    + destruct (negb (active acc) && is_nil (jobs acc)) eqn:E; [|done].
      apply NoDup_snoc; [done|]. rewrite Hin. bools. apply is_nil_true in H0. naive_solver.
    + intros b. destruct (decide (a = b)) as [<-|Hne].
      * destruct (negb (active acc) && is_nil (jobs acc)) eqn:E.
        -- bools. set_solver.
        -- rewrite Hin. destruct (active acc); simpl in *; [naive_solver|].
           apply is_nil_false in E. naive_solver.
      * destruct (negb _ && _); set_solver.
  - intros b. rewrite active_insert. simpl. destruct (decide (a = b)) as [<-|]; [done|done].
  - intros b. rewrite jobs_of_insert. simpl. rewrite filter_cons, filter_nil. fold a.
    destruct (decide (a = b)) as [<-|]; [by rewrite Hj|by rewrite app_nil_r].
Qed.

Lemma pop_back_snoc {A} (l : list A) x : pop_back (l ++ [x]) = l.
Proof. unfold pop_back. rewrite length_app; simpl. rewrite Nat.add_sub. apply take_app_length. Qed.

(** Undoing the latest enqueue gives the queue back. *)
Lemma rollback_enqueue q job q' :
  queues_ok q → try_enqueue q job = (true, q') → rollback_last q' (account_id job) = q.
Proof.
  intros Hq. unfold try_enqueue. set (a := account_id job).
  destruct (has_capacity q a); simpl; intros [= <-]. unfold rollback_last; simpl.
  rewrite lookup_insert_eq; simpl. rewrite pop_back_snoc.
  pose proof Hq as [Hnd Hr Ha]. destruct q as [accs rdy cap]; simpl in *.
  destruct (accs !! a) as [acc|] eqn:E; simpl.
  - assert (negb (active acc) && is_nil (jobs acc) = false) as ->.
    { destruct (active acc) eqn:Eact; [done|]. destruct (Ha _ _ E) as [Hne _].
      apply is_nil_false. by apply Hne. }
    unfold with_account; simpl. rewrite insert_insert_eq, insert_id; [done|]. rewrite E. by destruct acc.
  - unfold without_account; simpl. rewrite delete_insert_id by done. f_equal.
    rewrite filter_app, filter_cons, decide_False, filter_nil, app_nil_r by naive_solver.
    apply filter_all. apply Forall_forall. intros b Hb ->. apply Hr in Hb. naive_solver.
Qed.

Lemma take_next_ok q o q' :
  queues_ok q → take_next q = (o, q') →
  queues_ok q' ∧ account_cap q' = account_cap q ∧
  match o with
  | None => ready q = []
  | Some job =>
      ∃ r js, ready q = account_id job :: r ∧ ready q' = r ∧
        ¬ active_in q (account_id job) ∧ jobs_of q (account_id job) = job :: js ∧
        (∀ a, active_in q' a ↔ active_in q a ∨ a = account_id job) ∧
        (∀ a, jobs_of q' a = if decide (account_id job = a) then js else jobs_of q a)
  end.
Proof.
  intros Hq. pose proof Hq as [Hnd Hr Ha]. unfold take_next.
  destruct (ready q) as [|a r] eqn:Er; simpl.
  { intros [= <- <-]. unfold with_ready. rewrite <- Er. by destruct q. }
  destruct (proj1 (Hr a) ltac:(set_solver)) as (acc & E & Eact). rewrite E.
  destruct (Ha _ _ E) as (Hne & Hlen & Hall). destruct (jobs acc) as [|job js] eqn:Ej; [by destruct Hne|].
  intros [= <- <-]. apply Forall_cons in Hall as [Hid Hall]. apply NoDup_cons in Hnd as [Hnin Hnd].
  assert (jobs_of q a = job :: js) as Hj by (unfold jobs_of; by rewrite E).
  split; [|split; [done|]].
  - apply with_account_ok; simpl; try done.
    + simpl in Hlen. rewrite Eact in Hlen. simpl in Hlen. lia.
    + intros b. destruct (decide (a = b)) as [<-|]; [by split|]. rewrite Er. set_solver.
  - exists r, js. rewrite Hid. split; [done|]. split; [done|]. split.
    { intros (acc' & ? & ?). congruence. }
    split; [done|]. split.
    + intros b. rewrite active_insert. simpl. destruct (decide (a = b)); naive_solver.
    + intros b. by rewrite jobs_of_insert.
Qed.

Lemma complete_ok q a :
  queues_ok q → active_in q a →
  queues_ok (complete q a) ∧ account_cap (complete q a) = account_cap q ∧
  (∀ b, active_in (complete q a) b ↔ active_in q b ∧ a ≠ b) ∧
  (∀ b, jobs_of (complete q a) b = jobs_of q b) ∧ (ready (complete q a) = ready q ∨ ready (complete q a) = ready q ++ [a]).
Proof.
  intros Hq (acc & E & Eact). pose proof Hq as [Hnd Hr Ha]. unfold complete. rewrite E.
  destruct (Ha _ _ E) as (_ & Hlen & Hall).
  assert (a ∉ ready q) as Hnin by (rewrite Hr; intros (? & ? & ?); congruence).
  assert (jobs_of q a = jobs acc) as Hj by (unfold jobs_of; by rewrite E).
  destruct (is_nil (jobs acc)) eqn:En.
  - split; [apply without_account_ok; set_solver|]. split; [done|]. split; [|split; [|by left]].
    + intros b. rewrite active_delete. naive_solver.
    + intros b. rewrite jobs_of_delete. destruct (decide (a = b)) as [<-|]; [|done].
      rewrite Hj. apply is_nil_true in En. by rewrite En.
  - apply is_nil_false in En. split; [|split; [done|split; [|split; [|by right]]]].
    + apply with_account_ok; simpl; try done; [lia|by apply NoDup_snoc|].
      intros b. destruct (decide (a = b)) as [<-|]; set_solver.
    + intros b. rewrite active_insert. simpl. destruct (decide (a = b)); naive_solver.
    + intros b. rewrite jobs_of_insert. simpl. by destruct (decide (a = b)) as [<-|].
Qed.

(** ** The invariant of the running queue *)

(** The accounts held by workers and by completions on their way. *)
Definition phase_account (p : phase) : str :=
  match p with Assigned j | Processing j => account_id j | Reporting a => a end.
Definition phase_jobs (p : phase) : list J :=
  match p with Assigned j | Processing j => [j] | Reporting _ => [] end.
Definition busy_accounts (b : list (nat * phase)) : list str := map (λ p, phase_account p.2) b.
Definition busy_jobs (b : list (nat * phase)) : list J := flat_map (λ p, phase_jobs p.2) b.
Definition held (s : FairQueue) : list str :=
  busy_accounts (busy s) ++ map snd (completions s).
(** The jobs workers hold. *)
Definition in_work (s : FairQueue) : list J := busy_jobs (busy s).

Definition of_account (a : str) (l : list J) : list J := filter (λ j, account_id j = a) l.

Record running_ok (s : FairQueue) : Prop := {
  run_queues : queues_ok (queues s);
  run_held : NoDup (held s);
  run_active a : a ∈ held s ↔ active_in (queues s) a;
  run_fifo a : of_account a (admitted s) = of_account a (started s) ++ jobs_of (queues s) a;
  run_work a : of_account a (started s) = of_account a (finished s) ++ of_account a (in_work s);
}.

Lemma of_account_app a l l' : of_account a (l ++ l') = of_account a l ++ of_account a l'.
Proof. apply filter_app. Qed.

Lemma of_account_cons a j l :
  of_account a (j :: l) = if decide (account_id j = a) then j :: of_account a l else of_account a l.
Proof. unfold of_account. by rewrite filter_cons. Qed.


Lemma busy_accounts_app b b' : busy_accounts (b ++ b') = busy_accounts b ++ busy_accounts b'.
Proof. apply map_app. Qed.
Lemma busy_jobs_app b b' : busy_jobs (b ++ b') = busy_jobs b ++ busy_jobs b'.
Proof. apply flat_map_app. Qed.

Lemma busy_jobs_none a b : a ∉ busy_accounts b → of_account a (busy_jobs b) = [].
Proof.
  induction b as [|[i p] b IH]; [done|]. simpl. rewrite not_elem_of_cons. intros [Hne Hnin].
  rewrite of_account_app, IH by done. destruct p; simpl in *; try done;
    unfold of_account; by rewrite filter_cons_False by congruence.
Qed.

Lemma start_ok config : running_ok (start config).
Proof.
  split; simpl; [apply Queues_new_ok|constructor| |done|done].
  intros a. unfold held, active_in; simpl. rewrite elem_of_nil, lookup_empty. naive_solver.
Qed.

(** An offer that is rejected changes nothing; one that is admitted queues the
    job and takes a permit. *)
Lemma admit_spec s env job :
  running_ok s →
  (admit_job s env job = (Rejected, s)) ∨
  ∃ q p, admit_job s env job =
    (JobAdmitted, {| queues := q; permits := p; cancelled := cancelled s; accepting := accepting s;
       stopped := stopped s; idle := idle s; busy := busy s; completions := completions s;
       admitted := admitted s ++ [job]; started := started s; finished := finished s |}) ∧
    permits s = S p ∧ accepting s = true ∧ try_enqueue (queues s) job = (true, q).
Proof.
  intros Hs. unfold admit_job.
  destruct (saw_cancelled env); [by left|]. destruct (contended env); [by left|].
  destruct (has_capacity (queues s) (account_id job)) eqn:Hc; simpl; [|by left].
  destruct (permits s) as [|p] eqn:Hp; [by left|].
  destruct (try_enqueue (queues s) job) as [[] q] eqn:E; simpl; [|by left].
  destruct (accepting s) eqn:Ha; [right; by exists q, p|left].
  rewrite (rollback_enqueue _ _ _ (run_queues _ Hs) E), <- Hp, <- Ha. by destruct s.
Qed.

Lemma held_swap s b1 b2 i p p' :
  phase_account p = phase_account p' → busy s = b1 ++ (i, p) :: b2 →
  held (with_busy s (b1 ++ (i, p') :: b2)) = held s.
Proof. unfold held. simpl. intros Hp ->. rewrite !busy_accounts_app. simpl. by rewrite Hp. Qed.

Lemma busy_jobs_reporting b1 b2 i a :
  busy_jobs (b1 ++ (i, Reporting a) :: b2) = busy_jobs (b1 ++ b2).
Proof. by rewrite !busy_jobs_app. Qed.

(** The job a worker ends is the only one of its account in work. *)
Lemma busy_jobs_finish a b1 b2 i job rest :
  NoDup (busy_accounts (b1 ++ (i, Processing job) :: b2) ++ rest) →
  of_account a (busy_jobs (b1 ++ (i, Processing job) :: b2)) =
  of_account a [job] ++ of_account a (busy_jobs (b1 ++ (i, Reporting (account_id job)) :: b2)).
Proof.
  rewrite busy_jobs_reporting, busy_accounts_app, <- app_assoc.
  intros (_ & Hd & Hnd)%NoDup_app. simpl in *. apply NoDup_cons in Hnd as [Hnin _].
  rewrite !busy_jobs_app, !of_account_app. simpl. rewrite !of_account_cons.
  destruct (decide (account_id job = a)) as [<-|]; [|done].
  rewrite !(busy_jobs_none (account_id job)); [done|set_solver|].
  intros Hin. apply (Hd _ Hin). set_solver.
Qed.

Lemma dispatch_ok s s' : running_ok s → dispatch s = Some s' → running_ok s'.
Proof.
  intros [Hq Hh Ha Hf Hw]. unfold dispatch. destruct (idle s) as [|i idle']; [done|].
  destruct (take_next (queues s)) as [[job|] q] eqn:E; [|done]. intros [= <-].
  destruct (take_next_ok _ _ _ Hq E) as (Hq' & _ & r & js & _ & _ & Hnact & Hj & Hact & Hj').
  assert (busy_accounts (busy s ++ [(i, Assigned job)]) ++ map snd (completions s)
          ≡ₚ held s ++ [account_id job]) as Hp.
  { unfold held. rewrite busy_accounts_app. simpl. solve_Permutation. }
  split; unfold held; simpl; [done|..].
  - rewrite Hp. apply NoDup_snoc; [done|]. by rewrite Ha.
  - intros a. by rewrite Hp, elem_of_app, list_elem_of_singleton, Ha, Hact.
  - intros a. rewrite of_account_app, Hj', Hf. rewrite of_account_cons.
    destruct (decide (account_id job = a)) as [<-|]; [|by rewrite app_nil_r].
    by rewrite Hj, <- app_assoc.
  - intros a. unfold in_work. simpl. rewrite busy_jobs_app, !of_account_app, Hw. simpl.
    by rewrite app_assoc.
Qed.

Lemma receive_ok s s' : running_ok s → receive_completion s = Some s' → running_ok s'.
Proof.
  intros [Hq Hh Ha Hf Hw]. unfold receive_completion.
  unfold held in Hh, Ha. destruct (completions s) as [|[i a] cs]; [done|]. intros [= <-]. simpl in *.
  assert (active_in (queues s) a) as Hact by (apply Ha; set_solver).
  destruct (complete_ok _ _ Hq Hact) as (Hq' & _ & Hact' & Hj & _).
  apply NoDup_app in Hh as (Hb1 & Hb2 & [Hb3 Hb4]%NoDup_cons).
  split; unfold held; simpl; try done.
  - apply NoDup_app. split; [done|]. split; [set_solver|done].
  - intros b. rewrite Hact', <- Ha. split.
    + intros Hin. split; [set_solver|]. intros ->. apply elem_of_app in Hin as [Hin|?]; [|done].
      apply (Hb2 _ Hin). set_solver.
    + set_solver.
  - intros b. by rewrite Hj.
Qed.

Lemma worker_step_ok s s' :
  running_ok s → queues s' = queues s → admitted s' = admitted s → started s' = started s →
  held s' ≡ₚ held s →
  (∀ a, of_account a (finished s') ++ of_account a (in_work s') =
        of_account a (finished s) ++ of_account a (in_work s)) →
  running_ok s'.
Proof.
  intros [Hq Hh Ha Hf Hw] Eq Ea Es Hp Hfin.
  split; rewrite ?Eq, ?Ea, ?Es, ?Hp; try done.
  - intros a. by rewrite Hp.
  - intros a. by rewrite Hfin.
Qed.

Lemma step_ok s s' : running_ok s → step s s' → running_ok s'.
Proof.
  intros Hs Hst.
  destruct Hst as [s env job _|s|s _|s s' _ Hd|s s' _ Hr|s _ _|s b1 b2 i job Hb|s b1 b2 i job Hb|s b1 b2 i a Hb];
    [|by apply (worker_step_ok s)|by apply (worker_step_ok s)|by eapply dispatch_ok|by eapply receive_ok
     |by apply (worker_step_ok s)|..].
  - destruct (admit_spec s env job Hs) as [->|(q & p & -> & _ & _ & E)]; [done|]. simpl.
    destruct Hs as [Hq Hh Ha Hf Hw].
    destruct (try_enqueue_ok _ _ _ _ Hq E) as (Hq' & _ & Hact & Hj).
    split; simpl; try done.
    + intros a. by rewrite Hact.
    + intros a. by rewrite of_account_app, Hj, Hf, app_assoc.
  - apply (worker_step_ok s); try done; [by rewrite (held_swap s b1 b2 i (Assigned job))|].
    intros a. unfold in_work. simpl. by rewrite Hb, !busy_jobs_app.
  - pose proof (run_held _ Hs) as Hh. unfold held in Hh. rewrite Hb in Hh.
    apply (worker_step_ok s); try done.
    + unfold held. simpl. by rewrite Hb, !busy_accounts_app.
    + intros a. unfold in_work. simpl. rewrite Hb, (busy_jobs_finish a b1 b2 i job _ Hh).
      by rewrite of_account_app, <- app_assoc.
  - apply (worker_step_ok s); try done.
    + unfold held. simpl. rewrite Hb, !busy_accounts_app, map_app. simpl. solve_Permutation.
    + intros b. unfold in_work. simpl. by rewrite Hb, busy_jobs_reporting.
Qed.

Lemma reachable_ok config s : reachable config s → running_ok s.
Proof. induction 1; [apply start_ok|]. by eapply step_ok. Qed.

(** ** Properties *)

(** C28. In every reachable state no account is held twice, so that no two workers
    serve one account at a time, and for every account the admitted jobs are, in
    order of admission, those finished, then at most one in work, then those queued:
    an account's callbacks are processed one by one in the order they arrived, and
    none is lost or repeated. *)
Theorem account_order (config : FairQueueConfig) (s : FairQueue) :
  reachable config s →
  NoDup (held s) ∧
  ∀ a, of_account a (admitted s) =
         of_account a (finished s) ++ of_account a (in_work s) ++ jobs_of (queues s) a ∧
       length (of_account a (in_work s)) ≤ 1.
Proof.
  intros [Hq Hh Ha Hf Hw]%reachable_ok. split; [done|]. intros a.
  rewrite Hf, Hw, <- app_assoc. split; [done|].
  unfold held in Hh. apply NoDup_app in Hh as [Hh _]. unfold in_work.
  revert Hh. induction (busy s) as [|[i p] b IH]; [simpl; lia|]. simpl. intros [Hnin Hnd]%NoDup_cons.
  rewrite of_account_app, length_app.
  destruct (decide (phase_account p = a)) as [<-|Hne].
  - rewrite (busy_jobs_none (phase_account p) b Hnin). simpl.
    destruct p; simpl; unfold of_account; rewrite ?filter_cons, ?filter_nil; repeat case_decide; simpl; lia.
  - assert (of_account a (phase_jobs p) = []) as ->; [|simpl; auto].
    destruct p; simpl in *; try done; unfold of_account; by rewrite filter_cons_False.
Qed.


(** ** Bounds *)

Record bounds_ok (config : FairQueueConfig) (s : FairQueue) : Prop := {
  bound_permits : permits s + length (admitted s) = capacity config + length (finished s);
  bound_cap : account_cap (queues s) = per_account_capacity config;
  bound_workers : length (idle s) + length (busy s) + length (completions s) = workers config;
  bound_stopped : stopped s = true → accepting s = false ∧ accounts (queues s) = ∅;
}.

Lemma take_next_empty q : accounts q = ∅ → (take_next q).1 = None.
Proof.
  intros Hq. unfold take_next. generalize (ready q) as r.
  induction r as [|a r IH]; simpl; [done|]. by rewrite Hq, lookup_empty.
Qed.

Lemma step_bounds config s s' :
  running_ok s → bounds_ok config s → step s s' → bounds_ok config s'.
Proof.
  intros Hs [Hp Hc Hwk Hst] Hstep.
  destruct Hstep as [s env job _|s|s _|s s' Hns Hd|s s' Hns Hr|s Hacc He|s b1 b2 i job Hb|s b1 b2 i job Hb|s b1 b2 i a Hb].
  - destruct (admit_spec s env job Hs) as [->|(q & p & -> & Hp' & Hacc & E)]; [done|].
    destruct (try_enqueue_ok _ _ _ _ (run_queues _ Hs) E) as (_ & Hcap & _).
    split; simpl; try done; [rewrite length_app; simpl; lia|by rewrite Hcap|].
    intros Hstop. destruct (Hst Hstop). congruence.
  - by split.
  - split; try done. simpl. intros Hx. by destruct (Hst Hx).
  - unfold dispatch in Hd. destruct (idle s) as [|i idle'] eqn:Ei; [done|].
    destruct (take_next (queues s)) as [[job|] q] eqn:E; [|done]. injection Hd as <-.
    destruct (take_next_ok _ _ _ (run_queues _ Hs) E) as (_ & Hcap & _).
    split; simpl in *; rewrite ?length_app; simpl; try congruence; lia.
  - unfold receive_completion in Hr. destruct (completions s) as [|[i a] cs] eqn:Ec; [done|].
    injection Hr as <-. split; simpl in *; rewrite ?length_app; simpl; try congruence; try lia.
    unfold complete. destruct (accounts (queues s) !! a); [|done]. by destruct (is_nil _).
  - split; try done. simpl. intros _. split; [done|]. unfold is_empty in He. by bools.
  - rewrite Hb in Hwk. split; simpl; try done. rewrite !length_app in *. simpl in *. lia.
  - rewrite Hb in Hwk. split; simpl; try done; rewrite !length_app in *; simpl in *; lia.
  - rewrite Hb in Hwk. split; simpl; try done. rewrite !length_app in *. simpl in *. lia.
Qed.

Lemma reachable_bounds config s : reachable config s → bounds_ok config s.
Proof.
  induction 1 as [|s s' Hr IH Hs]; [|eapply step_bounds; eauto using reachable_ok].
  split; simpl; rewrite ?length_seq; try done; lia.
Qed.

(** The jobs admitted and not yet finished never exceed the configured
    capacity, and those of one account never exceed its share (of at least one). *)
Theorem capacity_bounds (config : FairQueueConfig) (s : FairQueue) :
  reachable config s →
  length (admitted s) - length (finished s) ≤ capacity config ∧
  ∀ a, length (jobs_of (queues s) a) + length (of_account a (in_work s)) ≤
       max (per_account_capacity config) 1.
Proof.
  intros Hr. pose proof (reachable_bounds _ _ Hr) as [Hp Hc _ _].
  pose proof (reachable_ok _ _ Hr) as [Hq Hh Ha _ _]. split; [lia|]. intros a. rewrite <- Hc.
  assert (length (of_account a (in_work s)) ≤ if decide (a ∈ held s) then 1 else 0) as Hw.
  { apply NoDup_app in Hh as [Hh _]. revert Hh. unfold held, in_work.
    induction (busy s) as [|[i p] b IH]; simpl; [lia|]. intros [Hnin Hnd]%NoDup_cons.
    rewrite of_account_app, length_app. destruct (decide (phase_account p = a)) as [<-|Hne].
    - rewrite (busy_jobs_none _ b Hnin), decide_True by set_solver.
      destruct p; simpl; rewrite ?of_account_cons; repeat case_decide; simpl; lia.
    - specialize (IH Hnd). replace (length (of_account a (phase_jobs p))) with 0.
      + repeat case_decide; set_solver by lia.
      + destruct p; simpl in *; rewrite ?of_account_cons, ?decide_False; done. }
  unfold jobs_of. destruct (accounts (queues s) !! a) as [acc|] eqn:E.
  - destruct (ok_account _ Hq _ _ E) as (_ & Hlen & _).
    destruct (active acc) eqn:Eact; simpl in *; [case_decide; lia|].
    rewrite decide_False in Hw; [lia|]. rewrite Ha. intros (acc' & ? & ?). congruence.
  - simpl. case_decide; lia.
Qed.

(** ** Fairness *)

Definition started_for (a : str) (s s' : FairQueue) : Prop :=
  ∃ job, account_id job = a ∧ started s' = started s ++ [job].

(** Ready accounts are served round-robin: an account waiting behind [pre] is
    never overtaken; every dispatch takes the account at the front, so it is served
    after at most as many dispatches as there were accounts before it. *)
Theorem ready_fair (config : FairQueueConfig) (s s' : FairQueue) (pre post : list str) (a : str) :
  reachable config s → step s s' → ready (queues s) = pre ++ a :: post →
  (∃ post', ready (queues s') = pre ++ a :: post') ∧ started s' = started s
  ∨ match pre with
    | [] => started_for a s s'
    | b :: pre' => started_for b s s' ∧ ready (queues s') = pre' ++ a :: post
    end.
Proof.
  intros Hr%reachable_ok Hst Hrd. pose proof Hr as [Hq Hh Ha _ _].
  destruct Hst as [s env job _|s|s _|s s' _ Hd|s s' _ Hc|s _ _|s b1 b2 i job Hb|s b1 b2 i job Hb|s b1 b2 i b Hb];
    try (left; simpl; by eauto).
  - left. destruct (admit_spec s env job Hr) as [->|(q & p & -> & _ & _ & E)]; [by eauto|]. simpl.
    split; [|done]. revert E. unfold try_enqueue. destruct (negb (has_capacity _ _)); [done|].
    intros [= <-]. simpl. rewrite Hrd. destruct (_ && _); [|by eauto].
    rewrite <- app_assoc. simpl. by eauto.
  - right. unfold dispatch in Hd. destruct (idle s); [done|].
    destruct (take_next (queues s)) as [[job|] q] eqn:E; [|done]. injection Hd as <-.
    destruct (take_next_ok _ _ _ Hq E) as (_ & _ & r & js & Hr1 & Hr2 & _).
    rewrite Hrd in Hr1. unfold started_for. simpl. rewrite Hr2.
    destruct pre as [|b pre]; simpl in *; injection Hr1 as -> <-; [by exists job|].
    split; [by exists job|done].
  - left. unfold receive_completion in Hc. destruct (completions s) as [|[i b] cs] eqn:Ec; [done|].
    injection Hc as <-. simpl. split; [|done].
    assert (active_in (queues s) b) as Hact by (apply Ha; unfold held; rewrite Ec; set_solver).
    destruct (complete_ok _ _ Hq Hact) as (_ & _ & _ & _ & [->| ->]); rewrite Hrd; [by eauto|].
    rewrite <- app_assoc. simpl. by eauto.
Qed.

(** ** Draining *)

Lemma of_account_length (l m : list J) :
  (∀ a, length (of_account a l) ≤ length (of_account a m)) → length l ≤ length m.
Proof.
  revert m; induction l as [|x l IH]; intros m Hlm; simpl; [lia|].
  assert (∃ y, y ∈ m ∧ account_id y = account_id x) as (y & Hy & Hyx).
  { pose proof (Hlm (account_id x)) as Hx. rewrite of_account_cons, decide_True in Hx by done.
    destruct (of_account (account_id x) m) as [|y l'] eqn:E; simpl in Hx; [lia|]. exists y.
    assert (y ∈ of_account (account_id x) m) as Hy by (rewrite E; set_solver).
    unfold of_account in Hy. apply list_elem_of_filter in Hy as [? ?]. done. }
  apply list_elem_of_split in Hy as (m1 & m2 & ->).
  assert (length l ≤ length (m1 ++ m2)) as Hle; [|rewrite !length_app in *; simpl; lia].
  apply IH. intros a. specialize (Hlm a). revert Hlm.
  rewrite !of_account_app, !of_account_cons, Hyx. destruct (decide _); rewrite !length_app; simpl; lia.
Qed.

Definition phase_left (p : phase) : nat :=
  match p with Assigned _ => 4 | Processing _ => 3 | Reporting _ => 2 end.
(** The steps left to finish what was admitted. *)
Definition work_left (s : FairQueue) : nat :=
  5 * (length (admitted s) - length (started s)) +
  sum_list (map (λ p, phase_left p.2) (busy s)) + length (completions s).

Lemma started_le s : running_ok s → length (started s) ≤ length (admitted s).
Proof. intros Hs. apply of_account_length. intros a. rewrite (run_fifo _ Hs), length_app. lia. Qed.

Lemma worker_progress s :
  running_ok s → busy s ≠ [] → ∃ s', step s s' ∧ work_left s' < work_left s ∧ admitted s' = admitted s.
Proof.
  intros Hs Hne. destruct (busy s) as [|[i [job|job|a]] b] eqn:Eb; [done|..].
  - eexists. split; [by apply (step_work s [] b i job)|]. split; [|done]. unfold work_left; simpl; rewrite Eb; simpl; lia.
  - eexists. split; [by apply (step_finish s [] b i job)|]. split; [|done]. unfold work_left; simpl; rewrite Eb; simpl; lia.
  - eexists. split; [by apply (step_report s [] b i a)|]. split; [|done]. unfold work_left; simpl.
    rewrite Eb, length_app; simpl; lia.
Qed.

(** Shutdown drains the queue: once admission is closed, a supervisor that has
    not stopped can either stop, with every admitted job finished and no worker
    busy, or take a step that brings the end nearer without admitting anything; and
    in every state after it stopped nothing is left to do. *)
Theorem shutdown_drains (config : FairQueueConfig) (s : FairQueue) :
  reachable config s → 0 < workers config →
  (stopped s = true ∨ (accepting s = false ∧ is_empty (queues s) = true) →
     busy s = [] ∧ completions s = [] ∧
     ∀ a, of_account a (finished s) = of_account a (admitted s)) ∧
  (stopped s = false → accepting s = false → is_empty (queues s) = false →
     ∃ s', step s s' ∧ work_left s' < work_left s ∧ admitted s' = admitted s).
Proof.
  intros Hr Hw. pose proof (reachable_ok _ _ Hr) as Hs. pose proof Hs as [Hq Hh Ha Hf Hwk].
  pose proof (reachable_bounds _ _ Hr) as [_ _ Hn Hst]. split.
  - intros Hd. assert (accounts (queues s) = ∅) as He.
    { destruct Hd as [Hd|[_ Hd]]; [by destruct (Hst Hd)|]. unfold is_empty in Hd. by bools. }
    assert (held s = []) as Hnil.
    { destruct (held s) as [|a l] eqn:E; [done|]. assert (a ∈ a :: l) as Hin by set_solver.
      apply Ha in Hin as (acc & Hacc & _). by rewrite He, lookup_empty in Hacc. }
    unfold held, busy_accounts in Hnil. apply app_eq_nil in Hnil as [Hb Hc].
    apply map_eq_nil in Hb, Hc. split; [done|]. split; [done|]. intros a.
    rewrite Hf, Hwk. unfold in_work, jobs_of. rewrite Hb, He, lookup_empty. simpl. by rewrite !app_nil_r.
  - intros Hns Hacc He.
    destruct (busy s) as [|p b] eqn:Eb; [|apply worker_progress; [done|by rewrite Eb]].
    destruct (completions s) as [|[i a] cs] eqn:Ec.
    + destruct (idle s) as [|i idle'] eqn:Ei; [simpl in Hn; lia|].
      destruct (take_next (queues s)) as [o q] eqn:E.
      destruct (take_next_ok _ _ _ Hq E) as (_ & _ & Ho). destruct o as [job|].
      * eexists. split; [apply step_dispatch; [done|]; unfold dispatch; by rewrite Ei, E|].
        destruct Ho as (r & js & _ & _ & _ & Hj & _).
        assert (length (started s ++ [job]) ≤ length (admitted s)) as Hle.
        { apply of_account_length. intros a. rewrite Hf, of_account_app, of_account_cons, !length_app.
          change (of_account a []) with (@nil J).
          destruct (decide (account_id job = a)) as [<-|]; [rewrite Hj|]; simpl; lia. }
        rewrite length_app in Hle. simpl in Hle. split; [|done]. unfold work_left; simpl.
        rewrite Eb, Ec, length_app; simpl; lia.
      * exfalso. unfold is_empty in He. bools. apply He, map_eq. intros a. rewrite lookup_empty.
        destruct (accounts (queues s) !! a) as [acc|] eqn:Eacc; [|done]. exfalso.
        assert (a ∉ ready (queues s)) as Hnin by (rewrite Ho; set_solver).
        assert (active_in (queues s) a) as Hact.
        { exists acc. split; [done|]. destruct (active acc) eqn:Eact; [done|].
          destruct Hnin. apply (ok_ready _ Hq). by exists acc. }
        apply Ha in Hact. unfold held in Hact. rewrite Eb, Ec in Hact. set_solver.
    + eexists. split; [apply step_receive; [done|]; unfold receive_completion; by rewrite Ec|].
      split; [|done]. unfold work_left; simpl; rewrite Eb, Ec; simpl; lia.
Qed.
End queue.

(** * Witnesses *)

Definition demo_account (j : nat * string) : str := j.2.
Definition demo_config : FairQueueConfig := FairQueueConfig_new 4 2.
Definition demo_env : admit_env := {| saw_cancelled := false; contended := false |}.
Definition demo_admitted : FairQueue (J := nat * string) :=
  foldl (λ s j, (admit_job demo_account s demo_env j).2) (start demo_config)
    [(1, "a"); (2, "a"); (3, "b")]%string.

Lemma demo_reachable : reachable demo_account demo_config demo_admitted.
Proof.
  unfold demo_admitted. simpl. repeat (eapply reachable_step; [|by apply step_admit]).
  apply reachable_start.
Qed.

Lemma account_order_witness :
  NoDup (held demo_account demo_admitted) ∧
  length (of_account demo_account "a" (admitted demo_admitted)) = 2.
Proof.
  split; [exact (proj1 (account_order demo_account demo_config demo_admitted demo_reachable))|].
  vm_compute. reflexivity.
Defined.

Lemma capacity_bounds_witness :
  length (jobs_of (queues demo_admitted) "a") = 2 ∧
  length (admitted demo_admitted) - length (finished demo_admitted) ≤ 4.
Proof.
  split; [vm_compute; reflexivity|].
  exact (proj1 (capacity_bounds demo_account demo_config demo_admitted demo_reachable)).
Defined.

Lemma ready_fair_witness :
  ∃ s', dispatch demo_admitted = Some s' ∧
    ((∃ post', ready (queues s') = [lit "a"] ++ lit "b" :: post') ∧ started s' = started demo_admitted
     ∨ started_for demo_account "a" demo_admitted s' ∧ ready (queues s') = [lit "b"]).
Proof.
  destruct (dispatch demo_admitted) as [s'|] eqn:E; [|vm_compute in E; discriminate E].
  exists s'. split; [reflexivity|].
  exact (ready_fair demo_account demo_config demo_admitted s' [lit "a"] [] (lit "b") demo_reachable
    (step_dispatch demo_account demo_admitted s' eq_refl E) eq_refl).
Defined.

Lemma shutdown_drains_witness :
  let s := with_flags demo_admitted true false false in
  ∃ s', step demo_account s s' ∧ work_left s' < work_left s.
Proof.
  cbv zeta. set (s := with_flags demo_admitted true false false).
  assert (reachable demo_account demo_config s) as Hr.
  { eapply reachable_step; [eapply reachable_step; [apply demo_reachable|apply step_cancel]|].
    apply (step_stop_accepting demo_account (with_flags demo_admitted true true false)). reflexivity. }
  destruct (proj2 (shutdown_drains demo_account demo_config s Hr ltac:(vm_compute; lia)) eq_refl eq_refl)
    as (s' & ? & ? & _); [vm_compute; reflexivity|].
  exists s'. split; assumption.
Defined.
