(* ===== verification/DomainFilter.v ===== *)
(** The domain filter of the trusted network and its audit buffer.

    Models [crates/network-filter/src/types.rs] (patterns, audit entries),
    [domain_approval.rs] (the manager with its session allowlists and pending
    requests) and [buffer.rs] (the ring buffer of audit entries and its file).
    Operations of the manager run one at a time under its locks.  The identifier
    of a request is an argument; a oneshot channel is the decision sent on it. *)
From S2P Require Import Prelude.
Local Open Scope nat_scope.

(** ** Patterns *)

Inductive DomainPattern :=
| Exact (d : str)
| WildcardSubdomain (suffix : str)
| Wildcard.

Inductive FilterAction := Allow | Deny | NeedsApproval.
Inductive DomainDecision := Approved | Denied | Timeout.
Inductive ApprovalSource := Config | Session | UserPrompt.

Global Instance FilterAction_eq_dec : EqDecision FilterAction.
Proof. solve_decision. Defined.
Global Instance DomainDecision_eq_dec : EqDecision DomainDecision.
Proof. solve_decision. Defined.

Definition parse `{Unicode} (s : str) : DomainPattern :=
  let s := to_lowercase (trim s) in
  if str_eqb s "*" then Wildcard
  else match strip_prefix "*." s with
       | Some suffix => WildcardSubdomain suffix
       | None => Exact s
       end.

Definition matches `{Unicode} (p : DomainPattern) (domain : str) : bool :=
  let domain := to_lowercase domain in
  match p with
  | Wildcard => true
  | Exact d => str_eqb domain d
  | WildcardSubdomain suffix => str_eqb domain suffix || ends_with (lit "." ++ suffix) domain
  end.

(** ** The approval manager *)

Record PendingDomainRequest := { req_domain : str; req_session : str }.

Record DomainApprovalManager := {
  config_allowlist : list DomainPattern;
  session_allowlist : gmap str (gset str);
  pending : gmap str PendingDomainRequest;
  timeout : Z;
}.

Definition new `{Unicode} (allowed_domains : list str) (timeout : Z) : DomainApprovalManager :=
  {| config_allowlist := map parse allowed_domains; session_allowlist := ∅; pending := ∅;
     timeout := timeout |}.

Definition with_sessions (m : DomainApprovalManager) s : DomainApprovalManager :=
  {| config_allowlist := config_allowlist m; session_allowlist := s; pending := pending m;
     timeout := timeout m |}.
Definition with_pending (m : DomainApprovalManager) p : DomainApprovalManager :=
  {| config_allowlist := config_allowlist m; session_allowlist := session_allowlist m;
     pending := p; timeout := timeout m |}.

Definition session_domains (m : DomainApprovalManager) (session : str) : gset str :=
  unwrap_or ∅ (session_allowlist m !! session).

Definition check_domain_with_source `{Unicode} (m : DomainApprovalManager) (session domain : str)
    : FilterAction * option ApprovalSource :=
  if negb (is_nonempty (config_allowlist m)) then (Allow, Some Config)
  else if existsb (λ p, matches p domain) (config_allowlist m) then (Allow, Some Config)
  else if is_some_and (λ domains, bool_decide (to_lowercase domain ∈ domains))
            (session_allowlist m !! session) then (Allow, Some Session)
  else (NeedsApproval, None).

Definition check_domain `{Unicode} (m : DomainApprovalManager) (session domain : str) : FilterAction :=
  (check_domain_with_source m session domain).1.

Definition create_request (m : DomainApprovalManager) (id session domain : str)
    : DomainApprovalManager :=
  with_pending m (<[id := {| req_domain := domain; req_session := session |}]> (pending m)).

Definition add_trusted_domain `{Unicode} (m : DomainApprovalManager) (session domain : str)
    : DomainApprovalManager :=
  with_sessions m
    (<[session := {[to_lowercase domain]} ∪ session_domains m session]> (session_allowlist m)).

(** The new state and the decision sent to the waiting request, if any. *)
Definition resolve `{Unicode} (m : DomainApprovalManager) (id : str) (decision : DomainDecision)
    : DomainApprovalManager * option DomainDecision :=
  match pending m !! id with
  | Some req =>
      let m := with_pending m (delete id (pending m)) in
      let m := if bool_decide (decision = Approved)
               then add_trusted_domain m (req_session req) (req_domain req) else m in
      (m, Some decision)
  | None => (m, None)
  end.

(** What the wait saw: a decision, a closed channel, or the timeout. *)
Inductive wait_event := Received (d : DomainDecision) | ChannelClosed | Elapsed.

Definition wait_for_decision (e : wait_event) : DomainDecision :=
  match e with Received d => d | ChannelClosed => Denied | Elapsed => Timeout end.

Definition remove_trusted_domain `{Unicode} (m : DomainApprovalManager) (session domain : str)
    : DomainApprovalManager :=
  with_sessions m (alter (λ domains, domains ∖ {[to_lowercase domain]}) session (session_allowlist m)).

Definition pending_requests (m : DomainApprovalManager) : list (str * str * str) :=
  map (λ p, (p.1, req_domain p.2, req_session p.2)) (map_to_list (pending m)).

Definition pattern_text (p : DomainPattern) : str :=
  match p with
  | Exact d => d
  | WildcardSubdomain d => lit "*." ++ d
  | Wildcard => "*"
  end.

Definition push_new (result : list str) (d : str) : list str :=
  if bool_decide (d ∈ result) then result else result ++ [d].

Definition list_trusted_domains (m : DomainApprovalManager) (session : str) : list str :=
  let result := map pattern_text (config_allowlist m) in
  match session_allowlist m !! session with
  | Some domains => foldl push_new result (elements domains)
  | None => result
  end.

(** ** Audit entries *)

Inductive NetworkProtocol := HttpConnect | HttpForward.
Inductive FilterOutcome := OutAllowed | OutDenied | OutApprovedByUser | OutTimeout.

Global Instance NetworkProtocol_eq_dec : EqDecision NetworkProtocol.
Proof. solve_decision. Defined.
Global Instance FilterOutcome_eq_dec : EqDecision FilterOutcome.
Proof. solve_decision. Defined.

Record NetworkAuditEntry := {
  timestamp : Z;
  session : str;
  domain : str;
  port : Z;
  protocol : NetworkProtocol;
  action : FilterOutcome;
  method : option str;
  url : option str;
  status : option Z;
  bytes_sent : Z;
  bytes_received : Z;
  duration_ms : Z;
  error : option str;
  approval_source : option ApprovalSource;
}.

Record NetworkAuditFilter := {
  f_domain : option str;
  f_protocol : option NetworkProtocol;
  f_action : option FilterOutcome;
  f_search : option str;
}.

Definition filter_matches `{Unicode} (f : NetworkAuditFilter) (entry : NetworkAuditEntry) : bool :=
  if is_some_and (λ d, is_nonempty d &&
       negb (contains (to_lowercase d) (to_lowercase (domain entry)))) (f_domain f) then false
  else if is_some_and (λ p, negb (bool_decide (protocol entry = p))) (f_protocol f) then false
  else if is_some_and (λ a, negb (bool_decide (action entry = a))) (f_action f) then false
  else if is_some_and (λ q, is_nonempty q &&
       (let q_lower := to_lowercase q in
        let within s := contains q_lower (to_lowercase s) in
        negb (within (domain entry)) && negb (is_some_and within (url entry)) &&
        negb (is_some_and within (method entry)) && negb (within (session entry)))) (f_search f)
  then false
  else true.

(** ** The buffer *)

Record NetworkAuditBuffer := {
  buf : list NetworkAuditEntry;          (** front first *)
  cap : nat;
  file : option (list str);              (** the lines of the open file *)
  sent : list NetworkAuditEntry;         (** broadcast so far *)
}.

Definition buffer_new (capacity : nat) : NetworkAuditBuffer :=
  {| buf := []; cap := capacity; file := None; sent := [] |}.

(** Opened for appending to the [lines] already there. *)
Definition enable_persistence (b : NetworkAuditBuffer) (lines : list str) : NetworkAuditBuffer :=
  {| buf := buf b; cap := cap b; file := Some lines; sent := sent b |}.

(** One turn of [if len >= limit { pop_front() } push_back(entry)]. *)
Definition ring_push {A} (limit : nat) (ring : list A) (x : A) : list A :=
  (if limit <=? length ring then tail ring else ring) ++ [x].

Section buffer.
Context `{Unicode}.
(** [serde_json::to_string] and [serde_json::from_str] of an entry. *)
Context (to_json : NetworkAuditEntry → option str) (from_json : str → option NetworkAuditEntry).

Definition push (b : NetworkAuditBuffer) (entry : NetworkAuditEntry) : NetworkAuditBuffer := {|
  buf := ring_push (cap b) (buf b) entry;
  cap := cap b;
  file := (λ lines, match to_json entry with Some json => lines ++ [json] | None => lines end) <$> file b;
  sent := sent b ++ [entry] |}.

Definition list_entries (b : NetworkAuditBuffer) (f : NetworkAuditFilter) (limit : nat)
    : list NetworkAuditEntry :=
  reverse (take limit (List.filter (filter_matches f) (reverse (buf b)))).

Fixpoint read_lines (f : NetworkAuditFilter) (limit : nat) (lines : list str)
    (ring : list NetworkAuditEntry) : list NetworkAuditEntry :=
  match lines with
  | [] => ring
  | line :: lines' =>
      if negb (is_nonempty line) then read_lines f limit lines' ring
      else match from_json line with
           | None => read_lines f limit lines' ring
           | Some entry =>
               if negb (filter_matches f entry) then read_lines f limit lines' ring
               else read_lines f limit lines' (ring_push limit ring entry)
           end
  end.

Definition list_from_file (b : NetworkAuditBuffer) (f : NetworkAuditFilter) (limit : nat)
    : list NetworkAuditEntry :=
  match file b with
  | None => []
  | Some lines => read_lines f limit lines []
  end.
End buffer.

Record NetworkAuditStats := {
  total : Z;
  allowed : Z;
  denied : Z;
  by_domain : list (str * Z);
}.

Definition count_entry (st : Z * Z * Z * gmap str Z) (entry : NetworkAuditEntry)
    : Z * Z * Z * gmap str Z :=
  let '(t, al, de, counts) := st in
  let counts := <[domain entry := (unwrap_or 0 (counts !! domain entry) + 1)%Z]> counts in
  match action entry with
  | OutAllowed | OutApprovedByUser => ((t + 1)%Z, (al + 1)%Z, de, counts)
  | OutDenied | OutTimeout => ((t + 1)%Z, al, (de + 1)%Z, counts)
  end.

Definition count_desc (p q : str * Z) : Prop := (q.2 <= p.2)%Z.
Global Instance count_desc_dec : RelDecision count_desc := λ p q, decide (q.2 <= p.2)%Z.

(** Domains with equal counts come in an unspecified order. *)
Definition stats (b : NetworkAuditBuffer) : NetworkAuditStats :=
  let '(t, al, de, counts) := foldl count_entry (0%Z, 0%Z, 0%Z, ∅) (buf b) in
  {| total := t; allowed := al; denied := de;
     by_domain := take 20 (merge_sort count_desc (map_to_list counts)) |}.

(** * Facts *)

(** ** Patterns *)

(** What a configured pattern admits, up to case: [*] everything, [*.suffix]
    the suffix itself and whatever ends with a dot and the suffix, anything else
    exactly itself. *)
Theorem pattern_semantics `{Unicode} (pattern domain : str) :
  let p := to_lowercase (trim pattern) in
  let d := to_lowercase domain in
  matches (parse pattern) domain = true ↔
    p = lit "*"
    ∨ p ≠ lit "*" ∧ (∃ suffix, p = lit "*." ++ suffix ∧
        (d = suffix ∨ ∃ sub, d = sub ++ lit "." ++ suffix))
    ∨ p ≠ lit "*" ∧ (∀ suffix, p ≠ lit "*." ++ suffix) ∧ d = p.
Proof.
  intros p d. unfold parse. fold p. unfold str_eqb at 1.
  case_bool_decide as Hp; [naive_solver|].
  destruct (strip_prefix "*." p) as [suffix|] eqn:E; unfold matches; fold d.
  - apply strip_prefix_Some in E. unfold str_eqb. rewrite orb_true_iff, bool_decide_eq_true, ends_with_spec.
    split.
    + intros Hd. right. left. split; [done|]. by exists suffix.
    + intros [?|[(_ & s & Hs & Hd)|(_ & Hn & _)]]; [done| |by destruct (Hn suffix)].
      rewrite E in Hs. by simplify_list_eq.
  - assert (∀ s, p ≠ lit "*." ++ s) as Hn.
    { intros s Hs. apply strip_prefix_Some in Hs. congruence. }
    unfold str_eqb. rewrite bool_decide_eq_true. naive_solver.
Qed.

(** ** Provenance of session approvals *)

Inductive op :=
| Create (id session domain : str)
| Resolve (id : str) (decision : DomainDecision)
| Add (session domain : str)
| Remove (session domain : str).

Section manager.
Context `{Unicode}.

Definition step (o : op) (m : DomainApprovalManager) : DomainApprovalManager :=
  match o with
  | Create id s d => create_request m id s d
  | Resolve id dec => (resolve m id dec).1
  | Add s d => add_trusted_domain m s d
  | Remove s d => remove_trusted_domain m s d
  end.

(** The operations of a history, latest first. *)
Definition run (allowed : list str) (timeout : Z) (h : list op) : DomainApprovalManager :=
  foldr step (new allowed timeout) h.

(** The open request [id] of a history. *)
Fixpoint requested (h : list op) (id : str) : option (str * str) :=
  match h with
  | [] => None
  | Create i s d :: h' => if bool_decide (i = id) then Some (s, d) else requested h' id
  | Resolve i _ :: h' => if bool_decide (i = id) then None else requested h' id
  | _ :: h' => requested h' id
  end.

Definition same_domain (d d' : str) : bool := str_eqb (to_lowercase d) (to_lowercase d').

(** The domain was granted to the session, by an approved request or explicitly, and the grant was not
    withdrawn since.  Denying a request withdraws nothing. *)
Fixpoint trusted (h : list op) (session domain : str) : bool :=
  match h with
  | [] => false
  | Create _ _ _ :: h' => trusted h' session domain
  | Resolve id dec :: h' =>
      match requested h' id with
      | Some (s, d) =>
          bool_decide (dec = Approved) && str_eqb s session && same_domain d domain
          || trusted h' session domain
      | None => trusted h' session domain
      end
  | Add s d :: h' => str_eqb s session && same_domain d domain || trusted h' session domain
  | Remove s d :: h' =>
      if str_eqb s session && same_domain d domain then false else trusted h' session domain
  end.

(** A grant of [domain] to [session], after the history [h]. *)
Definition grants (h : list op) (o : op) (session domain : str) : Prop :=
  match o with
  | Add s d => s = session ∧ same_domain d domain = true
  | Resolve id Approved => ∃ d, requested h id = Some (session, d) ∧ same_domain d domain = true
  | _ => False
  end.
Definition withdraws (o : op) (session domain : str) : Prop :=
  match o with Remove s d => s = session ∧ same_domain d domain = true | _ => False end.

Lemma trusted_iff h session domain :
  trusted h session domain = true ↔
  ∃ later o before, h = later ++ o :: before ∧ grants before o session domain ∧
    ∀ o', o' ∈ later → ¬ withdraws o' session domain.
Proof.
  induction h as [|o h IH]; [by split; [|intros ([|? ?] & ? & ? & ? & _)]|].
  assert (Hrec : ∀ P : Prop, (grants h o session domain → P) →
    (¬ withdraws o session domain → trusted h session domain = true → P) →
    (∃ later x before, o :: h = later ++ x :: before ∧ grants before x session domain ∧
       ∀ o', o' ∈ later → ¬ withdraws o' session domain) → P).
  { intros P H1 H2 ([|y later] & x & before & [= <- ->] & Hg & Hw); [by apply H1|]. apply H2; [apply Hw; by left|].
    apply IH. exists later, x, before. split_and!; [done|done|]. intros o' Ho. apply Hw. by right. }
  assert (Hnow : grants h o session domain → ∃ later x before, o :: h = later ++ x :: before ∧
    grants before x session domain ∧ ∀ o', o' ∈ later → ¬ withdraws o' session domain).
  { intros Hg. exists [], o, h. split_and!; [done|done|]. intros o' Ho. by apply not_elem_of_nil in Ho. }
  assert (Hold : ¬ withdraws o session domain → trusted h session domain = true →
    ∃ later x before, o :: h = later ++ x :: before ∧ grants before x session domain ∧
      ∀ o', o' ∈ later → ¬ withdraws o' session domain).
  { intros Ho (later & x & before & -> & Hg & Hw)%IH. exists (o :: later), x, before. split_and!; [done|done|].
    intros o' [->|Hin]%elem_of_cons; [done|by apply Hw]. }
  destruct o as [id s d|id dec|s d|s d]; simpl in *; unfold str_eqb in *.
  - split; [intros; apply Hold; [by intros []|done]|apply Hrec; naive_solver].
  - destruct (requested h id) as [[s d]|] eqn:Er.
    + rewrite orb_true_iff, !andb_true_iff, !bool_decide_eq_true. split.
      * intros [[[-> ->] Hd]|Ht]; [apply Hnow; eauto|apply Hold; [by intros []|done]].
      * apply Hrec; [|by right]. destruct dec; intros Hg; try done. destruct Hg as (d' & ? & ?). simplify_eq. auto.
    + split; [intros; apply Hold; [by intros []|done]|]. apply Hrec; [|done]. destruct dec; naive_solver.
  - rewrite orb_true_iff, andb_true_iff, bool_decide_eq_true. split.
    + intros [?|?]; [by apply Hnow|apply Hold; [by intros []|done]].
    + apply Hrec; auto.
  - destruct (bool_decide (s = session)) eqn:E1, (same_domain d domain) eqn:E2; simpl; bools.
    all: split; [try done; intros; apply Hold; naive_solver|]; apply Hrec; naive_solver.
Qed.

Lemma session_domains_add m s d s' x :
  x ∈ session_domains (add_trusted_domain m s d) s' ↔
  (s = s' ∧ x = to_lowercase d) ∨ x ∈ session_domains m s'.
Proof.
  unfold session_domains; simpl. destruct (decide (s = s')) as [->|].
  - rewrite lookup_insert_eq; simpl. unfold session_domains. set_solver.
  - rewrite lookup_insert_ne by done. naive_solver.
Qed.

Lemma session_domains_remove m s d s' x :
  x ∈ session_domains (remove_trusted_domain m s d) s' ↔
  x ∈ session_domains m s' ∧ ¬ (s = s' ∧ x = to_lowercase d).
Proof.
  unfold session_domains; simpl. destruct (decide (s = s')) as [->|].
  - rewrite lookup_alter_eq. destruct (session_allowlist m !! s'); simpl; set_solver.
  - rewrite lookup_alter_ne by done. naive_solver.
Qed.

Lemma run_pending allowed t h id :
  (λ r, (req_session r, req_domain r)) <$> pending (run allowed t h) !! id = requested h id.
Proof.
  induction h as [|o h IH]; simpl; [by rewrite lookup_empty|].
  destruct o as [i s d|i dec|s d|s d]; simpl; [| |done|done].
  - case_bool_decide as Hi; subst; [by rewrite lookup_insert_eq|by rewrite lookup_insert_ne].
  - fold (run allowed t h). unfold resolve. destruct (pending (run allowed t h) !! i) as [r|] eqn:E; simpl.
    + assert (pending (if bool_decide (dec = Approved)
                then add_trusted_domain (with_pending (run allowed t h) (delete i (pending (run allowed t h)))) (req_session r) (req_domain r)
                else with_pending (run allowed t h) (delete i (pending (run allowed t h))))
              = delete i (pending (run allowed t h))) as -> by (by case_bool_decide).
      case_bool_decide as Hi; subst; [by rewrite lookup_delete_eq|by rewrite lookup_delete_ne].
    + case_bool_decide as Hi; subst; [by rewrite E|done].
Qed.

Lemma run_trusted allowed t h s d :
  bool_decide (to_lowercase d ∈ session_domains (run allowed t h) s) = trusted h s d.
Proof.
  apply eq_true_iff_eq. rewrite bool_decide_eq_true. revert s d.
  induction h as [|o h IH]; intros s d.
  { unfold session_domains; simpl. rewrite lookup_empty. simpl. set_solver. }
  assert (∀ s' d', to_lowercase d ∈ session_domains (add_trusted_domain (run allowed t h) s' d') s ↔
            str_eqb s' s && same_domain d' d || trusted h s d = true) as Hadd.
  { intros s' d'. rewrite session_domains_add, IH, orb_true_iff, andb_true_iff.
    unfold same_domain, str_eqb. rewrite !bool_decide_eq_true. naive_solver. }
  simpl. fold (run allowed t h). destruct o as [i s' d'|i dec|s' d'|s' d']; simpl.
  - apply IH.
  - pose proof (run_pending allowed t h i) as Hp. unfold resolve.
    destruct (pending (run allowed t h) !! i) as [r|] eqn:E; simpl in *; rewrite <- Hp; [|apply IH].
    case_bool_decide; simpl; [|apply IH]. apply Hadd.
  - apply Hadd.
  - rewrite session_domains_remove, IH. unfold same_domain, str_eqb.
    destruct (bool_decide (s' = s)) eqn:E1, (bool_decide (to_lowercase d' = to_lowercase d)) eqn:E2; bools;
      simpl; naive_solver.
Qed.

(** C37. A domain is let through exactly when the allowlist of the configuration is
    empty, one of its patterns matches, or the domain was granted to that very session,
    by the approval of a request for it or explicitly, and that grant was not withdrawn
    since; the reported source says which; nothing is denied outright.  Whether another
    request for the same domain was denied, before or after, makes no difference. *)
Theorem check_domain_provenance (allowed : list str) (t : Z) (h : list op) (s d : str) :
  check_domain_with_source (run allowed t h) s d =
    (if negb (is_nonempty allowed) || existsb (λ p, matches (parse p) d) allowed
    then (Allow, Some Config)
    else if trusted h s d then (Allow, Some Session) else (NeedsApproval, None))
  ∧ (trusted h s d = true ↔
     ∃ later o before, h = later ++ o :: before ∧ grants before o s d ∧ ∀ o', o' ∈ later → ¬ withdraws o' s d).
Proof.
  split; [|apply trusted_iff].
  assert (config_allowlist (run allowed t h) = map parse allowed) as Hc.
  { induction h as [|o h IH]; [done|]. simpl. fold (run allowed t h).
    destruct o; simpl; try done. unfold resolve. by cases. }
  unfold check_domain_with_source. rewrite Hc.
  assert (existsb (λ p, matches p d) (map parse allowed) = existsb (λ p, matches (parse p) d) allowed) as ->.
  { clear. induction allowed; simpl; congruence. }
  replace (is_nonempty (map parse allowed)) with (is_nonempty allowed) by (by destruct allowed).
  destruct (is_nonempty allowed); simpl; [|done]. destruct (existsb _ allowed); [done|].
  rewrite <- (run_trusted allowed t). unfold session_domains.
  destruct (session_allowlist _ !! s); simpl; [done|].
  by rewrite bool_decide_false by set_solver.
Qed.
End manager.

(** A request whose wait has timed out stays pending: a resolution that comes
    afterwards still trusts the domain for the session. *)
Example late_resolution_trusts :
  let U := ascii_unicode in
  let h := [Resolve "id" Approved; Create "id" "s" "Evil.com"] in
  pending_requests (run [lit "github.com"] 60 (tail h)) = [(lit "id", lit "Evil.com", lit "s")] ∧
  check_domain (run [lit "github.com"] 60 h) "s" "evil.com" = Allow.
Proof. vm_compute. by split. Qed.

(** Two requests for one domain: denying the one takes nothing from the approval of the other. *)
Example denial_takes_nothing_away :
  let U := ascii_unicode in
  let h := [Resolve "b" Denied; Resolve "a" Approved; Create "b" "s" "evil.com"; Create "a" "s" "evil.com"] in
  check_domain (run [lit "github.com"] 60 h) "s" "evil.com" = Allow.
Proof. vm_compute. reflexivity. Qed.

(** ** The buffer *)

(** The last [n] elements. *)
Definition lastn {A} (n : nat) (l : list A) : list A := drop (length l - n) l.

Lemma lastn_reverse {A} n (l : list A) : reverse (take n (reverse l)) = lastn n l.
Proof.
  unfold lastn. destruct (decide (n ≤ length l)) as [Hn|Hn].
  - rewrite <- (take_drop (length l - n) l) at 1.
    rewrite reverse_app, take_app_length' by (rewrite length_reverse, length_drop; lia).
    by rewrite reverse_involutive.
  - rewrite take_ge, reverse_involutive by (rewrite length_reverse; lia).
    by replace (length l - n) with 0 by lia.
Qed.

Lemma ring_push_lastn {A} limit (l : list A) x :
  1 ≤ limit → ring_push limit (lastn limit l) x = lastn limit (l ++ [x]).
Proof.
  intros Hl. unfold ring_push, lastn. rewrite length_drop, length_app. simpl.
  destruct (Nat.leb_spec limit (length l - (length l - limit))).
  - rewrite drop_app_le by lia. f_equal.
    replace (length l + 1 - limit) with (S (length l - limit)) by lia.
    generalize (length l - limit) as k. clear. intros k. revert l. induction k as [|k IH]; by intros [|y l]; simpl.
  - rewrite drop_app_le by lia. f_equal. replace (length l + 1 - limit) with 0 by lia.
    by replace (length l - limit) with 0 by lia.
Qed.

Lemma ring_pushes {A} limit (l xs : list A) :
  1 ≤ limit → foldl (ring_push limit) (lastn limit l) xs = lastn limit (l ++ xs).
Proof.
  intros Hl. revert l; induction xs as [|x xs IH]; intros l; simpl; [by rewrite app_nil_r|].
  rewrite ring_push_lastn, IH, <- app_assoc by done. done.
Qed.

Section audit.
Context `{Unicode}.
Context (to_json : NetworkAuditEntry → option str) (from_json : str → option NetworkAuditEntry).

(** The entry is written as one non-empty line that reads back as itself. *)
Definition json_ok (e : NetworkAuditEntry) : Prop :=
  ∃ json, to_json e = Some json ∧ json ≠ [] ∧ from_json json = Some e.

Lemma push_all es b :
  foldl (push to_json) b es =
  {| buf := foldl (ring_push (cap b)) (buf b) es; cap := cap b;
     file := (λ lines, lines ++ omap to_json es) <$> file b; sent := sent b ++ es |}.
Proof.
  revert b; induction es as [|e es IH]; intros b; simpl.
  - destruct b as [? ? [] ?]; simpl; by rewrite ?app_nil_r.
  - rewrite IH. simpl. destruct (file b); simpl; [|by rewrite <- app_assoc].
    destruct (to_json e); simpl; by rewrite <- !app_assoc.
Qed.

Lemma read_lines_ok f limit es ring :
  Forall json_ok es →
  read_lines from_json f limit (omap to_json es) ring =
  foldl (ring_push limit) ring (List.filter (filter_matches f) es).
Proof.
  intros Hes. revert ring. induction Hes as [|e es (json & Hj & Hne & Hp) _ IH]; intros ring; simpl; [done|].
  rewrite Hj. simpl. destruct json as [|c json]; [done|]. simpl. rewrite Hp.
  destruct (filter_matches f e); simpl; apply IH.
Qed.

Lemma filter_reverse {A} (f : A → bool) l : List.filter f (reverse l) = reverse (List.filter f l).
Proof.
  induction l as [|x l IH]; [done|]. rewrite reverse_cons, List.filter_app, IH. simpl.
  destruct (f x); [by rewrite reverse_cons|by rewrite app_nil_r].
Qed.

(** The buffer keeps the last [capacity] entries pushed and broadcasts all of
    them; a query gives the last [limit] matching ones in order of arrival, from
    memory among those kept, from the file among all — so that both agree as long as
    the buffer has not overflowed. *)
Theorem audit_log_queries (capacity limit : nat) (f : NetworkAuditFilter) (es : list NetworkAuditEntry) :
  1 ≤ capacity → 1 ≤ limit → Forall json_ok es →
  let b := foldl (push to_json) (enable_persistence (buffer_new capacity) []) es in
  sent b = es ∧ buf b = lastn capacity es ∧
  list_entries b f limit = lastn limit (List.filter (filter_matches f) (lastn capacity es)) ∧
  list_from_file from_json b f limit = lastn limit (List.filter (filter_matches f) es) ∧
  (length es ≤ capacity → list_entries b f limit = list_from_file from_json b f limit).
Proof.
  intros Hc Hl Hes b. subst b. rewrite push_all. simpl.
  assert (foldl (ring_push capacity) [] es = lastn capacity es) as Hb by apply (ring_pushes capacity [] es Hc).
  unfold list_entries, list_from_file. simpl. rewrite Hb, filter_reverse, lastn_reverse, read_lines_ok by done.
  pose proof (ring_pushes limit [] (List.filter (filter_matches f) es) Hl) as Hr.
  change (lastn limit []) with (@nil NetworkAuditEntry) in Hr. rewrite Hr. simpl.
  repeat split. intros Hle. unfold lastn at 2. by replace (length es - capacity) with 0 by lia.
Qed.
End audit.

(** A limit of zero: the query of the file still gives an entry. *)
Example zero_limit_differs (e : NetworkAuditEntry) :
  let U := ascii_unicode in
  let f := {| f_domain := None; f_protocol := None; f_action := None; f_search := None |} in
  let b := push (λ _, Some (lit "x")) (enable_persistence (buffer_new 5) []) e in
  list_entries b f 0 = [] ∧ list_from_file (λ _, Some e) b f 0 = [e].
Proof. by split. Qed.

(** The counters of the statistics add up: every entry kept is counted once, as
    allowed or as denied. *)
Theorem stats_total (b : NetworkAuditBuffer) :
  total (stats b) = Z.of_nat (length (buf b)) ∧ (allowed (stats b) + denied (stats b))%Z = total (stats b).
Proof.
  unfold stats.
  assert (∀ es t al de m, let '(t', al', de', _) := foldl count_entry (t, al, de, m) es in
            (t' = t + Z.of_nat (length es) ∧ al' + de' = al + de + Z.of_nat (length es))%Z) as Hfold.
  { induction es as [|e es IH]; intros t al de m; simpl; [lia|].
    destruct (action e); simpl;
      match goal with |- context [foldl count_entry (?a, ?b, ?c, ?d) es] => specialize (IH a b c d) end;
      destruct (foldl count_entry _ es) as [[[t' al'] de'] m']; lia. }
  specialize (Hfold (buf b) 0%Z 0%Z 0%Z ∅).
  destruct (foldl count_entry _ (buf b)) as [[[t' al'] de'] m']. simpl. lia.
Qed.

(** * Witnesses *)

Definition demo_entry : NetworkAuditEntry := {|
  timestamp := 0; session := "127.0.0.1:1"; domain := "github.com"; port := 443;
  protocol := HttpConnect; action := OutAllowed; method := None; url := None; status := None;
  bytes_sent := 0; bytes_received := 0; duration_ms := 0; error := None;
  approval_source := Some Config |}.
Definition demo_filter : NetworkAuditFilter := {|
  f_domain := Some (lit "GitHub"); f_protocol := None; f_action := None; f_search := None |}.

Lemma audit_log_queries_witness :
  let b := foldl (push (λ _, Some (lit "{}"))) (enable_persistence (buffer_new 2) []) [demo_entry; demo_entry; demo_entry] in
  buf b = [demo_entry; demo_entry] ∧
  list_from_file (H := ascii_unicode) (λ _, Some demo_entry) b demo_filter 9 = [demo_entry; demo_entry; demo_entry].
Proof.
  cbv zeta.
  destruct (audit_log_queries (H := ascii_unicode) (λ _, Some (lit "{}")) (λ _, Some demo_entry) 2 9 demo_filter
    [demo_entry; demo_entry; demo_entry]) as (_ & Hb & _ & Hf & _).
  - lia.
  - lia.
  - repeat constructor; exists (lit "{}"); (split; [reflexivity|split; [discriminate|reflexivity]]).
  - split; [rewrite Hb; reflexivity|rewrite Hf; vm_compute; reflexivity].
Defined.
