(* ===== verification/Proxy.v ===== *)
(** The filtering HTTP proxy of the trusted network.

    Models [crates/network-filter/src/proxy.rs]: which peers may connect, the
    parsing of request targets and the two request handlers.  A handler is a
    function from what it meets — the lines the client sent, the decision of the
    user, the outcome of the connection and of the copies — to the effects it has,
    in order.  Reading from the client succeeds; metrics are left out. *)
From stdpp Require Import pretty.
From S2P Require Import Prelude DomainFilter.
Local Open Scope Z_scope.

(** ** Peers *)

Inductive IpAddr :=
| V4 (a b c d : Z)           (** octets *)
| V6 (segments : list Z).    (** eight 16-bit segments *)

Definition is_cgnat (a b c d : Z) : bool := (a =? 100) && (Z.land b 192 =? 64).
Definition is_ula (segments : list Z) : bool :=
  Z.land (nth 0 segments 0) 65024 =? 64512.

Definition is_private (a b c d : Z) : bool :=
  (a =? 10) || ((a =? 172) && (Z.land b 240 =? 16)) || ((a =? 192) && (b =? 168)).

Definition is_private_or_loopback (ip : IpAddr) : bool :=
  match ip with
  | V4 a b c d =>
      (a =? 127) || is_private a b c d || ((a =? 169) && (b =? 254)) || is_cgnat a b c d
  | V6 segments =>
      bool_decide (segments = [0; 0; 0; 0; 0; 0; 0; 1]) || is_ula segments
  end.

(** ** Targets *)

Definition parse_host_port (target : str) : str * Z :=
  match rsplit_once (ch ":") target with
  | Some (host, port_str) => (host, unwrap_or 443 (parse_u16 port_str))
  | None => (target, 443)
  end.

Definition after_scheme (url : str) : str :=
  unwrap_or url (or_else (strip_prefix "http://" url) (strip_prefix "https://" url)).

(** [after_scheme.split('/').next()]. *)
Definition host_port (url : str) : str := hd [] (split (ch "/") (after_scheme url)).

Definition extract_host_from_url (url : str) : str :=
  match rsplit_once (ch ":") (host_port url) with
  | Some (host, _) => host
  | None => host_port url
  end.

Definition extract_port_from_url (url : str) : Z :=
  let default := if starts_with "https://" url then 443 else 80 in
  match rsplit_once (ch ":") (host_port url) with
  | Some (_, port_str) => unwrap_or default (parse_u16 port_str)
  | None => default
  end.

Definition url_to_path (url : str) : str :=
  match find_char (λ c, c =? ch "/")%N (after_scheme url) with
  | Some slash_pos => drop slash_pos (after_scheme url)
  | None => "/"
  end.

(** ** Requests *)

Inductive effect :=
| Respond (text : str)               (** written to the client *)
| Connect (addr : str)               (** connection attempt upstream *)
| SendUpstream (text : str)
| Copy                               (** both directions, until closed *)
| Audit (entry : NetworkAuditEntry).

(** What a handler meets. *)
Record env := {
  e_session : str;                   (** [peer.to_string()] *)
  e_request_id : str;
  e_wait : wait_event;
  e_connect : result unit str;
  e_client_write : option str;       (** the error of a write to the client *)
  e_upstream_write : option str;     (** the error of a write upstream *)
  e_c2u : result Z str;
  e_u2c : result Z str;
  e_timestamp : Z;
  e_elapsed_ms : Z;
}.

Definition outcome : Type := list effect * result unit str.

Definition emit (e : effect) (k : outcome) : outcome := (e :: k.1, k.2).
Definition finished : outcome := ([], Ok tt).

(** [reader.get_mut().write_all(text).await?]. *)
Definition respond (v : env) (text : str) (k : outcome) : outcome :=
  match e_client_write v with Some err => ([], Err err) | None => emit (Respond text) k end.
Definition send_upstream (v : env) (text : str) (k : outcome) : outcome :=
  match e_upstream_write v with Some err => ([], Err err) | None => emit (SendUpstream text) k end.

Definition crlf : str := [ch_cr; ch_newline].

(** The audit entry of a request; [rest] holds what differs between the paths. *)
Definition audit_entry (v : env) (dom : str) (p : Z) (proto : NetworkProtocol)
    (meth target : option str) (act : FilterOutcome) (sent received : Z) (err : option str)
    (source : option ApprovalSource) : NetworkAuditEntry := {|
  timestamp := e_timestamp v; session := e_session v; domain := dom; port := p;
  protocol := proto; action := act; method := meth; url := target; status := None;
  bytes_sent := sent; bytes_received := received; duration_ms := e_elapsed_ms v;
  error := err; approval_source := source |}.

Definition byte_count (r : result Z str) : Z := match r with Ok n => n | Err _ => 0 end.
Definition copy_error (r : result Z str) : option str :=
  match r with Ok _ => None | Err e => Some e end.

(** The part both handlers share once the request may pass: connect, say so or
    pass the request on ([start]), copy, and write the audit entry. *)
Definition pass (v : env) (dom : str) (p : Z) (proto : NetworkProtocol) (meth target : option str)
    (act : FilterOutcome) (source : option ApprovalSource) (start : outcome → outcome) : outcome :=
  emit (Connect (dom ++ lit ":" ++ lit (pretty p)))
    match e_connect v with
    | Err e =>
        respond v (lit "HTTP/1.1 502 Bad Gateway" ++ crlf ++ crlf ++ e)
          (emit (Audit (audit_entry v dom p proto meth target act 0 0 (Some e) source)) finished)
    | Ok _ =>
        start
          (emit Copy
            (emit (Audit (audit_entry v dom p proto meth target act
               (byte_count (e_c2u v)) (byte_count (e_u2c v))
               (or_else (copy_error (e_c2u v)) (copy_error (e_u2c v))) source)) finished))
    end.

(** The refusal both handlers share. *)
Definition refuse (v : env) (text : str) (dom : str) (p : Z) (proto : NetworkProtocol)
    (meth target : option str) (act : FilterOutcome) : outcome :=
  respond v text
    (emit (Audit (audit_entry v dom p proto meth target act 0 0 None None)) finished).

(** The decision both handlers share, with the manager's state afterwards. *)
Definition decide_request `{Unicode} (v : env) (m : DomainApprovalManager) (dom : str)
    (refused : FilterOutcome → outcome)
    (passed : FilterOutcome → option ApprovalSource → outcome) : outcome * DomainApprovalManager :=
  match check_domain_with_source m (e_session v) dom with
  | (Allow, source) => (passed OutAllowed source, m)
  | (Deny, _) => (refused OutDenied, m)
  | (NeedsApproval, _) =>
      let m' := create_request m (e_request_id v) (e_session v) dom in
      match wait_for_decision (e_wait v) with
      | Approved => (passed OutApprovedByUser (Some UserPrompt), m')
      | Denied => (refused OutDenied, m')
      | Timeout => (refused OutTimeout, m')
      end
  end.

Definition handle_connect `{Unicode} (v : env) (m : DomainApprovalManager) (target : str)
    : outcome * DomainApprovalManager :=
  let '(dom, p) := parse_host_port target in
  decide_request v m dom
    (refuse v (lit "HTTP/1.1 403 Forbidden" ++ crlf ++ crlf) dom p HttpConnect None None)
    (λ act source,
       pass v dom p HttpConnect None None act source
         (respond v (lit "HTTP/1.1 200 Connection Established" ++ crlf ++ crlf))).

(** The header lines up to the blank one (or the end of the input). *)
Fixpoint read_headers (lines : list str) : str :=
  match lines with
  | [] => []
  | line :: lines' => if is_nonempty (trim line) then line ++ read_headers lines' else []
  end.

Definition handle_http_forward `{Unicode} (v : env) (m : DomainApprovalManager)
    (meth target : str) (lines : list str) : outcome * DomainApprovalManager :=
  let dom := extract_host_from_url target in
  let p := extract_port_from_url target in
  decide_request v m dom
    (refuse v (lit "HTTP/1.1 403 Forbidden" ++ crlf ++ lit "Content-Length: 0" ++ crlf ++ crlf)
       dom p HttpForward (Some meth) (Some target))
    (λ act source,
       pass v dom p HttpForward (Some meth) (Some target) act source
         (λ k, send_upstream v (meth ++ lit " " ++ url_to_path target ++ lit " HTTP/1.1" ++ crlf)
                 (send_upstream v (read_headers lines) (send_upstream v crlf k)))).

(** The lines are as [read_line] gives them, with their line ends. *)
Definition handle_client_inner `{Unicode} (v : env) (m : DomainApprovalManager) (input : list str)
    : outcome * DomainApprovalManager :=
  let request_line := trim_end (hd [] input) in
  if negb (is_nonempty request_line) then (([], Err (lit "empty request")), m)
  else match split_whitespace request_line with
       | meth :: target :: _ =>
           if str_eqb (to_ascii_lowercase meth) (to_ascii_lowercase "CONNECT")
           then handle_connect v m target
           else handle_http_forward v m meth target (tail input)
       | _ => (([], Err (lit "malformed request line: " ++ request_line)), m)
       end.

(** The accept branch: connections of other peers are dropped. *)
Definition accept `{Unicode} (peer : IpAddr) (v : env) (m : DomainApprovalManager)
    (input : list str) : outcome * DomainApprovalManager :=
  if negb (is_private_or_loopback peer) then (finished, m) else handle_client_inner v m input.

(** * Facts *)

(** ** Requests *)

Section facts.
Context `{Unicode}.

(** The domain may be contacted for this request. *)
Definition permitted (v : env) (m : DomainApprovalManager) (dom : str) : Prop :=
  check_domain m (e_session v) dom = Allow ∨
  check_domain m (e_session v) dom = NeedsApproval ∧ e_wait v = Received Approved.

Definition is_contact (e : effect) : bool :=
  match e with Connect _ | SendUpstream _ | Copy => true | _ => false end.
Definition is_audit (e : effect) : bool := match e with Audit _ => true | _ => false end.

(** The addresses a request may lead to. *)
Definition address (dom : str) (p : Z) : str := dom ++ lit ":" ++ lit (pretty p).

Lemma respond_in v text k e : e ∈ (respond v text k).1 → e = Respond text ∨ e ∈ k.1.
Proof. unfold respond. destruct (e_client_write v); simpl; set_solver. Qed.
Lemma send_in v text k e : e ∈ (send_upstream v text k).1 → e = SendUpstream text ∨ e ∈ k.1.
Proof. unfold send_upstream. destruct (e_upstream_write v); simpl; set_solver. Qed.

Lemma refuse_no_contact v text dom p proto meth target act e :
  e ∈ (refuse v text dom p proto meth target act).1 → is_contact e = false.
Proof. intros [->|He]%respond_in; [done|]. simpl in He. set_solver. Qed.

(** A decided request passes only when permitted. *)
Lemma decide_contact v m dom refused passed e :
  (∀ act e, e ∈ (refused act).1 → is_contact e = false) →
  e ∈ (decide_request v m dom refused passed).1.1 → is_contact e = true →
  permitted v m dom ∧ ∃ act source, e ∈ (passed act source).1.
Proof.
  intros Href. unfold decide_request, permitted, check_domain.
  destruct (check_domain_with_source m (e_session v) dom) as [[| |] source]; simpl; intros He Hc.
  - split; [by left|]. eauto.
  - apply Href in He. congruence.
  - destruct (e_wait v) as [[| |]| |]; simpl in *; try (apply Href in He; congruence).
    split; [by right|]. eauto.
Qed.

Lemma pass_connect v dom p proto meth target act source start addr :
  (∀ k addr, Connect addr ∈ (start k).1 → Connect addr ∈ k.1) →
  Connect addr ∈ (pass v dom p proto meth target act source start).1 → addr = address dom p.
Proof.
  intros Hst. unfold pass. simpl. rewrite elem_of_cons. intros [[= ->]|He]; [done|].
  exfalso. destruct (e_connect v) as [[]|err].
  - apply Hst in He. simpl in He. set_solver.
  - apply respond_in in He as [?|He]; [done|]. simpl in He. set_solver.
Qed.

Lemma connect_start v k addr :
  Connect addr ∈ (respond v (lit "HTTP/1.1 200 Connection Established" ++ crlf ++ crlf) k).1 →
  Connect addr ∈ k.1.
Proof. by intros [?|?]%respond_in. Qed.

Lemma forward_start v a b c k addr :
  Connect addr ∈ (send_upstream v a (send_upstream v b (send_upstream v c k))).1 → Connect addr ∈ k.1.
Proof. by intros [?|[?|[?|?]%send_in]%send_in]%send_in. Qed.

(** C34. Whatever a client sends, the proxy contacts a remote host only on behalf of
    a peer in a private or loopback range and only a domain that the filter lets
    through for that peer's session or that the user approved during this request;
    the address contacted is that domain's. *)
Theorem contact_only_permitted (peer : IpAddr) (v : env) (m : DomainApprovalManager) (input : list str) :
  let effects := (accept peer v m input).1.1 in
  (∀ e, e ∈ effects → is_contact e = true →
     is_private_or_loopback peer = true ∧ ∃ dom, permitted v m dom) ∧
  (∀ addr, Connect addr ∈ effects → ∃ dom p, addr = address dom p ∧ permitted v m dom).
Proof.
  cbv zeta. unfold accept. destruct (is_private_or_loopback peer); simpl; [|set_solver].
  unfold handle_client_inner. destruct (negb _); [set_solver|].
  destruct (split_whitespace _) as [|meth [|target parts]]; [set_solver|set_solver|].
  destruct (str_eqb _ _).
  - unfold handle_connect. destruct (parse_host_port target) as [dom p]. split.
    + intros e He Hc. apply decide_contact in He as [? _]; [|by intros; eapply refuse_no_contact|done].
      split; [done|]. by exists dom.
    + intros addr He. apply decide_contact in He as (? & act & source & He);
        [|by intros; eapply refuse_no_contact|done].
      apply pass_connect in He; [by exists dom, p|]. apply connect_start.
  - unfold handle_http_forward. split.
    + intros e He Hc. apply decide_contact in He as [? _]; [|by intros; eapply refuse_no_contact|done].
      split; [done|]. by exists (extract_host_from_url target).
    + intros addr He. apply decide_contact in He as (? & act & source & He);
        [|by intros; eapply refuse_no_contact|done].
      apply pass_connect in He; [by eexists _, _|]. intros k a. apply forward_start.
Qed.

(** An audit entry tells what happened: allowed by configuration or session,
    approved by the user, or refused without any contact. *)
Definition consistent (entry : NetworkAuditEntry) (before : list effect) : Prop :=
  match action entry with
  | OutAllowed => approval_source entry = Some Config ∨ approval_source entry = Some Session
  | OutApprovedByUser => approval_source entry = Some UserPrompt
  | OutDenied | OutTimeout =>
      approval_source entry = None ∧ Forall (λ e, is_contact e = false) before ∧
      ∃ text, before = [Respond text]
  end.

(** One audit entry, at the end. *)
Definition audited (o : outcome) : Prop :=
  ∃ before entry, o = (before ++ [Audit entry], Ok tt) ∧
    Forall (λ e, is_audit e = false) before ∧ consistent entry before.

Lemma refuse_audited v text dom p proto meth target act :
  e_client_write v = None → act = OutDenied ∨ act = OutTimeout →
  audited (refuse v text dom p proto meth target act).
Proof.
  intros Hw Hact. unfold refuse, respond. rewrite Hw. eexists [Respond text], _.
  split; [done|]. split; [by repeat constructor|].
  destruct Hact as [-> | ->]; simpl; (split; [done|split; [by repeat constructor|by eexists]]).
Qed.

Lemma pass_audited v dom p proto meth target act source start :
  e_client_write v = None →
  (∃ pre, (∀ k, start k = (pre ++ k.1, k.2)) ∧ Forall (λ e, is_audit e = false) pre) →
  act = OutAllowed ∧ (source = Some Config ∨ source = Some Session) ∨
    act = OutApprovedByUser ∧ source = Some UserPrompt →
  audited (pass v dom p proto meth target act source start).
Proof.
  intros Hw (pre & Hst & Hpre) Hact.
  assert (∀ sent recv err before, consistent (audit_entry v dom p proto meth target act sent recv err source) before) as Hc.
  { intros. destruct Hact as [[-> ?]|[-> ?]]; done. }
  unfold pass. destruct (e_connect v) as [[]|err].
  - rewrite Hst. unfold emit; simpl. eexists (Connect _ :: pre ++ [Copy]), _.
    split; [simpl; by rewrite <- app_assoc|]. split; [|apply Hc].
    constructor; [done|]. apply Forall_app. by repeat constructor.
  - unfold respond. rewrite Hw. unfold emit; simpl. eexists [Connect _; Respond _], _.
    split; [done|]. split; [by repeat constructor|apply Hc].
Qed.

Lemma check_source m s dom source :
  check_domain_with_source m s dom = (Allow, source) → source = Some Config ∨ source = Some Session.
Proof. unfold check_domain_with_source. intros Hc. cases_in Hc; auto. Qed.

Lemma decide_audited v m dom refused passed :
  (∀ act, act = OutDenied ∨ act = OutTimeout → audited (refused act)) →
  (∀ act source, act = OutAllowed ∧ (source = Some Config ∨ source = Some Session) ∨
     act = OutApprovedByUser ∧ source = Some UserPrompt → audited (passed act source)) →
  audited (decide_request v m dom refused passed).1.
Proof.
  intros Href Hpass. unfold decide_request.
  destruct (check_domain_with_source m (e_session v) dom) as [[| |] source] eqn:E; simpl.
  - apply Hpass. left. split; [done|]. by eapply check_source.
  - by auto.
  - destruct (wait_for_decision _); simpl; auto.
Qed.

(** When its writes succeed, a request with a method and a target ends normally
    and leaves exactly one audit entry, the last effect, whose action and source
    agree with the filter's decision; a refused request has no other effect than
    one response. *)
Theorem one_audit_entry (v : env) (m : DomainApprovalManager) (input : list str)
    (meth target : str) (parts : list str) :
  e_client_write v = None → e_upstream_write v = None →
  split_whitespace (trim_end (hd [] input)) = meth :: target :: parts →
  audited (handle_client_inner v m input).1.
Proof.
  intros Hc Hu Hs. unfold handle_client_inner. rewrite Hs.
  destruct (trim_end (hd [] input)); [done|]. simpl. destruct (str_eqb _ _).
  - unfold handle_connect. destruct (parse_host_port target) as [dom p].
    apply decide_audited; intros; [by apply refuse_audited|]. apply pass_audited; [done| |done].
    eexists [Respond _]. split; [intros k; unfold respond; by rewrite Hc|by repeat constructor].
  - unfold handle_http_forward.
    apply decide_audited; intros; [by apply refuse_audited|]. apply pass_audited; [done| |done].
    eexists [SendUpstream _; SendUpstream _; SendUpstream _].
    split; [intros k; unfold send_upstream; by rewrite Hu|by repeat constructor].
Qed.
End facts.

(** ** Targets *)

Lemma split_once_app c a b : c ∉ a → split_once c (a ++ c :: b) = Some (a, b).
Proof.
  induction a as [|d a IH]; simpl; intros Hc.
  - by rewrite N.eqb_refl.
  - apply not_elem_of_cons in Hc as [Hd Hc]. destruct (N.eqb_spec d c); [congruence|].
    by rewrite IH.
Qed.

Lemma rsplit_once_app c a b : c ∉ b → rsplit_once c (a ++ c :: b) = Some (a, b).
Proof.
  intros Hc. unfold rsplit_once. rewrite reverse_app, reverse_cons, <- app_assoc. simpl.
  rewrite split_once_app by (by rewrite elem_of_reverse). simpl. by rewrite !reverse_involutive.
Qed.

Lemma split_head c a b : c ∉ a → hd [] (split c (a ++ c :: b)) = a.
Proof.
  induction a as [|d a IH]; simpl; intros Hc.
  - by rewrite N.eqb_refl.
  - apply not_elem_of_cons in Hc as [Hd Hc]. destruct (N.eqb_spec d c); [congruence|].
    specialize (IH Hc). destruct (split c (a ++ c :: b)) as [|x xs]; simpl in *; congruence.
Qed.

Lemma find_char_app f a c b :
  Forall (λ d, f d = false) a → f c = true → find_char f (a ++ c :: b) = Some (length a).
Proof. intros Ha Hc. induction Ha as [|d a Hd _ IH]; simpl; [by rewrite Hc|]. by rewrite Hd, IH. Qed.

Lemma after_scheme_http rest : after_scheme (lit "http://" ++ rest) = rest.
Proof. unfold after_scheme. by rewrite strip_prefix_app. Qed.

(** Parsing the URL of a forwarded request gives back its parts: the host (up to
    its last colon), the port where it is one, and the path with its query. *)
Theorem forward_target_parts (host port path : str) (n : Z) :
  ch "/" ∉ host → ch "/" ∉ port → ch ":" ∉ port → parse_u16 port = Some n →
  let url := lit "http://" ++ host ++ lit ":" ++ port ++ lit "/" ++ path in
  extract_host_from_url url = host ∧ extract_port_from_url url = n ∧
  url_to_path url = lit "/" ++ path.
Proof.
  intros Hh Hp Hc Hn url.
  assert (after_scheme url = (host ++ lit ":" ++ port) ++ ch "/" :: path) as Ha.
  { unfold url. rewrite after_scheme_http. by rewrite <- !app_assoc. }
  assert (ch "/" ∉ host ++ lit ":" ++ port) as Hs.
  { rewrite !not_elem_of_app. repeat split; try done. simpl. set_solver. }
  assert (host_port url = host ++ ch ":" :: port) as Hhp.
  { unfold host_port. rewrite Ha. by apply split_head. }
  unfold extract_host_from_url, extract_port_from_url, url_to_path.
  rewrite Hhp, rsplit_once_app, Hn, Ha by done.
  rewrite find_char_app; [|apply Forall_forall; intros d Hd; apply N.eqb_neq; by intros ->|done].
  by rewrite drop_app_length.
Qed.

(** * Witnesses *)

Definition demo_env : env := {|
  e_session := "127.0.0.1:5000"; e_request_id := "r1"; e_wait := Elapsed; e_connect := Ok tt;
  e_client_write := None; e_upstream_write := None; e_c2u := Ok 10; e_u2c := Ok 20;
  e_timestamp := 0; e_elapsed_ms := 5 |}.

Lemma one_audit_entry_witness :
  audited (handle_client_inner (H := ascii_unicode) demo_env (new (H := ascii_unicode) [lit "github.com"] 60)
    [lit "CONNECT github.com:443 HTTP/1.1" ++ crlf]).1.
Proof.
  apply (one_audit_entry (H := ascii_unicode) demo_env _ _ (lit "CONNECT") (lit "github.com:443") [lit "HTTP/1.1"]).
  - reflexivity.
  - reflexivity.
  - vm_compute. reflexivity.
Defined.

Lemma forward_target_parts_witness :
  extract_host_from_url "http://example.com:8080/a?b" = lit "example.com" ∧
  extract_port_from_url "http://example.com:8080/a?b" = 8080.
Proof.
  destruct (forward_target_parts "example.com" "8080" "a?b" 8080) as (Hh & Hp & _).
  - apply (bool_decide_unpack (ch "/" ∉ lit "example.com")). vm_compute. exact I.
  - apply (bool_decide_unpack (ch "/" ∉ lit "8080")). vm_compute. exact I.
  - apply (bool_decide_unpack (ch ":" ∉ lit "8080")). vm_compute. exact I.
  - vm_compute. reflexivity.
  - split; [exact Hh|exact Hp].
Defined.
