(* ===== verification/Calc.v ===== *)
(** The calculator tool.

    Models [crates/tools/src/calc.rs]: the lexer, the evaluator -- a precedence climber
    that computes while it parses -- and the JSON of the result.  The evaluator's
    position is the list of tokens that are left; it recurses with fuel, of which twice
    the number of tokens is enough.  [Err None] stands for fuel that ran out. *)
From Stdlib Require Import SpecFloat.
From S2P Require Import Prelude Float64 Json.
Local Open Scope Z_scope.
Local Open Scope result_scope.

Definition MAX_EXPRESSION_CHARS : nat := 512.
Definition MAX_TOKENS : nat := 256.
Definition MAX_AST_DEPTH : nat := 64.
Definition MAX_OPERATIONS : nat := 512.
Definition MAX_ABS_EXPONENT : f64 := f_of_Z 1024 0.
Definition MAX_ABS_RESULT : f64 := f_of_decimal 1 308.

Inductive Operator := Add | Subtract | Multiply | Divide | Modulo | Power.

Definition precedence (op : Operator) : nat :=
  match op with
  | Add | Subtract => 10
  | Multiply | Divide | Modulo => 20
  | Power => 30
  end.

Definition is_right_associative (op : Operator) : bool :=
  match op with Power => true | _ => false end.

Definition symbol (op : Operator) : str :=
  match op with
  | Add => "+" | Subtract => "-" | Multiply => "*" | Divide => "/" | Modulo => "%" | Power => "^"
  end.

Inductive Token :=
| Number (value : f64) (repr : str)
| Plus | Minus | Star | Slash | Percent | Caret | LParen | RParen.

Definition token_repr (t : Token) : str :=
  match t with
  | Number _ repr => repr
  | Plus => "+" | Minus => "-" | Star => "*" | Slash => "/" | Percent => "%" | Caret => "^"
  | LParen => "(" | RParen => ")"
  end.

Definition normalize_negative_zero (value : f64) : f64 :=
  if f_is_zero value then S754_zero false else value.

Definition ensure_finite (value : f64) (context : str) : result f64 str :=
  if negb (f_is_finite value) || SFltb MAX_ABS_RESULT (SFabs value)
  then Err (context ++ lit " produced a non-finite result")
  else Ok (normalize_negative_zero value).

(** ** Lexer *)

Definition invalid_number (start : nat) : str := lit "invalid number literal at byte " ++ show_nat start.

(** The digits [ds] with the fraction that follows them, if a point does. *)
Definition with_fraction (ds rest : str) : str :=
  match rest with
  | c :: s => if (c =? ch ".")%N then ds ++ c :: take_while is_ascii_digit s else ds
  | [] => ds
  end.

(** The digits from [s] on, with a point among them; what is read is ASCII, so that a byte
    offset is an offset in chars. *)
Definition number_body (start : nat) (s : str) : result str str :=
  match s with
  | c :: s' =>
      if (c =? ch ".")%N then
        let ds := take_while is_ascii_digit s' in
        if is_nonempty ds then Ok (c :: ds) else Err (invalid_number start)
      else
        let ds := take_while is_ascii_digit s in
        let body := with_fraction ds (drop (length ds) s) in
        if is_nonempty (List.filter is_ascii_digit body) then Ok body else Err (invalid_number start)
  | [] => Err (invalid_number start)
  end.

(** The exponent from [s] on, at offset [i]. *)
Definition number_exponent (i : nat) (s : str) : result str str :=
  match s with
  | c :: s' =>
      if (c =? ch "e")%N || (c =? ch "E")%N then
        let sign := match s' with
                    | c' :: _ => if (c' =? ch "+")%N || (c' =? ch "-")%N then [c'] else []
                    | [] => []
                    end in
        let ds := take_while is_ascii_digit (drop (length sign) s') in
        if is_nonempty ds then Ok (c :: sign ++ ds)
        else Err (lit "invalid exponent in number literal at byte " ++ show_nat i)
      else Ok []
  | [] => Ok []
  end.

(** The token and the number of bytes it takes. *)
Definition parse_number_token (start : nat) (s : str) : result (Token * nat) str :=
  let? body := number_body start s in
  let? exponent := number_exponent (start + length body) (drop (length body) s) in
  let repr := body ++ exponent in
  let? value := ok_or (lit "invalid number literal `" ++ repr ++ lit "`") (parse_f64 repr) in
  let? value := ensure_finite value "number literal" in
  Ok (Number value repr, length repr).

Definition is_blank (c : char) : bool := bool_decide (c ∈ [32; 9; 10; 13]%N).

Definition simple_token (c : char) : option Token :=
  if (c =? ch "+")%N then Some Plus else if (c =? ch "-")%N then Some Minus
  else if (c =? ch "*")%N then Some Star else if (c =? ch "/")%N then Some Slash
  else if (c =? ch "%")%N then Some Percent else if (c =? ch "^")%N then Some Caret
  else if (c =? ch "(")%N then Some LParen else if (c =? ch ")")%N then Some RParen
  else None.

(** The loop of [tokenize] at offset [start], with [n] tokens so far and [skip] more bytes
    of the last one. *)
Fixpoint lex (skip n start : nat) (s : str) : result (list Token) str :=
  match s with
  | [] => Ok []
  | c :: s' =>
      match skip with
      | S skip' => lex skip' n (S start) s'
      | O =>
          if is_blank c then lex 0 n (S start) s'
          else
            let? read :=
              if is_ascii_digit c || (c =? ch ".")%N then parse_number_token start s
              else match simple_token c with
                   | Some t => Ok (t, 1%nat)
                   | None => Err (lit "unsupported character `" ++ [c] ++ lit "` in expression")
                   end in
            if (MAX_TOKENS <? S n)%nat
            then Err (lit "expression is too long (maximum 256 tokens)")
            else let? tokens := lex (read.2 - 1) (S n) (S start) s' in Ok (read.1 :: tokens)
      end
  end.

Definition tokenize (expression : str) : result (list Token) str :=
  let? tokens := lex 0 0 0 expression in
  if is_nonempty tokens then Ok tokens else Err (lit "expression is empty").

Definition normalize_expression (tokens : list Token) : str := flat_map token_repr tokens.

(** ** Evaluator *)

Section evaluator.
Context `{Libm}.

Definition apply_binary (op : Operator) (lhs rhs : f64) : result f64 str :=
  let? res :=
    match op with
    | Add => Ok (f_add lhs rhs)
    | Subtract => Ok (f_sub lhs rhs)
    | Multiply => Ok (f_mul lhs rhs)
    | Divide => if f_is_zero rhs then Err (lit "division by zero is not allowed") else Ok (f_div lhs rhs)
    | Modulo => if f_is_zero rhs then Err (lit "modulo by zero is not allowed") else Ok (f_rem lhs rhs)
    | Power =>
        if negb (f_is_finite rhs) || SFltb MAX_ABS_EXPONENT (SFabs rhs)
        then Err (lit "exponent out of allowed range (+/-1024)") else Ok (powf lhs rhs)
    end in
  ensure_finite res (symbol op).

Definition peek_binary_operator (ts : list Token) : option Operator :=
  match ts with
  | Plus :: _ => Some Add
  | Minus :: _ => Some Subtract
  | Star :: _ => Some Multiply
  | Slash :: _ => Some Divide
  | Percent :: _ => Some Modulo
  | Caret :: _ => Some Power
  | _ => None
  end.

Definition fail {A} (e : str) : result A (option str) := Err (Some e).
Definition lift {A} (r : result A str) : result A (option str) := map_err Some r.

Definition bump_operation_count (operations : nat) : result nat (option str) :=
  if (MAX_OPERATIONS <? S operations)%nat
  then fail (lit "expression is too complex (maximum 512 operations)") else Ok (S operations).

Definition unexpected (t : Token) : str := lit "unexpected token `" ++ token_repr t ++ lit "`".

Definition rhs_precedence (op : Operator) : nat :=
  if is_right_associative op then precedence op else S (precedence op).

(** What a call leaves: the value, the tokens that are left and the operations so far. *)
Notation parsed := (result (f64 * list Token * nat) (option str)).

Fixpoint parse_expression (fuel min_precedence depth : nat) (ts : list Token) (operations : nat) : parsed :=
  match fuel with
  | O => Err None
  | S fuel =>
      let? st := parse_prefix fuel depth ts operations in
      let '(lhs, ts, operations) := st in
      parse_loop fuel min_precedence depth lhs ts operations
  end
with parse_loop (fuel min_precedence depth : nat) (lhs : f64) (ts : list Token) (operations : nat) : parsed :=
  match fuel with
  | O => Err None
  | S fuel =>
      match peek_binary_operator ts with
      | None => Ok (lhs, ts, operations)
      | Some op =>
          if (precedence op <? min_precedence)%nat then Ok (lhs, ts, operations)
          else
            let? st := parse_expression fuel (rhs_precedence op) (S depth) (tail ts) operations in
            let '(rhs, ts, operations) := st in
            let? lhs := lift (apply_binary op lhs rhs) in
            let? operations := bump_operation_count operations in
            parse_loop fuel min_precedence depth lhs ts operations
      end
  end
with parse_prefix (fuel depth : nat) (ts : list Token) (operations : nat) : parsed :=
  match fuel with
  | O => Err None
  | S fuel =>
      if (MAX_AST_DEPTH <? depth)%nat
      then fail (lit "expression nesting is too deep (maximum 64)")
      else
        match ts with
        | Number value _ :: ts => Ok (value, ts, operations)
        | Plus :: ts => parse_prefix fuel (S depth) ts operations
        | Minus :: ts =>
            let? st := parse_prefix fuel (S depth) ts operations in
            let '(value, ts, operations) := st in
            let? operations := bump_operation_count operations in
            let? value := lift (ensure_finite (f_neg value) "unary -") in
            Ok (value, ts, operations)
        | LParen :: ts =>
            let? st := parse_expression fuel 0 (S depth) ts operations in
            let '(value, ts, operations) := st in
            match ts with
            | RParen :: ts => Ok (value, ts, operations)
            | _ => fail (lit "missing closing `)` ")
            end
        | other :: _ => fail (unexpected other)
        | [] => fail (lit "unexpected end of expression")
        end
  end.

Definition fuel_for (ts : list Token) : nat := 2 * length ts + 2.

Definition evaluate (ts : list Token) : result f64 (option str) :=
  let? st := parse_expression (fuel_for ts) 0 0 ts 0 in
  let '(value, rest, _) := st in
  match rest with
  | t :: _ => fail (unexpected t)
  | [] => lift (ensure_finite value "expression")
  end.

(** The JSON of a result: an integer or a double. *)
Inductive JsonNumber := JsonInt (z : Z) | JsonFloat (x : f64).

Definition result_to_json (value : f64) : result JsonNumber str :=
  let normalized := normalize_negative_zero value in
  if f_is_integer normalized && SFleb (f_of_Z (- 2 ^ 63) 0) normalized
     && SFleb normalized (f_of_Z (2 ^ 63 - 1) 0)
  then Ok (JsonInt (f_to_i64 normalized))
  else if f_is_finite normalized then Ok (JsonFloat normalized)
  else Err (lit "result is not a finite JSON number").

Definition evaluate_expression (expression : str) : result (f64 * str) (option str) :=
  if (MAX_EXPRESSION_CHARS <? utf8_len expression)%nat
  then fail (lit "expression is too long (maximum 512 characters)")
  else
    let? tokens := lift (tokenize expression) in
    let? value := evaluate tokens in
    Ok (value, normalize_expression tokens).

(** [params.get(k)]. *)
Definition get (k : str) (params : json) : option json :=
  match params with JObject m => assoc k m | _ => None end.

Definition execute (params : json) : result (JsonNumber * str) (option str) :=
  match or_else (get "expression" params) (get "expr" params) with
  | Some (JString expression) =>
      let? ev := evaluate_expression expression in
      let? number := lift (result_to_json ev.1) in
      Ok (number, ev.2)
  | _ => fail (lit "missing 'expression' parameter")
  end.
End evaluator.

(** * Facts *)

Section facts.
Context `{Libm}.

(** ** Fuel *)

Lemma fuel_mono n :
  (∀ m min d ts k, (n ≤ m)%nat → parse_expression n min d ts k ≠ Err None →
    parse_expression m min d ts k = parse_expression n min d ts k) ∧
  (∀ m min d lhs ts k, (n ≤ m)%nat → parse_loop n min d lhs ts k ≠ Err None →
    parse_loop m min d lhs ts k = parse_loop n min d lhs ts k) ∧
  (∀ m d ts k, (n ≤ m)%nat → parse_prefix n d ts k ≠ Err None →
    parse_prefix m d ts k = parse_prefix n d ts k).
Proof.
  induction n as [|n (IHe & IHl & IHp)]; [by repeat split|]. split; [|split].
  - intros [|m] min d ts k Hm Hne; [lia|]. simpl in *.
    destruct (parse_prefix n d ts k) as [[[v ts1] k1]|e] eqn:E.
    + rewrite (IHp m d ts k), E by (lia || congruence). apply IHl; [lia|done].
    + rewrite (IHp m d ts k), E by (lia || congruence). done.
  - intros [|m] min d lhs ts k Hm Hne; [lia|]. simpl in *.
    destruct (peek_binary_operator ts) as [op|]; [|done]. destruct (_ <? _)%nat; [done|].
    destruct (parse_expression n _ _ (tail ts) k) as [[[v ts1] k1]|e] eqn:E.
    + rewrite (IHe m _ _ (tail ts) k), E by (lia || congruence).
      destruct (lift _); [|done]. destruct (bump_operation_count _); [|done]. apply IHl; [lia|done].
    + rewrite (IHe m _ _ (tail ts) k), E by (lia || congruence). done.
  - intros [|m] d ts k Hm Hne; [lia|]. simpl in *. destruct (_ <? _)%nat; [done|].
    destruct ts as [|[]]; try done.
    + apply IHp; [lia|done].
    + destruct (parse_prefix n (S d) ts k) as [st|e] eqn:E;
        rewrite (IHp m (S d) ts k), E by (lia || congruence); done.
    + destruct (parse_expression n 0 (S d) ts k) as [st|e] eqn:E;
        rewrite (IHe m 0%nat (S d) ts k), E by (lia || congruence); done.
Qed.

(** Every call takes tokens, and twice their number is fuel enough. *)
Lemma fuel_enough n :
  (∀ min d ts k,
    (∀ v rest k', parse_expression n min d ts k = Ok (v, rest, k') → (length rest < length ts)%nat) ∧
    ((2 * length ts + 2 ≤ n)%nat → parse_expression n min d ts k ≠ Err None)) ∧
  (∀ min d lhs ts k,
    (∀ v rest k', parse_loop n min d lhs ts k = Ok (v, rest, k') → (length rest ≤ length ts)%nat) ∧
    ((2 * length ts + 1 ≤ n)%nat → parse_loop n min d lhs ts k ≠ Err None)) ∧
  (∀ d ts k,
    (∀ v rest k', parse_prefix n d ts k = Ok (v, rest, k') → (length rest < length ts)%nat) ∧
    ((2 * length ts + 1 ≤ n)%nat → parse_prefix n d ts k ≠ Err None)).
Proof.
  induction n as [|n (IHe & IHl & IHp)].
  { split; [|split]; intros; (split; [done|lia]). }
  split; [|split].
  - intros min d ts k. simpl. destruct (IHp d ts k) as [Hc Hf].
    destruct (parse_prefix n d ts k) as [[[v ts1] k1]|e].
    + specialize (Hc v ts1 k1 eq_refl). destruct (IHl min d v ts1 k1) as [Hc' Hf'].
      split; [intros; apply Nat.le_lt_trans with (length ts1); [by eapply Hc'|done]|].
      intros Hn. apply Hf'. lia.
    + split; [done|]. intros Hn [= ->]. apply Hf; [lia|done].
  - intros min d lhs ts k. simpl. destruct (peek_binary_operator ts) as [op|] eqn:Eo; [|by split; [naive_solver|]].
    destruct (_ <? _)%nat; [by split; [naive_solver|]|].
    assert (length ts = S (length (tail ts))) as Hlen by (by destruct ts).
    destruct (IHe (rhs_precedence op) (S d) (tail ts) k) as [Hc Hf].
    destruct (parse_expression n _ _ _ _) as [[[v ts1] k1]|e].
    + specialize (Hc v ts1 k1 eq_refl). destruct (apply_binary op lhs v) as [lhs'|]; simpl; [|done].
      unfold bump_operation_count, fail. destruct (_ <? _)%nat; [done|].
      destruct (IHl min d lhs' ts1 (S k1)) as [Hc' Hf']. split; [|intros; apply Hf'; lia].
      intros v' rest k' Hr. apply Hc' in Hr. lia.
    + split; [done|]. intros Hn [= ->]. apply Hf; [lia|done].
  - intros d ts k. simpl. destruct (_ <? _)%nat; [done|]. destruct ts as [|[] ts]; try done; simpl.
    + split; [intros ??? [= _ <- _]; lia|done].
    + destruct (IHp (S d) ts k) as [Hc Hf]. split; [intros v rest k' Hr; apply Hc in Hr; lia|].
      intros. apply Hf. lia.
    + destruct (IHp (S d) ts k) as [Hc Hf]. destruct (parse_prefix n (S d) ts k) as [[[v ts1] k1]|e].
      * specialize (Hc v ts1 k1 eq_refl). unfold bump_operation_count, fail. destruct (_ <? _)%nat; [done|].
        destruct (ensure_finite _ _); simpl; [|done]. split; [intros ??? [= _ <- _]; lia|done].
      * split; [done|]. intros Hn [= ->]. apply Hf; [lia|done].
    + destruct (IHe 0%nat (S d) ts k) as [Hc Hf]. destruct (parse_expression n 0 (S d) ts k) as [[[v ts1] k1]|e].
      * specialize (Hc v ts1 k1 eq_refl). destruct ts1 as [|[] ts1]; try done. simpl in *.
        split; [intros ??? [= _ <- _]; lia|done].
      * split; [done|]. intros Hn [= ->]. apply Hf; [lia|done].
Qed.

(** ** The grammar *)

(** Expressions, as the precedence and associativity of the operators group them. *)
Inductive expr :=
| Num (value : f64) (repr : str)
| Pos (e : expr)
| Neg (e : expr)
| Paren (e : expr)
| Bin (op : Operator) (l r : expr).

Definition op_token (op : Operator) : Token :=
  match op with
  | Add => Plus | Subtract => Minus | Multiply => Star | Divide => Slash | Modulo => Percent | Power => Caret
  end.

Fixpoint print (e : expr) : list Token :=
  match e with
  | Num v repr => [Number v repr]
  | Pos e => Plus :: print e
  | Neg e => Minus :: print e
  | Paren e => LParen :: print e ++ [RParen]
  | Bin op l r => print l ++ op_token op :: print r
  end.

(** Sums, products and powers, from the loosest to the tightest; then what is no binary
    operation. *)
Definition tier (op : Operator) : nat :=
  match op with Add | Subtract => 1 | Multiply | Divide | Modulo => 2 | Power => 3 end.
Definition level (e : expr) : nat := match e with Bin op _ _ => tier op | _ => 4 end.

(** Signs apply to what is no binary operation. An operand binds more tightly than its
    operator, or as tightly on the left, and for the power on the right. *)
Fixpoint normal (e : expr) : Prop :=
  match e with
  | Num _ _ => True
  | Pos e | Neg e => normal e ∧ level e = 4%nat
  | Paren e => normal e
  | Bin Power l r => normal l ∧ normal r ∧ (tier Power < level l)%nat ∧ (tier Power ≤ level r)%nat
  | Bin op l r => normal l ∧ normal r ∧ (tier op ≤ level l)%nat ∧ (tier op < level r)%nat
  end.

(** The meaning of an expression: its operations from left to right, each result checked. *)
Fixpoint value (e : expr) : result f64 str :=
  match e with
  | Num v _ => Ok v
  | Pos e | Paren e => value e
  | Neg e => let? v := value e in ensure_finite (f_neg v) "unary -"
  | Bin op l r => let? x := value l in let? y := value r in apply_binary op x y
  end.

Fixpoint nesting (e : expr) : nat :=
  match e with
  | Num _ _ => 0
  | Pos e | Neg e | Paren e => S (nesting e)
  | Bin _ l r => Nat.max (nesting l) (S (nesting r))
  end.

Fixpoint count (e : expr) : nat :=
  match e with
  | Num _ _ => 0
  | Pos e | Paren e => count e
  | Neg e => S (count e)
  | Bin _ l r => S (count l + count r)
  end.

(** The same in the numbers of the evaluator. *)
Definition binding (e : expr) : nat := match e with Bin op _ _ => precedence op | _ => 40 end.

Fixpoint grouped (e : expr) : Prop :=
  match e with
  | Num _ _ => True
  | Pos e | Neg e => grouped e ∧ binding e = 40%nat
  | Paren e => grouped e
  | Bin op l r =>
      grouped l ∧ grouped r ∧ (rhs_precedence op ≤ binding r)%nat ∧
      if is_right_associative op then (precedence op < binding l)%nat else (precedence op ≤ binding l)%nat
  end.

Lemma binding_level e : binding e = 40%nat ↔ level e = 4%nat.
Proof. destruct e as [| | | |[]]; simpl; lia. Qed.

Lemma normal_grouped e : normal e ↔ grouped e.
Proof.
  induction e as [v repr|e IH|e IH|e IH|op l IHl r IHr]; simpl; [done| | |done|].
  - by rewrite IH, binding_level.
  - by rewrite IH, binding_level.
  - rewrite <- IHl, <- IHr. destruct op, l as [| | | |[]], r as [| | | |[]]; unfold rhs_precedence; simpl; intuition lia.
Qed.

(** Only an operator below this precedence may follow the expression. *)
Definition stop (e : expr) : nat := match e with Bin op _ _ => rhs_precedence op | _ => 41 end.
Definition below (min : nat) (ts : list Token) : Prop :=
  ∀ op, peek_binary_operator ts = Some op → (precedence op < min)%nat.

Lemma count_length e : (count e ≤ length (print e))%nat.
Proof. induction e; simpl; rewrite ?length_app; simpl; lia. Qed.

Lemma binding_stop e : (binding e ≤ stop e)%nat.
Proof. destruct e; simpl; try lia. destruct op; unfold rhs_precedence; simpl; lia. Qed.

Lemma grouped_left op l r : grouped (Bin op l r) → (precedence op < stop l)%nat.
Proof.
  intros (_ & _ & _ & Hl). destruct l as [| | | |op' l1 l2]; [destruct op; simpl; lia..|].
  destruct op, op'; unfold stop, rhs_precedence; simpl in *; lia.
Qed.

Lemma grouped_join op l r :
  grouped l → grouped r → (precedence op < stop l)%nat → (rhs_precedence op ≤ binding r)%nat → grouped (Bin op l r).
Proof.
  intros Hl Hr Hs Hp. split; [done|]. split; [done|]. split; [done|].
  destruct l as [| | | |op' l1 l2]; [destruct op; simpl; lia..|].
  destruct op, op'; unfold stop, rhs_precedence in *; simpl in *; lia.
Qed.

(** ** Rules of the evaluator, without fuel *)

Notation parsed := (result (f64 * list Token * nat) (option str)).

Definition runs_e min d ts k (r : parsed) : Prop := r ≠ Err None ∧ ∃ n, parse_expression n min d ts k = r.
Definition runs_l min d lhs ts k (r : parsed) : Prop := r ≠ Err None ∧ ∃ n, parse_loop n min d lhs ts k = r.
Definition runs_p d ts k (r : parsed) : Prop := r ≠ Err None ∧ ∃ n, parse_prefix n d ts k = r.

Lemma more_e n m min d ts k r :
  parse_expression n min d ts k = r → r ≠ Err None → (n ≤ m)%nat → parse_expression m min d ts k = r.
Proof. intros <- Hr Hm. by apply (fuel_mono n). Qed.
Lemma more_l n m min d lhs ts k r :
  parse_loop n min d lhs ts k = r → r ≠ Err None → (n ≤ m)%nat → parse_loop m min d lhs ts k = r.
Proof. intros <- Hr Hm. by apply (fuel_mono n). Qed.
Lemma more_p n m d ts k r :
  parse_prefix n d ts k = r → r ≠ Err None → (n ≤ m)%nat → parse_prefix m d ts k = r.
Proof. intros <- Hr Hm. by apply (fuel_mono n). Qed.

Lemma runs_e_seq min d ts k lhs ts1 k1 r :
  runs_p d ts k (Ok (lhs, ts1, k1)) → runs_l min d lhs ts1 k1 r → runs_e min d ts k r.
Proof.
  intros (Hp & n & En) (Hr & m & Em). split; [done|]. exists (S (n + m)). simpl.
  rewrite (more_p n (n + m) _ _ _ _ En Hp) by lia. simpl. apply (more_l m); [done|done|lia].
Qed.

Lemma runs_e_err min d ts k x : runs_p d ts k (Err x) → runs_e min d ts k (Err x).
Proof. intros (Hp & n & En). split; [congruence|]. exists (S n). simpl. by rewrite En. Qed.

Lemma runs_l_stop min d lhs ts k : below min ts → runs_l min d lhs ts k (Ok (lhs, ts, k)).
Proof.
  intros Hb. split; [done|]. exists 1%nat. simpl. destruct (peek_binary_operator ts) as [op|] eqn:E; [|done].
  by rewrite (proj2 (Nat.ltb_lt _ _) (Hb op E)).
Qed.

Lemma peek_op op ts : peek_binary_operator (op_token op :: ts) = Some op.
Proof. by destruct op. Qed.

Lemma runs_l_step min d lhs op ts k rhs ts1 k1 v r :
  (min ≤ precedence op)%nat → runs_e (rhs_precedence op) (S d) ts k (Ok (rhs, ts1, k1)) →
  apply_binary op lhs rhs = Ok v → (S k1 ≤ MAX_OPERATIONS)%nat → runs_l min d v ts1 (S k1) r →
  runs_l min d lhs (op_token op :: ts) k r.
Proof.
  intros Hm (He & n & En) Hv Hk (Hr & m & Em). split; [done|]. exists (S (n + m)). cbn [parse_loop tail].
  rewrite peek_op, (proj2 (Nat.ltb_ge _ _) Hm), (more_e n (n + m) _ _ _ _ _ En He) by lia. cbn [lift map_err].
  rewrite Hv. cbn [lift map_err]. unfold bump_operation_count. rewrite (proj2 (Nat.ltb_ge _ _) Hk).
  apply (more_l m); [done|done|lia].
Qed.

Lemma runs_l_err min d lhs op ts k r x :
  (min ≤ precedence op)%nat → runs_e (rhs_precedence op) (S d) ts k r →
  (let? st := r in lift (apply_binary op lhs st.1.1)) = Err (Some x) →
  runs_l min d lhs (op_token op :: ts) k (Err (Some x)).
Proof.
  intros Hm (He & n & En) Hv. split; [done|]. exists (S n). cbn [parse_loop tail].
  rewrite peek_op, (proj2 (Nat.ltb_ge _ _) Hm), En. destruct r as [[[rhs ts1] k1]|e]; [|by simpl in Hv; injection Hv as ->].
  simpl in Hv. by rewrite Hv.
Qed.


Lemma runs_p_num d v repr ts k : (d ≤ MAX_AST_DEPTH)%nat → runs_p d (Number v repr :: ts) k (Ok (v, ts, k)).
Proof.
  intros Hd. split; [done|]. exists 1%nat. cbn [parse_prefix]. by rewrite (proj2 (Nat.ltb_ge _ _) Hd).
Qed.

Lemma runs_p_pos d ts k r : (d ≤ MAX_AST_DEPTH)%nat → runs_p (S d) ts k r → runs_p d (Plus :: ts) k r.
Proof.
  intros Hd (Hr & n & En). split; [done|]. exists (S n). cbn [parse_prefix].
  by rewrite (proj2 (Nat.ltb_ge _ _) Hd).
Qed.

Lemma runs_p_neg d ts k r :
  (d ≤ MAX_AST_DEPTH)%nat → runs_p (S d) ts k r →
  (∀ v ts' k', r = Ok (v, ts', k') → (S k' ≤ MAX_OPERATIONS)%nat) →
  runs_p d (Minus :: ts) k
    (let? st := r in
     let? v := lift (ensure_finite (f_neg st.1.1) "unary -") in Ok (v, st.1.2, S st.2)).
Proof.
  intros Hd (Hr & n & En) Hk. split.
  - destruct r as [[[v ts'] k']|e]; simpl; [|congruence]. by destruct (ensure_finite _ _).
  - exists (S n). cbn [parse_prefix]. rewrite (proj2 (Nat.ltb_ge _ _) Hd), En.
    destruct r as [[[v ts'] k']|e]; [|done]. unfold bump_operation_count.
    by rewrite (proj2 (Nat.ltb_ge _ _) (Hk v ts' k' eq_refl)).
Qed.

Lemma runs_p_paren d ts k r :
  (d ≤ MAX_AST_DEPTH)%nat → runs_e 0 (S d) ts k r →
  (∀ v ts' k', r = Ok (v, ts', k') → ∃ ts'', ts' = RParen :: ts'') →
  runs_p d (LParen :: ts) k (let? st := r in Ok (st.1.1, tail st.1.2, st.2)).
Proof.
  intros Hd (Hr & n & En) Hp. split; [destruct r; simpl; congruence|]. exists (S n). cbn [parse_prefix].
  rewrite (proj2 (Nat.ltb_ge _ _) Hd), En. destruct r as [[[v ts'] k']|e]; [|done].
  by destruct (Hp v ts' k' eq_refl) as [ts'' ->].
Qed.

(** ** Every expression of the grammar evaluates to its value *)

Definition outcome (e : expr) (ts : list Token) (k : nat) : parsed :=
  let? v := lift (value e) in Ok (v, ts, (k + count e)%nat).

(** Whatever the loop makes of the tokens after [e], the call makes of all of them. *)
Definition continues (min d : nat) (e : expr) (ts : list Token) (k : nat) : Prop :=
  match value e with
  | Ok v => ∀ r, runs_l min d v ts (k + count e) r → runs_e min d (print e ++ ts) k r
  | Err x => runs_e min d (print e ++ ts) k (Err (Some x))
  end.

Lemma prefix_continues min d e ts k : runs_p d (print e ++ ts) k (outcome e ts k) → continues min d e ts k.
Proof.
  unfold outcome, continues. destruct (value e) as [v|x]; simpl.
  - intros Hp r Hr. by eapply runs_e_seq.
  - by apply runs_e_err.
Qed.

Lemma continues_stop min d e ts k :
  continues min d e ts k → below min ts → runs_e min d (print e ++ ts) k (outcome e ts k).
Proof.
  unfold outcome, continues. destruct (value e) as [v|x]; simpl; [|done].
  intros Hc Hb. by apply Hc, runs_l_stop.
Qed.

Lemma below_cons t min ts : peek_binary_operator (t :: ts) = None → below min (t :: ts).
Proof. intros E op. by rewrite E. Qed.

Lemma below_mono min min' ts : below min ts → (min ≤ min')%nat → below min' ts.
Proof. intros Hb Hm op Ho. apply Hb in Ho. lia. Qed.

Lemma bin_continues op l r min d ts k :
  grouped (Bin op l r) → (min ≤ precedence op)%nat → below (rhs_precedence op) ts →
  (S (k + count l + count r) ≤ MAX_OPERATIONS)%nat →
  continues min d l (op_token op :: print r ++ ts) k →
  runs_e (rhs_precedence op) (S d) (print r ++ ts) (k + count l) (outcome r ts (k + count l)) →
  continues min d (Bin op l r) ts k.
Proof.
  intros Hn Hm Hb Hk Hl Hr. unfold continues in *. cbn [value print count].
  rewrite <- app_assoc. cbn [app]. destruct (value l) as [x|e]; [|done].
  unfold outcome in Hr. destruct (value r) as [y|e]; cbn [lift map_err] in Hr.
  - destruct (apply_binary op x y) as [v|e] eqn:E.
    + intros res Hres. apply Hl. eapply runs_l_step; [done|exact Hr|exact E|done|].
      by replace (S (k + count l + count r)) with (k + S (count l + count r))%nat by lia.
    + apply Hl. eapply runs_l_err; [done|exact Hr|]. simpl. by rewrite E.
  - apply Hl. eapply runs_l_err; [done|exact Hr|done].
Qed.

Lemma complete e :
  grouped e → ∀ d ts k,
  (d + nesting e ≤ MAX_AST_DEPTH)%nat → (k + count e ≤ MAX_OPERATIONS)%nat →
  (binding e = 40%nat → runs_p d (print e ++ ts) k (outcome e ts k)) ∧
  (∀ min, (min ≤ binding e)%nat → below (stop e) ts → continues min d e ts k).
Proof.
  assert (∀ e d ts k, (binding e = 40%nat → runs_p d (print e ++ ts) k (outcome e ts k)) → binding e = 40%nat →
    (binding e = 40%nat → runs_p d (print e ++ ts) k (outcome e ts k)) ∧
    (∀ min, (min ≤ binding e)%nat → below (stop e) ts → continues min d e ts k)) as Hprefix.
  { intros e0 d ts k Hp Hl. split; [done|]. intros. by apply prefix_continues, Hp. }
  induction e as [v repr|e IH|e IH|e IH|op l IHl r IHr]; intros Hn d ts k Hd Hk; cbn [nesting count] in Hd, Hk.
  - apply Hprefix; [|done]. intros _. unfold outcome. simpl. rewrite Nat.add_0_r. apply runs_p_num. lia.
  - destruct Hn as [Hn Hlev]. apply Hprefix; [|done]. intros _. apply runs_p_pos; [lia|].
    apply (IH Hn (S d) ts k); [lia|lia|done].
  - destruct Hn as [Hn Hlev]. apply Hprefix; [|done]. intros _.
    destruct (IH Hn (S d) ts k) as [Hp _]; [lia|lia|]. specialize (Hp Hlev).
    apply (runs_p_neg d) in Hp; [|lia|].
    + unfold outcome in *. cbn [value print count]. revert Hp. destruct (value e); simpl; [|done].
      destruct (ensure_finite _ _); simpl; [|done]. by rewrite <- plus_n_Sm.
    + unfold outcome. destruct (value e); simpl; [|done]. intros ??? [= _ _ <-]. lia.
  - apply Hprefix; [|done]. intros _. destruct (IH Hn (S d) (RParen :: ts) k) as [_ Hc]; [lia|lia|].
    assert (runs_e 0 (S d) (print e ++ RParen :: ts) k (outcome e (RParen :: ts) k)) as Hr.
    { apply continues_stop; [|by apply below_cons]. apply Hc; [lia|]. by apply below_cons. }
    apply (runs_p_paren d) in Hr; [|lia|].
    + cbn [print app]. rewrite <- app_assoc. cbn [app]. revert Hr. unfold outcome. cbn [value count].
      by destruct (value e).
    + unfold outcome. destruct (value e); simpl; [|done]. intros ??? [= _ <- _]. eauto.
  - split; [destruct op; simpl; lia|]. intros min Hm Hb. pose proof Hn as (Hnl & Hnr & Hr & _).
    apply bin_continues; [done|done|done|lia| |].
    + apply IHl; [done|lia|lia| |].
      * pose proof (grouped_left _ _ _ Hn). destruct l as [| | | |op' l1 l2]; simpl in *;
          [destruct op; simpl in *; lia..|]. destruct Hn as (_ & _ & _ & Hx). destruct op, op'; simpl in *; lia.
      * intros op' Ho. rewrite peek_op in Ho. injection Ho as <-. by apply (grouped_left _ _ r).
    + apply continues_stop; [|done]. apply IHr; [done|lia|lia|done|].
      eapply below_mono; [exact Hb|]. pose proof (binding_stop r). simpl. lia.
Qed.

(** ** What evaluates is an expression of the grammar *)

Lemma peek_cons ts op : peek_binary_operator ts = Some op → ts = op_token op :: tail ts.
Proof. by destruct ts as [|[] ts]; intros [= <-]. Qed.

Lemma sound n :
  (∀ min d ts k v rest k', (min ≤ 40)%nat → parse_expression n min d ts k = Ok (v, rest, k') →
    ∃ e, grouped e ∧ (min ≤ binding e)%nat ∧ ts = print e ++ rest ∧ value e = Ok v ∧ below min rest) ∧
  (∀ min d lhs ts k v rest k' e0, parse_loop n min d lhs ts k = Ok (v, rest, k') →
    grouped e0 → (min ≤ binding e0)%nat → value e0 = Ok lhs → below (stop e0) ts →
    ∃ e, grouped e ∧ (min ≤ binding e)%nat ∧ print e0 ++ ts = print e ++ rest ∧ value e = Ok v ∧ below min rest) ∧
  (∀ d ts k v rest k', parse_prefix n d ts k = Ok (v, rest, k') →
    ∃ e, grouped e ∧ binding e = 40%nat ∧ ts = print e ++ rest ∧ value e = Ok v).
Proof.
  induction n as [|n (IHe & IHl & IHp)]; [done|]. split; [|split].
  - intros min d ts k v rest k' Hmin. simpl. destruct (parse_prefix n d ts k) as [[[lhs ts1] k1]|] eqn:Ep; [|done].
    intros Hl. destruct (IHp _ _ _ _ _ _ Ep) as (e & He & Hlev & -> & Hv).
    eapply IHl; [exact Hl|done|lia|done|]. intros op _. destruct e; simpl in *; destruct op; simpl in *; try lia.
    all: destruct op0; simpl in *; lia.
  - intros min d lhs ts k v rest k' e0. simpl. destruct (peek_binary_operator ts) as [op|] eqn:Eo.
    2:{ intros [= <- <- _] H1 H2 H3 _. exists e0. repeat split; try done. intros op. by rewrite Eo. }
    destruct (Nat.ltb_spec (precedence op) min).
    { intros [= <- <- _] H1 H2 H3 _. exists e0. repeat split; try done. intros op'. rewrite Eo. by intros [= <-]. }
    destruct (parse_expression n _ _ _ _) as [[[rhs ts1] k1]|] eqn:Ee; [|done].
    destruct (apply_binary op lhs rhs) as [lhs'|] eqn:Ea; simpl; [|done].
    destruct (bump_operation_count k1) as [k2|]; [|done]. intros Hl Hn0 Hlev Hv0 Hb.
    apply IHe in Ee as (e1 & Hn1 & Hl1 & Et & Hv1 & Hb1); [|destruct op; unfold rhs_precedence; simpl; lia].
    destruct (IHl _ _ _ _ _ _ _ _ (Bin op e0 e1) Hl) as (e & He & Hle & Eq & Hv & Hbr).
    + apply grouped_join; [done|done|by apply Hb|done].
    + done.
    + simpl. by rewrite Hv0, Hv1.
    + done.
    + exists e. split; [done|]. split; [done|]. split; [|done]. rewrite <- Eq, (peek_cons _ _ Eo), Et.
      cbn [print]. by rewrite <- app_assoc.
  - intros d ts k v rest k'. simpl. destruct (_ <? _)%nat; [done|].
    destruct ts as [|[x repr| | | | | | | |] ts]; try done; simpl.
    + intros [= <- <- _]. by exists (Num x repr).
    + intros Hp. destruct (IHp _ _ _ _ _ _ Hp) as (e & He & Hlev & -> & Hv). by exists (Pos e).
    + destruct (parse_prefix n (S d) ts k) as [[[x ts1] k1]|] eqn:Ep; [|done].
      destruct (bump_operation_count k1); [|done].
      destruct (ensure_finite (f_neg x) _) as [y|] eqn:Ef; simpl; [|done]. intros [= <- <- _].
      destruct (IHp _ _ _ _ _ _ Ep) as (e & He & Hlev & -> & Hv). exists (Neg e).
      split; [done|]. split; [done|]. split; [done|]. simpl. by rewrite Hv.
    + destruct (parse_expression n 0 (S d) ts k) as [[[x ts1] k1]|] eqn:Ep; [|done].
      destruct ts1 as [|[] ts1]; try done. intros [= <- <- _].
      apply IHe in Ep as (e & He & _ & -> & Hv & _); [|lia]. exists (Paren e).
      split; [done|]. split; [done|]. split; [|done]. cbn [print app]. by rewrite <- app_assoc.
Qed.

Lemma evaluate_sound ts v :
  evaluate ts = Ok v →
  ∃ e, normal e ∧ print e = ts ∧ (let? x := value e in ensure_finite x "expression") = Ok v.
Proof.
  unfold evaluate. destruct (parse_expression _ _ _ _ _) as [[[x rest] k]|] eqn:E; [|done].
  destruct rest; [|done]. intros Hv.
  apply sound in E as (e & He%normal_grouped & _ & -> & Hx & _); [|lia]. exists e. rewrite app_nil_r, Hx.
  split; [done|]. split; [done|]. unfold lift in Hv. by apply map_err_Ok in Hv.
Qed.

(** The evaluator computes what arithmetic conventions say: a list of tokens that
    evaluates is the text of an expression grouped by precedence (power, then products,
    then sums; signs bind tightest) and associativity (power to the right, the others
    to the left), and the result is the value of that expression; conversely every
    such expression within the nesting limit gives its value or the first error met
    when computing it from left to right. The evaluator always returns. *)
Theorem evaluate_spec (ts : list Token) :
  (length ts ≤ MAX_TOKENS)%nat →
  evaluate ts ≠ Err None ∧
  (∀ v, evaluate ts = Ok v →
    ∃ e, normal e ∧ print e = ts ∧ (let? x := value e in ensure_finite x "expression") = Ok v) ∧
  (∀ e, normal e → print e = ts → (nesting e ≤ MAX_AST_DEPTH)%nat →
    evaluate ts = lift (let? x := value e in ensure_finite x "expression")).
Proof.
  intros Hlen. unfold evaluate. split; [|split].
  - destruct (fuel_enough (fuel_for ts)) as [He _]. destruct (He 0%nat 0%nat ts 0%nat) as [_ Hf].
    specialize (Hf ltac:(unfold fuel_for; lia)).
    destruct (parse_expression _ _ _ _ _) as [[[v [|t rest]] k]|x]; [by destruct (ensure_finite _ _)|done|congruence].
  - apply evaluate_sound.
  - intros e He%normal_grouped <- Hd. destruct (complete e He 0 [] 0) as [_ Hc]; [done| |].
    { pose proof (count_length e). unfold MAX_TOKENS, MAX_OPERATIONS in *. lia. }
    assert (runs_e 0 0 (print e ++ []) 0 (outcome e [] 0)) as (Hne & n & En).
    { apply continues_stop; [apply Hc; [lia|]|]; by intros op. }
    rewrite app_nil_r in En. destruct (fuel_enough (fuel_for (print e))) as [Hf _].
    destruct (Hf 0%nat 0%nat (print e) 0%nat) as [_ Hok]. specialize (Hok ltac:(unfold fuel_for; lia)).
    assert (parse_expression (fuel_for (print e)) 0 0 (print e) 0 = outcome e [] 0) as ->.
    { destruct (Nat.le_gt_cases n (fuel_for (print e))); [by apply (more_e n)|].
      rewrite <- En. symmetry. apply (more_e (fuel_for (print e))); [done|done|lia]. }
    unfold outcome. by destruct (value e).
Qed.
End facts.

(** * The text of an expression *)

Definition head_not (f : char → bool) (s : str) : Prop :=
  match s with c :: _ => f c = false | [] => True end.

Lemma take_while_app (f : char → bool) ds r : forallb f ds = true → head_not f r → take_while f (ds ++ r) = ds.
Proof.
  intros Hds Hr. induction ds as [|c ds IH]; simpl in *.
  - destruct r as [|c r]; [done|]. simpl in *. by rewrite Hr.
  - apply andb_true_iff in Hds as [-> Hds]. by rewrite IH.
Qed.

Lemma take_while_all (f : char → bool) s : forallb f (take_while f s) = true.
Proof. induction s as [|c s IH]; [done|]. simpl. destruct (f c) eqn:E; [|done]. simpl. by rewrite E. Qed.

Lemma take_while_split (f : char → bool) s : s = take_while f s ++ drop (length (take_while f s)) s.
Proof. induction s as [|c s IH]; [done|]. simpl. destruct (f c); [|done]. simpl. by rewrite <- IH. Qed.

Definition number_char (c : char) : bool := is_ascii_digit c || (c =? ch ".")%N.
Definition is_e (c : char) : bool := (c =? ch "e")%N || (c =? ch "E")%N.

Lemma number_char_digit r : head_not number_char r → head_not is_ascii_digit r.
Proof. destruct r as [|c r]; [done|]. unfold number_char. simpl. by intros [? _]%orb_false_iff. Qed.

Definition fraction (fr : str) : Prop := fr = [] ∨ ∃ f, fr = ch "." :: f ∧ forallb is_ascii_digit f = true.

Lemma with_fraction_split ds rest :
  ∃ fr r, with_fraction ds rest = ds ++ fr ∧ rest = fr ++ r ∧ fraction fr.
Proof.
  destruct rest as [|c s]; [exists [], []; rewrite app_nil_r; split; [done|]; split; [done|by left]|]. cbn [with_fraction].
  destruct (N.eqb_spec c (ch ".")) as [->|].
  - eexists (ch "." :: take_while is_ascii_digit s), _. split; [done|]. split.
    + cbn [app]. f_equal. apply take_while_split.
    + right. eexists. split; [done|]. apply take_while_all.
  - exists [], (c :: s). rewrite app_nil_r. split; [done|]. split; [done|by left].
Qed.

Lemma with_fraction_again ds fr r :
  fraction fr → head_not number_char r → with_fraction ds (fr ++ r) = ds ++ fr.
Proof.
  intros [->|(f & -> & Hf)] Hr; cbn [app with_fraction].
  - rewrite app_nil_r. destruct r as [|c r]; [done|]. apply orb_false_iff in Hr as [_ Hc]. cbn [with_fraction]. by rewrite Hc.
  - rewrite N.eqb_refl, take_while_app; [done|done|by apply number_char_digit].
Qed.

(** What [number_body] reads it reads again, wherever the text goes on otherwise. *)
Lemma number_body_again start s body :
  number_body start s = Ok body →
  (∃ r, s = body ++ r) ∧ (∃ c body', body = c :: body' ∧ number_char c = true) ∧
  ∀ start' r', head_not number_char r' → number_body start' (body ++ r') = Ok body.
Proof.
  unfold number_body. destruct s as [|c s]; [done|]. destruct (N.eqb_spec c (ch ".")) as [->|Hdot].
  - destruct (is_nonempty (take_while is_ascii_digit s)) eqn:E; [|done]. intros [= <-]. split; [|split].
    + exists (drop (length (take_while is_ascii_digit s)) s). simpl. by rewrite <- take_while_split.
    + by eexists _, _.
    + intros start' r' Hr. simpl. rewrite take_while_app, E; [done|apply take_while_all|by apply number_char_digit].
  - remember (c :: s) as t eqn:Et. remember (take_while is_ascii_digit t) as ds eqn:Eds.
    pose proof (take_while_split is_ascii_digit t) as Hsplit. rewrite <- Eds in Hsplit.
    pose proof (take_while_all is_ascii_digit t) as Hall. rewrite <- Eds in Hall.
    assert (is_nonempty ds = true → ∃ ds', ds = c :: ds' ∧ number_char c = true) as Hhead.
    { subst t ds. simpl. unfold number_char. destruct (is_ascii_digit c); [|done]. by eexists. }
    assert (∀ r', head_not number_char r' ∨ (∃ x, r' = ch "." :: x) → take_while is_ascii_digit (ds ++ r') = ds) as Htw.
    { intros r' Hr. apply take_while_app; [done|]. destruct Hr as [Hr|[x ->]]; [by apply number_char_digit|done]. }
    destruct (is_nonempty ds) eqn:En.
    2:{ destruct ds; [|done]. rewrite Et. cbn [length drop with_fraction]. by rewrite (proj2 (N.eqb_neq _ _) Hdot). }
    destruct (Hhead eq_refl) as (ds' & Ec & Hc). clear Hhead.
    destruct (with_fraction_split ds (drop (length ds) t)) as (fr & r & Eb & Er & Hfr). rewrite Eb.
    rewrite Er, app_assoc in Hsplit.
    destruct (is_nonempty (List.filter is_ascii_digit (ds ++ fr))) eqn:Ef; [|done]. intros [= <-].
    split; [by exists r|]. split; [by exists c, (ds' ++ fr); rewrite Ec|].
    intros start' r' Hr'. assert (ds ++ fr = c :: ds' ++ fr) as Ecc by by rewrite Ec.
    rewrite Ecc. cbn [app]. rewrite (proj2 (N.eqb_neq _ _) Hdot). cbv zeta.
    assert (c :: (ds' ++ fr) ++ r' = ds ++ fr ++ r') as -> by by rewrite Ec, <- !app_assoc.
    assert (take_while is_ascii_digit (ds ++ fr ++ r') = ds) as ->.
    { apply Htw. destruct Hfr as [->|(f & -> & _)]; [by left|right; by eexists]. }
    rewrite drop_app_length, <- Ecc, with_fraction_again by done. by rewrite Ef.
Qed.

Lemma number_exponent_again i s ex :
  number_exponent i s = Ok ex →
  (∃ r, s = ex ++ r) ∧ head_not number_char ex ∧
  ∀ i' r', head_not is_ascii_digit r' → head_not is_e r' → number_exponent i' (ex ++ r') = Ok ex.
Proof.
  unfold number_exponent. destruct s as [|c s].
  { intros [= <-]. split; [by exists []|]. split; [done|]. intros i' [|c r] _ He; [done|].
    cbn [app]. change ((c =? ch "e")%N || (c =? ch "E")%N) with (is_e c). by rewrite He. }
  change ((c =? ch "e")%N || (c =? ch "E")%N) with (is_e c). destruct (is_e c) eqn:Ec.
  2:{ intros [= <-]. split; [by exists (c :: s)|]. split; [done|]. intros i' [|c' r] _ He; [done|].
      cbn [app]. change ((c' =? ch "e")%N || (c' =? ch "E")%N) with (is_e c'). by rewrite He. }
  cbv zeta. set (sign := match s with c' :: _ => _ | [] => [] end).
  destruct (is_nonempty _) eqn:En; [|done]. intros [= <-].
  set (ds := take_while is_ascii_digit (drop (length sign) s)) in *.
  assert (s = sign ++ drop (length sign) s) as Hs.
  { subst sign. destruct s as [|c' s]; [done|]. by destruct (_ || _). }
  pose proof (take_while_split is_ascii_digit (drop (length sign) s)) as Hd. fold ds in Hd.
  pose proof (take_while_all is_ascii_digit (drop (length sign) s)) as Ha. fold ds in Ha.
  split; [|split].
  - eexists. cbn [app]. f_equal. rewrite <- app_assoc. rewrite Hs at 1. f_equal. exact Hd.
  - cbn [head_not]. unfold is_e in Ec. by apply orb_true_iff in Ec as [->%N.eqb_eq| ->%N.eqb_eq].
  - intros i' r' Hr' _. cbn [app]. change ((c =? ch "e")%N || (c =? ch "E")%N) with (is_e c). rewrite Ec.
    assert (match (sign ++ ds) ++ r' with
            | c' :: _ => if (c' =? ch "+")%N || (c' =? ch "-")%N then [c'] else []
            | [] => [] end = sign) as ->.
    { subst sign. destruct s as [|c' s]; [by destruct ds|]. destruct ((c' =? ch "+")%N || (c' =? ch "-")%N) eqn:Esg.
      - cbn [app]. by rewrite Esg.
      - destruct ds as [|c'' ds'] eqn:Eds; [done|]. cbn [app]. simpl in Ha. apply andb_true_iff in Ha as [Ha _].
        destruct (N.eqb_spec c'' (ch "+")) as [->|]; [done|]. destruct (N.eqb_spec c'' (ch "-")) as [->|]; done. }
    rewrite <- app_assoc, drop_app_length, take_while_app, En; done.
Qed.

(** A number token that its text gives back, before any text that does not go on with it. *)
Definition delimits (r : str) : Prop := head_not number_char r ∧ head_not is_e r.
Definition rereads (t : Token) : Prop :=
  match t with
  | Number _ repr =>
      (∃ c body, repr = c :: body ∧ number_char c = true) ∧
      ∀ start r, delimits r → parse_number_token start (repr ++ r) = Ok (t, length repr)
  | _ => True
  end.

Lemma parse_number_rereads start s t len :
  parse_number_token start s = Ok (t, len) →
  (∃ v repr, t = Number v repr) ∧ len = length (token_repr t) ∧ (∃ r, s = token_repr t ++ r) ∧ rereads t.
Proof.
  unfold parse_number_token. intros Hp. step Hp as body Hb. step Hp as ex Hex. cbv zeta in Hp.
  step Hp as v Hv. step Hp as v' Hv'. injection Hp as <- <-.
  destruct (number_body_again _ _ _ Hb) as ([r ->] & (c & body' & Ec & Hc) & Hagain).
  rewrite drop_app_length in Hex. destruct (number_exponent_again _ _ _ Hex) as ([r' ->] & Hh & Hagain').
  split; [by eexists _, _|]. split; [done|]. split; [exists r'; simpl; by rewrite <- app_assoc|]. split.
  - exists c, (body' ++ ex). by rewrite Ec.
  - intros start' r [Hr1 Hr2]. unfold parse_number_token. rewrite <- app_assoc, Hagain.
    + rewrite drop_app_length, (Hagain' _ r (number_char_digit _ Hr1) Hr2), Hv, Hv'. done.
    + destruct ex; [done|done].
Qed.

Lemma lex_skip pre n start s : lex (length pre) n start (pre ++ s) = lex 0 n (start + length pre) s.
Proof.
  revert start. induction pre as [|c pre IH]; intros start; simpl; [by rewrite Nat.add_0_r|].
  rewrite IH. f_equal. lia.
Qed.

Lemma simple_token_repr t : (∃ v repr, t = Number v repr) ∨
  ∃ c, token_repr t = [c] ∧ simple_token c = Some t ∧ is_blank c = false ∧ number_char c = false ∧ is_e c = false.
Proof. destruct t; [left; by eexists _, _|right; by eexists; repeat split..]. Qed.

Lemma simple_token_text c t : simple_token c = Some t → token_repr t = [c] ∧ rereads t.
Proof.
  unfold simple_token. intros Hs.
  repeat match type of Hs with
  | (if ?b then _ else _) = _ => destruct b eqn:E; [apply N.eqb_eq in E as ->; by injection Hs as <-|clear E]
  end.
  done.
Qed.

Lemma number_char_not_blank c : number_char c = true → is_blank c = false.
Proof.
  unfold number_char, is_ascii_digit, in_range, is_blank. rewrite orb_true_iff, andb_true_iff, !N.leb_le, N.eqb_eq.
  change (ch ".") with 46%N. intros Hc. apply bool_decide_eq_false. rewrite !elem_of_cons, elem_of_nil. lia.
Qed.

(** No two numbers stand side by side. *)
Definition is_number (t : Token) : bool := match t with Number _ _ => true | _ => false end.
Fixpoint apart (ts : list Token) : Prop :=
  match ts with
  | t :: (t' :: _) as ts' => is_number t && is_number t' = false ∧ apart ts'
  | _ => True
  end.

Lemma apart_delimits t ts : is_number t = true → apart (t :: ts) → delimits (normalize_expression ts).
Proof.
  intros Ht. destruct ts as [|t' ts]; [done|]. intros [Ha _]. rewrite Ht in Ha. simpl in Ha.
  destruct (simple_token_repr t') as [(v & r & ->)|(c & Er & _ & _ & Hn & He)]; [done|].
  unfold normalize_expression. cbn [flat_map]. rewrite Er. done.
Qed.

Lemma lex_normalized ts n start :
  Forall rereads ts → apart ts → (n + length ts ≤ MAX_TOKENS)%nat →
  lex 0 n start (normalize_expression ts) = Ok ts.
Proof.
  revert n start. induction ts as [|t ts IH]; intros n start Hr Ha Hn; [done|].
  apply Forall_cons in Hr as [Hrt Hr]. cbn [length] in Hn.
  assert (apart ts) as Ha' by (destruct ts; [done|]; by destruct Ha).
  change (normalize_expression (t :: ts)) with (token_repr t ++ normalize_expression ts).
  destruct (simple_token_repr t) as [(v & repr & ->)|(c & Er & Hs & Hb & Hnc & _)].
  - destruct Hrt as [(c & body & -> & Hc) Hread].
    pose proof (apart_delimits (Number v (c :: body)) ts eq_refl Ha) as Hd. cbn [token_repr app lex].
    rewrite (number_char_not_blank _ Hc). fold (number_char c). rewrite Hc.
    change (c :: body ++ normalize_expression ts) with ((c :: body) ++ normalize_expression ts).
    rewrite (Hread start _ Hd), (proj2 (Nat.ltb_ge _ _)) by lia. cbn [fst snd length].
    rewrite Nat.sub_succ, Nat.sub_0_r, lex_skip, IH; [done|done|done|lia].
  - rewrite Er. cbn [app lex]. rewrite Hb. fold (number_char c). rewrite Hnc, Hs.
    rewrite (proj2 (Nat.ltb_ge _ _)) by lia. cbn [fst snd]. rewrite IH; [done|done|done|lia].
Qed.

(** What the lexer gives: tokens that can be read again, not too many, and no longer than
    the text. *)
Lemma lex_tokens s : ∀ skip n start ts,
  lex skip n start s = Ok ts → (n ≤ MAX_TOKENS)%nat →
  Forall rereads ts ∧ (n + length ts ≤ MAX_TOKENS)%nat ∧
  (utf8_len (normalize_expression ts) ≤ utf8_len (drop skip s))%nat.
Proof.
  induction s as [|c s IH]; intros [|skip] n start ts Hl Hn; cbn [lex] in Hl.
  - injection Hl as <-. rewrite Nat.add_0_r. by repeat split.
  - injection Hl as <-. rewrite Nat.add_0_r. by repeat split.
  - destruct (is_blank c).
    { destruct (IH _ _ _ _ Hl Hn) as (H1 & H2 & H3). split; [done|]. split; [done|].
      rewrite drop_0 in *. change (c :: s) with ([c] ++ s). rewrite utf8_len_app. lia. }
    step Hl as rd Hrd. destruct rd as [t len]. cbn [fst snd] in Hl.
    destruct (Nat.ltb_spec MAX_TOKENS (S n)); [done|]. step Hl as ts' Hts. injection Hl as <-.
    destruct (IH _ _ _ _ Hts) as (H1 & H2 & H3); [lia|].
    assert (rereads t ∧ len = length (token_repr t) ∧ ∃ r, c :: s = token_repr t ++ r ∧ len ≠ 0%nat)
      as (Ht & -> & r & Er & Hlen).
    { destruct (is_ascii_digit c || _).
      - destruct (parse_number_rereads _ _ _ _ Hrd) as ((v & repr & ->) & -> & [r Er] & Ht).
        split; [done|]. split; [done|]. exists r. split; [done|]. by destruct Ht as [(c' & b & -> & _) _].
      - destruct (simple_token c) as [t'|] eqn:Es; [|done]. injection Hrd as -> <-.
        destruct (simple_token_text _ _ Es) as [Et Ht]. split; [done|]. rewrite Et. split; [done|]. by exists s. }
    split; [by constructor|]. split; [simpl; lia|]. rewrite drop_0, Er, utf8_len_app.
    change (normalize_expression (t :: ts')) with (token_repr t ++ normalize_expression ts').
    rewrite utf8_len_app. destruct (token_repr t) as [|c' b]; [done|]. injection Er as <- ->.
    cbn [length] in H3. rewrite Nat.sub_succ, Nat.sub_0_r, drop_app_length in H3. lia.
  - destruct (IH _ _ _ _ Hl Hn) as (H1 & H2 & H3). by split.
Qed.

Lemma print_apart e ts :
  apart ts → match ts with t :: _ => is_number t = false | [] => True end → apart (print e ++ ts).
Proof.
  revert ts. induction e as [v repr|e IH|e IH|e IH|op l IHl r IHr]; intros ts Ha Hh; cbn [print app].
  - destruct ts as [|t ts]; [done|]. by split.
  - specialize (IH ts Ha Hh). by destruct (print e ++ ts).
  - specialize (IH ts Ha Hh). by destruct (print e ++ ts).
  - rewrite <- app_assoc. cbn [app]. assert (apart (RParen :: ts)) as Hp by by destruct ts.
    specialize (IH _ Hp eq_refl). by destruct (print e ++ RParen :: ts).
  - rewrite <- app_assoc. apply IHl; [|by destruct op]. cbn [app]. specialize (IHr ts Ha Hh).
    destruct (print r ++ ts); [done|]. split; [by destruct op|done].
Qed.

(** The normalised expression that the tool reports stands for the one it was given: it
    evaluates to the same result, and is its own normal form. *)
Theorem normalized_evaluates `{Libm} (expression normalized : str) (v : f64) :
  evaluate_expression expression = Ok (v, normalized) →
  evaluate_expression normalized = Ok (v, normalized).
Proof.
  unfold evaluate_expression. destruct (Nat.ltb_spec MAX_EXPRESSION_CHARS (utf8_len expression)) as [|Hlen]; [done|].
  intros He. step He as ts Hts. step He as v' Hv. injection He as -> <-. apply map_err_Ok in Hts.
  unfold tokenize in Hts. step Hts as ts' Hlex. destruct (is_nonempty ts') eqn:En; [|done]. injection Hts as ->.
  destruct (lex_tokens _ _ _ _ _ Hlex) as (Hr & Hn & Hu); [lia|]. rewrite drop_0 in Hu.
  destruct (evaluate_sound _ _ Hv) as (e & _ & Ep & _).
  assert (apart ts) as Ha by (rewrite <- Ep, <- (app_nil_r (print e)); by apply print_apart).
  rewrite (proj2 (Nat.ltb_ge _ _)) by lia. unfold tokenize. rewrite (lex_normalized ts); [|done|done|lia].
  rewrite En. cbn [lift map_err]. by rewrite Hv.
Qed.

(** ** Findings *)

#[local] Existing Instance toy_libm.

(** The largest double that is admitted as an integer is [2^63], which [i64] cannot hold. *)
Example largest_integer_off :
  execute (JObject [(lit "expression", JString "9223372036854775808")])
  = Ok (JsonInt 9223372036854775807, lit "9223372036854775808").
Proof. vm_compute. reflexivity. Qed.

(** A sign binds tighter than the power. *)
Example sign_before_power :
  evaluate_expression "-2^2" = Ok (f_of_Z 4 0, lit "-2^2").
Proof. vm_compute. reflexivity. Qed.

(** * Witnesses *)

Lemma evaluate_spec_witness :
  let two := f_of_Z 2 0 in
  let e := Bin Add (Num two "2") (Bin Multiply (Num two "2") (Num two "2")) in
  evaluate (print e) = Ok (f_of_Z 6 0).
Proof.
  cbv zeta. set (e := Bin Add _ _).
  rewrite (proj2 (proj2 (evaluate_spec (print e) ltac:(vm_compute; lia))) e).
  - vm_compute. reflexivity.
  - vm_compute. lia.
  - reflexivity.
  - vm_compute. lia.
Defined.

Lemma normalized_evaluates_witness :
  evaluate_expression " (10 + 2) / 3 " = Ok (f_of_Z 4 0, lit "(10+2)/3") ∧
  evaluate_expression "(10+2)/3" = Ok (f_of_Z 4 0, lit "(10+2)/3").
Proof.
  split; [vm_compute; reflexivity|].
  apply (normalized_evaluates " (10 + 2) / 3 "). vm_compute. reflexivity.
Defined.
