(* ===== verification/Vault.v ===== *)
(** The encryption-at-rest vault.

    Models [crates/vault/src/vault.rs] (the state machine), [key_wrap.rs],
    [recovery.rs], [kdf.rs], [traits.rs] and [migration.rs].  The cipher is an
    interface, the class [Cipher], as in the source; its laws and those of the
    third-party encoders are the classes [CipherLaws] and [KitLaws], where the
    cipher is idealised: what it encrypts opens under the same key and context only.
    The database holds at most one row of metadata; a transaction is the row it
    would commit.  Random bytes and the faults of the database and of the file system
    are arguments. *)
From S2P Require Import Prelude Utf8.
Local Open Scope result_scope.

(** ** Errors, ciphers and encoders *)

Inductive VaultError :=
| Sealed
| AlreadyInitialized
| NotInitialized
| BadCredential
| CipherError (message : str)
| Base64 (source : str)
| Database (source : str)
| Json (source : str).

Inductive VaultStatus := StatusUninitialized | StatusSealed | StatusUnsealed.

(** Argon2id parameters. *)
Record KdfParams := { m_cost : Z; t_cost : Z; p_cost : Z }.
Definition KdfParams_default : KdfParams := {| m_cost := 65536; t_cost := 3; p_cost := 1 |}.

(** The trait; [random] are the bytes an encryption draws for its nonce. *)
Class Cipher := {
  version_tag : N;
  encrypt (random key plaintext aad : bytes) : result bytes VaultError;
  decrypt (key ciphertext aad : bytes) : result bytes VaultError;
}.

(** What an authenticated cipher promises. *)
Class CipherLaws `{Cipher} := {
  decrypt_encrypt random key plaintext aad c :
    encrypt random key plaintext aad = Ok c → decrypt key c aad = Ok plaintext;
  decrypt_authentic random key plaintext aad c key' aad' plaintext' :
    encrypt random key plaintext aad = Ok c → decrypt key' c aad' = Ok plaintext' →
    key' = key ∧ aad' = aad;
}.

(** base64, Argon2, [serde_json] of the parameters and SHA-256. *)
Class Kit := {
  b64_encode : bytes → str;
  b64_decode : str → result bytes str;
  argon2_params : KdfParams → result unit str;
  argon2_hash (params : KdfParams) (password salt : bytes) : result bytes str;
  params_to_json : KdfParams → result str str;
  params_of_json : str → result KdfParams str;
  sha256_hex : str → str;
}.

Class KitLaws `{Kit} := {
  b64_round_trip b : b64_decode (b64_encode b) = Ok b;
  params_round_trip p s : params_to_json p = Ok s → params_of_json s = Ok p;
}.

(** [{:#04x}] of a byte. *)
Definition hex_digit (n : N) : char := if (n <? 10)%N then (48 + n)%N else (87 + n)%N.
Definition hex04 (b : N) : str := lit "0x" ++ [hex_digit (b / 16)%N; hex_digit (b mod 16)%N].

Section vault.
Context `{Unicode, Cipher, Kit}.

(** ** Key derivation and key wrapping *)

Definition derive_key (password salt : bytes) (params : KdfParams) : result bytes VaultError :=
  let? _ := map_err (λ e, CipherError (lit "invalid KDF params: " ++ e)) (argon2_params params) in
  map_err (λ e, CipherError (lit "KDF failed: " ++ e)) (argon2_hash params password salt).

Definition generate_salt (random : bytes) : str := b64_encode random.
Definition decode_salt (b64 : str) : result bytes VaultError := map_err Base64 (b64_decode b64).

Definition WRAP_AAD : bytes := lit "dek-wrap".

Definition wrap_dek (random kek dek : bytes) : result str VaultError :=
  let? encrypted := encrypt random kek dek WRAP_AAD in
  Ok (b64_encode (version_tag :: encrypted)).

Definition unwrap_dek (kek : bytes) (wrapped_b64 : str) : result bytes VaultError :=
  let? blob := map_err Base64 (b64_decode wrapped_b64) in
  match blob with
  | [] => Err (CipherError "empty wrapped DEK")
  | version :: body =>
      if negb (version =? version_tag)%N
      then Err (CipherError (lit "unsupported cipher version: " ++ hex04 version ++
                             lit ", expected " ++ hex04 version_tag))
      else
        let? plaintext := decrypt kek body WRAP_AAD in
        if negb (length plaintext =? 32)
        then Err (CipherError (lit "unwrapped DEK has wrong length: " ++
                               lit (pretty.pretty (N.of_nat (length plaintext))) ++ lit " (expected 32)"))
        else Ok plaintext
  end.

(** ** Recovery keys *)

Definition RECOVERY_SALT : bytes := lit "moltis-vault-recovery-key-salt!!".
Definition recovery_kdf_params : KdfParams := {| m_cost := 16384; t_cost := 2; p_cost := 1 |}.
Definition CHARSET : list char := lit "ABCDEFGHJKLMNPQRSTUVWXYZ23456789".

Definition charset_at (n : N) : char := nth (N.to_nat (n mod 32)) CHARSET 0%N.

(** [chars.chunks(4)]. *)
Fixpoint chunks4 (l : list char) : list (list char) :=
  match l with
  | [] => []
  | a :: b :: c :: d :: l' => [a; b; c; d] :: chunks4 l'
  | _ => [l]
  end.

Definition entropy_chars (entropy : bytes) : list char :=
  flat_map (λ byte, [charset_at (N.shiftr byte 4); charset_at (N.land byte 15)]) entropy.

(** The phrase of the key made from 16 random bytes. *)
Definition generate_recovery_key (entropy : bytes) : str :=
  join "-" (chunks4 (entropy_chars entropy)).

Definition normalized_phrase (phrase : str) : str :=
  to_uppercase (List.filter (λ c, negb (c =? ch "-")%N) phrase).

Definition derive_recovery_kek (phrase : str) : result bytes VaultError :=
  derive_key (as_bytes (normalized_phrase phrase)) RECOVERY_SALT recovery_kdf_params.

Definition wrap_with_recovery (random dek : bytes) (phrase : str) : result (str * str) VaultError :=
  let? recovery_kek := derive_recovery_kek phrase in
  let? wrapped := wrap_dek random recovery_kek dek in
  Ok (wrapped, sha256_hex (normalized_phrase phrase)).

Definition unwrap_with_recovery (wrapped_b64 phrase : str) : result bytes VaultError :=
  let? recovery_kek := derive_recovery_kek phrase in
  unwrap_dek recovery_kek wrapped_b64.

Definition verify_recovery_hash (phrase stored_hash : str) : bool :=
  str_eqb (sha256_hex (normalized_phrase phrase)) stored_hash || str_eqb (sha256_hex phrase) stored_hash.

(** ** The vault *)

Record VaultRow := {
  kdf_salt : str;
  kdf_params : str;
  wrapped_dek : str;
  recovery_wrapped_dek : option str;
  recovery_key_hash : option str;
}.

(** The committed row of the database and the key in memory. *)
Record Vault := { row : option VaultRow; dek : option bytes }.
Definition Vault_new : Vault := {| row := None; dek := None |}.

(** The random bytes an operation draws. *)
Record randomness := {
  rnd_dek : bytes;
  rnd_salt : bytes;
  rnd_recovery : bytes;
  rnd_wrap : bytes;
  rnd_recovery_wrap : bytes;
}.

(** Which of its calls to the database fail, and how. *)
Record faults := {
  f_begin : option str;
  f_load : option str;
  f_execute : option str;
  f_commit : option str;
  f_reload : option str;
}.
Definition no_faults : faults :=
  {| f_begin := None; f_load := None; f_execute := None; f_commit := None; f_reload := None |}.

(** The answer of a database call. *)
Definition query {A} (fault : option str) (a : A) : result A VaultError :=
  match fault with Some e => Err (Database e) | None => Ok a end.

Definition status (fault : option str) (v : Vault) : result VaultStatus VaultError :=
  let? r := query fault (row v) in
  match r with
  | None => Ok StatusUninitialized
  | Some _ => match dek v with Some _ => Ok StatusUnsealed | None => Ok StatusSealed end
  end.

(** The recovery key and the row inserted in the transaction. *)
Definition initialize_in_transaction (f : faults) (e : randomness) (password : str)
    (current : option VaultRow) : result (str * VaultRow) VaultError :=
  let? existing := query (f_load f) current in
  match existing with
  | Some _ => Err AlreadyInitialized
  | None =>
      let salt_b64 := generate_salt (rnd_salt e) in
      let? salt := decode_salt salt_b64 in
      let? kek := derive_key (as_bytes password) salt KdfParams_default in
      let? wrapped := wrap_dek (rnd_wrap e) kek (rnd_dek e) in
      let recovery_key := generate_recovery_key (rnd_recovery e) in
      let? recovery := wrap_with_recovery (rnd_recovery_wrap e) (rnd_dek e) recovery_key in
      let '(recovery_wrapped, recovery_hash) := recovery in
      let? params_json := map_err Json (params_to_json KdfParams_default) in
      let? _ := query (f_execute f) tt in
      Ok (recovery_key,
          {| kdf_salt := salt_b64; kdf_params := params_json; wrapped_dek := wrapped;
             recovery_wrapped_dek := Some recovery_wrapped; recovery_key_hash := Some recovery_hash |})
  end.

(** The key a password gives for a row. *)
Definition password_kek (r : VaultRow) (password : str) : result bytes VaultError :=
  let? salt := decode_salt (kdf_salt r) in
  let? params := map_err Json (params_of_json (kdf_params r)) in
  derive_key (as_bytes password) salt params.

Definition unseal (fault : option str) (v : Vault) (password : str) : result unit VaultError * Vault :=
  let key :=
    let? loaded := query fault (row v) in
    let? r := ok_or NotInitialized loaded in
    let? kek := password_kek r password in
    map_err (λ _, BadCredential) (unwrap_dek kek (wrapped_dek r)) in
  match key with
  | Ok k => (Ok tt, {| row := row v; dek := Some k |})
  | Err err => (Err err, v)
  end.

Definition unseal_with_recovery (fault : option str) (v : Vault) (phrase : str)
    : result unit VaultError * Vault :=
  let key :=
    let? loaded := query fault (row v) in
    let? r := ok_or NotInitialized loaded in
    let? recovery_wrapped := ok_or (CipherError "no recovery key configured") (recovery_wrapped_dek r) in
    map_err (λ _, BadCredential) (unwrap_with_recovery recovery_wrapped phrase) in
  match key with
  | Ok k => (Ok tt, {| row := row v; dek := Some k |})
  | Err err => (Err err, v)
  end.

Definition seal (v : Vault) : Vault := {| row := row v; dek := None |}.

Definition commit (v : Vault) (r : VaultRow) : Vault := {| row := Some r; dek := dek v |}.

Definition initialize (f : faults) (e : randomness) (v : Vault) (password : str)
    : result str VaultError * Vault :=
  let tx :=
    let? _ := query (f_begin f) tt in
    let? made := initialize_in_transaction f e password (row v) in
    query (f_commit f) made in
  match tx with
  | Err err => (Err err, v)
  | Ok (recovery_key, r) =>
      let '(res, v') := unseal (f_reload f) (commit v r) password in
      (let? _ := res in Ok recovery_key, v')
  end.

(** The row a key wrapped anew leaves. *)
Definition rewrapped (e : randomness) (r : VaultRow) (params : KdfParams) (new : str) (k : bytes)
    (f : faults) : result VaultRow VaultError :=
  let new_salt_b64 := generate_salt (rnd_salt e) in
  let? new_salt := decode_salt new_salt_b64 in
  let? new_kek := derive_key (as_bytes new) new_salt params in
  let? new_wrapped := wrap_dek (rnd_wrap e) new_kek k in
  let? params_json := map_err Json (params_to_json params) in
  let? _ := query (f_execute f) tt in
  Ok {| kdf_salt := new_salt_b64; kdf_params := params_json; wrapped_dek := new_wrapped;
        recovery_wrapped_dek := recovery_wrapped_dek r; recovery_key_hash := recovery_key_hash r |}.

Definition change_password_in_transaction (f : faults) (e : randomness) (v : Vault) (old new : str)
    : result VaultRow VaultError :=
  let? loaded := query (f_load f) (row v) in
  let? r := ok_or NotInitialized loaded in
  let? salt := decode_salt (kdf_salt r) in
  let? params := map_err Json (params_of_json (kdf_params r)) in
  let? old_kek := derive_key (as_bytes old) salt params in
  let? _ := map_err (λ _, BadCredential) (unwrap_dek old_kek (wrapped_dek r)) in
  let? k := ok_or Sealed (dek v) in
  rewrapped e r params new k f.

Definition rewrap_unsealed_in_transaction (f : faults) (e : randomness) (v : Vault) (new : str)
    : result VaultRow VaultError :=
  let? loaded := query (f_load f) (row v) in
  let? r := ok_or NotInitialized loaded in
  let? params := map_err Json (params_of_json (kdf_params r)) in
  let? k := ok_or Sealed (dek v) in
  rewrapped e r params new k f.

(** A transaction begun and committed around an update of the row. *)
Definition in_own_transaction (f : faults) (v : Vault) (tx : result VaultRow VaultError)
    : result unit VaultError * Vault :=
  match (let? _ := query (f_begin f) tt in let? r := tx in query (f_commit f) r) with
  | Ok r => (Ok tt, commit v r)
  | Err err => (Err err, v)
  end.

Definition change_password (f : faults) (e : randomness) (v : Vault) (old new : str)
    : result unit VaultError * Vault :=
  in_own_transaction f v (change_password_in_transaction f e v old new).
Definition rewrap_unsealed (f : faults) (e : randomness) (v : Vault) (new : str)
    : result unit VaultError * Vault :=
  in_own_transaction f v (rewrap_unsealed_in_transaction f e v new).

Definition encrypt_string (random : bytes) (v : Vault) (plaintext aad : str) : result str VaultError :=
  let? k := ok_or Sealed (dek v) in
  let? encrypted := encrypt random k (as_bytes plaintext) (as_bytes aad) in
  Ok (b64_encode (version_tag :: encrypted)).

(** The message of the UTF-8 error is left out. *)
Definition decrypt_string (v : Vault) (b64 aad : str) : result str VaultError :=
  let? k := ok_or Sealed (dek v) in
  let? blob := map_err Base64 (b64_decode b64) in
  match blob with
  | [] => Err (CipherError "empty blob")
  | version :: body =>
      if negb (version =? version_tag)%N
      then Err (CipherError (lit "unsupported cipher version: " ++ hex04 version))
      else
        let? plaintext := decrypt k body (as_bytes aad) in
        ok_or (CipherError "invalid utf-8 sequence") (from_utf8 plaintext)
  end.

Definition is_unsealed (v : Vault) : bool := isSome (dek v).
End vault.

#[export] Instance VaultError_eq_dec : EqDecision VaultError.
Proof. solve_decision. Defined.

(** * Facts *)

Lemma query_Ok {A} fault (a b : A) : query fault a = Ok b ↔ fault = None ∧ b = a.
Proof. destruct fault; simpl; split; [done|by intros [? _]|by intros [= ->]|by intros [_ ->]]. Qed.

Lemma query_None {A} (a : A) : query None a = Ok a.
Proof. done. Qed.

Section facts.
Context `{Unicode, CipherLaws, KitLaws}.

(** [w] holds the key [k] under [kek]. *)
Definition wrapped (w : str) (kek k : bytes) : Prop :=
  ∃ random c, encrypt random kek k WRAP_AAD = Ok c ∧ w = b64_encode (version_tag :: c).

Lemma wrap_dek_wrapped random kek k w : wrap_dek random kek k = Ok w → wrapped w kek k.
Proof.
  unfold wrap_dek. intros Hw. step Hw as c He. injection Hw as <-. by exists random, c.
Qed.

Lemma unwrap_wrapped w kek k :
  wrapped w kek k → length k = 32 →
  unwrap_dek kek w = Ok k ∧ ∀ kek' k', unwrap_dek kek' w = Ok k' → kek' = kek.
Proof.
  intros (random & c & He & ->) Hk. unfold unwrap_dek. rewrite b64_round_trip. cbn [map_err].
  rewrite N.eqb_refl. cbn [negb]. split.
  - by rewrite (decrypt_encrypt _ _ _ _ _ He), Hk.
  - intros kek' k' Hu. step Hu as p Hp.
    exact (proj1 (decrypt_authentic _ _ _ _ _ _ _ _ He Hp)).
Qed.

(** ** Sequences of operations *)

(** A transaction of the caller is committed or rolled back. *)
Inductive op :=
| OInitialize (f : faults) (e : randomness) (password : str)
| OInitializeTx (f : faults) (e : randomness) (password : str) (committed : bool)
| OUnseal (fault : option str) (password : str)
| OUnsealRecovery (fault : option str) (phrase : str)
| OSeal
| OChange (f : faults) (e : randomness) (old new : str)
| OChangeTx (f : faults) (e : randomness) (old new : str) (committed : bool)
| ORewrap (f : faults) (e : randomness) (new : str)
| ORewrapTx (f : faults) (e : randomness) (new : str) (committed : bool).

(** What its owner knows of an initialised vault. *)
Record secrets := { password : str; phrase : str; key : bytes }.

Definition commit_if (committed : bool) (v : Vault) (tx : result VaultRow VaultError) : bool * Vault :=
  match tx with
  | Ok r => if committed then (true, commit v r) else (false, v)
  | Err _ => (false, v)
  end.

Definition secrets_of (e : randomness) (pw : str) : secrets :=
  {| password := pw; phrase := generate_recovery_key (rnd_recovery e); key := rnd_dek e |}.
Definition with_password (pw : str) (s : secrets) : secrets :=
  {| password := pw; phrase := phrase s; key := key s |}.

(** An operation, with the secrets before and after it. *)
Definition apply (o : op) (vg : Vault * option secrets) : Vault * option secrets :=
  let '(v, g) := vg in
  match o with
  | OInitialize f e pw =>
      let v' := (initialize f e v pw).2 in
      (v', if isSome (row v) then g else (λ _, secrets_of e pw) <$> row v')
  | OInitializeTx f e pw committed =>
      let '(b, v') := commit_if committed v (let? made := initialize_in_transaction f e pw (row v) in Ok made.2) in
      (v', if b then Some (secrets_of e pw) else g)
  | OUnseal fault pw => ((unseal fault v pw).2, g)
  | OUnsealRecovery fault ph => ((unseal_with_recovery fault v ph).2, g)
  | OSeal => (seal v, g)
  | OChange f e old new =>
      let '(r, v') := change_password f e v old new in (v', if is_ok r then with_password new <$> g else g)
  | OChangeTx f e old new committed =>
      let '(b, v') := commit_if committed v (change_password_in_transaction f e v old new) in
      (v', if b then with_password new <$> g else g)
  | ORewrap f e new =>
      let '(r, v') := rewrap_unsealed f e v new in (v', if is_ok r then with_password new <$> g else g)
  | ORewrapTx f e new committed =>
      let '(b, v') := commit_if committed v (rewrap_unsealed_in_transaction f e v new) in
      (v', if b then with_password new <$> g else g)
  end.

Definition run (os : list op) (vg : Vault * option secrets) : Vault * option secrets :=
  foldl (λ vg o, apply o vg) vg os.

(** A data key is an array of 32 bytes. *)
Definition key_drawn (o : op) : Prop :=
  match o with
  | OInitialize _ e _ | OInitializeTx _ e _ _ => length (rnd_dek e) = 32
  | _ => True
  end.

(** The row holds the key under the password and under the recovery phrase. *)
Definition row_ok (r : VaultRow) (s : secrets) : Prop :=
  length (key s) = 32 ∧
  (∃ kek, password_kek r (password s) = Ok kek ∧ wrapped (wrapped_dek r) kek (key s)) ∧
  ∃ w kek, recovery_wrapped_dek r = Some w ∧ derive_recovery_kek (phrase s) = Ok kek ∧ wrapped w kek (key s).

Definition wf (vg : Vault * option secrets) : Prop :=
  match row vg.1, vg.2 with
  | None, None => dek vg.1 = None
  | Some r, Some s => (dek vg.1 = None ∨ dek vg.1 = Some (key s)) ∧ row_ok r s
  | _, _ => False
  end.

Lemma initialize_tx_ok f e pw rk r :
  length (rnd_dek e) = 32 → initialize_in_transaction f e pw None = Ok (rk, r) → row_ok r (secrets_of e pw).
Proof.
  intros Hl. unfold initialize_in_transaction. intros Hi. step Hi as old Hold.
  apply query_Ok in Hold as [_ ->]. cbv zeta in Hi. step Hi as salt Hsalt. step Hi as kek Hkek.
  step Hi as w Hw. step Hi as rec Hrec. destruct rec as [rw rh]. step Hi as json Hjson. step Hi as u Hu.
  injection Hi as <- <-. apply map_err_Ok in Hjson. split; [done|]. split.
  - exists kek. unfold password_kek. simpl. rewrite Hsalt, (params_round_trip _ _ Hjson). simpl.
    split; [done|]. by eapply wrap_dek_wrapped.
  - step Hrec as rkek Hrkek. step Hrec as w' Hw'. injection Hrec as <- <-.
    exists w', rkek. split; [done|]. split; [done|]. by eapply wrap_dek_wrapped.
Qed.

Lemma rewrapped_ok e r params new k f r' s :
  rewrapped e r params new k f = Ok r' → row_ok r s → k = key s → row_ok r' (with_password new s).
Proof.
  unfold rewrapped. intros Hr (Hl & _ & Hrec) ->. cbv zeta in Hr. step Hr as salt Hsalt. step Hr as kek Hkek.
  step Hr as w Hw. step Hr as json Hjson. step Hr as u Hu. injection Hr as <-. apply map_err_Ok in Hjson.
  split; [done|]. split; [|done]. exists kek. unfold password_kek. simpl.
  rewrite Hsalt, (params_round_trip _ _ Hjson). simpl. split; [done|]. by eapply wrap_dek_wrapped.
Qed.

(** What an unseal finds out. *)
Lemma unseal_ok v r s pw :
  row v = Some r → row_ok r s →
  unseal None v pw =
    match password_kek r pw with
    | Err err => (Err err, v)
    | Ok k => if decide (password_kek r (password s) = Ok k)
              then (Ok tt, {| row := row v; dek := Some (key s) |}) else (Err BadCredential, v)
    end.
Proof.
  intros Hr (Hl & (kek & Hkek & Hw) & _). unfold unseal. rewrite Hr, Hkek. cbn [query ok_or].
  destruct (password_kek r pw) as [k|err]; [|done].
  destruct (unwrap_wrapped _ _ _ Hw Hl) as [Hyes Hno]. case_decide as Hd.
  - injection Hd as <-. by rewrite Hyes.
  - destruct (unwrap_dek k (wrapped_dek r)) as [k'|] eqn:E; [|done]. by apply Hno in E as ->.
Qed.

Lemma unseal_recovery_ok v r s ph :
  row v = Some r → row_ok r s →
  unseal_with_recovery None v ph =
    if decide (derive_recovery_kek ph = derive_recovery_kek (phrase s))
    then (Ok tt, {| row := row v; dek := Some (key s) |}) else (Err BadCredential, v).
Proof.
  intros Hr (Hl & _ & w & kek & Hrw & Hkek & Hw). unfold unseal_with_recovery, unwrap_with_recovery.
  rewrite Hr, Hkek. cbn [query ok_or]. rewrite Hrw. cbn [ok_or].
  destruct (unwrap_wrapped _ _ _ Hw Hl) as [Hyes Hno]. case_decide as Hd.
  - by rewrite Hd, Hyes.
  - destruct (derive_recovery_kek ph) as [k|]; [|done].
    destruct (unwrap_dek k w) as [k'|] eqn:E; [|done]. by apply Hno in E as ->.
Qed.

Lemma unseal_fault e v pw : unseal (Some e) v pw = (Err (Database e), v).
Proof. done. Qed.
Lemma unseal_recovery_fault e v ph : unseal_with_recovery (Some e) v ph = (Err (Database e), v).
Proof. done. Qed.

Lemma wf_same_row v v' g :
  wf (v, g) → row v' = row v →
  dek v' = None ∨ dek v' = dek v ∨ (∃ s, g = Some s ∧ dek v' = Some (key s)) → wf (v', g).
Proof.
  unfold wf. simpl. intros Hwf -> Hd. destruct (row v), g as [s|]; try done.
  - destruct Hwf as [Hk Hr]. split; [|done]. destruct Hd as [->|[->|(s' & [= ->] & ->)]]; auto.
  - destruct Hd as [->|[->|(s' & ? & _)]]; done.
Qed.

Lemma wf_unseal fault v g pw : wf (v, g) → wf ((unseal fault v pw).2, g).
Proof.
  intros Hwf. destruct fault as [e|]; [by rewrite unseal_fault|]. pose proof Hwf as Hwf'.
  unfold wf in Hwf. simpl in Hwf. destruct (row v) as [r|] eqn:Er, g as [s|]; try done.
  - rewrite (unseal_ok v r s pw Er (proj2 Hwf)). destruct (password_kek r pw) as [k|]; [|done].
    case_decide; [|done]. apply (wf_same_row v); [done|done|]. eauto.
  - unfold unseal. by rewrite Er.
Qed.

Lemma wf_unseal_recovery fault v g ph : wf (v, g) → wf ((unseal_with_recovery fault v ph).2, g).
Proof.
  intros Hwf. destruct fault as [e|]; [by rewrite unseal_recovery_fault|]. pose proof Hwf as Hwf'.
  unfold wf in Hwf. simpl in Hwf. destruct (row v) as [r|] eqn:Er, g as [s|]; try done.
  - rewrite (unseal_recovery_ok v r s ph Er (proj2 Hwf)).
    case_decide; [|done]. apply (wf_same_row v); [done|done|]. eauto.
  - unfold unseal_with_recovery. by rewrite Er.
Qed.

(** A transaction [tx] that gives the row of the vault a new password. *)
Definition rekeys (v : Vault) (new : str) (tx : result VaultRow VaultError) : Prop :=
  ∀ r', tx = Ok r' → ∃ r k e params f,
    row v = Some r ∧ dek v = Some k ∧ rewrapped e r params new k f = Ok r'.

Lemma change_rekeys f e v old new : rekeys v new (change_password_in_transaction f e v old new).
Proof.
  intros r' Hr. unfold change_password_in_transaction in Hr. step Hr as l Hl. step Hr as r Hrow.
  step Hr as salt Hsalt. step Hr as params Hp. step Hr as old_kek Hk. step Hr as d Hd. step Hr as k Hdek.
  apply query_Ok in Hl as [_ ->]. apply ok_or_Ok in Hrow, Hdek. by exists r, k, e, params, f.
Qed.

Lemma rewrap_rekeys f e v new : rekeys v new (rewrap_unsealed_in_transaction f e v new).
Proof.
  intros r' Hr. unfold rewrap_unsealed_in_transaction in Hr. step Hr as l Hl. step Hr as r Hrow.
  step Hr as params Hp. step Hr as k Hdek.
  apply query_Ok in Hl as [_ ->]. apply ok_or_Ok in Hrow, Hdek. by exists r, k, e, params, f.
Qed.

Lemma wf_rekey v g new r' tx :
  wf (v, g) → rekeys v new tx → tx = Ok r' → wf (commit v r', with_password new <$> g).
Proof.
  intros Hwf Htx E. destruct (Htx r' E) as (r & k & e & params & f & Hr & Hk & Hre).
  unfold wf in *. simpl in *. rewrite Hr, Hk in *. destruct g as [s|]; [|done].
  destruct Hwf as [[|[= ->]] Hok]; [done|]. split; [by right|]. by eapply rewrapped_ok.
Qed.

Lemma wf_own_transaction f v g new tx :
  wf (v, g) → rekeys v new tx →
  wf ((in_own_transaction f v tx).2,
      if is_ok (in_own_transaction f v tx).1 then with_password new <$> g else g).
Proof.
  intros Hwf Htx. unfold in_own_transaction. destruct (query (f_begin f) tt); [|done].
  destruct tx as [r|]; [|done]. destruct (f_commit f); [done|]. by eapply wf_rekey.
Qed.

Lemma wf_commit_if committed v g new tx :
  wf (v, g) → rekeys v new tx →
  wf ((commit_if committed v tx).2, if (commit_if committed v tx).1 then with_password new <$> g else g).
Proof.
  intros Hwf Htx. unfold commit_if. destruct tx as [r|]; [|done]. destruct committed; [|done]. by eapply wf_rekey.
Qed.

Lemma wf_created v g f e pw rk r :
  wf (v, g) → length (rnd_dek e) = 32 → initialize_in_transaction f e pw (row v) = Ok (rk, r) →
  row v = None ∧ wf (commit v r, Some (secrets_of e pw)).
Proof.
  intros Hwf Hl Hi. assert (row v = None) as Hv.
  { unfold initialize_in_transaction in Hi. step Hi as old Ho. apply query_Ok in Ho as [_ ->]. by destruct (row v). }
  split; [done|]. unfold wf in *. simpl in *. rewrite Hv in *. destruct g; [done|].
  split; [by left|]. by eapply initialize_tx_ok.
Qed.

Lemma wf_unchanged v g (s : secrets) :
  wf (v, g) → wf (v, if isSome (row v) then g else (λ _, s) <$> row v).
Proof. unfold wf. simpl. by destruct (row v), g. Qed.

Lemma wf_initialize f e v g pw :
  wf (v, g) → length (rnd_dek e) = 32 → wf (apply (OInitialize f e pw) (v, g)).
Proof.
  intros Hwf Hl. cbn [apply]. unfold initialize.
  destruct (query (f_begin f) tt); [|by apply wf_unchanged].
  destruct (initialize_in_transaction f e pw (row v)) as [[rk r]|] eqn:E; [|by apply wf_unchanged].
  destruct (wf_created _ _ _ _ _ _ _ Hwf Hl E) as [Hv Hc].
  unfold query. destruct (f_commit f); [by apply wf_unchanged|]. rewrite Hv. cbn [isSome].
  destruct (unseal (f_reload f) (commit v r) pw) as [res v'] eqn:Eu.
  apply (wf_unseal (f_reload f) _ _ pw) in Hc. rewrite Eu in Hc. revert Hc. unfold wf. simpl.
  by destruct (row v').
Qed.

Lemma wf_apply o vg : wf vg → key_drawn o → wf (apply o vg).
Proof.
  destruct vg as [v g]. intros Hwf Hk.
  destruct o as [f e pw|f e pw c|fault pw|fault ph| |f e old new|f e old new c|f e new|f e new c].
  - by apply wf_initialize.
  - simpl. destruct (initialize_in_transaction f e pw (row v)) as [[rk r]|] eqn:E; [|done].
    destruct c; [|done]. simpl. by eapply wf_created.
  - by apply wf_unseal.
  - by apply wf_unseal_recovery.
  - apply (wf_same_row v); [done|done|by left].
  - simpl. pose proof (wf_own_transaction f v g new _ Hwf (change_rekeys f e v old new)).
    by destruct (change_password f e v old new) eqn:E; unfold change_password in E; rewrite E in *.
  - simpl. pose proof (wf_commit_if c v g new _ Hwf (change_rekeys f e v old new)). by destruct (commit_if _ _ _).
  - simpl. pose proof (wf_own_transaction f v g new _ Hwf (rewrap_rekeys f e v new)).
    by destruct (rewrap_unsealed f e v new) eqn:E; unfold rewrap_unsealed in E; rewrite E in *.
  - simpl. pose proof (wf_commit_if c v g new _ Hwf (rewrap_rekeys f e v new)). by destruct (commit_if _ _ _).
Qed.

Lemma wf_run os vg : wf vg → Forall key_drawn os → wf (run os vg).
Proof.
  intros Hwf Hos. revert vg Hwf. induction Hos as [|o os Ho _ IH]; intros vg Hwf; [done|].
  apply IH. by apply wf_apply.
Qed.

Definition start : Vault * option secrets := (Vault_new, None).

Lemma wf_start os : Forall key_drawn os → wf (run os start).
Proof. by apply wf_run. Qed.

(** ** What the vault promises *)

Lemma initialize_tx_none f e pw current made :
  initialize_in_transaction f e pw current = Ok made → current = None.
Proof.
  unfold initialize_in_transaction. intros Hi. step Hi as old Ho. apply query_Ok in Ho as [_ ->].
  by destruct current.
Qed.

Lemma wf_secrets v s : wf (v, Some s) → ∃ r, row v = Some r ∧ row_ok r s ∧ (dek v = None ∨ dek v = Some (key s)).
Proof. unfold wf. simpl. destruct (row v) as [r|]; [|done]. intros [? ?]. eauto. Qed.

Lemma wf_some v g r : wf (v, g) → row v = Some r → ∃ s, g = Some s.
Proof. unfold wf. simpl. intros Hwf Hr. rewrite Hr in Hwf. destruct g; [eauto|done]. Qed.

Lemma apply_key o v s :
  wf (v, Some s) → ∃ s', (apply o (v, Some s)).2 = Some s' ∧ key s' = key s.
Proof.
  intros Hwf. destruct (wf_secrets _ _ Hwf) as (r & Hr & _). destruct o; simpl; rewrite ?Hr; eauto.
  - destruct (initialize_in_transaction _ _ _ _) as [made|] eqn:E; simpl; [|eauto].
    by apply initialize_tx_none in E.
  - destruct (change_password _ _ _ _ _) as [[] ?]; simpl; eauto.
  - destruct (commit_if _ _ _) as [[] ?]; simpl; eauto.
  - destruct (rewrap_unsealed _ _ _ _) as [[] ?]; simpl; eauto.
  - destruct (commit_if _ _ _) as [[] ?]; simpl; eauto.
Qed.

Lemma run_key os v s :
  wf (v, Some s) → Forall key_drawn os → ∃ s', (run os (v, Some s)).2 = Some s' ∧ key s' = key s.
Proof.
  intros Hwf Hos. revert v s Hwf. induction Hos as [|o os Ho _ IH]; intros v s Hwf; [simpl; eauto|].
  change (run (o :: os) (v, Some s)) with (run os (apply o (v, Some s))).
  destruct (apply_key o v s Hwf) as (s1 & E1 & <-). pose proof (wf_apply o _ Hwf Ho) as Hwf1.
  destruct (apply o (v, Some s)) as [v1 g1]. simpl in E1. subst g1. by apply IH.
Qed.

(** After any operations on a new vault, a password unseals it exactly when the key
    it derives is the one the password in force derives, and a recovery phrase exactly
    when it derives the key of the phrase issued at initialisation; unsealing brings the
    data key of the initialisation back, and any other credential is refused and
    changes nothing. *)
Theorem vault_opens_only_with (os : list op) (v : Vault) (s : secrets) :
  Forall key_drawn os → run os start = (v, Some s) →
  ∃ r, row v = Some r ∧
  (∀ pw, unseal None v pw =
     match password_kek r pw with
     | Err err => (Err err, v)
     | Ok k => if decide (password_kek r (password s) = Ok k)
               then (Ok tt, {| row := row v; dek := Some (key s) |}) else (Err BadCredential, v)
     end) ∧
  (∀ ph, unseal_with_recovery None v ph =
     if decide (derive_recovery_kek ph = derive_recovery_kek (phrase s))
     then (Ok tt, {| row := row v; dek := Some (key s) |}) else (Err BadCredential, v)).
Proof.
  intros Hos Hrun. pose proof (wf_start os Hos) as Hwf. rewrite Hrun in Hwf.
  destruct (wf_secrets _ _ Hwf) as (r & Hr & Hok & _). exists r. split; [done|]. split.
  - intros pw. by apply (unseal_ok v r s).
  - intros ph. by apply (unseal_recovery_ok v r s).
Qed.

(** A sealed vault becomes unsealed by a credential only: by its initialisation, by a
    password that derives the key of the password in force, or by a recovery phrase
    that derives the key of the one issued. No password change or rewrapping, and no
    transaction of a caller, unseals it or does anything while it is sealed. *)
Theorem only_credentials_unseal (os : list op) (o : op) (v : Vault) (g : option secrets) :
  Forall key_drawn os → run os start = (v, g) → dek v = None →
  match o with
  | OInitialize _ _ _ => isSome (row v) = true → apply o (v, g) = (v, g)
  | OUnseal _ pw => dek (apply o (v, g)).1 ≠ None →
      ∃ r s, row v = Some r ∧ g = Some s ∧ password_kek r pw = password_kek r (password s)
  | OUnsealRecovery _ ph => dek (apply o (v, g)).1 ≠ None →
      ∃ s, g = Some s ∧ derive_recovery_kek ph = derive_recovery_kek (phrase s)
  | OInitializeTx _ _ _ _ => dek (apply o (v, g)).1 = None
  | _ => apply o (v, g) = (v, g)
  end.
Proof.
  intros Hos Hrun Hd. pose proof (wf_start os Hos) as Hwf. rewrite Hrun in Hwf.
  assert (∀ new tx, rekeys v new tx → ∃ err, tx = Err err) as Hno.
  { intros new [r'|err] Htx; [|eauto]. destruct (Htx r' eq_refl) as (? & k & ? & ? & ? & _ & Hk & _). congruence. }
  destruct o as [f e pw|f e pw c|fault pw|fault ph| |f e old new|f e old new c|f e new|f e new c]; simpl.
  - intros Hs. rewrite Hs. unfold initialize. destruct (query (f_begin f) tt); [|done].
    destruct (initialize_in_transaction f e pw (row v)) eqn:E; [|done]. apply initialize_tx_none in E.
    by rewrite E in Hs.
  - destruct (initialize_in_transaction f e pw (row v)); simpl; [by destruct c|done].
  - destruct fault; [by rewrite unseal_fault|]. destruct (row v) as [r|] eqn:Er; [|unfold unseal; by rewrite Er].
    destruct (wf_some _ _ _ Hwf Er) as [s ->]. destruct (wf_secrets _ _ Hwf) as (r' & Hr' & Hok & _).
    assert (r' = r) as -> by congruence. rewrite (unseal_ok v r s pw Er Hok).
    destruct (password_kek r pw) as [k|] eqn:Ek; [|done]. case_decide as Hk; [|done].
    intros _. exists r, s. split; [done|]. split; congruence.
  - destruct fault; [by rewrite unseal_recovery_fault|].
    destruct (row v) as [r|] eqn:Er; [|unfold unseal_with_recovery; by rewrite Er].
    destruct (wf_some _ _ _ Hwf Er) as [s ->]. destruct (wf_secrets _ _ Hwf) as (r' & Hr' & Hok & _).
    assert (r' = r) as -> by congruence. rewrite (unseal_recovery_ok v r s ph Er Hok).
    case_decide as Hk; [|done]. intros _. by exists s.
  - unfold seal. destruct v. simpl in *. by subst.
  - destruct (Hno new _ (change_rekeys f e v old new)) as [err E]. unfold change_password, in_own_transaction.
    rewrite E. by destruct (query (f_begin f) tt).
  - destruct (Hno new _ (change_rekeys f e v old new)) as [err E]. by rewrite E.
  - destruct (Hno new _ (rewrap_rekeys f e v new)) as [err E]. unfold rewrap_unsealed, in_own_transaction.
    rewrite E. by destruct (query (f_begin f) tt).
  - destruct (Hno new _ (rewrap_rekeys f e v new)) as [err E]. by rewrite E.
Qed.

(** What [encrypt_string] makes under a key opens under that key and context only. *)
Definition sealed_blob (k : bytes) (plaintext aad blob : str) : Prop :=
  ∃ random c, encrypt random k (as_bytes plaintext) (as_bytes aad) = Ok c ∧ blob = b64_encode (version_tag :: c).

Lemma encrypt_string_blob random v plaintext aad blob :
  encrypt_string random v plaintext aad = Ok blob → ∃ k, dek v = Some k ∧ sealed_blob k plaintext aad blob.
Proof.
  unfold encrypt_string. intros He. step He as k Hk. step He as c Hc. injection He as <-.
  apply ok_or_Ok in Hk. exists k. split; [done|]. by exists random, c.
Qed.

Lemma decrypt_string_blob v k plaintext aad blob :
  is_str plaintext → sealed_blob k plaintext aad blob → dek v = Some k →
  decrypt_string v blob aad = Ok plaintext.
Proof.
  intros Hp (random & c & Hc & ->) Hk. unfold decrypt_string. rewrite Hk. cbn [ok_or].
  rewrite b64_round_trip. cbn [map_err]. rewrite N.eqb_refl. cbn [negb].
  by rewrite (decrypt_encrypt _ _ _ _ _ Hc), from_utf8_as_bytes.
Qed.

Lemma decrypt_string_context v k plaintext aad blob aad' p :
  is_str aad → is_str aad' → sealed_blob k plaintext aad blob →
  decrypt_string v blob aad' = Ok p → aad' = aad.
Proof.
  intros Ha Ha' (random & c & Hc & ->). unfold decrypt_string. intros Hd. step Hd as k' Hk'.
  rewrite b64_round_trip in Hd. cbn [map_err] in Hd. rewrite N.eqb_refl in Hd. cbn [negb] in Hd.
  step Hd as p' Hp'. apply as_bytes_inj; [done|done|]. exact (proj2 (decrypt_authentic _ _ _ _ _ _ _ _ Hc Hp')).
Qed.

(** C38. What an unsealed vault encrypted stays readable: after any further operations --
    seals, unseals, password changes, faults, rolled back transactions -- a vault that
    is unsealed decrypts it to the same text, under the same context only, and a
    sealed one refuses. *)
Theorem data_survives (os1 os2 : list op) (random : bytes) (plaintext aad blob : str) :
  Forall key_drawn os1 → Forall key_drawn os2 → is_str plaintext → is_str aad →
  encrypt_string random (run os1 start).1 plaintext aad = Ok blob →
  let v' := (run os2 (run os1 start)).1 in
  if is_unsealed v' then
    decrypt_string v' blob aad = Ok plaintext ∧
    ∀ aad' p, is_str aad' → decrypt_string v' blob aad' = Ok p → aad' = aad ∧ p = plaintext
  else ∀ aad', decrypt_string v' blob aad' = Err Sealed.
Proof.
  intros Hos1 Hos2 Hp Ha He. cbv zeta. pose proof (wf_start os1 Hos1) as Hwf.
  destruct (run os1 start) as [v g]. apply encrypt_string_blob in He as (k & Hk & Hb). simpl in Hk.
  assert (∃ s, g = Some s ∧ k = key s) as (s & -> & ->).
  { unfold wf in Hwf. simpl in Hwf. rewrite Hk in Hwf. destruct (row v), g as [s|]; try done.
    exists s. split; [done|]. destruct Hwf as [[|] _]; congruence. }
  destruct (run_key os2 v s Hwf Hos2) as (s' & Es & Ek). pose proof (wf_run os2 _ Hwf Hos2) as Hwf'.
  destruct (run os2 (v, Some s)) as [v' g']. simpl in *. subst g'.
  destruct (wf_secrets _ _ Hwf') as (_ & _ & _ & Hd). unfold is_unsealed.
  destruct (dek v') as [k'|] eqn:Ek'; simpl.
  - assert (dek v' = Some (key s)) as Hkey by (rewrite <- Ek; destruct Hd; congruence).
    split; [by eapply decrypt_string_blob|]. intros aad' p Ha' Hd'.
    pose proof (decrypt_string_context _ _ _ _ _ _ _ Ha Ha' Hb Hd') as ->. split; [done|].
    rewrite (decrypt_string_blob v' _ _ _ _ Hp Hb Hkey) in Hd'. congruence.
  - intros aad'. unfold decrypt_string. by rewrite Ek'.
Qed.
End facts.

(** ** Recovery phrases *)

(** The characters of a phrase: upper case letters and digits. *)
Definition phrase_char (c : char) : bool := is_ascii_upper c || is_ascii_digit c.

Lemma charset_chars : forallb phrase_char CHARSET = true.
Proof. reflexivity. Qed.

Lemma charset_at_char n : phrase_char (charset_at n) = true.
Proof.
  unfold charset_at. pose proof (N.mod_lt n 32 ltac:(done)) as Hn.
  apply (proj1 (forallb_forall _ _) charset_chars), nth_In.
  change (length CHARSET) with (N.to_nat 32). lia.
Qed.

Lemma entropy_phrase_chars e : Forall (λ c, phrase_char c = true) (entropy_chars e).
Proof.
  induction e as [|b e IH]; [constructor|]. simpl. constructor; [apply charset_at_char|].
  constructor; [apply charset_at_char|done].
Qed.

Definition below (n : N) : list N := map N.of_nat (seq 0 (N.to_nat n)).

Lemma below_in n x : (x < n)%N → In x (below n).
Proof.
  intros Hx. apply in_map_iff. exists (N.to_nat x). split; [lia|]. apply in_seq. lia.
Qed.

(** The nibbles of a byte are read off its two characters. *)
Lemma byte_of_chars a b :
  (a < 256)%N → (b < 256)%N → charset_at (N.shiftr a 4) = charset_at (N.shiftr b 4) →
  charset_at (N.land a 15) = charset_at (N.land b 15) → a = b.
Proof.
  intros Ha Hb E1 E2. apply N.eqb_eq.
  assert (forallb (λ a, forallb (λ b,
    negb ((charset_at (N.shiftr a 4) =? charset_at (N.shiftr b 4))%N &&
          (charset_at (N.land a 15) =? charset_at (N.land b 15))%N) || (a =? b)%N)
    (below 256)) (below 256) = true) as Hall by (vm_compute; reflexivity).
  rewrite forallb_forall in Hall. specialize (Hall a (below_in _ _ Ha)). rewrite forallb_forall in Hall.
  specialize (Hall b (below_in _ _ Hb)). rewrite E1, E2, !N.eqb_refl in Hall. exact Hall.
Qed.

Lemma entropy_chars_inj e e' :
  Forall (λ b, (b < 256)%N) e → Forall (λ b, (b < 256)%N) e' → entropy_chars e = entropy_chars e' → e = e'.
Proof.
  intros He. revert e'. induction He as [|b e Hb _ IH]; intros [|b' e'] He' E; try done.
  apply Forall_cons in He' as [Hb' He']. simpl in E. injection E as E1 E2 E3.
  f_equal; [by apply byte_of_chars|by apply IH].
Qed.

Lemma concat_chunks4 l : concat (chunks4 l) = l.
Proof.
  assert (∀ n l, length l ≤ n → concat (chunks4 l) = l) as Hn; [|by apply (Hn (length l))].
  clear l. induction n as [|n IH]; intros l Hl; [by destruct l; [|simpl in Hl; lia]|].
  destruct l as [|a [|b [|c [|d l]]]]; [done..|]. simpl in *. by rewrite IH by lia.
Qed.

Definition not_dash (c : char) : bool := negb (c =? ch "-")%N.

Lemma filter_join ps : List.filter not_dash (join "-" ps) = List.filter not_dash (concat ps).
Proof.
  induction ps as [|p [|p' ps] IH]; [done|simpl; by rewrite app_nil_r|].
  change (join "-" (p :: p' :: ps)) with (p ++ lit "-" ++ join "-" (p' :: ps)).
  change (concat (p :: p' :: ps)) with (p ++ concat (p' :: ps)).
  rewrite !List.filter_app, IH. done.
Qed.

Lemma filter_phrase_chars l : Forall (λ c, phrase_char c = true) l → List.filter not_dash l = l.
Proof.
  induction 1 as [|c l Hc _ IH]; [done|]. simpl. rewrite IH. unfold not_dash.
  destruct (N.eqb_spec c (ch "-")) as [->|]; [done|done].
Qed.

Lemma upper_phrase_chars `{Unicode} l : Forall (λ c, phrase_char c = true) l → to_uppercase l = l.
Proof.
  intros Hl. unfold to_uppercase.
  assert (∀ c, phrase_char c = true → is_ascii c = true ∧ ascii_upper c = c) as Hc.
  { intros c. unfold phrase_char, is_ascii_digit, is_ascii_upper, in_range, is_ascii, ascii_upper, is_ascii_lower, in_range.
    rewrite orb_true_iff, !andb_true_iff, !N.leb_le, N.ltb_lt. intros Hr. split; [lia|].
    destruct (97 <=? c)%N eqn:E; [|done]. apply N.leb_le in E. lia. }
  rewrite (proj2 (forallb_forall _ _)).
  - induction Hl as [|c l Hcl _ IH]; [done|]. simpl. by rewrite IH, (proj2 (Hc c Hcl)).
  - intros c Hin. rewrite Forall_forall in Hl. apply Hc, Hl. by apply list_elem_of_In.
Qed.

Lemma normalized_generated `{Unicode} e : normalized_phrase (generate_recovery_key e) = entropy_chars e.
Proof.
  unfold normalized_phrase, generate_recovery_key. fold not_dash.
  change (λ c, negb (c =? ch "-")%N) with not_dash. rewrite filter_join, concat_chunks4.
  rewrite filter_phrase_chars by apply entropy_phrase_chars. apply upper_phrase_chars, entropy_phrase_chars.
Qed.

Lemma filter_lower l : List.filter not_dash (map ascii_lower l) = map ascii_lower (List.filter not_dash l).
Proof.
  induction l as [|c l IH]; [done|]. simpl. rewrite IH.
  assert (not_dash (ascii_lower c) = not_dash c) as ->; [|by destruct (not_dash c)].
  unfold not_dash, ascii_lower, is_ascii_upper, in_range. f_equal. change (ch "-") with 45%N.
  destruct (65 <=? c)%N eqn:E1; [|done]. destruct (c <=? 90)%N eqn:E2; [|done]. simpl.
  apply N.leb_le in E1, E2. rewrite !(proj2 (N.eqb_neq _ 45)) by lia. done.
Qed.

Lemma lower_upper_phrase_chars l :
  Forall (λ c, phrase_char c = true) l → map ascii_upper (map ascii_lower l) = l.
Proof.
  induction 1 as [|c l Hc _ IH]; [done|]. simpl. rewrite IH. f_equal. revert Hc.
  unfold phrase_char, is_ascii_digit, ascii_upper, ascii_lower, is_ascii_upper, is_ascii_lower, in_range.
  rewrite orb_true_iff, !andb_true_iff, !N.leb_le. intros Hr.
  destruct ((65 <=? c) && (c <=? 90))%N eqn:E.
  - rewrite andb_true_iff, !N.leb_le in E. rewrite (proj2 (N.leb_le 97 (c + 32))), (proj2 (N.leb_le (c + 32) 122)) by lia.
    simpl. lia.
  - rewrite (proj2 (N.leb_gt 97 c)); [done|]. rewrite andb_false_iff, !N.leb_gt in E. lia.
Qed.

Definition dashed (c : char) : bool := phrase_char c || (c =? ch "-")%N.

Lemma join_dashed ps : Forall (Forall (λ c, phrase_char c = true)) ps → Forall (λ c, dashed c = true) (join "-" ps).
Proof.
  intros Hps. induction Hps as [|p ps Hp Hps IH]; [constructor|].
  assert (Forall (λ c, dashed c = true) p) as Hd.
  { eapply Forall_impl; [exact Hp|]. unfold dashed. intros c ->. done. }
  destruct ps as [|p' ps]; [done|]. change (join "-" (p :: p' :: ps)) with (p ++ lit "-" ++ join "-" (p' :: ps)).
  apply Forall_app. split; [done|]. apply Forall_app. split; [by repeat constructor|done].
Qed.

Lemma generated_ascii e : forallb is_ascii (generate_recovery_key e) = true.
Proof.
  assert (Forall (λ c, dashed c = true) (generate_recovery_key e)) as Hd.
  { apply join_dashed, Forall_concat. rewrite concat_chunks4. apply entropy_phrase_chars. }
  apply forallb_forall. intros c Hc. rewrite Forall_forall in Hd. apply list_elem_of_In, Hd in Hc. revert Hc.
  unfold dashed, phrase_char, is_ascii_upper, is_ascii_digit, in_range, is_ascii. change (ch "-") with 45%N.
  rewrite !orb_true_iff, !andb_true_iff, !N.leb_le, N.eqb_eq, N.ltb_lt. lia.
Qed.

(** A recovery phrase carries all the random bits of its key -- phrases made from
    different bytes derive from different normal forms -- and may be typed in lower case
    or without its dashes: the same key is derived and the stored hash still matches. *)
Theorem recovery_key_faithful `{Unicode, Kit} (e e' : bytes) :
  Forall (λ b, (b < 256)%N) e → Forall (λ b, (b < 256)%N) e' →
  let phrase := generate_recovery_key e in
  (normalized_phrase phrase = normalized_phrase (generate_recovery_key e') → e = e') ∧
  ∀ typed, typed = to_lowercase phrase ∨ typed = List.filter not_dash phrase →
    derive_recovery_kek typed = derive_recovery_kek phrase ∧
    verify_recovery_hash typed (sha256_hex (normalized_phrase phrase)) = true.
Proof.
  intros He He'. cbv zeta. rewrite !normalized_generated. split; [by apply entropy_chars_inj|].
  intros typed Ht. assert (normalized_phrase typed = entropy_chars e) as En.
  { destruct Ht as [->| ->].
    - unfold to_lowercase. rewrite generated_ascii. unfold normalized_phrase, to_ascii_lowercase.
      change (λ c, negb (c =? ch "-")%N) with not_dash.
      rewrite filter_lower. unfold generate_recovery_key. rewrite filter_join, concat_chunks4.
      rewrite filter_phrase_chars by apply entropy_phrase_chars. unfold to_uppercase.
      rewrite (proj2 (forallb_forall _ _)); [apply lower_upper_phrase_chars, entropy_phrase_chars|].
      intros c (d & <- & Hd)%in_map_iff. pose proof (entropy_phrase_chars e) as Hp.
      rewrite Forall_forall in Hp. apply list_elem_of_In, Hp in Hd. revert Hd.
      unfold phrase_char, is_ascii_digit, is_ascii, ascii_lower, is_ascii_upper, in_range.
      rewrite orb_true_iff, !andb_true_iff, !N.leb_le, N.ltb_lt. intros Hd. by case_match; lia.
    - unfold generate_recovery_key. rewrite filter_join, concat_chunks4.
      rewrite filter_phrase_chars by apply entropy_phrase_chars. unfold normalized_phrase.
      change (λ c, negb (c =? ch "-")%N) with not_dash.
      rewrite filter_phrase_chars by apply entropy_phrase_chars. apply upper_phrase_chars, entropy_phrase_chars. }
  unfold derive_recovery_kek, verify_recovery_hash, str_eqb. rewrite En, normalized_generated. split; [done|].
  by rewrite bool_decide_true.
Qed.

(** * Witnesses *)

(** A cipher that writes key and context in front of the text, and encoders that leave
    things as they are: enough to satisfy the laws. *)
Definition toy_decrypt (k c a : bytes) : result bytes VaultError :=
  match c with
  | n :: m :: rest =>
      let n := N.to_nat n in
      let m := N.to_nat m in
      if bool_decide (take n rest = k) && bool_decide (take m (drop n rest) = a)
      then Ok (drop m (drop n rest)) else Err (CipherError "aead::Error")
  | _ => Err (CipherError "ciphertext too short")
  end.

Definition toy_cipher : Cipher := {|
  version_tag := 1%N;
  encrypt _ k p a := Ok (N.of_nat (length k) :: N.of_nat (length a) :: k ++ a ++ p);
  decrypt := toy_decrypt |}.

Lemma toy_cipher_laws : CipherLaws (H := toy_cipher).
Proof.
  split.
  - intros random k p a c [= <-]. simpl. unfold toy_decrypt. rewrite !Nat2N.id, take_app_length, drop_app_length.
    rewrite take_app_length, drop_app_length. by rewrite !bool_decide_true.
  - intros random k p a c k' a' p' [= <-]. simpl. unfold toy_decrypt.
    rewrite !Nat2N.id, take_app_length, drop_app_length, take_app_length.
    case_bool_decide; [|done]. case_bool_decide; [|done]. by intros _.
Defined.

Definition toy_kit : Kit := {|
  b64_encode b := b;
  b64_decode s := Ok s;
  argon2_params _ := Ok tt;
  argon2_hash _ password salt := Ok (password ++ [256%N] ++ salt);
  params_to_json p :=
    if (m_cost p =? 65536)%Z && (t_cost p =? 3)%Z && (p_cost p =? 1)%Z
    then Ok (lit "default") else Err (lit "unsupported");
  params_of_json _ := Ok KdfParams_default;
  sha256_hex s := s |}.

Lemma toy_kit_laws : KitLaws (H := toy_kit).
Proof.
  split; [done|]. intros [m t p] s. simpl.
  destruct (m =? 65536)%Z eqn:E1, (t =? 3)%Z eqn:E2, (p =? 1)%Z eqn:E3; simpl; try done.
  apply Z.eqb_eq in E1, E2, E3. by subst.
Defined.

Definition toy_random (n : N) : randomness := {|
  rnd_dek := repeat n 32; rnd_salt := [n; n]; rnd_recovery := repeat n 16; rnd_wrap := []; rnd_recovery_wrap := [] |}.

Definition toy_history : list op :=
  [OInitialize no_faults (toy_random 7) "first"; OSeal; OUnseal None "first";
   OChange no_faults (toy_random 9) "first" "second"; OSeal].

#[local] Existing Instances ascii_unicode toy_cipher toy_kit.

Lemma vault_opens_only_with_witness :
  let v := (run toy_history start).1 in
  (unseal None v "first").1 = Err BadCredential ∧ (unseal None v "second").1 = Ok tt.
Proof.
  destruct (vault_opens_only_with (H1 := toy_cipher_laws) (H3 := toy_kit_laws) toy_history
    (run toy_history start).1
    {| password := "second"; phrase := generate_recovery_key (repeat 7%N 16); key := repeat 7%N 32 |})
    as (r & Hr & Hpw & _).
  - repeat constructor.
  - vm_compute. reflexivity.
  - vm_compute in Hr. injection Hr as <-. split; rewrite Hpw; vm_compute; reflexivity.
Defined.

Lemma only_credentials_unseal_witness :
  let '(v, g) := run toy_history start in
  dek (apply (OUnseal None "second") (v, g)).1 ≠ None ∧
  ∃ r s, row v = Some r ∧ g = Some s ∧ password_kek r "second" = password_kek r (password s).
Proof.
  split; [vm_compute; discriminate|].
  refine (only_credentials_unseal (H1 := toy_cipher_laws) (H3 := toy_kit_laws) toy_history
    (OUnseal None "second") (run toy_history start).1 (run toy_history start).2 _ _ _ _).
  - repeat constructor.
  - vm_compute. reflexivity.
  - vm_compute. reflexivity.
  - vm_compute. discriminate.
Defined.

Lemma data_survives_witness :
  let os1 := [OInitialize no_faults (toy_random 7) "first"] in
  let os2 := [OChange no_faults (toy_random 9) "first" "second"; OSeal; OUnseal None "second"] in
  ∃ blob, encrypt_string [] (run os1 start).1 "secret" "env:KEY" = Ok blob ∧
  decrypt_string (run os2 (run os1 start)).1 blob "env:KEY" = Ok (lit "secret").
Proof.
  eexists. split; [vm_compute; reflexivity|].
  refine (proj1 (data_survives (H1 := toy_cipher_laws) (H3 := toy_kit_laws)
    [OInitialize no_faults (toy_random 7) "first"]
    [OChange no_faults (toy_random 9) "first" "second"; OSeal; OUnseal None "second"]
    [] "secret" "env:KEY" _ _ _ _ _ _)).
  - repeat constructor.
  - repeat constructor.
  - repeat constructor.
  - repeat constructor.
  - vm_compute. reflexivity.
Defined.

Lemma recovery_key_faithful_witness :
  derive_recovery_kek (to_lowercase (generate_recovery_key (repeat 7%N 16))) =
  derive_recovery_kek (generate_recovery_key (repeat 7%N 16)).
Proof.
  refine (proj1 (proj2 (recovery_key_faithful (repeat 7%N 16) (repeat 7%N 16) _ _) _ _)).
  - repeat constructor.
  - repeat constructor.
  - left. reflexivity.
Defined.
