(* ===== verification/Migration.v ===== *)
(** Migration of plaintext secrets into the vault.

    Models [crates/vault/src/migration.rs]: the two database tables with secrets, whose
    rows carry a flag, and the JSON files with their encrypted copies.  A table is the
    list of its rows; the file system is the contents of the three files of a secret.
    Permissions are left out. *)
From S2P Require Import Prelude Utf8 Vault.
Local Open Scope result_scope.

(** A row of [env_variables] or of [ssh_keys]. *)
Record SecretRow := {
  row_id : Z;
  row_name : str;
  row_value : str;
  row_encrypted : bool;
}.

(** A [path] and its siblings with the extensions [json.enc] and [json.bak]. *)
Record Files := { json : option str; enc : option str; bak : option str }.

(** Which calls to the file system fail, and the names the messages show. *)
Record io := {
  read_fault : option str;
  write_fault : option str;
  rename_fault : option str;
  path : str;
  enc_path : str;
}.

Section migration.
Context `{Cipher, Kit}.

(** ** Tables *)

Definition set_encrypted (i : Z) (value : str) (table : list SecretRow) : list SecretRow :=
  map (λ r, if (row_id r =? i)%Z
            then {| row_id := row_id r; row_name := row_name r; row_value := value; row_encrypted := true |}
            else r) table.

(** The loop over the rows that were selected; [random] and [fault] are those of the
    encryption and of the update of a row. *)
Fixpoint migrate_rows (v : Vault) (prefix : str) (random : Z → bytes) (fault : Z → option str)
    (rows table : list SecretRow) : result unit VaultError * list SecretRow :=
  match rows with
  | [] => (Ok tt, table)
  | r :: rows' =>
      match encrypt_string (random (row_id r)) v (row_value r) (prefix ++ row_name r) with
      | Err e => (Err e, table)
      | Ok encrypted =>
          match fault (row_id r) with
          | Some e => (Err (Database e), table)
          | None => migrate_rows v prefix random fault rows' (set_encrypted (row_id r) encrypted table)
          end
      end
  end.

Definition plaintext_rows (table : list SecretRow) : list SecretRow :=
  filter (λ r, row_encrypted r = false) table.

Definition migrate_table (prefix : str) (v : Vault) (random : Z → bytes) (load : option str)
    (fault : Z → option str) (table : list SecretRow) : result nat VaultError * list SecretRow :=
  match load with
  | Some e => (Err (Database e), table)
  | None =>
      let rows := plaintext_rows table in
      let '(res, table') := migrate_rows v prefix random fault rows table in
      (let? _ := res in Ok (length rows), table')
  end.

Definition migrate_env_vars := migrate_table (lit "env:").
Definition migrate_ssh_keys := migrate_table (lit "ssh-key:").

(** ** Files *)

Definition failed (what name e : str) : VaultError :=
  CipherError (lit "failed to " ++ what ++ lit " " ++ name ++ lit ": " ++ e).

Definition read_file (o : io) (name content : str) : result str VaultError :=
  match read_fault o with Some e => Err (failed "read" name e) | None => Ok content end.

Definition migrate_json_file (v : Vault) (random : bytes) (o : io) (aad : str) (fs : Files)
    : result bool VaultError * Files :=
  match json fs, enc fs with
  | Some content, None =>
      match read_file o (path o) content with
      | Err e => (Err e, fs)
      | Ok plaintext =>
          if negb (is_nonempty (trim plaintext)) then (Ok false, fs)
          else match encrypt_string random v plaintext aad with
          | Err e => (Err e, fs)
          | Ok encrypted =>
              match write_fault o with
              | Some e => (Err (failed "write" (enc_path o) e), fs)
              | None =>
                  match rename_fault o with
                  | Some e => (Err (CipherError (lit "failed to rename to .bak: " ++ e)),
                               {| json := Some content; enc := Some encrypted; bak := bak fs |})
                  | None => (Ok true, {| json := None; enc := Some encrypted; bak := Some content |})
                  end
              end
          end
      end
  | _, _ => (Ok false, fs)
  end.

Definition encrypt_json_file (v : Vault) (random : bytes) (o : io) (aad : str) (fs : Files)
    : result bool VaultError * Files :=
  match json fs with
  | None => (Ok false, fs)
  | Some content =>
      match read_file o (path o) content with
      | Err e => (Err e, fs)
      | Ok plaintext =>
          if negb (is_nonempty (trim plaintext)) then (Ok false, fs)
          else match encrypt_string random v plaintext aad with
          | Err e => (Err e, fs)
          | Ok encrypted =>
              match write_fault o with
              | Some e => (Err (failed "write" (enc_path o) e), fs)
              | None => (Ok true, {| json := json fs; enc := Some encrypted; bak := bak fs |})
              end
          end
      end
  end.

Definition load_encrypted_or_plaintext (vault : option Vault) (o : io) (aad : str) (fs : Files)
    : result (option str) VaultError :=
  match enc fs with
  | Some blob =>
      match vault with
      | Some v =>
          let? content := read_file o (enc_path o) blob in
          let? decrypted := decrypt_string v content aad in
          Ok (Some decrypted)
      | None => Err Sealed
      end
  | None =>
      match json fs with
      | Some content => let? content := read_file o (path o) content in Ok (Some content)
      | None => Ok None
      end
  end.

Definition save_encrypted_or_plaintext (vault : option Vault) (random : bytes) (o : io)
    (aad content : str) (fs : Files) : result unit VaultError * Files :=
  match vault with
  | Some v =>
      match encrypt_string random v content aad with
      | Err e => (Err e, fs)
      | Ok encrypted =>
          match write_fault o with
          | Some e => (Err (failed "write" (enc_path o) e), fs)
          | None => (Ok tt, {| json := json fs; enc := Some encrypted; bak := bak fs |})
          end
      end
  | None =>
      match write_fault o with
      | Some e => (Err (failed "write" (path o) e), fs)
      | None => (Ok tt, {| json := Some content; enc := enc fs; bak := bak fs |})
      end
  end.

(** What a reader of the table makes of a row. *)
Definition read_secret (v : Vault) (prefix : str) (r : SecretRow) : result str VaultError :=
  if row_encrypted r then decrypt_string v (row_value r) (prefix ++ row_name r) else Ok (row_value r).
End migration.

(** * Facts *)

Section facts.
Context `{CipherLaws, KitLaws}.

Notation ids table := (map row_id table).

Lemma set_encrypted_ids i value table : ids (set_encrypted i value table) = ids table.
Proof. unfold set_encrypted. rewrite map_map. apply map_ext. intros r. by case_match. Qed.
Lemma set_encrypted_names i value table :
  map row_name (set_encrypted i value table) = map row_name table.
Proof. unfold set_encrypted. rewrite map_map. apply map_ext. intros r. by case_match. Qed.

Lemma ids_inj table r r' : NoDup (ids table) → r ∈ table → r' ∈ table → row_id r = row_id r' → r = r'.
Proof.
  induction table as [|x table IH]; [set_solver|]. simpl. intros [Hx Hn]%NoDup_cons Hr Hr' E.
  apply elem_of_cons in Hr as [->|Hr]; apply elem_of_cons in Hr' as [->|Hr']; [done| | |by apply IH];
    destruct Hx; apply list_elem_of_fmap; eauto.
Qed.

Lemma set_encrypted_other i value table r :
  r ∈ table → row_id r ≠ i → r ∈ set_encrypted i value table.
Proof.
  intros Hr Hi. unfold set_encrypted. apply list_elem_of_fmap. exists r. split; [|done].
  by rewrite (proj2 (Z.eqb_neq _ _) Hi).
Qed.

Lemma set_encrypted_reads v prefix random table r value :
  NoDup (ids table) → r ∈ table → row_encrypted r = false → is_str (row_value r) →
  encrypt_string random v (row_value r) (prefix ++ row_name r) = Ok value →
  map (read_secret v prefix) (set_encrypted (row_id r) value table) = map (read_secret v prefix) table.
Proof.
  intros Hn Hr Hf Hs He. apply encrypt_string_blob in He as (k & Hk & Hb).
  unfold set_encrypted. rewrite map_map. apply map_ext_in. intros r' Hr'%list_elem_of_In.
  destruct (Z.eqb_spec (row_id r') (row_id r)) as [E|]; [|done].
  assert (r' = r) as -> by by apply (ids_inj table).
  unfold read_secret. rewrite Hf. simpl. by eapply decrypt_string_blob.
Qed.

Lemma migrate_rows_spec v prefix random fault rows table res table' :
  migrate_rows v prefix random fault rows table = (res, table') →
  NoDup (ids table) → NoDup (ids rows) →
  Forall (λ r, r ∈ table ∧ row_encrypted r = false ∧ is_str (row_value r)) rows →
  ids table' = ids table ∧ map row_name table' = map row_name table ∧
  map (read_secret v prefix) table' = map (read_secret v prefix) table ∧
  (is_ok res = true → ∀ r, r ∈ table' → row_encrypted r = false → r ∈ table ∧ row_id r ∉ ids rows).
Proof.
  revert table. induction rows as [|r rows IH]; intros table Hm Hn Hd Hrows.
  { injection Hm as <- <-. split; [done|]. split; [done|]. split; [done|]. intros _ r Hr _. split; [done|set_solver]. }
  simpl in Hm. destruct (encrypt_string _ _ _ _) as [value|e] eqn:E; [|by simplify_eq/=].
  destruct (fault (row_id r)); [by simplify_eq/=|]. apply Forall_cons in Hrows as [(Hr & Hf & Hs) Hrows].
  simpl in Hd. apply NoDup_cons in Hd as [Hri Hd].
  destruct (IH _ Hm) as (H1' & H2' & H3' & H4').
  - by rewrite set_encrypted_ids.
  - done.
  - rewrite Forall_forall in *. intros x Hx. destruct (Hrows x Hx) as (? & ? & ?). split; [|done].
    apply set_encrypted_other; [done|]. intros Ei. destruct Hri. apply list_elem_of_fmap. eauto.
  - split; [by rewrite H1', set_encrypted_ids|]. split; [by rewrite H2', set_encrypted_names|].
    split; [by rewrite H3'; eapply set_encrypted_reads|]. intros Hok x Hx Hxf.
    destruct (H4' Hok x Hx Hxf) as [Hin Hxi]. unfold set_encrypted in Hin.
    apply list_elem_of_fmap in Hin as (y & -> & Hy).
    destruct (Z.eqb_spec (row_id y) (row_id r)) as [Ei|Ei]; [done|]. split; [done|].
    simpl. rewrite elem_of_cons. by intros [|].
Qed.

Lemma migrate_rows_sealed v prefix random fault rows table :
  dek v = None → (migrate_rows v prefix random fault rows table).2 = table.
Proof. intros Hv. destruct rows as [|r rows]; [done|]. simpl. unfold encrypt_string. by rewrite Hv. Qed.

Lemma plaintext_rows_ids table : ids (plaintext_rows table) `sublist_of` ids table.
Proof.
  unfold plaintext_rows. induction table as [|r table IH]; [constructor|]. rewrite filter_cons. simpl.
  case_decide; simpl; by constructor.
Qed.

Lemma no_plaintext_rows table : Forall (λ r, row_encrypted r = true) table → plaintext_rows table = [].
Proof.
  unfold plaintext_rows. induction 1 as [|r l Hr _ IH]; [done|].
  rewrite filter_cons, decide_False by congruence. apply IH.
Qed.

(** Migrating a table of secrets loses nothing, wherever it stops: every row keeps
    its identifier and name and reads as before. When it succeeds every row is
    encrypted, the count is that of the rows that were not, and migrating again does
    nothing; under a sealed vault the table stays as it is. *)
Theorem migrate_lossless (prefix : str) (v : Vault) random load fault (table : list SecretRow) :
  NoDup (ids table) → Forall (λ r, is_str (row_value r)) table →
  let '(res, table') := migrate_table prefix v random load fault table in
  ids table' = ids table ∧ map row_name table' = map row_name table ∧
  map (read_secret v prefix) table' = map (read_secret v prefix) table ∧
  (dek v = None → table' = table) ∧
  match res with
  | Ok n => n = length (plaintext_rows table) ∧ Forall (λ r, row_encrypted r = true) table' ∧
      ∀ random' fault', migrate_table prefix v random' None fault' table' = (Ok 0, table')
  | Err _ => True
  end.
Proof.
  intros Hn Hs. unfold migrate_table. destruct load as [e|]; [done|]. cbv zeta.
  destruct (migrate_rows _ _ _ _ _ table) as [res table'] eqn:E.
  pose proof (migrate_rows_sealed v prefix random fault (plaintext_rows table) table) as Hsealed.
  rewrite E in Hsealed. destruct (migrate_rows_spec _ _ _ _ _ _ _ _ E Hn) as (H1' & H2' & H3' & H4').
  - exact (sublist_NoDup _ _ Hn (plaintext_rows_ids table)).
  - rewrite Forall_forall in *. intros r [Hf Hr]%list_elem_of_filter. auto.
  - split; [done|]. split; [done|]. split; [done|]. split; [done|]. destruct res as [[]|]; [|done].
    split; [done|]. assert (Forall (λ r, row_encrypted r = true) table') as Hall.
    { apply Forall_forall. intros r Hr. destruct (row_encrypted r) eqn:Ef; [done|].
      destruct (H4' eq_refl r Hr Ef) as [Hin Hno]. destruct Hno. apply list_elem_of_fmap. exists r.
      split; [done|]. by apply list_elem_of_filter. }
    split; [done|]. intros random' fault'. assert (plaintext_rows table' = []) as ->; [|done].
    by apply no_plaintext_rows.
Qed.

(** Migrating a file loses nothing either, wherever it stops. *)
Lemma migrate_json_lossless v random o aad fs res fs' :
  migrate_json_file v random o aad fs = (res, fs') → (∀ c, json fs = Some c → is_str c) →
  read_fault o = None →
  load_encrypted_or_plaintext (Some v) o aad fs' = load_encrypted_or_plaintext (Some v) o aad fs.
Proof.
  unfold migrate_json_file. intros Hm Hs Ho. destruct (json fs) as [c|] eqn:Ej; [|by simplify_eq].
  destruct (enc fs) eqn:Ee; [by simplify_eq|]. unfold read_file in Hm. rewrite Ho in Hm.
  destruct (negb _); [by simplify_eq|]. destruct (encrypt_string _ _ _ _) as [b|] eqn:E; [|by simplify_eq].
  apply encrypt_string_blob in E as (k & Hk & Hb).
  destruct (write_fault o); [by simplify_eq|].
  assert (decrypt_string v b aad = Ok c) as Hd by by eapply decrypt_string_blob; eauto.
  unfold load_encrypted_or_plaintext, read_file. rewrite Ej, Ee, Ho.
  destruct (rename_fault o); simplify_eq; simpl; by rewrite Hd.
Qed.

(** What was saved with a vault loads with it. *)
Lemma save_load v random o o' aad content fs fs' :
  is_str content → read_fault o' = None →
  save_encrypted_or_plaintext (Some v) random o aad content fs = (Ok tt, fs') →
  load_encrypted_or_plaintext (Some v) o' aad fs' = Ok (Some content).
Proof.
  unfold save_encrypted_or_plaintext. intros Hs Ho Hsv. destruct (encrypt_string _ _ _ _) as [b|] eqn:E; [|done].
  apply encrypt_string_blob in E as (k & Hk & Hb). destruct (write_fault o); [done|]. injection Hsv as <-.
  unfold load_encrypted_or_plaintext, read_file. simpl. rewrite Ho.
  by rewrite (decrypt_string_blob v k content aad b Hs Hb Hk).
Qed.
End facts.

(** ** Findings *)

Definition io_ok : io :=
  {| read_fault := None; write_fault := None; rename_fault := None; path := "keys.json"; enc_path := "keys.json.enc" |}.

#[local] Existing Instances toy_cipher toy_kit.

(** Without a vault the plaintext file is written beside an encrypted copy, which then
    keeps the new contents from being loaded. *)
Example plaintext_save_not_loaded :
  let fs := {| json := None; enc := Some (lit "old"); bak := None |} in
  let '(res, fs') := save_encrypted_or_plaintext None [] io_ok "keys" "new" fs in
  res = Ok tt ∧ json fs' = Some (lit "new") ∧
  load_encrypted_or_plaintext None io_ok "keys" fs' = Err Sealed.
Proof. vm_compute. by repeat split. Qed.

(** * Witnesses *)

Definition toy_vault : Vault := {| row := None; dek := Some (repeat 7%N 32) |}.
Definition toy_table : list SecretRow :=
  [{| row_id := 1; row_name := "A"; row_value := "secret"; row_encrypted := false |};
   {| row_id := 2; row_name := "B"; row_value := "other"; row_encrypted := false |}].

Lemma migrate_lossless_witness :
  let '(res, table') := migrate_env_vars toy_vault (λ _, []) None (λ _, None) toy_table in
  res = Ok 2 ∧ map (read_secret toy_vault "env:") table' = [Ok (lit "secret"); Ok (lit "other")].
Proof.
  split; [vm_compute; reflexivity|].
  refine (eq_trans (proj1 (proj2 (proj2 (migrate_lossless (H0 := toy_cipher_laws) (H2 := toy_kit_laws)
    "env:" toy_vault (λ _, []) None (λ _, None) toy_table _ _)))) _).
  - apply (bool_decide_unpack _). vm_compute. exact I.
  - repeat constructor.
  - vm_compute. reflexivity.
Defined.
