(* ===== verification/Cron.v ===== *)
(** Data, schedules and helpers of the cron system.

    Models [crates/cron/src/types.rs], [error.rs], [schedule.rs] (the next run of
    a schedule), [parse.rs] (durations), [heartbeat.rs] (the heartbeat's token,
    prompt and active hours) and [system_events.rs] (the event buffer).  Times are
    epoch milliseconds in 64 bits.  Cron expressions, time zones and clock times
    are read by the [cron], [chrono] and [chrono_tz] crates, which are parameters. *)
From stdpp Require Import pretty.
From S2P Require Import Prelude.
Local Open Scope Z_scope.

(** ** Types *)

Inductive CronWakeMode := Now | NextHeartbeat.

Inductive CronSchedule :=
| At (at_ms : Z)
| Every (every_ms : Z) (anchor_ms : option Z)
| Cron (expr : str) (tz : option str).

Inductive ToolChoice := ChoiceAuto | ChoiceAny | ChoiceNone | ChoiceTool (name : str).

Record AgentToolControls := {
  active_tools : option (list str);
  tool_choice : option ToolChoice;
}.

Inductive CronPayload :=
| SystemEventPayload (text : str)
| AgentTurn (message : str) (model agent_id : option str) (timeout_secs : option Z)
    (tool_controls : AgentToolControls) (deliver : bool) (channel to : option str).

Inductive SessionTarget := Main | Isolated | Named (name : str).

Inductive RunStatus := StatusOk | StatusError | StatusSkipped.

Record CronJobState := {
  next_run_at_ms : option Z;
  running_at_ms : option Z;
  last_run_at_ms : option Z;
  last_status : option RunStatus;
  last_error : option str;
  last_duration_ms : option Z;
}.

Definition CronJobState_default : CronJobState := {|
  next_run_at_ms := None; running_at_ms := None; last_run_at_ms := None;
  last_status := None; last_error := None; last_duration_ms := None |}.

Record CronSandboxConfig := {
  sb_enabled : bool;
  image : option str;
  auto_prune_container : option bool;
}.

Definition CronSandboxConfig_default : CronSandboxConfig :=
  {| sb_enabled := true; image := None; auto_prune_container := None |}.

Record CronJob := {
  id : str;
  name : str;
  enabled : bool;
  delete_after_run : bool;
  schedule : CronSchedule;
  payload : CronPayload;
  session_target : SessionTarget;
  state : CronJobState;
  sandbox : CronSandboxConfig;
  wake_mode : CronWakeMode;
  system : bool;
  created_at_ms : Z;
  updated_at_ms : Z;
}.

Record CronRunRecord := {
  job_id : str;
  started_at_ms : Z;
  finished_at_ms : Z;
  status : RunStatus;
  run_error : option str;
  duration_ms : Z;
  output : option str;
  input_tokens : option Z;
  output_tokens : option Z;
  session_key : option str;
}.

Record CronJobCreate := {
  c_id : option str;
  c_name : str;
  c_schedule : CronSchedule;
  c_payload : CronPayload;
  c_session_target : SessionTarget;
  c_delete_after_run : bool;
  c_enabled : bool;
  c_system : bool;
  c_sandbox : CronSandboxConfig;
  c_wake_mode : CronWakeMode;
}.

Record CronJobPatch := {
  p_name : option str;
  p_schedule : option CronSchedule;
  p_payload : option CronPayload;
  p_session_target : option SessionTarget;
  p_enabled : option bool;
  p_delete_after_run : option bool;
  p_sandbox : option CronSandboxConfig;
  p_wake_mode : option CronWakeMode;
}.

Record CronStatus := {
  st_running : bool;
  job_count : nat;
  enabled_count : nat;
  st_next_run_at_ms : option Z;
}.

Inductive CronNotification :=
| Created (job : CronJob)
| Updated (job : CronJob)
| Removed (job_id : str).

(** The errors of the crate; [Backend] stands for those of I/O and databases. *)
Inductive Error :=
| Backend (text : str)
| UnknownTimezone (timezone : str)
| JobNotFound (job_id : str)
| Message (message : str)
| External (context : str).

(** ** Next runs *)

Section schedule.
(** A parsed cron expression and time zone, their parsers, and the first instant
    of an expression after [now_ms] in a zone (in UTC without one). *)
Context {Schedule Tz : Type} (parse_schedule : str → result Schedule str)
  (parse_tz : str → option Tz) (schedule_after : Schedule → option Tz → Z → option Z).

Definition parse_padded (expr : str) : result Schedule Error :=
  match parse_schedule expr with
  | Ok s => Ok s
  | Err _ =>
      match parse_schedule (lit "0 " ++ expr ++ lit " *") with
      | Ok s => Ok s
      | Err source => Err (External (lit "invalid cron expression '" ++ expr ++ lit "': " ++ source))
      end
  end.

Definition compute_next_run (schedule : CronSchedule) (now_ms : Z) : result (option Z) Error :=
  match schedule with
  | At at_ms => if now_ms <? at_ms then Ok (Some at_ms) else Ok None
  | Every every_ms anchor_ms =>
      if every_ms =? 0 then Err (Message (lit "every_ms must be > 0"))
      else
        let anchor := unwrap_or now_ms anchor_ms in
        if now_ms <? anchor then Ok (Some anchor)
        else
          let elapsed := now_ms - anchor in
          let intervals := elapsed / every_ms in
          Ok (Some (wrap u64_bound (anchor + wrap u64_bound ((intervals + 1) * every_ms))))
  | Cron expr tz =>
      match parse_padded expr with
      | Err e => Err e
      | Ok s =>
          match tz with
          | Some tz_name =>
              match parse_tz tz_name with
              | None => Err (UnknownTimezone tz_name)
              | Some z => Ok (schedule_after s (Some z) now_ms)
              end
          | None => Ok (schedule_after s None now_ms)
          end
      end
  end.

(** An interval schedule runs next at the first instant strictly after now that
    lies a whole number of intervals after its anchor, at most one interval away,
    unless the anchor is still to come, when it runs there. *)
Theorem next_run_every (every now : Z) (anchor : option Z) :
  0 < every → 0 ≤ now → 0 ≤ unwrap_or now anchor → now + every < u64_bound →
  ∃ n, compute_next_run (Every every anchor) now = Ok (Some n) ∧ now < n ∧
    let a := unwrap_or now anchor in
    if now <? a then n = a
    else n ≤ now + every ∧ (n - a) mod every = 0 ∧
         ∀ k, 0 ≤ k → now < a + k * every → n ≤ a + k * every.
Proof.
  intros He Hn Ha Hb. unfold compute_next_run. rewrite (proj2 (Z.eqb_neq every 0)) by lia.
  set (a := unwrap_or now anchor) in *. cbv zeta.
  destruct (Z.ltb_spec now a) as [Hlt|Hge]; [by exists a|].
  pose proof (Z.div_mod (now - a) every ltac:(lia)) as Hdm.
  pose proof (Z.mod_pos_bound (now - a) every He) as Hmod.
  set (q := (now - a) / every) in *. set (m := (now - a) mod every) in *.
  assert (0 ≤ q) by (subst q; apply Z.div_pos; lia).
  assert ((q + 1) * every = now - a - m + every) as Hq by nia.
  exists (a + (q + 1) * every). unfold wrap.
  rewrite (Z.mod_small ((q + 1) * every)), Z.mod_small by lia.
  split; [done|]. split; [lia|]. split; [lia|]. split.
  - replace (a + (q + 1) * every - a) with ((q + 1) * every) by lia. by apply Z_mod_mult.
  - intros k Hk Hlt. assert (q + 1 ≤ k); nia.
Qed.
End schedule.

(** ** Durations *)

Definition parse_duration_ms `{Unicode} (input : str) : result Z Error :=
  let input := trim input in
  if negb (is_nonempty input) then Err (Message (lit "empty duration string"))
  else if str_eqb input "0" then Ok 0
  else
    match find_char is_alphabetic input with
    | None => Err (Message (lit "duration missing unit suffix (s/m/h/d): " ++ input))
    | Some i =>
        let num_str := take i input in
        let suffix := drop i input in
        match parse_u64 num_str with
        | None => Err (Message (lit "invalid number in duration: " ++ num_str))
        | Some value =>
            if value =? 0 then Err (Message (lit "duration must be > 0"))
            else if str_eqb suffix "s" then Ok (wrap u64_bound (value * 1000))
            else if str_eqb suffix "m" then Ok (wrap u64_bound (value * 60000))
            else if str_eqb suffix "h" then Ok (wrap u64_bound (value * 3600000))
            else if str_eqb suffix "d" then Ok (wrap u64_bound (value * 86400000))
            else Err (Message (lit "unknown duration suffix: " ++ suffix ++ lit " (expected s/m/h/d)"))
        end
    end.

(** A number of days that does not fit wraps around to another duration. *)
Example duration_overflow :
  parse_duration_ms (H := ascii_unicode) "213503982335d" = Ok 34448384.
Proof. vm_compute. reflexivity. Qed.

(** [timestamp_millis] of the parsed instant is a parameter. *)
Definition parse_absolute_time_ms (parse_utc : str → result Z str) (input : str) : result Z Error :=
  match parse_utc input with
  | Err source => Err (External (lit "invalid ISO 8601 timestamp: " ++ source))
  | Ok ms => if ms <? 0 then Err (Message (lit "timestamp is before epoch")) else Ok ms
  end.

(** ** Heartbeat *)

Definition HEARTBEAT_OK : str := "HEARTBEAT_OK".

Record StripResult := { should_skip : bool; text : str; did_strip : bool }.
Inductive StripMode := Exact | Trim.
Inductive HeartbeatPromptSource := FromConfig | FromHeartbeatMd | FromDefault.

Definition HeartbeatPromptSource_as_str (s : HeartbeatPromptSource) : str :=
  match s with
  | FromConfig => "config"
  | FromHeartbeatMd => "heartbeat_md"
  | FromDefault => "default"
  end.

Definition unwrap_bold (s : str) : str :=
  match strip_prefix "**" s ≫= strip_suffix "**" with
  | Some inner => inner
  | None => match strip_prefix "<b>" s ≫= strip_suffix "</b>" with
            | Some inner => inner
            | None => s
            end
  end.

Fixpoint strip_patterns (patterns : list str) (result : str) (did_strip : bool) : str * bool :=
  match patterns with
  | [] => (result, did_strip)
  | p :: patterns' =>
      if contains p result then strip_patterns patterns' (replace p [] result) true
      else strip_patterns patterns' result did_strip
  end.

Definition strip_heartbeat_token (txt : str) (mode : StripMode) (max_ack_chars : nat) : StripResult :=
  let trimmed := trim txt in
  let unwrapped := unwrap_bold trimmed in
  if str_eqb unwrapped HEARTBEAT_OK then {| should_skip := true; text := []; did_strip := true |}
  else match mode with
  | Exact => {| should_skip := false; text := trimmed; did_strip := false |}
  | Trim =>
      let patterns := [HEARTBEAT_OK; lit "**" ++ HEARTBEAT_OK ++ lit "**";
                       lit "<b>" ++ HEARTBEAT_OK ++ lit "</b>"] in
      let '(result, did) := strip_patterns patterns trimmed false in
      let result := trim result in
      {| should_skip := negb (is_nonempty result) ||
           ((utf8_len result <=? max_ack_chars)%nat && negb (is_nonempty result));
         text := result; did_strip := did |}
  end.

(** The bare token is removed first, so that the asterisks of a bold one stay. *)
Example bold_token_leaves_stars :
  text (strip_heartbeat_token "**HEARTBEAT_OK** all quiet" Trim 300) = lit "**** all quiet".
Proof. vm_compute. reflexivity. Qed.

Definition is_heartbeat_content_empty (content : str) : bool :=
  forallb (λ line,
    let trimmed := trim line in
    negb (is_nonempty trimmed) || starts_with "#" trimmed || str_eqb trimmed "-" ||
    str_eqb trimmed "*" || str_eqb trimmed "- " || str_eqb trimmed "* ") (lines content).

(** [parse_hhmm] gives the minutes of a clock time, [now_minutes] those of the
    current local time. *)
Definition is_within_active_hours (parse_hhmm : str → option Z) (now_minutes : Z)
    (start finish : str) : bool :=
  match parse_hhmm start, parse_hhmm finish with
  | Some start_minutes, Some end_time =>
      let end_minutes := if str_eqb finish "24:00" then 24 * 60 else end_time in
      if start_minutes <=? end_minutes
      then (start_minutes <=? now_minutes) && (now_minutes <? end_minutes)
      else (start_minutes <=? now_minutes) || (now_minutes <? end_minutes)
  | _, _ => true
  end.

Definition resolve_heartbeat_prompt (default_prompt : str) (custom heartbeat_md : option str)
    : str * HeartbeatPromptSource :=
  match trim <$> custom with
  | Some (_ :: _ as p) => (p, FromConfig)
  | _ =>
      match trim <$> heartbeat_md with
      | Some (_ :: _ as md) =>
          if is_heartbeat_content_empty md then (default_prompt, FromDefault)
          else (md, FromHeartbeatMd)
      | _ => (default_prompt, FromDefault)
      end
  end.

Definition parse_interval_ms (s : str) : option Z :=
  let s := trim s in
  if negb (is_nonempty s) then None
  else
    let '(num_str, multiplier) :=
      match strip_suffix "h" s with
      | Some n => (n, 3600000)
      | None => match strip_suffix "m" s with
      | Some n => (n, 60000)
      | None => match strip_suffix "s" s with
      | Some n => (n, 1000)
      | None => (s, 1)
      end end end in
    (λ n, wrap u64_bound (n * multiplier)) <$> parse_u64 (trim num_str).

(** ** The event buffer *)

Definition MAX_EVENTS : nat := 20.

Record SystemEvent := { ev_text : str; ev_reason : str; enqueued_at_ms : Z }.

Definition enqueue (events : list SystemEvent) (txt reason : str) (now : Z) : list SystemEvent :=
  if is_some_and (λ e, str_eqb (ev_text e) txt) (last events) then events
  else
    (if (MAX_EVENTS <=? length events)%nat then tail events else events)
    ++ [{| ev_text := txt; ev_reason := reason; enqueued_at_ms := now |}].

(** The events returned and the queue left. *)
Definition drain (events : list SystemEvent) : list SystemEvent * list SystemEvent := (events, []).

Definition EVENTS_PROMPT_PREFIX : str :=
  lit "Events occurred since your last check. Review them and relay anything noteworthy to the user."
  ++ [ch_newline; ch_newline].

Definition build_event_enriched_prompt (events : list SystemEvent) (base_prompt : str) : str :=
  if negb (is_nonempty events) then base_prompt
  else EVENTS_PROMPT_PREFIX ++
       flat_map (λ e, lit "- " ++ ev_text e ++ lit " [" ++ ev_reason e ++ lit "]" ++ [ch_newline]) events ++
       [ch_newline] ++ base_prompt.

(** Neighbours in the buffer differ. *)
Fixpoint no_repeats (l : list SystemEvent) : Prop :=
  match l with
  | e :: (e' :: _) as l' => ev_text e ≠ ev_text e' ∧ no_repeats l'
  | _ => True
  end.

(** [NaiveTime] has no hour 24, so that with the end of day written [24:00], as
    the configuration has it by default, every minute counts as active. *)
Lemma active_hours_end_of_day (parse_hhmm : str → option Z) (now_minutes : Z) (start : str) :
  parse_hhmm "24:00" = None → is_within_active_hours parse_hhmm now_minutes start "24:00" = true.
Proof. unfold is_within_active_hours. intros ->. by destruct (parse_hhmm start). Qed.

(** ** Facts on the event buffer *)

Lemma no_repeats_tail l : no_repeats l → no_repeats (tail l).
Proof. destruct l as [|e [|e' l]]; simpl; tauto. Qed.

Lemma no_repeats_snoc l e :
  no_repeats l → (∀ e', last l = Some e' → ev_text e' ≠ ev_text e) → no_repeats (l ++ [e]).
Proof.
  induction l as [|x [|y l] IH]; simpl; intros Hl He; [done|split; [by apply He|done]|].
  destruct Hl as [Hxy Hl]. split; [done|]. by apply IH.
Qed.

(** The buffer after a run of [enqueue]s and [drain]s. *)
Inductive events_reach : list SystemEvent → Prop :=
| events_new : events_reach []
| events_enqueue q t r now : events_reach q → events_reach (enqueue q t r now)
| events_drain q : events_reach q → events_reach (drain q).2.

(** The event buffer never holds more than twenty events nor the same text twice
    in a row, and the event enqueued last is always its last: only the oldest are
    dropped. *)
Theorem events_bounded (q : list SystemEvent) (t r : str) (now : Z) :
  events_reach q →
  (length q ≤ MAX_EVENTS)%nat ∧ no_repeats q ∧
  ev_text <$> last (enqueue q t r now) = Some t ∧
  ∃ k, (k ≤ 1)%nat ∧ ∃ new, (length new ≤ 1)%nat ∧ enqueue q t r now = drop k q ++ new.
Proof.
  intros Hq. assert ((length q ≤ MAX_EVENTS)%nat ∧ no_repeats q) as [Hlen Hrep].
  { induction Hq as [|q t' r' now' _ [IHl IHr]|q _ _];
      [by split; [apply Nat.le_0_l|]| |by split; [apply Nat.le_0_l|]]. unfold enqueue.
    destruct (is_some_and _ (last q)) eqn:E; [done|].
    assert (∀ e', last q = Some e' → ev_text e' ≠ t') as Hlast.
    { intros e' He'. rewrite He' in E. simpl in E. unfold str_eqb in E. by bools. }
    destruct (Nat.leb_spec MAX_EVENTS (length q)).
    - rewrite length_app. split; [destruct q; simpl in *; unfold MAX_EVENTS in *; lia|].
      apply no_repeats_snoc; [by apply no_repeats_tail|].
      intros e' He'. apply Hlast. by destruct q as [|x [|y q]]; simpl in *.
    - rewrite length_app. simpl. split; [lia|]. by apply no_repeats_snoc. }
  split; [done|]. split; [done|]. unfold enqueue.
  destruct (is_some_and _ (last q)) eqn:E.
  - apply is_some_and_true in E as (e & He & Ht). unfold str_eqb in Ht. bools. rewrite He. simpl.
    split; [by rewrite Ht|]. exists 0%nat. split; [lia|]. exists []. split; [simpl; lia|].
    by rewrite app_nil_r.
  - rewrite last_snoc. split; [done|].
    destruct (MAX_EVENTS <=? length q)%nat; [exists 1%nat|exists 0%nat]; (split; [lia|]);
      (eexists [_]; split; [simpl; lia|]); [by destruct q|done].
Qed.

(** * Witnesses *)

Lemma next_run_every_witness :
  ∃ n, compute_next_run (λ e, Err (E := str) (A := unit) e) (λ _, None (A := unit)) (λ _ _ _, None)
         (Every 60000 (Some 10000)) 130000 = Ok (Some n) ∧ n = 190000.
Proof.
  destruct (next_run_every (λ e, Err (E := str) (A := unit) e) (λ _, None (A := unit)) (λ _ _ _, None)
    60000 130000 (Some 10000)) as (n & Hn & _).
  - lia.
  - lia.
  - simpl. lia.
  - vm_compute. reflexivity.
  - exists n. split; [exact Hn|]. vm_compute in Hn. injection Hn as <-. reflexivity.
Defined.

Lemma events_bounded_witness :
  length (enqueue [] "done" "exec-event" 5) = 1%nat ∧
  ev_text <$> last (enqueue [] "done" "exec-event" 5) = Some (lit "done").
Proof.
  split; [reflexivity|].
  exact (proj1 (proj2 (proj2 (events_bounded [] "done" "exec-event" 5 events_new)))).
Defined.
