(* ===== verification/CronService.v ===== *)
(** The cron service and its stores.

    Models [crates/cron/src/service.rs] and [store.rs], [store_memory.rs].  The
    store is an interface, the class [CronStore], with the laws its clients rely
    on; the in-memory store implements it.  The service is a record threaded
    through its operations; the clock and fresh identifiers are arguments.  A job
    runs in two steps, its start ([process_due_jobs] or [run]) and its end
    ([finish_job]), between which other operations may come. *)
From S2P Require Import Prelude Cron.
Local Open Scope Z_scope.

(** ** Rate limiter *)

Record RateLimitConfig := { max_per_window : nat; window_ms : Z }.
Definition RateLimitConfig_default : RateLimitConfig :=
  {| max_per_window := 10; window_ms := 60000 |}.

Record RateLimiter := { timestamps : list Z; config : RateLimitConfig }.
Definition RateLimiter_new (config : RateLimitConfig) : RateLimiter :=
  {| timestamps := []; config := config |}.

Definition limit_exceeded (c : RateLimitConfig) : Error :=
  Message (lit "rate limit exceeded: max " ++ lit (pretty.pretty (N.of_nat (max_per_window c))) ++
           lit " jobs per " ++ lit (pretty.pretty (window_ms c / 1000)) ++ lit " seconds").

Definition check (l : RateLimiter) (now : Z) : result unit Error * RateLimiter :=
  let cutoff := sat_sub now (window_ms (config l)) in
  let ts := drop_while (λ ts, ts <? cutoff) (timestamps l) in
  if (max_per_window (config l) <=? length ts)%nat
  then (Err (limit_exceeded (config l)), {| timestamps := ts; config := config l |})
  else (Ok tt, {| timestamps := ts ++ [now]; config := config l |}).

(** ** Stores *)

Class CronStore (S : Type) := {
  load_jobs : S → result (list CronJob) Error;
  save_job : S → CronJob → result unit Error * S;
  delete_job : S → str → result unit Error * S;
  update_job : S → CronJob → result unit Error * S;
  append_run : S → str → CronRunRecord → result unit Error * S;
  get_runs : S → str → nat → result (list CronRunRecord) Error;
}.

(** What the service relies on: the stored jobs are a map from identifiers, and an
    operation that fails leaves it alone. *)
Class CronStoreLaws (S : Type) `{CronStore S} := {
  stored : S → gmap str CronJob;
  law_save s j r s' : save_job s j = (r, s') →
    stored s' = if is_ok r then <[id j := j]> (stored s) else stored s;
  law_delete s i r s' : delete_job s i = (r, s') →
    stored s' = if is_ok r then delete i (stored s) else stored s;
  law_update s j r s' : update_job s j = (r, s') →
    stored s' = (if is_ok r then <[id j := j]> (stored s) else stored s) ∧
    (is_ok r = true → isSome (stored s !! id j) = true);
  law_append s i rec r s' : append_run s i rec = (r, s') → stored s' = stored s;
}.

Record InMemoryStore := {
  m_jobs : gmap str CronJob;
  m_runs : gmap str (list CronRunRecord);
}.
Definition InMemoryStore_new : InMemoryStore := {| m_jobs := ∅; m_runs := ∅ |}.

Definition mem_save (s : InMemoryStore) (job : CronJob) : result unit Error * InMemoryStore :=
  (Ok tt, {| m_jobs := <[id job := job]> (m_jobs s); m_runs := m_runs s |}).
Definition mem_delete (s : InMemoryStore) (i : str) : result unit Error * InMemoryStore :=
  match m_jobs s !! i with
  | None => (Err (JobNotFound i), s)
  | Some _ => (Ok tt, {| m_jobs := delete i (m_jobs s); m_runs := m_runs s |})
  end.
Definition mem_update (s : InMemoryStore) (job : CronJob) : result unit Error * InMemoryStore :=
  match m_jobs s !! id job with
  | None => (Err (JobNotFound (id job)), s)
  | Some _ => (Ok tt, {| m_jobs := <[id job := job]> (m_jobs s); m_runs := m_runs s |})
  end.
Definition mem_append (s : InMemoryStore) (i : str) (run : CronRunRecord)
    : result unit Error * InMemoryStore :=
  (Ok tt, {| m_jobs := m_jobs s; m_runs := <[i := unwrap_or [] (m_runs s !! i) ++ [run]]> (m_runs s) |}).
Definition mem_get_runs (s : InMemoryStore) (i : str) (limit : nat)
    : result (list CronRunRecord) Error :=
  let records := unwrap_or [] (m_runs s !! i) in
  Ok (drop (length records - limit) records).
Definition mem_prune_runs_before (s : InMemoryStore) (before_ms : Z) : nat * InMemoryStore :=
  let keep := filter (λ r, (before_ms <=? started_at_ms r) = true) in
  let runs := keep <$> m_runs s in
  (sum_list (map (λ p, (length p.2 - length (keep p.2))%nat) (map_to_list (m_runs s))),
   {| m_jobs := m_jobs s; m_runs := runs |}).

#[export] Instance InMemoryStore_store : CronStore InMemoryStore := {|
  load_jobs s := Ok (map snd (map_to_list (m_jobs s)));
  save_job := mem_save;
  delete_job := mem_delete;
  update_job := mem_update;
  append_run := mem_append;
  get_runs := mem_get_runs |}.

#[export] Instance InMemoryStore_laws : CronStoreLaws InMemoryStore.
Proof.
  refine {| stored := m_jobs |}; simpl.
  - by intros s j r s' [= <- <-].
  - unfold mem_delete. intros s i r s' Hd. destruct (m_jobs s !! i); by injection Hd as <- <-.
  - unfold mem_update. intros s j r s' Hd. destruct (m_jobs s !! id j); by injection Hd as <- <-.
  - by intros s i rec r s' [= <- <-].
Defined.

(** ** The service *)

Record AgentTurnResult := {
  r_output : str;
  r_input_tokens : option Z;
  r_output_tokens : option Z;
  r_session_key : option str;
  delivery_error : option str;
}.

Record AgentTurnRequest := {
  req_message : str;
  req_model : option str;
  req_agent_id : option str;
  req_timeout_secs : option Z;
  req_tool_controls : AgentToolControls;
  req_deliver : bool;
  req_channel : option str;
  req_to : option str;
  req_session_target : SessionTarget;
  req_sandbox : CronSandboxConfig;
}.

Definition STUCK_THRESHOLD_MS : Z := 2 * 60 * 60 * 1000.
Definition DEFAULT_WAKE_COOLDOWN_MS : Z := 5 * 60 * 1000.
Definition WAKE_REASON_EXEC_EVENT : str := "exec-event".
Definition WAKE_REASON_CRON_EVENT : str := "cron-event".
Definition heartbeat_id : str := "__heartbeat__".

Definition validate_job_spec (job : CronJob) : result unit Error :=
  match session_target job, payload job with
  | Main, AgentTurn _ _ _ _ _ _ _ _ =>
      Err (Message (lit "sessionTarget=main requires payload kind=systemEvent"))
  | (Isolated | Named _), SystemEventPayload _ =>
      Err (Message (lit "sessionTarget=isolated/named requires payload kind=agentTurn"))
  | _, _ =>
      match payload job with
      | AgentTurn _ _ _ _ _ true channel to =>
          if negb (is_nonempty (unwrap_or [] channel))
          then Err (Message (lit "deliver=true requires a non-empty 'channel' (account_id)"))
          else if negb (is_nonempty (unwrap_or [] to))
          then Err (Message (lit "deliver=true requires a non-empty 'to' (chat_id)"))
          else Ok tt
      | _ => Ok tt
      end
  end.

Definition with_state (j : CronJob) (st : CronJobState) : CronJob := {|
  id := id j; name := name j; enabled := enabled j; delete_after_run := delete_after_run j;
  schedule := schedule j; payload := payload j; session_target := session_target j;
  state := st; sandbox := sandbox j; wake_mode := wake_mode j; system := system j;
  created_at_ms := created_at_ms j; updated_at_ms := updated_at_ms j |}.
Definition with_enabled (j : CronJob) (b : bool) : CronJob := {|
  id := id j; name := name j; enabled := b; delete_after_run := delete_after_run j;
  schedule := schedule j; payload := payload j; session_target := session_target j;
  state := state j; sandbox := sandbox j; wake_mode := wake_mode j; system := system j;
  created_at_ms := created_at_ms j; updated_at_ms := updated_at_ms j |}.

Definition with_next_run (st : CronJobState) (n : option Z) : CronJobState := {|
  next_run_at_ms := n; running_at_ms := running_at_ms st; last_run_at_ms := last_run_at_ms st;
  last_status := last_status st; last_error := last_error st; last_duration_ms := last_duration_ms st |}.
Definition with_running (st : CronJobState) (n : option Z) : CronJobState := {|
  next_run_at_ms := next_run_at_ms st; running_at_ms := n; last_run_at_ms := last_run_at_ms st;
  last_status := last_status st; last_error := last_error st; last_duration_ms := last_duration_ms st |}.

(** [if let Some(job) = jobs.iter_mut().find(|j| j.id == id) { f(job) }]: the first
    job with that identifier. *)
Fixpoint update_first (i : str) (f : CronJob → CronJob) (jobs : list CronJob) : list CronJob :=
  match jobs with
  | [] => []
  | j :: jobs' => if str_eqb (id j) i then f j :: jobs' else j :: update_first i f jobs'
  end.
Fixpoint find_job (i : str) (jobs : list CronJob) : option CronJob :=
  match jobs with
  | [] => None
  | j :: jobs' => if str_eqb (id j) i then Some j else find_job i jobs'
  end.

Section service.
Context {S : Type} `{CronStore S}.
(** [compute_next_run] with its parsers. *)
Context (compute_next : CronSchedule → Z → result (option Z) Error).

Record CronService := {
  store : S;
  jobs : list CronJob;
  running : bool;
  rate_limiter : RateLimiter;
  wake_cooldown_ms : Z;
  notifications : list CronNotification;   (** sent so far *)
  system_events : list str;                (** injected so far *)
}.

Definition service_new (s : S) (rate_limit_config : RateLimitConfig) (cooldown : Z) : CronService := {|
  store := s; jobs := []; running := false; rate_limiter := RateLimiter_new rate_limit_config;
  wake_cooldown_ms := cooldown; notifications := []; system_events := [] |}.

Definition with_store (v : CronService) (s : S) : CronService := {|
  store := s; jobs := jobs v; running := running v; rate_limiter := rate_limiter v;
  wake_cooldown_ms := wake_cooldown_ms v; notifications := notifications v;
  system_events := system_events v |}.
Definition with_jobs (v : CronService) (js : list CronJob) : CronService := {|
  store := store v; jobs := js; running := running v; rate_limiter := rate_limiter v;
  wake_cooldown_ms := wake_cooldown_ms v; notifications := notifications v;
  system_events := system_events v |}.
Definition with_run_flag (v : CronService) (b : bool) : CronService := {|
  store := store v; jobs := jobs v; running := b; rate_limiter := rate_limiter v;
  wake_cooldown_ms := wake_cooldown_ms v; notifications := notifications v;
  system_events := system_events v |}.
Definition with_limiter (v : CronService) (l : RateLimiter) : CronService := {|
  store := store v; jobs := jobs v; running := running v; rate_limiter := l;
  wake_cooldown_ms := wake_cooldown_ms v; notifications := notifications v;
  system_events := system_events v |}.
Definition notify (v : CronService) (n : CronNotification) : CronService := {|
  store := store v; jobs := jobs v; running := running v; rate_limiter := rate_limiter v;
  wake_cooldown_ms := wake_cooldown_ms v; notifications := notifications v ++ [n];
  system_events := system_events v |}.
Definition inject (v : CronService) (t : str) : CronService := {|
  store := store v; jobs := jobs v; running := running v; rate_limiter := rate_limiter v;
  wake_cooldown_ms := wake_cooldown_ms v; notifications := notifications v;
  system_events := system_events v ++ [t] |}.

(** Whether the wake of [job] is suppressed. *)
Definition in_cooldown (v : CronService) (job : CronJob) (reason : str) (now : Z) : bool :=
  str_eqb reason WAKE_REASON_EXEC_EVENT && (0 <? wake_cooldown_ms v) &&
  is_some_and (λ last_run, sat_sub now last_run <? wake_cooldown_ms v) (last_run_at_ms (state job)).

Definition wake (v : CronService) (reason : str) (now : Z) : CronService :=
  match find_job heartbeat_id (jobs v) with
  | Some job =>
      if enabled job && negb (isSome (running_at_ms (state job))) then
        if in_cooldown v job reason now then v
        else with_jobs v (update_first heartbeat_id
               (λ j, with_state j (with_next_run (state j) (Some now))) (jobs v))
      else v
  | None => v
  end.

(** [compute_next_run(..).unwrap_or(None)]. *)
Definition next_or_none (s : CronSchedule) (now : Z) : option Z :=
  match compute_next s now with Ok n => n | Err _ => None end.

Definition recompute_all_next_runs (v : CronService) (now : Z) : CronService :=
  with_jobs v (map (λ j, if enabled j
                         then with_state j (with_next_run (state j) (next_or_none (schedule j) now))
                         else j) (jobs v)).

Definition start (v : CronService) (now : Z) : result unit Error * CronService :=
  match load_jobs (store v) with
  | Err e => (Err e, v)
  | Ok loaded => (Ok tt, with_run_flag (recompute_all_next_runs (with_jobs v loaded) now) true)
  end.

Definition stop (v : CronService) : CronService := with_run_flag v false.

Definition create_job (create : CronJobCreate) (uuid : str) (now : Z) : CronJob := {|
  id := unwrap_or uuid (c_id create); name := c_name create; enabled := c_enabled create;
  delete_after_run := c_delete_after_run create; schedule := c_schedule create;
  payload := c_payload create; session_target := c_session_target create;
  state := CronJobState_default; sandbox := c_sandbox create; wake_mode := c_wake_mode create;
  system := c_system create; created_at_ms := now; updated_at_ms := now |}.

Definition add (v : CronService) (create : CronJobCreate) (uuid : str) (now : Z)
    : result CronJob Error * CronService :=
  let '(limit, v) :=
    if c_system create then (Ok tt, v)
    else let '(r, l) := check (rate_limiter v) now in (r, with_limiter v l) in
  match limit with
  | Err e => (Err e, v)
  | Ok _ =>
      let job := create_job create uuid now in
      match validate_job_spec job with
      | Err e => (Err e, v)
      | Ok _ =>
          match (if enabled job then compute_next (schedule job) now else Ok (next_run_at_ms (state job))) with
          | Err e => (Err e, v)
          | Ok next =>
              let job := with_state job (with_next_run (state job) next) in
              let '(r, s) := save_job (store v) job in
              let v := with_store v s in
              match r with
              | Err e => (Err e, v)
              | Ok _ => (Ok job, notify (with_jobs v (jobs v ++ [job])) (Created job))
              end
          end
      end
  end.

Definition apply_patch (j : CronJob) (p : CronJobPatch) (now : Z) : CronJob := {|
  id := id j; name := unwrap_or (name j) (p_name p); enabled := unwrap_or (enabled j) (p_enabled p);
  delete_after_run := unwrap_or (delete_after_run j) (p_delete_after_run p);
  schedule := unwrap_or (schedule j) (p_schedule p); payload := unwrap_or (payload j) (p_payload p);
  session_target := unwrap_or (session_target j) (p_session_target p); state := state j;
  sandbox := unwrap_or (sandbox j) (p_sandbox p); wake_mode := unwrap_or (wake_mode j) (p_wake_mode p);
  system := system j; created_at_ms := created_at_ms j; updated_at_ms := now |}.

(** The patch is applied to the job in memory first; the checks come after. *)
Definition update (v : CronService) (i : str) (patch : CronJobPatch) (now : Z)
    : result CronJob Error * CronService :=
  match find_job i (jobs v) with
  | None => (Err (JobNotFound i), v)
  | Some job =>
      let job := apply_patch job patch now in
      let put (j : CronJob) := with_jobs v (update_first i (λ _, j) (jobs v)) in
      match validate_job_spec job with
      | Err e => (Err e, put job)
      | Ok _ =>
          match (if enabled job then compute_next (schedule job) now else Ok None) with
          | Err e => (Err e, put job)
          | Ok next =>
              let job := with_state job (with_next_run (state job) next) in
              let '(r, s) := update_job (store v) job in
              let v' := with_store (put job) s in
              match r with
              | Err e => (Err e, v')
              | Ok _ => (Ok job, notify v' (Updated job))
              end
          end
      end
  end.

Definition remove (v : CronService) (i : str) : result unit Error * CronService :=
  let '(r, s) := delete_job (store v) i in
  let v := with_store v s in
  match r with
  | Err e => (Err e, v)
  | Ok _ => (Ok tt, notify (with_jobs v (filter (λ j, str_eqb (id j) i = false) (jobs v))) (Removed i))
  end.

Definition update_job_state (v : CronService) (i : str) (f : CronJobState → CronJobState) : CronService :=
  with_jobs v (update_first i (λ j, with_state j (f (state j))) (jobs v)).

(** The start of a forced run: the snapshot to execute. *)
Definition run (v : CronService) (i : str) (force : bool) (now : Z)
    : result CronJob Error * CronService :=
  match find_job i (jobs v) with
  | None => (Err (JobNotFound i), v)
  | Some job =>
      if negb (enabled job) && negb force
      then (Err (Message (lit "job is disabled (use force=true to override)")), v)
      else (Ok job, update_job_state v (id job) (λ st, with_running st (Some now)))
  end.

Definition get_status (v : CronService) : CronStatus :=
  let user_jobs := filter (λ j, system j = false) (jobs v) in
  {| st_running := running v; job_count := length user_jobs;
     enabled_count := length (filter (λ j, enabled j = true) user_jobs);
     st_next_run_at_ms :=
       foldr (λ t acc, Some (match acc with Some a => Z.min t a | None => t end)) None
         (omap (λ j, next_run_at_ms (state j)) user_jobs) |}.

Definition ms_until_next_wake (v : CronService) (now : Z) : Z :=
  unwrap_or 60000
    (foldr (λ t acc, Some (match acc with Some a => Z.min t a | None => t end)) None
       (map (λ t, sat_sub t now)
          (omap (λ j, next_run_at_ms (state j)) (filter (λ j, enabled j = true) (jobs v))))).

Definition is_due (now : Z) (j : CronJob) : bool :=
  enabled j && is_some_and (λ t, t <=? now) (next_run_at_ms (state j)) &&
  negb (isSome (running_at_ms (state j))).

Definition mark_running (now : Z) (j : CronJob) : CronJob :=
  with_state j (with_running (state j) (Some now)).

Definition stuck (now : Z) (j : CronJob) : bool :=
  is_some_and (λ running_at, STUCK_THRESHOLD_MS <? sat_sub now running_at) (running_at_ms (state j)).

Definition clear_stuck (now : Z) (j : CronJob) : CronJob :=
  if stuck now j then
    with_state j {| next_run_at_ms := next_run_at_ms (state j); running_at_ms := None;
                    last_run_at_ms := last_run_at_ms (state j); last_status := Some StatusError;
                    last_error := Some (lit "stuck: exceeded 2h timeout");
                    last_duration_ms := last_duration_ms (state j) |}
  else j.
Definition clear_stuck_jobs (v : CronService) (now : Z) : CronService :=
  with_jobs v (map (clear_stuck now) (jobs v)).

(** The snapshots of the jobs to execute, which are marked as running. *)
Definition process_due_jobs (v : CronService) (now : Z) : list CronJob * CronService :=
  let due := map (mark_running now) (filter (λ j, is_due now j = true) (jobs v)) in
  let v := with_jobs v (map (λ j, if is_due now j then mark_running now j else j) (jobs v)) in
  (due, clear_stuck_jobs v now).

(** What executing a job asks for: an injected event or an agent turn. *)
Definition agent_request (job : CronJob) : option AgentTurnRequest :=
  match payload job with
  | SystemEventPayload _ => None
  | AgentTurn message model agent_id timeout_secs tool_controls deliver channel to =>
      Some {| req_message := message; req_model := model; req_agent_id := agent_id;
              req_timeout_secs := timeout_secs; req_tool_controls := tool_controls;
              req_deliver := deliver; req_channel := channel; req_to := to;
              req_session_target := session_target job; req_sandbox := sandbox job |}
  end.

(** The first half of [execute_job]. *)
Definition begin_job (v : CronService) (job : CronJob) : option AgentTurnRequest * CronService :=
  match payload job with
  | SystemEventPayload t => (None, inject v t)
  | _ => (agent_request job, v)
  end.

(** The result of the payload: that of the agent turn, or the fixed one of an event. *)
Definition event_result : AgentTurnResult := {|
  r_output := "system event injected"; r_input_tokens := None; r_output_tokens := None;
  r_session_key := None; delivery_error := None |}.

Definition run_record (job : CronJob) (r : result AgentTurnResult str) (started finished : Z)
    : CronRunRecord :=
  let duration := wrap u64_bound (finished - started) in
  match r with
  | Ok res =>
      {| job_id := id job; started_at_ms := started; finished_at_ms := finished;
         status := match delivery_error res with Some _ => StatusError | None => StatusOk end;
         run_error := delivery_error res; duration_ms := duration; output := Some (r_output res);
         input_tokens := r_input_tokens res; output_tokens := r_output_tokens res;
         session_key := r_session_key res |}
  | Err e =>
      {| job_id := id job; started_at_ms := started; finished_at_ms := finished;
         status := StatusError; run_error := Some e; duration_ms := duration; output := None;
         input_tokens := None; output_tokens := None; session_key := None |}
  end.

Definition finished_state (rec : CronRunRecord) (next_run : option Z) (_ : CronJobState) : CronJobState := {|
  next_run_at_ms := next_run; running_at_ms := None; last_run_at_ms := Some (finished_at_ms rec);
  last_status := Some (status rec); last_error := run_error rec;
  last_duration_ms := Some (duration_ms rec) |}.

(** The second half of [execute_job], of the snapshot [job]. *)
Definition finish_job (v : CronService) (job : CronJob) (r : result AgentTurnResult str)
    (started finished now : Z) : CronRunRecord * CronService :=
  let rec := run_record job r started finished in
  let v := with_store v (append_run (store v) (id job) rec).2 in
  let next_run := next_or_none (schedule job) now in
  let v := update_job_state v (id job) (finished_state rec next_run) in
  let v :=
    match next_run with
    | None =>
        if delete_after_run job then (remove v (id job)).2
        else
          let v := with_jobs v (update_first (id job) (λ j, with_enabled j false) (jobs v)) in
          match find_job (id job) (jobs v) with
          | Some j => with_store v (update_job (store v) j).2
          | None => v
          end
    | Some _ =>
        match find_job (id job) (jobs v) with
        | Some j => with_store v (update_job (store v) j).2
        | None => v
        end
    end in
  let v := match wake_mode job with
           | Now => if str_eqb (id job) heartbeat_id then v else wake v WAKE_REASON_CRON_EVENT now
           | NextHeartbeat => v
           end in
  (rec, v).
End service.

(** * Facts *)

(** ** The rate limiter *)

(** The times at which checks succeeded, of checks at the given times. *)
Fixpoint granted (l : RateLimiter) (times : list Z) : list Z :=
  match times with
  | [] => []
  | now :: times' =>
      match check l now with
      | (Ok _, l') => now :: granted l' times'
      | (Err _, l') => granted l' times'
      end
  end.

(** The grants of the window that ends at [t]. *)
Definition within (w t : Z) (l : list Z) : list Z := filter (λ s, t - w ≤ s) l.

Lemma drop_while_sorted c l :
  StronglySorted Z.le l → drop_while (λ ts, ts <? c) l = filter (λ s, c ≤ s) l.
Proof.
  induction 1 as [|x l Hs IH Hx]; [done|]. simpl. destruct (Z.ltb_spec x c).
  - rewrite IH, filter_cons_False by lia. done.
  - symmetry. apply filter_all. constructor; [lia|]. eapply Forall_impl; [done|]. simpl. lia.
Qed.

Lemma filter_filter_le c c' (l : list Z) : c' ≤ c → filter (λ s, c ≤ s) (filter (λ s, c' ≤ s) l) = filter (λ s, c ≤ s) l.
Proof.
  intros Hc. rewrite list_filter_filter. apply list_filter_iff. intros x. lia.
Qed.

Lemma sorted_filter (P : Z → Prop) `{∀ x, Decision (P x)} (l : list Z) :
  StronglySorted Z.le l → StronglySorted Z.le (filter P l).
Proof.
  induction 1 as [|x l Hs IH Hx]; [constructor|]. rewrite filter_cons.
  destruct (decide (P x)); [|done]. constructor; [done|].
  rewrite Forall_forall in *. intros y [_ Hy]%list_elem_of_filter. auto.
Qed.

(** The limiter remembers the grants [past] from some instant on. *)
Definition remembers (l : RateLimiter) (past : list Z) (c : Z) : Prop :=
  timestamps l = filter (λ s, c ≤ s) past.

Lemma check_remembers l past c now :
  remembers l past c → StronglySorted Z.le past → c ≤ sat_sub now (window_ms (config l)) →
  check l now =
    let ts := filter (λ s, sat_sub now (window_ms (config l)) ≤ s) past in
    if (max_per_window (config l) <=? length ts)%nat
    then (Err (limit_exceeded (config l)), {| timestamps := ts; config := config l |})
    else (Ok tt, {| timestamps := ts ++ [now]; config := config l |}).
Proof.
  unfold remembers. intros Hr Hp Hc. unfold check. cbv zeta. rewrite Hr, drop_while_sorted by by apply sorted_filter.
  rewrite filter_filter_le by done. done.
Qed.

Lemma granted_window l past c times :
  remembers l past c → 0 ≤ window_ms (config l) → StronglySorted Z.le past → Forall (λ s, 0 ≤ s) past →
  StronglySorted Z.le times → Forall (λ t, 0 ≤ t ∧ c ≤ sat_sub t (window_ms (config l)) ∧ Forall (λ s, s ≤ t) past) times →
  ∀ g t rest, granted l times = g ++ t :: rest →
  (length (within (window_ms (config l)) t (past ++ g ++ [t])) ≤ max_per_window (config l))%nat.
Proof.
  revert l past c; induction times as [|now times IH]; intros l past c Hr Hw Hp H0 Ht Hall g t rest; [by destruct g|]. cbn [granted].
  apply StronglySorted_cons in Ht as [Hnow Ht]. apply Forall_cons in Hall as [(Hn0 & Hc & Hle) Hall].
  rewrite (check_remembers l past c now) by done. cbv zeta.
  set (cut := sat_sub now (window_ms (config l))) in *.
  assert (Forall (λ t, 0 ≤ t ∧ cut ≤ sat_sub t (window_ms (config l)) ∧ Forall (λ s, s ≤ t) past ∧ now ≤ t) times) as Hlater.
  { apply Forall_forall. intros t' Ht'.
    destruct (proj1 (Forall_forall _ _) Hall _ Ht') as (? & ? & ?).
    pose proof (proj1 (Forall_forall _ _) Hnow _ Ht').
    split; [done|]. split; [unfold cut, sat_sub; lia|]. by split. }
  destruct (Nat.leb_spec (max_per_window (config l)) (length (filter (λ s, cut ≤ s) past))) as [Hfull|Hfree]; simpl.
  - intros Hg. refine (IH {| timestamps := filter (λ s, cut ≤ s) past; config := config l |} past cut
      _ Hw Hp H0 Ht _ g t rest Hg); [done|].
    eapply Forall_impl; [done|]. simpl. tauto.
  - assert (∀ t0 l0, 0 ≤ t0 → Forall (λ s, 0 ≤ s) l0 →
      within (window_ms (config l)) t0 l0 = filter (λ s, sat_sub t0 (window_ms (config l)) ≤ s) l0) as Hwithin.
    { intros t0 l0 Ht0 Hl0. unfold within. induction Hl0 as [|x l0 Hx Hl0 IHl]; [done|].
      rewrite !filter_cons, IHl. unfold sat_sub. by repeat case_decide; try lia. }
    destruct g as [|t0 g]; simpl; intros [= <- Hg].
    + rewrite Hwithin by (try done; apply Forall_app; by repeat constructor). fold cut.
      rewrite filter_app, length_app, filter_cons, filter_nil. case_decide; simpl; lia.
    + assert (past ++ now :: g ++ [t] = (past ++ [now]) ++ g ++ [t]) as -> by (by rewrite <- app_assoc).
      refine (IH {| timestamps := _; config := config l |} (past ++ [now]) cut _ Hw _ _ Ht _ g t rest Hg).
      * unfold remembers. simpl. rewrite filter_app, filter_cons, filter_nil, decide_True; [done|].
        unfold cut, sat_sub. lia.
      * by apply sorted_snoc.
      * apply Forall_app. by repeat constructor.
      * simpl. eapply Forall_impl; [done|]. simpl. intros t' (? & ? & ? & ?). split; [done|]. split; [done|].
        apply Forall_app. by repeat constructor.
Qed.

(** Whatever the times of the requests, the window that ends at any granted
    request holds at most [max_per_window] granted ones. *)
Theorem limiter_window (c : RateLimitConfig) (times : list Z) :
  0 ≤ window_ms c → Forall (λ t, 0 ≤ t) times → StronglySorted Z.le times →
  ∀ g t rest, granted (RateLimiter_new c) times = g ++ t :: rest →
  (length (within (window_ms c) t (g ++ [t])) ≤ max_per_window c)%nat.
Proof.
  intros Hw H0 Hs g t rest Hg.
  refine (granted_window (RateLimiter_new c) [] 0 times _ Hw _ _ Hs _ g t rest Hg); [done|constructor|constructor|].
  eapply Forall_impl; [done|]. simpl. intros x Hx. split; [done|]. split; [unfold sat_sub; lia|constructor].
Qed.

(** ** Overlapping runs *)

Section runs.
Context {S : Type} `{CronStore S}.
Context (compute_next : CronSchedule → Z → result (option Z) Error).
Implicit Types (v : CronService (S := S)) (js : list CronJob).

Notation ids js := (map id js).

(** [js'] comes from [js] without new jobs, and every job but [i] is as much
    running as before. *)
Definition derived (i : option str) (js js' : list CronJob) : Prop :=
  ids js' `sublist_of` ids js ∧
  ∀ k', k' ∈ js' → Some (id k') ≠ i →
    ∃ k, k ∈ js ∧ id k = id k' ∧ running_at_ms (state k) = running_at_ms (state k').

Lemma ids_filter (P : CronJob → Prop) `{∀ j, Decision (P j)} js :
  ids (filter P js) `sublist_of` ids js.
Proof.
  induction js as [|j js IH]; [constructor|]. rewrite filter_cons. simpl.
  case_decide; simpl; by constructor.
Qed.

Lemma derived_refl i js : derived i js js.
Proof. split; [done|]. intros k' ? _. by exists k'. Qed.

Lemma derived_trans i js1 js2 js3 : derived i js1 js2 → derived i js2 js3 → derived i js1 js3.
Proof.
  intros [H1 H2] [H3 H4]. split; [by etrans|]. intros k' Hk Hi.
  destruct (H4 k' Hk Hi) as (k & Hk2 & E & ER). destruct (H2 k Hk2) as (k0 & ? & ? & ?); [congruence|].
  exists k0. split; [done|]. split; congruence.
Qed.

Lemma derived_weaken i js js' : derived None js js' → derived i js js'.
Proof. intros [H1 H2]. split; [done|]. intros k' ? _. by apply H2. Qed.

Lemma update_first_derived i f js :
  (∀ j, id j = i → id (f j) = id j) → derived (Some i) js (update_first i f js).
Proof.
  intros Hf. split.
  - replace (ids (update_first i f js)) with (ids js); [done|].
    induction js as [|j js IH]; simpl; [done|]. destruct (str_eqb (id j) i) eqn:E; simpl.
    + unfold str_eqb in E. bools. by rewrite Hf.
    + by rewrite IH.
  - intros k' Hk Hi. exists k'. split; [|done]. revert Hk.
    induction js as [|j js IH]; simpl; [done|]. destruct (str_eqb (id j) i) eqn:E.
    + unfold str_eqb in E. bools. rewrite !elem_of_cons. intros [->|?]; [|by right].
      rewrite Hf in Hi by done. congruence.
    + rewrite !elem_of_cons. intros [->|?]; [by left|]. right. by apply IH.
Qed.

Lemma update_first_keeps i f js :
  (∀ j, id j = i → id (f j) = id j ∧ running_at_ms (state (f j)) = running_at_ms (state j)) →
  derived None js (update_first i f js).
Proof.
  intros Hf. split.
  - apply update_first_derived. intros j Hj. by apply Hf.
  - intros k' Hk _. revert Hk. induction js as [|j js IH]; simpl; [by rewrite elem_of_nil|].
    destruct (str_eqb (id j) i) eqn:E.
    + unfold str_eqb in E. bools. destruct (Hf j E). rewrite elem_of_cons. intros [->|?].
      * exists j. split; [set_solver|]. by split.
      * exists k'. split; [set_solver|done].
    + rewrite elem_of_cons. intros [->|Hk]; [exists j; split; [set_solver|done]|].
      destruct (IH Hk) as (k & ? & ? & ?). exists k. split; [set_solver|done].
Qed.

Lemma find_job_In i js j : find_job i js = Some j → j ∈ js ∧ id j = i.
Proof.
  induction js as [|k js IH]; simpl; [done|]. destruct (str_eqb (id k) i) eqn:E.
  - intros [= ->]. unfold str_eqb in E. bools. split; [set_solver|done].
  - intros Hf. destruct (IH Hf). split; [set_solver|done].
Qed.

(** Replacing the job found. *)
Lemma update_first_put i js job job' :
  find_job i js = Some job → id job' = i →
  running_at_ms (state job') = running_at_ms (state job) →
  derived None js (update_first i (λ _, job') js).
Proof.
  intros Hf Hid Hr. split.
  - apply update_first_derived. intros j Hj. congruence.
  - intros k' Hk _. revert Hf Hk. induction js as [|j js IH]; simpl; [done|].
    destruct (str_eqb (id j) i) eqn:E.
    + intros [= ->]. unfold str_eqb in E. bools. rewrite elem_of_cons. intros [->|?].
      * exists job. split; [set_solver|]. split; congruence.
      * exists k'. split; [set_solver|done].
    + intros Hf. rewrite elem_of_cons. intros [->|Hk]; [exists j; split; [set_solver|done]|].
      destruct (IH Hf Hk) as (k & ? & ? & ?). exists k. split; [set_solver|done].
Qed.

Lemma update_derived v i patch now :
  derived None (jobs v) (jobs (update compute_next v i patch now).2).
Proof.
  unfold update. destruct (find_job i (jobs v)) as [job|] eqn:E; [|apply derived_refl].
  pose proof (find_job_In _ _ _ E) as [_ Hid].
  destruct (validate_job_spec _); [|simpl; by eapply update_first_put].
  destruct (if enabled (apply_patch job patch now) then _ else _) as [next|]; [|simpl; by eapply update_first_put].
  destruct (update_job _ _) as [[] ?]; simpl; by eapply update_first_put.
Qed.

Lemma wake_derived v reason now : derived None (jobs v) (jobs (wake v reason now)).
Proof.
  unfold wake. destruct (find_job _ _); [|apply derived_refl].
  destruct (_ && _); [|apply derived_refl]. destruct (in_cooldown _ _ _ _); [apply derived_refl|].
  apply update_first_keeps. by intros j _.
Qed.

Lemma remove_derived v i : derived None (jobs v) (jobs (remove v i).2).
Proof.
  unfold remove. destruct (delete_job _ _) as [[] s]; simpl; [|apply derived_refl]. split.
  - apply ids_filter.
  - intros k' [_ Hk]%list_elem_of_filter _. by exists k'.
Qed.

Lemma finish_derived v job r started finished now :
  derived (Some (id job)) (jobs v) (jobs (finish_job compute_next v job r started finished now).2).
Proof.
  unfold finish_job. set (rec := run_record _ _ _ _). set (next_run := next_or_none _ _ _). cbn zeta.
  set (v1 := update_job_state _ _ _).
  assert (derived (Some (id job)) (jobs v) (jobs v1)) as H1.
  { subst v1. simpl. by apply update_first_derived. }
  match goal with |- context [match wake_mode job with Now => _ | NextHeartbeat => ?w end] => set (v2 := w) end.
  assert (derived (Some (id job)) (jobs v) (jobs v2)) as H2.
  { subst v2. destruct next_run as [n|].
    - by destruct (find_job _ _).
    - destruct (delete_after_run job).
      + eapply derived_trans; [exact H1|]. apply derived_weaken, remove_derived.
      + eapply derived_trans; [exact H1|]. apply derived_weaken.
        assert (derived None (jobs v1) (update_first (id job) (λ j, with_enabled j false) (jobs v1))) as He
          by by apply update_first_keeps.
        by destruct (find_job _ _). }
  simpl. destruct (wake_mode job); [|done]. destruct (str_eqb _ _); [done|].
  eapply derived_trans; [exact H2|]. apply derived_weaken, wake_derived.
Qed.

(** The service with the snapshots of the jobs being executed; no job is stuck when
    the timer fires, and no run is forced. *)
Inductive scheduled (s : S) (c : RateLimitConfig) (cooldown : Z) :
    CronService (S := S) → list CronJob → Prop :=
| sched_new : scheduled s c cooldown (service_new s c cooldown) []
| sched_tick v fl now :
    scheduled s c cooldown v fl → Forall (λ j, stuck now j = false) (jobs v) →
    scheduled s c cooldown (process_due_jobs v now).2 (fl ++ (process_due_jobs v now).1)
| sched_finish v fl1 job fl2 r started finished now :
    scheduled s c cooldown v (fl1 ++ job :: fl2) →
    scheduled s c cooldown (finish_job compute_next v job r started finished now).2 (fl1 ++ fl2)
| sched_add v fl create uuid now :
    scheduled s c cooldown v fl →
    unwrap_or uuid (c_id create) ∉ ids (jobs v) ++ ids fl →
    scheduled s c cooldown (add compute_next v create uuid now).2 fl
| sched_update v fl i patch now :
    scheduled s c cooldown v fl → scheduled s c cooldown (update compute_next v i patch now).2 fl
| sched_remove v fl i :
    scheduled s c cooldown v fl → scheduled s c cooldown (remove v i).2 fl
| sched_wake v fl reason now :
    scheduled s c cooldown v fl → scheduled s c cooldown (wake v reason now) fl.

Record runs_ok v (fl : list CronJob) : Prop := {
  runs_ids : NoDup (ids (jobs v));
  runs_flight : NoDup (ids fl);
  runs_marked j k : j ∈ fl → k ∈ jobs v → id k = id j → running_at_ms (state k) ≠ None;
}.

Lemma runs_ok_derived v v' fl :
  derived None (jobs v) (jobs v') → runs_ok v fl → runs_ok v' fl.
Proof.
  intros [Hs Hk] [Hi Hf Hm]. split; [exact (sublist_NoDup _ _ Hi Hs)|done|].
  intros j k' Hj Hk' Hid. destruct (Hk k' Hk' ltac:(done)) as (k & Hkin & E & <-).
  apply (Hm j k); congruence.
Qed.

Lemma tick_ok v fl now :
  Forall (λ j, stuck now j = false) (jobs v) → runs_ok v fl →
  runs_ok (process_due_jobs v now).2 (fl ++ (process_due_jobs v now).1).
Proof.
  intros Hst [Hi Hf Hm]. unfold process_due_jobs. simpl.
  assert (ids (map (mark_running now) (filter (λ j, is_due now j = true) (jobs v))) =
          ids (filter (λ j, is_due now j = true) (jobs v))) as Hids by by rewrite map_map.
  set (js' := map (clear_stuck now) (map (λ j, if is_due now j then mark_running now j else j) (jobs v))).
  assert (∀ k', k' ∈ js' → ∃ k, k ∈ jobs v ∧ id k' = id k ∧
            running_at_ms (state k') = if is_due now k then Some now else running_at_ms (state k)) as Hjs.
  { intros k' Hk'. subst js'. rewrite map_map in Hk'. apply list_elem_of_fmap in Hk' as (k & -> & Hk).
    exists k. split; [done|]. rewrite Forall_forall in Hst. specialize (Hst k Hk). unfold clear_stuck.
    destruct (is_due now k).
    - assert (stuck now (mark_running now k) = false) as ->; [|done].
      unfold stuck, mark_running; simpl. apply Z.ltb_ge. unfold sat_sub, STUCK_THRESHOLD_MS. lia.
    - by rewrite Hst. }
  split; simpl; fold js'.
  - assert (ids js' = ids (jobs v)) as ->; [|done]. subst js'. rewrite !map_map. apply map_ext.
    intros j. unfold clear_stuck. destruct (is_due now j); by destruct (stuck _ _).
  - rewrite map_app, Hids. apply NoDup_app. split; [done|]. split.
    + intros i (j & -> & Hj)%list_elem_of_fmap (k & Hid & Hk)%list_elem_of_fmap.
      apply list_elem_of_filter in Hk as [Hd Hk]. apply (Hm j k Hj Hk); [congruence|].
      unfold is_due in Hd. bools. by destruct (running_at_ms (state k)).
    + exact (sublist_NoDup _ _ Hi (ids_filter _ _)).
  - intros j k' [Hj|Hj]%elem_of_app Hk' Hid; destruct (Hjs k' Hk') as (k & Hk & Eid & ->).
    + destruct (is_due now k); [done|]. apply (Hm j k); congruence.
    + apply list_elem_of_fmap in Hj as (j0 & -> & Hj). apply list_elem_of_filter in Hj as [Hd Hj].
      assert (k = j0) as ->; [|by rewrite Hd]. simpl in Hid.
      assert (id k = id j0) as E by congruence. clear -Hi Hk Hj E.
      induction (jobs v) as [|x l IH]; [set_solver|]. simpl in Hi. apply NoDup_cons in Hi as [Hx Hi].
      apply elem_of_cons in Hk as [->|Hk]; apply elem_of_cons in Hj as [->|Hj]; [done|..|by apply IH];
        destruct Hx; apply list_elem_of_fmap; eauto.
Qed.

Lemma add_jobs v create uuid now :
  jobs (add compute_next v create uuid now).2 = jobs v ∨
  ∃ job, id job = unwrap_or uuid (c_id create) ∧ jobs (add compute_next v create uuid now).2 = jobs v ++ [job].
Proof.
  unfold add. destruct (if c_system create then _ else _) as [[]  v0] eqn:E0; simpl;
    (assert (jobs v0 = jobs v) as Hv0 by (destruct (c_system create); [congruence|]; destruct (check _ _); by simplify_eq));
    [|by left].
  destruct (validate_job_spec _); [|by left].
  match goal with |- context [match ?x with Ok next => _ | Err e => _ end] => destruct x end; [|by left].
  destruct (save_job _ _) as [[] ?]; simpl; [|by left]. right. rewrite Hv0.
  eexists. split; [|reflexivity]. done.
Qed.

Lemma scheduled_ok s c cooldown v fl : scheduled s c cooldown v fl → runs_ok v fl.
Proof.
  induction 1 as [|v fl now _ IH Hst|v fl1 job fl2 r st fi now _ IH|v fl create uuid now _ IH Hfresh
                 |v fl i patch now _ IH|v fl i _ IH|v fl reason now _ IH].
  - split; simpl; [constructor|constructor|set_solver].
  - by apply tick_ok.
  - destruct (finish_derived v job r st fi now) as [Hs Hk]. destruct IH as [Hi Hf Hm].
    rewrite map_app in Hf. simpl in Hf. apply NoDup_app in Hf as (Hf1 & Hd & [Hn Hf2]%NoDup_cons).
    split; [exact (sublist_NoDup _ _ Hi Hs)| |].
    + rewrite map_app. apply NoDup_app. split; [done|]. split; [set_solver|done].
    + intros j k' Hj Hk' Hid.
      assert (id j ≠ id job) as Hne.
      { intros E. apply elem_of_app in Hj as [Hj|Hj].
        - apply (Hd (id j)); [apply list_elem_of_fmap; eauto|rewrite E; set_solver].
        - apply Hn. rewrite <- E. apply list_elem_of_fmap. eauto. }
      destruct (Hk k' Hk') as (k & ? & ? & <-); [congruence|]. apply (Hm j k); [set_solver|done|congruence].
  - destruct (add_jobs v create uuid now) as [E|(job & Hid & E)].
    + destruct IH as [Hi Hf Hm]. by split; rewrite ?E.
    + destruct IH as [Hi Hf Hm]. rewrite not_elem_of_app in Hfresh. destruct Hfresh as [Hf1 Hf2].
      split; rewrite ?E; [|done|].
      * rewrite map_app. apply NoDup_app. split; [done|]. split; [|apply NoDup_singleton].
        intros i Hin. simpl. rewrite list_elem_of_singleton, Hid. by intros ->.
      * intros j k Hj [Hk|Hk]%elem_of_app Ejk; [by apply (Hm j k)|].
        apply list_elem_of_singleton in Hk as ->. destruct Hf2. rewrite <- Hid, Ejk.
        apply list_elem_of_fmap. eauto.
  - eapply runs_ok_derived; [apply update_derived|done].
  - eapply runs_ok_derived; [apply remove_derived|done].
  - eapply runs_ok_derived; [apply wake_derived|done].
Qed.

(** The timer never starts a job that is still running: as long as no run is forced
    or taken for stuck, no two executions of a job overlap, whatever additions, updates,
    removals and wake-ups happen in between, also during the executions. *)
Theorem no_overlap (s : S) (c : RateLimitConfig) (cooldown : Z) v (fl : list CronJob) :
  scheduled s c cooldown v fl → NoDup (ids fl).
Proof. intros Hs. by apply (runs_flight v), (scheduled_ok s c cooldown). Qed.
End runs.

(** ** Adding and removing *)

Section effects.
Context {S : Type} `{CronStoreLaws S}.
Context (compute_next : CronSchedule → Z → result (option Z) Error).
Implicit Types v : CronService (S := S).

(** Nothing a client can see has changed. *)
Definition unchanged v v' : Prop :=
  stored (store v') = stored (store v) ∧ jobs v' = jobs v ∧ notifications v' = notifications v.

(** Adding a job either fails and changes neither the jobs in memory nor those in the
    store nor what was notified, or gives a valid job under the requested identifier
    that is appended to the jobs, saved in the store, announced once, idle, and due at
    the next run of its schedule when enabled and never otherwise. This holds for every
    store that keeps the interface's laws. *)
Theorem add_effects v (create : CronJobCreate) (uuid : str) (now : Z) :
  let '(r, v') := add compute_next v create uuid now in
  match r with
  | Ok job =>
      validate_job_spec job = Ok tt ∧ id job = unwrap_or uuid (c_id create) ∧
      stored (store v') = <[id job := job]> (stored (store v)) ∧
      jobs v' = jobs v ++ [job] ∧ notifications v' = notifications v ++ [Created job] ∧
      running_at_ms (state job) = None ∧
      if enabled job then compute_next (schedule job) now = Ok (next_run_at_ms (state job))
      else next_run_at_ms (state job) = None
  | Err _ => unchanged v v'
  end.
Proof.
  unfold add. destruct (if c_system create then _ else _) as [limit v0] eqn:E0.
  assert (unchanged v v0) as Hv0.
  { destruct (c_system create); [by simplify_eq|]. destruct (check _ _); by simplify_eq. }
  destruct limit as [[]|e]; [|done]. set (job := create_job create uuid now).
  destruct (validate_job_spec job) as [[]|e] eqn:Ev; [|done].
  destruct (if enabled job then _ else _) as [next|e] eqn:En; [|done].
  set (job' := with_state job _). destruct (save_job (store v0) job') as [r s] eqn:Es.
  apply law_save in Es. destruct Hv0 as (Hs & Hj & Hn).
  destruct r as [[]|e]; simpl in *; [|unfold unchanged; simpl; by rewrite Es, Hs, Hj, Hn].
  rewrite Hj, Hn, Es, Hs. repeat split; try done.
  destruct (c_enabled create); [done|]. by injection En as <-.
Qed.

(** Removing a job either fails and changes nothing a client can see, or takes
    exactly the jobs of that identifier away, in memory and in the store, and announces
    it. *)
Theorem remove_effects v (i : str) :
  let '(r, v') := remove v i in
  match r with
  | Ok _ =>
      stored (store v') = delete i (stored (store v)) ∧
      (∀ j, j ∈ jobs v' ↔ j ∈ jobs v ∧ id j ≠ i) ∧ notifications v' = notifications v ++ [Removed i]
  | Err _ => unchanged v v'
  end.
Proof.
  unfold remove. destruct (delete_job (store v) i) as [[[]|e] s] eqn:E; apply law_delete in E; simpl in *; [|done].
  split; [done|]. split; [|done]. intros j. rewrite list_elem_of_filter. unfold str_eqb.
  rewrite bool_decide_eq_false. tauto.
Qed.
End effects.

(** ** Findings, on the in-memory store *)

Definition demo_next : CronSchedule → Z → result (option Z) Error :=
  compute_next_run (λ e, Err (A := unit) (lit "no cron")) (λ _, None (A := unit)) (λ _ _ _, None).

Definition demo_create : CronJobCreate := {|
  c_id := Some (lit "job"); c_name := "job"; c_schedule := Every 1000 None;
  c_payload := SystemEventPayload "tick"; c_session_target := Main; c_delete_after_run := false;
  c_enabled := true; c_system := false; c_sandbox := CronSandboxConfig_default;
  c_wake_mode := NextHeartbeat |}.
Definition no_patch : CronJobPatch := {|
  p_name := None; p_schedule := None; p_payload := None; p_session_target := None;
  p_enabled := None; p_delete_after_run := None; p_sandbox := None; p_wake_mode := None |}.
Definition retarget : CronJobPatch := {|
  p_name := None; p_schedule := None; p_payload := None; p_session_target := Some Isolated;
  p_enabled := None; p_delete_after_run := None; p_sandbox := None; p_wake_mode := None |}.
Definition reschedule (s : CronSchedule) : CronJobPatch := {|
  p_name := None; p_schedule := Some s; p_payload := None; p_session_target := None;
  p_enabled := None; p_delete_after_run := None; p_sandbox := None; p_wake_mode := None |}.

Definition demo_service : CronService :=
  (add demo_next (service_new InMemoryStore_new RateLimitConfig_default 0) demo_create "" 0).2.

(** An update that is rejected stays in memory: the job there is invalid from then
    on and differs from the stored one. *)
Example rejected_update_stays :
  let '(r, v) := update demo_next demo_service "job" retarget 5 in
  is_ok r = false ∧
  map (λ j, session_target j) (jobs v) = [Isolated] ∧
  session_target <$> (stored (store v) !! lit "job") = Some Main.
Proof. vm_compute. by repeat split. Qed.

(** A job rescheduled while it runs gets its next run from the old schedule when the
    run ends. *)
Example reschedule_lost :
  let '(due, v) := process_due_jobs demo_service 1000 in
  let v := (update demo_next v "job" (reschedule (Every 60000 None)) 1001).2 in
  match due with
  | [job] =>
      let v := (finish_job demo_next v job (Ok event_result) 1000 1500 1500).2 in
      map (λ j, (schedule j, next_run_at_ms (state j))) (jobs v) = [(Every 60000 None, Some 2500)]
  | _ => False
  end.
Proof. vm_compute. reflexivity. Qed.

(** A forced run does not look whether the job is running. *)
Example forced_run_overlaps :
  let '(due, v) := process_due_jobs demo_service 1000 in
  length due = 1%nat ∧ is_ok (run v "job" true 1001).1 = true.
Proof. vm_compute. by split. Qed.

(** * Witnesses *)

Lemma limiter_window_witness :
  let c := {| max_per_window := 2; window_ms := 100 |} in
  granted (RateLimiter_new c) [0; 10; 20; 105; 106]%Z = [0; 10; 105]%Z ∧
  (length (within 100 105 ([0; 10]%Z ++ [105]%Z)) ≤ 2)%nat.
Proof.
  split; [vm_compute; reflexivity|].
  refine (limiter_window {| max_per_window := 2; window_ms := 100 |} [0; 10; 20; 105; 106] _ _ _ [0; 10] 105 [] _).
  - simpl. lia.
  - repeat constructor; lia.
  - repeat constructor; lia.
  - vm_compute. reflexivity.
Defined.

Lemma no_overlap_witness :
  let v := (add demo_next (service_new InMemoryStore_new RateLimitConfig_default 0) demo_create "" 0).2 in
  map id (process_due_jobs v 1000).1 = [lit "job"] ∧ NoDup (map id ([] ++ (process_due_jobs v 1000).1)).
Proof.
  cbv zeta. split; [vm_compute; reflexivity|].
  refine (no_overlap demo_next InMemoryStore_new RateLimitConfig_default 0
    (process_due_jobs demo_service 1000).2 ([] ++ (process_due_jobs demo_service 1000).1) _).
  apply sched_tick; [|repeat constructor].
  apply (sched_add demo_next InMemoryStore_new RateLimitConfig_default 0 _ []); [apply sched_new|].
  apply not_elem_of_nil.
Defined.

Lemma add_effects_witness :
  let v := service_new InMemoryStore_new RateLimitConfig_default 0 in
  let '(r, v') := add demo_next v demo_create "" 0 in
  match r with
  | Ok job => id job = lit "job" ∧ stored (store v') = <[lit "job" := job]> ∅ ∧ jobs v' = [job]
  | Err _ => False
  end.
Proof.
  cbv zeta. set (v := service_new _ _ _). pose proof (add_effects demo_next v demo_create "" 0) as Ha.
  assert (is_ok (add demo_next v demo_create "" 0).1 = true) as Hok by (vm_compute; reflexivity).
  destruct (add demo_next v demo_create "" 0) as [[job|e] v']; [|discriminate Hok].
  destruct Ha as (_ & Hid & Hs & Hj & _). change (unwrap_or (lit "") (c_id demo_create)) with (lit "job") in Hid.
  rewrite Hid in Hs. split; [exact Hid|]. split; [exact Hs|exact Hj].
Defined.
