(* ===== verification/Rpc.v ===== *)
(** The methods of the gateway: who may call which.

    Models [crates/gateway/src/methods/dispatch.rs] (the tables and [authorize_method]) with the
    scopes, roles and error codes of [crates/protocol/src/types.rs], for the default features of the
    crate.

    Theorem: the decision is that of one requirement per method, a conjunction of alternatives
    ([authorize_required]). *)
From S2P Require Import Prelude.

Module Scopes.
Definition ADMIN : str := "operator.admin".
Definition READ : str := "operator.read".
Definition WRITE : str := "operator.write".
Definition APPROVALS : str := "operator.approvals".
Definition PAIRING : str := "operator.pairing".
End Scopes.

Module Roles.
Definition OPERATOR : str := "operator".
Definition NODE : str := "node".
End Roles.

Module Codes.
Definition AGENT_TIMEOUT : str := "AGENT_TIMEOUT".
Definition INVALID_REQUEST : str := "INVALID_REQUEST".
Definition UNAVAILABLE : str := "UNAVAILABLE".
Definition UNKNOWN_METHOD : str := "UNKNOWN_METHOD".
Definition UNAUTHORIZED : str := "UNAUTHORIZED".
Definition FORBIDDEN : str := "FORBIDDEN".
Definition TIMEOUT : str := "TIMEOUT".
Definition INTERNAL : str := "INTERNAL".
Definition PROTOCOL_ERROR : str := "PROTOCOL_ERROR".
Definition PAYLOAD_TOO_LARGE : str := "PAYLOAD_TOO_LARGE".
End Codes.

(** The optional fields of an error, which [ErrorShape::new] leaves out, are left out here. *)
Record ErrorShape := { code : str; message : str }.
Definition error (c m : str) : ErrorShape := {| code := c; message := m |}.

Definition NODE_METHODS : list str :=
  map lit
    ["node.invoke.result"; "node.event"; "skills.bins"]%string.
Definition READ_METHODS : list str :=
  map lit
    ["health"; "logs.tail"; "logs.list"; "logs.status"; "channels.status"; "channels.list"; "channels.senders.list";
     "status"; "usage.status"; "usage.cost"; "tts.status"; "tts.providers"; "stt.status"; "stt.providers";
     "models.list"; "models.list_all"; "agents.list"; "agents.get"; "agents.identity.get"; "agents.files.list";
     "agents.files.get"; "agents.preset.get"; "agents.presets_list"; "modes.list"; "agent.identity.get";
     "skills.list"; "skills.status"; "skills.security.status"; "skills.security.scan"; "skills.repos.list";
     "skills.recipe"; "skills.clawhub.search"; "skills.clawhub.info"; "skills.clawhub.scan";
     "skills.bundled.categories"; "voicewake.get"; "sessions.list"; "sessions.preview"; "sessions.search";
     "sessions.branches"; "sessions.run_detail"; "sessions.share.list"; "projects.list"; "projects.get";
     "projects.context"; "projects.complete_path"; "cron.list"; "cron.status"; "cron.runs"; "webhooks.list";
     "webhooks.profiles"; "webhooks.deliveries"; "webhooks.delivery.get"; "webhooks.delivery.payload";
     "webhooks.delivery.actions"; "feedback.status"; "instrumentation.status"; "heartbeat.status"; "heartbeat.runs";
     "system-presence"; "last-heartbeat"; "node.list"; "node.describe"; "node.pairing.status"; "chat.history";
     "chat.context"; "chat.raw_prompt"; "chat.full_context"; "providers.available"; "providers.oauth.status";
     "providers.local.system_info"; "providers.local.models"; "providers.local.status"; "providers.local.search_hf";
     "mcp.list"; "mcp.status"; "mcp.tools"; "mcp.config.get"; "tts.generate_phrase"; "voice.config.get";
     "voice.config.voxtral_requirements"; "voice.providers.all"; "voice.elevenlabs.catalog"; "voice.personas.list";
     "voice.personas.get"; "graphql.config.get"; "memory.status"; "memory.config.get"; "memory.search";
     "memory.qmd.status"; "hooks.list"; "network.audit.list"; "network.audit.tail"; "network.audit.stats";
     "external_agents.list"; "external_agents.status"; "openclaw.detect"; "openclaw.scan"; "system.describe";
     "voicecall.status"; "connectors.available"; "connectors.accounts.list"; "connectors.channel_sources.list";
     "connectors.datasets.list"; "connectors.runs.list"; "connectors.items.query"; "phone.providers.all"]%string.
Definition WRITE_METHODS : list str :=
  map lit
    ["send"; "chat.prompt_memory.refresh"; "agent"; "agent.wait"; "agent.identity.update";
     "agent.identity.update_soul"; "agents.create"; "agents.update"; "agents.delete"; "agents.set_default";
     "agents.set_session"; "agents.identity.update"; "agents.identity.update_soul"; "agents.files.set";
     "agents.preset.create"; "agents.preset.update"; "agents.preset.delete"; "agents.preset.save";
     "modes.set_session"; "wake"; "talk.mode"; "tts.enable"; "tts.disable"; "tts.convert"; "tts.setProvider";
     "stt.transcribe"; "stt.setProvider"; "voicewake.set"; "nodes.set_session"; "chat.send"; "chat.send_sync";
     "chat.abort"; "chat.cancel_queued"; "external_agents.bind"; "external_agents.unbind"; "chat.clear";
     "chat.compact"; "browser.request"; "logs.ack"; "models.detect_supported"; "models.cancel_detect";
     "models.test"; "providers.save_key"; "providers.save_model"; "providers.save_models"; "providers.validate_key";
     "providers.remove_key"; "providers.add_custom"; "providers.oauth.start"; "providers.oauth.complete";
     "providers.local.configure"; "providers.local.configure_custom"; "channels.add"; "channels.remove";
     "channels.update"; "channels.retry_ownership"; "channels.senders.approve"; "channels.senders.deny";
     "sessions.switch"; "sessions.fork"; "sessions.voice.generate"; "sessions.clear_all"; "sessions.share.create";
     "sessions.share.revoke"; "projects.upsert"; "projects.delete"; "projects.detect"; "skills.install";
     "skills.clawhub.install"; "skills.remove"; "skills.repos.remove"; "skills.repos.export"; "skills.repos.import";
     "skills.repos.unquarantine"; "skills.emergency_disable"; "skills.skill.trust"; "skills.skill.enable";
     "skills.skill.disable"; "skills.install_dep"; "skills.skill.save"; "skills.bundled.toggle_category"; "mcp.add";
     "mcp.remove"; "mcp.enable"; "mcp.disable"; "mcp.restart"; "mcp.reauth"; "mcp.update"; "mcp.config.update";
     "mcp.oauth.start"; "mcp.oauth.complete"; "cron.add"; "cron.update"; "cron.remove"; "cron.run"; "webhooks.get";
     "webhooks.create"; "webhooks.update"; "webhooks.delete"; "feedback.submit"; "instrumentation.test";
     "heartbeat.update"; "heartbeat.run"; "voice.config.save_key"; "voice.config.save_settings";
     "voice.config.remove_key"; "voice.provider.toggle"; "voice.override.session.set";
     "voice.override.session.clear"; "voice.override.channel.set"; "voice.override.channel.clear";
     "voice.personas.create"; "voice.personas.update"; "voice.personas.delete"; "voice.personas.set_active";
     "graphql.config.set"; "memory.config.update"; "hooks.enable"; "hooks.disable"; "hooks.save"; "hooks.reload";
     "location.result"; "openclaw.import"; "voicecall.initiate"; "voicecall.end"; "phone.provider.toggle";
     "phone.config.save_key"; "phone.config.save_settings"; "phone.config.remove_key"; "subscribe"; "unsubscribe";
     "channel.join"; "channel.leave"; "connectors.accounts.remove"; "connectors.datasets.remove"]%string.
Definition APPROVAL_METHODS : list str :=
  map lit
    ["exec.approval.request"; "exec.approval.resolve"]%string.
Definition PAIRING_METHODS : list str :=
  map lit
    ["node.pair.request"; "node.pair.list"; "node.pair.approve"; "node.pair.reject"; "node.pair.verify";
     "node.pairing.enable"; "node.pairing.disable"; "node.pairing.status"; "device.pair.list";
     "device.pair.approve"; "device.pair.reject"; "device.token.create"; "device.token.rotate";
     "device.token.revoke"; "node.rename"]%string.

Definition is_in (method : str) (l : list str) : bool := bool_decide (method ∈ l).
Definition missing (scope : str) : option ErrorShape := Some (error Codes.UNAUTHORIZED (lit "missing scope: " ++ scope)).

(** [None] when the call is authorized. *)
Definition authorize_method (method role : str) (scopes : list str) : option ErrorShape :=
  let wrong_role := Some (error Codes.FORBIDDEN (lit "unauthorized role: " ++ role)) in
  let has scope := bool_decide (scope ∈ scopes) in
  if is_in method NODE_METHODS then if str_eqb role Roles.NODE then None else wrong_role
  else if str_eqb role Roles.NODE || negb (str_eqb role Roles.OPERATOR) then wrong_role
  else if has Scopes.ADMIN then None
  else if is_in method APPROVAL_METHODS && negb (has Scopes.APPROVALS) then missing Scopes.APPROVALS
  else if is_in method PAIRING_METHODS && negb (has Scopes.PAIRING) then missing Scopes.PAIRING
  else if is_in method READ_METHODS && negb (has Scopes.READ || has Scopes.WRITE) then missing Scopes.READ
  else if is_in method WRITE_METHODS && negb (has Scopes.WRITE) then missing Scopes.WRITE
  else if is_in method APPROVAL_METHODS || is_in method PAIRING_METHODS || is_in method READ_METHODS || is_in method WRITE_METHODS
  then None
  else missing Scopes.ADMIN.

(** * Specification *)

(** What an operator without [operator.admin] needs: one scope of each list. *)
Definition required (method : str) : list (list str) :=
  let clause (table : list str) (scopes : list str) := if is_in method table then [scopes] else [] in
  let clauses :=
    clause APPROVAL_METHODS [Scopes.APPROVALS] ++ clause PAIRING_METHODS [Scopes.PAIRING] ++
    clause READ_METHODS [Scopes.READ; Scopes.WRITE] ++ clause WRITE_METHODS [Scopes.WRITE] in
  if is_nonempty clauses then clauses else [[Scopes.ADMIN]].

Definition allowed (method role : str) (scopes : list str) : Prop :=
  if is_in method NODE_METHODS then role = Roles.NODE
  else role = Roles.OPERATOR ∧
       (Scopes.ADMIN ∈ scopes ∨ ∀ clause, clause ∈ required method → ∃ s, s ∈ clause ∧ s ∈ scopes).

Local Arguments lit : simpl never.

Lemma clause_met (cs : list (list str)) (scopes : list str) :
  (∀ clause, clause ∈ cs → ∃ s, s ∈ clause ∧ s ∈ scopes) ↔
  forallb (λ clause, existsb (λ s, bool_decide (s ∈ scopes)) clause) cs = true.
Proof.
  rewrite forallb_forall. split; intros Hc cl Hcl.
  - apply list_elem_of_In in Hcl. destruct (Hc cl Hcl) as (s & Hs & Hi). apply existsb_exists. exists s.
    split; [by apply list_elem_of_In|by apply bool_decide_eq_true].
  - apply list_elem_of_In in Hcl. apply Hc, existsb_exists in Hcl as (s & Hs & Hi). exists s.
    split; [by apply list_elem_of_In|by apply bool_decide_eq_true in Hi].
Qed.

(** The decision, with the membership of the tables and the scopes as booleans. *)
Lemma authorized_iff method role scopes : authorize_method method role scopes = None ↔ allowed method role scopes.
Proof.
  unfold authorize_method, allowed. destruct (is_in method NODE_METHODS).
  { unfold str_eqb. case_bool_decide; [done|]. split; [done|]. by intros ->. }
  unfold str_eqb. destruct (decide (role = Roles.OPERATOR)) as [->|Hr].
  - rewrite bool_decide_eq_false_2 by done. rewrite bool_decide_eq_true_2 by done. simpl.
    rewrite clause_met.
    transitivity (bool_decide (Scopes.ADMIN ∈ scopes) = true ∨
      forallb (λ clause, existsb (λ s, bool_decide (s ∈ scopes)) clause) (required method) = true);
      [|rewrite bool_decide_eq_true; naive_solver].
    unfold required, missing.
    destruct (is_in method APPROVAL_METHODS), (is_in method PAIRING_METHODS), (is_in method READ_METHODS),
      (is_in method WRITE_METHODS); simpl;
      destruct (bool_decide (Scopes.ADMIN ∈ scopes)), (bool_decide (Scopes.APPROVALS ∈ scopes)),
        (bool_decide (Scopes.PAIRING ∈ scopes)), (bool_decide (Scopes.READ ∈ scopes)), (bool_decide (Scopes.WRITE ∈ scopes));
      simpl; intuition congruence.
  - rewrite (bool_decide_eq_false_2 (role = Roles.OPERATOR)) by done. rewrite orb_true_r. naive_solver.
Qed.

Lemma allowed_more method role scopes more : allowed method role scopes → allowed method role (scopes ++ more).
Proof.
  unfold allowed. destruct (is_in method NODE_METHODS); [done|]. intros [? [Ha|Hc]]; (split; [done|]).
  - left. apply elem_of_app. by left.
  - right. intros cl Hcl. destruct (Hc cl Hcl) as (s & ? & ?). exists s. rewrite elem_of_app. auto.
Qed.

Lemma refusal_code method role scopes e :
  authorize_method method role scopes = Some e →
  (code e = Codes.FORBIDDEN ↔ role ≠ (if is_in method NODE_METHODS then Roles.NODE else Roles.OPERATOR)) ∧
  (code e = Codes.FORBIDDEN ∨ code e = Codes.UNAUTHORIZED).
Proof.
  unfold authorize_method, str_eqb, missing, error. destruct (is_in method NODE_METHODS).
  - case_bool_decide; intros [= <-]; (split; [done|by left]).
  - destruct (decide (role = Roles.OPERATOR)) as [->|Hr].
    + rewrite bool_decide_eq_false_2, bool_decide_eq_true_2 by done. simpl. intros He.
      assert (Hc : code e = Codes.UNAUTHORIZED) by (repeat case_match; by simplify_eq). rewrite Hc. split; [|by right]. done.
    + rewrite (bool_decide_eq_false_2 (role = Roles.OPERATOR)) by done. rewrite orb_true_r. intros [= <-]. split; [done|by left].
Qed.

(** C23. The authorization of a method is that of the requirement of the method.  Whatever the
    method, also when it is in no table, a call goes through exactly if it is a method of nodes
    and the role is that of a node, or it is none, the role is that of an operator, and the
    scopes have [operator.admin] or one of each list of alternatives that the tables demand;
    a method in no table demands [operator.admin].  A refusal over the role is FORBIDDEN, over
    the scopes UNAUTHORIZED, and more scopes never take a permission away. *)
Theorem authorize_required method role scopes :
  (authorize_method method role scopes = None ↔ allowed method role scopes) ∧
  (∀ e, authorize_method method role scopes = Some e →
     (code e = Codes.FORBIDDEN ↔ role ≠ (if is_in method NODE_METHODS then Roles.NODE else Roles.OPERATOR)) ∧
     (code e = Codes.FORBIDDEN ∨ code e = Codes.UNAUTHORIZED)) ∧
  (∀ more, authorize_method method role scopes = None → authorize_method method role (scopes ++ more) = None).
Proof.
  split_and!; [apply authorized_iff|apply refusal_code|]. intros more. rewrite !authorized_iff. apply allowed_more.
Qed.

(** The only method of two tables asks for the scopes of both. *)
Example pairing_status_needs_both :
  required "node.pairing.status" = [[Scopes.PAIRING]; [Scopes.READ; Scopes.WRITE]] ∧
  authorize_method "node.pairing.status" Roles.OPERATOR [Scopes.PAIRING] = missing Scopes.READ.
Proof. by vm_compute. Qed.
Example tables_disjoint :
  forallb (λ m, (length (required m) =? 1)%nat || str_eqb m "node.pairing.status")
    (NODE_METHODS ++ READ_METHODS ++ WRITE_METHODS ++ APPROVAL_METHODS ++ PAIRING_METHODS) = true.
Proof. by vm_compute. Qed.
Example config_needs_admin : required "config.set" = [[Scopes.ADMIN]].
Proof. by vm_compute. Qed.
