(* ===== verification/Gateway.v ===== *)
(** The gateway behind its WebSockets: connections, calls, events and nodes.

    Models [crates/gateway/src/broadcast.rs], [nodes.rs], the registry of clients of [state.rs], the
    dispatch of [methods/dispatch.rs], the methods of [methods/subscribe.rs], [channel_mux.rs] and
    [node.rs] that change the gateway's own state, the requests of [server/location.rs], and the
    message loop and clean-up of [crates/httpd/src/ws.rs].  The methods of the services behind the
    gateway are the event's choice: what they answer, and what they broadcast.

    The tasks of the gateway interleave between locks: a call is dispatched in one step, its answer
    waits for room in the channel of its connection, and [node.invoke] registers, sends and waits in
    steps of its own.  A connection is the task of [handle_connection]: it keeps its role, its scopes
    and the sending half of its channel whatever happens to its entry in the registry, and goes from
    phase to phase as it registers, is served and cleans up, one lock or atomic operation at a time.
    [disconnect_all_clients] is three steps: the clients, the nodes, the counter.

    Theorems: calls run with the authority of their connection only ([calls_are_authorized]); a
    guarded event reaches nobody without its scope ([guarded_events_need_scope]); who may answer an
    invocation ([answers_have_authors]), and what a node may be asked ([node_requests_are_checked]);
    disconnecting all clients ends no connection ([disconnect_all_keeps_serving]); the registry of
    nodes and its counter agree as long as no node registers before its old connection has gone and
    the counter is not reset while nodes come or go ([nodes_consistent]); what becomes of it otherwise
    is shown on runs ([reconnect_loses_node], [reset_forgets_a_node], [reset_before_count]).

    A broadcast draws its number and sends in one step, and a call is dispatched where it is
    received.  Left out: the version of the state, the cached location, the sessions that are
    active, and the requests of the server to a client, which nothing sends. *)
From S2P Require Import Prelude Float64 Json Rpc.
Local Open Scope Z_scope.

(** * Frames and clients *)

Notation MethodResult := (result json ErrorShape).

Record BroadcastOpts := {
  drop_if_slow : bool;
  stream : option str;
  done_ : bool;
  opt_channel : option str;
}.
Definition default_opts : BroadcastOpts :=
  {| drop_if_slow := false; stream := None; done_ := false; opt_channel := None |}.

(** The version of the state, which no caller of the gateway sets, is left out. *)
Record EventFrame := {
  event : str;
  payload : json;
  ev_seq : Z;
  ev_stream : option str;
  ev_done : option bool;
  ev_channel : option str;
}.
Inductive Frame := EventF (e : EventFrame) | ResponseF (id : str) (r : MethodResult).

Definition new_event (event : str) (payload : json) (seq : Z) : Frame :=
  EventF {| event := event; payload := payload; ev_seq := seq; ev_stream := None; ev_done := None; ev_channel := None |}.
Definition obj (l : list (string * json)) : json := JObject (map (λ kv, (lit kv.1, kv.2)) l).

(** A client as the registry has it; the scopes are those the server resolved. *)
Record ConnectedClient := {
  conn_id : str;
  scopes : list str;
  subscriptions : option (gset str);
  session_filter : option str;
  payload_state_filter : option (gset str);
  joined_channels : gset str;
}.
Definition WILDCARD : str := "*".

Definition is_subscribed_to (c : ConnectedClient) (event : str) : bool :=
  match subscriptions c with
  | None => true
  | Some set => bool_decide (WILDCARD ∈ set) || bool_decide (event ∈ set)
  end.
Definition is_in_channel (c : ConnectedClient) (channel : str) : bool := bool_decide (channel ∈ joined_channels c).

Definition with_subscriptions (c : ConnectedClient) subs : ConnectedClient :=
  {| conn_id := conn_id c; scopes := scopes c; subscriptions := subs; session_filter := session_filter c;
     payload_state_filter := payload_state_filter c; joined_channels := joined_channels c |}.
Definition with_channels (c : ConnectedClient) chs : ConnectedClient :=
  {| conn_id := conn_id c; scopes := scopes c; subscriptions := subscriptions c; session_filter := session_filter c;
     payload_state_filter := payload_state_filter c; joined_channels := chs |}.

(** * Nodes *)

(** What a node tells of itself while it runs; the percentage is a 32-bit float. *)
Record Telemetry := {
  mem_total : option Z;
  mem_available : option Z;
  cpu_count : option Z;
  cpu_usage : option f64;
  uptime_secs : option Z;
  services : list str;
  disk_total : option Z;
  disk_available : option Z;
  runtimes : list str;
}.
Definition no_telemetry : Telemetry :=
  {| mem_total := None; mem_available := None; cpu_count := None; cpu_usage := None; uptime_secs := None; services := [];
     disk_total := None; disk_available := None; runtimes := [] |}.
Record NodeSession := {
  node_id : str;
  node_conn : str;
  display_name : option str;
  platform : str;
  commands : list str;
  telemetry : Telemetry;
}.
(** ** Connections *)

(** Where the task of a connection is.  A node registers, counts itself and tells the others before it
    is served; when the connection ends, its node is taken out, counted off and reported, the client
    removed and the channel dropped.  Each is a step of its own. *)
Inductive Phase :=
| Registering (n : NodeSession)
| Counting (n : NodeSession)
| Announcing (n : NodeSession)
| Serving                        (** the message loop *)
| Uncounting (n : NodeSession)
| Leaving (n : NodeSession)
| Removing
| Dropping
| Ended.

(** The task of a connection: its authority, and its bounded channel with what the writer has
    put on the wire. *)
Record Conn := {
  c_role : str;
  c_scopes : list str;
  outbox : list Frame;
  written : list Frame;
  phase : Phase;
  delivery_failures : Z;
}.
Definition CHANNEL_CAPACITY : nat := 512.

(** It reads requests; its channel is there. *)
Definition receiving (x : Conn) : bool := match phase x with Serving => true | _ => false end.
Definition is_open (x : Conn) : bool := match phase x with Ended => false | _ => true end.

Definition with_outbox (x : Conn) out wr : Conn :=
  {| c_role := c_role x; c_scopes := c_scopes x; outbox := out; written := wr; phase := phase x;
     delivery_failures := delivery_failures x |}.
Definition with_phase (x : Conn) p : Conn :=
  {| c_role := c_role x; c_scopes := c_scopes x; outbox := outbox x; written := written x; phase := p;
     delivery_failures := delivery_failures x |}.
Definition try_send (x : Conn) (f : Frame) : option Conn :=
  if is_open x && (length (outbox x) <? CHANNEL_CAPACITY)%nat then Some (with_outbox x (outbox x ++ [f]) (written x))
  else None.
(** [ConnectedClient::send]. *)
Definition send (x : Conn) (f : Frame) : Conn * bool :=
  match try_send x f with
  | Some x' => (x', true)
  | None =>
      ({| c_role := c_role x; c_scopes := c_scopes x; outbox := outbox x; written := written x; phase := phase x;
          delivery_failures := delivery_failures x + 1 |}, false)
  end.
Definition sent (x : Conn) : list Frame := written x ++ outbox x.

(** ** The registry *)

Definition with_name (n : NodeSession) nm : NodeSession :=
  {| node_id := node_id n; node_conn := node_conn n; display_name := nm; platform := platform n; commands := commands n;
     telemetry := telemetry n |}.
Definition with_telemetry (n : NodeSession) t : NodeSession :=
  {| node_id := node_id n; node_conn := node_conn n; display_name := display_name n; platform := platform n;
     commands := commands n; telemetry := t |}.

Record NodeRegistry := { nodes : gmap str NodeSession; by_conn : gmap str str }.
Definition no_nodes : NodeRegistry := {| nodes := ∅; by_conn := ∅ |}.
Definition register (r : NodeRegistry) (session : NodeSession) : NodeRegistry :=
  {| nodes := <[node_id session := session]> (nodes r); by_conn := <[node_conn session := node_id session]> (by_conn r) |}.
Definition unregister_by_conn (r : NodeRegistry) (conn : str) : NodeRegistry * option NodeSession :=
  match by_conn r !! conn with
  | None => (r, None)
  | Some i => ({| nodes := delete i (nodes r); by_conn := delete conn (by_conn r) |}, nodes r !! i)
  end.
Definition rename (r : NodeRegistry) (i name : str) : option NodeRegistry :=
  n ← nodes r !! i; Some {| nodes := <[i := with_name n (Some name)]> (nodes r); by_conn := by_conn r |}.
Definition update_telemetry (r : NodeRegistry) (i : str) (t : Telemetry) : NodeRegistry :=
  match nodes r !! i with
  | Some n => {| nodes := <[i := with_telemetry n t]> (nodes r); by_conn := by_conn r |}
  | None => r
  end.

(** ** Arguments of an invocation *)

Definition SYSTEM_EXEC_COMMAND : str := "system.exec.v1".
Definition SAFE_ENV_ALLOWLIST : list str := map lit ["TERM"; "LANG"; "COLORTERM"; "NO_COLOR"; "FORCE_COLOR"]%string.
Definition SAFE_ENV_PREFIX_ALLOWLIST : list str := [lit "LC_"].

Definition is_valid_env_key (key : str) : bool :=
  match key with
  | [] => false
  | c :: rest =>
      (is_ascii_alphabetic c || (c =? ch "_")%N) && forallb (λ c, is_ascii_alphanumeric c || (c =? ch "_")%N) rest
  end.
Definition is_safe_remote_env_key (key : str) : bool :=
  is_valid_env_key key &&
  (bool_decide (key ∈ SAFE_ENV_ALLOWLIST) || existsb (λ prefix, starts_with prefix key) SAFE_ENV_PREFIX_ALLOWLIST).

(** The order of the environment, a hash map in the source, is that of the request. *)
Record SystemExecRequest := {
  program : str;
  args : list str;
  cwd : option str;
  env : list (str * str);
  timeout_ms : Z;
}.

Definition string_vec (v : json) : option (list str) := l ← as_array v; mapM as_str l.
Definition string_map (v : json) : option (list (str * str)) :=
  m ← as_object v; mapM (λ kv, t ← as_str kv.2; Some (kv.1, t)) m.
Definition optional {A} (d : A) (f : json → option A) (v : option json) : option A :=
  match v with Some v => f v | None => Some d end.

(** A field that may be left out has a default; decoding refuses unknown fields, and accepts the
    fields in an array too. *)
Definition exec_request_from_fields (program args cwd env timeout : option json) : option SystemExecRequest :=
  program ← program ≫= as_str;
  args ← optional [] string_vec args;
  cwd ← optional None (λ v, if is_null v then Some None else Some <$> as_str v) cwd;
  env ← optional [] string_map env;
  timeout ← timeout ≫= as_u64;
  Some {| program := program; args := args; cwd := cwd; env := env; timeout_ms := timeout |}.
Definition exec_request_from_value (v : json) : option SystemExecRequest :=
  match v with
  | JObject m =>
      let field k := assoc (lit k) m in
      if forallb (λ kv, bool_decide (kv.1 ∈ map lit ["program"; "args"; "cwd"; "env"; "timeoutMs"]%string)) m
      then exec_request_from_fields (field "program"%string) (field "args"%string) (field "cwd"%string) (field "env"%string)
             (field "timeoutMs"%string)
      else None
  | JArray [p; a; c; e; t] => exec_request_from_fields (Some p) (Some a) (Some c) (Some e) (Some t)
  | _ => None
  end.
Definition exec_request_to_value (r : SystemExecRequest) : json :=
  JObject ([(lit "program", JString (program r)); (lit "args", JArray (map JString (args r)))] ++
    match cwd r with Some c => [(lit "cwd", JString c)] | None => [] end ++
    (if is_nonempty (env r) then [(lit "env", JObject (map (λ kv, (kv.1, JString kv.2)) (env r)))] else []) ++
    [(lit "timeoutMs", JNumber (PosInt (timeout_ms r)))]).

(** ** Structured execution requests *)

Lemma string_vec_map l : string_vec (JArray (map JString l)) = Some l.
Proof. unfold string_vec. simpl. induction l as [|x l IH]; simpl; [done|]. by rewrite IH. Qed.
Lemma string_map_map l : string_map (JObject (map (λ kv, (kv.1, JString kv.2)) l)) = Some l.
Proof. unfold string_map. simpl. induction l as [|[k x] l IH]; simpl; [done|]. by rewrite IH. Qed.

Lemma exec_request_roundtrip r : exec_request_from_value (exec_request_to_value r) = Some r.
Proof.
  destruct r as [pr ar cw en t].
  pose proof (string_vec_map ar) as Ha. set (va := JArray (map JString ar)) in Ha.
  pose proof (string_map_map en) as He. set (ve := JObject (map (λ kv, (kv.1, JString kv.2)) en)) in He.
  unfold exec_request_to_value, exec_request_from_value, exec_request_from_fields. cbn [program args cwd env timeout_ms].
  fold va ve. clearbody va ve. cbn [as_object mbind option_bind].
  destruct cw as [cw|], en as [|kv en]; cbn [is_nonempty app].
  all: match goal with |- context [forallb ?f ?m] => replace (forallb f m) with true by reflexivity end.
  all: match goal with |- context [assoc (lit "args") ?m] => replace (assoc (lit "args") m) with (Some va) by reflexivity end.
  all: cbn [optional]; rewrite Ha; cbn [mbind option_bind]; try reflexivity.
  all: match goal with |- context [assoc (lit "env") ?m] => replace (assoc (lit "env") m) with (Some ve) by reflexivity end.
  all: cbn [optional]; rewrite He; reflexivity.
Qed.

Section methods.
(** The text of serde_json for a request it cannot decode; the rounding to a 32-bit float. *)
Context (decode_error : json → str) (round_f32 : f64 → f64).
(** The methods of the services that are registered. *)
Context (service : str → bool).

Definition validate_invoke_args (command : str) (a : json) : result json ErrorShape :=
  if str_eqb command "system.run" then Err (error Codes.INVALID_REQUEST "legacy shell-based system.run is not supported")
  else if negb (str_eqb command SYSTEM_EXEC_COMMAND) then Ok a
  else match exec_request_from_value a with
  | None => Err (error Codes.INVALID_REQUEST (lit "invalid structured execution request: " ++ decode_error a))
  | Some r =>
      match List.find (λ kv, negb (is_safe_remote_env_key kv.1)) (env r) with
      | Some (key, _) => Err (error Codes.INVALID_REQUEST (lit "environment variable '" ++ key ++ lit "' is not allowed"))
      | None =>
          Ok (exec_request_to_value {| program := program r; args := args r; cwd := cwd r; env := env r;
                                       timeout_ms := clamp 1 28000 (timeout_ms r) |})
      end
  end.

(** * The state *)

Record MethodContext := {
  request_id : str;
  method : str;
  params : json;
  client_conn_id : str;
  client_role : str;
  client_scopes : list str;
}.

(** [expected_conn_id] is [None] for a request that no node answers. *)
Record PendingInvoke := { expected_conn_id : option str }.

(** What goes on between locks. *)
Inductive Task :=
| Respond (conn id : str) (r : MethodResult)                 (** the answer waits for room *)
| InvokeRegister (conn id invoke target : str) (f : Frame)
| InvokeSend (conn id invoke target : str) (f : Frame)
| InvokeWait (conn id invoke : str)
| InvokeExpired (conn id invoke : str)
| LocationRegister (request : str)
| LocationWait (request : str)
| LocationExpired (request : str)
| ClearNodes                                      (** all clients are being disconnected *)
| ResetCount
| Finished.

(** What completed an invocation: the call, the connection that was expected, and the value. *)
Record Completion := { invoke_of : str; expected : option str; by_call : MethodContext; value : json }.

Record State := {
  clients : gmap str ConnectedClient;
  conns : gmap str Conn;
  node_registry : NodeRegistry;
  node_count : Z;
  pending_invokes : gmap str PendingInvoke;
  answers : gmap str json;              (** the values on their way to who waits for them *)
  seq : Z;
  tasks : list Task;
  handled : list MethodContext;         (** the calls whose handler ran; not in the program *)
  completed : list Completion;          (** not in the program *)
}.
Definition init : State :=
  {| clients := ∅; conns := ∅; node_registry := no_nodes; node_count := 0; pending_invokes := ∅; answers := ∅; seq := 0;
     tasks := []; handled := []; completed := [] |}.

Definition with_clients (s : State) cs : State :=
  {| clients := cs; conns := conns s; node_registry := node_registry s; node_count := node_count s;
     pending_invokes := pending_invokes s; answers := answers s; seq := seq s; tasks := tasks s; handled := handled s;
     completed := completed s |}.
Definition with_conns (s : State) cs : State :=
  {| clients := clients s; conns := cs; node_registry := node_registry s; node_count := node_count s;
     pending_invokes := pending_invokes s; answers := answers s; seq := seq s; tasks := tasks s; handled := handled s;
     completed := completed s |}.
Definition with_nodes (s : State) ns count : State :=
  {| clients := clients s; conns := conns s; node_registry := ns; node_count := count;
     pending_invokes := pending_invokes s; answers := answers s; seq := seq s; tasks := tasks s; handled := handled s;
     completed := completed s |}.
Definition with_pending (s : State) ps : State :=
  {| clients := clients s; conns := conns s; node_registry := node_registry s; node_count := node_count s;
     pending_invokes := ps; answers := answers s; seq := seq s; tasks := tasks s; handled := handled s;
     completed := completed s |}.
Definition with_tasks (s : State) ts : State :=
  {| clients := clients s; conns := conns s; node_registry := node_registry s; node_count := node_count s;
     pending_invokes := pending_invokes s; answers := answers s; seq := seq s; tasks := ts; handled := handled s;
     completed := completed s |}.
Definition with_handled (s : State) hs : State :=
  {| clients := clients s; conns := conns s; node_registry := node_registry s; node_count := node_count s;
     pending_invokes := pending_invokes s; answers := answers s; seq := seq s; tasks := tasks s; handled := hs;
     completed := completed s |}.
Definition spawn (t : Task) (s : State) : State := with_tasks s (tasks s ++ [t]).
Definition set_task (i : nat) (t : Task) (s : State) : State := with_tasks s (<[i := t]> (tasks s)).

(** [next_seq]: the number, and the state that has counted it. *)
Definition next_seq (s : State) : Z * State :=
  let n := wrap u64_bound (seq s + 1) in
  (n, {| clients := clients s; conns := conns s; node_registry := node_registry s; node_count := node_count s;
         pending_invokes := pending_invokes s; answers := answers s; seq := n; tasks := tasks s; handled := handled s;
         completed := completed s |}).

(** An answer to who waits for [invoke]. *)
Definition complete (invoke : str) (p : PendingInvoke) (ctx : MethodContext) (v : json) (s : State) : State :=
  {| clients := clients s; conns := conns s; node_registry := node_registry s; node_count := node_count s;
     pending_invokes := delete invoke (pending_invokes s); answers := <[invoke := v]> (answers s); seq := seq s;
     tasks := tasks s; handled := handled s;
     completed := completed s ++ [{| invoke_of := invoke; expected := expected_conn_id p; by_call := ctx; value := v |}] |}.

(** * Broadcast *)

Definition event_scope_guards (event : str) : option (list str) :=
  assoc event
    [(lit "exec.approval.requested", [Scopes.APPROVALS]); (lit "exec.approval.resolved", [Scopes.APPROVALS]);
     (lit "device.pair.requested", [Scopes.PAIRING]); (lit "device.pair.resolved", [Scopes.PAIRING]);
     (lit "node.pair.requested", [Scopes.PAIRING]); (lit "node.pair.resolved", [Scopes.PAIRING])].

Definition passes_guard (scopes : list str) (event : str) : bool :=
  match event_scope_guards event with
  | Some required => bool_decide (Scopes.ADMIN ∈ scopes) || existsb (λ s, bool_decide (s ∈ scopes)) required
  | None => true
  end.

Definition is_recipient (c : ConnectedClient) (event : str) (payload : json) (opts : BroadcastOpts) : bool :=
  passes_guard (scopes c) event && is_subscribed_to c event &&
  match session_filter c with
  | Some key => bool_decide (Json.get "sessionKey" payload ≫= as_str = Some key)
  | None => true
  end &&
  match payload_state_filter c with
  | Some states => is_some_and (λ st, bool_decide (st ∈ states)) (Json.get "state" payload ≫= as_str)
  | None => true
  end &&
  match opt_channel opts with Some ch => is_in_channel c ch | None => true end.

(** Every connection whose entry in the registry satisfies [f] is sent the frame. *)
Definition send_where (f : ConnectedClient → bool) (frame : Frame) (s : State) : State :=
  with_conns s (map_imap (λ k x,
    Some (if is_some_and f (clients s !! k) then (send x frame).1 else x)) (conns s)).

Definition broadcast (event : str) (payload : json) (opts : BroadcastOpts) (s : State) : State :=
  let '(n, s) := next_seq s in
  send_where (λ c, is_recipient c event payload opts)
    (EventF {| event := event; payload := payload; ev_seq := n; ev_stream := stream opts;
               ev_done := if done_ opts then Some true else None; ev_channel := opt_channel opts |}) s.

(** To one client, if it is registered. *)
Definition send_to (conn : str) (frame : Frame) (s : State) : State * bool :=
  match clients s !! conn, conns s !! conn with
  | Some _, Some x => let '(x', ok) := send x frame in (with_conns s (<[conn := x']> (conns s)), ok)
  | _, _ => (s, false)
  end.

(** * Methods *)

Definition invalid (m : string) : MethodResult := Err (error Codes.INVALID_REQUEST m).
Definition update_client (conn : str) (f : ConnectedClient → ConnectedClient) (s : State) : State :=
  match clients s !! conn with Some c => with_clients s (<[conn := f c]> (clients s)) | None => s end.

(** [fresh] is the identifier drawn. *)
Definition subscribe (ctx : MethodContext) (fresh : str) (s : State) : MethodResult * State :=
  match Json.get "events" (params ctx) ≫= string_vec with
  | None => (invalid "missing or invalid 'events' array", s)
  | Some events =>
      (Ok (obj [("subscriptionId", JString fresh); ("events", JArray (map JString events))]%string),
       update_client (client_conn_id ctx)
         (λ c, with_subscriptions c (Some (list_to_set events ∪ unwrap_or ∅ (subscriptions c)))) s)
  end.

Definition unsubscribe (ctx : MethodContext) (s : State) : MethodResult * State :=
  let events := Json.get "events" (params ctx) ≫= string_vec in
  let subscription_id := Json.get "subscriptionId" (params ctx) ≫= as_str in
  match events, subscription_id with
  | None, None => (invalid "provide 'events' or 'subscriptionId'", s)
  | Some events, _ =>
      (Ok (JObject []),
       update_client (client_conn_id ctx) (λ c, with_subscriptions c ((λ subs, subs ∖ list_to_set events) <$> subscriptions c)) s)
  | None, Some _ => (Ok (JObject []), update_client (client_conn_id ctx) (λ c, with_subscriptions c (Some ∅)) s)
  end.

Definition channel_join (ctx : MethodContext) (s : State) : MethodResult * State :=
  match Json.get "channels" (params ctx) ≫= string_vec with
  | None => (invalid "missing or invalid 'channels' array", s)
  | Some chs =>
      (Ok (obj [("joined", JArray (map JString chs))]%string),
       update_client (client_conn_id ctx) (λ c, with_channels c (list_to_set chs ∪ joined_channels c)) s)
  end.
Definition channel_leave (ctx : MethodContext) (s : State) : MethodResult * State :=
  match Json.get "channels" (params ctx) ≫= string_vec with
  | None => (invalid "missing or invalid 'channels' array", s)
  | Some chs =>
      (Ok (obj [("left", JArray (map JString chs))]%string),
       update_client (client_conn_id ctx) (λ c, with_channels c (joined_channels c ∖ list_to_set chs)) s)
  end.

Definition node_rename (ctx : MethodContext) (s : State) : MethodResult * State :=
  match Json.get "nodeId" (params ctx) ≫= as_str with
  | None => (invalid "missing nodeId", s)
  | Some i =>
      match Json.get "displayName" (params ctx) ≫= as_str with
      | None => (invalid "missing displayName", s)
      | Some name =>
          match rename (node_registry s) i name with
          | Some r => (Ok (JObject []), with_nodes s r (node_count s))
          | None => (Err (error Codes.UNAVAILABLE "node not found"), s)
          end
      end
  end.

(** Up to the registration of the invocation: an error, or the invocation and whom to send it. *)
Definition node_invoke (ctx : MethodContext) (fresh : str) (s : State) : (MethodResult + Task) * State :=
  match Json.get "nodeId" (params ctx) ≫= as_str with
  | None => (inl (invalid "missing nodeId"), s)
  | Some i =>
      match Json.get "command" (params ctx) ≫= as_str with
      | None => (inl (invalid "missing command"), s)
      | Some command =>
          match validate_invoke_args command (unwrap_or (JObject []) (Json.get "args" (params ctx))) with
          | Err e => (inl (Err e), s)
          | Ok a =>
              match nodes (node_registry s) !! i with
              | None => (inl (Err (error Codes.UNAVAILABLE "node not connected")), s)
              | Some n =>
                  if bool_decide (command ∈ commands n) then
                    let '(q, s) := next_seq s in
                    (inr (InvokeRegister (client_conn_id ctx) (request_id ctx) fresh (node_conn n)
                       (new_event "node.invoke.request"
                          (obj [("invokeId", JString fresh); ("command", JString command); ("args", a)]%string) q)), s)
                  else (inl (Err (error Codes.INVALID_REQUEST (lit "node does not advertise command '" ++ command ++ lit "'"))), s)
              end
          end
      end
  end.

Definition node_invoke_result (ctx : MethodContext) (s : State) : MethodResult * State :=
  match Json.get "invokeId" (params ctx) ≫= as_str with
  | None => (invalid "missing invokeId", s)
  | Some invoke =>
      let v := unwrap_or JNull (Json.get "result" (params ctx)) in
      match pending_invokes s !! invoke with
      | Some p =>
          if bool_decide (expected_conn_id p = Some (client_conn_id ctx)) then (Ok (JObject []), complete invoke p ctx v s)
          else (Err (error Codes.FORBIDDEN "invoke result came from the wrong node connection"), s)
      | None => (invalid "no pending invoke for this id", s)
      end
  end.

Definition telemetry_of (payload : json) : Telemetry :=
  let sub k1 k2 := v ← Json.get k1 payload; Json.get k2 v ≫= as_u64 in
  let list_of k := match Json.get k payload ≫= as_array with Some a => strings a | None => [] end in
  {| mem_total := sub "mem" "total"; mem_available := sub "mem" "available";
     cpu_count := wrap u32_bound <$> (Json.get "cpuCount" payload ≫= as_u64);
     cpu_usage := round_f32 <$> (Json.get "cpuUsage" payload ≫= as_f64);
     uptime_secs := Json.get "uptime" payload ≫= as_u64; services := list_of "services";
     disk_total := sub "disk" "total"; disk_available := sub "disk" "available"; runtimes := list_of "runtimes" |}.

Definition node_event (ctx : MethodContext) (s : State) : MethodResult * State :=
  let ev := unwrap_or (lit "node.event") (Json.get "event" (params ctx) ≫= as_str) in
  let pl := unwrap_or (JObject []) (Json.get "payload" (params ctx)) in
  let s :=
    match Json.get "nodeId" pl ≫= as_str with
    | Some i =>
        if str_eqb ev "node.telemetry"
        then with_nodes s (update_telemetry (node_registry s) i (telemetry_of pl)) (node_count s) else s
    | None => s
    end in
  (Ok (JObject []), broadcast ev pl default_opts s).

(** The cached location and the profile of the user are left out. *)
Definition location_result (ctx : MethodContext) (s : State) : MethodResult * State :=
  match Json.get "requestId" (params ctx) ≫= as_str with
  | None => (invalid "missing requestId", s)
  | Some request =>
      let v := match Json.get "location" (params ctx) with
               | Some loc => obj [("location", loc)]%string
               | None => obj [("error", unwrap_or JNull (Json.get "error" (params ctx)))]%string
               end in
      match pending_invokes s !! request with
      | Some p => (Ok (JObject []), complete request p ctx v s)
      | None => (invalid "no pending location request for this id", s)
      end
  end.

Definition own_methods : list str :=
  map lit ["subscribe"; "unsubscribe"; "channel.join"; "channel.leave"; "node.rename"; "node.invoke"; "node.invoke.result";
           "node.event"; "location.result"]%string.

(** The handler of a registered method: its result, or the task that goes on; [outcome] is the
    result of a service. *)
Definition handler (ctx : MethodContext) (fresh : str) (outcome : MethodResult) (s : State) : (MethodResult + Task) * State :=
  let named m := str_eqb (method ctx) m in
  let now (r : MethodResult * State) := (inl r.1, r.2) in
  if named "subscribe" then now (subscribe ctx fresh s)
  else if named "unsubscribe" then now (unsubscribe ctx s)
  else if named "channel.join" then now (channel_join ctx s)
  else if named "channel.leave" then now (channel_leave ctx s)
  else if named "node.rename" then now (node_rename ctx s)
  else if named "node.invoke" then node_invoke ctx fresh s
  else if named "node.invoke.result" then now (node_invoke_result ctx s)
  else if named "node.event" then now (node_event ctx s)
  else if named "location.result" then now (location_result ctx s)
  else (inl outcome, s).

Definition is_registered (m : str) : bool := bool_decide (m ∈ own_methods) || service m.

Definition dispatch (ctx : MethodContext) (fresh : str) (outcome : MethodResult) (s : State) : (MethodResult + Task) * State :=
  match authorize_method (method ctx) (client_role ctx) (client_scopes ctx) with
  | Some e => (inl (Err e), s)
  | None =>
      if is_registered (method ctx) then handler ctx fresh outcome (with_handled s (handled s ++ [ctx]))
      else (inl (Err (error Codes.UNKNOWN_METHOD (lit "unknown method: " ++ method ctx))), s)
  end.

(** * Steps *)

Inductive GatewayFrame :=
| Request (id method : str) (params : option json)
| OtherFrame                                     (** a response nobody waits for, or an event *)
| TooLarge
| Invalid.
Definition MAX_PAYLOAD_BYTES : Z := 524288.

(** What a node says of itself when it connects. *)
Record NodeInfo := { info_id : str; info_name : option str; info_platform : str; info_commands : list str }.

Inductive Event :=
| Connect (c : ConnectedClient) (role : str) (node : option NodeInfo)   (** after the handshake *)
| Receive (conn : str) (f : GatewayFrame) (fresh : str) (outcome : MethodResult)
| Go (i : nat)                                   (** the task [i] goes on *)
| Expire (i : nat)                               (** its wait times out *)
| Broadcast (event : str) (payload : json) (opts : BroadcastOpts)
| Write (conn : str)                             (** the writer of a connection puts a frame on the wire *)
| Advance (conn : str)                           (** its task goes on, outside of the message loop *)
| Close (conn : str)                             (** the message loop ends *)
| DisconnectAll (reason : str)
| LocationRequest (conn request : str) (precision : json).

Definition arrived (n : NodeSession) : json :=
  obj [("type", JString "node.connected"); ("nodeId", JString (node_id n)); ("platform", JString (platform n))]%string.
Definition gone (n : NodeSession) : json := obj [("type", JString "node.disconnected"); ("nodeId", JString (node_id n))]%string.

Definition set_conn (k : str) (x : Conn) (s : State) : State := with_conns s (<[k := x]> (conns s)).
Definition closed (x : Conn) : Conn :=
  {| c_role := c_role x; c_scopes := c_scopes x; outbox := []; written := written x; phase := Ended;
     delivery_failures := delivery_failures x |}.

(** An error event, straight into the channel. *)
Definition send_error (k : str) (x : Conn) (p : list (string * json)) (s : State) : State :=
  let '(n, s) := next_seq s in
  match try_send x (new_event "error" (obj p) n) with Some x' => set_conn k x' s | None => s end.

Definition receive (k : str) (x : Conn) (f : GatewayFrame) (fresh : str) (outcome : MethodResult) (s : State) : State :=
  match f with
  | Request i m p =>
      let ctx := {| request_id := i; method := m; params := unwrap_or JNull p; client_conn_id := k; client_role := c_role x;
                    client_scopes := c_scopes x |} in
      match dispatch ctx fresh outcome s with
      | (inl r, s) => spawn (Respond k i r) s
      | (inr t, s) => spawn t s
      end
  | OtherFrame => s
  | TooLarge =>
      send_error k x [("code", JString Codes.PAYLOAD_TOO_LARGE); ("message", JString "payload too large");
                      ("maxBytes", JNumber (PosInt MAX_PAYLOAD_BYTES))]%string s
  | Invalid => send_error k x [("message", JString "invalid frame")]%string s
  end.

Definition go (i : nat) (t : Task) (s : State) : option State :=
  match t with
  | Respond k id r =>
      match conns s !! k with
      | Some x =>
          if is_open x then x' ← try_send x (ResponseF id r); Some (set_task i Finished (set_conn k x' s))
          else Some (set_task i Finished s)
      | None => None
      end
  | InvokeRegister k id invoke target f =>
      Some (set_task i (InvokeSend k id invoke target f)
        (with_pending s (<[invoke := {| expected_conn_id := Some target |}]> (pending_invokes s))))
  | InvokeSend k id invoke target f =>
      match send_to target f s with
      | (s, true) => Some (set_task i (InvokeWait k id invoke) s)
      | (s, false) =>
          Some (set_task i (Respond k id (Err (error Codes.UNAVAILABLE "node send failed")))
            (with_pending s (delete invoke (pending_invokes s))))
      end
  | InvokeWait k id invoke => v ← answers s !! invoke; Some (set_task i (Respond k id (Ok v)) s)
  | InvokeExpired k id invoke =>
      Some (set_task i (Respond k id (Err (error Codes.AGENT_TIMEOUT "node invoke timeout")))
        (with_pending s (delete invoke (pending_invokes s))))
  | LocationRegister r =>
      Some (set_task i (LocationWait r) (with_pending s (<[r := {| expected_conn_id := None |}]> (pending_invokes s))))
  | LocationWait r => _ ← answers s !! r; Some (set_task i Finished s)
  | LocationExpired r => Some (set_task i Finished (with_pending s (delete r (pending_invokes s))))
  | ClearNodes => Some (set_task i ResetCount (with_nodes s no_nodes (node_count s)))
  | ResetCount => Some (set_task i Finished (with_nodes s (node_registry s) 0))
  | Finished => None
  end.

Definition expire (i : nat) (t : Task) (s : State) : option State :=
  match t with
  | InvokeWait k id invoke => if isSome (answers s !! invoke) then None else Some (set_task i (InvokeExpired k id invoke) s)
  | LocationWait r => if isSome (answers s !! r) then None else Some (set_task i (LocationExpired r) s)
  | _ => None
  end.

(** The connection enters a phase. *)
Definition enter (k : str) (p : Phase) (s : State) : State :=
  match conns s !! k with Some x => set_conn k (with_phase x p) s | None => s end.

(** The counter is 64 bits wide, and wraps. *)
Definition count_nodes (d : Z) (s : State) : State := with_nodes s (node_registry s) (wrap u64_bound (node_count s + d)).

Definition advance (k : str) (x : Conn) (s : State) : option State :=
  match phase x with
  | Registering n => Some (enter k (Counting n) (with_nodes s (register (node_registry s) n) (node_count s)))
  | Counting n => Some (enter k (Announcing n) (count_nodes 1 s))
  | Announcing n => Some (enter k Serving (broadcast "presence" (arrived n) default_opts s))
  | Uncounting n => Some (enter k (Leaving n) (count_nodes (-1) s))
  | Leaving n => Some (enter k Removing (broadcast "presence" (gone n) default_opts s))
  | Removing => Some (enter k Dropping (with_clients s (delete k (clients s))))
  | Dropping => Some (set_conn k (closed x) s)
  | Serving | Ended => None
  end.

(** The first step of the clean-up. *)
Definition close (k : str) (s : State) : State :=
  let '(r, removed) := unregister_by_conn (node_registry s) k in
  enter k (match removed with Some n => Uncounting n | None => Removing end) (with_nodes s r (node_count s)).

(** The clients are told and removed under one lock; the nodes and their counter follow. *)
Definition disconnect_all_clients (reason : str) (s : State) : State :=
  let '(n, s) := next_seq s in
  let s := send_where (λ _, true) (new_event "auth.credentials_changed" (obj [("reason", JString reason)]%string) n) s in
  spawn ClearNodes (with_clients s ∅).

Definition session_of (c : ConnectedClient) (n : NodeInfo) : NodeSession :=
  {| node_id := info_id n; node_conn := conn_id c; display_name := info_name n; platform := info_platform n;
     commands := info_commands n; telemetry := no_telemetry |}.
Definition step (s : State) (e : Event) : option State :=
  match e with
  | Connect c role node =>
      match conns s !! conn_id c with
      | Some _ => None
      | None =>
          let p := match node with Some n => Registering (session_of c n) | None => Serving end in
          let x := {| c_role := role; c_scopes := scopes c; outbox := []; written := []; phase := p; delivery_failures := 0 |} in
          Some (set_conn (conn_id c) x (with_clients s (<[conn_id c := c]> (clients s))))
      end
  | Receive k f fresh outcome =>
      x ← conns s !! k; if receiving x then Some (receive k x f fresh outcome s) else None
  | Go i => t ← tasks s !! i; go i t s
  | Expire i => t ← tasks s !! i; expire i t s
  | Broadcast event payload opts => Some (broadcast event payload opts s)
  | Write k =>
      x ← conns s !! k;
      match outbox x with
      | [] => None
      | f :: rest => Some (set_conn k (with_outbox x rest (written x ++ [f])) s)
      end
  | Advance k => x ← conns s !! k; advance k x s
  | Close k => x ← conns s !! k; if receiving x then Some (close k s) else None
  | DisconnectAll reason => Some (disconnect_all_clients reason s)
  | LocationRequest k r precision =>
      let '(n, s) := next_seq s in
      match send_to k (new_event "location.request" (obj [("requestId", JString r); ("precision", precision)]%string) n) s with
      | (s, true) => Some (spawn (LocationRegister r) s)
      | (s, false) => Some s
      end
  end.

Fixpoint steps (es : list Event) (s : State) : option State :=
  match es with [] => Some s | e :: es => step s e ≫= steps es end.

Inductive reached (ok : State → Event → Prop) : State → Prop :=
| reached_init : reached ok init
| reached_step s e s' : reached ok s → ok s e → step s e = Some s' → reached ok s'.
Definition any_event (_ : State) (_ : Event) : Prop := True.

(** * Facts *)

Local Arguments lit : simpl never.

(** A connection keeps its authority, and is sent no event whose guard its scopes do not pass. *)
Definition conn_step (x x' : Conn) : Prop :=
  c_role x' = c_role x ∧ c_scopes x' = c_scopes x ∧
  ∀ ev, EventF ev ∈ sent x' → EventF ev ∈ sent x ∨ passes_guard (c_scopes x) (event ev) = true.
Global Instance conn_step_preorder : PreOrder conn_step.
Proof.
  split; [intros x; split_and!; auto|]. intros x y z (Hr & Hs & He) (Hr' & Hs' & He'). split_and!; [congruence..|].
  intros ev [[?|?]%He|Hp]%He'; auto. right. by rewrite <- Hs.
Qed.

(** What a step does to connections and clients that are there already, and only to those. *)
Definition preserves (s s' : State) : Prop :=
  (∀ k x, conns s !! k = Some x → ∃ x', conns s' !! k = Some x' ∧ conn_step x x') ∧
  (∀ k, is_Some (conns s' !! k) → is_Some (conns s !! k)) ∧
  (∀ k c', clients s' !! k = Some c' → ∃ c, clients s !! k = Some c ∧ scopes c' = scopes c).
Global Instance preserves_preorder : PreOrder preserves.
Proof.
  split.
  - intros s. split_and!; [|done|eauto]. intros k x Hk. exists x. split; [done|reflexivity].
  - intros s1 s2 s3 (H1 & H2 & H3) (H1' & H2' & H3'). split_and!.
    + intros k x (x' & Hk & Hx)%H1. destruct (H1' _ _ Hk) as (x'' & Hk' & Hx'). exists x''. split; [done|by etrans].
    + auto.
    + intros k c' (c2 & Hc2 & ->)%H3'. destruct (H3 _ _ Hc2) as (c1 & ? & ->). eauto.
Qed.

(** The registry knows the scopes of its connections. *)
Definition registered (s : State) : Prop :=
  ∀ k c, clients s !! k = Some c → ∃ x, conns s !! k = Some x ∧ c_scopes x = scopes c.
Definition guarded (s : State) : Prop :=
  ∀ k x ev, conns s !! k = Some x → EventF ev ∈ sent x → passes_guard (c_scopes x) (event ev) = true.

Lemma preserves_registered s s' : preserves s s' → registered s → registered s'.
Proof.
  intros (H1 & _ & H3) Hr k c' (c & Hc & ->)%H3. destruct (Hr _ _ Hc) as (x & Hx & <-).
  destruct (H1 _ _ Hx) as (x' & ? & _ & ? & _). eauto.
Qed.
Lemma preserves_guarded s s' : preserves s s' → guarded s → guarded s'.
Proof.
  intros (H1 & H2 & _) Hg k x' ev Hx' Hev. destruct (H2 k) as [x Hx]; [by eexists|].
  destruct (H1 _ _ Hx) as (x'' & Hx'' & _ & Hs & He). simplify_eq. rewrite Hs. destruct (He _ Hev); [by eapply Hg|done].
Qed.

(** The same connections and clients. *)
Lemma preserves_same s s' : conns s' = conns s → clients s' = clients s → preserves s s'.
Proof.
  intros E1 E2. split_and!; rewrite ?E1, ?E2; [|done|eauto]. intros k x Hk. exists x. split; [done|reflexivity].
Qed.

Definition unguarded (f : Frame) : Prop := match f with EventF ev => event_scope_guards (event ev) = None | _ => True end.

Lemma try_send_step x f x' :
  (∀ ev, f = EventF ev → passes_guard (c_scopes x) (event ev) = true) → try_send x f = Some x' → conn_step x x'.
Proof.
  unfold try_send. intros Hf. destruct (_ && _); [|done]. intros [= <-]. split_and!; [done..|]. unfold sent. simpl.
  intros ev. rewrite app_assoc, elem_of_app, list_elem_of_singleton. intros [?|Hev]; [by left|]. right. by apply Hf.
Qed.
Lemma send_step x f :
  (∀ ev, f = EventF ev → passes_guard (c_scopes x) (event ev) = true) → conn_step x (send x f).1.
Proof.
  intros Hf. unfold send. destruct (try_send x f) as [x'|] eqn:E; [by eapply try_send_step|]. split_and!; auto.
Qed.

Lemma unguarded_passes sc f ev : unguarded f → f = EventF ev → passes_guard sc (event ev) = true.
Proof. intros Hu ->. unfold passes_guard. by rewrite Hu. Qed.

Lemma preserves_set_conn s k x x' : conns s !! k = Some x → conn_step x x' → preserves s (set_conn k x' s).
Proof.
  intros Hk Hx. split_and!; simpl; [| |eauto].
  - intros j y Hj. destruct (decide (k = j)) as [<-|Hkj].
    + simplify_eq. exists x'. by rewrite lookup_insert_eq.
    + exists y. rewrite lookup_insert_ne by done. split; [done|reflexivity].
  - intros j. destruct (decide (k = j)) as [<-|Hkj]; [by eauto|by rewrite lookup_insert_ne].
Qed.

Lemma preserves_send_where s g f :
  registered s → (∀ c ev, g c = true → f = EventF ev → passes_guard (scopes c) (event ev) = true) →
  preserves s (send_where g f s).
Proof.
  intros Hr Hg. split_and!; simpl; [| |eauto].
  - intros k x Hk. rewrite map_lookup_imap, Hk. simpl. eexists. split; [done|].
    destruct (clients s !! k) as [c|] eqn:Ec; simpl; [|reflexivity]. destruct (g c) eqn:Eg; [|reflexivity].
    destruct (Hr _ _ Ec) as (x0 & Hx0 & Hsc). simplify_eq. apply send_step. intros ev ->. rewrite Hsc. by eapply Hg.
  - intros k. rewrite map_lookup_imap. intros [y Hy]. destruct (conns s !! k); [by eauto|done].
Qed.

Lemma preserves_next_seq s : preserves s (next_seq s).2.
Proof. by apply preserves_same. Qed.

Lemma preserves_broadcast s ev p o : registered s → preserves s (broadcast ev p o s).
Proof.
  intros Hr. unfold broadcast. destruct (next_seq s) as [n s1] eqn:En.
  assert (Hs : preserves s s1) by (replace s1 with (next_seq s).2 by (by rewrite En); apply preserves_next_seq).
  etrans; [exact Hs|]. apply preserves_send_where; [by eapply preserves_registered|].
  intros c e Hc [= <-]. simpl. unfold is_recipient in Hc. by repeat (apply andb_true_iff in Hc as [Hc _]).
Qed.

Lemma preserves_send_to s k f s' b : unguarded f → send_to k f s = (s', b) → preserves s s'.
Proof.
  intros Hf. unfold send_to. destruct (clients s !! k); [|by intros [= <- <-]]. destruct (conns s !! k) as [x|] eqn:Ex; [|by intros [= <- <-]].
  destruct (send x f) as [x' ok] eqn:E. intros [= <- <-]. change (preserves s (set_conn k x' s)). eapply preserves_set_conn; [done|].
  replace x' with (send x f).1 by (by rewrite E). apply send_step. intros ev. by apply unguarded_passes.
Qed.

Lemma preserves_update_client s k f : (∀ c, scopes (f c) = scopes c) → preserves s (update_client k f s).
Proof.
  intros Hf. unfold update_client. destruct (clients s !! k) as [c|] eqn:E; [|done]. split_and!; simpl; [|done|].
  - intros j x Hj. exists x. split; [done|reflexivity].
  - intros j c'. destruct (decide (k = j)) as [<-|Hkj]; [rewrite lookup_insert_eq; intros [= <-]; eauto|].
    rewrite lookup_insert_ne by done. eauto.
Qed.

(** The calls, answers and tasks are as they were. *)
Definition quiet (s s' : State) : Prop :=
  handled s' = handled s ∧ completed s' = completed s ∧ answers s' = answers s ∧ tasks s' = tasks s.

Lemma quiet_broadcast s ev p o : quiet s (broadcast ev p o s).
Proof. done. Qed.
Lemma quiet_update_client s k f : quiet s (update_client k f s).
Proof. unfold update_client. by destruct (clients s !! k). Qed.
Lemma quiet_send_to s k f s' b : send_to k f s = (s', b) → quiet s s'.
Proof.
  unfold send_to. destruct (clients s !! k); [|by intros [= <- <-]]. destruct (conns s !! k); [|by intros [= <- <-]].
  destruct (send _ f). by intros [= <- <-].
Qed.

Definition unguarded_task (t : Task) : Prop :=
  match t with InvokeRegister _ _ _ _ f | InvokeSend _ _ _ _ f => unguarded f | _ => True end.

(** Who may complete what. *)
Definition entitled (c : Completion) : Prop :=
  let ctx := by_call c in
  (method ctx = lit "node.invoke.result" ∧ expected c = Some (client_conn_id ctx)) ∨ method ctx = lit "location.result".

(** What a handler does beside its effect on clients and nodes. *)
Definition effect (ctx : MethodContext) (s s' : State) : Prop :=
  preserves s s' ∧ handled s' = handled s ∧ tasks s' = tasks s ∧
  ((completed s' = completed s ∧ answers s' = answers s) ∨
   ∃ c, by_call c = ctx ∧ entitled c ∧ completed s' = completed s ++ [c] ∧ answers s' = <[invoke_of c := value c]> (answers s)).

Lemma effect_quiet ctx s s' : preserves s s' → quiet s s' → effect ctx s s'.
Proof. intros Hp (? & ? & ? & ?). split_and!; auto. Qed.

Lemma effect_complete ctx s invoke p v :
  (method ctx = lit "node.invoke.result" ∧ expected_conn_id p = Some (client_conn_id ctx)) ∨ method ctx = lit "location.result" →
  effect ctx s (complete invoke p ctx v s).
Proof.
  intros He. split_and!; [by apply preserves_same|done|done|]. right.
  exists {| invoke_of := invoke; expected := expected_conn_id p; by_call := ctx; value := v |}. done.
Qed.

Lemma subscriber_effect ctx s f : (∀ c, scopes (f c) = scopes c) → effect ctx s (update_client (client_conn_id ctx) f s).
Proof. intros Hf. apply effect_quiet; [by apply preserves_update_client|apply quiet_update_client]. Qed.
Lemma effect_refl ctx s : effect ctx s s.
Proof. by apply effect_quiet. Qed.
Lemma nodes_effect ctx s r n : effect ctx s (with_nodes s r n).
Proof. apply effect_quiet; [by apply preserves_same|done]. Qed.

Create HintDb gateway.
#[local] Hint Resolve effect_refl nodes_effect : gateway.
#[local] Hint Extern 1 (effect _ _ (update_client _ _ _)) => apply subscriber_effect; done : gateway.

Lemma node_invoke_effect ctx fresh s o s' :
  node_invoke ctx fresh s = (o, s') → effect ctx s s' ∧ (∀ t, o = inr t → unguarded_task t).
Proof.
  unfold node_invoke. intros E. repeat case_match; simplify_eq; try (split; [auto with gateway|done]).
  split.
  - match goal with E : next_seq s = _ |- _ => unfold next_seq in E; simplify_eq end.
    apply effect_quiet; [by apply preserves_same|done].
  - by intros t [= <-].
Qed.

Lemma node_event_effect ctx s : registered s → effect ctx s (node_event ctx s).2.
Proof.
  intros Hr. unfold node_event. simpl. case_match; [case_match|];
    (apply effect_quiet; [|done]); try (by apply preserves_broadcast).
  set (s1 := with_nodes s _ _). assert (Hs : preserves s s1) by (by apply preserves_same). etrans; [exact Hs|].
  apply preserves_broadcast. by eapply preserves_registered.
Qed.

Lemma handler_effect ctx fresh outcome s o s' :
  registered s → handler ctx fresh outcome s = (o, s') → effect ctx s s' ∧ (∀ t, o = inr t → unguarded_task t).
Proof.
  intros Hr. unfold handler, str_eqb.
  repeat (case_bool_decide as Hm; [try (intros [= <- <-]; split; [|done])|clear Hm]).
  - unfold subscribe. repeat case_match; simpl; auto with gateway.
  - unfold unsubscribe. repeat case_match; simpl; auto with gateway.
  - unfold channel_join. repeat case_match; simpl; auto with gateway.
  - unfold channel_leave. repeat case_match; simpl; auto with gateway.
  - unfold node_rename. repeat case_match; simpl; auto with gateway.
  - apply node_invoke_effect.
  - unfold node_invoke_result. case_match; simpl; [|auto with gateway]. case_match; simpl; [|auto with gateway].
    case_bool_decide; simpl; [|auto with gateway]. apply effect_complete. left. by split.
  - by apply node_event_effect.
  - unfold location_result. case_match; simpl; [|auto with gateway]. case_match; simpl; [|auto with gateway].
    apply effect_complete. by right.
  - intros [= <- <-]. split; [auto with gateway|done].
Qed.

(** The authority of a call is that of its connection. *)
Definition authorized (s : State) (ctx : MethodContext) : Prop :=
  authorize_method (method ctx) (client_role ctx) (client_scopes ctx) = None ∧
  ∃ x, conns s !! client_conn_id ctx = Some x ∧ c_role x = client_role ctx ∧ c_scopes x = client_scopes ctx.

Record Inv (s : State) : Prop := {
  inv_registered : registered s;
  inv_guarded : guarded s;
  inv_handled : Forall (authorized s) (handled s);
  inv_completed : Forall (λ c, by_call c ∈ handled s ∧ entitled c) (completed s);
  inv_answers : ∀ i v, answers s !! i = Some v → ∃ c, c ∈ completed s ∧ invoke_of c = i ∧ value c = v;
  inv_tasks : Forall unguarded_task (tasks s);
}.

Lemma authorized_preserves s s' ctx : preserves s s' → authorized s ctx → authorized s' ctx.
Proof.
  intros (H1 & _) (Ha & x & Hx & Hr & Hs). split; [done|]. destruct (H1 _ _ Hx) as (x' & ? & ? & ? & _).
  exists x'. split_and!; [done|congruence..].
Qed.

(** A step of the connections, and one of the tasks. *)
Lemma Inv_quiet s s' : Inv s → preserves s s' → quiet s s' → Inv s'.
Proof.
  intros [H1 H2 H3 H4 H5 H6] Hp (Eh & Ec & Ea & Et). split; rewrite ?Eh, ?Ec, ?Ea, ?Et; try done.
  - by eapply preserves_registered.
  - by eapply preserves_guarded.
  - eapply Forall_impl; [exact H3|]. intros ctx. by apply authorized_preserves.
Qed.
Lemma Inv_tasks s ts : Inv s → Forall unguarded_task ts → Inv (with_tasks s ts).
Proof. by intros [H1 H2 H3 H4 H5 H6] Ht. Qed.
Lemma Inv_spawn s t : Inv s → unguarded_task t → Inv (spawn t s).
Proof. intros Hi Ht. apply Inv_tasks; [done|]. apply Forall_app. split; [apply Hi|by constructor]. Qed.
Lemma Inv_set_task s i t : Inv s → unguarded_task t → Inv (set_task i t s).
Proof. intros Hi Ht. apply Inv_tasks; [done|]. apply Forall_insert; [apply Hi|done]. Qed.

Lemma Inv_effect s s' ctx : Inv s → authorized s ctx → effect ctx (with_handled s (handled s ++ [ctx])) s' → Inv s'.
Proof.
  intros [H1 H2 H3 H4 H5 H6] Hctx (Hp & Eh & Et & Hc). simpl in *.
  assert (Hp' : preserves s s') by (etrans; [by apply preserves_same|exact Hp]). split.
  - by eapply preserves_registered.
  - by eapply preserves_guarded.
  - rewrite Eh. apply Forall_app. split; [|constructor; [by eapply authorized_preserves|constructor]].
    eapply Forall_impl; [exact H3|]. intros c. by apply authorized_preserves.
  - rewrite Eh. assert (Hold : Forall (λ c, by_call c ∈ handled s ++ [ctx] ∧ entitled c) (completed s)).
    { eapply Forall_impl; [exact H4|]. intros c [? ?]. rewrite elem_of_app. auto. }
    destruct Hc as [[-> _]|(c & Hby & He & -> & _)]; [done|]. apply Forall_app. split; [done|]. constructor; [|constructor].
    rewrite Hby, elem_of_app, list_elem_of_singleton. auto.
  - destruct Hc as [[-> ->]|(c & _ & _ & -> & ->)]; [done|]. intros i v. destruct (decide (invoke_of c = i)) as [<-|Hi].
    + rewrite lookup_insert_eq. intros [= <-]. exists c. rewrite elem_of_app, list_elem_of_singleton. auto.
    + rewrite lookup_insert_ne by done. intros (c' & ? & ?)%H5. exists c'. rewrite elem_of_app. auto.
  - by rewrite Et.
Qed.

Lemma dispatch_Inv s k x i m p fresh outcome o s' :
  Inv s → conns s !! k = Some x →
  dispatch {| request_id := i; method := m; params := p; client_conn_id := k; client_role := c_role x;
              client_scopes := c_scopes x |} fresh outcome s = (o, s') →
  Inv s' ∧ (∀ t, o = inr t → unguarded_task t).
Proof.
  intros Hi Hx. set (ctx := Build_MethodContext _ _ _ _ _ _). unfold dispatch. simpl.
  destruct (authorize_method _ _ _) eqn:Ea; [by intros [= <- <-]|]. destruct (is_registered m); [|by intros [= <- <-]].
  intros E. apply handler_effect in E as [He Ht]; [|exact (inv_registered s Hi)]. split; [|done].
  eapply Inv_effect; [exact Hi| |exact He]. split; [done|]. by exists x.
Qed.

Lemma Inv_send_to s k f s' b : Inv s → unguarded f → send_to k f s = (s', b) → Inv s'.
Proof. intros Hi Hf E. eapply Inv_quiet; [exact Hi|by eapply preserves_send_to|by eapply quiet_send_to]. Qed.

Lemma Inv_same s s' : Inv s → conns s' = conns s → clients s' = clients s → quiet s s' → Inv s'.
Proof. intros Hi E1 E2 Hq. eapply Inv_quiet; [exact Hi|by apply preserves_same|exact Hq]. Qed.

Lemma Inv_broadcast s ev p o : Inv s → Inv (broadcast ev p o s).
Proof. intros Hi. eapply Inv_quiet; [exact Hi|apply preserves_broadcast, Hi|apply quiet_broadcast]. Qed.

Lemma send_error_Inv s k x p : Inv s → conns s !! k = Some x → Inv (send_error k x p s).
Proof.
  intros Hi Hx. unfold send_error. destruct (next_seq s) as [n s1] eqn:En. unfold next_seq in En. simplify_eq.
  destruct (try_send _ _) as [x'|] eqn:E; [|by eapply Inv_same].
  eapply (Inv_quiet s); [exact Hi| |done]. etrans; [by apply (preserves_next_seq s)|].
  apply (preserves_set_conn _ _ x); [done|]. eapply try_send_step; [|exact E]. intros ev. by apply unguarded_passes.
Qed.

Lemma go_Inv s i t s' : Inv s → tasks s !! i = Some t → go i t s = Some s' → Inv s'.
Proof.
  intros Hi Ht. assert (Hu : unguarded_task t) by (by eapply (Forall_lookup_1 _ _ _ _ (inv_tasks s Hi))).
  destruct t as [k id r|k id inv tgt f|k id inv tgt f|k id inv|k id inv|r|r|r| | |]; simpl; try done.
  - destruct (conns s !! k) as [x|] eqn:Ex; [|done]. destruct (is_open x); [|by intros [= <-]; apply Inv_set_task].
    destruct (try_send x (ResponseF id r)) as [x'|] eqn:Es; [|done]. intros [= <-]. apply Inv_set_task; [|done].
    eapply Inv_quiet; [exact Hi| |done]. apply (preserves_set_conn _ _ x); [done|]. eapply try_send_step; [|exact Es]. done.
  - intros [= <-]. apply Inv_set_task; [|exact Hu]. by eapply Inv_same.
  - destruct (send_to tgt f s) as [s1 b] eqn:Es. pose proof (Inv_send_to _ _ _ _ _ Hi Hu Es) as Hi1.
    destruct b; intros [= <-]; apply Inv_set_task; try done. by eapply Inv_same.
  - destruct (answers s !! inv); [|done]. intros [= <-]. by apply Inv_set_task.
  - intros [= <-]. apply Inv_set_task; [|done]. by eapply Inv_same.
  - intros [= <-]. apply Inv_set_task; [|done]. by eapply Inv_same.
  - destruct (answers s !! r); [|done]. intros [= <-]. by apply Inv_set_task.
  - intros [= <-]. apply Inv_set_task; [|done]. by eapply Inv_same.
  - intros [= <-]. apply Inv_set_task; [|done]. by apply (Inv_same s).
  - intros [= <-]. apply Inv_set_task; [|done]. by apply (Inv_same s).
Qed.

Lemma conn_step_phase x p : conn_step x (with_phase x p).
Proof. split_and!; auto. Qed.
Lemma Inv_enter s k p : Inv s → Inv (enter k p s).
Proof.
  intros Hi. unfold enter. destruct (conns s !! k) as [x|] eqn:Ex; [|done].
  apply (Inv_quiet s); [done| |done]. apply (preserves_set_conn _ _ x); [done|apply conn_step_phase].
Qed.

Lemma preserves_fewer s cs : cs ⊆ clients s → preserves s (with_clients s cs).
Proof.
  intros Hcs. split_and!; simpl; [|done|].
  - intros j y Hj. exists y. split; [done|reflexivity].
  - intros j c' Hj. exists c'. split; [|done]. by eapply lookup_weaken.
Qed.

Lemma close_Inv s k : Inv s → Inv (close k s).
Proof.
  intros Hi. unfold close. destruct (unregister_by_conn (node_registry s) k) as [r removed].
  apply Inv_enter. by apply (Inv_same s).
Qed.

Lemma advance_Inv s k x s' : Inv s → conns s !! k = Some x → advance k x s = Some s' → Inv s'.
Proof.
  intros Hi Hx. unfold advance. destruct (phase x); try done; intros [= <-].
  1,2,4: by apply Inv_enter, (Inv_same s).
  1,2: by apply Inv_enter, Inv_broadcast.
  - apply Inv_enter. apply (Inv_quiet s); [done| |done]. apply preserves_fewer, delete_subseteq.
  - apply (Inv_quiet s); [done| |done]. apply (preserves_set_conn _ _ x); [done|]. split_and!; [done..|].
    unfold sent. simpl. intros ev. rewrite app_nil_r, elem_of_app. auto.
Qed.

Lemma connect_Inv s c x :
  Inv s → conns s !! conn_id c = None → c_scopes x = scopes c → sent x = [] →
  Inv (set_conn (conn_id c) x (with_clients s (<[conn_id c := c]> (clients s)))).
Proof.
  intros [H1 H2 H3 H4 H5 H6] Hc Hsc Hnew. split; try done.
  - intros k c'. simpl. destruct (decide (conn_id c = k)) as [<-|Hk].
    + rewrite !lookup_insert_eq. intros [= <-]. by exists x.
    + rewrite !lookup_insert_ne by done. apply H1.
  - intros k y ev. simpl. destruct (decide (conn_id c = k)) as [<-|Hk].
    + rewrite lookup_insert_eq. intros [= <-]. rewrite Hnew. by intros ?%elem_of_nil.
    + rewrite lookup_insert_ne by done. apply H2.
  - eapply Forall_impl; [exact H3|]. intros ctx (Ha & y & Hy & Hr & Hs). split; [done|]. exists y.
    simpl. rewrite lookup_insert_ne; [done|]. intros He. congruence.
Qed.

Lemma disconnect_Inv s reason : Inv s → Inv (disconnect_all_clients reason s).
Proof.
  intros Hi. unfold disconnect_all_clients. destruct (next_seq s) as [n s1] eqn:En.
  assert (Hi1 : Inv s1) by (unfold next_seq in En; simplify_eq; by apply (Inv_same s)).
  set (f := new_event "auth.credentials_changed" _ n). apply Inv_spawn; [|done].
  apply (Inv_quiet s1); [done| |done]. etrans; [|apply preserves_fewer, map_empty_subseteq].
  apply preserves_send_where; [apply Hi1|]. intros c ev _. by apply (unguarded_passes _ f).
Qed.

Lemma step_Inv s e s' : Inv s → step s e = Some s' → Inv s'.
Proof.
  intros Hi. destruct e as [c role node|k f fresh outcome|i|i|ev p o|k|k|k|reason|k r pr]; simpl.
  - destruct (conns s !! conn_id c) eqn:Ec; [done|]. intros [= <-]. by apply connect_Inv.
  - destruct (conns s !! k) as [x|] eqn:Ex; [|done]. simpl. destruct (receiving x); [|done]. intros [= <-].
    destruct f as [i m p| | |]; simpl; [|done|by apply send_error_Inv..].
    destruct (dispatch _ _ _ _) as [o s1] eqn:Ed. eapply dispatch_Inv in Ed as [Hi1 Ht]; [|done..].
    destruct o; apply Inv_spawn; auto. done.
  - destruct (tasks s !! i) as [t|] eqn:Et; [|done]. by apply go_Inv.
  - destruct (tasks s !! i) as [t|] eqn:Et; [|done]. simpl. unfold expire. destruct t; try done;
      case_match; intros [= <-]; by apply Inv_set_task.
  - intros [= <-]. by apply Inv_broadcast.
  - destruct (conns s !! k) as [x|] eqn:Ex; [|done]. simpl. destruct (outbox x) as [|f rest] eqn:Eo; [done|]. intros [= <-].
    eapply Inv_quiet; [exact Hi| |done]. apply (preserves_set_conn _ _ x); [done|]. split_and!; [done..|].
    unfold sent. simpl. rewrite Eo, <- app_assoc. auto.
  - destruct (conns s !! k) as [x|] eqn:Ex; [|done]. simpl. by apply advance_Inv.
  - destruct (conns s !! k) as [x|] eqn:Ex; [|done]. simpl. destruct (receiving x); [|done]. intros [= <-]. by apply close_Inv.
  - intros [= <-]. by apply disconnect_Inv.
  - destruct (send_to _ _ _) as [s1 b] eqn:Es. eapply Inv_send_to in Es; [|by eapply (Inv_same s)|done].
    destruct b; intros [= <-]; [by apply Inv_spawn|done].
Qed.

Lemma Inv_init : Inv init.
Proof. split; try done; try constructor; by intros ???. Qed.

Lemma reached_Inv ok s : reached ok s → Inv s.
Proof. induction 1; [exact Inv_init|by eapply step_Inv]. Qed.

(** * Theorems *)

(** C7. A call runs with the authority of its connection and no other.  However connections,
    calls, services and disconnections interleave, every call whose handler ran was authorized
    under the role and the scopes that its connection got at its handshake, and those of a
    connection never change, also not by what its client sends. *)
Theorem calls_are_authorized s ctx :
  reached any_event s → ctx ∈ handled s →
  authorize_method (method ctx) (client_role ctx) (client_scopes ctx) = None ∧
  ∃ x, conns s !! client_conn_id ctx = Some x ∧ c_role x = client_role ctx ∧ c_scopes x = client_scopes ctx.
Proof. intros Hr. revert ctx. apply Forall_forall. exact (inv_handled s (reached_Inv _ _ Hr)). Qed.

(** C20. An invocation is answered by the node it was sent to, or by an operator who may write.
    Whatever value reaches who waits for an invocation or a location came from a call that was
    authorized: the result of a node, over the very connection that the invocation was sent to;
    or [location.result] by an operator with the scope for writing, who may answer any pending
    invocation, those of nodes included. *)
Theorem answers_have_authors s invoke v :
  reached any_event s → answers s !! invoke = Some v →
  ∃ c, c ∈ completed s ∧ invoke_of c = invoke ∧ value c = v ∧ by_call c ∈ handled s ∧
    let ctx := by_call c in
    (method ctx = lit "node.invoke.result" ∧ client_role ctx = Roles.NODE ∧ expected c = Some (client_conn_id ctx)) ∨
    (method ctx = lit "location.result" ∧ client_role ctx = Roles.OPERATOR ∧
     (Scopes.ADMIN ∈ client_scopes ctx ∨ Scopes.WRITE ∈ client_scopes ctx)).
Proof.
  intros Hr Ha. pose proof (reached_Inv _ _ Hr) as Hi. destruct (inv_answers s Hi _ _ Ha) as (c & Hc & <- & <-).
  pose proof (inv_completed s Hi) as Hf. rewrite Forall_forall in Hf. destruct (Hf c Hc) as [Hin He].
  pose proof (inv_handled s Hi) as Hh. rewrite Forall_forall in Hh. destruct (Hh _ Hin) as [Hau _].
  apply authorized_iff in Hau. unfold allowed in Hau. exists c. split_and!; try done. destruct He as [[Hm Hx]|Hm]; rewrite Hm in Hau.
  - left. assert (Hn : is_in "node.invoke.result" NODE_METHODS = true) by (by vm_compute). by rewrite Hn in Hau.
  - right. assert (Hn : is_in "location.result" NODE_METHODS = false) by (by vm_compute). rewrite Hn in Hau.
    assert (Hq : required "location.result" = [[Scopes.WRITE]]) by (by vm_compute). rewrite Hq in Hau.
    destruct Hau as [? [?|Hw]]; split_and!; auto. destruct (Hw [Scopes.WRITE]) as (sc & ->%list_elem_of_singleton & ?); [by left|auto].
Qed.

(** C8. An event with a guard reaches nobody without the scope.  Whatever is broadcast, by
    services or by nodes, and whatever else is sent, every event that was ever put into the
    channel of a connection and asks for a scope was so with that scope, or [operator.admin],
    among those of the connection. *)
Theorem guarded_events_need_scope s k x ev scopes :
  reached any_event s → conns s !! k = Some x → EventF ev ∈ sent x → event_scope_guards (event ev) = Some scopes →
  Scopes.ADMIN ∈ c_scopes x ∨ ∃ scope, scope ∈ scopes ∧ scope ∈ c_scopes x.
Proof.
  intros Hr Hx Hev Hs. pose proof (inv_guarded s (reached_Inv _ _ Hr) _ _ _ Hx Hev) as Hp. unfold passes_guard in Hp.
  rewrite Hs in Hp. apply orb_true_iff in Hp as [Hp|Hp]; [left; by apply bool_decide_eq_true in Hp|right].
  apply existsb_exists in Hp as (sc & ?%list_elem_of_In & ?%bool_decide_eq_true). eauto.
Qed.

(** The three steps of [disconnect_all_clients], with nothing in between. *)
Definition disconnecting (reason : str) (s : State) : list Event :=
  [DisconnectAll reason; Go (length (tasks s)); Go (length (tasks s))].

Lemma disconnect_steps s reason :
  ∃ s1, steps (disconnecting reason s) s = Some s1 ∧ clients s1 = ∅ ∧ nodes (node_registry s1) = ∅ ∧ handled s1 = handled s ∧
    conns s1 = conns (disconnect_all_clients reason s).
Proof.
  unfold disconnecting, steps. cbn [step]. unfold disconnect_all_clients. destruct (next_seq s) as [n s0] eqn:En.
  unfold next_seq in En. simplify_eq. cbn [mbind option_bind]. unfold spawn.
  set (s1 := with_clients _ ∅). assert (Ht : tasks s1 = tasks s) by done. rewrite Ht.
  cbn [tasks with_tasks]. rewrite (list_lookup_middle (tasks s) [] ClearNodes (length (tasks s)) eq_refl).
  cbn [mbind option_bind go]. unfold set_task. cbn [tasks with_tasks with_nodes].
  rewrite (insert_app_r_alt (tasks s) [ClearNodes] (length (tasks s)) ResetCount), Nat.sub_diag by done. cbn.
  rewrite (list_lookup_middle (tasks s) [] ResetCount (length (tasks s)) eq_refl). cbn. eexists. by split_and!.
Qed.

(** C25. Disconnecting all clients ends no connection.  After [disconnect_all_clients] the
    registries of clients and nodes are empty, but a connection that was open still receives, with
    the role and the scopes it had before: whatever was authorized for it runs as before, and its
    answers still go out. *)
Theorem disconnect_all_keeps_serving s reason k x i m p fresh outcome :
  conns s !! k = Some x → receiving x = true →
  authorize_method m (c_role x) (c_scopes x) = None → is_registered m = true →
  ∃ s1 s2 x1, steps (disconnecting reason s) s = Some s1 ∧ clients s1 = ∅ ∧ nodes (node_registry s1) = ∅ ∧
    conns s1 !! k = Some x1 ∧ receiving x1 = true ∧
    step s1 (Receive k (Request i m p) fresh outcome) = Some s2 ∧
    handled s2 = handled s ++ [{| request_id := i; method := m; params := unwrap_or JNull p; client_conn_id := k;
                                  client_role := c_role x; client_scopes := c_scopes x |}].
Proof.
  intros Hx Hrec Ha Hreg. destruct (disconnect_steps s reason) as (s1 & Hsteps & Hcl & Hn & Hh1 & Hconns).
  assert (Hx1 : ∃ x1, conns s1 !! k = Some x1 ∧ receiving x1 = true ∧ c_role x1 = c_role x ∧ c_scopes x1 = c_scopes x).
  { rewrite Hconns. unfold disconnect_all_clients. simpl. rewrite map_lookup_imap, Hx. simpl. eexists. split; [done|].
    destruct (is_some_and _ _); [|done]. unfold send, try_send. by destruct (_ && _). }
  destruct Hx1 as (x1 & Hx1 & Hrec1 & Hrole & Hscopes).
  set (ctx := {| request_id := i; method := m; params := unwrap_or JNull p; client_conn_id := k; client_role := c_role x;
                 client_scopes := c_scopes x |}).
  destruct (dispatch ctx fresh outcome s1) as [o s2] eqn:Ed.
  assert (Hh : handled s2 = handled s ++ [ctx]).
  { unfold dispatch in Ed. simpl in Ed. rewrite Ha, Hreg in Ed. rewrite <- Hh1.
    apply handler_effect in Ed as [(_ & -> & _) _]; [done|]. intros j c Hj. simpl in Hj. by rewrite Hcl, lookup_empty in Hj. }
  exists s1, (match o with inl r => spawn (Respond k i r) s2 | inr t => spawn t s2 end), x1. split_and!; try done.
  - unfold step. rewrite Hx1. cbn [mbind option_bind]. rewrite Hrec1. unfold receive. rewrite Hrole, Hscopes. fold ctx.
    rewrite Ed. by destruct o.
  - by destruct o.
Qed.

(** ** Nodes *)

Definition key_of (n : NodeSession) : str * str := (node_id n, node_conn n).
Definition index (s : State) : gmap str (str * str) := key_of <$> nodes (node_registry s).
Definition authority (s : State) : gmap str (str * list str) := (λ x, (c_role x, c_scopes x)) <$> conns s.
Definition phases (s : State) : gmap str Phase := phase <$> conns s.

(** The same nodes; the same connections with the same authority, where they were; and a reset of the
    counter that is due is still so. *)
Definition nodes_stay (s s' : State) : Prop :=
  index s' = index s ∧ by_conn (node_registry s') = by_conn (node_registry s) ∧ node_count s' = node_count s ∧
  authority s' = authority s ∧ phases s' = phases s ∧ (ResetCount ∈ tasks s → ResetCount ∈ tasks s').
Definition same_task (x x' : Conn) : Prop := phase x' = phase x ∧ c_role x' = c_role x ∧ c_scopes x' = c_scopes x.
Global Instance nodes_stay_preorder : PreOrder nodes_stay.
Proof.
  split; [by intros s|]. intros s1 s2 s3 (?&?&?&?&?&?) (?&?&?&?&?&?). split_and!; [congruence..|auto].
Qed.

Lemma nodes_stay_same s s' :
  node_registry s' = node_registry s → node_count s' = node_count s → conns s' = conns s → tasks s' = tasks s → nodes_stay s s'.
Proof. intros E1 E2 E3 E4. unfold nodes_stay, index, authority, phases. rewrite E1, E2, E3, E4. done. Qed.

(** A task goes on that is not the reset; a task is added. *)
Lemma nodes_stay_task s s1 i t t' :
  nodes_stay s s1 → tasks s1 !! i = Some t → t ≠ ResetCount → nodes_stay s (set_task i t' s1).
Proof.
  intros (?&?&?&?&?&Hr) Ht Hne. split_and!; [done..|]. intros Hin. simpl. apply Hr, list_elem_of_lookup in Hin as (j & Hj).
  apply (list_elem_of_lookup_2 _ j). rewrite list_lookup_insert_ne; [done|]. intros ->. congruence.
Qed.
Lemma nodes_stay_spawn s s1 t : nodes_stay s s1 → nodes_stay s (spawn t s1).
Proof. intros (?&?&?&?&?&Hr). split_and!; [done..|]. intros Hin. simpl. apply elem_of_app. auto. Qed.

Lemma same_set_conn s k x x' : conns s !! k = Some x → same_task x x' → nodes_stay s (set_conn k x' s).
Proof.
  intros Hx (Hr & Hro & Hsc). split_and!; [done..| | |done].
  - unfold authority. simpl. rewrite fmap_insert, Hro, Hsc. apply insert_id. by rewrite lookup_fmap, Hx.
  - unfold phases. simpl. rewrite fmap_insert, Hr. apply insert_id. by rewrite lookup_fmap, Hx.
Qed.
Lemma send_same x f : same_task x (send x f).1.
Proof. unfold send, try_send. by destruct (_ && _). Qed.
Lemma try_send_same x f x' : try_send x f = Some x' → same_task x x'.
Proof. unfold try_send. destruct (_ && _); [|done]. by intros [= <-]. Qed.

Lemma nodes_stay_send_where s g f : nodes_stay s (send_where g f s).
Proof.
  assert (Hx : ∀ k x, same_task x (if is_some_and g (clients s !! k) then (send x f).1 else x)).
  { intros k x. destruct (is_some_and _ _); [apply send_same|done]. }
  split_and!; [done..| | |done]; apply map_eq; intros k; unfold authority, phases; simpl;
    rewrite !lookup_fmap, map_lookup_imap; destruct (conns s !! k) as [x|]; try done; simpl; destruct (Hx k x) as (E1 & E2 & E3).
  - by rewrite E2, E3.
  - by rewrite E1.
Qed.
Lemma nodes_stay_broadcast s ev p o : nodes_stay s (broadcast ev p o s).
Proof.
  unfold broadcast. destruct (next_seq s) as [n s1] eqn:En. unfold next_seq in En. simplify_eq.
  etrans; [|apply nodes_stay_send_where]. by apply nodes_stay_same.
Qed.
Lemma nodes_stay_send_to s k f s' b : send_to k f s = (s', b) → nodes_stay s s'.
Proof.
  unfold send_to. destruct (clients s !! k); [|by intros [= <- <-]]. destruct (conns s !! k) as [x|] eqn:Ex; [|by intros [= <- <-]].
  pose proof (send_same x f) as Hr. destruct (send x f) as [x' ok]. intros [= <- <-].
  by apply (same_set_conn _ _ x).
Qed.
Lemma nodes_stay_update s k f : nodes_stay s (update_client k f s).
Proof. unfold update_client. destruct (clients s !! k); by apply nodes_stay_same. Qed.
Lemma nodes_stay_nodes s r :
  key_of <$> nodes r = index s → by_conn r = by_conn (node_registry s) → nodes_stay s (with_nodes s r (node_count s)).
Proof. done. Qed.

Lemma index_insert (m : gmap str NodeSession) i n n' : m !! i = Some n → key_of n' = key_of n → key_of <$> <[i := n']> m = key_of <$> m.
Proof.
  intros Hi Hk. rewrite fmap_insert, Hk. apply insert_id. by rewrite lookup_fmap, Hi.
Qed.

#[local] Hint Resolve nodes_stay_update nodes_stay_broadcast : nodes.
#[local] Hint Extern 1 (nodes_stay _ _) => reflexivity : nodes.

Lemma nodes_stay_rename s i name r :
  rename (node_registry s) i name = Some r → nodes_stay s (with_nodes s r (node_count s)).
Proof.
  intros (n & En & [= <-])%bind_Some. apply nodes_stay_nodes; [|done]. by apply (index_insert _ _ n).
Qed.

Lemma node_invoke_nodes ctx fresh s o s' : node_invoke ctx fresh s = (o, s') → nodes_stay s s'.
Proof.
  unfold node_invoke. intros E. repeat case_match; simplify_eq; try reflexivity.
  match goal with E : next_seq s = _ |- _ => unfold next_seq in E; simplify_eq end. by apply nodes_stay_same.
Qed.

Lemma handler_nodes ctx fresh outcome s o s' : handler ctx fresh outcome s = (o, s') → nodes_stay s s'.
Proof.
  unfold handler, str_eqb. repeat (case_bool_decide as Hm; [try (intros [= <- <-])|clear Hm]).
  - unfold subscribe. repeat case_match; simpl; auto with nodes.
  - unfold unsubscribe. repeat case_match; simpl; auto with nodes.
  - unfold channel_join. repeat case_match; simpl; auto with nodes.
  - unfold channel_leave. repeat case_match; simpl; auto with nodes.
  - unfold node_rename. repeat case_match; simpl; auto with nodes.
    by apply nodes_stay_rename in H1.
  - apply node_invoke_nodes.
  - unfold node_invoke_result. repeat case_match; simpl; auto with nodes; by apply nodes_stay_same.
  - unfold node_event. simpl. etrans; [|apply nodes_stay_broadcast]. case_match; [case_match|]; auto with nodes.
    apply nodes_stay_nodes; unfold update_telemetry; case_match; try done. by eapply index_insert.
  - unfold location_result. repeat case_match; simpl; auto with nodes; by apply nodes_stay_same.
  - intros [= <- <-]. reflexivity.
Qed.

(** What changes the nodes, or the phase of a connection. *)
Definition moves (s : State) (e : Event) : Prop :=
  match e with
  | Connect _ _ _ | Advance _ | Close _ => True
  | Go i => tasks s !! i = Some ClearNodes ∨ tasks s !! i = Some ResetCount
  | _ => False
  end.

Lemma go_nodes s i t s' : tasks s !! i = Some t → t ≠ ClearNodes → t ≠ ResetCount → go i t s = Some s' → nodes_stay s s'.
Proof.
  intros Ht Hc Hr. assert (Hgo : ∀ s1 t', nodes_stay s s1 → tasks s1 = tasks s → nodes_stay s (set_task i t' s1)).
  { intros s1 t' Hs Et. eapply nodes_stay_task; [done| |exact Hr]. by rewrite Et. }
  destruct t as [k id r|k id inv tgt f|k id inv tgt f|k id inv|k id inv|r|r|r| | |]; simpl; try done.
  - destruct (conns s !! k) as [x|] eqn:Ex; [|done]. destruct (is_open x); [|by intros [= <-]; apply Hgo].
    destruct (try_send x (ResponseF id r)) as [x'|] eqn:Es; [|done]. intros [= <-]. apply Hgo; [|done].
    apply (same_set_conn _ _ x); [done|]. by eapply try_send_same.
  - intros [= <-]. by apply Hgo.
  - destruct (send_to tgt f s) as [s1 b] eqn:Es. pose proof (quiet_send_to _ _ _ _ _ Es) as (_ & _ & _ & Et).
    apply nodes_stay_send_to in Es. destruct b; intros [= <-]; by apply Hgo.
  - destruct (answers s !! inv); [|done]. intros [= <-]. by apply Hgo.
  - intros [= <-]. by apply Hgo.
  - intros [= <-]. by apply Hgo.
  - destruct (answers s !! r); [|done]. intros [= <-]. by apply Hgo.
  - intros [= <-]. by apply Hgo.
Qed.

Lemma send_error_nodes s k x p : conns s !! k = Some x → nodes_stay s (send_error k x p s).
Proof.
  intros Hx. unfold send_error. destruct (next_seq s) as [n s1] eqn:En. unfold next_seq in En. simplify_eq.
  destruct (try_send _ _) as [x'|] eqn:E; [|by apply nodes_stay_same]. apply try_send_same in E.
  etrans; [|apply (same_set_conn _ _ x); [|exact E]]; [by apply nodes_stay_same|done].
Qed.

Lemma receive_nodes k x f fresh outcome s : conns s !! k = Some x → nodes_stay s (receive k x f fresh outcome s).
Proof.
  intros Ex. destruct f as [i m p| | |]; simpl; [|done|by apply send_error_nodes..].
  unfold dispatch. simpl. destruct (authorize_method _ _ _); [by apply nodes_stay_spawn|].
  destruct (is_registered m); [|by apply nodes_stay_spawn]. destruct (handler _ _ _ _) as [o s1] eqn:Eh.
  apply handler_nodes in Eh. assert (Hs : nodes_stay s s1) by (etrans; [|exact Eh]; by apply nodes_stay_same).
  destruct o; by apply nodes_stay_spawn.
Qed.

Lemma step_nodes s e s' : step s e = Some s' → ¬ moves s e → nodes_stay s s'.
Proof.
  destruct e as [c role node|k f fresh outcome|i|i|ev p o|k|k|k|reason|k r pr]; simpl; intros E Hm; try done.
  - apply bind_Some in E as (x & Ex & E). destruct (receiving x); [|done]. injection E as <-. by apply receive_nodes.
  - apply bind_Some in E as (t & Et & E). eapply go_nodes; [exact Et| | |exact E]; intros ->; auto.
  - apply bind_Some in E as (t & Et & E). destruct t; try done; simpl in E; destruct (isSome _); simplify_eq;
      by eapply nodes_stay_task.
  - injection E as <-. apply nodes_stay_broadcast.
  - apply bind_Some in E as (x & Ex & E). destruct (outbox x); [done|]. injection E as <-. by apply (same_set_conn _ _ x).
  - injection E as <-. unfold disconnect_all_clients. destruct (next_seq s) as [n s1] eqn:En. unfold next_seq in En. simplify_eq.
    apply nodes_stay_spawn. etrans; [|by apply nodes_stay_same]. etrans; [|apply nodes_stay_send_where]. by apply nodes_stay_same.
  - destruct (send_to _ _ _) as [s1 b] eqn:Es. apply nodes_stay_send_to in Es.
    assert (Hs : nodes_stay s s1) by (etrans; [|exact Es]; by apply nodes_stay_same).
    destruct b; simplify_eq; [|done]. by apply nodes_stay_spawn.
Qed.

(** ** The counter *)

(** Its node is in the registry; in the registry and not counted; counted and not in the registry. *)
Definition attached (p : Phase) : bool := match p with Counting _ | Announcing _ | Serving => true | _ => false end.
Definition is_counting (p : Phase) : bool := match p with Counting _ => true | _ => false end.
Definition is_uncounting (p : Phase) : bool := match p with Uncounting _ => true | _ => false end.

(** How many connections are in such a phase. *)
Definition count_phases (f : Phase → bool) (m : gmap str Phase) : Z :=
  Z.of_nat (size (filter (λ kp : str * Phase, f kp.2 = true) m)).

Lemma count_phases_insert (f : Phase → bool) (m : gmap str Phase) k p :
  count_phases f (<[k := p]> m) = count_phases f (delete k m) + Z.b2z (f p).
Proof.
  unfold count_phases. rewrite <- (insert_delete_eq m k p). destruct (f p) eqn:Ef.
  - rewrite map_filter_insert_True by done. rewrite map_size_insert_None; [simpl; lia|].
    apply map_lookup_filter_None_2. left. apply lookup_delete_eq.
  - rewrite map_filter_insert_False by (simpl; congruence). rewrite delete_delete_eq. simpl. lia.
Qed.
Lemma count_phases_delete (f : Phase → bool) (m : gmap str Phase) k p :
  m !! k = Some p → count_phases f (delete k m) = count_phases f m - Z.b2z (f p).
Proof.
  intros Hk. rewrite <- (insert_id m k p Hk) at 2. rewrite count_phases_insert. lia.
Qed.
Lemma count_phases_none (f : Phase → bool) (m : gmap str Phase) : (∀ k p, m !! k = Some p → f p = false) → count_phases f m = 0.
Proof.
  intros Hf. unfold count_phases. replace (filter _ m) with (∅ : gmap str Phase); [done|]. symmetry.
  apply map_eq. intros k. rewrite lookup_empty. apply map_lookup_filter_None. right. intros p Hk. simpl. by rewrite (Hf k p Hk).
Qed.

(** What the counter is to be: the nodes, with those that are being counted. *)
Definition balance (s : State) : Z :=
  Z.of_nat (size (index s)) + count_phases is_uncounting (phases s) - count_phases is_counting (phases s).

(** The registry of nodes has both directions, over connections that serve them, and is counted. *)
Record NInv (s : State) : Prop := {
  nodes_keyed : ∀ i j k, index s !! i = Some (j, k) →
    j = i ∧ by_conn (node_registry s) !! k = Some i ∧ ∃ p, phases s !! k = Some p ∧ attached p = true;
  conns_keyed : ∀ k i, by_conn (node_registry s) !! k = Some i → index s !! i = Some (i, k);
  registering_own : ∀ k n, phases s !! k = Some (Registering n) → node_conn n = k;
  nodes_counted : ResetCount ∉ tasks s → node_count s = wrap u64_bound (balance s);
}.

Lemma NInv_stay s s' : NInv s → nodes_stay s s' → NInv s'.
Proof.
  intros [H1 H2 H3 H4] (E1 & E2 & E3 & _ & E5 & Ht). unfold balance in *.
  split; unfold balance; rewrite ?E1, ?E2, ?E3, ?E5; try done. auto.
Qed.

(** A connection goes from one phase to another, with the registry and the counter as they are then. *)
Lemma enter_phases k p s : is_Some (phases s !! k) → phases (enter k p s) = <[k := p]> (phases s).
Proof.
  unfold phases. rewrite lookup_fmap, fmap_is_Some. intros [x Hx]. unfold enter. rewrite Hx. simpl. by rewrite fmap_insert.
Qed.
Lemma enter_fields k p s :
  node_registry (enter k p s) = node_registry s ∧ node_count (enter k p s) = node_count s ∧ tasks (enter k p s) = tasks s ∧
  authority (enter k p s) = authority s.
Proof.
  unfold enter. destruct (conns s !! k) as [x|] eqn:Ex; [|done]. split_and!; [done..|]. unfold authority. simpl.
  rewrite fmap_insert. apply insert_id. by rewrite lookup_fmap, Ex.
Qed.

Lemma NInv_enter s s' k p p' :
  NInv s → phases s !! k = Some p → phases s' = <[k := p']> (phases s) → tasks s' = tasks s → (∀ n, p' ≠ Registering n) →
  (∀ i j k', index s' !! i = Some (j, k') → j = i ∧ by_conn (node_registry s') !! k' = Some i ∧
     ((k' = k ∧ attached p' = true) ∨ (k' ≠ k ∧ index s !! i = Some (j, k')))) →
  (∀ k' i, by_conn (node_registry s') !! k' = Some i → index s' !! i = Some (i, k')) →
  (∀ c, node_count s = wrap u64_bound c →
     node_count s' = wrap u64_bound (c + (Z.of_nat (size (index s')) - Z.of_nat (size (index s)))
       + (Z.b2z (is_uncounting p') - Z.b2z (is_uncounting p)) - (Z.b2z (is_counting p') - Z.b2z (is_counting p)))) →
  NInv s'.
Proof.
  intros [H1 H2 H3 H4] Hp Ep Et Hreg Hn Hc Hcount. split.
  - intros i j k' (-> & Hb & Hk)%Hn. split_and!; [done..|]. rewrite Ep. destruct Hk as [[-> Ha]|[Hne Hi]].
    + exists p'. by rewrite lookup_insert_eq.
    + destruct (H1 _ _ _ Hi) as (_ & _ & q & ?). exists q. by rewrite lookup_insert_ne.
  - exact Hc.
  - intros k' n. rewrite Ep, lookup_insert_Some. intros [[_ E]|[_ E]]; [by apply Hreg in E|by apply H3].
  - rewrite Et. intros Hno. rewrite (Hcount _ (H4 Hno)). f_equal. unfold balance. rewrite Ep, !count_phases_insert.
    rewrite !(count_phases_delete _ _ _ _ Hp). lia.
Qed.

(** The registry stays as it is, and the counter follows the phase. *)
Lemma NInv_pass s s' k p p' :
  NInv s → phases s !! k = Some p → phases s' = <[k := p']> (phases s) → tasks s' = tasks s → (∀ n, p' ≠ Registering n) →
  index s' = index s → by_conn (node_registry s') = by_conn (node_registry s) → (attached p = true → attached p' = true) →
  (∀ c, node_count s = wrap u64_bound c → node_count s' = wrap u64_bound (c
       + (Z.b2z (is_uncounting p') - Z.b2z (is_uncounting p)) - (Z.b2z (is_counting p') - Z.b2z (is_counting p)))) →
  NInv s'.
Proof.
  intros Hi Hp Ep Et Hreg Ei Eb Ha Hcount. eapply NInv_enter; [exact Hi|exact Hp|exact Ep|exact Et|exact Hreg| | |].
  - rewrite Ei, Eb. intros i j k' Hij. destruct (nodes_keyed s Hi _ _ _ Hij) as (-> & Hb & q & Hq & Haq). split_and!; [done..|].
    destruct (decide (k' = k)) as [->|Hne]; [left; split; [done|]|by right]. apply Ha. congruence.
  - rewrite Ei, Eb. apply Hi.
  - intros c Hc. rewrite (Hcount c Hc), Ei. f_equal. lia.
Qed.

Lemma wrap_add_l c d : wrap u64_bound (wrap u64_bound c + d) = wrap u64_bound (c + d).
Proof. unfold wrap. apply Zplus_mod_idemp_l. Qed.

Lemma phases_Some s k x : conns s !! k = Some x → phases s !! k = Some (phase x).
Proof. intros Hx. unfold phases. by rewrite lookup_fmap, Hx. Qed.

Lemma NInv_register s k n :
  NInv s → phases s !! k = Some (Registering n) → nodes (node_registry s) !! node_id n = None →
  NInv (enter k (Counting n) (with_nodes s (register (node_registry s) n) (node_count s))).
Proof.
  intros Hi Hk Hn. destruct Hi as [H1 H2 H3 H4]. pose proof (H3 _ _ Hk) as Hown. set (s1 := with_nodes _ _ _).
  assert (Hix : index s !! node_id n = None) by (unfold index; by rewrite lookup_fmap, Hn).
  assert (Ei : index s1 = <[node_id n := key_of n]> (index s)) by (unfold index; simpl; by rewrite fmap_insert).
  assert (Hb : by_conn (node_registry s) !! k = None).
  { destruct (by_conn (node_registry s) !! k) as [i|] eqn:E; [|done]. apply H2, H1 in E as (_ & _ & p & Hp & Ha).
    rewrite Hk in Hp. by injection Hp as <-. }
  destruct (enter_fields k (Counting n) s1) as (Er & Ec & Et & _).
  assert (Ei' : index (enter k (Counting n) s1) = index s1) by (unfold index; by rewrite Er).
  apply (NInv_enter s _ k (Registering n) (Counting n)); rewrite ?Ei', ?Er, ?Ec, ?Et; try done.
  - rewrite enter_phases; [done|]. change (phases s1) with (phases s). by rewrite Hk.
  - rewrite Ei. simpl. intros i j k'. rewrite lookup_insert_Some. intros [[<- [= <- <-]]|[Hne Hij]].
    + rewrite lookup_insert_eq. split_and!; [done..|by left].
    + destruct (H1 _ _ _ Hij) as (-> & Hb' & _). rewrite lookup_insert_ne by congruence. split_and!; [done..|].
      right. split; [congruence|done].
  - rewrite Ei. simpl. intros k' i. rewrite lookup_insert_Some. intros [[<- <-]|[Hne Hb']]; [by rewrite lookup_insert_eq|].
    specialize (H2 _ _ Hb'). rewrite lookup_insert_ne by congruence. done.
  - intros c Hc. rewrite Ei, map_size_insert_None by done. simpl. rewrite Hc. f_equal. lia.
Qed.

Lemma close_NInv s k x : NInv s → conns s !! k = Some x → receiving x = true → NInv (close k s).
Proof.
  intros Hi Hx Hrec. assert (Hk : phases s !! k = Some Serving).
  { rewrite (phases_Some _ _ _ Hx). f_equal. unfold receiving in Hrec. by destruct (phase x). }
  destruct Hi as [H1 H2 H3 H4]. assert (Hi : NInv s) by done. unfold close, unregister_by_conn.
  destruct (by_conn (node_registry s) !! k) as [i|] eqn:Ek.
  - pose proof (H2 _ _ Ek) as Hix. assert (∃ n, nodes (node_registry s) !! i = Some n) as [n Hn].
    { unfold index in Hix. rewrite lookup_fmap, fmap_Some in Hix. destruct Hix as (n & ? & _). eauto. }
    rewrite Hn. set (s1 := with_nodes _ _ _).
    assert (Ei : index s1 = delete i (index s)) by (unfold index; simpl; by rewrite fmap_delete).
    destruct (enter_fields k (Uncounting n) s1) as (Er & Ec & Et & _).
    assert (Ei' : index (enter k (Uncounting n) s1) = index s1) by (unfold index; by rewrite Er).
    apply (NInv_enter s _ k Serving (Uncounting n)); rewrite ?Ei', ?Er, ?Ec, ?Et; try done.
    + rewrite enter_phases; [done|]. change (phases s1) with (phases s). by rewrite Hk.
    + rewrite Ei. simpl. intros i' j k'. rewrite lookup_delete_Some. intros [Hne Hij].
      destruct (H1 _ _ _ Hij) as (-> & Hb & _). rewrite lookup_delete_ne by congruence. split_and!; [done..|].
      right. split; [congruence|done].
    + rewrite Ei. simpl. intros k' i'. rewrite lookup_delete_Some. intros [Hne Hb]. specialize (H2 _ _ Hb).
      rewrite lookup_delete_ne by congruence. done.
    + intros c Hc. rewrite Ei, map_size_delete_Some by eauto. simpl. rewrite Hc. f_equal.
      destruct (size (index s)) eqn:Es; [apply map_size_empty_inv in Es; by rewrite Es, lookup_empty in Hix|lia].
  - set (s1 := with_nodes _ _ _). destruct (enter_fields k Removing s1) as (Er & Ec & Et & _).
    assert (Ei' : index (enter k Removing s1) = index s1) by (unfold index; by rewrite Er).
    apply (NInv_enter s _ k Serving Removing); rewrite ?Ei', ?Er, ?Ec, ?Et; try done.
    + rewrite enter_phases; [done|]. change (phases s1) with (phases s). by rewrite Hk.
    + intros i j k' Hij. destruct (H1 _ _ _ Hij) as (-> & Hb & _). split_and!; [done..|]. right. split; [congruence|done].
    + intros c Hc. change (index s1) with (index s). simpl. rewrite Hc. f_equal. lia.
Qed.

Lemma advance_NInv s k x s' :
  NInv s → conns s !! k = Some x → (∀ n, phase x = Registering n → nodes (node_registry s) !! node_id n = None) →
  advance k x s = Some s' → NInv s'.
Proof.
  intros Hi Hx Hfree. pose proof (phases_Some _ _ _ Hx) as Hk. unfold advance.
  assert (Hpass : ∀ s1 p', nodes_stay (with_nodes s (node_registry s1) (node_count s1)) s1 → tasks s1 = tasks s →
      index s1 = index s → by_conn (node_registry s1) = by_conn (node_registry s) → (∀ n, p' ≠ Registering n) →
      (attached (phase x) = true → attached p' = true) →
      (∀ c, node_count s = wrap u64_bound c → node_count s1 = wrap u64_bound (c
         + (Z.b2z (is_uncounting p') - Z.b2z (is_uncounting (phase x)))
         - (Z.b2z (is_counting p') - Z.b2z (is_counting (phase x))))) → NInv (enter k p' s1)).
  { intros s1 p' (_ & _ & _ & _ & Ep & _) Et Ei Eb Hreg Ha Hc. change (phases s1 = phases s) in Ep.
    destruct (enter_fields k p' s1) as (Er & Ec & Et' & _).
    apply (NInv_pass s _ k (phase x) p'); try done; rewrite ?Er, ?Ec, ?Et'; try done.
    - rewrite enter_phases; [by rewrite Ep|]. by rewrite Ep, Hk.
    - unfold index in *. by rewrite Er. }
  destruct (phase x) as [n|n|n| |n|n| | |] eqn:Ephase; try done; intros [= <-].
  - apply NInv_register; [done|done|by apply Hfree].
  - apply Hpass; try done. intros c Hc. simpl. rewrite Hc, wrap_add_l. f_equal. lia.
  - destruct (nodes_stay_broadcast s "presence" (arrived n) default_opts) as (Ei & Eb & Ec & Ea & Ep & Hr).
    apply Hpass; try done. intros c Hc. rewrite Ec, Hc. f_equal. simpl. lia.
  - apply Hpass; try done. intros c Hc. simpl. rewrite Hc, wrap_add_l. f_equal. lia.
  - destruct (nodes_stay_broadcast s "presence" (gone n) default_opts) as (Ei & Eb & Ec & Ea & Ep & Hr).
    apply Hpass; try done. intros c Hc. rewrite Ec, Hc. f_equal. simpl. lia.
  - apply Hpass; try done. intros c Hc. simpl. rewrite Hc. f_equal. lia.
  - apply (NInv_pass s _ k Dropping Ended); try done; [by unfold phases; simpl; rewrite fmap_insert|].
    intros c Hc. simpl. rewrite Hc. f_equal. lia.
Qed.

Lemma NInv_connect s k x cs :
  NInv s → conns s !! k = None → is_counting (phase x) = false → is_uncounting (phase x) = false →
  (∀ n, phase x = Registering n → node_conn n = k) → NInv (set_conn k x (with_clients s cs)).
Proof.
  intros [H1 H2 H3 H4] Hk Hc Hu Hown. set (s' := set_conn _ _ _).
  assert (Ep : phases s' = <[k := phase x]> (phases s)) by (unfold phases; simpl; by rewrite fmap_insert).
  assert (Hn : phases s !! k = None) by (unfold phases; by rewrite lookup_fmap, Hk). split.
  - intros i j k' (-> & ? & p & Hp & ?)%H1. split_and!; [done..|]. exists p. rewrite Ep, lookup_insert_ne; [done|congruence].
  - exact H2.
  - intros k' n. rewrite Ep, lookup_insert_Some. intros [[<- E]|[_ E]]; auto.
  - intros Hr. change (node_count s') with (node_count s). rewrite (H4 Hr). f_equal. unfold balance.
    change (index s') with (index s). rewrite Ep, !count_phases_insert, !delete_id, Hc, Hu by done. simpl. lia.
Qed.

(** No node of the same identifier is in the registry when one is registered; and when the counter is
    reset, no node is in the registry, being counted or being counted off. *)
Definition settled (s : State) : Prop :=
  nodes (node_registry s) = ∅ ∧ ∀ k x, conns s !! k = Some x → is_counting (phase x) = false ∧ is_uncounting (phase x) = false.
Definition steady (s : State) (e : Event) : Prop :=
  (∀ k x n, e = Advance k → conns s !! k = Some x → phase x = Registering n → nodes (node_registry s) !! node_id n = None) ∧
  (∀ i, e = Go i → tasks s !! i = Some ResetCount → settled s).

Lemma NInv_clear s i : NInv s → tasks s !! i = Some ClearNodes → NInv (set_task i ResetCount (with_nodes s no_nodes (node_count s))).
Proof.
  intros [H1 H2 H3 H4] Ht. split; [by intros ???|by intros ??|exact H3|]. intros Hno. exfalso. apply Hno. simpl.
  apply (list_elem_of_lookup_2 _ i). apply list_lookup_insert_eq. by eapply lookup_lt_Some.
Qed.
Lemma NInv_reset s i : NInv s → settled s → NInv (set_task i Finished (with_nodes s (node_registry s) 0)).
Proof.
  intros [H1 H2 H3 H4] [Hn Hp]. split; [exact H1|exact H2|exact H3|]. intros _.
  unfold balance, index, phases. simpl. rewrite Hn, fmap_empty, map_size_empty.
  rewrite !count_phases_none; [done| |]; intros k p; rewrite lookup_fmap, fmap_Some; intros (x & Hx & ->); by apply (Hp k x).
Qed.

Lemma step_NInv s e s' : NInv s → steady s e → step s e = Some s' → NInv s'.
Proof.
  intros Hi [Hfree Hreset] E. assert (Hstay : ¬ moves s e → NInv s') by (intros; by eapply NInv_stay, step_nodes).
  destruct e as [c role node|k f fresh outcome|i|i|ev p o|k|k|k|reason|k r pr]; try (apply Hstay; by intros ?); simpl in E.
  - destruct (conns s !! conn_id c) eqn:Ec; [done|]. injection E as <-. apply NInv_connect; try done.
    + by destruct node.
    + by destruct node.
    + intros n. destruct node; [|done]. by intros [= <-].
  - apply bind_Some in E as (t & Et & E).
    assert (Ht : t = ClearNodes ∨ t = ResetCount ∨ ¬ moves s (Go i)).
    { destruct t; auto; right; right; simpl; rewrite Et; by intros [?|?]. }
    destruct Ht as [->|[->|Hm]]; [injection E as <-|injection E as <-|by apply Hstay].
    + by apply NInv_clear.
    + apply NInv_reset; [done|]. by apply (Hreset i).
  - apply bind_Some in E as (x & Ex & E). eapply advance_NInv; [done|exact Ex| |exact E]. intros n Hn. by eapply Hfree.
  - apply bind_Some in E as (x & Ex & E). destruct (receiving x) eqn:Er; simplify_eq. by eapply close_NInv.
Qed.

(** ** Where connections and nodes come from *)

Lemma advance_fields s k x s' :
  conns s !! k = Some x → advance k x s = Some s' →
  authority s' = authority s ∧ (∃ p, phases s' = <[k := p]> (phases s) ∧ ∀ n, p ≠ Registering n) ∧
  ∀ i q, index s' !! i = Some q → index s !! i = Some q ∨ ∃ n, phase x = Registering n ∧ i = node_id n ∧ q = key_of n.
Proof.
  intros Hx. pose proof (phases_Some _ _ _ Hx) as Hk. unfold advance.
  assert (Hin : ∀ s1 p, authority s1 = authority s → phases s1 = phases s → (∀ n, p ≠ Registering n) →
      (∀ i q, index s1 !! i = Some q → index s !! i = Some q ∨ ∃ n, phase x = Registering n ∧ i = node_id n ∧ q = key_of n) →
      authority (enter k p s1) = authority s ∧
      (∃ p', phases (enter k p s1) = <[k := p']> (phases s) ∧ ∀ n, p' ≠ Registering n) ∧
      ∀ i q, index (enter k p s1) !! i = Some q →
        index s !! i = Some q ∨ ∃ n, phase x = Registering n ∧ i = node_id n ∧ q = key_of n).
  { intros s1 p Ha Ep Hp Hi. destruct (enter_fields k p s1) as (Er & _ & _ & Ea). split_and!; [congruence| |].
    - exists p. split; [|done]. rewrite enter_phases; rewrite Ep; [done|by rewrite Hk].
    - unfold index in *. by rewrite Er. }
  destruct (phase x) as [n|n|n| |n|n| | |] eqn:Ephase; try done; intros [= <-].
  - apply Hin; try done. intros i q. unfold index. simpl. rewrite fmap_insert, lookup_insert_Some.
    intros [[<- <-]|[_ ?]]; [right; by exists n|by left].
  - apply Hin; first [done | by auto].
  - destruct (nodes_stay_broadcast s "presence" (arrived n) default_opts) as (Ei & _ & _ & Ea & Ep & _).
    apply Hin; try done. rewrite Ei. auto.
  - apply Hin; first [done | by auto].
  - destruct (nodes_stay_broadcast s "presence" (gone n) default_opts) as (Ei & _ & _ & Ea & Ep & _).
    apply Hin; try done. rewrite Ei. auto.
  - apply Hin; first [done | by auto].
  - split_and!; [|exists Ended; split; [by unfold phases; simpl; rewrite fmap_insert|done]|auto].
    unfold authority. simpl. rewrite fmap_insert. apply insert_id. by rewrite lookup_fmap, Hx.
Qed.

Lemma close_fields s k :
  is_Some (phases s !! k) →
  authority (close k s) = authority s ∧ (∃ p, phases (close k s) = <[k := p]> (phases s) ∧ ∀ n, p ≠ Registering n) ∧
  ∀ i q, index (close k s) !! i = Some q → index s !! i = Some q.
Proof.
  intros Hk. unfold close. destruct (unregister_by_conn (node_registry s) k) as [r removed] eqn:Eu.
  set (p := match removed with Some n => Uncounting n | None => Removing end). set (s1 := with_nodes s r (node_count s)).
  destruct (enter_fields k p s1) as (Er & _ & _ & Ea). split_and!; [done| |].
  - exists p. split; [by apply (enter_phases k p s1)|]. unfold p. by destruct removed.
  - unfold index. rewrite Er. simpl. intros i q. unfold unregister_by_conn in Eu.
    destruct (by_conn (node_registry s) !! k) as [j|]; injection Eu as <- _; [|done]. simpl.
    rewrite !lookup_fmap. destruct (decide (j = i)) as [->|Hj]; [by rewrite lookup_delete_eq|by rewrite lookup_delete_ne].
Qed.

(** What a step adds: a connection with the authority it is connected with, about to register the node
    it is connected with; and a node when its connection registers it. *)
Lemma step_origins s e s' :
  step s e = Some s' →
  (∀ k a, authority s !! k = Some a → authority s' !! k = Some a) ∧
  (∀ k a, authority s' !! k = Some a → authority s !! k = Some a ∨
     ∃ c r n, e = Connect c r n ∧ k = conn_id c ∧ a = (r, scopes c)) ∧
  (∀ k n, phases s' !! k = Some (Registering n) → phases s !! k = Some (Registering n) ∨
     ∃ c r ni, e = Connect c r (Some ni) ∧ k = conn_id c ∧ n = session_of c ni) ∧
  (∀ i q, index s' !! i = Some q → index s !! i = Some q ∨
     ∃ k n, phases s !! k = Some (Registering n) ∧ i = node_id n ∧ q = key_of n).
Proof.
  intros E. assert (Hstay : ¬ moves s e → _) by (intros Hm; exact (step_nodes _ _ _ E Hm)).
  destruct e as [c role node|k f fresh outcome|i|i|ev p o|k|k|k|reason|k r pr];
    try (destruct Hstay as (Ei & _ & _ & Ea & Ep & _); [by intros ?|]; rewrite Ei, Ea, Ep; split_and!; by auto); simpl in E.
  - destruct (conns s !! conn_id c) eqn:Ec; [done|]. injection E as <-. unfold authority, phases, index. simpl. rewrite !fmap_insert.
    split_and!; simpl; [| | |by auto].
    + intros k a Ha. rewrite lookup_insert_ne; [done|]. intros <-. rewrite lookup_fmap, Ec in Ha. done.
    + intros k a. rewrite lookup_insert_Some. intros [[<- <-]|[_ ?]]; [right; by exists c, role, node|by left].
    + intros k n. rewrite lookup_insert_Some. intros [[<- Hn]|[_ ?]]; [right|by left].
      destruct node as [ni|]; [|done]. injection Hn as <-. by exists c, role, ni.
  - apply bind_Some in E as (t & Et & E). assert (Ht : t = ClearNodes ∨ t = ResetCount ∨ ¬ moves s (Go i)).
    { destruct t; auto; right; right; simpl; rewrite Et; by intros [?|?]. }
    destruct Ht as [->|[->|Hm]]; [injection E as <-; split_and!; auto; by intros ??|injection E as <-; split_and!; by auto|].
    destruct (Hstay Hm) as (Ei & _ & _ & Ea & Ep & _). rewrite Ei, Ea, Ep. split_and!; by auto.
  - apply bind_Some in E as (x & Ex & E). destruct (advance_fields _ _ _ _ Ex E) as (Ea & (p & Ep & Hp) & Hi).
    rewrite Ea, Ep. split_and!; [by auto..| |].
    + intros k' n. rewrite lookup_insert_Some. intros [[_ Hn]|[_ ?]]; [by apply Hp in Hn|by left].
    + intros i q [?|(n & Hn & -> & ->)]%Hi; [by left|right]. exists k, n. by rewrite (phases_Some _ _ _ Ex), Hn.
  - apply bind_Some in E as (x & Ex & E). destruct (receiving x); simplify_eq.
    destruct (close_fields s k) as (Ea & (p & Ep & Hp) & Hi); [by rewrite (phases_Some _ _ _ Ex)|].
    rewrite Ea, Ep. split_and!; [by auto..| |by auto].
    intros k' n. rewrite lookup_insert_Some. intros [[_ Hn]|[_ ?]]; [by apply Hp in Hn|by left].
Qed.

(** C24. The registry of nodes and its counter follow the connections.  However connections, calls,
    renames, telemetry and the steps of connecting, closing and disconnecting everyone interleave, as
    long as no node registers under an identifier that is still in the registry, and the counter is not
    reset while a node is in the registry or about to be counted or counted off: a node is found by its
    identifier just when its connection finds it; that connection has registered it and has not left its
    message loop, so an invocation goes to a task that reads it; and whenever no reset is due, the
    counter that [exec] asks whether there are nodes is the number of nodes, without those about to be
    counted and with those about to be counted off. *)
Theorem nodes_consistent s :
  reached steady s →
  (∀ i n, nodes (node_registry s) !! i = Some n →
     node_id n = i ∧ by_conn (node_registry s) !! node_conn n = Some i ∧
     ∃ x, conns s !! node_conn n = Some x ∧ attached (phase x) = true) ∧
  (∀ k i, by_conn (node_registry s) !! k = Some i → ∃ n, nodes (node_registry s) !! i = Some n ∧ node_conn n = k) ∧
  (ResetCount ∉ tasks s →
   node_count s = wrap u64_bound (Z.of_nat (size (nodes (node_registry s)))
     - count_phases is_counting (phases s) + count_phases is_uncounting (phases s))).
Proof.
  intros Hr. assert (Hi : NInv s).
  { induction Hr as [|s e s' _ IH Hs E]; [by split|]. by eapply step_NInv. }
  destruct Hi as [H1 H2 H3 H4]. split_and!.
  - intros i n Hn. destruct (H1 i (node_id n) (node_conn n)) as (? & ? & p & Hp & Ha);
      [unfold index; by rewrite lookup_fmap, Hn|]. split_and!; [done..|].
    unfold phases in Hp. rewrite lookup_fmap, fmap_Some in Hp. destruct Hp as (x & Hx & ->). by exists x.
  - intros k i Hk%H2. unfold index in Hk. rewrite lookup_fmap, fmap_Some in Hk. destruct Hk as (n & Hn & [= ? ?]). eauto.
  - intros Hno. rewrite (H4 Hno). unfold balance, index. rewrite map_size_fmap. f_equal. lia.
Qed.

(** A node is asked to execute only what has been checked.  [system.run] is refused; the
    arguments that go out for the structured command are a request again, every variable of its
    environment has a safe name, and it gives up within 28 seconds, before the caller does; the
    arguments of other commands go out as they came. *)
Theorem node_requests_are_checked command a a' :
  validate_invoke_args command a = Ok a' →
  command ≠ lit "system.run" ∧ (command ≠ SYSTEM_EXEC_COMMAND → a' = a) ∧
  (command = SYSTEM_EXEC_COMMAND →
   ∃ r, exec_request_from_value a' = Some r ∧ 1 ≤ timeout_ms r ≤ 28000 ∧
     (∀ k v, (k, v) ∈ env r → is_safe_remote_env_key k = true) ∧
     ∃ r0, exec_request_from_value a = Some r0 ∧ program r = program r0 ∧ args r = args r0 ∧ cwd r = cwd r0 ∧ env r = env r0).
Proof.
  unfold validate_invoke_args, str_eqb. case_bool_decide as Hl; [done|]. case_bool_decide as Hc; simpl.
  - destruct (exec_request_from_value a) as [r0|]; [|done]. destruct (List.find _ (env r0)) as [[k v]|] eqn:Ef; [done|].
    intros [= <-]. split_and!; [done..|]. intros _. rewrite exec_request_roundtrip. eexists. split; [done|]. split_and!; simpl.
    + unfold clamp. repeat case_match; lia.
    + unfold clamp. repeat case_match; lia.
    + intros k v Hkv%list_elem_of_In. pose proof (find_none _ _ Ef _ Hkv) as Hn. simpl in Hn. by apply negb_false_iff in Hn.
    + by exists r0.
  - intros [= <-]. by split_and!.
Qed.

End methods.

(** * Runs *)

Definition srv (m : str) : bool := str_eqb m "health".
Notation gstep := (step (λ _, []) (λ x, x) srv).
Notation greached := (reached (λ _, []) (λ x, x) srv).

Fixpoint run (ok : State → Event → bool) (es : list Event) (s : State) : option State :=
  match es with
  | [] => Some s
  | e :: es => if ok s e then gstep s e ≫= run ok es else None
  end.
Definition anyb (_ : State) (_ : Event) : bool := true.
Definition settledb (s : State) : bool :=
  bool_decide (nodes (node_registry s) = ∅) &&
  forallb (λ kx, negb (is_counting (phase kx.2)) && negb (is_uncounting (phase kx.2))) (map_to_list (conns s)).
Definition steadyb (s : State) (e : Event) : bool :=
  match e with
  | Advance k =>
      match phase <$> conns s !! k with Some (Registering n) => negb (isSome (nodes (node_registry s) !! node_id n)) | _ => true end
  | Go i => match tasks s !! i with Some ResetCount => settledb s | _ => true end
  | _ => true
  end.

Lemma run_reached (okb : State → Event → bool) (ok : State → Event → Prop) es s :
  (∀ s e, okb s e = true → ok s e) → run okb es init = Some s → greached ok s.
Proof.
  intros Hok. cut (∀ s0, greached ok s0 → run okb es s0 = Some s → greached ok s).
  { intros H. apply H. constructor. }
  induction es as [|e es IH]; intros s0 Hr; simpl; [by intros [= <-]|]. destruct (okb s0 e) eqn:Ho; [|done].
  intros (s1 & E & Hs)%bind_Some. eapply IH; [|exact Hs]. eapply reached_step; eauto.
Qed.
Lemma run_any es s : run anyb es init = Some s → greached any_event s.
Proof. by apply run_reached. Qed.
Lemma settledb_settled s : settledb s = true → settled s.
Proof.
  intros [Hn%bool_decide_eq_true Hf]%andb_true_iff. split; [done|]. intros k x Hx. rewrite forallb_forall in Hf.
  assert (Hin : In (k, x) (map_to_list (conns s))) by by apply list_elem_of_In, elem_of_map_to_list.
  specialize (Hf _ Hin). simpl in Hf. by destruct (phase x).
Qed.
Lemma run_steady es s : run steadyb es init = Some s → greached steady s.
Proof.
  apply run_reached. intros s0 e Hb. split.
  - intros k x n -> Hx Hp. simpl in Hb. rewrite Hx in Hb. simpl in Hb. rewrite Hp in Hb. by destruct (nodes _ !! _).
  - intros i -> Ht. simpl in Hb. rewrite Ht in Hb. by apply settledb_settled.
Qed.

Definition client (k : string) (scs : list str) : ConnectedClient :=
  {| conn_id := k; scopes := scs; subscriptions := None; session_filter := None; payload_state_filter := None;
     joined_channels := ∅ |}.
Definition phone : NodeInfo :=
  {| info_id := "phone"; info_name := None; info_platform := "ios"; info_commands := [lit "camera.snap"] |}.
Definition none_result : MethodResult := Ok JNull.
Definition call (k i m : string) (p : list (string * json)) (fresh : string) : Event :=
  Receive (lit k) (Request i m (Some (obj p))) fresh none_result.

Definition joins (c : ConnectedClient) (n : NodeInfo) : list Event :=
  Connect c Roles.NODE (Some n) :: replicate 3 (Advance (conn_id c)).
Definition leaves (k : str) (n : nat) : list Event := Close k :: replicate n (Advance k).

(** An operator and a node; the operator invokes the node, which answers. *)
Definition an_invocation : list Event :=
  [Connect (client "op" [Scopes.ADMIN]) Roles.OPERATOR None] ++ joins (client "n" []) phone ++
  [call "op" "1" "node.invoke" [("nodeId", JString "phone"); ("command", JString "camera.snap")]%string "inv";
   Go 0; Go 0;
   call "n" "2" "node.invoke.result" [("invokeId", JString "inv"); ("result", JString "jpeg")]%string ""].
Definition after (es : list Event) : State := unwrap_or init (run anyb es init).

Definition outbox_of (s : State) (k : string) : list Frame :=
  match conns s !! lit k with Some x => outbox x | None => [] end.

Example invocation_answered :
  let s := after (an_invocation ++ [Go 0; Go 0]) in
  answers s !! lit "inv" = Some (JString "jpeg") ∧ pending_invokes s = ∅ ∧
  last (outbox_of s "op") = Some (ResponseF "1" (Ok (JString "jpeg"))).
Proof. split_and!; vm_compute; reflexivity. Qed.

(** An operator who may write, but not invoke a node, answers the invocation in its place. *)
Definition a_forgery : list Event :=
  take 8 an_invocation ++
  [Connect (client "w" [Scopes.WRITE]) Roles.OPERATOR None;
   call "w" "2" "location.result" [("requestId", JString "inv"); ("location", JString "here")]%string ""].
Example operator_answers_for_node :
  let s := after (a_forgery ++ [Go 0; Go 0]) in
  last (outbox_of s "op") = Some (ResponseF "1" (Ok (obj [("location", JString "here")]%string))).
Proof. vm_compute. reflexivity. Qed.

(** A node that is back before its old connection has gone is lost with the old connection, and
    the counter stays above zero for ever. *)
Definition a_reconnection : list Event := joins (client "a" []) phone ++ joins (client "b" []) phone ++ leaves (lit "a") 4.
Example reconnect_loses_node :
  let s := after a_reconnection in
  nodes (node_registry s) = ∅ ∧ node_count s = 1 ∧ (receiving <$> conns s !! lit "b") = Some true ∧
  let s := after (a_reconnection ++ leaves (lit "b") 2) in
  nodes (node_registry s) = ∅ ∧ node_count s = 1 ∧ (phase <$> conns s !! lit "b") = Some Ended.
Proof. by vm_compute. Qed.

(** A node that connects between the two last steps of disconnecting everyone is in the registry but
    not in the counter, so [exec] is told that there is none; when it leaves the counter wraps. *)
Definition a_race : list Event := [DisconnectAll "password changed"; Go 0] ++ joins (client "n" []) phone ++ [Go 0].
Example reset_forgets_a_node :
  let s := after a_race in size (nodes (node_registry s)) = 1%nat ∧ node_count s = 0 ∧
  let s := after (a_race ++ leaves (lit "n") 4) in nodes (node_registry s) = ∅ ∧ node_count s = u64_bound - 1.
Proof. by vm_compute. Qed.

(** A node that has registered and is counted after the reset stays counted for ever. *)
Definition a_late_count : list Event :=
  [Connect (client "n" []) Roles.NODE (Some phone); Advance "n"; DisconnectAll "password changed"; Go 0; Go 0] ++
  [Advance "n"; Advance "n"] ++ leaves (lit "n") 2.
Example reset_before_count :
  let s := after a_late_count in nodes (node_registry s) = ∅ ∧ node_count s = 1 ∧ (phase <$> conns s !! lit "n") = Some Ended.
Proof. by vm_compute. Qed.

(** An answer to a request for the location that comes before the request is registered is
    refused, and the request waits in vain. *)
Example early_location_is_lost :
  let s := after [Connect (client "op" [Scopes.WRITE]) Roles.OPERATOR None; LocationRequest (lit "op") (lit "r") JNull;
                  call "op" "1" "location.result" [("requestId", JString "r"); ("location", JString "here")]%string "";
                  Go 0] in
  tasks s !! 0%nat = Some (LocationWait "r") ∧ answers s = ∅ ∧
  tasks s !! 1%nat = Some (Respond "op" "1" (invalid "no pending location request for this id")).
Proof. split_and!; vm_compute; reflexivity. Qed.

(** * Witnesses *)

Definition ctx_result : MethodContext :=
  {| request_id := "2"; method := "node.invoke.result";
     params := obj [("invokeId", JString "inv"); ("result", JString "jpeg")]%string;
     client_conn_id := "n"; client_role := Roles.NODE; client_scopes := [] |}.

Lemma calls_are_authorized_witness :
  let s := after an_invocation in
  ctx_result ∈ handled s ∧ authorize_method (method ctx_result) (client_role ctx_result) (client_scopes ctx_result) = None ∧
  ∃ x, conns s !! client_conn_id ctx_result = Some x ∧ c_role x = client_role ctx_result ∧ c_scopes x = client_scopes ctx_result.
Proof.
  intros s. assert (Hin : ctx_result ∈ handled s) by (apply (list_elem_of_lookup_2 _ 1%nat); vm_compute; reflexivity).
  split; [exact Hin|].
  apply (calls_are_authorized (λ _, []) (λ x, x) srv s ctx_result); [|exact Hin].
  apply (run_any an_invocation). vm_compute. reflexivity.
Defined.

Lemma answers_have_authors_witness :
  let s := after an_invocation in
  ∃ c, c ∈ completed s ∧ invoke_of c = lit "inv" ∧ value c = JString "jpeg" ∧ by_call c ∈ handled s ∧
    let ctx := by_call c in
    (method ctx = lit "node.invoke.result" ∧ client_role ctx = Roles.NODE ∧ expected c = Some (client_conn_id ctx)) ∨
    (method ctx = lit "location.result" ∧ client_role ctx = Roles.OPERATOR ∧
     (Scopes.ADMIN ∈ client_scopes ctx ∨ Scopes.WRITE ∈ client_scopes ctx)).
Proof.
  intros s. apply (answers_have_authors (λ _, []) (λ x, x) srv s (lit "inv") (JString "jpeg")).
  - apply (run_any an_invocation). vm_compute. reflexivity.
  - vm_compute. reflexivity.
Defined.

(** An approval that is asked for reaches the client with the scope, and not the other. *)
Definition an_approval : list Event :=
  [Connect (client "a" [Scopes.APPROVALS]) Roles.OPERATOR None; Connect (client "r" [Scopes.READ]) Roles.OPERATOR None;
   Broadcast "exec.approval.requested" (JObject []) default_opts].
Definition approval_event : EventFrame :=
  {| event := "exec.approval.requested"; payload := JObject []; ev_seq := 1; ev_stream := None; ev_done := None;
     ev_channel := None |}.
Definition approver : Conn :=
  {| c_role := Roles.OPERATOR; c_scopes := [Scopes.APPROVALS]; outbox := [EventF approval_event]; written := [];
     phase := Serving; delivery_failures := 0 |}.
Example approval_reaches_approver :
  let s := after an_approval in outbox_of s "a" = [EventF approval_event] ∧ outbox_of s "r" = [].
Proof. split_and!; vm_compute; reflexivity. Qed.

Lemma guarded_events_need_scope_witness :
  conns (after an_approval) !! lit "a" = Some approver ∧
  (Scopes.ADMIN ∈ c_scopes approver ∨ ∃ scope, scope ∈ [Scopes.APPROVALS] ∧ scope ∈ c_scopes approver).
Proof.
  assert (Hx : conns (after an_approval) !! lit "a" = Some approver) by (vm_compute; reflexivity). split; [exact Hx|].
  apply (guarded_events_need_scope (λ _, []) (λ x, x) srv (after an_approval) (lit "a") approver approval_event).
  - apply (run_any an_approval). vm_compute. reflexivity.
  - exact Hx.
  - left.
  - vm_compute. reflexivity.
Defined.

Definition reader : Conn :=
  {| c_role := Roles.OPERATOR; c_scopes := [Scopes.READ]; outbox := []; written := []; phase := Serving;
     delivery_failures := 0 |}.
Definition a_reader : State := after [Connect (client "r" [Scopes.READ]) Roles.OPERATOR None].

Lemma disconnect_all_keeps_serving_witness :
  ∃ s1 s2 x1, steps (λ _, []) (λ x, x) srv (disconnecting "password changed" a_reader) a_reader = Some s1 ∧ clients s1 = ∅ ∧ nodes (node_registry s1) = ∅ ∧
    conns s1 !! lit "r" = Some x1 ∧ receiving x1 = true ∧
    gstep s1 (Receive (lit "r") (Request "1" "health" None) [] none_result) = Some s2 ∧
    handled s2 = handled a_reader ++
      [{| request_id := "1"; method := "health"; params := JNull; client_conn_id := "r"; client_role := c_role reader;
          client_scopes := c_scopes reader |}].
Proof.
  apply (disconnect_all_keeps_serving (λ _, []) (λ x, x) srv a_reader "password changed" "r" reader "1" "health" None).
  - vm_compute. reflexivity.
  - reflexivity.
  - vm_compute. reflexivity.
  - vm_compute. reflexivity.
Defined.

Definition a_busy_day : list Event :=
  an_invocation ++ [Connect (client "m" []) Roles.NODE (Some {| info_id := "tablet"; info_name := None; info_platform := "ios";
    info_commands := [] |}); Advance "m"; Close "n"].
Lemma nodes_consistent_witness :
  let s := after a_busy_day in
  size (nodes (node_registry s)) = 1%nat ∧ count_phases is_counting (phases s) = 1 ∧
  count_phases is_uncounting (phases s) = 1 ∧ node_count s = 1 ∧
  (∀ i n, nodes (node_registry s) !! i = Some n →
     node_id n = i ∧ by_conn (node_registry s) !! node_conn n = Some i ∧
     ∃ x, conns s !! node_conn n = Some x ∧ attached (phase x) = true) ∧
  (∀ k i, by_conn (node_registry s) !! k = Some i → ∃ n, nodes (node_registry s) !! i = Some n ∧ node_conn n = k) ∧
  (ResetCount ∉ tasks s →
   node_count s = wrap u64_bound (Z.of_nat (size (nodes (node_registry s)))
     - count_phases is_counting (phases s) + count_phases is_uncounting (phases s))).
Proof.
  split; [vm_compute; reflexivity|]. split; [vm_compute; reflexivity|]. split; [vm_compute; reflexivity|].
  split; [vm_compute; reflexivity|]. apply (nodes_consistent (λ _, []) (λ x, x) srv).
  apply (run_steady a_busy_day). vm_compute. reflexivity.
Defined.

Definition an_exec : json :=
  obj [("program", JString "ls"); ("env", obj [("LC_ALL", JString "C")]); ("timeoutMs", JNumber (PosInt 60000))]%string.
Lemma node_requests_are_checked_witness :
  let a' := obj [("program", JString "ls"); ("args", JArray []); ("env", obj [("LC_ALL", JString "C")]);
                 ("timeoutMs", JNumber (PosInt 28000))]%string in
  SYSTEM_EXEC_COMMAND ≠ lit "system.run" ∧ (SYSTEM_EXEC_COMMAND ≠ SYSTEM_EXEC_COMMAND → a' = an_exec) ∧
  (SYSTEM_EXEC_COMMAND = SYSTEM_EXEC_COMMAND →
   ∃ r, exec_request_from_value a' = Some r ∧ 1 ≤ timeout_ms r ≤ 28000 ∧
     (∀ k v, (k, v) ∈ env r → is_safe_remote_env_key k = true) ∧
     ∃ r0, exec_request_from_value an_exec = Some r0 ∧ program r = program r0 ∧ args r = args r0 ∧ cwd r = cwd r0 ∧ env r = env r0).
Proof.
  intros a'. apply (node_requests_are_checked (λ _, []) SYSTEM_EXEC_COMMAND an_exec a'). vm_compute. reflexivity.
Defined.
