(* ===== verification/WsConnect.v ===== *)
(** The handshake of a WebSocket: what role and what scopes a connection gets, and for what.

    Models the first phase of [handle_connection] in [crates/httpd/src/ws.rs], the parameters of
    [connect] in [crates/protocol/src/types.rs], and the upgrade with its check of the origin in
    [crates/httpd/src/server/handlers.rs].  It uses the pairing store ([Pairing]), the credential
    store ([Credentials]), the authentication of headers ([HttpAuth]), and hands what it grants to
    the message loop ([Gateway]).

    A handshake is a task among others: whatever it reads, from the tables, the wire, the clock and
    the random generator, comes from a list of observations, one by one; between two of them anything
    may have happened, and every statement may fail.  [run] goes through that list; when it is empty
    the task is gone.

    Theorem: authority is earned ([authority_is_earned]).  What that means for the calls of a connection
    and for the registry of nodes is in [World].  Not modelled: the answer to [connect], which
    only tells what was granted, the time zone that is remembered, and the discovery of providers. *)
From S2P Require Import Prelude Float64 Json Utf8 ToolArgs Http Prog Rpc.
From S2P Require Throttle Pairing Credentials HttpAuth Gateway.
Local Open Scope Z_scope.

(** * Parameters of a connection *)

Record ConnectAuth := {
  token : option str;
  password : option str;
  api_key : option str;
  device_token : option str;
  public_key : option str;
}.
Record ClientInfo := { client_id : str; display_name : option str; platform : str }.

(** What a client sends about itself and nothing here reads is left out. *)
Record ConnectParams := {
  min_protocol : Z;
  max_protocol : Z;
  client : ClientInfo;
  caps : option (list str);
  commands : option (list str);
  role : option str;
  auth : option ConnectAuth;
}.
Record ConnectParamsV4 := {
  protocol_min : Z;
  protocol_max : Z;
  v4_client : ClientInfo;
  v4_role : option str;
  v4_auth : option ConnectAuth;
  extensions : list (str * json);
}.
Definition PROTOCOL_VERSION : Z := 4.

Definition into_connect_params (v : ConnectParamsV4) : ConnectParams :=
  let moltis := assoc (lit "moltis") (extensions v) in
  let list_of k := m ← moltis; a ← Json.get k m; Gateway.string_vec a in
  {| min_protocol := protocol_min v; max_protocol := protocol_max v; client := v4_client v;
     caps := list_of (lit "caps"); commands := list_of (lit "commands"); role := v4_role v; auth := v4_auth v |}.

(** serde's decoders of frames and of the two formats. *)
Inductive FirstFrame := RequestFrame (id method : str) (params : option json) | AnotherFrame.
Class Decode := {
  decode_frame : str → result FirstFrame str;
  decode_v4 : json → option ConnectParamsV4;
  decode_v3 : json → result ConnectParams str;
}.

(** * A task *)

Inductive Incoming :=
| Text (t : str)
| Ping
| Pong
| Binary
| CloseFrame
| ReadError (e : str)
| EndOfStream
| Late.                        (** nothing before the timeout *)

Inductive Obs :=
| PairDb (s : Pairing.DB) (fault : option str)
| CredDb (s : Credentials.CredentialStore) (fault : option str)
| HeaderAuth (e : Credentials.env) (session_fault key_fault : bool) (s : Credentials.CredentialStore)
| PairingEnabled (b : bool)
| Nonce (n : list Z)
| Ids (e : Pairing.env)
| Wire (m : Incoming)
| Tick (elapsed_ms : Z).

(** What goes out: to the client, and to those who listen. *)
Inductive Out := ToClient (event : str) (payload : json) | ToListeners (event : str) (payload : json).

Inductive Stopped := Refused (e : ErrorShape) | Dropped (why : str) | Gone.

Record Run := {
  todo : list Obs;
  seen : list Obs;
  writes : list (Pairing.DB * Pairing.DB);      (** the tables before and after each statement *)
  out : list Out;
}.
Definition start (tr : list Obs) : Run := {| todo := tr; seen := []; writes := []; out := [] |}.

Inductive flow (A : Type) := Go (a : A) | Stop (o : Stopped).
Arguments Go {A} a.
Arguments Stop {A} o.
Definition M (A : Type) : Type := Run → flow A * Run.
Global Instance M_ret : MRet M := λ A a w, (Go a, w).
Global Instance M_bind : MBind M := λ A B k m w,
  match m w with (Go a, w') => k a w' | (Stop o, w') => (Stop o, w') end.
Definition stop {A} (o : Stopped) : M A := λ w, (Stop o, w).
Definition refuse {A} (code message : str) : M A := stop (Refused (error code message)).
Definition emit (o : Out) : M unit := λ w,
  (Go tt, {| todo := todo w; seen := seen w; writes := writes w; out := out w ++ [o] |}).

Definition next : M Obs := λ w,
  match todo w with
  | [] => (Stop Gone, w)
  | o :: tr => (Go o, {| todo := tr; seen := seen w ++ [o]; writes := writes w; out := out w |})
  end.
Definition wrote (p : Pairing.DB * Pairing.DB) : M unit := λ w,
  (Go tt, {| todo := todo w; seen := seen w; writes := writes w ++ [p]; out := out w |}).

Definition nonce : M (list Z) := o ← next; match o with Nonce n => mret n | _ => stop Gone end.
Definition ids : M Pairing.env := o ← next; match o with Ids e => mret e | _ => stop Gone end.
Definition wire : M Incoming := o ← next; match o with Wire m => mret m | _ => stop Gone end.
Definition tick : M Z := o ← next; match o with Tick t => mret t | _ => stop Gone end.
Definition pairing_enabled : M bool := o ← next; match o with PairingEnabled b => mret b | _ => stop Gone end.

(** A method of the pairing store, statement by statement. *)
Fixpoint paired {A} (p : Prog.prog Pairing.DB Pairing.Error A) : M (result A Pairing.Error) :=
  match p with
  | Done r => mret r
  | Query q k =>
      o ← next;
      match o with
      | PairDb s (Some e) => _ ← wrote (s, s); mret (Err (Pairing.Db e))
      | PairDb s None =>
          match q s with
          | (Ok b, s') => _ ← wrote (s, s'); paired (k b)
          | (Err e, _) => _ ← wrote (s, s); mret (Err (Pairing.Db e))
          end
      | _ => stop Gone
      end
  end.

(** A method of the credential store that only reads, and the flag it keeps in memory. *)
Fixpoint credential {A} (p : Prog.prog Credentials.CredentialStore Credentials.Error A) : M (result A Credentials.Error) :=
  match p with
  | Done r => mret r
  | Query q k =>
      o ← next;
      match o with
      | CredDb s (Some e) => mret (Err (Credentials.Database e))
      | CredDb s None => match q s with (Ok b, _) => credential (k b) | (Err e, _) => mret (Err (Credentials.Database e)) end
      | _ => stop Gone
      end
  end.
Definition is_setup_complete : M bool :=
  o ← next; match o with CredDb s _ => mret (Credentials.setup_complete s) | _ => stop Gone end.

(** * The handshake *)

Record ConnectResult := { request_id : str; params : ConnectParams; is_v4 : bool }.

(** What the gateway is configured with. *)
Record Server := {
  has_pairing_store : bool;
  has_credential_store : bool;
  legacy_token : option str;
  legacy_password : option str;
}.

(** The variables of the authentication: whether it has succeeded, the scopes of the credential if it
    has scopes, and the node. *)
Record Auth := { authenticated : bool; api_key_scopes : option (list str); device : option str }.

Definition dash : str := lit " " ++ [8212%N] ++ lit " ".
Definition NODE_SCOPES : list str := [Scopes.READ; Scopes.WRITE; Scopes.APPROVALS].
Definition FULL_SCOPES : list str := [Scopes.ADMIN; Scopes.READ; Scopes.WRITE; Scopes.APPROVALS; Scopes.PAIRING].

Definition resolve_connection_role (requested : option str) (device_authenticated : bool) : result str ErrorShape :=
  if device_authenticated then
    if is_some_and (λ r, negb (str_eqb r Roles.NODE)) requested
    then Err (error Codes.FORBIDDEN "node credentials cannot request a non-node role")
    else Ok Roles.NODE
  else if bool_decide (requested = Some Roles.NODE)
  then Err (error Codes.FORBIDDEN "node role requires node credentials")
  else Ok (unwrap_or Roles.OPERATOR requested).

Definition validate_node_identity (authenticated_id : option str) (client_id : str) : result unit ErrorShape :=
  if is_some_and (λ i, negb (str_eqb i client_id)) authenticated_id
  then Err (error Codes.FORBIDDEN "authenticated node identity does not match client id")
  else Ok tt.

Section handshake.
Context `{SerdeJson, Decode, Pairing.Ed25519, Pairing.Kit, Credentials.Crypto}.

Definition connect_params (raw : json) (id : str) : result ConnectResult str :=
  match decode_v4 raw with
  | Some v4 => Ok {| request_id := id; params := into_connect_params v4; is_v4 := true |}
  | None =>
      match decode_v3 raw with
      | Ok p => Ok {| request_id := id; params := p; is_v4 := false |}
      | Err e => Err e
      end
  end.

(** One message of the loop: [None] to wait for the next one. *)
Definition first_message (m : Incoming) : option (result ConnectResult str) :=
  match m with
  | Text t =>
      Some match decode_frame t with
      | Err e => Err e
      | Ok (RequestFrame id method params) =>
          if negb (str_eqb method "connect")
          then Err (lit "first message must be 'connect', got '" ++ method ++ lit "'")
          else connect_params (unwrap_or JNull params) id
      | Ok AnotherFrame => Err (lit "first message must be a request frame")
      end
  | CloseFrame | EndOfStream => Some (Err (lit "connection closed before handshake"))
  | ReadError e => Some (Err e)
  | Late => Some (Err (lit "handshake timeout"))
  | Ping | Pong | Binary => None
  end.

(** Each round of a loop takes an observation, so that their number is enough fuel: without any the
    task is gone. *)
Definition fuelled {A} (loop : nat → M A) : M A := λ w, loop (S (length (todo w))) w.

Fixpoint wait_for_connect_fuel (fuel : nat) : M (result ConnectResult str) :=
  match fuel with
  | O => stop Gone
  | S fuel => m ← wire; match first_message m with Some r => mret r | None => wait_for_connect_fuel fuel end
  end.
Definition wait_for_connect : M (result ConnectResult str) := fuelled wait_for_connect_fuel.

(** One message of the loop that waits for the answer to a challenge. *)
Definition challenge_answer (m : Incoming) : option (result str str) :=
  match m with
  | Text t =>
      match from_str t with
      | Err _ => None
      | Ok frame =>
          if negb (str_eqb (unwrap_or [] (Json.get "method" frame ≫= as_str)) "node.auth.challenge-response") then None
          else Some (ok_or (lit "challenge-response missing signature")
                       (p ← Json.get "params" frame; s ← Json.get "signature" p; as_str s))
      end
  | Ping | Pong => None
  | Binary | CloseFrame => Some (Err (lit "unexpected binary message"))
  | ReadError e => Some (Err (lit "websocket error: " ++ e))
  | EndOfStream => Some (Err (lit "connection closed"))
  | Late => Some (Err (lit "challenge-response timeout"))
  end.
Fixpoint receive_challenge_response_fuel (fuel : nat) : M (result str str) :=
  match fuel with
  | O => stop Gone
  | S fuel => m ← wire; match challenge_answer m with Some r => mret r | None => receive_challenge_response_fuel fuel end
  end.
Definition receive_challenge_response : M (result str str) := fuelled receive_challenge_response_fuel.

Inductive PairOutcome := PairApproved | PairRejected | PairExpired.
Definition pair_outcome (r : result (option Pairing.PairStatus) Pairing.Error) : option PairOutcome :=
  match r with
  | Ok (Some Pairing.Approved) => Some PairApproved
  | Ok (Some Pairing.Rejected) => Some PairRejected
  | Ok (Some Pairing.Expired) | Ok None => Some PairExpired
  | Ok (Some Pairing.Pending) | Err _ => None
  end.
Definition PAIR_TIMEOUT_MS : Z := 300000.
Fixpoint wait_for_pair_approval_fuel (fuel : nat) (pair_id : str) : M PairOutcome :=
  match fuel with
  | O => stop Gone
  | S fuel =>
      elapsed ← tick;
      if PAIR_TIMEOUT_MS <=? elapsed then mret PairExpired
      else
        status ← paired (Pairing.get_pair_status pair_id);
        match pair_outcome status with Some r => mret r | None => wait_for_pair_approval_fuel fuel pair_id end
  end.
Definition wait_for_pair_approval (pair_id : str) : M PairOutcome :=
  fuelled (λ fuel, wait_for_pair_approval_fuel fuel pair_id).

(** A fresh challenge, and the authentication of [device] if the answer is its signature. *)
Definition challenge (pk dev : str) (failed_answer failed_signature : str) : M Auth :=
  n ← nonce;
  _ ← emit (ToClient "node.auth.challenge" (Gateway.obj [("nonce", JString (Pairing.base64_encode n))]%string));
  answer ← receive_challenge_response;
  match answer with
  | Ok sig =>
      match Pairing.verify_ed25519_challenge pk n sig with
      | Ok true => mret {| authenticated := true; api_key_scopes := Some NODE_SCOPES; device := Some dev |}
      | Ok false | Err _ => refuse Codes.FORBIDDEN failed_signature
      end
  | Err _ => refuse Codes.FORBIDDEN failed_answer
  end.

Definition credential_of (p : ConnectParams) (f : ConnectAuth → option str) : option str := auth p ≫= f.

Definition null_or (o : option str) : json := match o with Some s => JString s | None => JNull end.

(** A key nobody has: a request to pair, the wait for an operator, and then the challenge. *)
Definition pair_key (p : ConnectParams) (pk fingerprint : str) : M Auth :=
  let dev := client_id (client p) in
  e ← ids;
  requested ← paired (Pairing.request_pair e dev (display_name (client p)) (platform (client p)) (Some pk));
  match requested with
  | Ok r =>
      _ ← emit (ToListeners "node.pair.requested"
            (Gateway.obj [("id", JString (Pairing.id r)); ("deviceId", JString dev);
                          ("displayName", null_or (display_name (client p))); ("platform", JString (platform (client p)));
                          ("fingerprint", JString fingerprint)]%string));
      _ ← emit (ToClient "node.pair.pending"
            (Gateway.obj [("pairId", JString (Pairing.id r)); ("fingerprint", JString fingerprint)]%string));
      outcome ← wait_for_pair_approval (Pairing.id r);
      match outcome with
      | PairApproved =>
          challenge pk dev "challenge-response failed after approval" "challenge-response verification failed after approval"
      | PairRejected => refuse Codes.FORBIDDEN "pairing request rejected"
      | PairExpired => refuse Codes.TIMEOUT "pairing request expired"
      end
  | Err _ => refuse Codes.INTERNAL "failed to create pairing request"
  end.

Definition mismatch_message (expected_fp fp : str) : str :=
  lit "key mismatch: expected " ++ expected_fp ++ lit ", got " ++ fp ++ dash ++
  lit "re-key this node from the gateway UI if intentional".
Definition fingerprint_or (pk : str) : str :=
  match Pairing.public_key_fingerprint pk with Ok fp => fp | Err _ => "unknown" end.

(** ** The ways to authenticate, in turn *)

Definition key_auth (srv : Server) (p : ConnectParams) (a : Auth) : M Auth :=
  match credential_of p public_key with
  | Some pk =>
      if authenticated a || negb (has_pairing_store srv) then mret a
      else match Pairing.public_key_fingerprint pk with
      | Err _ => refuse Codes.INVALID_REQUEST "invalid Ed25519 public key"
      | Ok fingerprint =>
          revoked ← paired (Pairing.is_public_key_revoked pk);
          if match revoked with Ok b => b | Err _ => false end
          then refuse Codes.FORBIDDEN "public key has been revoked"
          else
            pinning ← paired (Pairing.check_key_pinning (client_id (client p)) pk);
            match pinning with
            | Ok Pairing.KeyRevoked =>
                refuse Codes.FORBIDDEN (lit "device has been revoked" ++ dash ++ lit "contact the gateway operator")
            | Ok (Pairing.KeyMismatch expected) =>
                _ ← emit (ToListeners "node.security.key-mismatch"
                      (Gateway.obj [("deviceId", JString (client_id (client p)));
                                    ("displayName", null_or (display_name (client p)));
                                    ("expectedFingerprint", JString (fingerprint_or expected));
                                    ("presentedFingerprint", JString fingerprint)]%string));
                refuse Codes.FORBIDDEN (mismatch_message (fingerprint_or expected) fingerprint)
            | Ok Pairing.Match | Ok Pairing.NoPinnedKey | Err _ =>
                known ← paired (Pairing.find_device_by_public_key pk);
                match known with
                | Ok (Some d) =>
                    challenge pk (Pairing.pd_device_id d) "challenge-response failed" "challenge-response verification failed"
                | Ok None =>
                    if is_some_and is_nonempty (credential_of p device_token) then mret a
                    else
                      enabled ← pairing_enabled;
                      if negb enabled
                      then refuse Codes.FORBIDDEN
                             (lit "node pairing is disabled" ++ dash ++ lit "enable it from the gateway UI or CLI")
                      else pair_key p pk fingerprint
                | Err _ => mret a
                end
            end
      end
  | None => mret a
  end.

(** The pinning of the key that came with the token, on the way from tokens to keys. *)
Definition pin_with_token (dev pk : str) : M unit :=
  pinned ← paired (Pairing.pin_public_key dev pk);
  match pinned with
  | Ok Pairing.Pinned | Ok Pairing.AlreadyPinned => mret tt
  | Ok (Pairing.PinMismatch expected) =>
      refuse Codes.FORBIDDEN (mismatch_message (fingerprint_or expected) (fingerprint_or pk))
  | Ok Pairing.PinRevoked | Ok Pairing.PinDeviceNotFound => refuse Codes.FORBIDDEN "device is not active for key pinning"
  | Err _ => refuse Codes.INTERNAL "failed to pin public key during token auth"
  end.

Definition token_auth (srv : Server) (p : ConnectParams) (a : Auth) : M Auth :=
  match credential_of p device_token with
  | Some dt =>
      if authenticated a || negb (has_pairing_store srv) then mret a
      else
        verified ← paired (Pairing.verify_device_token dt);
        match verified with
        | Ok (Some v) =>
            _ ← match credential_of p public_key with
                | Some pk => pin_with_token (Pairing.verified_device v) pk
                | None => mret tt
                end;
            mret {| authenticated := true; api_key_scopes := Some (Pairing.verified_scopes v);
                    device := Some (Pairing.verified_device v) |}
        | Ok None | Err _ => mret a
        end
  | None => mret a
  end.

Definition api_key_auth (p : ConnectParams) (a : Auth) : M Auth :=
  match credential_of p api_key with
  | Some k =>
      verified ← credential (Credentials.verify_api_key k);
      match verified with
      | Ok (Some v) =>
          mret {| authenticated := true; api_key_scopes := Some (Credentials.v_scopes v); device := device a |}
      | Ok None | Err _ => mret a
      end
  | None => mret a
  end.
Definition as_authenticated (a : Auth) : Auth :=
  {| authenticated := true; api_key_scopes := api_key_scopes a; device := device a |}.
Definition password_auth (p : ConnectParams) (a : Auth) : M Auth :=
  match credential_of p password with
  | Some pw =>
      if authenticated a then mret a
      else
        verified ← credential (Credentials.verify_password pw);
        match verified with Ok true => mret (as_authenticated a) | Ok false | Err _ => mret a end
  | None => mret a
  end.

Definition credential_auth (srv : Server) (is_local : bool) (p : ConnectParams) (a : Auth) : M Auth :=
  if authenticated a || negb (has_credential_store srv) then mret a
  else
    complete ← is_setup_complete;
    if (complete : bool) then (a ← api_key_auth p a; password_auth p a)
    else mret (if is_local then as_authenticated a else a).

Definition legacy_auth (srv : Server) (p : ConnectParams) (a : Auth) : Auth :=
  if authenticated a then a
  else if isSome (legacy_token srv) || isSome (legacy_password srv) then
    if Credentials.Legacy.ok
         (Credentials.Legacy.authorize_connect (Credentials.Legacy.resolve_auth (legacy_token srv) (legacy_password srv))
            (credential_of p token) (credential_of p password))
    then as_authenticated a else a
  else if negb (has_credential_store srv) then as_authenticated a
  else a.

(** ** The whole *)

(** What a connection is registered with. *)
Record Granted := {
  granted_role : str;
  granted_scopes : list str;
  granted_client : ConnectResult;
}.

Definition grant (c : ConnectResult) (a : Auth) : M Granted :=
  let p := params c in
  if negb (authenticated a) then refuse Codes.UNAUTHORIZED "authentication failed"
  else match validate_node_identity (device a) (client_id (client p)) with
  | Err e => stop (Refused e)
  | Ok _ =>
      match resolve_connection_role (role p) (isSome (device a)) with
      | Err e => stop (Refused e)
      | Ok r =>
          let granted sc := mret {| granted_role := r; granted_scopes := sc; granted_client := c |} in
          if isSome (device a) then granted []
          else match api_key_scopes a with
          | Some sc =>
              if is_nonempty sc then granted sc
              else refuse Codes.FORBIDDEN
                     (lit "API key has no scopes" ++ dash ++ lit "specify at least one scope when creating the key")
          | None => granted FULL_SCOPES
          end
      end
  end.

(** The client as it is registered; a client of the older format gets all events. *)
Definition connected_client (conn : str) (g : Granted) : Gateway.ConnectedClient :=
  {| Gateway.conn_id := conn; Gateway.scopes := granted_scopes g;
     Gateway.subscriptions := if is_v4 (granted_client g) then Some ∅ else None;
     Gateway.session_filter := None; Gateway.payload_state_filter := None; Gateway.joined_channels := ∅ |}.
Definition node_info (g : Granted) : option Gateway.NodeInfo :=
  let p := params (granted_client g) in
  if str_eqb (granted_role g) Roles.NODE then
    Some {| Gateway.info_id := client_id (client p); Gateway.info_name := display_name (client p);
            Gateway.info_platform := platform (client p); Gateway.info_commands := unwrap_or [] (commands p) |}
  else None.

Definition from_header (i : option Credentials.AuthIdentity) : Auth :=
  {| authenticated := isSome i;
     api_key_scopes :=
       match i with
       | Some i => if bool_decide (Credentials.method i = Credentials.ApiKey) then Some (Credentials.scopes i) else None
       | None => None
       end;
     device := None |}.

Definition handshake (srv : Server) (is_local : bool) (header_identity : option Credentials.AuthIdentity) : M Granted :=
  first ← wait_for_connect;
  match first with
  | Err e => stop (Dropped e)
  | Ok c =>
      let p := params c in
      if (PROTOCOL_VERSION <? min_protocol p) || (max_protocol p <? PROTOCOL_VERSION)
      then refuse Codes.PROTOCOL_ERROR
             (lit "protocol mismatch: server=" ++ show_Z PROTOCOL_VERSION ++ lit ", client=" ++
              show_Z (min_protocol p) ++ lit "-" ++ show_Z (max_protocol p))
      else
        a ← key_auth srv p (from_header header_identity);
        a ← token_auth srv p a;
        a ← credential_auth srv is_local p a;
        grant c (legacy_auth srv p a)
  end.

Definition websocket_header_authenticate (srv : Server) (h : headers) (is_local : bool)
    : M (option Credentials.AuthIdentity) :=
  if negb (has_credential_store srv) then mret None
  else
    o ← next;
    match o with
    | HeaderAuth e session_fault key_fault s =>
        mret match HttpAuth.check_auth e session_fault key_fault s h is_local with
             | HttpAuth.Allowed i => Some i
             | HttpAuth.SetupRequired | HttpAuth.Unauthorized => None
             end
    | _ => stop Gone
    end.
End handshake.

(** * The upgrade *)

(** The pieces before and after the first separator, as [split] and [next] give them. *)
Definition first_piece (sep s : str) : str := match find sep s with Some i => take i s | None => s end.
Definition second_piece (sep s : str) : option str := i ← find sep s; Some (first_piece sep (drop (i + length sep) s)).

Definition default_port_for_scheme (scheme : str) : option str :=
  if str_eqb scheme "http" || str_eqb scheme "ws" then Some (lit "80")
  else if str_eqb scheme "https" || str_eqb scheme "wss" then Some (lit "443")
  else None.
Definition strip_port (h : str) : str :=
  if starts_with "[" h then
    trim_end_matches (N.eqb (ch "]")) (trim_start_matches (N.eqb (ch "["))
      match Throttle.Locality.rsplit_once_str "]:" h with Some (addr, _) => addr | None => h end)
  else match rsplit_once (ch ":") h with Some (addr, _) => addr | None => h end.
Definition get_port (h : str) : option str :=
  if starts_with "[" h then snd <$> Throttle.Locality.rsplit_once_str "]:" h else snd <$> rsplit_once (ch ":") h.
Definition is_loopback_name (h : str) : bool :=
  str_eqb h "localhost" || str_eqb h "127.0.0.1" || str_eqb h "::1" || ends_with ".localhost" h.

Definition origin_scheme (origin : str) : str := to_ascii_lowercase (first_piece "://" origin).
Definition origin_host (origin : str) : str := first_piece "/" (unwrap_or origin (second_piece "://" origin)).
Definition is_same_origin (origin host : str) : bool :=
  let scheme := origin_scheme origin in
  let origin_port := or_else (get_port (origin_host origin)) (default_port_for_scheme scheme) in
  let host_port := or_else (get_port host) (default_port_for_scheme scheme) in
  let oh := strip_port (origin_host origin) in
  let hh := strip_port host in
  (str_eqb oh hh || (is_loopback_name oh && is_loopback_name hh)) && bool_decide (origin_port = host_port).

Definition nonempty_trimmed (s : str) : option str := if is_nonempty (trim s) then Some (trim s) else None.
Definition websocket_origin_host (h : headers) (behind_proxy : bool) : option str :=
  let host := header_str "host" h ≫= nonempty_trimmed in
  if negb behind_proxy then host
  else or_else (v ← header_str "x-forwarded-host" h; p ← head (split (ch ",") v); nonempty_trimmed p) host.

Definition origin_allowed (c : HttpAuth.config) (h : headers) : bool :=
  match header_str "origin" h with
  | Some origin => is_same_origin origin (unwrap_or [] (websocket_origin_host h (HttpAuth.behind_proxy c)))
  | None => true
  end.
Definition is_local (c : HttpAuth.config) (h : headers) (peer : IpAddr) : bool :=
  Throttle.Locality.is_local_connection h peer (HttpAuth.behind_proxy c) (HttpAuth.trust_docker_loopback c).

Section upgrade.
Context `{SerdeJson, Decode, Pairing.Ed25519, Pairing.Kit, Credentials.Crypto}.

Definition ws_upgrade_handler (c : HttpAuth.config) (srv : Server) (h : headers) (peer : IpAddr) : M Granted :=
  if negb (origin_allowed c h) then stop (Dropped (lit "cross-origin WebSocket connections are not allowed"))
  else
    let local := is_local c h peer in
    i ← websocket_header_authenticate srv h local;
    handshake srv local i.

(** The scopes of a call over HTTP. *)
Definition rpc_scopes (i : option Credentials.AuthIdentity) : list str :=
  match i with
  | Some i => if bool_decide (Credentials.method i = Credentials.ApiKey) then Credentials.scopes i else FULL_SCOPES
  | None => FULL_SCOPES
  end.

(** * What was earned *)

Definition credential_shown (p : ConnectParams) (f : ConnectAuth → option str) (v : str) : Prop := credential_of p f = Some v.

(** A statement of the pairing store saw the tables in state [s]. *)
Definition saw (w : Run) (s : Pairing.DB) : Prop := ∃ s', (s, s') ∈ writes w.

(** The answer to a challenge of this handshake: a signature, with the key, of a nonce drawn for it. *)
Definition signed (w : Run) (pk : str) : Prop :=
  ∃ n sig t frame, Nonce n ∈ seen w ∧ Wire (Text t) ∈ seen w ∧ from_str t = Ok frame ∧
    challenge_answer (Text t) = Some (Ok sig) ∧ Pairing.verify_ed25519_challenge pk n sig = Ok true.

(** Why a connection is the node [i]. *)
Inductive node_proof (w : Run) (p : ConnectParams) (i : str) : Prop :=
| by_key pk s row :                       (** an active device has the key *)
    credential_shown p public_key pk → saw w s → Pairing.paired_devices s !! i = Some row →
    Pairing.is_active row = true → Pairing.d_public_key row = Some pk → signed w pk → node_proof w p i
| by_approval pk s pid row :              (** an operator approved the request for the device and the key *)
    credential_shown p public_key pk → saw w s → Pairing.pair_requests s !! pid = Some row →
    Pairing.r_status row = lit "approved" → Pairing.r_device_id row = i → Pairing.r_public_key row = Some pk →
    signed w pk → node_proof w p i
| by_token dt s s' row d :                (** an active device has the token, and it is not revoked *)
    credential_shown p device_token dt → saw w s → Pairing.device_tokens s !! Pairing.sha256_hex dt = Some row →
    Pairing.t_revoked row = false → Pairing.t_device_id row = i →
    saw w s' → Pairing.paired_devices s' !! i = Some d → Pairing.is_active d = true → node_proof w p i.

(** A credential of a client, and the scopes that it gives. *)
Inductive client_proof (w : Run) (srv : Server) (h : headers) (local : bool) (p : ConnectParams) : list str → Prop :=
| by_session e f1 f2 s :
    HeaderAuth e f1 f2 s ∈ seen w → HttpAuth.shows_session e s h → client_proof w srv h local p FULL_SCOPES
| by_header_key e f1 f2 s sc :
    HeaderAuth e f1 f2 s ∈ seen w → HttpAuth.shows_key s h sc → sc ≠ [] → client_proof w srv h local p sc
| by_api_key k s row sc :
    credential_shown p api_key k → CredDb s None ∈ seen w → row ∈ Credentials.api_keys s →
    Credentials.revoked_at row = None → Credentials.key_matches k row = true →
    sc = unwrap_or [] (j ← Credentials.key_scopes row; Credentials.parse_strings j) → sc ≠ [] →
    client_proof w srv h local p sc
| by_password pw s hash :
    credential_shown p password pw → CredDb s None ∈ seen w → Credentials.password_hash s = Some hash →
    Credentials.verify_hash pw hash = true → client_proof w srv h local p FULL_SCOPES
| by_legacy_password expected pw :
    legacy_password srv = Some expected → credential_shown p password pw → as_bytes pw = as_bytes expected →
    client_proof w srv h local p FULL_SCOPES
| by_legacy_token expected t :
    legacy_password srv = None → legacy_token srv = Some expected → credential_shown p token t →
    as_bytes t = as_bytes expected → client_proof w srv h local p FULL_SCOPES.

(** Where no credential is asked for: a local connection while the store of credentials has nothing to
    protect, turned off or not set up, and any connection to a gateway without store, token and password. *)
Inductive unguarded (w : Run) (srv : Server) (local : bool) : Prop :=
| by_open_store e f1 f2 s :
    HeaderAuth e f1 f2 s ∈ seen w → HttpAuth.open_store s → local = true → unguarded w srv local
| by_no_setup s f :
    CredDb s f ∈ seen w → Credentials.setup_complete s = false → local = true → unguarded w srv local
| by_nothing_configured :
    has_credential_store srv = false → legacy_token srv = None → legacy_password srv = None → unguarded w srv local.

(** Why a client has its scopes. *)
Definition client_right (w : Run) (srv : Server) (h : headers) (local : bool) (p : ConnectParams) (sc : list str) : Prop :=
  client_proof w srv h local p sc ∨ (unguarded w srv local ∧ sc = FULL_SCOPES).

Definition earned (w : Run) (srv : Server) (h : headers) (local : bool) (g : Granted) : Prop :=
  let p := params (granted_client g) in
  if str_eqb (granted_role g) Roles.NODE
  then granted_scopes g = [] ∧ node_proof w p (client_id (client p))
  else granted_role g = unwrap_or Roles.OPERATOR (role p) ∧ client_right w srv h local p (granted_scopes g).

(** Between two statements of the task only statements of the pairing store change its tables: the
    tables of the second come about from those of the first by whatever all statements do. *)
Definition evolves (s s' : Pairing.DB) : Prop :=
  ∀ P : relation Pairing.DB, PreOrder P → (∀ e o, all_statements P (Pairing.body e o)) → P s s'.
Fixpoint chained (s : Pairing.DB) (l : list (Pairing.DB * Pairing.DB)) : Prop :=
  match l with [] => True | (a, b) :: l => evolves s a ∧ chained b l end.
Definition coherent (w : Run) : Prop :=
  match writes w with [] => True | (_, b) :: l => chained b l end.

(** * Facts *)

Local Arguments lit : simpl never.

(** A task only adds to what it has seen and to its statements. *)
Definition grows (w w' : Run) : Prop := seen w `prefix_of` seen w' ∧ writes w `prefix_of` writes w'.
Global Instance grows_preorder : PreOrder grows.
Proof. split; [by split|]. intros w1 w2 w3 [] []. split; by etrans. Qed.

Definition mono {A} (m : M A) : Prop := ∀ w f w', m w = (f, w') → grows w w'.

Lemma mono_ret {A} (a : A) : mono (mret a).
Proof. by intros w f w' [= _ <-]. Qed.
Lemma mono_stop {A} o : mono (stop (A := A) o).
Proof. by intros w f w' [= _ <-]. Qed.
Lemma mono_bind {A B} (m : M A) (k : A → M B) : mono m → (∀ a, mono (k a)) → mono (m ≫= k).
Proof.
  intros Hm Hk w f w' E. unfold mbind, M_bind in E. destruct (m w) as [[a|o] w1] eqn:Em.
  - etrans; [by eapply Hm|by eapply Hk].
  - injection E as _ <-. by eapply Hm.
Qed.
Lemma mono_emit o : mono (emit o).
Proof. by intros w f w' [= _ <-]. Qed.
Lemma mono_wrote p : mono (wrote p).
Proof. intros w f w' [= _ <-]. split; simpl; [done|by apply prefix_app_r]. Qed.
Lemma mono_next : mono next.
Proof.
  intros w f w'. unfold next. destruct (todo w); intros [= _ <-]; [done|]. split; simpl; [by apply prefix_app_r|done].
Qed.
Lemma mono_fuelled {A} (loop : nat → M A) : (∀ n, mono (loop n)) → mono (fuelled loop).
Proof. intros Hl w f w'. apply Hl. Qed.

Lemma bind_Go {A B} (m : M A) (k : A → M B) w b w' :
  (m ≫= k) w = (Go b, w') → ∃ a w1, m w = (Go a, w1) ∧ k a w1 = (Go b, w').
Proof. unfold mbind, M_bind. destruct (m w) as [[a|o] w1]; [eauto|done]. Qed.

Ltac grow_with tac :=
  repeat first
    [ solve [tac] | apply mono_bind; [|intros ?] | apply mono_ret | apply mono_stop | apply mono_emit | apply mono_wrote | apply mono_next
    | progress cbv beta zeta
    | match goal with |- mono (match ?x with _ => _ end) => destruct x end ].

Lemma mono_paired {A} (p : Prog.prog Pairing.DB Pairing.Error A) : mono (paired p).
Proof. induction p as [r|B q k IH]; simpl; grow_with ltac:(apply IH). Qed.
Lemma mono_credential {A} (p : Prog.prog Credentials.CredentialStore Credentials.Error A) : mono (credential p).
Proof. induction p as [r|B q k IH]; simpl; grow_with ltac:(apply IH). Qed.
Ltac grow := grow_with ltac:(first [apply mono_paired | apply mono_credential]).

Lemma mono_nonce : mono nonce.
Proof. unfold nonce. grow. Qed.
Lemma mono_wire : mono wire.
Proof. unfold wire. grow. Qed.
Lemma mono_wait_for_connect : mono wait_for_connect.
Proof.
  apply mono_fuelled. intros n. induction n as [|n IH]; simpl; [apply mono_stop|].
  grow_with ltac:(first [apply mono_wire | apply IH]).
Qed.
Lemma mono_receive_challenge_response : mono receive_challenge_response.
Proof.
  apply mono_fuelled. intros n. induction n as [|n IH]; simpl; [apply mono_stop|].
  grow_with ltac:(first [apply mono_wire | apply IH]).
Qed.
Lemma mono_wait_for_pair_approval i : mono (wait_for_pair_approval i).
Proof.
  apply mono_fuelled. intros n. induction n as [|n IH]; simpl; [apply mono_stop|].
  unfold tick. grow_with ltac:(first [apply mono_paired | apply IH]).
Qed.
Lemma mono_challenge pk dev e1 e2 : mono (challenge pk dev e1 e2).
Proof. unfold challenge, refuse. grow_with ltac:(first [apply mono_nonce | apply mono_receive_challenge_response]). Qed.
Lemma mono_pair_key p pk fp : mono (pair_key p pk fp).
Proof.
  unfold pair_key, refuse, ids.
  grow_with ltac:(first [apply mono_paired | apply mono_wait_for_pair_approval | apply mono_challenge]).
Qed.
Lemma mono_key_auth srv p a : mono (key_auth srv p a).
Proof.
  unfold key_auth, refuse, pairing_enabled.
  grow_with ltac:(first [apply mono_paired | apply mono_pair_key | apply mono_challenge]).
Qed.
Lemma mono_pin_with_token dev pk : mono (pin_with_token dev pk).
Proof. unfold pin_with_token, refuse. grow. Qed.
Lemma mono_token_auth srv p a : mono (token_auth srv p a).
Proof. unfold token_auth. grow_with ltac:(first [apply mono_paired | apply mono_pin_with_token]). Qed.
Lemma mono_api_key_auth p a : mono (api_key_auth p a).
Proof. unfold api_key_auth. grow. Qed.
Lemma mono_password_auth p a : mono (password_auth p a).
Proof. unfold password_auth. grow. Qed.
Lemma mono_credential_auth srv local p a : mono (credential_auth srv local p a).
Proof.
  unfold credential_auth, is_setup_complete. grow_with ltac:(first [apply mono_api_key_auth | apply mono_password_auth]).
Qed.
Lemma mono_grant c a : mono (grant c a).
Proof. unfold grant, refuse. grow. Qed.

(** What the statements of a call saw and wrote. *)
Fixpoint steps {A} (p : Prog.prog Pairing.DB Pairing.Error A) (l : list (Pairing.DB * Pairing.DB))
    (r : result A Pairing.Error) : Prop :=
  match p with
  | Done r0 => l = [] ∧ r = r0
  | Query q k =>
      (∃ s e, l = [(s, s)] ∧ r = Err (Pairing.Db e)) ∨
      (∃ s b s' l', l = (s, s') :: l' ∧ q s = (Ok b, s') ∧ steps (k b) l' r)
  end.

Lemma paired_steps {A} (p : Prog.prog Pairing.DB Pairing.Error A) w r w' :
  paired p w = (Go r, w') → ∃ l, writes w' = writes w ++ l ∧ steps p l r.
Proof.
  revert w. induction p as [r0|B q k IH]; intros w; simpl.
  - intros [= <- <-]. exists []. by rewrite app_nil_r.
  - intros (o & w1 & Eo & E)%bind_Go. assert (Hw : writes w1 = writes w).
    { unfold next in Eo. destruct (todo w); simplify_eq. done. }
    rewrite <- Hw. destruct o as [s [e|]| | | | | | |]; try done.
    + apply bind_Go in E as (? & w2 & [= <- <-] & [= <- <-]). simpl. eexists. split; [done|left; eauto].
    + destruct (q s) as [[b|e] s'] eqn:Eq.
      * apply bind_Go in E as (? & w2 & [= <- <-] & E). apply IH in E as (l & -> & Hl). simpl.
        exists ((s, s') :: l). rewrite <- app_assoc. split; [done|right]. eauto 10.
      * apply bind_Go in E as (? & w2 & [= <- <-] & [= <- <-]). simpl. eexists. split; [done|left; eauto].
Qed.

Lemma saw_new w w' l s s' : writes w' = writes w ++ l → (s, s') ∈ l → saw w' s.
Proof. intros E Hs. exists s'. rewrite E. apply elem_of_app. by right. Qed.

(** ** The methods of the pairing store, as a task sees them *)

Lemma device_with_key_Some pk f s i row :
  Pairing.device_with_key pk f s = Some (i, row) →
  Pairing.paired_devices s !! i = Some row ∧ Pairing.d_public_key row = Some pk ∧ f row = true.
Proof.
  unfold Pairing.device_with_key. intros E. apply head_Some_elem_of, list_elem_of_filter in E as [Hf Hin].
  apply andb_true_iff in Hf as [Hk Hf]. apply bool_decide_eq_true in Hk. by apply elem_of_map_to_list in Hin.
Qed.

Lemma find_device_steps pk l d :
  steps (Pairing.find_device_by_public_key pk) l (Ok (Some d)) →
  ∃ s row, l = [(s, s)] ∧ Pairing.paired_devices s !! Pairing.pd_device_id d = Some row ∧
    Pairing.is_active row = true ∧ Pairing.d_public_key row = Some pk.
Proof.
  simpl. intros [(? & ? & _ & ?)|(s & b & s' & l' & -> & [= <- <-] & -> & [= E])]; [done|].
  destruct (Pairing.device_with_key pk Pairing.is_active s) as [[i row]|] eqn:Ed; [|done].
  apply device_with_key_Some in Ed as (? & ? & ?). simpl in E. simplify_eq. by exists s, row.
Qed.

Lemma pair_status_steps i l r : steps (Pairing.get_pair_status i) l r → ∃ s, l = [(s, s)].
Proof. simpl. intros [(s & ? & -> & _)|(s & b & s' & l' & -> & [= <- <-] & -> & _)]; eauto. Qed.
Lemma pair_approved_steps i l r :
  steps (Pairing.get_pair_status i) l r → pair_outcome r = Some PairApproved →
  ∃ s row, l = [(s, s)] ∧ Pairing.pair_requests s !! i = Some row ∧ Pairing.r_status row = lit "approved".
Proof.
  simpl. intros [(s & e & -> & ->)|(s & b & s' & l' & -> & [= <- <-] & -> & ->)]; [done|]. simpl.
  destruct (Pairing.pair_requests s !! i) as [row|] eqn:Er; [|done]. simpl. intros Ho. exists s, row. split_and!; try done.
  unfold Pairing.from_str in Ho. destruct (str_eqb (Pairing.r_status row) "approved") eqn:Es; [by apply str_eqb_true in Es|].
  by repeat case_match.
Qed.

Lemma request_steps e dev name plat key l r :
  steps (Pairing.request_pair e dev name plat key) l (Ok r) →
  ∃ s s' row, l = [(s, s')] ∧ Pairing.pair_requests s' !! Pairing.id r = Some row ∧ Pairing.r_device_id row = dev ∧
    Pairing.r_public_key row = key.
Proof.
  simpl. intros [(? & ? & _ & ?)|(s & b & s' & l' & -> & Hq & -> & [= ->])]; [done|]. simpl.
  unfold Pairing.insert_pair_request in Hq. destruct (Pairing.insert_new _ _ _) as [t|] eqn:Ei; [|done].
  apply Pairing.insert_new_Ok in Ei as [_ ->]. injection Hq as _ <-. eexists s, _, _. split; [done|]. simpl.
  split; [apply lookup_insert_eq|]. by split.
Qed.

Lemma verify_steps dt l v :
  steps (Pairing.verify_device_token dt) l (Ok (Some v)) →
  ∃ s s' row d, (s, s) ∈ l ∧ (s', s') ∈ l ∧ Pairing.device_tokens s !! Pairing.sha256_hex dt = Some row ∧
    Pairing.t_revoked row = false ∧ Pairing.t_device_id row = Pairing.verified_device v ∧
    Pairing.paired_devices s' !! Pairing.verified_device v = Some d ∧ Pairing.is_active d = true.
Proof.
  simpl. intros [(? & ? & _ & ?)|(s & b & s1 & l' & -> & [= <- <-] & E)]; [done|].
  destruct (Pairing.device_tokens s !! Pairing.sha256_hex dt) as [row|] eqn:Er; [|by destruct E].
  destruct (Pairing.t_revoked row) eqn:Ev; [by destruct E|].
  destruct E as [(? & ? & _ & ?)|(s' & b & s2 & l2 & -> & [= <- <-] & E)]; [done|].
  destruct (Pairing.paired_devices s' !! Pairing.t_device_id row) as [d|] eqn:Ed; [|by destruct E].
  destruct (Pairing.is_active d) eqn:Ea; [|by destruct E]. simpl in E. destruct E as [-> [= ->]]. simpl.
  exists s, s', row, d. split_and!; try done; set_solver.
Qed.

(** ** How the tables evolve *)

Lemma evolves_run e o f s : evolves s (Prog.run Pairing.Db (Pairing.body e o) f s).2.
Proof.
  intros P HP Hall. destruct (Prog.run Pairing.Db (Pairing.body e o) f s) as [r s'] eqn:E.
  exact (run_statements Pairing.Db P _ _ _ _ _ (Hall e o) E).
Qed.
Lemma evolves_refl s : evolves s s.
Proof. intros P HP _. reflexivity. Qed.
Lemma evolves_trans s1 s2 s3 : evolves s1 s2 → evolves s2 s3 → evolves s1 s3.
Proof. intros H1' H2' P HP Hall. etrans; [by apply H1'|by apply H2']. Qed.

(** ** A request keeps its device and its key *)

Lemma evolves_requests s s' : evolves s s' → Pairing.requests_keep s s'.
Proof. intros He. apply (He Pairing.requests_keep); [apply _|apply Pairing.body_requests_keep]. Qed.

(** Polls, which change nothing, and then a statement that sees [s1]. *)
Definition polls (l : list (Pairing.DB * Pairing.DB)) : Prop := Forall (λ p, p.1 = p.2) l.

Lemma chained_app s l1 l2 : chained s (l1 ++ l2) → chained s l1.
Proof. revert s. induction l1 as [|[a b] l1 IH]; intros s; simpl; [done|]. intros [? ?]. eauto. Qed.
Lemma chained_polls s l s1 s2 : polls l → chained s (l ++ [(s1, s2)]) → Pairing.requests_keep s s1.
Proof.
  intros Hp. revert s. induction Hp as [|[a b] l Hab Hp IH]; intros s; simpl; intros [He Hc].
  - by apply evolves_requests.
  - simpl in Hab. subst b. etrans; [by apply evolves_requests|by apply IH].
Qed.

Lemma coherent_prefix w w' : writes w `prefix_of` writes w' → coherent w' → coherent w.
Proof.
  intros [l E]. unfold coherent. rewrite E. destruct (writes w) as [|[a b] l1]; [done|]. apply chained_app.
Qed.
Lemma coherent_grows w w' : grows w w' → coherent w' → coherent w.
Proof. intros [_ Hw]. by apply coherent_prefix. Qed.

Lemma chained_after s l1 a b l2 : chained s (l1 ++ (a, b) :: l2) → chained b l2.
Proof. revert s. induction l1 as [|[c d] l1 IH]; intros s; simpl; intros [? ?]; eauto. Qed.
Lemma coherent_after w a b l1 l2 : coherent w → writes w = l1 ++ (a, b) :: l2 → chained b l2.
Proof.
  unfold coherent. intros Hc E. rewrite E in Hc. destruct l1 as [|[c d] l1]; simpl in Hc; [done|]. by eapply chained_after.
Qed.

Lemma wait_writes i w w' :
  wait_for_pair_approval i w = (Go PairApproved, w') →
  ∃ l s row, writes w' = writes w ++ l ++ [(s, s)] ∧ polls l ∧ Pairing.pair_requests s !! i = Some row ∧
    Pairing.r_status row = lit "approved".
Proof.
  unfold wait_for_pair_approval, fuelled. generalize (S (length (todo w))) as n. intros n.
  revert w. induction n as [|n IH]; intros w; cbn [wait_for_pair_approval_fuel]; [done|]. intros (t & w1 & Et & E)%bind_Go.
  assert (Hw : writes w1 = writes w).
  { unfold tick in Et. apply bind_Go in Et as (o & w0 & Eo & Et). unfold next in Eo. destruct (todo w); simplify_eq.
    destruct o; simplify_eq; try done. by injection Et as _ <-. }
  destruct (PAIR_TIMEOUT_MS <=? t); [done|]. apply bind_Go in E as (r & w2 & Er & E).
  apply paired_steps in Er as (l & El & Hl). rewrite Hw in El. destruct (pair_outcome r) as [o|] eqn:Eo.
  - injection E as -> <-. destruct (pair_approved_steps _ _ _ Hl Eo) as (s & row & -> & ? & ?).
    exists [], s, row. split_and!; try done. constructor.
  - destruct (pair_status_steps _ _ _ Hl) as [s ->]. apply IH in E as (l & s1 & row & E & Hp & ? & ?).
    exists ((s, s) :: l), s1, row. split_and!; try done; [|by constructor]. by rewrite E, El, <- app_assoc.
Qed.

(** ** Proofs stay *)

Lemma seen_grows w w' o : grows w w' → o ∈ seen w → o ∈ seen w'.
Proof. intros [[l ->] _] Hs. apply elem_of_app. by left. Qed.
Lemma saw_grows w w' s : grows w w' → saw w s → saw w' s.
Proof. intros [_ [l E]] [s' Hs]. exists s'. rewrite E. apply elem_of_app. by left. Qed.
Lemma signed_grows w w' pk : grows w w' → signed w pk → signed w' pk.
Proof.
  intros Hg (n & sig & t & frame & ? & ? & ? & ? & ?). exists n, sig, t, frame. split_and!; try done; by eapply seen_grows.
Qed.
Lemma node_proof_grows w w' p i : grows w w' → node_proof w p i → node_proof w' p i.
Proof.
  intros Hg [pk s row ? Hs ? ? ? Hn|pk s pid row ? Hs ? ? ? ? Hn|dt s s' row d ? Hs ? ? ? Hs' ? ?].
  - eapply by_key; try done; [by eapply saw_grows|by eapply signed_grows].
  - eapply by_approval; try done; [by eapply saw_grows|by eapply signed_grows].
  - apply (by_token _ _ _ dt s s' row d); try done; by eapply saw_grows.
Qed.
Lemma client_proof_grows w w' srv h local p sc :
  grows w w' → client_proof w srv h local p sc → client_proof w' srv h local p sc.
Proof.
  intros Hg [e f1 f2 s Hs|e f1 f2 s sc' Hs|k s row sc' ? Hs|pw s hash ? Hs| |].
  - eapply by_session; [by eapply seen_grows|done].
  - eapply by_header_key; [by eapply seen_grows|done..].
  - eapply by_api_key; [done|by eapply seen_grows|done..].
  - eapply by_password; [done|by eapply seen_grows|done..].
  - by eapply by_legacy_password.
  - by eapply by_legacy_token.
Qed.
Lemma client_right_grows w w' srv h local p sc :
  grows w w' → client_right w srv h local p sc → client_right w' srv h local p sc.
Proof.
  intros Hg [Hp|[Hu ->]]; [left; by eapply client_proof_grows|right; split; [|done]].
  destruct Hu as [e f1 f2 s Hs|s f Hs|].
  - eapply by_open_store; [by eapply seen_grows|done..].
  - eapply by_no_setup; [by eapply seen_grows|done..].
  - by eapply by_nothing_configured.
Qed.

(** ** The stages *)

Lemma next_Go w o w' : next w = (Go o, w') → o ∈ seen w' ∧ grows w w' ∧ writes w' = writes w.
Proof.
  intros E. assert (Hg : grows w w') by by eapply mono_next. unfold next in E. destruct (todo w); [done|]. injection E as -> <-.
  simpl. split_and!; [|done|done]. apply elem_of_app. right. by apply list_elem_of_singleton.
Qed.
Lemma wire_Go w m w' : wire w = (Go m, w') → Wire m ∈ seen w'.
Proof.
  unfold wire. intros (o & w1 & (Ho & _ & _)%next_Go & E)%bind_Go. destruct o; try done. by injection E as -> <-.
Qed.

Lemma receive_Go w r w' :
  receive_challenge_response w = (Go r, w') → ∃ m, Wire m ∈ seen w' ∧ challenge_answer m = Some r.
Proof.
  unfold receive_challenge_response, fuelled. generalize (S (length (todo w))) as n. intros n. revert w.
  induction n as [|n IH]; intros w; cbn [receive_challenge_response_fuel]; [done|]. intros (m & w1 & Hm%wire_Go & E)%bind_Go.
  destruct (challenge_answer m) as [r1|] eqn:Em; [|by eapply IH]. injection E as -> <-. eauto.
Qed.

Lemma challenge_Go pk dev e1 e2 w a w' :
  challenge pk dev e1 e2 w = (Go a, w') →
  a = {| authenticated := true; api_key_scopes := Some NODE_SCOPES; device := Some dev |} ∧ signed w' pk.
Proof.
  unfold challenge. intros (n & w1 & En & E)%bind_Go. assert (Hn : Nonce n ∈ seen w1).
  { unfold nonce in En. apply bind_Go in En as (o & w0 & (Ho & _ & _)%next_Go & En). destruct o; try done. by injection En as -> <-. }
  apply bind_Go in E as (? & w2 & Ee & E). apply bind_Go in E as (r & w3 & Er & E).
  assert (Hg : grows w1 w3) by (etrans; [by eapply mono_emit|by eapply mono_receive_challenge_response]).
  apply receive_Go in Er as (m & Hm & Ha). destruct r as [sig|]; [|done].
  destruct (Pairing.verify_ed25519_challenge pk n sig) as [[]|] eqn:Ev; [|done..]. injection E as <- <-. split; [done|].
  destruct m as [t| | | | | | |]; try done. simpl in Ha. destruct (from_str t) as [frame|] eqn:Ef; [|done].
  exists n, sig, t, frame. split_and!; try done; [by eapply seen_grows|]. simpl. by rewrite Ef.
Qed.

Section sound.
Context (srv : Server) (h : headers) (local : bool) (p : ConnectParams).

(** What the variables of the authentication stand for. *)
Definition sound (w : Run) (a : Auth) : Prop :=
  if authenticated a then
    match device a with
    | Some i => node_proof w p i
    | None =>
        match api_key_scopes a with
        | Some sc => sc ≠ [] → client_right w srv h local p sc
        | None => client_right w srv h local p FULL_SCOPES
        end
    end
  else device a = None ∧ api_key_scopes a = None.

Lemma sound_grows w w' a : grows w w' → sound w a → sound w' a.
Proof.
  intros Hg. unfold sound. destruct (authenticated a); [|done]. destruct (device a); [by apply node_proof_grows|].
  destruct (api_key_scopes a); [|by apply client_right_grows]. intros Hc Hn. by eapply client_right_grows, Hc.
Qed.

Lemma pair_key_sound pk fp w a w' :
  credential_shown p public_key pk → coherent w' → pair_key p pk fp w = (Go a, w') → sound w' a.
Proof.
  intros Hpk Hc. unfold pair_key. cbv zeta. intros (e & w1 & Ee & E)%bind_Go.
  apply bind_Go in E as (r & w2 & Er & E). destruct r as [r|]; [|done].
  apply bind_Go in E as (? & w3 & [= _ <-] & E). apply bind_Go in E as (? & w4 & [= _ <-] & E).
  apply bind_Go in E as (o & w5 & Ew & E). destruct o; try done.
  assert (Hg : grows w5 w') by by eapply mono_challenge.
  apply challenge_Go in E as [-> Hs]. apply paired_steps in Er as (l & El & Hl).
  apply request_steps in Hl as (s & s' & row & -> & Hrow & Hd & Hk).
  apply wait_writes in Ew as (l & s1 & row1 & El1 & Hp & Hr1 & Hst). simpl in El1.
  assert (Hkeep : Pairing.requests_keep s' s1).
  { assert (Hc5 : coherent w5) by by eapply coherent_grows. eapply chained_polls; [exact Hp|].
    eapply (coherent_after w5 s s' (writes w1)); [done|]. by rewrite El1, El, <- app_assoc. }
  destruct (Hkeep _ _ Hrow) as (row2 & Hr2 & Hd2 & Hk2). assert (row2 = row1) as -> by congruence. unfold sound. simpl.
  eapply (by_approval _ _ _ pk s1 (Pairing.id r) row1); try done; [|congruence..].
  eapply saw_grows; [exact Hg|]. exists s1. rewrite El1, !elem_of_app, list_elem_of_singleton. auto.
Qed.

Lemma key_auth_sound w a w1 a' :
  coherent w1 → sound w a → key_auth srv p a w = (Go a', w1) → sound w1 a'.
Proof.
  intros Hc Hs E. assert (Hs1 : sound w1 a) by (eapply sound_grows; [by eapply mono_key_auth|done]).
  unfold key_auth in E. destruct (credential_of p public_key) as [pk|] eqn:Epk; [|by injection E as <- <-].
  destruct (authenticated a || _); [by injection E as <- <-|].
  destruct (Pairing.public_key_fingerprint pk) as [fp|]; [|done].
  apply bind_Go in E as (rv & w2 & _ & E). destruct (match rv with Ok b => b | Err _ => false end); [done|].
  apply bind_Go in E as (pin & w3 & _ & E).
  assert (Hk : (known ← paired (Pairing.find_device_by_public_key pk);
                match known with
                | Ok (Some d) =>
                    challenge pk (Pairing.pd_device_id d) "challenge-response failed" "challenge-response verification failed"
                | Ok None =>
                    if is_some_and is_nonempty (credential_of p device_token) then mret a
                    else
                      enabled ← pairing_enabled;
                      if negb enabled
                      then refuse Codes.FORBIDDEN
                             (lit "node pairing is disabled" ++ dash ++ lit "enable it from the gateway UI or CLI")
                      else pair_key p pk fp
                | Err _ => mret a
                end) w3 = (Go a', w1)).
  { destruct pin as [[]|]; try done. }
  clear E. apply bind_Go in Hk as (kn & w4 & Ek & E). destruct kn as [[d|]|]; [| |by injection E as <- <-].
  - assert (Hg : grows w4 w1) by by eapply mono_challenge. apply challenge_Go in E as [-> Hsig]. unfold sound. simpl.
    apply paired_steps in Ek as (l & El & Hl). apply find_device_steps in Hl as (s & row & -> & ? & ? & ?).
    eapply (by_key _ _ _ pk s row); try done. eapply saw_grows; [exact Hg|]. eapply saw_new; [exact El|]. by left.
  - destruct (is_some_and is_nonempty _); [by injection E as <- <-|].
    apply bind_Go in E as (en & w5 & _ & E). destruct en; [|done]. simpl in E. by eapply pair_key_sound.
Qed.

Lemma token_auth_sound w a w1 a' : sound w a → token_auth srv p a w = (Go a', w1) → sound w1 a'.
Proof.
  intros Hs E. assert (Hs1 : sound w1 a) by (eapply sound_grows; [by eapply mono_token_auth|done]).
  unfold token_auth in E. destruct (credential_of p device_token) as [dt|] eqn:Edt; [|by injection E as <- <-].
  destruct (authenticated a || _); [by injection E as <- <-|].
  apply bind_Go in E as (v & w2 & Ev & E). destruct v as [[v|]|]; [|by injection E as <- <-..].
  apply bind_Go in E as (? & w3 & Ep & [= <- <-]). apply paired_steps in Ev as (l & El & Hl).
  assert (Hg : grows w2 w3).
  { destruct (credential_of p public_key); [by eapply mono_pin_with_token|by injection Ep as _ <-]. }
  apply verify_steps in Hl as (s & s' & row & d & Hin & Hin' & ? & ? & ? & ? & ?). unfold sound. simpl.
  apply (by_token _ _ _ dt s s' row d); try done; (eapply saw_grows; [exact Hg|]); by eapply saw_new.
Qed.

Lemma verify_api_key_Go k w v w' :
  credential (Credentials.verify_api_key k) w = (Go (Ok (Some v)), w') →
  ∃ s, CredDb s None ∈ seen w' ∧ Credentials.find_api_key k s = Some v.
Proof.
  simpl. intros (o & w1 & (Ho & _ & _)%next_Go & E)%bind_Go. destruct o as [|s [f|]| | | | | |]; try done.
  injection E as E <-. eauto.
Qed.
Lemma verify_password_Go pw w w' :
  credential (Credentials.verify_password pw) w = (Go (Ok true), w') →
  ∃ s hash, CredDb s None ∈ seen w' ∧ Credentials.password_hash s = Some hash ∧ Credentials.verify_hash pw hash = true.
Proof.
  simpl. intros (o & w1 & (Ho & _ & _)%next_Go & E)%bind_Go. destruct o as [|s [f|]| | | | | |]; try done.
  injection E as E <-. unfold Credentials.password_matches in E. destruct (Credentials.password_hash s) as [hash|] eqn:Eh; [|done].
  eauto.
Qed.

Lemma api_key_auth_sound w a w1 a' : device a = None → sound w a → authenticated a = false →
  api_key_auth p a w = (Go a', w1) → sound w1 a' ∧ device a' = None.
Proof.
  intros Hd Hs Ha E. assert (Hn : sound w1 a) by (eapply sound_grows; [by eapply mono_api_key_auth|done]).
  unfold api_key_auth in E. destruct (credential_of p api_key) as [k|] eqn:Ek; [|by injection E as <- <-].
  apply bind_Go in E as (v & w2 & Ev & E). destruct v as [[v|]|]; [|by injection E as <- <-..].
  injection E as <- <-. split; [|done]. unfold sound. simpl. rewrite Hd. intros Hne.
  apply verify_api_key_Go in Ev as (s & Hin & (row & ? & ? & ? & ->)%HttpAuth.find_key_row).
  left. by eapply (by_api_key _ _ _ _ _ k s row).
Qed.

Lemma password_auth_sound w a w1 a' :
  sound w a → device a = None → password_auth p a w = (Go a', w1) → sound w1 a'.
Proof.
  intros Hs Hd E. assert (Hn : sound w1 a) by (eapply sound_grows; [by eapply mono_password_auth|done]).
  unfold password_auth in E. destruct (credential_of p password) as [pw|] eqn:Ep; [|by injection E as <- <-].
  destruct (authenticated a) eqn:Ea; [by injection E as <- <-|].
  apply bind_Go in E as (v & w2 & Ev & E). destruct v as [[]|]; [|by injection E as <- <-..]. injection E as <- <-.
  unfold sound in Hn |- *. simpl. rewrite Ea in Hn. destruct Hn as [_ ->]. rewrite Hd.
  apply verify_password_Go in Ev as (s & hash & ? & ? & ?). left. by eapply by_password.
Qed.

Lemma credential_auth_sound w a w1 a' : sound w a → credential_auth srv local p a w = (Go a', w1) → sound w1 a'.
Proof.
  intros Hs E. assert (Hn : sound w1 a) by (eapply sound_grows; [by eapply mono_credential_auth|done]).
  unfold credential_auth in E. destruct (authenticated a || _) eqn:Eo; [by injection E as <- <-|].
  apply orb_false_iff in Eo as [Ea _]. pose proof Hs as Hs0. unfold sound in Hs0. rewrite Ea in Hs0. destruct Hs0 as [Hd Hk].
  apply bind_Go in E as (b & w2 & Eb & E). unfold is_setup_complete in Eb.
  apply bind_Go in Eb as (o & w3 & (Ho & Hg & _)%next_Go & Eb). destruct o as [|s f| | | | | |]; try done. injection Eb as Es <-.
  destruct b.
  - apply bind_Go in E as (a1 & w4 & E1 & E2). apply api_key_auth_sound in E1 as [Hs1 Hd1]; [|done| |done].
    + exact (password_auth_sound _ _ _ _ Hs1 Hd1 E2).
    + by eapply sound_grows.
  - injection E as <- <-. destruct local eqn:El; [|done]. unfold sound. simpl. rewrite Hd, Hk.
    right. split; [|done]. by eapply by_no_setup.
Qed.

Lemma sound_none w a : sound w a → authenticated a = false → device a = None ∧ api_key_scopes a = None.
Proof. unfold sound. intros Hs Ha. by rewrite Ha in Hs. Qed.

Lemma safe_equal_true a b : Credentials.Legacy.safe_equal a b = true → a = b.
Proof.
  unfold Credentials.Legacy.safe_equal. destruct (length a =? length b)%nat eqn:El; [|done]. simpl.
  apply Nat.eqb_eq in El. assert (Hz : ∀ l n, foldl (λ acc '(x, y), N.lor acc (N.lxor x y)) n l = 0%N →
    n = 0%N ∧ Forall (λ p : N * N, p.1 = p.2) l).
  { induction l as [|[x y] l IH]; intros n; simpl; [by split|]. intros [Hn Hl]%IH. apply N.lor_eq_0_iff in Hn as [-> Hx].
    split; [done|]. constructor; [by apply N.lxor_eq|done]. }
  intros [_ Hl]%N.eqb_eq%Hz. revert b El Hl. induction a as [|x a IH]; intros [|y b] El Hl; try done.
  simpl in Hl. inversion Hl; simplify_eq/=. f_equal. by apply IH.
Qed.

Lemma legacy_auth_sound w a : sound w a → sound w (legacy_auth srv p a).
Proof.
  intros Hs. unfold legacy_auth. destruct (authenticated a) eqn:Ea; [done|]. destruct (sound_none _ _ Hs Ea) as [Hd Hk].
  assert (Hgot : client_right w srv h local p FULL_SCOPES → sound w (as_authenticated a)).
  { intros Hc. unfold sound. simpl. by rewrite Hd, Hk. }
  destruct (isSome (legacy_token srv) || isSome (legacy_password srv)) eqn:El.
  - unfold Credentials.Legacy.authorize_connect, Credentials.Legacy.resolve_auth. cbn [Credentials.Legacy.mode].
    destruct (legacy_password srv) as [pw|] eqn:Epw; cbn [isSome Credentials.Legacy.password Credentials.Legacy.token].
    + unfold Credentials.Legacy.judge. destruct (credential_of p password) as [given|] eqn:Eg; [|done].
      destruct (Credentials.Legacy.safe_equal _ _) eqn:Eq; [|done]. apply Hgot. apply safe_equal_true in Eq. left. by eapply by_legacy_password.
    + destruct (legacy_token srv) as [t|] eqn:Et; [|done]. unfold Credentials.Legacy.judge.
      destruct (credential_of p token) as [given|] eqn:Eg; [|done].
      destruct (Credentials.Legacy.safe_equal _ _) eqn:Eq; [|done]. apply Hgot. apply safe_equal_true in Eq. left. by eapply by_legacy_token.
  - destruct (negb (has_credential_store srv)) eqn:Ec; [|done]. apply Hgot.
    apply orb_false_iff in El as [Et Epw]. right. split; [|done].
    apply by_nothing_configured; [by destruct (has_credential_store srv)| |].
    + by destruct (legacy_token srv).
    + by destruct (legacy_password srv).
Qed.
End sound.

Lemma mono_handshake srv local i : mono (handshake srv local i).
Proof.
  unfold handshake, refuse.
  grow_with ltac:(first [apply mono_wait_for_connect | apply mono_key_auth | apply mono_token_auth
                        | apply mono_credential_auth | apply mono_grant]).
Qed.

Lemma grant_earned srv h local c a w g w' :
  sound srv h local (params c) w a → grant c a w = (Go g, w') → earned w' srv h local g.
Proof.
  intros Hs. unfold grant. destruct (authenticated a) eqn:Ea; [|done]. cbv zeta. cbn [negb].
  unfold sound in Hs. rewrite Ea in Hs. destruct (device a) as [i|] eqn:Ed.
  - unfold validate_node_identity. simpl. destruct (str_eqb i (client_id (client (params c)))) eqn:Ei; [|done].
    apply str_eqb_true in Ei as ->. simpl.
    destruct (is_some_and _ (role (params c))); [done|]. intros [= <- <-]. unfold earned. simpl. by split.
  - simpl. case_bool_decide as Hr; [done|]. intros E.
    assert (Hn : str_eqb (unwrap_or Roles.OPERATOR (role (params c))) Roles.NODE = false).
    { destruct (role (params c)) as [r|]; simpl; [|done]. unfold str_eqb. case_bool_decide; [|done]. congruence. }
    unfold earned. destruct (api_key_scopes a) as [sc|].
    + destruct (is_nonempty sc) eqn:Esc; [|done]. injection E as <- <-. simpl. rewrite Hn. split; [done|]. apply Hs. by destruct sc.
    + injection E as <- <-. simpl. by rewrite Hn.
Qed.

Lemma header_sound srv h local p w e f1 f2 s :
  HeaderAuth e f1 f2 s ∈ seen w →
  sound srv h local p w (from_header match HttpAuth.check_auth e f1 f2 s h local with
                                     | HttpAuth.Allowed i => Some i | _ => None end).
Proof.
  intros Hin. destruct (HttpAuth.check_auth e f1 f2 s h local) as [i| |] eqn:Ec; [|by split..].
  unfold sound, from_header. simpl. apply HttpAuth.check_auth_allowed in Ec as [(Hl & Ho & ->)|[[Hs Hm]|[Hk Hm]]].
  - simpl. right. split; [|done]. by eapply by_open_store.
  - rewrite Hm. simpl. left. by eapply by_session.
  - rewrite Hm. simpl. intros Hn. left. by eapply by_header_key.
Qed.

Lemma handshake_earned srv h local i w g w' :
  (∀ p, sound srv h local p w (from_header i)) → coherent w' → handshake srv local i w = (Go g, w') →
  earned w' srv h local g.
Proof.
  intros Hi Hc. unfold handshake. intros (first & w1 & E1 & E)%bind_Go.
  assert (Hg1 : grows w w1) by by eapply mono_wait_for_connect. destruct first as [c|]; [|done]. cbv zeta in E.
  destruct (_ || _); [done|]. apply bind_Go in E as (a2 & w2 & E2 & E). apply bind_Go in E as (a3 & w3 & E3 & E).
  apply bind_Go in E as (a4 & w4 & E4 & E).
  assert (Hc2 : coherent w2).
  { eapply coherent_grows; [|exact Hc]. etrans; [by eapply mono_token_auth|]. etrans; [by eapply mono_credential_auth|].
    by eapply mono_grant. }
  eapply grant_earned; [|exact E]. apply legacy_auth_sound. eapply credential_auth_sound; [|exact E4].
  eapply token_auth_sound; [|exact E3]. eapply key_auth_sound; [exact Hc2| |exact E2]. eapply sound_grows; [exact Hg1|apply Hi].
Qed.

Lemma upgrade_earned c srv h peer tr g w' :
  ws_upgrade_handler c srv h peer (start tr) = (Go g, w') → coherent w' → earned w' srv h (is_local c h peer) g.
Proof.
  unfold ws_upgrade_handler. destruct (origin_allowed c h); [|done]. cbn [negb]. cbv zeta.
  intros (i & w1 & Ei & E)%bind_Go Hc. eapply handshake_earned; [|exact Hc|exact E]. intros p.
  unfold websocket_header_authenticate in Ei. destruct (has_credential_store srv); simpl in Ei; [|by injection Ei as <- <-; split].
  apply bind_Go in Ei as (o & w2 & (Ho & _ & _)%next_Go & Ei). destruct o; try done. injection Ei as <- <-. by apply header_sound.
Qed.

(** C5. The authority of a connection is earned.  Whatever the wire, the tables, the clock and the
    other tasks do, and whichever statements fail: a handshake ends in a connection with the role of
    a node only for the device that the client names, and only if it signed a nonce of this handshake
    with the key of that device, be it active or approved by an operator for that very device and key,
    or showed a token of it that is not revoked; a node has no scopes.  It ends in another connection
    only with a credential, that is a live session, a key that is not revoked and then with its scopes
    alone, the password, or the token or password of the environment; or without any credential, and
    then for a local connection while the store of credentials is turned off or not set up, or for any
    connection when neither store, token nor password is configured.  A page that shows a foreign
    origin gets nothing. *)
Theorem authority_is_earned c srv h peer tr g w :
  ws_upgrade_handler c srv h peer (start tr) = (Go g, w) → coherent w →
  origin_allowed c h = true ∧
  let p := params (granted_client g) in
  if str_eqb (granted_role g) Roles.NODE
  then granted_scopes g = [] ∧ node_proof w p (client_id (client p))
  else granted_role g = unwrap_or Roles.OPERATOR (role p) ∧
       (client_proof w srv h (is_local c h peer) p (granted_scopes g) ∨
        (unguarded w srv (is_local c h peer) ∧ granted_scopes g = FULL_SCOPES)).
Proof.
  intros E Hc. split; [|by apply (upgrade_earned c srv h peer tr)]. unfold ws_upgrade_handler in E.
  by destruct (origin_allowed c h).
Qed.

End upgrade.

(** * Examples and witnesses *)

Section witnesses.
(** Frames by name; keys and signatures in the plain, each char a byte. *)
Definition connect_as (p : ConnectParams) : Decode :=
  {| decode_frame t := if str_eqb t "connect" then Ok (RequestFrame "1" "connect" None) else Err (lit "bad frame");
     decode_v4 _ := None; decode_v3 _ := Ok p |}.
Definition signature_serde : SerdeJson :=
  {| from_str s := if str_eqb s "answer"
                   then Ok (Gateway.obj [("method", JString "node.auth.challenge-response");
                                         ("params", Gateway.obj [("signature", JString (repeat (ch "s") 64))])]%string)
                   else Err [];
     to_string _ := None |}.
Definition plain_ed25519 : Pairing.Ed25519 :=
  {| Pairing.base64_decode s := Ok (map Z.of_N s); Pairing.base64_encode l := map Z.to_N l; Pairing.verifying_key _ := None;
     Pairing.verify_signature pk _ sig := bool_decide (sig = repeat (Z.of_N (ch "s")) 64); Pairing.sha256 l := l |}.
Existing Instances signature_serde plain_ed25519 Pairing.plain_kit HttpAuth.toy_crypto.

Definition pk : str := repeat (ch "k") 32.
Definition no_auth : ConnectAuth := {| token := None; password := None; api_key := None; device_token := None; public_key := None |}.
Definition params_of (id : string) (r : option str) (a : ConnectAuth) : ConnectParams :=
  {| min_protocol := 3; max_protocol := 4; client := {| client_id := id; display_name := None; platform := "ios" |};
     caps := None; commands := None; role := r; auth := Some a |}.
Definition phone_params : ConnectParams :=
  params_of "phone" None {| token := None; password := None; api_key := None; device_token := None; public_key := Some pk |}.
Definition pairing_only : Server :=
  {| has_pairing_store := true; has_credential_store := false; legacy_token := Some (lit "secret"); legacy_password := None |}.

(** A phone with a new key is approved while it waits. *)
Definition at_request : Pairing.env := Pairing.at_ 0 "r".
Definition requested_db : Pairing.DB :=
  (Prog.run Pairing.Db (Pairing.body at_request (Pairing.RequestPair "phone" None "ios" (Some pk))) [] Pairing.empty_db).2.
Definition approved_db : Pairing.DB :=
  (Prog.run Pairing.Db (Pairing.body (Pairing.at_ 1 "a") (Pairing.Approve "r")) [] requested_db).2.
Definition pairing_trace : list Obs :=
  [Wire Ping; Wire (Text "connect"); PairDb Pairing.empty_db None; PairDb Pairing.empty_db None; PairDb Pairing.empty_db None;
   PairingEnabled true; Ids at_request; PairDb Pairing.empty_db None; Tick 0; PairDb requested_db None; Tick 500;
   PairDb approved_db None; Nonce [1; 2; 3]; Wire (Text "noise"); Wire (Text "answer")].
Definition phone_upgrade : flow Granted * Run :=
  ws_upgrade_handler (H0 := connect_as phone_params) HttpAuth.plain pairing_only [] HttpAuth.remote_peer (start pairing_trace).
Definition phone_granted : Granted :=
  {| granted_role := Roles.NODE; granted_scopes := [];
     granted_client := {| request_id := "1"; params := phone_params; is_v4 := false |} |}.

Example phone_is_a_node : phone_upgrade.1 = Go phone_granted.
Proof. vm_compute. reflexivity. Qed.

(** The same answer does not help before the approval, nor after the five minutes. *)
Example unapproved_times_out :
  (ws_upgrade_handler (H0 := connect_as phone_params) HttpAuth.plain pairing_only [] HttpAuth.remote_peer
     (start (take 10 pairing_trace ++ [Tick 300000]))).1
  = Stop (Refused (error Codes.TIMEOUT "pairing request expired")).
Proof. vm_compute. reflexivity. Qed.

Lemma phone_writes : writes phone_upgrade.2 =
  [(Pairing.empty_db, Pairing.empty_db); (Pairing.empty_db, Pairing.empty_db); (Pairing.empty_db, Pairing.empty_db);
   (Pairing.empty_db, requested_db); (requested_db, requested_db); (approved_db, approved_db)].
Proof. vm_compute. reflexivity. Qed.
Lemma phone_saw : seen phone_upgrade.2 = pairing_trace.
Proof. vm_compute. reflexivity. Qed.

Lemma phone_coherent : coherent phone_upgrade.2.
Proof.
  unfold coherent. rewrite phone_writes. do 4 (split; [apply evolves_refl|]). split; [|done].
  exact (evolves_run (Pairing.at_ 1 "a") (Pairing.Approve "r") [] requested_db).
Qed.

Lemma authority_is_earned_witness :
  origin_allowed HttpAuth.plain [] = true ∧
  granted_scopes phone_granted = [] ∧ node_proof phone_upgrade.2 phone_params "phone".
Proof.
  apply (authority_is_earned (H0 := connect_as phone_params) HttpAuth.plain pairing_only [] HttpAuth.remote_peer pairing_trace
           phone_granted phone_upgrade.2).
  - vm_compute. reflexivity.
  - exact phone_coherent.
Defined.

(** A client without a credential is told so; one that asks to be a node is not one for a password. *)
Definition with_password (r : option str) : ConnectParams :=
  params_of "web" r {| token := None; password := Some (lit "correct horse"); api_key := None; device_token := None; public_key := None |}.
Definition credentials_only : Server :=
  {| has_pairing_store := true; has_credential_store := true; legacy_token := None; legacy_password := None |}.
Definition password_trace : list Obs :=
  let s := HttpAuth.store HttpAuth.with_read_key in
  [HeaderAuth {| Credentials.now := 5; Credentials.random1 := []; Credentials.random2 := [] |} false false s;
   Wire (Text "connect"); CredDb s None; CredDb s None].
Definition upgrade_with (p : ConnectParams) (h : headers) : flow Granted :=
  (ws_upgrade_handler (H0 := connect_as p) HttpAuth.plain credentials_only h HttpAuth.remote_peer (start password_trace)).1.
Existing Instance HttpAuth.scope_serde.
Example password_gets_everything :
  upgrade_with (with_password None) []
  = Go {| granted_role := Roles.OPERATOR; granted_scopes := FULL_SCOPES;
          granted_client := {| request_id := "1"; params := with_password None; is_v4 := false |} |}.
Proof. vm_compute. reflexivity. Qed.
Example password_is_no_node :
  upgrade_with (with_password (Some Roles.NODE)) [] = Stop (Refused (error Codes.FORBIDDEN "node role requires node credentials")).
Proof. vm_compute. reflexivity. Qed.
Example nothing_shown :
  upgrade_with (params_of "web" None no_auth) [] = Stop (Refused (error Codes.UNAUTHORIZED "authentication failed")).
Proof. vm_compute. reflexivity. Qed.

(** Origins: loopback names are one, ports and other hosts are not. *)
Example origins :
  is_same_origin "http://localhost:8080" "127.0.0.1:8080" = true ∧ is_same_origin "https://moltis.localhost" "localhost:443" = true ∧
  is_same_origin "https://evil.example" "moltis.example" = false ∧ is_same_origin "http://localhost:1" "localhost:2" = false ∧
  is_same_origin "HTTPS://host:443" "host" = true ∧ is_same_origin "null" "host" = false.
Proof. split_and!; vm_compute; reflexivity. Qed.
Example foreign_page_is_refused :
  upgrade_with (with_password None) [(lit "origin", Some (lit "https://evil.example")); (lit "host", Some (lit "moltis.example"))]
  = Stop (Dropped "cross-origin WebSocket connections are not allowed").
Proof. vm_compute. reflexivity. Qed.
End witnesses.
