(* ===== verification/World.v ===== *)
(** The gateway with its handshakes: the pairing tables, the store of credentials, the handshakes in
    progress, and the connections behind them.

    Composes [WsConnect] and [Gateway] as [handle_connection] in [crates/httpd/src/ws.rs] does: the
    handshake of a connection runs first, and what it grants is what the connection is registered with.
    Any number of handshakes and connections are under way at once, and calls of other tasks to the two
    stores come in between.

    The world remembers what the program does not: every statement that was executed on the pairing
    tables, every state the store of credentials has had, and for every connection its handshake with
    all that it read.  So the theorems speak of the very handshake of a connection, and of tables that
    were the gateway's own: a call runs for somebody who has shown a credential
    ([calls_need_credentials]), and a node is who it says ([nodes_prove_identity]). *)
From S2P Require Import Prelude Float64 Json Utf8 ToolArgs Http Prog Rpc.
From S2P Require Pairing Credentials HttpAuth Gateway.
From S2P Require Import WsConnect.
Local Open Scope Z_scope.

(** * The world *)

(** A handshake in progress: the request it answers, and how many statements and states of the store
    there were when it began. *)
Record Shaking := { s_headers : headers; s_peer : IpAddr; s_statements : nat; s_stores : nat }.

(** The handshake that a connection comes from. *)
Record Birth := { b_headers : headers; b_peer : IpAddr; b_trace : list Obs; b_granted : Granted; b_run : Run }.

Record World := {
  gateway : Gateway.State;
  pairing : Pairing.DB;
  statements : list (Pairing.DB * Pairing.DB);          (** the tables before and after each *)
  store : Credentials.CredentialStore;
  stores : list Credentials.CredentialStore;            (** that it has been, up to now *)
  shaking : gmap str Shaking;
  born : gmap str Birth;
}.

Definition initial (db : Pairing.DB) (s : Credentials.CredentialStore) : World :=
  {| gateway := Gateway.init; pairing := db; statements := []; store := s; stores := [s]; shaking := ∅; born := ∅ |}.

Definition with_gateway (w : World) g : World :=
  {| gateway := g; pairing := pairing w; statements := statements w; store := store w; stores := stores w;
     shaking := shaking w; born := born w |}.
Definition with_shaking (w : World) sh : World :=
  {| gateway := gateway w; pairing := pairing w; statements := statements w; store := store w; stores := stores w;
     shaking := sh; born := born w |}.
Definition executed (w : World) (db : Pairing.DB) : World :=
  {| gateway := gateway w; pairing := db; statements := statements w ++ [(pairing w, db)]; store := store w;
     stores := stores w; shaking := shaking w; born := born w |}.
Definition changed (w : World) (s : Credentials.CredentialStore) : World :=
  {| gateway := gateway w; pairing := pairing w; statements := statements w; store := s; stores := stores w ++ [s];
     shaking := shaking w; born := born w |}.
Definition enters (w : World) (k : str) (b : Birth) (g : Gateway.State) : World :=
  {| gateway := g; pairing := pairing w; statements := statements w; store := store w; stores := stores w;
     shaking := delete k (shaking w); born := <[k := b]> (born w) |}.

(** The store of credentials as an observation gives it. *)
Definition store_seen (o : Obs) : option Credentials.CredentialStore :=
  match o with CredDb s _ | HeaderAuth _ _ _ s => Some s | _ => None end.

Section world.
Context `{SerdeJson, Decode, Pairing.Ed25519, Pairing.Kit, Credentials.Crypto}.
Context (decode_error : json → str) (round_f32 : f64 → f64) (service : str → bool).
Context (c : HttpAuth.config) (srv : Server).

(** The handshake read what was there: its statements are among those executed meanwhile, in their
    order, and the store was in the states it saw. *)
Definition reads (w : Run) (sts : list (Pairing.DB * Pairing.DB)) (sto : list Credentials.CredentialStore) : Prop :=
  writes w `sublist_of` sts ∧ ∀ o s, o ∈ seen w → store_seen o = Some s → s ∈ sto.

Inductive world_step : World → World → Prop :=
| begins w k h peer :                          (** an upgrade is asked for *)
    shaking w !! k = None →
    world_step w (with_shaking w (<[k := {| s_headers := h; s_peer := peer; s_statements := length (statements w);
                                           s_stores := pred (length (stores w)) |}]> (shaking w)))
| executes w db :                              (** a statement on the pairing tables, of whatever task *)
    evolves (pairing w) db → world_step w (executed w db)
| changes w s : world_step w (changed w s)     (** the store of credentials changes *)
| connects w k t tr g r gw :                   (** a handshake succeeds, and the connection is registered *)
    shaking w !! k = Some t →
    ws_upgrade_handler c srv (s_headers t) (s_peer t) (start tr) = (Go g, r) →
    reads r (drop (s_statements t) (statements w)) (drop (s_stores t) (stores w)) →
    Gateway.step decode_error round_f32 service (gateway w)
      (Gateway.Connect (connected_client k g) (granted_role g) (node_info g)) = Some gw →
    world_step w (enters w k {| b_headers := s_headers t; b_peer := s_peer t; b_trace := tr; b_granted := g; b_run := r |} gw)
| gives_up w k : world_step w (with_shaking w (delete k (shaking w)))
| goes_on w e gw :                             (** the connections, their calls, and the tasks behind them *)
    (∀ cl r n, e ≠ Gateway.Connect cl r n) → Gateway.step decode_error round_f32 service (gateway w) e = Some gw →
    world_step w (with_gateway w gw).

Definition world_reached (db : Pairing.DB) (s : Credentials.CredentialStore) : World → Prop := rtc world_step (initial db s).

(** The handshake of a connection: it ran, on what the gateway had. *)
Definition genuine (w : World) (b : Birth) : Prop :=
  ws_upgrade_handler c srv (b_headers b) (b_peer b) (start (b_trace b)) = (Go (b_granted b), b_run b) ∧
  reads (b_run b) (statements w) (stores w).

(** * Facts *)

(** The statements follow each other, from some first tables on. *)
Fixpoint follow (s : Pairing.DB) (l : list (Pairing.DB * Pairing.DB)) : Prop :=
  match l with [] => True | (a, b) :: l => a = s ∧ evolves a b ∧ follow b l end.
Fixpoint final (s : Pairing.DB) (l : list (Pairing.DB * Pairing.DB)) : Pairing.DB :=
  match l with [] => s | (_, b) :: l => final b l end.

Lemma follow_snoc s l db : follow s l → evolves (final s l) db → follow s (l ++ [(final s l, db)]) ∧ final s (l ++ [(final s l, db)]) = db.
Proof.
  revert s. induction l as [|[a b] l IH]; intros s; simpl.
  - intros _ He. split; [|done]. split; [done|]. by split.
  - intros (-> & He & Hf) Hdb. destruct (IH b Hf Hdb) as [? ?]. split; [|done]. split; [done|]. by split.
Qed.

Lemma follow_chained s0 s l l' : evolves s0 s → follow s l → l' `sublist_of` l → chained s0 l'.
Proof.
  intros Hs Hf Hsub. revert s0 s Hs Hf. induction Hsub as [|[a b] l' l Hsub IH|[a b] l' l Hsub IH]; intros s0 s Hs; simpl.
  - done.
  - intros (-> & He & Hf). split; [done|]. apply (IH b b); [apply evolves_refl|done].
  - intros (-> & He & Hf). apply (IH s0 b); [by eapply evolves_trans|done].
Qed.

Lemma follow_coherent s l (w : Run) : follow s l → writes w `sublist_of` l → coherent w.
Proof.
  intros Hf Hsub. pose proof (follow_chained s s l (writes w) (evolves_refl s) Hf Hsub) as Hc. unfold coherent.
  destruct (writes w) as [|[a b] l']; [done|]. by destruct Hc.
Qed.

Lemma reads_more w sts sts' sto sto' : sts `sublist_of` sts' → sto ⊆ sto' → reads w sts sto → reads w sts' sto'.
Proof. intros Hs Ht [? Ho]. split; [by etrans|]. intros o s ? ?. by eapply Ht, Ho. Qed.

(** Connections have what their handshakes granted, and nodes what their connections told. *)
Record WInv (db : Pairing.DB) (w : World) : Prop := {
  w_follow : follow db (statements w) ∧ final db (statements w) = pairing w;
  w_born : ∀ k b, born w !! k = Some b → genuine w b;
  w_connections : ∀ k a, Gateway.authority (gateway w) !! k = Some a →
    ∃ b, born w !! k = Some b ∧ a = (granted_role (b_granted b), granted_scopes (b_granted b));
  w_registering : ∀ k n, Gateway.phases (gateway w) !! k = Some (Gateway.Registering n) →
    ∃ b ni, born w !! k = Some b ∧ node_info (b_granted b) = Some ni ∧
      Gateway.key_of n = (Gateway.info_id ni, k) ∧ is_Some (Gateway.authority (gateway w) !! k);
  w_nodes : ∀ i q, Gateway.index (gateway w) !! i = Some q →
    ∃ b ni, born w !! q.2 = Some b ∧ node_info (b_granted b) = Some ni ∧ i = Gateway.info_id ni ∧ i = q.1 ∧
      is_Some (Gateway.authority (gateway w) !! q.2);
}.

Lemma WInv_initial db s : WInv db (initial db s).
Proof. split; [by split| | | |]; intros ??; by rewrite ?lookup_empty. Qed.

(** What leaves the gateway and its connections alone. *)
Lemma WInv_aside db w w' :
  WInv db w → gateway w' = gateway w → born w' = born w → statements w `sublist_of` statements w' → stores w ⊆ stores w' →
  follow db (statements w') ∧ final db (statements w') = pairing w' → WInv db w'.
Proof.
  intros [H1' H2' H3' H4' H5'] Eg Eb Hs Ht Hf. split; rewrite ?Eg, ?Eb; try done.
  intros k b Hb. destruct (H2' k b Hb) as [? ?]. split; [done|]. by eapply reads_more.
Qed.

Lemma WInv_gateway db w e gw :
  WInv db w → (∀ cl r n, e ≠ Gateway.Connect cl r n) → Gateway.step decode_error round_f32 service (gateway w) e = Some gw →
  WInv db (with_gateway w gw).
Proof.
  intros [H1' H2' H3' H4' H5'] He E. destruct (Gateway.step_origins _ _ _ _ _ _ E) as (Hkeep & Ha & Hp & Hi).
  assert (Hk : ∀ k, is_Some (Gateway.authority (gateway w) !! k) → is_Some (Gateway.authority gw !! k)).
  { intros k [a Hk]. apply Hkeep in Hk. by exists a. }
  split; simpl; [done|done| | |].
  - intros k a [?|(cl & r & n & -> & _)]%Ha; [by apply H3'|by destruct (He cl r n)].
  - intros k n [Hn|(cl & r & ni & -> & _)]%Hp; [|by destruct (He cl r (Some ni))].
    destruct (H4' k n Hn) as (b & ni & ? & ? & ? & ?). exists b, ni. by split_and!; auto.
  - intros i q [Hq|(k & n & Hn & -> & ->)]%Hi.
    + destruct (H5' i q Hq) as (b & ni & ? & ? & ? & ? & ?). exists b, ni. by split_and!; auto.
    + destruct (H4' k n Hn) as (b & ni & ? & ? & Hkey & ?). rewrite Hkey. injection Hkey as Hid _. rewrite Hid. exists b, ni. by split_and!; auto.
Qed.

Lemma WInv_connects db w k b gw :
  WInv db w → genuine w b →
  Gateway.step decode_error round_f32 service (gateway w)
    (Gateway.Connect (connected_client k (b_granted b)) (granted_role (b_granted b)) (node_info (b_granted b))) = Some gw →
  WInv db (enters w k b gw).
Proof.
  intros [H1' H2' H3' H4' H5'] Hb E. destruct (Gateway.step_origins _ _ _ _ _ _ E) as (Hkeep & Ha & Hp & Hi).
  assert (Hnew : Gateway.authority (gateway w) !! k = None).
  { simpl in E. unfold Gateway.authority. rewrite lookup_fmap. by destruct (Gateway.conns (gateway w) !! k). }
  assert (Hk : ∀ k, is_Some (Gateway.authority (gateway w) !! k) → is_Some (Gateway.authority gw !! k)).
  { intros k' [a Hk']. apply Hkeep in Hk'. by exists a. }
  assert (Hold : ∀ k' b', born w !! k' = Some b' → is_Some (Gateway.authority (gateway w) !! k') → <[k := b]> (born w) !! k' = Some b').
  { intros k' b' Hb' [a Hk']. rewrite lookup_insert_ne; [done|]. intros <-. congruence. }
  assert (Hown : is_Some (Gateway.authority gw !! k)).
  { simpl in E. destruct (Gateway.conns (gateway w) !! k); [done|]. injection E as <-. unfold Gateway.authority. simpl.
    rewrite fmap_insert, lookup_insert_eq. by eexists. }
  split; simpl; [done| | | |].
  - intros k' b' [[<- <-]|[_ Hb']]%lookup_insert_Some; [done|by apply (H2' k')].
  - intros k' a [Hk'|(cl & r & n & Ee & -> & ->)]%Ha.
    + destruct (H3' k' a Hk') as (b' & Hb' & ->). exists b'. split; [apply Hold; [done|by eexists]|done].
    + injection Ee as <- <- <-. exists b. split; [apply lookup_insert_eq|done].
  - intros k' n [Hn|(cl & r & ni & Ee & -> & ->)]%Hp.
    + destruct (H4' k' n Hn) as (b' & ni & ? & ? & ? & ?). exists b', ni. by split_and!; auto.
    + injection Ee as <- <- Eni. exists b, ni. split_and!; [apply lookup_insert_eq|done|done|done].
  - intros i q [Hq|(k' & n & Hn & -> & ->)]%Hi.
    + destruct (H5' i q Hq) as (b' & ni & ? & ? & ? & ? & ?). exists b', ni. by split_and!; auto.
    + destruct (H4' k' n Hn) as (b' & ni & ? & ? & Hkey & ?). rewrite Hkey. injection Hkey as Hid _. rewrite Hid. exists b', ni. by split_and!; auto.
Qed.

Lemma world_step_inv db w w' : WInv db w → world_step w w' → WInv db w'.
Proof.
  intros Hi Hs. destruct Hs as [w k h peer Hk|w db' He|w s|w k t tr g r gw Ht E [Hr1 Hr2] Eg|w k|w e gw He E].
  - eapply WInv_aside; [exact Hi|done|done|done|done|apply Hi].
  - destruct (w_follow db w Hi) as [Hf Hl]. rewrite <- Hl in He. destruct (follow_snoc _ _ _ Hf He) as [Hf' Hl'].
    rewrite Hl in Hf', Hl'. eapply WInv_aside; [exact Hi|done|done| |done|by split]. simpl. by apply sublist_inserts_r.
  - eapply WInv_aside; [exact Hi|done|done|done| |apply Hi]. simpl. intros x Hx. apply elem_of_app. by left.
  - apply WInv_connects; [done| |done]. split; [done|]. simpl. eapply reads_more; [| |by split].
    + apply sublist_drop.
    + apply subseteq_drop.
  - eapply WInv_aside; [exact Hi|done|done|done|done|apply Hi].
  - by eapply WInv_gateway.
Qed.

Lemma world_reached_inv db s w : world_reached db s w → WInv db w.
Proof.
  intros Hr. unfold world_reached in Hr. pose proof (WInv_initial db s) as Hi. revert Hi. generalize (initial db s) Hr.
  clear Hr. intros w0 Hr. induction Hr as [|w0 w1 w2 Hs _ IH]; [done|]. intros Hi. by eapply IH, world_step_inv.
Qed.

Lemma genuine_earned db s w b :
  world_reached db s w → genuine w b → earned (b_run b) srv (b_headers b) (is_local c (b_headers b) (b_peer b)) (b_granted b).
Proof.
  intros Hr [E [Hw _]]. eapply upgrade_earned; [exact E|]. eapply follow_coherent; [|exact Hw].
  apply (w_follow db w). by eapply world_reached_inv.
Qed.

(** The gateway in the world is one that its own steps reach. *)
Lemma world_gateway db s w : world_reached db s w → Gateway.reached decode_error round_f32 service Gateway.any_event (gateway w).
Proof.
  intros Hr. unfold world_reached in Hr.
  assert (Hi : Gateway.reached decode_error round_f32 service Gateway.any_event (gateway (initial db s))) by constructor.
  revert Hi. generalize (initial db s) Hr. clear Hr. intros w0 Hr. induction Hr as [|w0 w1 w2 Hs _ IH]; [done|]. intros Hi.
  apply IH. destruct Hs as [| | |w k t tr g r gw Ht E Hr Eg| |w e gw He E]; try done; by eapply Gateway.reached_step.
Qed.

(** * Theorems *)

(** C4. A call runs for somebody who showed a credential.  Whatever handshakes, connections, calls
    and changes of the two stores interleave: a call whose handler ran came over a connection that has
    a handshake of its own; this ran, on statements that were executed on the gateway's pairing tables
    and on states that the gateway's store of credentials has had; it granted the role and the scopes
    of the call, which allow its method; and it did so for what it was shown: the identity of a node,
    a session, key, token or password, or because no credential was asked for. *)
Theorem calls_need_credentials db s w ctx :
  world_reached db s w → ctx ∈ Gateway.handled (gateway w) →
  authorize_method (Gateway.method ctx) (Gateway.client_role ctx) (Gateway.client_scopes ctx) = None ∧
  ∃ b, born w !! Gateway.client_conn_id ctx = Some b ∧
    ws_upgrade_handler c srv (b_headers b) (b_peer b) (start (b_trace b)) = (Go (b_granted b), b_run b) ∧
    reads (b_run b) (statements w) (stores w) ∧
    granted_role (b_granted b) = Gateway.client_role ctx ∧ granted_scopes (b_granted b) = Gateway.client_scopes ctx ∧
    earned (b_run b) srv (b_headers b) (is_local c (b_headers b) (b_peer b)) (b_granted b).
Proof.
  intros Hr Hin. pose proof (Gateway.inv_handled _ (Gateway.reached_Inv _ _ _ _ _ (world_gateway _ _ _ Hr))) as Hh.
  rewrite Forall_forall in Hh. destruct (Hh _ Hin) as (Ha & x & Hx & Hro & Hsc). split; [exact Ha|].
  pose proof (world_reached_inv _ _ _ Hr) as Hi. destruct (w_connections _ _ Hi (Gateway.client_conn_id ctx) (Gateway.c_role x, Gateway.c_scopes x))
    as (b & Hb & E). { unfold Gateway.authority. by rewrite lookup_fmap, Hx. }
  injection E as Er Es. pose proof (w_born _ _ Hi _ _ Hb) as Hg. exists b. destruct Hg as [Hrun Hreads].
  split_and!; [done|done|done|congruence|congruence|]. by eapply genuine_earned.
Qed.

(** C6. A node is who it says.  Every entry of the node registry, through renames, telemetry,
    connections that come and go and whatever else interleaves, is under the identifier that the
    handshake of its own connection, the one its invocations are sent to, has proved, on statements
    that were executed on the gateway's pairing tables; and that connection is a node without scopes. *)
Theorem nodes_prove_identity db s w i n :
  world_reached db s w → Gateway.nodes (Gateway.node_registry (gateway w)) !! i = Some n →
  Gateway.node_id n = i ∧
  (∃ b, born w !! Gateway.node_conn n = Some b ∧
    ws_upgrade_handler c srv (b_headers b) (b_peer b) (start (b_trace b)) = (Go (b_granted b), b_run b) ∧
    reads (b_run b) (statements w) (stores w) ∧
    node_proof (b_run b) (params (granted_client (b_granted b))) i) ∧
  ∃ x, Gateway.conns (gateway w) !! Gateway.node_conn n = Some x ∧ Gateway.c_role x = Roles.NODE ∧ Gateway.c_scopes x = [].
Proof.
  intros Hr Hn. pose proof (world_reached_inv _ _ _ Hr) as Hi.
  destruct (w_nodes _ _ Hi i (Gateway.key_of n)) as (b & ni & Hb & Hni & Hid & Hkey & a & Ha).
  { unfold Gateway.index. by rewrite lookup_fmap, Hn. }
  simpl in Hb, Hkey, Ha. split; [done|]. pose proof (w_born _ _ Hi _ _ Hb) as Hg.
  pose proof (genuine_earned _ _ _ _ Hr Hg) as He. unfold earned in He. unfold node_info in Hni.
  destruct (str_eqb (granted_role (b_granted b)) Roles.NODE) eqn:Er; [|done]. injection Hni as <-. apply str_eqb_true in Er.
  destruct He as [Hsc Hnp], Hg as [Hrun Hreads]. simpl in Hid. split.
  - exists b. split_and!; [done|done|done|]. by rewrite Hid.
  - destruct (w_connections _ _ Hi _ _ Ha) as (b' & Hb' & ->). assert (b' = b) as -> by congruence.
    unfold Gateway.authority in Ha. rewrite lookup_fmap, fmap_Some in Ha. destruct Ha as (x & Hx & [= Hro Hsx]).
    exists x. split_and!; [done|congruence|congruence].
Qed.
End world.

(** * Witnesses *)

Section witnesses.
Existing Instances signature_serde plain_ed25519 Pairing.plain_kit HttpAuth.toy_crypto.
Local Instance phone_decode : Decode := connect_as phone_params.
Notation step_here := (world_step (λ _, []) (λ x, x) Gateway.srv HttpAuth.plain pairing_only).
Notation reached_here := (world_reached (λ _, []) (λ x, x) Gateway.srv HttpAuth.plain pairing_only).

(** A phone pairs: its handshake begins, an operator approves the request in between, and then the phone
    is registered and calls. *)
Definition a_store : Credentials.CredentialStore := HttpAuth.store HttpAuth.with_read_key.
Definition before : World := initial Pairing.empty_db a_store.
Definition asking : World := with_shaking before (<[lit "c" := {| s_headers := []; s_peer := HttpAuth.remote_peer; s_statements := 0; s_stores := 0 |}]> ∅).
Definition tables : list Pairing.DB :=
  [Pairing.empty_db; Pairing.empty_db; Pairing.empty_db; requested_db; requested_db; approved_db; approved_db].
Definition paired_up : World := foldl executed asking tables.
Definition phone_birth : Birth :=
  {| b_headers := []; b_peer := HttpAuth.remote_peer; b_trace := pairing_trace; b_granted := phone_granted; b_run := phone_upgrade.2 |}.
Definition phone_connects : Gateway.Event :=
  Gateway.Connect (connected_client "c" phone_granted) Roles.NODE (node_info phone_granted).
Definition connected : World := enters paired_up "c" phone_birth (Gateway.after [phone_connects]).
Definition goes : list Gateway.Event := replicate 3 (Gateway.Advance "c") ++ [Gateway.call "c" "1" "node.event" [] ""].
Definition called : World := with_gateway connected (Gateway.after (phone_connects :: goes)).

Lemma gateway_goes_on es : ∀ w gw,
  Forall (λ e, ∀ cl r n, e ≠ Gateway.Connect cl r n) es → Gateway.run Gateway.anyb es (gateway w) = Some gw →
  rtc step_here w (with_gateway w gw).
Proof.
  induction es as [|e es IH]; intros w gw Hes; simpl.
  - intros [= <-]. destruct w. reflexivity.
  - apply Forall_cons in Hes as [He Hes]. intros (g1 & E1 & E2)%bind_Some.
    eapply rtc_l; [by eapply goes_on|]. exact (IH (with_gateway w g1) gw Hes E2).
Qed.

Lemma tables_evolve : rtc step_here asking paired_up.
Proof.
  unfold paired_up, tables. cbn [foldl]. do 3 (eapply rtc_l; [apply executes, evolves_refl|]).
  eapply rtc_l; [apply executes; exact (evolves_run at_request (Pairing.RequestPair "phone" None "ios" (Some pk)) [] Pairing.empty_db)|].
  eapply rtc_l; [apply executes, evolves_refl|].
  eapply rtc_l; [apply executes; exact (evolves_run (Pairing.at_ 1 "a") (Pairing.Approve "r") [] requested_db)|].
  eapply rtc_l; [apply executes, evolves_refl|]. reflexivity.
Qed.

Lemma phone_reads : reads phone_upgrade.2 (statements paired_up) (stores paired_up).
Proof.
  split.
  - rewrite phone_writes. unfold paired_up, tables. simpl. do 5 apply sublist_skip. apply sublist_cons, sublist_skip, sublist_nil_l.
  - rewrite phone_saw. intros o s Ho Hs. repeat (apply elem_of_cons in Ho as [->|Ho]; [done|]). by apply elem_of_nil in Ho.
Qed.

Lemma called_reached : reached_here Pairing.empty_db a_store called.
Proof.
  eapply rtc_l; [by apply (begins _ _ _ _ _ before "c" [] HttpAuth.remote_peer)|].
  etrans; [exact tables_evolve|]. eapply rtc_l.
  - apply (connects _ _ _ _ _ paired_up "c" {| s_headers := []; s_peer := HttpAuth.remote_peer; s_statements := 0; s_stores := 0 |}
      pairing_trace phone_granted phone_upgrade.2 (Gateway.after [phone_connects])).
    + done.
    + vm_compute. reflexivity.
    + exact phone_reads.
    + vm_compute. reflexivity.
  - apply (gateway_goes_on goes connected).
    + unfold goes. simpl. by repeat constructor.
    + vm_compute. reflexivity.
Qed.

Definition phone_ctx : Gateway.MethodContext :=
  {| Gateway.request_id := "1"; Gateway.method := "node.event"; Gateway.params := JObject []; Gateway.client_conn_id := "c";
     Gateway.client_role := Roles.NODE; Gateway.client_scopes := [] |}.

Lemma calls_need_credentials_witness :
  phone_ctx ∈ Gateway.handled (gateway called) ∧
  authorize_method "node.event" Roles.NODE [] = None ∧
  ∃ b, born called !! lit "c" = Some b ∧
    ws_upgrade_handler HttpAuth.plain pairing_only (b_headers b) (b_peer b) (start (b_trace b)) = (Go (b_granted b), b_run b) ∧
    reads (b_run b) (statements called) (stores called) ∧
    granted_role (b_granted b) = Roles.NODE ∧ granted_scopes (b_granted b) = [] ∧
    earned (b_run b) pairing_only (b_headers b) (is_local HttpAuth.plain (b_headers b) (b_peer b)) (b_granted b).
Proof.
  assert (Hin : phone_ctx ∈ Gateway.handled (gateway called)) by (apply (list_elem_of_lookup_2 _ 0%nat); vm_compute; reflexivity).
  split; [exact Hin|].
  exact (calls_need_credentials (λ _, []) (λ x, x) Gateway.srv HttpAuth.plain pairing_only Pairing.empty_db a_store called phone_ctx
           called_reached Hin).
Defined.

Definition phone_session : Gateway.NodeSession :=
  {| Gateway.node_id := "phone"; Gateway.node_conn := "c"; Gateway.display_name := None; Gateway.platform := "ios";
     Gateway.commands := []; Gateway.telemetry := Gateway.no_telemetry |}.
Lemma nodes_prove_identity_witness :
  Gateway.node_id phone_session = lit "phone" ∧
  (∃ b, born called !! lit "c" = Some b ∧
    ws_upgrade_handler HttpAuth.plain pairing_only (b_headers b) (b_peer b) (start (b_trace b)) = (Go (b_granted b), b_run b) ∧
    reads (b_run b) (statements called) (stores called) ∧
    node_proof (b_run b) (params (granted_client (b_granted b))) "phone") ∧
  ∃ x, Gateway.conns (gateway called) !! lit "c" = Some x ∧ Gateway.c_role x = Roles.NODE ∧ Gateway.c_scopes x = [].
Proof.
  apply (nodes_prove_identity (λ _, []) (λ x, x) Gateway.srv HttpAuth.plain pairing_only Pairing.empty_db a_store called "phone" phone_session).
  - exact called_reached.
  - vm_compute. reflexivity.
Defined.
End witnesses.
