(* ===== verification/Ssrf.v ===== *)
(** Which addresses may be requested on behalf of somebody else.

    Models [crates/common/src/ssrf.rs], which channels and push messages use, and
    [crates/tools/src/ssrf.rs], which the tools use.  An address is a number of 32 or 128 bits; octets
    and segments are taken from it by shifts and masks, as the standard library does.  Networks of an
    allowlist are those of the [ipnet] crate and a parameter.

    Theorems: the check of [common] is a table of networks ([private_ip_table]); that of the tools
    misses a part of it, and what it misses is a table too ([tools_check_misses]).  A host passes only
    if it resolves, and to nothing but addresses that are not private or allowed ([check_Ok]).

    The proofs of the tables cut an address into its words ([in_net_words]) and decide the comparisons
    of one word after the other. *)
From S2P Require Import Prelude Json Utf8 ToolArgs Http.
Local Open Scope Z_scope.

(** * Addresses *)

(** The octet of an IPv4 address and the segment of an IPv6 address, from the left. *)
Definition octet (i v : Z) : Z := Z.land (Z.shiftr v (8 * (3 - i))) 255.
Definition segment (i v : Z) : Z := Z.land (Z.shiftr v (16 * (7 - i))) 65535.

(** An address of its width. *)
Definition valid (ip : IpAddr) : Prop := match ip with V4 v => 0 ≤ v < 2 ^ 32 | V6 v => 0 ≤ v < 2 ^ 128 end.

Definition between (lo hi x : Z) : bool := (lo <=? x) && (x <=? hi).

(** The predicates of [Ipv4Addr] and [Ipv6Addr]. *)
Module V4Addr.
Definition is_loopback (v : Z) : bool := octet 0 v =? 127.
Definition is_private (v : Z) : bool :=
  (octet 0 v =? 10) || (octet 0 v =? 172) && between 16 31 (octet 1 v) || (octet 0 v =? 192) && (octet 1 v =? 168).
Definition is_link_local (v : Z) : bool := (octet 0 v =? 169) && (octet 1 v =? 254).
Definition is_broadcast (v : Z) : bool := v =? 4294967295.
Definition is_unspecified (v : Z) : bool := v =? 0.
Definition is_multicast (v : Z) : bool := between 224 239 (octet 0 v).
End V4Addr.
Module V6Addr.
Definition is_loopback (v : Z) : bool := v =? 1.
Definition is_unspecified (v : Z) : bool := v =? 0.
Definition is_multicast (v : Z) : bool := Z.land (segment 0 v) 65280 =? 65280.
Definition zero_segments (n : nat) (v : Z) : bool := forallb (λ i, segment (Z.of_nat i) v =? 0) (seq 0 n).
Definition is_ipv4_mapped (v : Z) : bool := zero_segments 5 v && (segment 5 v =? 65535).
End V6Addr.

(** * The check of [common] *)

Module Common.
Definition is_private_ipv4 (v4 : Z) : bool :=
  let a := octet 0 v4 in let b := octet 1 v4 in let c := octet 2 v4 in let d := octet 3 v4 in
  (a =? 0) || V4Addr.is_loopback v4 || V4Addr.is_private v4 || V4Addr.is_link_local v4 || V4Addr.is_broadcast v4
  || V4Addr.is_unspecified v4 || V4Addr.is_multicast v4
  || (a =? 100) && between 64 127 b
  || (a =? 192) && (b =? 0) && (c =? 0) && negb ((d =? 9) || (d =? 10))
  || (a =? 192) && (b =? 0) && (c =? 2)
  || (a =? 198) && ((b =? 18) || (b =? 19))
  || (a =? 198) && (b =? 51) && (c =? 100)
  || (a =? 192) && (b =? 88) && (c =? 99)
  || (a =? 203) && (b =? 0) && (c =? 113)
  || (240 <=? a).

Definition is_private_ipv6 (v6 : Z) : bool :=
  let s i := segment i v6 in
  let site_local := Z.land (s 0) 65472 =? 65216 in                          (** [0xffc0], [0xfec0] *)
  let documentation_3fff := (s 0 =? 16383) && (Z.land (s 1) 61440 =? 0) in
  let documentation_2001 := (s 0 =? 8193) && (s 1 =? 3512) in
  let discard_only := (s 0 =? 256) && (s 1 =? 0) && (s 2 =? 0) && (s 3 =? 0) in
  let dummy_prefix := (s 0 =? 256) && (s 1 =? 0) && (s 2 =? 0) && (s 3 =? 1) in
  let local_translation := (s 0 =? 100) && (s 1 =? 65435) && (s 2 =? 1) in
  let ipv4_compatible := V6Addr.zero_segments 6 v6 in
  let ietf_protocol_exception :=
    (v6 =? 0x20010001000000000000000000000001) || (v6 =? 0x20010001000000000000000000000002)
    || (s 0 =? 8193) && (s 1 =? 3)
    || (s 0 =? 8193) && (s 1 =? 4) && (s 2 =? 274)
    || (s 0 =? 8193) && between 32 63 (s 1) in
  let ietf_protocol_assignment := (s 0 =? 8193) && (s 1 <? 512) && negb ietf_protocol_exception in
  V6Addr.is_loopback v6 || V6Addr.is_unspecified v6 || V6Addr.is_multicast v6 || V6Addr.is_ipv4_mapped v6
  || (Z.land (s 0) 65024 =? 64512)
  || (Z.land (s 0) 65472 =? 65152)
  || site_local || documentation_3fff || documentation_2001 || discard_only || dummy_prefix || local_translation
  || ipv4_compatible || ietf_protocol_assignment
  || (s 0 =? 8194) || (s 0 =? 24320).

Definition is_private_ip (ip : IpAddr) : bool :=
  match ip with V4 v => is_private_ipv4 v | V6 v => is_private_ipv6 v end.
End Common.

(** * The check of the tools *)

Module Tools.
Definition is_private_ip (ip : IpAddr) : bool :=
  match ip with
  | V4 v =>
      V4Addr.is_loopback v || V4Addr.is_private v || V4Addr.is_link_local v || V4Addr.is_broadcast v
      || V4Addr.is_unspecified v
      || (octet 0 v =? 100) && (Z.land (octet 1 v) 192 =? 64)
      || (octet 0 v =? 192) && (octet 1 v =? 0) && (octet 2 v =? 0)
  | V6 v =>
      V6Addr.is_loopback v || V6Addr.is_unspecified v
      || (Z.land (segment 0 v) 65024 =? 64512)
      || (Z.land (segment 0 v) 65472 =? 65152)
  end.
End Tools.

(** * The check of a host *)

Section check.
Context `{NetParse} {Net : Type} (contains : Net → IpAddr → bool) (show_ip : IpAddr → str).

Definition is_ssrf_allowed (ip : IpAddr) (allowlist : list Net) : bool := existsb (λ net, contains net ip) allowlist.

(** [is_private] and [what] are those of either file. *)
Definition validate_ssrf_ips (is_private : IpAddr → bool) (what host : str) (ips : list IpAddr) (allowlist : list Net)
    : result unit str :=
  if negb (is_nonempty ips) then Err (lit "DNS resolution failed for " ++ host)
  else match List.find (λ ip, is_private ip && negb (is_ssrf_allowed ip allowlist)) ips with
  | Some ip => Err (lit "SSRF blocked: " ++ host ++ lit " resolves to " ++ what ++ lit " IP " ++ show_ip ip)
  | None => Ok tt
  end.

(** [dns] is the answer to the lookup, if there is one. *)
Definition ssrf_check_with (is_private : IpAddr → bool) (what : str) (host : option str) (dns : result (list IpAddr) str)
    (allowlist : list Net) : result unit str :=
  match host with
  | None => Err (lit "URL has no host")
  | Some host =>
      match parse_ip_addr host with
      | Some ip => validate_ssrf_ips is_private what host [ip] allowlist
      | None =>
          match dns with
          | Ok ips => validate_ssrf_ips is_private what host ips allowlist
          | Err e => Err e
          end
      end
  end.
Definition common_ssrf_check := ssrf_check_with Common.is_private_ip (lit "non-global").
Definition tools_ssrf_check := ssrf_check_with Tools.is_private_ip (lit "private").

(** The addresses that a check looks at. *)
Definition looked_at (host : str) (dns : result (list IpAddr) str) : list IpAddr :=
  match parse_ip_addr host with Some ip => [ip] | None => match dns with Ok ips => ips | Err _ => [] end end.

Lemma validate_ips_Ok is_private what host ips allowlist :
  validate_ssrf_ips is_private what host ips allowlist = Ok tt ↔
  ips ≠ [] ∧ ∀ ip, ip ∈ ips → is_private ip = false ∨ is_ssrf_allowed ip allowlist = true.
Proof.
  unfold validate_ssrf_ips. destruct ips as [|ip0 ips]; [by split; [|intros [? _]]|]. cbn [is_nonempty negb].
  destruct (List.find _ (ip0 :: ips)) as [ip|] eqn:Ef; split; try done.
  - intros [_ Hall]. apply find_some in Ef as [Hin%list_elem_of_In Hb]. apply andb_true_iff in Hb as [Hp Hn].
    apply negb_true_iff in Hn. destruct (Hall _ Hin); congruence.
  - intros _. split; [done|]. intros ip Hin%list_elem_of_In. pose proof (find_none _ _ Ef _ Hin) as Hn. simpl in Hn.
    apply andb_false_iff in Hn as [Hn|Hn]; [by left|right]. by apply negb_false_iff in Hn.
Qed.

Lemma check_Ok is_private what host dns allowlist :
  ssrf_check_with is_private what host dns allowlist = Ok tt ↔
  ∃ h, host = Some h ∧ looked_at h dns ≠ [] ∧
    ∀ ip, ip ∈ looked_at h dns → is_private ip = false ∨ is_ssrf_allowed ip allowlist = true.
Proof.
  unfold ssrf_check_with, looked_at. destruct host as [h|]; [|split; [done|by intros (? & ? & _)]].
  destruct (parse_ip_addr h) as [ip|] eqn:Ep.
  - rewrite validate_ips_Ok. split; [intros ?; exists h; by rewrite Ep|]. intros (? & [= <-] & Hx). by rewrite Ep in Hx.
  - destruct dns as [ips|e].
    + rewrite validate_ips_Ok. split; [intros ?; exists h; by rewrite Ep|]. intros (? & [= <-] & Hx). by rewrite Ep in Hx.
    + split; [done|]. intros (? & [= <-] & Hx & _). by rewrite Ep in Hx.
Qed.
End check.

(** * The tables

    Networks in CIDR notation: a first address and the length of the prefix. *)

Definition in_net (w : Z) (net : Z * Z) (v : Z) : bool := Z.shiftr v (w - net.2) =? Z.shiftr net.1 (w - net.2).
Definition in_some (w : Z) (nets : list (Z * Z)) (v : Z) : bool := existsb (λ net, in_net w net v) nets.
Definition ip4 (a b c d : Z) : Z := ((a * 256 + b) * 256 + c) * 256 + d.
(** The first segments of an IPv6 address; the others are zero. *)
Definition ip6 (s0 s1 s2 s3 : Z) : Z := (((s0 * 65536 + s1) * 65536 + s2) * 65536 + s3) * 2 ^ 64.

(** What is not global, and what is within it. *)
Definition non_global4 : list (Z * Z) :=
  [(ip4 0 0 0 0, 8); (ip4 10 0 0 0, 8); (ip4 100 64 0 0, 10); (ip4 127 0 0 0, 8); (ip4 169 254 0 0, 16);
   (ip4 172 16 0 0, 12); (ip4 192 0 0 0, 24); (ip4 192 0 2 0, 24); (ip4 192 88 99 0, 24); (ip4 192 168 0 0, 16);
   (ip4 198 18 0 0, 15); (ip4 198 51 100 0, 24); (ip4 203 0 113 0, 24); (ip4 224 0 0 0, 4); (ip4 240 0 0 0, 4)].
Definition global4 : list (Z * Z) := [(ip4 192 0 0 9, 32); (ip4 192 0 0 10, 32)].
Definition non_global6 : list (Z * Z) :=
  [(0, 96); (0xffff * 2 ^ 32, 96);                                 (** ::/96, ::ffff:0:0/96 *)
   (ip6 0x64 0xff9b 1 0, 48); (ip6 0x100 0 0 0, 64); (ip6 0x100 0 0 1, 64); (ip6 0x2001 0 0 0, 23);
   (ip6 0x2001 0xdb8 0 0, 32); (ip6 0x2002 0 0 0, 16); (ip6 0x3fff 0 0 0, 20); (ip6 0x5f00 0 0 0, 16);
   (ip6 0xfc00 0 0 0, 7); (ip6 0xfe80 0 0 0, 10); (ip6 0xfec0 0 0 0, 10); (ip6 0xff00 0 0 0, 8)].
Definition global6 : list (Z * Z) :=
  [(ip6 0x2001 1 0 0 + 1, 128); (ip6 0x2001 1 0 0 + 2, 128); (ip6 0x2001 3 0 0, 32); (ip6 0x2001 4 0x112 0, 48);
   (ip6 0x2001 0x20 0 0, 27)].
Definition non_global (ip : IpAddr) : bool :=
  match ip with
  | V4 v => in_some 32 non_global4 v && negb (in_some 32 global4 v)
  | V6 v => in_some 128 non_global6 v && negb (in_some 128 global6 v)
  end.

(** What the tools request although it is not global. *)
Definition missed4 : list (Z * Z) :=
  [(ip4 0 0 0 0, 8); (ip4 192 0 2 0, 24); (ip4 192 88 99 0, 24); (ip4 198 18 0 0, 15); (ip4 198 51 100 0, 24);
   (ip4 203 0 113 0, 24); (ip4 224 0 0 0, 4); (ip4 240 0 0 0, 4)].
Definition missed6 : list (Z * Z) :=
  [(0, 96); (0xffff * 2 ^ 32, 96);
   (ip6 0x64 0xff9b 1 0, 48); (ip6 0x100 0 0 0, 64); (ip6 0x100 0 0 1, 64); (ip6 0x2001 0 0 0, 23);
   (ip6 0x2001 0xdb8 0 0, 32); (ip6 0x2002 0 0 0, 16); (ip6 0x3fff 0 0 0, 20); (ip6 0x5f00 0 0 0, 16);
   (ip6 0xfec0 0 0 0, 10); (ip6 0xff00 0 0 0, 8)].
Definition missed (ip : IpAddr) : bool :=
  match ip with
  | V4 v => in_some 32 missed4 v && negb (v =? ip4 0 0 0 0) && negb (v =? ip4 255 255 255 255)
  | V6 v => in_some 128 missed6 v && negb (in_some 128 global6 v) && negb (v =? 0) && negb (v =? 1)
  end.

(** ** Octets and segments *)

Lemma land_mod x n : 0 ≤ n → Z.land x (2 ^ n - 1) = x mod 2 ^ n.
Proof. intros Hn. rewrite <- Z.land_ones by done. f_equal. by rewrite Z.ones_equiv, Z.sub_1_r. Qed.

Lemma octet_range i v : 0 ≤ octet i v < 256.
Proof. unfold octet. change 255 with (2 ^ 8 - 1). rewrite land_mod by done. by apply Z.mod_pos_bound. Qed.
Lemma segment_range i v : 0 ≤ segment i v < 65536.
Proof. unfold segment. change 65535 with (2 ^ 16 - 1). rewrite land_mod by done. by apply Z.mod_pos_bound. Qed.

Lemma shiftr_octet i v : 1 ≤ i ≤ 3 → Z.shiftr v (8 * (3 - i)) = Z.shiftr v (8 * (3 - (i - 1))) * 256 + octet i v.
Proof.
  intros Hi. unfold octet. change 255 with (2 ^ 8 - 1). rewrite land_mod by done.
  replace (8 * (3 - (i - 1))) with (8 * (3 - i) + 8) by lia. rewrite <- Z.shiftr_shiftr, (Z.shiftr_div_pow2 _ 8) by lia.
  change (2 ^ 8) with 256. pose proof (Z.div_mod (Z.shiftr v (8 * (3 - i))) 256). lia.
Qed.
Lemma shiftr_segment i v : 1 ≤ i ≤ 7 → Z.shiftr v (16 * (7 - i)) = Z.shiftr v (16 * (7 - (i - 1))) * 65536 + segment i v.
Proof.
  intros Hi. unfold segment. change 65535 with (2 ^ 16 - 1). rewrite land_mod by done.
  replace (16 * (7 - (i - 1))) with (16 * (7 - i) + 16) by lia. rewrite <- Z.shiftr_shiftr, (Z.shiftr_div_pow2 _ 16) by lia.
  change (2 ^ 16) with 65536. pose proof (Z.div_mod (Z.shiftr v (16 * (7 - i))) 65536). lia.
Qed.

(** The prefixes of a valid IPv4 address. *)
Lemma prefixes4 v :
  0 ≤ v < 2 ^ 32 →
  Z.shiftr v 24 = octet 0 v ∧ Z.shiftr v 16 = octet 0 v * 256 + octet 1 v ∧
  Z.shiftr v 8 = (octet 0 v * 256 + octet 1 v) * 256 + octet 2 v ∧
  v = ((octet 0 v * 256 + octet 1 v) * 256 + octet 2 v) * 256 + octet 3 v.
Proof.
  intros Hv. assert (H0 : Z.shiftr v 24 = octet 0 v).
  { unfold octet. change 255 with (2 ^ 8 - 1). rewrite land_mod, Z.mod_small; [done| |done].
    rewrite Z.shiftr_div_pow2 by done. split; [apply Z.div_pos; lia|apply Z.div_lt_upper_bound; lia]. }
  pose proof (shiftr_octet 1 v) as H1. pose proof (shiftr_octet 2 v) as H2. pose proof (shiftr_octet 3 v) as H3.
  change (8 * (3 - 1)) with 16 in H1. change (8 * (3 - (1 - 1))) with 24 in H1.
  change (8 * (3 - 2)) with 8 in H2. change (8 * (3 - (2 - 1))) with 16 in H2.
  change (8 * (3 - 3)) with 0 in H3. change (8 * (3 - (3 - 1))) with 8 in H3. rewrite Z.shiftr_0_r in H3.
  rewrite H0 in H1. split_and!; [done|lia|lia|lia].
Qed.
Lemma prefixes6 v :
  0 ≤ v < 2 ^ 128 →
  let s i := segment i v in
  Z.shiftr v 112 = s 0 ∧ Z.shiftr v 96 = s 0 * 65536 + s 1 ∧ Z.shiftr v 80 = (s 0 * 65536 + s 1) * 65536 + s 2 ∧
  Z.shiftr v 64 = ((s 0 * 65536 + s 1) * 65536 + s 2) * 65536 + s 3 ∧
  Z.shiftr v 32 = ((((s 0 * 65536 + s 1) * 65536 + s 2) * 65536 + s 3) * 65536 + s 4) * 65536 + s 5 ∧
  v = ((((((s 0 * 65536 + s 1) * 65536 + s 2) * 65536 + s 3) * 65536 + s 4) * 65536 + s 5) * 65536 + s 6) * 65536 + s 7.
Proof.
  intros Hv s. assert (H0 : Z.shiftr v 112 = s 0).
  { unfold s, segment. change 65535 with (2 ^ 16 - 1). rewrite land_mod, Z.mod_small; [done| |done].
    rewrite Z.shiftr_div_pow2 by done. split; [apply Z.div_pos; lia|apply Z.div_lt_upper_bound; lia]. }
  pose proof (shiftr_segment 1 v) as H1. pose proof (shiftr_segment 2 v) as H2. pose proof (shiftr_segment 3 v) as H3.
  pose proof (shiftr_segment 4 v) as H4. pose proof (shiftr_segment 5 v) as H5. pose proof (shiftr_segment 6 v) as H6.
  pose proof (shiftr_segment 7 v) as H7.
  change (16 * (7 - 1)) with 96 in H1. change (16 * (7 - (1 - 1))) with 112 in H1.
  change (16 * (7 - 2)) with 80 in H2. change (16 * (7 - (2 - 1))) with 96 in H2.
  change (16 * (7 - 3)) with 64 in H3. change (16 * (7 - (3 - 1))) with 80 in H3.
  change (16 * (7 - 4)) with 48 in H4. change (16 * (7 - (4 - 1))) with 64 in H4.
  change (16 * (7 - 5)) with 32 in H5. change (16 * (7 - (5 - 1))) with 48 in H5.
  change (16 * (7 - 6)) with 16 in H6. change (16 * (7 - (6 - 1))) with 32 in H6.
  change (16 * (7 - 7)) with 0 in H7. change (16 * (7 - (7 - 1))) with 16 in H7.
  change (Z.shiftr v 0) with v in H7. fold (s 1) in H1. fold (s 2) in H2. fold (s 3) in H3. fold (s 4) in H4. fold (s 5) in H5.
  fold (s 6) in H6. fold (s 7) in H7. rewrite H0 in H1. clearbody s. split_and!; lia.
Qed.

(** ** Networks in words

    An address as its words, of [W] bits each, from the left; a prefix covers whole words and a part of
    the next one. *)

Definition value (W : Z) (ws : list Z) : Z := fold_left (λ v w, v * 2 ^ W + w) ws 0.
Definition words_ok (W : Z) (ws : list Z) : Prop := Forall (λ w, 0 ≤ w < 2 ^ W) ws.
Fixpoint prefix_eqb (W p : Z) (ns ws : list Z) : bool :=
  match ns, ws with
  | n :: ns, w :: ws =>
      if W <=? p then (w =? n) && prefix_eqb W (p - W) ns ws
      else between (n / 2 ^ (W - p) * 2 ^ (W - p)) (n / 2 ^ (W - p) * 2 ^ (W - p) + 2 ^ (W - p) - 1) w
  | _, _ => true
  end.

Lemma fold_value W ws v : 0 ≤ W → fold_left (λ v w, v * 2 ^ W + w) ws v = v * 2 ^ (W * Z.of_nat (length ws)) + value W ws.
Proof.
  intros HW. unfold value. revert v. induction ws as [|w ws IH]; intros v; cbn [fold_left length].
  - change (Z.of_nat 0) with 0. rewrite Z.mul_0_r. change (2 ^ 0) with 1. lia.
  - rewrite (IH (v * 2 ^ W + w)), (IH (0 * 2 ^ W + w)). rewrite Nat2Z.inj_succ, Z.mul_succ_r, Z.pow_add_r by lia. ring.
Qed.
Lemma value_cons W w ws : 0 ≤ W → value W (w :: ws) = w * 2 ^ (W * Z.of_nat (length ws)) + value W ws.
Proof. intros HW. unfold value at 1. simpl. by rewrite fold_value. Qed.
Lemma value_range W ws : 0 ≤ W → words_ok W ws → 0 ≤ value W ws < 2 ^ (W * Z.of_nat (length ws)).
Proof.
  intros HW. induction 1 as [|w ws Hw _ IH]; [unfold value; simpl; rewrite Z.mul_0_r; change (2 ^ 0) with 1; lia|].
  rewrite value_cons by done. cbn [length]. rewrite Nat2Z.inj_succ, Z.mul_succ_r, Z.pow_add_r by lia.
  set (q := 2 ^ (W * Z.of_nat (length ws))) in *. set (m := 2 ^ W) in *. clearbody q m.
  assert (w * q ≤ (m - 1) * q) by (apply Z.mul_le_mono_nonneg_r; lia). nia.
Qed.

Lemma pair_eqb m x y x' y' : 0 ≤ y < m → 0 ≤ y' < m → (x * m + y =? x' * m + y') = (x =? x') && (y =? y').
Proof.
  intros Hy Hy'. apply eq_true_iff_eq. rewrite andb_true_iff, !Z.eqb_eq. split; [|by intros [-> ->]].
  intros E. assert (x = x') as ->; [|lia].
  rewrite (Z.div_unique (x * m + y) m x y), (Z.div_unique (x * m + y) m x' y') by lia. done.
Qed.
Lemma div_eqb m y k : 0 < m → (y / m =? k / m) = between (k / m * m) (k / m * m + m - 1) y.
Proof.
  intros Hm. generalize (k / m). clear k. intros k. apply eq_true_iff_eq. unfold between. rewrite andb_true_iff, Z.eqb_eq, !Z.leb_le.
  pose proof (Z.div_mod y m ltac:(lia)). pose proof (Z.mod_pos_bound y m Hm). split; [intros <-; lia|].
  intros [? ?]. symmetry. apply (Z.div_unique y m k (y - k * m)); lia.
Qed.

(** Bits of the words after the first are split off. *)
Lemma shiftr_tail x y a b : 0 ≤ b ≤ a → 0 ≤ y < 2 ^ a → Z.shiftr (x * 2 ^ a + y) b = x * 2 ^ (a - b) + Z.shiftr y b.
Proof.
  intros Hb Hy. rewrite !Z.shiftr_div_pow2 by lia. replace a with (a - b + b) at 1 by lia.
  rewrite Z.pow_add_r, Z.mul_assoc by lia. rewrite Z.div_add_l; [done|]. lia.
Qed.
Lemma shiftr_head x y a b : 0 ≤ a ≤ b → 0 ≤ y < 2 ^ a → Z.shiftr (x * 2 ^ a + y) b = x / 2 ^ (b - a).
Proof.
  intros Hb Hy. replace b with (a + (b - a)) at 1 by lia. rewrite <- Z.shiftr_shiftr by lia.
  rewrite !Z.shiftr_div_pow2 by lia. rewrite Z.div_add_l, (Z.div_small y) by lia. by rewrite Z.add_0_r.
Qed.
Lemma shiftr_small y a b : 0 ≤ b ≤ a → 0 ≤ y < 2 ^ a → 0 ≤ Z.shiftr y b < 2 ^ (a - b).
Proof.
  intros Hb Hy. rewrite Z.shiftr_div_pow2 by lia. split; [apply Z.div_pos; lia|].
  apply Z.div_lt_upper_bound; [lia|]. rewrite <- Z.pow_add_r by lia. replace (b + (a - b)) with a by lia. lia.
Qed.

Lemma in_net_words W p ns ws :
  0 < W → length ns = length ws → words_ok W ns → words_ok W ws → 0 ≤ p ≤ W * Z.of_nat (length ws) →
  in_net (W * Z.of_nat (length ws)) (value W ns, p) (value W ws) = prefix_eqb W p ns ws.
Proof.
  intros HW Hl Hns. revert p ws Hl. induction Hns as [|n ns Hn Hns IH]; intros p ws Hl Hws Hp.
  { destruct ws; [|done]. unfold in_net. apply Z.eqb_refl. }
  destruct Hws as [|w ws Hw Hws]; [done|]. injection Hl as Hl. unfold in_net. cbn [fst snd prefix_eqb].
  rewrite !value_cons, Hl by lia. cbn [length] in *. set (k := W * Z.of_nat (length ws)).
  assert (Hk : W * Z.of_nat (S (length ws)) = k + W) by lia. rewrite Hk in *.
  pose proof (value_range W ws ltac:(lia) Hws) as Hvw. pose proof (value_range W ns ltac:(lia) Hns) as Hvn. rewrite Hl in Hvn.
  fold k in Hvw, Hvn. destruct (Z.leb_spec W p).
  - replace (k + W - p) with (k - (p - W)) by lia. rewrite !shiftr_tail by lia.
    rewrite pair_eqb; [|apply shiftr_small; lia..]. f_equal. unfold in_net in IH. cbn [fst snd] in IH.
    rewrite <- (IH (p - W) ws Hl Hws) by lia. done.
  - replace (k + W - p) with (k + (W - p)) by lia. rewrite !shiftr_head by lia.
    replace (k + (W - p) - k) with (W - p) by lia. apply div_eqb. lia.
Qed.

(** An address is its octets or segments. *)
Definition octets (v : Z) : list Z := map (λ i, octet i v) [0; 1; 2; 3].
Definition segments (v : Z) : list Z := map (λ i, segment i v) [0; 1; 2; 3; 4; 5; 6; 7].

Lemma in_net4 net v :
  0 ≤ net.1 < 2 ^ 32 → 0 ≤ net.2 ≤ 32 → 0 ≤ v < 2 ^ 32 → in_net 32 net v = prefix_eqb 8 net.2 (octets net.1) (octets v).
Proof.
  intros Hn Hp Hv. rewrite <- in_net_words; [|done|done|repeat constructor; apply octet_range..|done].
  destruct (prefixes4 _ Hn) as (_ & _ & _ & En). destruct (prefixes4 _ Hv) as (_ & _ & _ & Ev).
  replace (value 8 (octets net.1)) with (net.1) by done. replace (value 8 (octets v)) with v by done. by destruct net.
Qed.
Lemma in_net6 net v :
  0 ≤ net.1 < 2 ^ 128 → 0 ≤ net.2 ≤ 128 → 0 ≤ v < 2 ^ 128 →
  in_net 128 net v = prefix_eqb 16 net.2 (segments net.1) (segments v).
Proof.
  intros Hn Hp Hv. rewrite <- in_net_words; [|done|done|repeat constructor; apply segment_range..|done].
  pose proof (prefixes6 _ Hn) as (_ & _ & _ & _ & _ & En). pose proof (prefixes6 _ Hv) as (_ & _ & _ & _ & _ & Ev).
  replace (value 16 (segments net.1)) with (net.1) by done. replace (value 16 (segments v)) with v by done. by destruct net.
Qed.

(** ** Tables in words *)

Definition net_ok (w : Z) (net : Z * Z) : bool := (0 <=? net.1) && (net.1 <? 2 ^ w) && (0 <=? net.2) && (net.2 <=? w).

Lemma existsb_ext {A} (f g : A → bool) l : (∀ x, x ∈ l → f x = g x) → existsb f l = existsb g l.
Proof.
  induction l as [|x l IH]; intros Hfg; [done|]. simpl. rewrite (Hfg x) by apply list_elem_of_here. f_equal.
  apply IH. intros y Hy. apply Hfg. by apply list_elem_of_further.
Qed.
Lemma in_some_ext w W (words : Z → list Z) nets v :
  (∀ net, net_ok w net = true → in_net w net v = prefix_eqb W net.2 (words net.1) (words v)) →
  forallb (net_ok w) nets = true →
  in_some w nets v = existsb (λ net, prefix_eqb W net.1 net.2 (words v)) (map (λ net, (net.2, words net.1)) nets).
Proof.
  intros Hnet Hok. rewrite forallb_forall in Hok. unfold in_some. rewrite (existsb_ext _ (λ net, prefix_eqb W net.2 (words net.1) (words v))).
  - clear. induction nets as [|net nets IH]; [done|]. simpl. by rewrite IH.
  - intros net Hin. apply Hnet, Hok. by apply list_elem_of_In.
Qed.
Lemma in_some4 nets v :
  0 ≤ v < 2 ^ 32 → forallb (net_ok 32) nets = true →
  in_some 32 nets v = existsb (λ net, prefix_eqb 8 net.1 net.2 (octets v)) (map (λ net, (net.2, octets net.1)) nets).
Proof.
  intros Hv. apply (in_some_ext 32 8 octets). intros net Hok. unfold net_ok in Hok. apply in_net4; lia.
Qed.
Lemma in_some6 nets v :
  0 ≤ v < 2 ^ 128 → forallb (net_ok 128) nets = true →
  in_some 128 nets v = existsb (λ net, prefix_eqb 16 net.1 net.2 (segments v)) (map (λ net, (net.2, segments net.1)) nets).
Proof.
  intros Hv. apply (in_some_ext 128 16 segments). intros net Hok. unfold net_ok in Hok. apply in_net6; lia.
Qed.
(** An address itself is a network. *)
Lemma eqb_in_some w x v : (v =? x) = in_some w [(x, w)] v.
Proof. unfold in_some, in_net. simpl. by rewrite Z.sub_diag, !Z.shiftr_0_r, orb_false_r. Qed.

(** Writes the tables of a goal in the words of the address. *)
Ltac evaluate_tables lem Hv ws :=
  repeat match goal with
  | |- context [in_some ?w ?nets ?v] =>
      rewrite (lem nets v Hv) by (vm_compute; reflexivity);
      let t := eval vm_compute in (map (λ net, (net.2, ws net.1)) nets) in
      change (map (λ net, (net.2, ws net.1)) nets) with t
  end.
Ltac evaluate_prefixes :=
  cbn [existsb fst snd];
  repeat (cbn [prefix_eqb];
    repeat match goal with
    | |- context [if Z.leb ?x ?y then _ else _] =>
        let r := eval vm_compute in (Z.leb x y) in change (Z.leb x y) with r; cbv iota
    | |- context [Z.sub ?x ?y] => let r := eval vm_compute in (Z.sub x y) in progress change (Z.sub x y) with r
    end);
  repeat match goal with
  | |- context [between ?l ?h ?x] =>
      let l' := eval vm_compute in l in let h' := eval vm_compute in h in progress change (between l h x) with (between l' h' x)
  end;
  rewrite ?andb_true_r, ?orb_false_r.

(** A comparison of constants is evaluated; one of a variable is decided, and the variable is replaced
    where it is known.  The variable introduced last is decided first. *)
Ltac is_constant x := lazymatch x with Z0 => idtac | Zpos _ => idtac end.
Ltac evaluate_comparisons :=
  repeat match goal with
  | |- context [Z.eqb ?x ?y] => is_constant x; let r := eval cbv in (Z.eqb x y) in change (Z.eqb x y) with r
  | |- context [between ?l ?h ?x] => is_constant x; let r := eval cbv in (between l h x) in change (between l h x) with r
  end; cbn [andb orb negb].
Ltac decide_words :=
  evaluate_comparisons; try reflexivity;
  repeat match goal with
  | x : Z |- context [Z.eqb ?x ?y] => destruct (Z.eqb_spec x y) as [->|]; evaluate_comparisons; try reflexivity
  end;
  unfold between; lia.

(** Masks of a word are ranges: all words are tried. *)
Lemma all_words (f g : Z → bool) :
  forallb (λ h, forallb (λ l, Bool.eqb (f (h * 256 + l)) (g (h * 256 + l))) (seqZ 0 256)) (seqZ 0 256) = true →
  ∀ s, 0 ≤ s < 65536 → f s = g s.
Proof.
  intros Hall s Hs. rewrite forallb_forall in Hall. pose proof (Z.mod_pos_bound s 256 ltac:(lia)).
  pose proof (Z.div_mod s 256 ltac:(lia)) as Es. pose proof (Z.div_pos s 256 ltac:(lia) ltac:(lia)).
  pose proof (Z.div_lt_upper_bound s 256 256 ltac:(lia) ltac:(lia)).
  specialize (Hall (s / 256) ltac:(apply list_elem_of_In, elem_of_seqZ; lia)). rewrite forallb_forall in Hall.
  specialize (Hall (s mod 256) ltac:(apply list_elem_of_In, elem_of_seqZ; lia)). apply eqb_prop in Hall.
  replace (s / 256 * 256 + s mod 256) with s in Hall by lia. done.
Qed.
Lemma mask_site_local s : 0 ≤ s < 65536 → (Z.land s 65472 =? 65216) = between 65216 65279 s.
Proof. apply (all_words (λ s, Z.land s 65472 =? 65216) (between 65216 65279)). by vm_compute. Qed.
Lemma mask_link_local s : 0 ≤ s < 65536 → (Z.land s 65472 =? 65152) = between 65152 65215 s.
Proof. apply (all_words (λ s, Z.land s 65472 =? 65152) (between 65152 65215)). by vm_compute. Qed.
Lemma mask_unique_local s : 0 ≤ s < 65536 → (Z.land s 65024 =? 64512) = between 64512 65023 s.
Proof. apply (all_words (λ s, Z.land s 65024 =? 64512) (between 64512 65023)). by vm_compute. Qed.
Lemma mask_multicast s : 0 ≤ s < 65536 → (Z.land s 65280 =? 65280) = between 65280 65535 s.
Proof. apply (all_words (λ s, Z.land s 65280 =? 65280) (between 65280 65535)). by vm_compute. Qed.
Lemma mask_documentation s : 0 ≤ s < 65536 → (Z.land s 61440 =? 0) = between 0 4095 s.
Proof. apply (all_words (λ s, Z.land s 61440 =? 0) (between 0 4095)). by vm_compute. Qed.
Lemma mask_shared s : 0 ≤ s < 65536 → 0 ≤ s < 256 → (Z.land s 192 =? 64) = between 64 127 s.
Proof.
  intros Hs Hb. pose proof (all_words (λ s, (s <? 256) && (Z.land s 192 =? 64)) (λ s, (s <? 256) && between 64 127 s)) as Hall.
  specialize (Hall ltac:(by vm_compute) s Hs). simpl in Hall. by rewrite (proj2 (Z.ltb_lt s 256)) in Hall by lia.
Qed.

Lemma between_all lo hi x : lo ≤ x ≤ hi → between lo hi x = true.
Proof. intros [? ?]. unfold between. rewrite andb_true_iff, !Z.leb_le. lia. Qed.
Lemma Zlt_succ_le_range x : 0 ≤ x < 65536 → 0 ≤ x ≤ 65535.
Proof. lia. Qed.
Lemma between_two x y : y = x + 1 → ∀ z, (z =? x) || (z =? y) = between x y z.
Proof. intros -> z. apply eq_true_iff_eq. unfold between. rewrite orb_true_iff, andb_true_iff, !Z.eqb_eq, !Z.leb_le. lia. Qed.
Lemma leb_between lo hi x : x ≤ hi → (lo <=? x) = between lo hi x.
Proof. intros Hx. unfold between. destruct (Z.leb_spec x hi); [by rewrite andb_true_r|lia]. Qed.

Lemma ltb_between hi x y : 0 ≤ x → y = hi - 1 → (x <? hi) = between 0 y x.
Proof. intros Hx ->. unfold between. apply eq_true_iff_eq. rewrite andb_true_iff, Z.ltb_lt, !Z.leb_le. lia. Qed.

(** Forgets that octets and segments come from an address. *)
Ltac forget_octets v :=
  cbn [octets segments map]; evaluate_prefixes;
  unfold V4Addr.is_loopback, V4Addr.is_private, V4Addr.is_link_local, V4Addr.is_multicast;
  pose proof (octet_range 0 v); pose proof (octet_range 1 v); pose proof (octet_range 2 v); pose proof (octet_range 3 v);
  rewrite ?(leb_between 240 255), ?(between_two 18 19), ?mask_shared by lia; rewrite ?(between_all 0 255) by lia;
  generalize dependent (octet 0 v); generalize dependent (octet 1 v); generalize dependent (octet 2 v);
  generalize dependent (octet 3 v); intros ? _ ? _ ? _ ? _.
Ltac forget_segments v :=
  cbn [octets segments map]; evaluate_prefixes;
  unfold V6Addr.is_multicast, V6Addr.is_ipv4_mapped, V6Addr.zero_segments; cbn [seq forallb];
  change (Z.of_nat 0) with 0; change (Z.of_nat 1) with 1; change (Z.of_nat 2) with 2; change (Z.of_nat 3) with 3;
  change (Z.of_nat 4) with 4; change (Z.of_nat 5) with 5;
  rewrite ?mask_site_local, ?mask_link_local, ?mask_unique_local, ?mask_multicast, ?mask_documentation,
    ?(ltb_between 512 _ 511) by (reflexivity || apply segment_range);
  rewrite ?(between_all 0 65535) by (apply Zlt_succ_le_range, segment_range);
  generalize (segment 0 v); generalize (segment 1 v); generalize (segment 2 v); generalize (segment 3 v);
  generalize (segment 4 v); generalize (segment 5 v); generalize (segment 6 v); generalize (segment 7 v);
  intros ? ? ? ? ? ? ? ?.

Lemma common4 v : 0 ≤ v < 2 ^ 32 → Common.is_private_ipv4 v = non_global (V4 v).
Proof.
  intros Hv. unfold non_global, Common.is_private_ipv4, V4Addr.is_broadcast, V4Addr.is_unspecified.
  rewrite (eqb_in_some 32 4294967295 v), (eqb_in_some 32 0 v). evaluate_tables in_some4 Hv octets.
  forget_octets v. decide_words.
Qed.
Lemma common6 v : 0 ≤ v < 2 ^ 128 → Common.is_private_ipv6 v = non_global (V6 v).
Proof.
  intros Hv. unfold non_global, Common.is_private_ipv6, V6Addr.is_loopback, V6Addr.is_unspecified.
  rewrite (eqb_in_some 128 0 v), (eqb_in_some 128 1 v), (eqb_in_some 128 0x20010001000000000000000000000001 v),
    (eqb_in_some 128 0x20010001000000000000000000000002 v). cbv zeta.
  evaluate_tables in_some6 Hv segments. forget_segments v. decide_words.
Qed.

Lemma tools4 v : 0 ≤ v < 2 ^ 32 → non_global (V4 v) && negb (Tools.is_private_ip (V4 v)) = missed (V4 v).
Proof.
  intros Hv. unfold non_global, missed, Tools.is_private_ip, V4Addr.is_broadcast, V4Addr.is_unspecified.
  rewrite (eqb_in_some 32 (ip4 0 0 0 0) v), (eqb_in_some 32 (ip4 255 255 255 255) v),
    (eqb_in_some 32 4294967295 v), (eqb_in_some 32 0 v). evaluate_tables in_some4 Hv octets.
  forget_octets v. decide_words.
Qed.
Lemma tools6 v : 0 ≤ v < 2 ^ 128 → non_global (V6 v) && negb (Tools.is_private_ip (V6 v)) = missed (V6 v).
Proof.
  intros Hv. unfold non_global, missed, Tools.is_private_ip, V6Addr.is_loopback, V6Addr.is_unspecified.
  rewrite (eqb_in_some 128 0 v), (eqb_in_some 128 1 v). evaluate_tables in_some6 Hv segments.
  forget_segments v. decide_words.
Qed.

(** ** The theorems *)

(** C21. The private addresses of [common] are a table of networks: an address is refused exactly when it is in one of
    [non_global4] or [non_global6] and not in an exception within it.  The masks, ranges and segment comparisons of the code
    are the IANA networks they stand for, for all 2^32 and all 2^128 addresses. *)
Theorem private_ip_table ip : valid ip → Common.is_private_ip ip = non_global ip.
Proof. destruct ip as [v|v]; [apply common4|apply common6]. Qed.

(** C26. The addresses that channels refuse and the tools request, as a table: the networks of [missed4] and [missed6], among
    them IPv4 addresses written as IPv6 ones, such as [::ffff:127.0.0.1], multicast, [0.0.0.0/8] and [240.0.0.0/4]. *)
Theorem tools_check_misses ip : valid ip → Common.is_private_ip ip && negb (Tools.is_private_ip ip) = missed ip.
Proof. destruct ip as [v|v]; intros Hv; cbn [Common.is_private_ip]; [rewrite common4 by done; by apply tools4|rewrite common6 by done; by apply tools6]. Qed.

Lemma private_ip_table_witness :
  Common.is_private_ip (V4 (ip4 100 127 255 255)) = non_global (V4 (ip4 100 127 255 255)) ∧
  non_global (V4 (ip4 100 127 255 255)) = true ∧
  Common.is_private_ip (V6 (ip6 0x2001 0x20 0 7)) = non_global (V6 (ip6 0x2001 0x20 0 7)) ∧
  non_global (V6 (ip6 0x2001 0x20 0 7)) = false.
Proof.
  split_and!; [apply private_ip_table; unfold valid; vm_compute; by split|by vm_compute|
    apply private_ip_table; unfold valid; vm_compute; by split|by vm_compute].
Defined.

(** Loopback, written as an IPv6 address that carries an IPv4 one. *)
Definition mapped_loopback : IpAddr := V6 (0xffff * 2 ^ 32 + ip4 127 0 0 1).
Lemma tools_check_misses_witness :
  Common.is_private_ip mapped_loopback && negb (Tools.is_private_ip mapped_loopback) = missed mapped_loopback ∧
  missed mapped_loopback = true ∧ Tools.is_private_ip (V4 (ip4 127 0 0 1)) = true ∧ Tools.is_private_ip (V4 (ip4 0 0 0 1)) = false.
Proof. split_and!; [apply tools_check_misses; unfold valid; vm_compute; by split|by vm_compute..]. Defined.
