(* ===== verification/WebFetch.v ===== *)
(** Requests that the model or a plugin asks for.

    Models [crates/tools/src/web_fetch.rs] (the tool with its cache, redirects and extraction),
    [handle_request] of [crates/tools/src/wasm_component.rs] (requests of a WebAssembly tool) and
    [crates/gateway/src/push_client.rs] (the destination of a push message), over the checks of
    [Ssrf.v].

    URLs are those of the [url] crate, a class here.  A fetch is a loop over hops; the answers of DNS
    and of the servers are oracles by hop, as both may change between two hops.  What was done is kept
    as a list of events. *)
From S2P Require Import Prelude Json Utf8 ToolArgs Http Ssrf.
Local Open Scope Z_scope.
Local Open Scope result_scope.

(** The [url] crate: [Url::parse], [Url::join], [scheme], [host_str] and [to_string]. *)
Class UrlLib := {
  Url : Type;
  url_parse : str → result Url str;
  url_join : Url → str → result Url str;
  scheme : Url → str;
  host_str : Url → option str;
  url_string : Url → str;
}.

(** [matches!(url.scheme(), "http" | "https")]. *)
Definition is_web (s : str) : bool := str_eqb s (lit "http") || str_eqb s (lit "https").

(** * Extraction *)

Section extraction.
Context `{Unicode, SerdeJson} (to_string_pretty : json → option str) (html2text : str → result str str).

(** [lines.dedup_by(|a, b| a.is_empty() && b.is_empty())]: an element goes when it and the one kept
    before it are empty. *)
Fixpoint dedup_empty (kept : str) (ls : list str) : list str :=
  match ls with
  | [] => []
  | l :: ls => if negb (is_nonempty l) && negb (is_nonempty kept) then dedup_empty kept ls else l :: dedup_empty l ls
  end.
Definition dedup_lines (ls : list str) : list str := match ls with [] => [] | l :: ls => l :: dedup_empty l ls end.

Definition html_to_text (html : str) : str :=
  let clean (text : str) := trim (join [ch_newline] (dedup_lines (map trim_end (lines text)))) in
  match html2text html with Ok text => clean text | Err _ => clean html end.

Definition extract_content (body content_type requested_mode : str) (use_readability : bool) : str * str :=
  let ct_lower := to_lowercase content_type in
  if contains (lit "json") ct_lower then
    match from_str body with
    | Ok parsed => (match to_string_pretty parsed with Some pretty => pretty | None => body end, lit "json")
    | Err _ => (body, lit "text")
    end
  else if contains (lit "text/plain") ct_lower || negb (contains (lit "html") ct_lower) then (body, lit "text")
  else if use_readability && (str_eqb requested_mode (lit "markdown") || negb (is_nonempty requested_mode))
    then (html_to_text body, lit "markdown")
  else (html_to_text body, lit "text").

Definition truncate_at_char_boundary (s : str) (max : nat) : str :=
  if (utf8_len s <=? max)%nat then s else prefix_bytes s (floor_boundary s max).
End extraction.

(** * The tool *)

Section fetch.
Context `{Unicode, SerdeJson, NetParse, UrlLib}.
Context {Net : Type} (net_contains : Net → IpAddr → bool) (show_ip : IpAddr → str).
Context (to_string_pretty : json → option str) (html2text : str → result str str).

(** What a server answers: the status, a header that is text, and the body if it arrives. *)
Record Response := { status : Z; resp_header : str → option str; resp_text : result str str }.
Definition is_redirection (s : Z) : bool := between 300 399 s.
Definition is_success (s : Z) : bool := between 200 299 s.
Context (show_status : Z → str).

Record WebFetchTool := {
  max_chars : nat;
  cache_ttl : Z;
  max_redirects : Z;                 (** [u8] *)
  readability : bool;
  ssrf_allowlist : list Net;
  proxy_url : option str;
  firecrawl_api_key : option str;
  firecrawl_fallback : bool;
}.
Record CacheEntry := { value : json; expires_at : Z }.
Definition Cache : Type := gmap str CacheEntry.

(** The world of one fetch: the upstream proxy, whether a client can be built, DNS and the servers by hop, and
    Firecrawl. *)
Record World := {
  upstream : option str;
  build_client : option str → result unit str;
  dns : nat → Url → result (list IpAddr) str;
  send : nat → Url → option str → result Response str;
  scrape : Url → str → result (option str) str;
}.

(** A lookup whose answer passed, and a request. *)
Inductive event := Checked (u : Url) (answer : result (list IpAddr) str) | Sent (u : Url) (lang : option str).

Definition with_firecrawl (tool : WebFetchTool) (w : World) (current_url : Url) (content_type body content detected_mode : str)
    : str * str :=
  match firecrawl_api_key tool with
  | Some api_key =>
      if firecrawl_fallback tool && negb (str_eqb detected_mode (lit "json")) && contains (lit "html") (to_lowercase content_type) then
        let ratio_poor := (0 <? utf8_len body)%nat && (utf8_len content <? utf8_len body / 10)%nat in
        let content_very_short := (utf8_len content <? 200)%nat && (1000 <? utf8_len body)%nat in
        if ratio_poor || content_very_short then
          match scrape w current_url api_key with
          | Ok (Some markdown) => (markdown, lit "firecrawl")
          | Ok None | Err _ => (content, detected_mode)
          end
        else (content, detected_mode)
      else (content, detected_mode)
  | None => (content, detected_mode)
  end.

(** A response that is not a redirection. *)
Definition page (tool : WebFetchTool) (w : World) (extract_mode : str) (max_chars : nat) (current_url : Url) (resp : Response)
    : result json str :=
  if negb (is_success (status resp)) then
    Ok (JObject [(lit "error", JString (lit "HTTP " ++ show_status (status resp))); (lit "url", JString (url_string current_url))])
  else
    let content_type := unwrap_or [] (resp_header resp (lit "content-type")) in
    let? body := resp_text resp in
    let '(content, detected_mode) := extract_content to_string_pretty html2text body content_type extract_mode (readability tool) in
    let '(content, detected_mode) := with_firecrawl tool w current_url content_type body content detected_mode in
    let truncated := (max_chars <? utf8_len content)%nat in
    let content := if truncated then truncate_at_char_boundary content max_chars else content in
    Ok (JObject [(lit "url", JString (url_string current_url)); (lit "content_type", JString content_type);
      (lit "extract_mode", JString detected_mode); (lit "content", JString content); (lit "truncated", JBool truncated);
      (lit "original_length", JNumber (number_of_Z (Z.of_nat (utf8_len body))))]).

(** The loop; [None] when the fuel is used up. *)
Fixpoint fetch_loop (fuel : nat) (tool : WebFetchTool) (w : World) (extract_mode : str) (max_chars : nat) (lang : option str)
    (trace : list event) (visited : list str) (hops : Z) (current_url : Url) : option (list event * result json str) :=
  match fuel with
  | O => None
  | S fuel =>
      let answer := dns w (length visited) current_url in
      match tools_ssrf_check net_contains show_ip (host_str current_url) answer (ssrf_allowlist tool) with
      | Err e => Some (trace, Err e)
      | Ok _ =>
          let sent := trace ++ [Checked current_url answer; Sent current_url lang] in
          let n := length visited in
          let visited := visited ++ [url_string current_url] in
          match send w n current_url lang with
          | Err e => Some (sent, Err e)
          | Ok resp =>
              if is_redirection (status resp) then
                if max_redirects tool <=? hops then
                  Some (sent, Err (lit "too many redirects (" ++ show_Z (hops + 1) ++ lit " hops, max "
                    ++ show_Z (max_redirects tool) ++ lit ")"))
                else match resp_header resp (lit "location") with
                | None => Some (sent, Err (lit "redirect without Location header"))
                | Some location =>
                    match url_join current_url location with
                    | Err e => Some (sent, Err e)
                    | Ok next =>
                        if existsb (str_eqb (url_string next)) visited then
                          Some (sent, Err (lit "redirect loop detected: " ++ url_string current_url ++ lit " " ++ [8594%N] ++ lit " " ++ url_string next))
                        else fetch_loop fuel tool w extract_mode max_chars lang sent visited (hops + 1) next
                    end
                end
              else Some (sent, page tool w extract_mode max_chars current_url resp)
          end
      end
  end.

(** One hop more than the redirects allowed; [max_redirects] is a [u8]. *)
Definition fetch_fuel (tool : WebFetchTool) : nat := S (Z.to_nat (max_redirects tool)).

Definition fetch_url (tool : WebFetchTool) (w : World) (url_str extract_mode : str) (max_chars : nat) (accept_language : option str)
    : option (list event * result json str) :=
  match url_parse url_str with
  | Err e => Some ([], Err e)
  | Ok url =>
      if is_web (scheme url) then
        match build_client w (or_else (proxy_url tool) (upstream w)) with
        | Err e => Some ([], Err e)
        | Ok _ => fetch_loop (fetch_fuel tool) tool w extract_mode max_chars accept_language [] [] 0 url
        end
      else Some ([], Err (lit "unsupported URL scheme: " ++ scheme url))
  end.

Definition cache_get (now : Z) (key : str) (c : Cache) : option json :=
  match c !! key with Some entry => if now <? expires_at entry then Some (value entry) else None | None => None end.
Definition cache_set (tool : WebFetchTool) (now : Z) (key : str) (v : json) (c : Cache) : Cache :=
  if cache_ttl tool =? 0 then c
  else
    let c := if (100 <? size c)%nat then filter (λ kv, now < expires_at kv.2) c else c in
    <[key := {| value := v; expires_at := now + cache_ttl tool |}]> c.

(** [format!("{url}:{extract_mode}:{max_chars}")]. *)
Definition key_of (url extract_mode : str) (max_chars : nat) : str :=
  url ++ lit ":" ++ extract_mode ++ lit ":" ++ show_nat max_chars.
(** [now] is the time of the lookup in the cache, [later] that of the insertion. *)
Definition execute (tool : WebFetchTool) (w : World) (now later : Z) (params : json) (c : Cache)
    : option (list event * Cache * result json str) :=
  match get (lit "url") params ≫= as_str with
  | None => Some ([], c, Err (lit "missing 'url' parameter"))
  | Some url =>
      let extract_mode := unwrap_or (lit "markdown") (get (lit "extract_mode") params ≫= as_str) in
      let max_chars := unwrap_or (max_chars tool) (Z.to_nat <$> (get (lit "max_chars") params ≫= as_u64)) in
      let cache_key := key_of url extract_mode max_chars in
      match cache_get now cache_key c with
      | Some cached => Some ([], c, Ok cached)
      | None =>
          let accept_language := get (lit "_accept_language") params ≫= as_str in
          match fetch_url tool w url extract_mode max_chars accept_language with
          | None => None
          | Some (trace, Ok v) => Some (trace, cache_set tool later cache_key v c, Ok v)
          | Some (trace, Err e) => Some (trace, c, Err e)
          end
      end
  end.
End fetch.

(** * Requests of WebAssembly tools *)

Section plugin.
Context `{NetParse, UrlLib}.
Context {Net : Type} (net_contains : Net → IpAddr → bool) (show_ip : IpAddr → str).

Inductive HttpError := InvalidUrl (e : str) | BlockedUrl (e : str) | Timeout (e : str) | Network (e : str)
| TooLarge (max : Z) | Other (e : str).
Record HttpRequest := {
  method : str; url : str; req_headers : list (str * str); body : option bytes; timeout_ms : option Z;
  request_max : option Z;             (** [request.max_response_bytes] *)
}.
Record HttpResponse := { resp_status : Z; resp_headers : list (str * str); resp_body : bytes; content_type : option str }.
Record HttpHostImpl := {
  host_allowlist : list Net;
  max_response_bytes : Z;
  domain_allowlist : option (list str);
  secret_headers : list (str * list (str * str));   (** keyed by lowercase domain *)
}.

(** The crates: methods, header names and values of [http], the request sent and the bytes that arrive, to their end
    or to an error. *)
Record Outgoing := { out_method : str; out_url : Url; out_headers : list (str * str); out_body : option bytes; out_timeout : option Z }.
Record Incoming := { in_status : Z; in_headers : list (str * str); in_type : option str; in_bytes : bytes; in_error : option HttpError }.
Context (method_from_bytes : str → result str str) (header_name header_value : str → result str str).

Definition new_host (max_response_bytes : Z) (allowlist : list Net) (domain_allowlist : option (list str))
    (secret_headers : list (str * list (str * str))) : HttpHostImpl := {|
  host_allowlist := allowlist; max_response_bytes := max_response_bytes;
  domain_allowlist := List.filter is_nonempty ∘ map (λ d, to_ascii_lowercase (trim d)) <$> domain_allowlist;
  secret_headers := secret_headers
|}.

Definition domain_allowed (h : HttpHostImpl) (host : str) : bool :=
  match domain_allowlist h with
  | None => true
  | Some allowlist =>
      let host := to_ascii_lowercase host in
      existsb (λ allowed, str_eqb host allowed || ends_with (lit "." ++ allowed) host) allowlist
  end.
Definition resolve_max_response_bytes (h : HttpHostImpl) (requested : option Z) : Z :=
  match requested with Some value => Z.min value (max_response_bytes h) | None => max_response_bytes h end.

(** [what] is [request] or [host] in the errors; [skip] says which names are passed over. *)
Fixpoint add_headers (what : str) (skip : str → bool) (hs acc : list (str * str)) : result (list (str * str)) HttpError :=
  match hs with
  | [] => Ok acc
  | (name, v) :: hs =>
      if skip name then add_headers what skip hs acc
      else match header_name name with
      | Err error => Err (Other (lit "invalid " ++ what ++ lit " header name `" ++ name ++ lit "`: " ++ error))
      | Ok parsed_name =>
          match header_value v with
          | Err error => Err (Other (lit "invalid " ++ what ++ lit " header value for `" ++ name ++ lit "`: " ++ error))
          | Ok parsed_value => add_headers what skip hs (acc ++ [(parsed_name, parsed_value)])
          end
      end
  end.

(** [response.take(n).read_to_end(body)]. *)
Definition read_at_most (n : Z) (i : Incoming) : result bytes HttpError :=
  if (n <=? Z.of_nat (length (in_bytes i))) then Ok (take (Z.to_nat n) (in_bytes i))
  else match in_error i with Some e => Err e | None => Ok (in_bytes i) end.

Definition host_injected (h : HttpHostImpl) (host : str) : list (str * str) :=
  unwrap_or [] (assoc (to_ascii_lowercase host) (secret_headers h)).

(** The request that is sent, if one is. *)
Definition prepare (h : HttpHostImpl) (dns : result (list IpAddr) str) (request : HttpRequest) : result Outgoing HttpError :=
  let? method := map_err (λ e, InvalidUrl (lit "invalid HTTP method: " ++ e)) (method_from_bytes (method request)) in
  let? parsed_url := map_err InvalidUrl (url_parse (url request)) in
  if negb (is_web (scheme parsed_url)) then Err (InvalidUrl (lit "unsupported URL scheme: " ++ scheme parsed_url))
  else
    let? host := ok_or (InvalidUrl (lit "URL has no host")) (host_str parsed_url) in
    if negb (domain_allowed h host) then Err (BlockedUrl (lit "host `" ++ host ++ lit "` is not in domain allowlist"))
    else
      let? _ := map_err BlockedUrl (tools_ssrf_check net_contains show_ip (host_str parsed_url) dns (host_allowlist h)) in
      let injected := host_injected h host in
      let host_header_names := map (λ hv, to_ascii_lowercase hv.1) injected in
      let? guest := add_headers (lit "request")
        (λ name, existsb (str_eqb (to_ascii_lowercase name)) host_header_names) (req_headers request) [] in
      let? all := add_headers (lit "host") (λ _, false) injected guest in
      Ok {| out_method := method; out_url := parsed_url; out_headers := all; out_body := body request;
            out_timeout := timeout_ms request |}.
Definition handle_request (h : HttpHostImpl) (dns : result (list IpAddr) str) (send : Outgoing → result Incoming HttpError)
    (request : HttpRequest) : result HttpResponse HttpError :=
  let? out := prepare h dns request in
  let? response := send out in
  let max := resolve_max_response_bytes h (request_max request) in
  let? b := read_at_most (sat_add u64_bound max 1) response in
  if max <? Z.of_nat (length b) then Err (TooLarge max)
  else Ok {| resp_status := in_status response; resp_headers := in_headers response; resp_body := b;
             content_type := in_type response |}.
End plugin.

(** * Push messages *)

Section push.
Context `{NetParse} {Uri : Type} (uri_scheme uri_host : Uri → option str) (uri_port : Uri → option Z).

Record ResolvedEndpoint := { host : str; port : Z; addresses : list IpAddr }.
Definition is_bracket (c : char) : bool := (c =? ch "[")%N || (c =? ch "]")%N.

(** Every error is [InvalidUri]. *)
Definition resolve_endpoint (lookup : str → Z → option (list IpAddr)) (endpoint : Uri) : option ResolvedEndpoint :=
  if bool_decide (uri_scheme endpoint = Some (lit "https")) then
    match uri_host endpoint with
    | None => None
    | Some raw =>
        let host := to_ascii_lowercase (trim_end_matches is_bracket (trim_start_matches is_bracket raw)) in
        if negb (is_nonempty host) then None
        else
          let port := unwrap_or 443 (uri_port endpoint) in
          match (match parse_ip_addr host with Some ip => Some [ip] | None => lookup host port end) with
          | None => None
          | Some addresses =>
              if negb (is_nonempty addresses) || existsb Common.is_private_ip addresses then None
              else Some {| host := host; port := port; addresses := addresses |}
          end
    end
  else None.
End push.

(** * Theorems *)

Section fetch_facts.
Context `{Unicode, SerdeJson, NetParse, UrlLib}.
Context {Net : Type} (net_contains : Net → IpAddr → bool) (show_ip : IpAddr → str).
Context (to_string_pretty : json → option str) (html2text : str → result str str) (show_status : Z → str).

(** What a hop leaves in the trace: the check and the request. *)
Definition trace_of (lang : option str) (hops : list (Url * result (list IpAddr) str)) : list event :=
  flat_map (λ h, [Checked h.1 h.2; Sent h.1 lang]) hops.
(** A hop whose host resolved, and to nothing private that is not allowed. *)
Definition hop_ok (tool : WebFetchTool (Net := Net)) (h : Url * result (list IpAddr) str) : Prop :=
  ∃ name, host_str h.1 = Some name ∧ looked_at name h.2 ≠ [] ∧
    ∀ ip, ip ∈ looked_at name h.2 → Tools.is_private_ip ip = false ∨ is_ssrf_allowed net_contains ip (ssrf_allowlist tool) = true.
(** Hop [n] asked for its addresses when it was made. *)
Definition hops_ok (tool : WebFetchTool (Net := Net)) (w : World) (hops : list (Url * result (list IpAddr) str)) : Prop :=
  Forall (hop_ok tool) hops ∧ NoDup (map (λ h, url_string h.1) hops) ∧ (Z.of_nat (length hops) ≤ max_redirects tool + 1) ∧
  ∀ n h, hops !! n = Some h → h.2 = dns w n h.1.

Lemma trace_snoc lang hops u answer :
  trace_of lang (hops ++ [(u, answer)]) = trace_of lang hops ++ [Checked u answer; Sent u lang].
Proof. unfold trace_of. by rewrite flat_map_app. Qed.

Lemma loop_ok fuel tool w extract_mode max_chars lang hops k u :
  hops_ok tool w hops → k = Z.of_nat (length hops) → k ≤ max_redirects tool → max_redirects tool < k + Z.of_nat fuel →
  url_string u ∉ map (λ h, url_string h.1) hops →
  ∃ hops' r, fetch_loop net_contains show_ip to_string_pretty html2text show_status fuel tool w extract_mode max_chars lang
      (trace_of lang hops) (map (λ h, url_string h.1) hops) k u = Some (trace_of lang hops', r) ∧ hops_ok tool w hops'.
Proof.
  revert hops k u. induction fuel as [|fuel IH]; intros hops k u Hok Hk Hle Hfuel Hfresh; [lia|].
  cbn [fetch_loop]. rewrite length_map. set (answer := dns w (length hops) u).
  destruct (tools_ssrf_check _ _ _ _ _) as [[]|e] eqn:Ec; [|by exists hops, (Err e)].
  apply check_Ok in Ec.
  rewrite <- trace_snoc. set (hops' := hops ++ [(u, answer)]).
  assert (Hok' : hops_ok tool w hops').
  { destruct Hok as (Hall & Hnd & Hlen & Hdns). split_and!.
    - apply Forall_app. split; [done|]. by constructor.
    - unfold hops'. rewrite map_app. apply NoDup_app. split_and!; [done| |apply NoDup_singleton].
      intros x Hx Hy. apply list_elem_of_singleton in Hy as ->. done.
    - unfold hops'. rewrite length_app. simpl. lia.
    - intros n h Hn. apply lookup_app_Some in Hn as [Hn|[Hge Hn]]; [by apply Hdns|].
      apply list_lookup_singleton_Some in Hn as [Hz <-]. simpl. unfold answer. f_equal. lia. }
  replace (map (λ h, url_string h.1) hops ++ [url_string u]) with (map (λ h, url_string h.1) hops')
    by (unfold hops'; by rewrite map_app).
  destruct (send w _ u lang) as [resp|e]; [|by exists hops', (Err e)].
  destruct (is_redirection _); [|by eexists hops', _].
  destruct (Z.leb_spec (max_redirects tool) k); [by eexists hops', _|].
  destruct (resp_header resp _) as [location|]; [|by eexists hops', _].
  destruct (url_join u location) as [next|e]; [|by eexists hops', _].
  destruct (existsb _ _) eqn:Ev; [by eexists hops', _|].
  apply IH; [done| |lia..|].
  - unfold hops'. rewrite length_app. simpl. lia.
  - intros Hin. apply not_true_iff_false in Ev. apply Ev. apply existsb_true. exists (url_string next). by rewrite str_eqb_refl.
Qed.

(** C9. Fetching a page always comes to an end, and every request it made was checked right before: its host resolved, and to
    nothing but addresses that are not private or are allowed.  That holds for the page asked for and for every redirection;
    no URL is requested twice, and at most [max_redirects] redirections are followed.  A URL that is not of the web is not
    requested. *)
Theorem fetch_is_checked tool w url_str extract_mode max_chars lang :
  0 ≤ max_redirects tool →
  ∃ hops r, fetch_url net_contains show_ip to_string_pretty html2text show_status tool w url_str extract_mode max_chars lang
      = Some (trace_of lang hops, r) ∧ hops_ok tool w hops ∧
    (hops ≠ [] → ∃ u, url_parse url_str = Ok u ∧ is_web (scheme u) = true).
Proof.
  intros Hmax. assert (Hnil : hops_ok tool w []) by (split_and!; [constructor|constructor|simpl; lia|done]).
  unfold fetch_url. destruct (url_parse url_str) as [u|e]; [|by exists [], (Err e)].
  destruct (is_web (scheme u)) eqn:Ew; [|by eexists [], _].
  destruct (build_client w _) as [[]|e]; [|by exists [], (Err e)].
  destruct (loop_ok (fetch_fuel tool) tool w extract_mode max_chars lang [] 0 u Hnil) as (hops & r & Er & Hok);
    [done|done|unfold fetch_fuel; lia|apply not_elem_of_nil|].
  exists hops, r. split; [exact Er|]. split; [done|]. intros _. by exists u.
Qed.
End fetch_facts.

Lemma truncate_spec s max :
  (utf8_len (truncate_at_char_boundary s max) ≤ max)%nat ∧ truncate_at_char_boundary s max `prefix_of` s ∧
    ((utf8_len s ≤ max)%nat → truncate_at_char_boundary s max = s).
Proof.
  unfold truncate_at_char_boundary. destruct (Nat.leb_spec (utf8_len s) max); [done|].
  destruct (floor_boundary_spec s max) as (Hle & Hb & _). apply boundary_prefix in Hb as (s2 & Hs2 & Hl).
  rewrite Hl. split_and!; [lia|by exists s2|lia].
Qed.

Definition no_colon (s : str) : Prop := ch ":" ∉ s.
Lemma colon_split (a b a' b' : str) :
  no_colon b → no_colon b' → a ++ lit ":" ++ b = a' ++ lit ":" ++ b' → a = a' ∧ b = b'.
Proof.
  intros Hb Hb' E. apply (f_equal reverse) in E. rewrite !reverse_app in E. simpl in E. rewrite <- !app_assoc in E.
  unfold no_colon in Hb, Hb'. rewrite <- elem_of_reverse in Hb, Hb'.
  apply (app_inj_1 _ _ _ _) in E as [Eb Ea]; [|].
  - split; [|by apply (inj reverse)]. apply (f_equal reverse) in Ea. rewrite !reverse_app, !reverse_involutive in Ea.
    simpl in Ea. by apply app_inj_2 in Ea as [-> _].
  - clear -Hb Hb' E. revert Hb Hb' E. generalize (reverse b), (reverse b'), (reverse a), (reverse a'). clear.
    intros x. induction x as [|c x IH]; intros [|c' y] u v Hx Hy E; simpl in *; try done.
    + injection E as Ec _. exfalso. apply Hy. rewrite <- Ec. apply list_elem_of_here.
    + injection E as Ec _. exfalso. apply Hx. rewrite Ec. apply list_elem_of_here.
    + injection E as _ E. f_equal. eapply IH; [| |exact E]; set_solver.
Qed.
Lemma show_nat_no_colon n : no_colon (show_nat n).
Proof.
  intros Hin. pose proof (show_nat_digits n) as Hd. rewrite Forall_forall in Hd. by specialize (Hd _ Hin).
Qed.
(** Keys can be read back, for modes without a colon. *)
Lemma key_of_inj url url' mode mode' n n' :
  no_colon mode → no_colon mode' → key_of url mode n = key_of url' mode' n' → url = url' ∧ mode = mode' ∧ n = n'.
Proof.
  intros Hm Hm' E. unfold key_of in E. rewrite !app_assoc in E. rewrite <- !(app_assoc _ (lit ":") (show_nat _)) in E.
  apply colon_split in E as [E En]; [|apply show_nat_no_colon..]. rewrite <- !app_assoc in E.
  apply colon_split in E as [-> ->]; [|done..]. by apply show_nat_inj in En.
Qed.

Section cache_facts.
Context `{Unicode, SerdeJson, NetParse, UrlLib}.
Context {Net : Type} (net_contains : Net → IpAddr → bool) (show_ip : IpAddr → str).
Context (to_string_pretty : json → option str) (html2text : str → result str str) (show_status : Z → str).
Notation run := (execute net_contains show_ip to_string_pretty html2text show_status).

(** A page once fetched is served from the cache until its time is over, whatever the network answers then: no check, no
    request, the same value.  A failure is not kept. *)
Theorem page_is_kept (tool : WebFetchTool (Net := Net)) w now later params c trace c' r w' now' later' :
  run tool w now later params c = Some (trace, c', r) →
  (∀ e, r = Err e → c' = c) ∧
  (∀ v, r = Ok v → trace ≠ [] → 0 < cache_ttl tool → now' < later + cache_ttl tool →
     run tool w' now' later' params c' = Some ([], c', Ok v)).
Proof.
  unfold execute. destruct (get _ params ≫= as_str) as [url|]; [|by intros [= <- <- <-]].
  set (key := key_of _ _ _). destruct (cache_get now key c) as [cached|]; [by intros [= <- <- <-]|].
  destruct (fetch_url _ _ _ _ _ _ _ _ _ _ _) as [[t [v|e]]|]; [| |done]; intros [= <- <- <-]; [|by split].
  split; [done|]. intros v' [= <-] _ Httl Hnow. unfold cache_set. rewrite (proj2 (Z.eqb_neq _ _)) by lia.
  unfold cache_get, Cache. rewrite lookup_insert_eq. simpl. by rewrite (proj2 (Z.ltb_lt _ _) Hnow).
Qed.
End cache_facts.

Section plugin_facts.
Context `{NetParse, UrlLib}.
Context {Net : Type} (net_contains : Net → IpAddr → bool) (show_ip : IpAddr → str).
Context (method_from_bytes : str → result str str) (header_name header_value : str → result str str).

(** A header as the crate parses it. *)
Definition parsed_as (hv p : str * str) : Prop := header_name hv.1 = Ok p.1 ∧ header_value hv.2 = Ok p.2.

Lemma add_headers_Ok what skip hs acc r :
  add_headers header_name header_value what skip hs acc = Ok r →
  ∃ ps, r = acc ++ ps ∧ Forall2 parsed_as (List.filter (λ hv, negb (skip hv.1)) hs) ps.
Proof.
  revert acc. induction hs as [|[name v] hs IH]; intros acc; simpl.
  { intros [= <-]. exists []. by rewrite app_nil_r. }
  destruct (skip name); simpl; [apply IH|].
  destruct (header_name name) as [n|] eqn:En; [|done]. destruct (header_value v) as [v'|] eqn:Ev; [|done].
  intros (ps & -> & Hps)%IH. exists ((n, v') :: ps). rewrite <- app_assoc. split; [done|]. by constructor.
Qed.
Lemma domain_allowed_spec (h : HttpHostImpl (Net := Net)) host l :
  domain_allowlist h = Some l → domain_allowed h host = true →
  ∃ d, d ∈ l ∧ (to_ascii_lowercase host = d ∨ ∃ sub, to_ascii_lowercase host = sub ++ lit "." ++ d).
Proof.
  intros Hl Hd. unfold domain_allowed in Hd. rewrite Hl in Hd. apply existsb_true in Hd as (d & Hin & Hd).
  exists d. split; [done|]. apply orb_true_iff in Hd as [Hd|Hd]; [left; by apply str_eqb_true|right; by apply ends_with_spec].
Qed.

(** C22. What a request of a WebAssembly tool is checked for before it is sent.  Its host is one of the allowlist of domains, or
    a subdomain of one, if there is such a list; and of the addresses that were looked up for it right before, at least one,
    each either passes the tools' check of private addresses (which misses those of [Ssrf.tools_check_misses]) or lies in the
    allowlist of networks.  The request carries the secrets of that host and of no other, and of the headers of the guest none
    that has the name of a secret: a plugin can neither replace a secret nor see one sent to a host it does not belong to.
    (The names of headers are lower case once parsed, as [http] documents.  The client looks the name up again when it sends:
    what it then connects to is not known here.) *)
Theorem plugin_requests_are_guarded (h : HttpHostImpl (Net := Net)) dns request out :
  (∀ n n', header_name n = Ok n' → n' = to_ascii_lowercase n) →
  prepare net_contains show_ip method_from_bytes header_name header_value h dns request = Ok out →
  ∃ host guest secrets,
    url_parse (url request) = Ok (out_url out) ∧ is_web (scheme (out_url out)) = true ∧ host_str (out_url out) = Some host ∧
    (∀ l, domain_allowlist h = Some l →
       ∃ d, d ∈ l ∧ (to_ascii_lowercase host = d ∨ ∃ sub, to_ascii_lowercase host = sub ++ lit "." ++ d)) ∧
    looked_at host dns ≠ [] ∧
    (∀ ip, ip ∈ looked_at host dns → Tools.is_private_ip ip = false ∨ is_ssrf_allowed net_contains ip (host_allowlist h) = true) ∧
    out_headers out = guest ++ secrets ∧ Forall2 parsed_as (host_injected h host) secrets ∧
    (∀ p, p ∈ guest → p.1 ∉ map fst secrets ∧ ∃ hv, hv ∈ req_headers request ∧ parsed_as hv p).
Proof.
  intros Hlaw. unfold prepare. destruct (method_from_bytes _) as [m|]; [|done]. cbn [map_err ok_or negb].
  destruct (url_parse (url request)) as [u|] eqn:Eu; [|done]. cbn [map_err ok_or negb]. destruct (is_web (scheme u)) eqn:Ew; [|done]. cbn [map_err ok_or negb].
  destruct (host_str u) as [host|] eqn:Eh; [|done]. cbn [map_err ok_or negb]. destruct (domain_allowed h host) eqn:Ed; [|done]. cbn [map_err ok_or negb].
  destruct (tools_ssrf_check net_contains _ _ _ _) as [[]|] eqn:Ec; [|done]. cbn [map_err ok_or negb].
  unfold tools_ssrf_check in Ec. apply check_Ok in Ec as (host' & [= <-] & Hlooked & Hall).
  destruct (add_headers _ _ (lit "request") _ _ _) as [guest|] eqn:Eg; [|done].
  destruct (add_headers _ _ (lit "host") _ _ _) as [all|] eqn:Ea; [|done]. intros [= <-]. cbn [out_url out_headers].
  apply add_headers_Ok in Eg as (g & -> & Hg). apply add_headers_Ok in Ea as (secrets & -> & Hs). simpl in Hs.
  replace (List.filter _ (host_injected h host)) with (host_injected h host) in Hs
    by (clear; induction (host_injected h host) as [|x l IH]; simpl; congruence).
  exists host, g, secrets. split_and!; [done|done|done| |done|done|done|done|].
  { intros l Hl. exact (domain_allowed_spec h host l Hl Ed). }
  intros p Hp. apply list_elem_of_lookup in Hp as [i Hp]. destruct (Forall2_lookup_r _ _ _ _ _ Hg Hp) as (hv & Hhv & Hpa).
  apply list_elem_of_lookup_2, list_elem_of_In, filter_In in Hhv as [Hin Hskip].
  split; [|exists hv; split; [by apply list_elem_of_In|done]].
  intros ([n v] & Hn & Hsec)%list_elem_of_fmap. apply list_elem_of_lookup in Hsec as [j Hsec].
  destruct (Forall2_lookup_r _ _ _ _ _ Hs Hsec) as (hv' & Hhv' & Hpa').
  apply negb_true_iff, not_true_iff_false in Hskip. apply Hskip, existsb_true. exists (to_ascii_lowercase hv'.1).
  split; [apply list_elem_of_fmap; exists hv'; split; [done|by eapply list_elem_of_lookup_2]|].
  apply str_eqb_true. destruct Hpa as [Hpn _]. destruct Hpa' as [Hpn' _]. simpl in *.
  rewrite <- (Hlaw _ _ Hpn), <- (Hlaw _ _ Hpn'). done.
Qed.

(** What a tool gets is the whole body, within its limit. *)
Lemma body_is_bounded (h : HttpHostImpl (Net := Net)) dns send request r :
  0 ≤ max_response_bytes h < u64_max → (∀ n, request_max request = Some n → 0 ≤ n) →
  handle_request net_contains show_ip method_from_bytes header_name header_value h dns send request = Ok r →
  Z.of_nat (length (resp_body r)) ≤ resolve_max_response_bytes h (request_max request) ∧
  ∃ out i, send out = Ok i ∧ resp_body r = in_bytes i ∧ in_error i = None.
Proof.
  intros Hmax Hreq. unfold handle_request. destruct (prepare _ _ _ _ _ _ _ _) as [out|]; [|done].
  destruct (send out) as [i|] eqn:Es; [|done]. set (max := resolve_max_response_bytes h (request_max request)).
  assert (Hm : 0 ≤ max < u64_max).
  { unfold max, resolve_max_response_bytes. destruct (request_max request) as [n|] eqn:En; [|done].
    specialize (Hreq _ eq_refl). lia. }
  unfold read_at_most, sat_add. replace (Z.min (max + 1) (u64_bound - 1)) with (max + 1) by (unfold u64_max in Hm; lia).
  destruct (Z.leb_spec (max + 1) (Z.of_nat (length (in_bytes i)))).
  - rewrite length_take. rewrite (proj2 (Z.ltb_lt _ _)) by lia. done.
  - destruct (in_error i) eqn:Ei; [done|]. destruct (Z.ltb_spec max (Z.of_nat (length (in_bytes i)))); [done|].
    intros [= <-]. simpl. split; [lia|]. by exists out, i.
Qed.
End plugin_facts.

Section push_facts.
Context `{NetParse} {Uri : Type} (uri_scheme uri_host : Uri → option str) (uri_port : Uri → option Z).

(** A push message goes to an address that was checked: the addresses found are those used. *)
Lemma endpoint_is_public lookup endpoint r :
  resolve_endpoint uri_scheme uri_host uri_port lookup endpoint = Some r →
  uri_scheme endpoint = Some (lit "https") ∧ addresses r ≠ [] ∧ ∀ ip, ip ∈ addresses r → Common.is_private_ip ip = false.
Proof.
  unfold resolve_endpoint. case_bool_decide as Hs; [|done]. destruct (uri_host endpoint) as [raw|]; [|done].
  destruct (negb (is_nonempty _)); [done|]. destruct (match parse_ip_addr _ with Some _ => _ | None => _ end) as [ips|]; [|done].
  destruct (negb (is_nonempty ips)) eqn:En; [done|]. simpl. destruct (existsb Common.is_private_ip ips) eqn:Ee; [done|].
  intros [= <-]. split_and!; [done|by destruct ips|]. simpl. intros ip Hin. apply not_true_iff_false. intros Hp.
  apply not_true_iff_false in Ee. apply Ee, existsb_true. by exists ip.
Qed.
End push_facts.

(** * A small network

    URLs are host names; the second character of one says where it is. *)
Definition demo_json : SerdeJson := {| from_str _ := Err (lit "not read"); to_string _ := None |}.
Definition demo_parse : NetParse := {| parse_ip_addr _ := None; parse_socket_addr _ := None |}.
Definition demo_urls : UrlLib := {|
  Url := str; url_parse s := Ok s; url_join _ l := Ok l; scheme _ := lit "https"; host_str u := Some u; url_string u := u |}.
Definition demo_tool : WebFetchTool (Net := unit) := {|
  max_chars := 50000; cache_ttl := secs 60; max_redirects := 3; readability := true; ssrf_allowlist := []; proxy_url := None;
  firecrawl_api_key := None; firecrawl_fallback := false |}.
Definition plain (s : Z) (location : option str) (text : str) : Response :=
  {| status := s; resp_header := λ name, if str_eqb name (lit "location") then location else None; resp_text := Ok text |}.
(** [site] sends to [next], which is at an address of its own; [page] answers. *)
Definition demo_dns (next : str) (ip : IpAddr) (n : nat) (u : str) : result (list IpAddr) str :=
  Ok [if bool_decide (u = next) then ip else V4 (ip4 93 184 216 34)].
Definition demo_send (next : str) (n : nat) (u : str) (lang : option str) : result Response str :=
  Ok (if bool_decide (u = lit "site") then plain 302 (Some next) [] else plain 200 None (lit "hello")).
Definition demo_world (next : str) (ip : IpAddr) : World (H2 := demo_urls) :=
  @Build_World demo_urls None (λ _, Ok tt) (demo_dns next ip) (demo_send next) (λ _ _, Ok None).
Definition demo_fetch (next : str) (ip : IpAddr) :=
  fetch_url (H := ascii_unicode) (H0 := demo_json) (H1 := demo_parse) (H2 := demo_urls) (λ _ _, false) (λ _, []) (λ _, None) Ok show_Z
    demo_tool (demo_world next ip) (lit "site") (lit "markdown") 50000 None.
Notation demo_trace := (trace_of (H2 := demo_urls) None).

Definition site_hop : str * result (list IpAddr) str := (lit "site", Ok [V4 (ip4 93 184 216 34)]).

(** A redirection into the network is refused, and one in a circle. *)
Example redirect_inside :
  (λ x, (x.1, is_ok x.2)) <$> demo_fetch (lit "inside") (V4 (ip4 10 0 0 1)) = Some (demo_trace [site_hop], false) ∧
  (λ x, (x.1, is_ok x.2)) <$> demo_fetch (lit "site") (V4 (ip4 8 8 8 8)) =
    Some (demo_trace [(lit "site", Ok [V4 (ip4 8 8 8 8)])], false).
Proof. split; vm_compute; reflexivity. Qed.
(** Loopback written as [::ffff:127.0.0.1] is not. *)
Example redirect_to_loopback :
  (λ x, (x.1, is_ok x.2)) <$> demo_fetch (lit "mapped") mapped_loopback =
    Some (demo_trace [site_hop; (lit "mapped", Ok [mapped_loopback])], true).
Proof. vm_compute. reflexivity. Qed.

Lemma fetch_is_checked_witness :
  ∃ hops r, demo_fetch (lit "page") (V4 (ip4 8 8 8 8)) = Some (demo_trace hops, r) ∧ length hops = 2%nat ∧ is_ok r = true.
Proof.
  destruct (fetch_is_checked (H := ascii_unicode) (H0 := demo_json) (H1 := demo_parse) (H2 := demo_urls) (λ (_ : unit) _, false) (λ _, [])
    (λ _, None) Ok show_Z demo_tool (demo_world (lit "page") (V4 (ip4 8 8 8 8))) (lit "site") (lit "markdown") 50000 None ltac:(done))
    as (hops & r & E & Hok & _).
  exists hops, r. split; [exact E|].
  destruct hops as [|h1 [|h2 [|h3 hops]]]; [discriminate E|discriminate E| |discriminate E].
  split; [reflexivity|]. apply (f_equal (λ o, (λ x, is_ok x.2) <$> o)) in E. injection E as <-. vm_compute. reflexivity.
Defined.

Definition demo_params : json := JObject [(lit "url", JString (lit "page"))].
Definition demo_run (now : Z) (c : Cache) :=
  execute (H := ascii_unicode) (H0 := demo_json) (H1 := demo_parse) (H2 := demo_urls) (λ _ _, false) (λ _, []) (λ _, None) Ok show_Z
    demo_tool (demo_world (lit "page") (V4 (ip4 8 8 8 8))) now now demo_params c.
Lemma page_is_kept_witness :
  ∃ trace c v, demo_run 0 ∅ = Some (trace, c, Ok v) ∧ length trace = 2%nat ∧ demo_run (secs 59) c = Some ([], c, Ok v).
Proof.
  destruct (demo_run 0 ∅) as [[[trace c] [v|e]]|] eqn:E; [|vm_compute in E; discriminate E|vm_compute in E; discriminate E].
  exists trace, c, v. split; [reflexivity|].
  assert (Hl : length trace = 2%nat).
  { assert (Hl : (λ x, length x.1.1) <$> demo_run 0 ∅ = Some 2%nat) by (vm_compute; reflexivity).
    rewrite E in Hl. by injection Hl. }
  split; [exact Hl|].
  destruct (page_is_kept (H := ascii_unicode) (H0 := demo_json) (H1 := demo_parse) (H2 := demo_urls) _ _ _ _ _ _ _ _ _ _ _ _ _ _
    (demo_world (lit "page") (V4 (ip4 8 8 8 8))) (secs 59) (secs 59) E) as [_ Hk].
  apply (Hk v); [reflexivity|by intros ->|reflexivity|reflexivity].
Defined.

(** A tool that sends its own authorization to a host that has a secret. *)
Definition demo_host : HttpHostImpl (Net := unit) :=
  new_host 1000 [] (Some [lit " Example.com "]) [(lit "api.example.com", [(lit "Authorization", lit "Bearer secret")])].
Definition demo_request : HttpRequest := {|
  method := lit "GET"; url := lit "api.example.com"; req_headers := [(lit "AUTHORIZATION", lit "mine"); (lit "Accept", lit "text")];
  body := None; timeout_ms := None; request_max := None |}.
Definition demo_prepare :=
  prepare (H := demo_parse) (H0 := demo_urls) (λ (_ : unit) _, false) (λ _, []) Ok (λ n, Ok (to_ascii_lowercase n)) Ok demo_host
    (Ok [V4 (ip4 8 8 8 8)]) demo_request.
Lemma plugin_requests_are_guarded_witness :
  ∃ out guest secrets, demo_prepare = Ok out ∧ out_headers out = guest ++ secrets ∧
    Forall2 (parsed_as (λ n, Ok (to_ascii_lowercase n)) Ok) (host_injected demo_host (lit "api.example.com")) secrets ∧
    out_headers out = [(lit "accept", lit "text"); (lit "authorization", lit "Bearer secret")].
Proof.
  destruct demo_prepare as [out|] eqn:E; [|vm_compute in E; discriminate E].
  destruct (plugin_requests_are_guarded (H := demo_parse) (H0 := demo_urls) (λ (_ : unit) _, false) (λ _, []) Ok
    (λ n, Ok (to_ascii_lowercase n)) Ok demo_host (Ok [V4 (ip4 8 8 8 8)]) demo_request out)
    as (host & guest & secrets & Hu & _ & Hh & _ & _ & _ & Ho & Hs & _); [by intros n n' [= <-]|exact E|].
  exists out, guest, secrets. split; [reflexivity|]. split; [done|].
  assert (host = lit "api.example.com") as <-. { injection Hu as Hu. rewrite <- Hu in Hh. by injection Hh. }
  split; [done|]. vm_compute in E. by injection E as <-.
Defined.
