(* ===== verification/Summary.v ===== *)
(** The summary of a conversation, without a model.

    Models [crates/chat/src/compaction.rs]: what is extracted from the messages of a history, how a
    new summary is merged with the one it continues, and how the result is brought into its budget.
    Lengths are in bytes, as those of the source; [std::path] and the string functions are the standard
    library's.

    Theorems: whatever is compressed ends within the budget of bytes and of lines ([compress_bounded]);
    what was wrapped into a message is found again when the history is compacted once more
    ([wrapped_summary_is_found]). *)
From S2P Require Import Prelude Json Utf8.
Local Open Scope nat_scope.

Definition newline : str := [ch_newline].
Definition ellipsis : char := 8230%N.

Definition COMPACT_CONTINUATION_PREAMBLE : str :=
  lit "This session is being continued from a previous conversation that ran out of context. The summary below covers the earlier portion of the conversation."
  ++ newline ++ newline.
Definition COMPACT_RECENT_MESSAGES_NOTE : str := lit "Recent messages are preserved verbatim.".
Definition COMPACT_DIRECT_RESUME_INSTRUCTION : str :=
  lit "Continue the conversation from where it left off without asking the user any further questions. Resume directly "
  ++ [8212%N] ++ lit " do not acknowledge the summary, do not recap what was happening, and do not preface with continuation text.".
Definition SUMMARY_MAX_CHARS : nat := 1200.
Definition SUMMARY_MAX_LINES : nat := 24.
Definition SUMMARY_MAX_LINE_CHARS : nat := 160.
Definition PREVIEW_CHARS : nat := 160.
Definition CURRENT_WORK_CHARS : nat := 200.

(** * Text *)

Definition truncate_line (line : str) (max_bytes : nat) : str :=
  if utf8_len line <=? max_bytes then line else prefix_bytes line (floor_boundary line max_bytes).
Definition truncate_to (content : str) (max_len : nat) : str :=
  if utf8_len content <=? max_len then content else prefix_bytes content (floor_boundary content max_len) ++ [ellipsis].

Definition open_tag (tag : str) : str := lit "<" ++ tag ++ lit ">".
Definition close_tag (tag : str) : str := lit "</" ++ tag ++ lit ">".

Definition extract_tag_block (content tag : str) : option str :=
  '(_, rest) ← cut (open_tag tag) content; '(block, _) ← cut (close_tag tag) rest; Some block.
Definition strip_tag_block (content tag : str) : str :=
  match cut (open_tag tag) content with
  | Some (before, rest) => match cut (close_tag tag) rest with Some (_, after) => before ++ after | None => content end
  | None => content
  end.
(** [s.replacen(p, r, 1)]. *)
Definition replace_first (p r s : str) : str := match cut p s with Some (before, after) => before ++ r ++ after | None => s end.

Fixpoint collapse_lines (last_blank : bool) (ls : list str) : str :=
  match ls with
  | [] => []
  | line :: ls =>
      let is_blank := negb (is_nonempty (trim line)) in
      if is_blank && last_blank then collapse_lines last_blank ls
      else line ++ newline ++ collapse_lines is_blank ls
  end.
Definition collapse_blank_lines (content : str) : str := collapse_lines false (lines content).

Definition format_compact_summary (summary : str) : str :=
  let without_analysis := strip_tag_block summary (lit "analysis") in
  let formatted :=
    match extract_tag_block without_analysis (lit "summary") with
    | Some content => replace_first (lit "<summary>" ++ content ++ lit "</summary>") (lit "Summary:" ++ newline ++ trim content) without_analysis
    | None => without_analysis
    end in
  trim (collapse_blank_lines formatted).

(** * Extraction *)

(** [m[k] == s]. *)
Definition field_is (k s : str) (m : json) : bool := bool_decide ((get k m ≫= as_str) = Some s).
Definition is_tool_role (m : json) : bool := field_is (lit "role") (lit "tool") m || field_is (lit "role") (lit "tool_result") m.
Definition content_str (m : json) : option str := get "content" m ≫= as_str.
Definition content_blocks (m : json) : option (list json) := get "content" m ≫= as_array.
Definition tool_calls (m : json) : list json := unwrap_or [] (get "tool_calls" m ≫= as_array).
Definition function_field (k : str) (call : json) : option str :=
  f ← get "function" call; v ← get k f; as_str v.
(** The texts of the blocks of type [text]. *)
Definition block_text (block : json) : option str :=
  if field_is (lit "type") (lit "text") block then get "text" block ≫= as_str else None.

Definition nonempty_trimmed (s : str) : option str := let t := trim s in if is_nonempty t then Some t else None.
Definition first_text_block (m : json) : option str :=
  or_else (content_str m ≫= nonempty_trimmed)
    (head (omap (λ b, block_text b ≫= nonempty_trimmed) (unwrap_or [] (content_blocks m)))).

Definition extract_content_preview (m : json) : str :=
  let text_parts :=
    match content_str m with
    | Some text => [truncate_to text PREVIEW_CHARS]
    | None => map (λ t, truncate_to t PREVIEW_CHARS) (omap block_text (unwrap_or [] (content_blocks m)))
    end in
  let call_parts := map (λ call,
    truncate_to (lit "tool_use " ++ unwrap_or (lit "unknown") (function_field (lit "name") call) ++ lit "("
      ++ unwrap_or (lit "{}") (function_field (lit "arguments") call) ++ lit ")") PREVIEW_CHARS) (tool_calls m) in
  let result_parts :=
    if is_tool_role m then
      let tool_name := unwrap_or (lit "unknown") (or_else (get "tool_name" m) (get "name" m) ≫= as_str) in
      let is_error := isSome (get "error" m ≫= as_str) || bool_decide ((get "success" m ≫= as_bool) = Some false) in
      [truncate_to (lit "tool_result " ++ tool_name ++ lit ": " ++ (if is_error then lit "error " else [])
        ++ unwrap_or [] (content_str m)) PREVIEW_CHARS]
    else [] in
  let parts := text_parts ++ call_parts ++ result_parts in
  if is_nonempty parts then join (lit " | ") parts else lit "(empty)".

Definition timeline_entry (m : json) : str :=
  lit "  - " ++ unwrap_or (lit "unknown") (get "role" m ≫= as_str) ++ lit ": " ++ extract_content_preview m.
Definition build_timeline_entries (messages : list json) : list str :=
  let n := length messages in
  if n <=? 3 + 5 then map timeline_entry messages
  else map timeline_entry (take 3 messages) ++ [lit "  - ... (" ++ show_nat (n - 3 - 5) ++ lit " messages omitted) ..."]
    ++ map timeline_entry (drop (n - 5) messages).

(** [names.sort(); names.dedup()]. *)
Fixpoint dedup_adjacent (l : list str) : list str :=
  match l with
  | x :: (y :: _) as l' => if bool_decide (x = y) then dedup_adjacent l' else x :: dedup_adjacent l'
  | _ => l
  end.
Definition sorted_unique (l : list str) : list str := dedup_adjacent (merge_sort str_leP l).

Definition collect_unique_tool_names (messages : list json) : list str :=
  sorted_unique (flat_map (λ m,
    omap (function_field (lit "name")) (tool_calls m) ++
    (if is_tool_role m then omap (λ k, get k m ≫= as_str) [lit "tool_name"; lit "name"] else [])) messages).
(** The last [limit] texts of a list of messages, previewed, in their order. *)
Definition last_texts (limit : nat) (messages : list json) (keep : str → bool) : list str :=
  reverse (map (λ t, truncate_to t PREVIEW_CHARS) (take limit (List.filter keep (omap first_text_block (reverse messages))))).
Definition collect_recent_role_summaries (messages : list json) (role : str) (limit : nat) : list str :=
  last_texts limit (List.filter (field_is (lit "role") role) messages) (λ _, true).
Definition KEYWORDS : list str := [lit "todo"; lit "next"; lit "pending"; lit "follow up"; lit "remaining"].
Definition infer_pending_work (messages : list json) : list str :=
  last_texts 3 messages (λ text, let lowered := to_ascii_lowercase text in existsb (λ kw, contains kw lowered) KEYWORDS).
Definition infer_current_work (messages : list json) : option str :=
  (λ t, truncate_to t CURRENT_WORK_CHARS) <$>
    List.find (λ t, is_nonempty (trim t)) (omap first_text_block (List.filter (field_is (lit "role") (lit "assistant")) (reverse messages))).

(** [Path::new(p).extension()]: what follows the last dot of the last component, which has something before it. *)
Definition path_extension (p : str) : option str :=
  match last (List.filter (λ c, is_nonempty c && negb (str_eqb c (lit "."))) (split (ch "/") p)) with
  | Some name =>
      if str_eqb name (lit "..") then None
      else match rsplit_once (ch ".") name with
      | Some (stem, ext) => if is_nonempty stem then Some ext else None
      | None => None
      end
  | None => None
  end.
Definition EXTENSIONS : list str := map lit
  ["rs"; "ts"; "tsx"; "js"; "json"; "md"; "py"; "toml"; "yaml"; "yml"; "go"; "css"; "html"; "sql"; "sh"; "cfg"; "ini"; "jsx"; "jsonc"]%string.
Definition has_interesting_extension (candidate : str) : bool :=
  is_some_and (λ ext, existsb (str_eqb (to_ascii_lowercase ext)) EXTENSIONS) (path_extension candidate).
Definition is_wrapping (c : char) : bool :=
  bool_decide (c ∈ lit ",.:;)(" ++ [ch_dquote; ch_squote; 96%N] ++ lit "{}").
Definition extract_file_candidates (content : str) : list str :=
  List.filter (λ c, contains (lit "/") c && has_interesting_extension c)
    (map (λ token, trim_end_matches is_wrapping (trim_start_matches is_wrapping token)) (split_whitespace content)).
Definition collect_key_files (messages : list json) : list str :=
  take 8 (sorted_unique (flat_map (λ m,
    flat_map extract_file_candidates
      (option_list (first_text_block m) ++ omap (function_field (lit "arguments")) (tool_calls m))) messages)).

Definition count (f : json → bool) (messages : list json) : nat := length (List.filter f messages).
Definition summarize_messages (messages : list json) : str :=
  let tool_names := collect_unique_tool_names messages in
  let recent_user_requests := collect_recent_role_summaries messages (lit "user") 3 in
  let pending_work := infer_pending_work messages in
  let key_files := collect_key_files messages in
  join newline (
    [lit "<summary>"; lit "Conversation summary:";
     lit "- Scope: " ++ show_nat (length messages) ++ lit " earlier messages compacted (user="
       ++ show_nat (count (field_is (lit "role") (lit "user")) messages) ++ lit ", assistant="
       ++ show_nat (count (field_is (lit "role") (lit "assistant")) messages) ++ lit ", tool="
       ++ show_nat (count is_tool_role messages) ++ lit ")."]
    ++ (if is_nonempty tool_names then [lit "- Tools mentioned: " ++ join (lit ", ") tool_names ++ lit "."] else [])
    ++ (if is_nonempty recent_user_requests then lit "- Recent user requests:" :: map (λ r, lit "  - " ++ r) recent_user_requests else [])
    ++ (if is_nonempty pending_work then lit "- Pending work:" :: map (λ item, lit "  - " ++ item) pending_work else [])
    ++ (if is_nonempty key_files then [lit "- Key files referenced: " ++ join (lit ", ") key_files ++ lit "."] else [])
    ++ option_list ((λ w, lit "- Current work: " ++ w) <$> infer_current_work messages)
    ++ [lit "- Key timeline:"] ++ build_timeline_entries messages ++ [lit "</summary>"]).

(** * Merging with the summary before *)

Record SummarySections := { highlights : list str; timeline : list str }.
Fixpoint parse_lines (in_timeline : bool) (ls : list str) : list str * list str :=
  match ls with
  | [] => ([], [])
  | line :: ls =>
      let trimmed := trim_end line in
      if negb (is_nonempty trimmed) || str_eqb trimmed (lit "Summary:") || str_eqb trimmed (lit "Conversation summary:") then
        if in_timeline then ([], []) else parse_lines in_timeline ls
      else if str_eqb trimmed (lit "- Key timeline:") then parse_lines true ls
      else
        let '(h, t) := parse_lines in_timeline ls in
        if in_timeline then (h, trimmed :: t) else (trimmed :: h, t)
  end.
Definition parse_summary_sections (summary : str) : SummarySections :=
  let '(h, t) := parse_lines false (lines (format_compact_summary summary)) in {| highlights := h; timeline := t |}.

Definition merge_compact_summaries (existing_summary : option str) (new_summary : str) : str :=
  match existing_summary with
  | None => new_summary
  | Some existing_summary =>
      let prev := parse_summary_sections existing_summary in
      let curr := parse_summary_sections new_summary in
      let section title ls := if is_nonempty ls then title :: map (λ l, lit "  " ++ l) ls else [] in
      join newline ([lit "<summary>"; lit "Conversation summary:"]
        ++ section (lit "- Previously compacted context:") (highlights prev)
        ++ section (lit "- Newly compacted context:") (highlights curr)
        ++ section (lit "- Key timeline:") (timeline curr) ++ [lit "</summary>"])
  end.

Definition WRAPPER : str := lit "[Conversation Summary]" ++ newline ++ newline.
Definition without_prefix (p s : str) : str := unwrap_or s (strip_prefix p s).
Definition without_suffix (p s : str) : str := unwrap_or s (strip_suffix p s).
(** What remains of a message's text without the note and the directive that follow a summary. *)
Definition without_directive (s : str) : str :=
  trim (without_suffix COMPACT_RECENT_MESSAGES_NOTE (trim_end (without_suffix COMPACT_DIRECT_RESUME_INSTRUCTION (trim_end s)))).
Definition extract_existing_compacted_summary (history : list json) : option str :=
  first ← head history; content ← content_str first;
  summary_text ← or_else (without_prefix COMPACT_CONTINUATION_PREAMBLE <$> strip_prefix WRAPPER content)
    (strip_prefix COMPACT_CONTINUATION_PREAMBLE content);
  let summary := without_directive summary_text in
  if is_nonempty summary then Some summary else None.

Definition compute_compaction_summary (history : list json) : option str :=
  if negb (is_nonempty history) then None
  else
    let existing := extract_existing_compacted_summary history in
    let new_summary := summarize_messages (if isSome existing then drop 1 history else history) in
    nonempty_trimmed (merge_compact_summaries existing new_summary).

Definition get_compact_continuation_message (summary : str) (recent_messages_preserved : bool) : str :=
  COMPACT_CONTINUATION_PREAMBLE ++ format_compact_summary summary
  ++ (if recent_messages_preserved then newline ++ newline ++ COMPACT_RECENT_MESSAGES_NOTE else [])
  ++ newline ++ COMPACT_DIRECT_RESUME_INSTRUCTION.

(** * The budget *)

(** Lines whose trimmed lower case was not there before, each cut to its length. *)
Fixpoint dedup_lines (seen : list str) (ls : list str) : list str :=
  match ls with
  | [] => []
  | line :: ls =>
      let key := to_ascii_lowercase (trim line) in
      if bool_decide (key ∈ seen) then dedup_lines seen ls
      else truncate_line line SUMMARY_MAX_LINE_CHARS :: dedup_lines (key :: seen) ls
  end.
Definition total_join_len (headers candidates : list str) : nat :=
  let l := headers ++ candidates in if is_nonempty l then sum_list (map utf8_len l) + length l - 1 else 0.
Definition omission_notice (n : nat) : str := lit "[... " ++ show_nat n ++ lit " lines omitted for brevity]".
Definition is_header (line : str) : bool := bool_decide (head (trim_start line) = Some (ch "#")).
Definition is_bullet (line : str) : bool :=
  match trim_start line with c :: _ => bool_decide (c ∈ [ch "-"; ch "*"; 8226%N]) | [] => false end.

(** [for drop_count in drop_count..=candidates.len()]. *)
Fixpoint drop_lines (rounds drop_count : nat) (headers candidates : list str) (max_chars max_lines : nat) : option (list str) :=
  match rounds with
  | O => None
  | S rounds =>
      let keep := take (length candidates - drop_count) candidates in
      let notice := omission_notice drop_count in
      if max_lines <? length headers + length keep + 1
      then drop_lines rounds (S drop_count) headers candidates max_chars max_lines
      else if total_join_len headers keep + utf8_len notice + 1 <=? max_chars then Some (headers ++ keep ++ [notice])
      else drop_lines rounds (S drop_count) headers candidates max_chars max_lines
  end.
(** The headers that fit; [result] are those taken so far. *)
Fixpoint fit_headers (budget drops : nat) (result headers : list str) (max_lines : nat) : list str * nat :=
  match headers with
  | [] => (result, drops)
  | line :: headers =>
      let needed := utf8_len line + (if is_nonempty result then 1 else 0) in
      if (budget <? needed) || (max_lines <=? length result + 1) then fit_headers budget (S drops) result headers max_lines
      else fit_headers (budget - needed) drops (result ++ [line]) headers max_lines
  end.

Definition compress_lines (deduped : list str) (max_chars max_lines : nat) : list str :=
  if (length deduped <=? max_lines) && (utf8_len (join newline deduped) <=? max_chars) then deduped
  else
    let headers := List.filter is_header deduped in
    let bullets := List.filter (λ l, negb (is_header l) && is_bullet l) deduped in
    let other := List.filter (λ l, negb (is_header l) && negb (is_bullet l)) deduped in
    let candidates := bullets ++ other in
    if (length headers + length candidates <=? max_lines) && (total_join_len headers candidates <=? max_chars)
    then headers ++ candidates
    else match drop_lines (length candidates) 1 headers candidates max_chars max_lines with
    | Some result => result
    | None =>
        let all_dropped := length candidates in
        let notice_len := utf8_len (omission_notice (all_dropped + length headers)) + 1 in
        let '(result, header_drops) := fit_headers (max_chars - notice_len) 0 [] headers max_lines in
        result ++ [omission_notice (all_dropped + header_drops)]
    end.
Definition compress_body (text : str) (max_chars max_lines : nat) : str :=
  let text := trim text in
  if negb (is_nonempty text) then []
  else
    let ls := lines text in
    if negb (is_nonempty ls) then [] else join newline (compress_lines (dedup_lines [] ls) max_chars max_lines).

Definition split_summary_wrapper (text : str) : bool * bool * str :=
  let '(has_open, after_open) :=
    match strip_prefix (lit "<summary>" ++ newline) text with Some rest => (true, rest) | None => (false, text) end in
  match strip_suffix (newline ++ lit "</summary>") after_open with
  | Some inner => (has_open, true, inner)
  | None => (has_open, false, after_open)
  end.
Definition compress_summary (text : str) : str :=
  let text := trim text in
  if negb (is_nonempty text) then []
  else
    let '(has_open, has_close, inner) := split_summary_wrapper text in
    let wrapper_lines := (if has_open then 1 else 0) + (if has_close then 1 else 0) in
    let wrapper_chars := (if has_open then utf8_len (lit "<summary>") + 1 else 0)
      + (if has_close then utf8_len (lit "</summary>") + 1 else 0) in
    let compressed := compress_body inner (SUMMARY_MAX_CHARS - wrapper_chars) (SUMMARY_MAX_LINES - wrapper_lines) in
    (if has_open then lit "<summary>" ++ newline else []) ++ compressed ++ (if has_close then newline ++ lit "</summary>" else []).

(** * Lemmas *)

(** ** Line breaks *)

Definition breaks (s : str) : nat := length (List.filter (λ c, bool_decide (c = ch_newline)) s).
Definition unbroken (s : str) : Prop := breaks s = 0.

Lemma breaks_app a b : breaks (a ++ b) = breaks a + breaks b.
Proof. unfold breaks. by rewrite List.filter_app, length_app. Qed.
Lemma breaks_cons c s : breaks (c :: s) = (if bool_decide (c = ch_newline) then 1 else 0) + breaks s.
Proof. unfold breaks. simpl. by destruct (bool_decide _). Qed.
Lemma breaks_prefix a b : a `prefix_of` b → breaks a ≤ breaks b.
Proof. intros [k ->]. rewrite breaks_app. lia. Qed.

Lemma lines_length s : length (lines s) ≤ S (breaks s).
Proof.
  induction s as [|c s IH]; [simpl; lia|]. rewrite breaks_cons. simpl.
  destruct (N.eqb_spec c ch_newline) as [->|Hc]; simpl; [lia|].
  rewrite (bool_decide_eq_false_2 (c = ch_newline)) by done.
  destruct s as [|c' s]; [simpl; lia|]. destruct (_ && _); [lia|]. destruct (lines (c' :: s)); simpl in *; lia.
Qed.
Lemma lines_unbroken s : Forall unbroken (lines s).
Proof.
  induction s as [|c s IH]; [constructor|]. simpl.
  destruct (N.eqb_spec c ch_newline) as [->|Hc]; [by constructor|].
  assert (Hone : ∀ l, unbroken l → unbroken (c :: l)) by (intros l Hl; unfold unbroken; rewrite breaks_cons, bool_decide_eq_false_2; done).
  destruct s as [|c' s]; [by constructor; [apply Hone|]|]. destruct (_ && _); [done|].
  destruct (lines (c' :: s)) as [|l ls]; [by constructor; [apply Hone|]|]. inversion_clear IH. constructor; [by apply Hone|done].
Qed.
Lemma breaks_join ls : Forall unbroken ls → breaks (join newline ls) = length ls - 1.
Proof.
  induction 1 as [|l ls Hl Hls IH]; [done|]. destruct ls as [|l' ls]; [done|]. cbn [join length] in *.
  rewrite !breaks_app, Hl, IH. change (breaks newline) with 1. lia.
Qed.
Lemma sum_len_app (a b : list str) : sum_list (map utf8_len (a ++ b)) = sum_list (map utf8_len a) + sum_list (map utf8_len b).
Proof. induction a as [|x a IH]; simpl; lia. Qed.
Lemma utf8_len_join l ls : utf8_len (join newline (l :: ls)) = sum_list (map utf8_len (l :: ls)) + length ls.
Proof.
  revert l; induction ls as [|l' ls IH]; intros l; [simpl; lia|]. change (join newline (l :: l' :: ls)) with (l ++ newline ++ join newline (l' :: ls)).
  rewrite !utf8_len_app, IH. change (utf8_len newline) with 1. simpl. lia.
Qed.
Lemma total_join_len_spec headers candidates : total_join_len headers candidates = utf8_len (join newline (headers ++ candidates)).
Proof.
  unfold total_join_len. destruct (headers ++ candidates) as [|l ls]; [done|]. rewrite utf8_len_join. simpl. lia.
Qed.
Lemma utf8_len_join_snoc ls l :
  utf8_len (join newline (ls ++ [l])) = utf8_len (join newline ls) + utf8_len l + (if is_nonempty ls then 1 else 0).
Proof.
  destruct ls as [|x ls]; [simpl; lia|]. change ((x :: ls) ++ [l]) with (x :: (ls ++ [l])). rewrite !utf8_len_join. simpl.
  rewrite sum_len_app, length_app. simpl. lia.
Qed.

(** ** Notices *)

Lemma go_mono x y s t :
  (x ≤ y)%N → String.length s = String.length t → String.length (pretty.pretty_N_go x s) ≤ String.length (pretty.pretty_N_go y t).
Proof.
  revert x s t. induction (N.lt_wf_0 y) as [y _ IH]. intros x s t Hle Hl.
  destruct (decide (0 < y)%N) as [Hy|Hy]; [|replace x with 0%N by lia; replace y with 0%N by lia; rewrite !pretty.pretty_N_go_0; lia].
  rewrite (pretty.pretty_N_go_step y) by done.
  assert (Hd : (y `div` 10 < y)%N) by (apply N.div_lt; lia).
  destruct (decide (0 < x)%N) as [Hx|Hx].
  - rewrite (pretty.pretty_N_go_step x) by done. apply IH; [done|by apply N.Div0.div_le_mono|simpl; lia].
  - replace x with 0%N by lia. rewrite pretty.pretty_N_go_0.
    specialize (IH _ Hd 0%N (String (pretty.pretty_N_char (y `mod` 10)) s) (String (pretty.pretty_N_char (y `mod` 10)) t) (N.le_0_l _) (f_equal S Hl)).
    rewrite pretty.pretty_N_go_0 in IH. simpl in IH. lia.
Qed.
Lemma show_nat_mono n m : n ≤ m → length (show_nat n) ≤ length (show_nat m).
Proof.
  intros Hle. unfold show_nat, pretty.pretty, pretty.pretty_N. rewrite !length_lit.
  destruct (decide (N.of_nat n = 0%N)), (decide (N.of_nat m = 0%N)); [simpl; lia| |lia|apply go_mono; [lia|done]].
  rewrite (pretty.pretty_N_go_step (N.of_nat m)) by lia.
  etrans; [|apply (go_mono 0 (N.of_nat m `div` 10) (String (pretty.pretty_N_char (N.of_nat m `mod` 10)) EmptyString)); [apply N.le_0_l|done]].
  by rewrite pretty.pretty_N_go_0.
Qed.

Lemma ascii_len s : Forall (λ c, is_ascii c = true) s → utf8_len s = length s.
Proof.
  induction 1 as [|c s Hc Hs IH]; [done|]. unfold utf8_len in *. simpl. rewrite IH. unfold utf8_len_char, is_ascii in *. by rewrite Hc.
Qed.
Lemma show_nat_ascii n : Forall (λ c, is_ascii c = true) (show_nat n).
Proof.
  eapply Forall_impl; [apply show_nat_digits|]. intros c. unfold is_ascii_digit, in_range, is_ascii. simpl.
  rewrite andb_true_iff, !N.leb_le, N.ltb_lt. lia.
Qed.
Lemma notice_len n : utf8_len (omission_notice n) = 32 + length (show_nat n).
Proof.
  unfold omission_notice. rewrite !utf8_len_app, (ascii_len (show_nat n)) by apply show_nat_ascii.
  change (utf8_len (lit "[... ")) with 5. change (utf8_len (lit " lines omitted for brevity]")) with 27. lia.
Qed.
Lemma show_nat_unbroken n : unbroken (show_nat n).
Proof.
  unfold unbroken. pose proof (show_nat_digits n) as Hd. induction Hd as [|c s Hc Hs IH]; [done|].
  rewrite breaks_cons, IH, bool_decide_eq_false_2; [done|]. by intros ->.
Qed.
Lemma notice_unbroken n : unbroken (omission_notice n).
Proof. unfold unbroken, omission_notice. by rewrite !breaks_app, (show_nat_unbroken n). Qed.
Lemma truncate_line_prefix line n : truncate_line line n `prefix_of` line ∧ utf8_len (truncate_line line n) ≤ n.
Proof.
  unfold truncate_line. destruct (Nat.leb_spec (utf8_len line) n); [done|].
  destruct (floor_boundary_spec line n) as (Hle & Hb & _). apply boundary_prefix in Hb as (s2 & Hs2 & Hl).
  split; [by exists s2|lia].
Qed.

(** ** The budget *)

(** Within [c] bytes and [n] lines. *)
Definition fits (c n : nat) (ls : list str) : Prop := utf8_len (join newline ls) ≤ c ∧ length ls ≤ n.

Lemma dedup_lines_ok seen ls :
  Forall unbroken ls → Forall (λ l, unbroken l ∧ utf8_len l ≤ SUMMARY_MAX_LINE_CHARS) (dedup_lines seen ls) ∧
    length (dedup_lines seen ls) ≤ length ls.
Proof.
  intros Hls. revert seen. induction Hls as [|l ls Hl Hls IH]; intros seen; simpl; [done|].
  case_bool_decide; [destruct (IH seen); split; [done|lia]|].
  destruct (IH (to_ascii_lowercase (trim l) :: seen)) as [Hall Hlen]. destruct (truncate_line_prefix l SUMMARY_MAX_LINE_CHARS) as [Hp Hb].
  split; [|simpl; lia]. constructor; [split; [|done]|done]. apply breaks_prefix in Hp. unfold unbroken in *. lia.
Qed.

Lemma drop_lines_fits rounds drop_count headers candidates c n r :
  drop_lines rounds drop_count headers candidates c n = Some r →
  fits c n r ∧ ∃ k d, r = headers ++ take k candidates ++ [omission_notice d].
Proof.
  revert drop_count. induction rounds as [|rounds IH]; intros drop_count; simpl; [done|].
  set (keep := take _ candidates). destruct (Nat.ltb_spec n (length headers + length keep + 1)) as [|Hn]; [apply IH|].
  destruct (Nat.leb_spec (total_join_len headers keep + utf8_len (omission_notice drop_count) + 1) c) as [Hc|]; [|apply IH].
  intros [= <-]. rewrite total_join_len_spec in Hc. split; [|by eexists _, drop_count].
  unfold fits. rewrite app_assoc, utf8_len_join_snoc, !length_app. simpl. split; [destruct (is_nonempty _); lia|lia].
Qed.
Lemma fit_headers_fits budget drops result headers n r d :
  fit_headers budget drops result headers n = (r, d) → Forall (λ l, l ≠ []) headers →
  length result < n →
  utf8_len (join newline r) + 0 ≤ utf8_len (join newline result) + budget ∧ length r < n ∧ d ≤ drops + length headers ∧
  ∃ taken, r = result ++ taken ∧ taken ⊆ headers.
Proof.
  intros E Hne. revert budget drops result E. induction Hne as [|line headers Hl Hne IH]; intros budget drops result; simpl.
  { intros [= <- <-] Hn. split_and!; [lia|done|lia|]. exists []. by rewrite app_nil_r. }
  destruct (Nat.ltb_spec budget (utf8_len line + (if is_nonempty result then 1 else 0))) as [Hb|Hb]; simpl.
  { intros E Hn. destruct (IH _ _ _ E Hn) as (H1 & H2 & H3 & taken & -> & Ht).
    split_and!; [done|done|lia|]. exists taken. split; [done|set_solver]. }
  destruct (Nat.leb_spec n (length result + 1)).
  { intros E Hn. destruct (IH _ _ _ E Hn) as (H1 & H2 & H3 & taken & -> & Ht).
    split_and!; [done|done|lia|]. exists taken. split; [done|set_solver]. }
  intros E Hn. destruct (IH _ _ _ E ltac:(rewrite length_app; simpl; lia)) as (H1 & H2 & H3 & taken & -> & Ht).
  rewrite utf8_len_join_snoc in H1. split_and!; [lia|done|lia|].
  exists (line :: taken). rewrite <- app_assoc. split; [done|set_solver].
Qed.

Lemma is_header_nonempty l : is_header l = true → l ≠ [].
Proof. by intros Hh ->. Qed.

Lemma compress_lines_fits ls c n :
  Forall unbroken ls → 1 ≤ n → utf8_len (omission_notice (length ls)) ≤ c →
  fits c n (compress_lines ls c n) ∧ Forall unbroken (compress_lines ls c n).
Proof.
  intros Hls Hn Hc. unfold compress_lines.
  destruct ((length ls <=? n) && (utf8_len (join newline ls) <=? c)) eqn:E.
  { apply andb_true_iff in E as [E1%Nat.leb_le E2%Nat.leb_le]. done. }
  set (headers := List.filter is_header ls). set (bullets := List.filter (λ l, negb (is_header l) && is_bullet l) ls).
  set (other := List.filter (λ l, negb (is_header l) && negb (is_bullet l)) ls). set (candidates := bullets ++ other).
  assert (Hcount : length headers + length candidates = length ls).
  { unfold headers, candidates, bullets, other. clear. rewrite length_app. induction ls as [|l ls IH]; [done|]. simpl.
    destruct (is_header l), (is_bullet l); simpl; lia. }
  assert (Hsub : ∀ f, Forall unbroken (List.filter f ls)).
  { intros f. apply Forall_forall. intros x Hx%list_elem_of_In%filter_In. rewrite Forall_forall in Hls. apply Hls, list_elem_of_In, Hx. }
  assert (Hh : Forall unbroken headers) by apply Hsub.
  assert (Hcand : Forall unbroken candidates) by (apply Forall_app; split; apply Hsub).
  destruct ((length headers + length candidates <=? n) && (total_join_len headers candidates <=? c)) eqn:E2.
  { apply andb_true_iff in E2 as [E1%Nat.leb_le E2%Nat.leb_le]. rewrite total_join_len_spec in E2.
    split; [split; [done|by rewrite length_app]|by apply Forall_app]. }
  destruct (drop_lines _ _ _ _ _ _) as [r|] eqn:Ed.
  { apply drop_lines_fits in Ed as (Hf & k & d & ->). split; [done|].
    apply Forall_app; split; [done|]. apply Forall_app; split; [by apply Forall_take|]. constructor; [apply notice_unbroken|done]. }
  destruct (fit_headers _ _ _ _ _) as [r d] eqn:Ef. apply fit_headers_fits in Ef as (Hb & Hr & Hd & taken & -> & Ht);
    [|apply Forall_forall; intros x Hx%list_elem_of_In%filter_In; apply is_header_nonempty, Hx|simpl; lia].
  change ([] ++ taken) with taken in *. change (utf8_len (join newline [])) with 0 in Hb. rewrite notice_len in Hb, Hc. pose proof (show_nat_mono (length candidates + d) (length candidates + length headers) ltac:(lia)) as Hm.
  rewrite (Nat.add_comm (length candidates) (length headers)), Hcount in *.
  split; [unfold fits; rewrite utf8_len_join_snoc, length_app, notice_len; simpl; split; [|lia]|].
  - destruct taken as [|x taken]; [simpl in *; lia|]. cbn [is_nonempty] in *.
    assert (1 ≤ utf8_len (join newline (x :: taken))); [|lia].
    assert (Hx : x ∈ headers) by (apply Ht; left). apply list_elem_of_In, filter_In in Hx as [_ Hx%is_header_nonempty].
    rewrite utf8_len_join. destruct x as [|c0 x]; [done|]. simpl. pose proof (utf8_len_char_pos c0). unfold utf8_len. simpl. lia.
  - apply Forall_app; split; [|by constructor; [apply notice_unbroken|]].
    apply Forall_forall. intros x Hx. rewrite Forall_forall in Hh. apply Hh, Ht, Hx.
Qed.

Lemma breaks_sublist a b : a `sublist_of` b → breaks a ≤ breaks b.
Proof. unfold breaks. induction 1; simpl; [done| |]; case_bool_decide; simpl; lia. Qed.
Lemma breaks_len s : breaks s ≤ utf8_len s.
Proof.
  induction s as [|c s IH]; [done|]. rewrite breaks_cons. unfold utf8_len in *. simpl. pose proof (utf8_len_char_pos c).
  case_bool_decide; lia.
Qed.

Lemma utf8_len_sublist a b : a `sublist_of` b → utf8_len a ≤ utf8_len b.
Proof. unfold utf8_len. induction 1; simpl; lia. Qed.
Lemma split_wrapper_sublist text o c inner : split_summary_wrapper text = (o, c, inner) → inner `sublist_of` text.
Proof.
  unfold split_summary_wrapper.
  destruct (strip_prefix _ text) as [rest|] eqn:Ep.
  - apply strip_prefix_Some in Ep. destruct (strip_suffix _ rest) as [i|] eqn:Es; intros [= <- <- <-].
    + apply strip_suffix_Some in Es as ->. rewrite Ep. apply sublist_inserts_l, sublist_inserts_r. done.
    + rewrite Ep. by apply sublist_inserts_l.
  - destruct (strip_suffix _ text) as [i|] eqn:Es; intros [= <- <- <-]; [|done].
    apply strip_suffix_Some in Es as ->. by apply sublist_inserts_r.
Qed.
Lemma body_fits text c n :
  (Z.of_nat (utf8_len text) < u64_bound)%Z → 52 ≤ c → 1 ≤ n →
  utf8_len (compress_body text c n) ≤ c ∧ breaks (compress_body text c n) + 1 ≤ n.
Proof.
  intros Hlen Hc Hn. unfold compress_body. destruct (negb (is_nonempty (trim text))); [cbn; lia|].
  destruct (lines (trim text)) as [|l ls] eqn:El; [cbn; lia|]. cbn [is_nonempty negb]. rewrite <- El.
  destruct (dedup_lines_ok [] (lines (trim text)) (lines_unbroken _)) as [Hall Hle].
  assert (Hub : Forall unbroken (dedup_lines [] (lines (trim text)))) by (eapply Forall_impl; [exact Hall|by intros ? [? _]]).
  destruct (compress_lines_fits (dedup_lines [] (lines (trim text))) c n Hub Hn) as [[Hf1 Hf2] Hf3].
  - rewrite notice_len. assert (length (show_nat (length (dedup_lines [] (lines (trim text))))) ≤ 20); [|lia].
    pose proof (lines_length (trim text)). pose proof (breaks_sublist _ _ (trim_sublist text)). pose proof (breaks_len text).
    apply show_nat_length; [lia|]. unfold u64_bound in Hlen. simpl in *. lia.
  - split; [done|]. rewrite breaks_join by done. lia.
Qed.

(** The budget of a summary holds for every text: at most 1200 bytes and 24 lines, with the tags that wrap it and the
    notice of what was left out counted in.  (The length of a text is a [usize].) *)
Theorem compress_bounded text :
  (Z.of_nat (utf8_len text) < u64_bound)%Z →
  utf8_len (compress_summary text) ≤ SUMMARY_MAX_CHARS ∧ length (lines (compress_summary text)) ≤ SUMMARY_MAX_LINES.
Proof.
  intros Hlen. unfold compress_summary. destruct (negb (is_nonempty (trim text))); [unfold SUMMARY_MAX_CHARS, SUMMARY_MAX_LINES; cbn; lia|].
  destruct (split_summary_wrapper (trim text)) as [[has_open has_close] inner] eqn:Es.
  assert (Hin : inner `sublist_of` text) by (etrans; [by eapply split_wrapper_sublist|apply trim_sublist]).
  destruct (body_fits inner (SUMMARY_MAX_CHARS - ((if has_open then utf8_len (lit "<summary>") + 1 else 0)
      + (if has_close then utf8_len (lit "</summary>") + 1 else 0)))
    (SUMMARY_MAX_LINES - ((if has_open then 1 else 0) + (if has_close then 1 else 0)))) as [Hc Hl].
  - pose proof (utf8_len_sublist _ _ Hin). lia.
  - apply Nat.leb_le. by destruct has_open, has_close.
  - apply Nat.leb_le. by destruct has_open, has_close.
  - set (compressed := compress_body _ _ _) in *. clearbody compressed.
    change (utf8_len (lit "<summary>")) with 9 in *. change (utf8_len (lit "</summary>")) with 10 in *.
    unfold SUMMARY_MAX_CHARS, SUMMARY_MAX_LINES in *.
    split; [|etrans; [apply lines_length|]]; rewrite ?utf8_len_app, ?breaks_app; destruct has_open, has_close;
      rewrite ?utf8_len_app, ?breaks_app;
      change (utf8_len (lit "<summary>")) with 9; change (utf8_len (lit "</summary>")) with 10; change (utf8_len newline) with 1;
      change (breaks (lit "<summary>")) with 0; change (breaks (lit "</summary>")) with 0; change (breaks newline) with 1;
      change (utf8_len []) with 0; change (breaks []) with 0; lia.
Qed.

(** ** Trimming *)

Lemma trim_end_ws (s w : str) : forallb is_whitespace w = true → trim_end (s ++ w) = trim_end s.
Proof.
  intros Hw. unfold trim_end, trim_end_matches. rewrite reverse_app. f_equal.
  assert (Hr : forallb is_whitespace (reverse w) = true).
  { apply forallb_forall. intros x Hx. rewrite forallb_forall in Hw. apply Hw. apply list_elem_of_In. apply elem_of_reverse, list_elem_of_In, Hx. }
  revert Hr. generalize (reverse w), (reverse s). clear. intros w s. induction w as [|c w IH]; [done|]. simpl.
  destruct (is_whitespace c); [|done]. apply IH.
Qed.
Lemma trim_end_text (s : str) c : is_whitespace c = false → trim_end (s ++ [c]) = s ++ [c].
Proof.
  intros Hc. unfold trim_end, trim_end_matches. rewrite reverse_app. simpl. rewrite Hc.
  change (c :: reverse s) with (reverse [c] ++ reverse s). by rewrite <- reverse_app, reverse_involutive.
Qed.
Lemma drop_while_head {A} (f : A → bool) l x l' : drop_while f l = x :: l' → f x = false.
Proof. induction l as [|y l IH]; [done|]. simpl. destruct (f y) eqn:E; [done|]. by intros [= <- _]. Qed.
Lemma trim_end_idem s : trim_end (trim_end s) = trim_end s.
Proof.
  unfold trim_end, trim_end_matches. rewrite reverse_involutive. f_equal.
  destruct (drop_while is_whitespace (reverse s)) as [|c l] eqn:E; [done|]. simpl. by rewrite (drop_while_head _ _ _ _ E).
Qed.
(** A trimmed text has no space at either end. *)
Lemma trim_ends s c t : trim s = c :: t → is_whitespace c = false ∧ trim_end (c :: t) = c :: t.
Proof.
  intros E. split; [|rewrite <- E; unfold trim; apply trim_end_idem].
  unfold trim in E. destruct (trim_end_prefix (trim_start s)) as [k Hk]. rewrite E in Hk. simpl in Hk.
  unfold trim_start, trim_start_matches in Hk. by apply drop_while_head in Hk.
Qed.

(** ** Finding a summary again *)

Lemma format_trimmed summary : ∃ s, format_compact_summary summary = trim s.
Proof. by eexists. Qed.
(** A text that ends in a constant that is no space. *)
Lemma trim_end_const (s p : str) c : last p = Some c → is_whitespace c = false → trim_end (s ++ p) = s ++ p.
Proof. intros [q ->]%last_Some Hc. rewrite app_assoc. by apply trim_end_text. Qed.
Lemma trim_end_directive s : trim_end (s ++ COMPACT_DIRECT_RESUME_INSTRUCTION) = s ++ COMPACT_DIRECT_RESUME_INSTRUCTION.
Proof. by apply (trim_end_const _ _ (ch ".")). Qed.
Lemma trim_end_note s : trim_end (s ++ COMPACT_RECENT_MESSAGES_NOTE) = s ++ COMPACT_RECENT_MESSAGES_NOTE.
Proof. by apply (trim_end_const _ _ (ch ".")). Qed.
Lemma without_suffix_app p s : without_suffix p (s ++ p) = s.
Proof. unfold without_suffix. by rewrite (proj2 (strip_suffix_Some p (s ++ p) s)). Qed.

(** A history that starts with a summary is summarised on from it: the text of a message that carries one gives the
    summary back, without the preamble, the note and the directive around it -- unless the summary itself ends with the words
    of the note. *)
Theorem wrapped_summary_is_found summary preserved first rest :
  content_str first = Some (WRAPPER ++ get_compact_continuation_message summary preserved) →
  format_compact_summary summary ≠ [] →
  preserved = true ∨ ends_with COMPACT_RECENT_MESSAGES_NOTE (format_compact_summary summary) = false →
  extract_existing_compacted_summary (first :: rest) = Some (format_compact_summary summary).
Proof.
  intros Hc Hne Hnote. unfold extract_existing_compacted_summary. cbn [head]. cbn [mbind option_bind]. rewrite Hc. cbn [mbind option_bind].
  rewrite strip_prefix_app. cbn [fmap option_fmap option_map or_else]. cbn [mbind option_bind].
  unfold get_compact_continuation_message, without_prefix. rewrite strip_prefix_app. cbn [unwrap_or].
  destruct (format_trimmed summary) as [s Hs]. rewrite Hs in *. destruct (trim s) as [|c t] eqn:Et; [done|].
  destruct (trim_ends s c t Et) as [Hsp Hend]. clear Et Hs.
  assert (Htrim : ∀ w, forallb is_whitespace w = true → trim ((c :: t) ++ w) = c :: t).
  { intros w Hw. unfold trim, trim_start, trim_start_matches. simpl. rewrite Hsp.
    change (c :: t ++ w) with ((c :: t) ++ w). by rewrite trim_end_ws. }
  set (note := if preserved then _ else _).
  assert (Hd : without_directive ((c :: t) ++ note ++ newline ++ COMPACT_DIRECT_RESUME_INSTRUCTION) = c :: t); [|by rewrite Hd].
  unfold without_directive.
  replace ((c :: t) ++ note ++ newline ++ COMPACT_DIRECT_RESUME_INSTRUCTION)
    with (((c :: t) ++ note ++ newline) ++ COMPACT_DIRECT_RESUME_INSTRUCTION) by (by rewrite <- !app_assoc).
  rewrite trim_end_directive, without_suffix_app, app_assoc, trim_end_ws by done. unfold note. destruct preserved.
  - rewrite (app_assoc newline newline), (app_assoc (c :: t)), trim_end_note, without_suffix_app. by apply Htrim.
  - destruct Hnote as [|Hnote]; [done|]. rewrite app_nil_r, Hend. unfold without_suffix.
    unfold ends_with in Hnote. destruct (strip_suffix _ _); [done|]. cbn [unwrap_or].
    rewrite <- (app_nil_r (c :: t)) at 1. by apply Htrim.
Qed.

(** ** A conversation *)

Definition demo_message (role text : str) : json := JObject [(lit "role", JString role); (lit "content", JString text)].
Definition demo_conversation : list json :=
  [demo_message "user" "Please fix src/main.rs, next the tests"; demo_message "assistant" "Done: `lib/a.TXT` is unchanged, see (docs/a.md)."].
Example demo_summary :
  summarize_messages demo_conversation = join newline (map lit
    ["<summary>"; "Conversation summary:"; "- Scope: 2 earlier messages compacted (user=1, assistant=1, tool=0)."; "- Recent user requests:";
     "  - Please fix src/main.rs, next the tests"; "- Pending work:"; "  - Please fix src/main.rs, next the tests";
     "- Key files referenced: docs/a.md, src/main.rs."; "- Current work: Done: `lib/a.TXT` is unchanged, see (docs/a.md).";
     "- Key timeline:"; "  - user: Please fix src/main.rs, next the tests";
     "  - assistant: Done: `lib/a.TXT` is unchanged, see (docs/a.md)."; "</summary>"]%string).
Proof. vm_compute. reflexivity. Qed.

Definition long_summary : str :=
  join newline ([lit "<summary>"] ++ map (λ i, lit "- item " ++ show_nat i) (seq 0 40) ++ [lit "</summary>"]).
Lemma compress_bounded_witness :
  utf8_len (compress_summary long_summary) ≤ SUMMARY_MAX_CHARS ∧ length (lines (compress_summary long_summary)) ≤ SUMMARY_MAX_LINES ∧
  length (lines (compress_summary long_summary)) = 24 ∧ contains "[... 19 lines omitted for brevity]" (compress_summary long_summary) = true.
Proof.
  destruct (compress_bounded long_summary) as [H1 H2]; [vm_compute; reflexivity|]. split; [exact H1|]. split; [exact H2|].
  split; vm_compute; reflexivity.
Defined.

Definition demo_wrapped : json := demo_message "user" (WRAPPER ++ get_compact_continuation_message (summarize_messages demo_conversation) false).
Lemma wrapped_summary_is_found_witness :
  extract_existing_compacted_summary [demo_wrapped] = Some (format_compact_summary (summarize_messages demo_conversation)).
Proof.
  apply (wrapped_summary_is_found _ false); [vm_compute; reflexivity|vm_compute; discriminate|right; vm_compute; reflexivity].
Defined.
