(* ===== verification/Compaction.v ===== *)
(** Compaction: a history that fits the model again.

    Models [crates/chat/src/compaction_run/]: the boundaries of head and tail, the pruning of tool
    results, the repair of calls and results, the four strategies and their dispatch ([runner.rs]).  The
    summary without a model is in Summary.v, the conversion of a history for the provider in
    Messages.v.  A provider is its context window and the stream it answers a prompt with.

    Theorems: whatever strategy runs, the calls and the results of the new history have the same
    identifiers, and a history whose calls have identifiers of their own, and whose results follow
    their calls, is replaced by one in which moreover every call has its result after it
    ([compaction_answers_calls]); the strategies that keep a head and a tail keep each of their
    messages, in order ([boundaries_are_kept]).  Not modelled: the one-time warning about options
    that are not wired. *)
From S2P Require Import Prelude Float64 Json Utf8 ToolArgs Messages Summary.
Local Open Scope nat_scope.
Local Open Scope result_scope.

Inductive CompactionMode := Deterministic | RecencyPreserving | Structured | LlmReplace.
Record CompactionConfig := {
  mode : CompactionMode;
  threshold_percent : f64;              (** [f32] values, exact as [f64] *)
  protect_head : nat;
  protect_tail_min : nat;
  tail_budget_ratio : f64;
  tool_prune_char_threshold : nat;
}.

Inductive CompactionRunError :=
| EmptyHistory
| EmptySummary
| ProviderRequired (mode : str)
| LlmFailed (e : str)
| TooSmallToCompact (messages head tail : nat).

Record CompactionOutcome := {
  history : list json;
  effective_mode : CompactionMode;
  input_tokens : Z;
  output_tokens : Z;
}.
Definition total_tokens (o : CompactionOutcome) : Z := sat_add u32_bound (input_tokens o) (output_tokens o).
Definition compaction_mode_key (m : CompactionMode) : str :=
  match m with
  | Deterministic => lit "deterministic"
  | RecencyPreserving => lit "recency_preserving"
  | Structured => lit "structured"
  | LlmReplace => lit "llm_replace"
  end.
Definition SETTINGS_HINT : str :=
  lit "Change chat.compaction.mode in moltis.toml (or the web UI settings panel) to pick a different compaction strategy. See https://docs.moltis.org/compaction for a comparison of the four modes.".
Definition broadcast_metadata (o : CompactionOutcome) (include_settings_hint : bool) : json :=
  JObject ([(lit "mode", JString (compaction_mode_key (effective_mode o)));
    (lit "compactionInputTokens", JNumber (number_of_Z (input_tokens o)));
    (lit "compactionOutputTokens", JNumber (number_of_Z (output_tokens o)));
    (lit "compactionTotalTokens", JNumber (number_of_Z (total_tokens o)))]
    ++ (if include_settings_hint then [(lit "settingsHint", JString SETTINGS_HINT)] else [])).

(** The first match, from the end, of the texts of a history. *)
Definition COMPACTED : str := lit "[Conversation Compacted]" ++ newline ++ newline.
Definition extract_summary_body (compacted : list json) : str :=
  unwrap_or [] (head (omap (λ content, or_else (strip_prefix WRAPPER content) (strip_prefix COMPACTED content))
    (omap content_str (reverse compacted)))).

(** * Messages *)

Section shared.
Context `{SerdeJson} (now_ms : Z).

Definition PRUNED_TOOL_PLACEHOLDER : str := lit "[Old tool output cleared to save context space]".
Definition role_is (role : str) (m : json) : bool := field_is (lit "role") role m.
Definition is_tool_role_value (m : json) : bool := role_is (lit "tool") m || role_is (lit "tool_result") m.
Definition assistant_tool_call_ids (m : json) : list str := omap (λ c, get "id" c ≫= as_str) (Summary.tool_calls m).
Definition tool_result_call_id (m : json) : option str := get "tool_call_id" m ≫= as_str.

Definition json_len (v : json) : nat := unwrap_or 0 (utf8_len <$> to_string v).
Definition str_len (o : option str) : nat := unwrap_or 0 (utf8_len <$> o).
Definition block_bytes (block : json) : nat :=
  match get "text" block ≫= as_str with
  | Some text => utf8_len text
  | None => str_len (iu ← get "image_url" block; u ← get "url" iu; as_str u)
  end.
Definition message_tokens (m : json) : Z :=
  let content :=
    match content_str m with
    | Some text => utf8_len text
    | None => sum_list (map block_bytes (unwrap_or [] (content_blocks m)))
    end in
  let args := sum_list (map (λ call, str_len (function_field (lit "arguments") call)) (Summary.tool_calls m)) in
  let result := match get "result" m with Some r => json_len r | None => 0 end in
  let error := str_len (get "error" m ≫= as_str) in
  Z.of_nat (content + args + result + error) / 4 + 10.

(** ** Boundaries *)

(** [x.clamp(lo, hi)] of floats. *)
Definition f_clamp (lo hi x : f64) : f64 := if SpecFloat.SFltb x lo then lo else if SpecFloat.SFltb hi x then hi else x.
(** [x.round() as u64]: halves away from zero; not a number is zero. *)
Definition f_round_u64 (x : f64) : Z :=
  match x with
  | SpecFloat.S754_finite false m e =>
      clamp 0 u64_max (if (0 <=? e)%Z then Z.pos m * 2 ^ e else (Z.pos m + 2 ^ (- e - 1)) / 2 ^ (- e))
  | SpecFloat.S754_infinity false => u64_max
  | _ => 0
  end%Z.
(** The [f32] literals of the code. *)
Definition f32_0_1 : f64 := f_of_Z 13421773 (-27).
Definition f32_0_95 : f64 := f_of_Z 15938355 (-24).
Definition f32_0_05 : f64 := f_of_Z 13421773 (-28).
Definition f32_0_80 : f64 := f_of_Z 13421773 (-24).
Definition tail_budget (config : CompactionConfig) (context_window : Z) : Z :=
  let threshold := f_clamp f32_0_1 f32_0_95 (threshold_percent config) in
  let tail_ratio := f_clamp f32_0_05 f32_0_80 (tail_budget_ratio config) in
  Z.max (f_round_u64 (f_mul (f_mul (f_of_Z context_window 0) threshold) tail_ratio)) 1.

Record HeadTailBounds := { head_end : nat; tail_start : nat; bound_head : nat; bound_tail_min : nat }.

(** [for idx in (head_end..n).rev()]: [ms] are the messages from [head_end] on not yet looked at, the last first. *)
Fixpoint walk (budget : Z) (floor_min n : nat) (ms : list json) (accumulated : Z) (start : nat) : nat :=
  match ms with
  | [] => start
  | m :: ms =>
      let idx := start - 1 in
      let keep_for_budget := (accumulated + message_tokens m <=? budget)%Z in
      let keep_for_floor := n - idx <=? floor_min in
      if keep_for_budget || keep_for_floor then walk budget floor_min n ms (accumulated + message_tokens m) idx else start
  end.
(** The length of the run of tool messages at the front. *)
Definition align_boundary_forward_past_tool_group (h : list json) (idx : nat) : nat :=
  idx + length (take_while is_tool_role_value (drop idx h)).
Definition compute_boundaries (h : list json) (config : CompactionConfig) (context_window : Z) : HeadTailBounds :=
  let n := length h in
  let head := min (protect_head config) n in
  let tail_min := min (protect_tail_min config) (n - head) in
  let start := walk (tail_budget config context_window) tail_min n (reverse (drop head h)) 0 n in
  {| head_end := head; tail_start := align_boundary_forward_past_tool_group h start; bound_head := head; bound_tail_min := tail_min |}.

(** ** Pruning *)

Definition set_field (k v : str) (m : json) : json :=
  match m with JObject o => JObject (insert_assoc k (JString v) o) | _ => m end.
(** The message, and whether anything was rewritten. *)
Definition prune_single_tool_result (m : json) (threshold : nat) : json * bool :=
  if bool_decide (content_str m = Some PRUNED_TOOL_PLACEHOLDER) then (m, false)
  else
    let content_too_big := threshold <? str_len (content_str m) in
    let m1 := if content_too_big then set_field (lit "content") PRUNED_TOOL_PLACEHOLDER m else m in
    let result_too_big := is_some_and (λ r, threshold <? json_len r) (get "result" m1) in
    let error_too_big := is_some_and (λ e, threshold <? utf8_len e) (get "error" m1 ≫= as_str) in
    let m2 := if result_too_big then set_field (lit "result") PRUNED_TOOL_PLACEHOLDER m1 else m1 in
    let m3 := if error_too_big then set_field (lit "error") PRUNED_TOOL_PLACEHOLDER m2 else m2 in
    (m3, content_too_big || result_too_big || error_too_big).
Definition prune_message (threshold : nat) (m : json) : json * bool :=
  if is_tool_role_value m then prune_single_tool_result m threshold else (m, false).
Definition prune_tool_results_before (ms : list json) (end_exclusive threshold : nat) : list json * nat :=
  let front := map (prune_message threshold) (take end_exclusive ms) in
  (map fst front ++ drop end_exclusive ms, length (List.filter snd front)).

(** ** Calls and results *)

Definition stub_tool_result (tool_call_id : str) : json :=
  JObject [(lit "role", JString (lit "tool")); (lit "tool_call_id", JString tool_call_id);
    (lit "content", JString (lit "[Result from earlier conversation " ++ [8212%N] ++ lit " see context summary above]"));
    (lit "created_at", JNumber (number_of_Z now_ms))].

Definition call_ids (m : json) : list str := if role_is (lit "assistant") m then assistant_tool_call_ids m else [].
Definition result_id (m : json) : option str := if is_tool_role_value m then tool_result_call_id m else None.
(** The calls of one message: stubs for those without a result. *)
Fixpoint add_stubs (satisfied : list str) (ids : list str) : list json * list str :=
  match ids with
  | [] => ([], satisfied)
  | i :: ids =>
      if bool_decide (i ∈ satisfied) then add_stubs satisfied ids
      else let '(stubs, satisfied) := add_stubs (i :: satisfied) ids in (stub_tool_result i :: stubs, satisfied)
  end.
Fixpoint patch (satisfied : list str) (ms : list json) : list json :=
  match ms with
  | [] => []
  | m :: ms => let '(stubs, satisfied) := add_stubs satisfied (call_ids m) in m :: stubs ++ patch satisfied ms
  end.
Definition sanitize_tool_pairs (ms : list json) : list json :=
  let surviving := flat_map call_ids ms in
  let kept := List.filter (λ m, match result_id m with Some i => bool_decide (i ∈ surviving) | None => true end) ms in
  patch (omap result_id kept) kept.

Definition finalize_kept (kept : list json) (config : CompactionConfig) (tail_min : nat) : list json :=
  sanitize_tool_pairs (prune_tool_results_before kept (length kept - tail_min * 3) (tool_prune_char_threshold config)).1.
Definition in_place_prune_or_err (h : list json) (config : CompactionConfig) (bounds : HeadTailBounds)
    : result (list json) CompactionRunError :=
  let '(kept, pruned) := prune_tool_results_before h (length h) (tool_prune_char_threshold config) in
  if pruned =? 0 then Err (TooSmallToCompact (length h) (bound_head bounds) (bound_tail_min bounds))
  else Ok (sanitize_tool_pairs kept).

(** ** Markers *)

Definition user_message (text : str) : json :=
  JObject [(lit "role", JString (lit "user")); (lit "content", JString text); (lit "created_at", JNumber (number_of_Z now_ms))].
Definition build_middle_marker (middle : list json) : json :=
  user_message (COMPACTED ++ show_nat (length middle) ++ lit " earlier messages were elided to save context space ("
    ++ show_nat (count (role_is (lit "user")) middle) ++ lit " user, " ++ show_nat (count (role_is (lit "assistant")) middle)
    ++ lit " assistant, " ++ show_nat (count is_tool_role_value middle)
    ++ lit " tool). Recent messages are preserved verbatim below. Use chat.compaction.mode = " ++ [ch_dquote] ++ lit "structured"
    ++ [ch_dquote] ++ lit " (when available) for a full semantic summary of the omitted middle region.").
Definition build_summary_message (body : str) : json := user_message (WRAPPER ++ body).

(** * Strategies *)

(** Head and tail around what stands for the middle. *)
Definition splice (h : list json) (bounds : HeadTailBounds) (m : json) : list json :=
  take (head_end bounds) h ++ m :: drop (tail_start bounds) h.
Definition middle_of (h : list json) (bounds : HeadTailBounds) : list json :=
  drop (head_end bounds) (take (tail_start bounds) h).
Definition outcome (h : list json) (m : CompactionMode) (input output : Z) : CompactionOutcome :=
  {| history := h; effective_mode := m; input_tokens := input; output_tokens := output |}.

Definition run_recency_preserving (h : list json) (config : CompactionConfig) (context_window : Z)
    : result CompactionOutcome CompactionRunError :=
  let bounds := compute_boundaries h config context_window in
  let? kept :=
    if tail_start bounds <=? head_end bounds then in_place_prune_or_err h config bounds
    else Ok (finalize_kept (splice h bounds (build_middle_marker (middle_of h bounds))) config (bound_tail_min bounds)) in
  Ok (outcome kept RecencyPreserving 0 0).

Definition run_deterministic (h : list json) : result CompactionOutcome CompactionRunError :=
  match compute_compaction_summary h with
  | None => Err EmptySummary
  | Some merged =>
      let summary := compress_summary merged in
      if negb (is_nonempty summary) then Err EmptySummary
      else Ok (outcome [build_summary_message (get_compact_continuation_message summary false)] Deterministic 0 0)
  end.

(** What a provider streams, of which a summary is made of the texts. *)
Inductive SummaryEvent := Delta (text : str) | Finished (input output : Z) | StreamError (e : str) | OtherEvent.
Record Provider := { context_window : Z; stream : list ChatMessage → list SummaryEvent }.
(** The text and the usage, or the error; a stream that just ends is complete. *)
Fixpoint collect (summary : str) (events : list SummaryEvent) : result (str * Z * Z) str :=
  match events with
  | [] => Ok (summary, 0%Z, 0%Z)
  | Delta text :: events => collect (summary ++ text) events
  | Finished input output :: _ => Ok (summary, input, output)
  | StreamError e :: _ => Err e
  | OtherEvent :: events => collect summary events
  end.

Context `{JsonDisplay} (data_dir : str).

Definition quoted (s : str) : str := [ch_dquote] ++ s ++ [ch_dquote].
Definition STRUCTURED_TEMPLATE : str :=
  let dash := lit " " ++ [8212%N] ++ lit " " in
  join newline [lit "## Goal"; lit "[What the user is trying to accomplish]"; []; lit "## Constraints & Preferences";
    lit "[User preferences, coding style, constraints, important decisions]"; []; lit "## Progress"; lit "### Done";
    lit "[Completed work" ++ dash ++ lit "include specific file paths, commands run, results obtained]"; lit "### In Progress";
    lit "[Work currently underway]"; lit "### Blocked"; lit "[Any blockers or issues encountered]"; []; lit "## Key Decisions";
    lit "[Important technical decisions and why they were made]"; []; lit "## Relevant Files";
    lit "[Files read, modified, or created" ++ dash ++ lit "with brief note on each]"; []; lit "## Next Steps";
    lit "[What needs to happen next to continue the work]"; []; lit "## Critical Context";
    lit "[Any specific values, error messages, configuration details, or data that would be lost without explicit preservation]"].
Definition STRUCTURED_SYSTEM_INSTRUCTIONS : str :=
  lit "You are a conversation summarizer. The messages that follow are an agentic coding session you must summarize. Your summary must capture: active tasks and their current status (in-progress, blocked, pending); batch operation progress; the last thing the user asked for and what was being done about it; decisions made and their rationale; TODOs, open questions, and constraints; any commitments or follow-ups promised. Prioritize recent context over older history. Preserve all opaque identifiers exactly as written (no shortening or reconstruction): UUIDs, hashes, tokens, API keys, hostnames, IPs, ports, URLs, and file names. After the conversation, you will receive a final instruction telling you which template to fill in.".
Definition first_compaction_instructions : str :=
  lit "Produce a structured handoff summary for a later assistant that will continue this conversation after the earlier turns above are compacted. Use this exact structure, filling every section (write "
  ++ quoted (lit "(none)") ++ lit " if a section has nothing to report):" ++ newline ++ newline ++ STRUCTURED_TEMPLATE ++ newline ++ newline
  ++ lit "Target roughly 800 tokens. Be specific " ++ [8212%N] ++ lit " include file paths, command outputs, error messages, and concrete values rather than vague descriptions. Write only the summary body. Do not include any preamble or prefix.".
Definition iterative_instructions (previous_summary : str) : str :=
  lit "You are updating a previous compaction summary. The first message in the conversation above is a previous compaction's structured summary; the remaining messages are new turns that need to be incorporated."
  ++ newline ++ newline ++ lit "PREVIOUS SUMMARY:" ++ newline ++ previous_summary ++ newline ++ newline
  ++ lit "Update the summary using this exact structure. PRESERVE all existing information that is still relevant. ADD new progress. Move items from "
  ++ quoted (lit "In Progress") ++ lit " to " ++ quoted (lit "Done")
  ++ lit " when completed. Remove information only if it is clearly obsolete." ++ newline ++ newline ++ STRUCTURED_TEMPLATE ++ newline ++ newline
  ++ lit "Target roughly 800 tokens. Be specific " ++ [8212%N] ++ lit " include file paths, command outputs, error messages, and concrete values. Write only the summary body. Do not include any preamble or prefix.".

(** The newest user message that carries a summary. *)
Definition extract_previous_summary (h : list json) : option str :=
  head (omap (λ m, if role_is (lit "user") m then content_str m ≫= strip_prefix WRAPPER else None) (reverse h)).

Definition run_structured (h : list json) (config : CompactionConfig) (provider : Provider) (max_tool_result_bytes : nat)
    : result CompactionOutcome CompactionRunError :=
  let bounds := compute_boundaries h config (context_window provider) in
  if tail_start bounds <=? head_end bounds then
    let? kept := in_place_prune_or_err h config bounds in Ok (outcome kept Structured 0 0)
  else
    let directive := match extract_previous_summary h with
      | Some prev => iterative_instructions prev | None => first_compaction_instructions end in
    let messages := System STRUCTURED_SYSTEM_INSTRUCTIONS
      :: values_to_chat_messages_with_tool_result_limit data_dir (middle_of h bounds) max_tool_result_bytes ++ [user directive] in
    match collect [] (stream provider messages) with
    | Err _ => run_recency_preserving h config (context_window provider)
    | Ok (summary, input, output) =>
        let summary := trim summary in
        if negb (is_nonempty summary) then run_recency_preserving h config (context_window provider)
        else Ok (outcome (finalize_kept (splice h bounds (build_summary_message summary)) config (bound_tail_min bounds)) Structured input output)
    end.

Definition run_llm_replace (h : list json) (provider : Provider) (max_tool_result_bytes : nat)
    : result CompactionOutcome CompactionRunError :=
  let messages := System (lit "You are a conversation summarizer. The messages that follow are a conversation you must summarize. Preserve all key facts, decisions, and context. After the conversation, you will receive a final instruction.")
    :: values_to_chat_messages_with_tool_result_limit data_dir h max_tool_result_bytes
    ++ [user (lit "Summarize the conversation above into a concise form. Output only the summary, no preamble.")] in
  match collect [] (stream provider messages) with
  | Err e => Err (LlmFailed e)
  | Ok (summary, input, output) =>
      if negb (is_nonempty summary) then Err EmptySummary else Ok (outcome [build_summary_message summary] LlmReplace input output)
  end.

Definition run_compaction (h : list json) (config : CompactionConfig) (provider : option Provider) (max_tool_result_bytes : nat)
    : result CompactionOutcome CompactionRunError :=
  if negb (is_nonempty h) then Err EmptyHistory
  else match mode config with
  | Deterministic => run_deterministic h
  | RecencyPreserving => run_recency_preserving h config (match provider with Some p => context_window p | None => 200000%Z end)
  | Structured =>
      match provider with
      | Some p => run_structured h config p max_tool_result_bytes
      | None => Err (ProviderRequired (lit "structured"))
      end
  | LlmReplace =>
      match provider with
      | Some p => run_llm_replace h p max_tool_result_bytes
      | None => Err (ProviderRequired (lit "llm_replace"))
      end
  end.
End shared.

(** * Calls and their results *)

(** The identifiers of the calls of a history, in order. *)
Definition ids (h : list json) : list str := flat_map call_ids h.
Definition results (h : list json) : list str := omap result_id h.
(** Every result comes after its call; [before] are the calls before the history. *)
Fixpoint anchored (before : list str) (h : list json) : Prop :=
  match h with
  | [] => True
  | m :: h => (∀ i, result_id m = Some i → i ∈ before) ∧ anchored (before ++ call_ids m) h
  end.
(** Every call has a result after it. *)
Fixpoint answered (h : list json) : Prop :=
  match h with [] => True | m :: h => (∀ i, i ∈ call_ids m → i ∈ results h) ∧ answered h end.
(** No call comes after its result. *)
Fixpoint ordered (h : list json) : Prop :=
  match h with [] => True | m :: h => (∀ i, result_id m = Some i → i ∉ ids (m :: h)) ∧ ordered h end.

Local Arguments ids : simpl never.
Local Arguments results : simpl never.
Lemma ids_app a b : ids (a ++ b) = ids a ++ ids b.
Proof. apply flat_map_app. Qed.
Lemma results_app a b : results (a ++ b) = results a ++ results b.
Proof. apply omap_app. Qed.

Lemma anchored_app before a b : anchored before (a ++ b) ↔ anchored before a ∧ anchored (before ++ ids a) b.
Proof.
  revert before. induction a as [|m a IH]; intros before; simpl; [rewrite app_nil_r; tauto|].
  rewrite IH. unfold ids. simpl. rewrite app_assoc. tauto.
Qed.
Lemma anchored_mono before before' h : before ⊆ before' → anchored before h → anchored before' h.
Proof.
  revert before before'. induction h as [|m h IH]; intros before before' Hs; [done|]. simpl. intros [Hm Hh].
  split; [intros i Hi; by apply Hs, Hm|]. eapply IH; [|exact Hh]. set_solver.
Qed.
Lemma ids_sublist a b : a `sublist_of` b → ids a `sublist_of` ids b.
Proof. unfold ids. induction 1; simpl; [done|by apply sublist_app|by apply sublist_inserts_l]. Qed.
Lemma ordered_sublist a b : a `sublist_of` b → ordered b → ordered a.
Proof.
  induction 1 as [|m a b Hs IH|m a b Hs IH]; simpl; [done| |tauto]. intros [Hm Hb]. split; [|by apply IH].
  intros i Hi Hin. apply (Hm i Hi). unfold ids in *. simpl in *. apply elem_of_app in Hin as [Hin|Hin]; apply elem_of_app; [by left|right].
  eapply elem_of_sublist; [exact Hin|by apply (ids_sublist a b)].
Qed.

(** A message without calls or a result does not matter. *)
Definition plain (m : json) : Prop := call_ids m = [] ∧ result_id m = None.
Lemma ordered_insert a m b : plain m → ordered (a ++ b) → ordered (a ++ m :: b).
Proof.
  intros [Hc Hr]. induction a as [|x a IH]; simpl; [intros Hb; split; [by rewrite Hr|done]|].
  intros [Hx Hab]. split; [|by apply IH]. intros i Hi. specialize (Hx i Hi). unfold ids in *. simpl in *.
  rewrite flat_map_app in *. simpl. by rewrite Hc.
Qed.

(** A rewritten message: the same calls and the same result. *)
Definition same (m m' : json) : Prop :=
  call_ids m = call_ids m' ∧ result_id m = result_id m' ∧ is_tool_role_value m = is_tool_role_value m' ∧ (is_tool_role_value m = false → m = m').
Lemma same_ids h h' : Forall2 same h h' → ids h = ids h' ∧ results h = results h'.
Proof.
  unfold ids, results. induction 1 as [|m m' h h' (Hc & Hr & _ & _) Hh [IH1 IH2]]; [done|]. csimpl. rewrite Hc, Hr, IH1, IH2. done.
Qed.
Lemma ordered_same h h' : Forall2 same h h' → ordered h → ordered h'.
Proof.
  induction 1 as [|m m' h h' Hm Hh IH]; [done|]. simpl. intros [Hi Ho]. split; [|by apply IH].
  intros i Hr Hin. destruct (same_ids (m :: h) (m' :: h')) as [E _]; [by constructor|]. destruct Hm as (_ & Hr' & _ & _).
  apply (Hi i); [by rewrite Hr'|]. by rewrite E.
Qed.

(** ** Rewriting a field *)

Lemma get_set_field k k' v m : k ≠ k' → get k (set_field k' v m) = get k m.
Proof. intros Hne. destruct m; try done. unfold get, set_field. simpl. by apply Json.assoc_insert_ne. Qed.

(** A field that is none of those a message is recognised by. *)
Lemma same_fields m m' :
  is_tool_role_value m = true → get "role" m' = get "role" m → get "tool_call_id" m' = get "tool_call_id" m → same m m'.
Proof.
  intros Ht Hr Hi.
  assert (Hf : ∀ role, role_is role m' = role_is role m) by (intros role; unfold role_is, field_is; by rewrite Hr).
  assert (Ha : role_is (lit "assistant") m = false).
  { unfold is_tool_role_value, role_is, field_is in *. apply orb_true_iff in Ht. rewrite !bool_decide_eq_true in Ht.
    apply bool_decide_eq_false. destruct Ht as [Ht|Ht]; rewrite Ht; by intros [= E]. }
  split_and!.
  - unfold call_ids. by rewrite Hf, Ha.
  - unfold result_id, is_tool_role_value, tool_result_call_id. by rewrite !Hf, Hi.
  - unfold is_tool_role_value. by rewrite !Hf.
  - by rewrite Ht.
Qed.

Section theorems.
Context `{SerdeJson} (now_ms : Z).

Lemma prune_same threshold m : same m (prune_message threshold m).1.
Proof.
  unfold prune_message. destruct (is_tool_role_value m) eqn:Et; [|done]. unfold prune_single_tool_result.
  case_bool_decide; [done|]. simpl. apply same_fields; [done| |]; repeat case_match; by rewrite ?get_set_field.
Qed.
Lemma prune_all_same ms n threshold : Forall2 same ms (prune_tool_results_before ms n threshold).1.
Proof.
  unfold prune_tool_results_before. simpl. rewrite <- (take_drop n ms) at 1. apply Forall2_app; [|by apply Forall_Forall2_diag, Forall_true].
  rewrite map_map. apply Forall2_fmap_r. apply Forall_Forall2_diag, Forall_true. intros m. apply prune_same.
Qed.

(** ** Stubs *)

Lemma stub_result i : result_id (stub_tool_result now_ms i) = Some i.
Proof. reflexivity. Qed.
Lemma stub_calls i : call_ids (stub_tool_result now_ms i) = [].
Proof. reflexivity. Qed.
Lemma add_stubs_spec satisfied l stubs satisfied' :
  add_stubs now_ms satisfied l = (stubs, satisfied') →
  ids stubs = [] ∧ (∀ i, i ∈ results stubs → i ∈ l) ∧ (∀ i, i ∈ satisfied' ↔ i ∈ satisfied ∨ i ∈ l) ∧
  (∀ i, i ∈ l → i ∈ satisfied ∨ i ∈ results stubs) ∧ Forall (λ m, is_tool_role_value m = true) stubs.
Proof.
  revert satisfied stubs. induction l as [|i l IH]; intros satisfied stubs; simpl; [intros [= <- <-]; set_solver|].
  case_bool_decide as Hi.
  - intros E. destruct (IH _ _ E) as (H1 & H2 & H3 & H4 & H5). set_solver.
  - destruct (add_stubs now_ms (i :: satisfied) l) as [stubs0 s0] eqn:E. intros [= <- <-].
    destruct (IH _ _ E) as (H1 & H2 & H3 & H4 & H5).
    assert (Hr : results (stub_tool_result now_ms i :: stubs0) = i :: results stubs0) by done.
    assert (Hc : ids (stub_tool_result now_ms i :: stubs0) = ids stubs0) by done.
    rewrite Hr, Hc. split_and!; [done|set_solver|set_solver|set_solver|by constructor].
Qed.

Lemma patch_ids satisfied ms : ids (patch now_ms satisfied ms) = ids ms.
Proof.
  revert satisfied. induction ms as [|m ms IH]; intros satisfied; [done|]. simpl.
  destruct (add_stubs now_ms satisfied (call_ids m)) as [stubs s'] eqn:E. apply add_stubs_spec in E as (Hs & _).
  change (m :: stubs ++ patch now_ms s' ms) with ([m] ++ stubs ++ patch now_ms s' ms).
  change (m :: ms) with ([m] ++ ms). by rewrite !ids_app, Hs, IH.
Qed.
Lemma patch_results satisfied ms i : i ∈ results ms → i ∈ results (patch now_ms satisfied ms).
Proof.
  revert satisfied. induction ms as [|m ms IH]; intros satisfied; [done|]. simpl.
  destruct (add_stubs now_ms satisfied (call_ids m)) as [stubs s'].
  change (m :: ms) with ([m] ++ ms). change (m :: stubs ++ patch now_ms s' ms) with ([m] ++ stubs ++ patch now_ms s' ms).
  rewrite !results_app, !elem_of_app. intros [Hi|Hi]; [by left|right; right; by apply IH].
Qed.

(** Every call without a result gets one, and only calls do. *)
Lemma patch_balances satisfied ms i :
  i ∈ results (patch now_ms satisfied ms) ∨ i ∈ satisfied ↔ i ∈ results ms ∨ i ∈ satisfied ∨ i ∈ ids ms.
Proof.
  revert satisfied. induction ms as [|m ms IH]; intros satisfied; [simpl; set_solver|]. simpl.
  destruct (add_stubs now_ms satisfied (call_ids m)) as [stubs s'] eqn:E. apply add_stubs_spec in E as (_ & H2 & H3 & H4 & _).
  change (m :: stubs ++ patch now_ms s' ms) with ([m] ++ stubs ++ patch now_ms s' ms). change (m :: ms) with ([m] ++ ms).
  assert (Hone : ids [m] = call_ids m) by (unfold ids; simpl; by rewrite app_nil_r).
  rewrite !results_app, ids_app, Hone. specialize (IH s').
  rewrite !elem_of_app in *. specialize (H2 i). specialize (H3 i). specialize (H4 i). tauto.
Qed.

Lemma anchored_stubs before stubs :
  ids stubs = [] → (∀ i, i ∈ results stubs → i ∈ before) → anchored before stubs.
Proof.
  revert before. induction stubs as [|m stubs IH]; intros before; [done|].
  change (m :: stubs) with ([m] ++ stubs). rewrite ids_app, results_app. intros [Hm Hs]%app_eq_nil Hr. simpl.
  split; [intros i Hi; apply Hr, elem_of_app; left; unfold results; csimpl; rewrite Hi; by left|].
  unfold ids in Hm. simpl in Hm. apply app_eq_nil in Hm as [-> _]. rewrite app_nil_r. apply IH; [done|]. set_solver.
Qed.

Lemma patch_anchored satisfied ms before :
  ordered ms → (∀ i, i ∈ results ms → i ∈ before ++ ids ms) → anchored before (patch now_ms satisfied ms).
Proof.
  revert satisfied before. induction ms as [|m ms IH]; intros satisfied before Ho Hr; [done|].
  destruct Ho as [Hm Ho]. simpl. destruct (add_stubs now_ms satisfied (call_ids m)) as [stubs s'] eqn:E.
  apply add_stubs_spec in E as (Hs & Hin & _). change (m :: ms) with ([m] ++ ms) in Hr, Hm. rewrite results_app, ids_app in Hr.
  assert (Hone : ids [m] = call_ids m) by (unfold ids; simpl; by rewrite app_nil_r). rewrite Hone in Hr.
  simpl. split.
  - intros i Hi. specialize (Hm i Hi). rewrite ids_app, Hone in Hm.
    assert (Hb : i ∈ before ++ call_ids m ++ ids ms); [|set_solver].
    apply Hr, elem_of_app. left. unfold results. csimpl. rewrite Hi. by left.
  - apply anchored_app. split; [apply anchored_stubs; [done|set_solver]|]. rewrite Hs, app_nil_r.
    apply IH; [done|]. intros i Hi. rewrite <- app_assoc. apply Hr. set_solver.
Qed.

Lemma call_or_result m i : i ∈ call_ids m → result_id m = None.
Proof.
  unfold call_ids, result_id. destruct (role_is (lit "assistant") m) eqn:Ea; [|set_solver]. intros _.
  unfold is_tool_role_value, role_is, field_is in *. apply bool_decide_eq_true in Ea. rewrite Ea. done.
Qed.
Lemma patch_answered satisfied ms :
  ordered ms → NoDup (ids ms) → (∀ i, i ∈ satisfied → i ∈ ids ms → i ∈ results ms) →
  answered (patch now_ms satisfied ms).
Proof.
  revert satisfied. induction ms as [|m ms IH]; intros satisfied Ho Hnd Hsat; [done|].
  destruct Ho as [Hm Ho]. simpl. destruct (add_stubs now_ms satisfied (call_ids m)) as [stubs s'] eqn:E.
  apply add_stubs_spec in E as (Hs & Hin & Hs' & Hall & _). change (m :: ms) with ([m] ++ ms) in Hsat, Hnd, Hm.
  assert (Hone : ids [m] = call_ids m) by (unfold ids; simpl; by rewrite app_nil_r).
  assert (Hres : ∀ i, i ∈ results ([m] ++ ms) → result_id m = Some i ∨ i ∈ results ms).
  { intros i. rewrite results_app, elem_of_app. intros [Hi|Hi]; [left|by right]. unfold results in Hi. csimpl in Hi.
    destruct (result_id m); [|set_solver]. apply list_elem_of_singleton in Hi as ->. done. }
  rewrite ids_app, Hone in *. apply NoDup_app in Hnd as (_ & Hdis & Hnd). simpl. split.
  - intros i Hi. rewrite results_app, elem_of_app. destruct (Hall i Hi) as [Hsi|Hst]; [right|by left].
    apply patch_results. destruct (Hres i) as [Hri|]; [apply Hsat; set_solver| |done].
    rewrite (call_or_result m i Hi) in Hri. done.
  - assert (Htail : answered (patch now_ms s' ms)).
    { apply IH; [done|done|]. intros i [Hi|Hi]%Hs' Him; [|by destruct (Hdis i)].
      destruct (Hres i) as [Hri|]; [apply Hsat; set_solver| |done]. destruct (Hm i Hri). set_solver. }
    revert Hs Htail. clear. generalize (patch now_ms s' ms). intros t. induction stubs as [|x stubs IH]; [done|].
    change (x :: stubs) with ([x] ++ stubs). rewrite ids_app. intros [Hx Hs]%app_eq_nil Ht. simpl. split; [|by apply IH].
    unfold ids in Hx. simpl in Hx. apply app_eq_nil in Hx as [-> _]. set_solver.
Qed.

(** ** The repair *)

(** What is said, without the messages of tools. *)
Definition conversation (h : list json) : list json := List.filter (λ m, negb (is_tool_role_value m)) h.
Local Arguments conversation : simpl never.
Lemma conversation_app a b : conversation (a ++ b) = conversation a ++ conversation b.
Proof. apply List.filter_app. Qed.
Lemma conversation_same h h' : Forall2 same h h' → conversation h = conversation h'.
Proof.
  unfold conversation. induction 1 as [|m m' h h' (_ & _ & Ht & Hm) Hh IH]; [done|]. simpl. rewrite <- Ht, IH.
  destruct (is_tool_role_value m); [done|]. simpl. by rewrite Hm.
Qed.
Lemma conversation_tools h : Forall (λ m, is_tool_role_value m = true) h → conversation h = [].
Proof. unfold conversation. induction 1 as [|m h Hm Hh IH]; [done|]. simpl. by rewrite Hm. Qed.
Lemma patch_conversation satisfied ms : conversation (patch now_ms satisfied ms) = conversation ms.
Proof.
  revert satisfied. induction ms as [|m ms IH]; intros satisfied; [done|]. simpl.
  destruct (add_stubs now_ms satisfied (call_ids m)) as [stubs s'] eqn:E. apply add_stubs_spec in E as (_ & _ & _ & _ & Hs).
  change (m :: stubs ++ patch now_ms s' ms) with ([m] ++ stubs ++ patch now_ms s' ms). change (m :: ms) with ([m] ++ ms).
  by rewrite !conversation_app, (conversation_tools stubs), IH.
Qed.

Definition survives (surviving : list str) (m : json) : bool :=
  match result_id m with Some i => bool_decide (i ∈ surviving) | None => true end.
Lemma filter_sublist {A} (f : A → bool) l : List.filter f l `sublist_of` l.
Proof. induction l as [|x l IH]; simpl; [done|]. destruct (f x); [by apply sublist_skip|by apply sublist_cons]. Qed.
Lemma survivors_ids surviving ms : ids (List.filter (survives surviving) ms) = ids ms.
Proof.
  unfold ids. induction ms as [|m ms IH]; [done|]. simpl. unfold survives at 1. destruct (result_id m) as [i|] eqn:Er; simpl; [|by rewrite IH].
  case_bool_decide; simpl; rewrite IH; [done|]. destruct (call_ids m) as [|c l] eqn:Ec; [done|].
  rewrite (call_or_result m c) in Er; [done|]. rewrite Ec. by left.
Qed.
Lemma survivors_results surviving ms i : i ∈ results (List.filter (survives surviving) ms) → i ∈ surviving.
Proof.
  unfold results. induction ms as [|m ms IH]; simpl; [set_solver|]. unfold survives at 1.
  destruct (result_id m) as [j|] eqn:Er; [|csimpl; by rewrite Er]. case_bool_decide; [|done]. csimpl. rewrite Er. set_solver.
Qed.
Lemma survivors_conversation surviving ms : conversation (List.filter (survives surviving) ms) = conversation ms.
Proof.
  unfold conversation. induction ms as [|m ms IH]; [done|]. simpl. unfold survives at 1, result_id.
  destruct (is_tool_role_value m) eqn:Et; simpl; [|by rewrite Et, IH].
  destruct (tool_result_call_id m); [case_bool_decide|]; simpl; rewrite ?Et; simpl; by rewrite IH.
Qed.

(** Calls and results have the same identifiers. *)
Definition balanced (h : list json) : Prop := ∀ i, i ∈ ids h ↔ i ∈ results h.
Lemma sanitize_balanced ms : balanced (sanitize_tool_pairs now_ms ms).
Proof.
  intros i. unfold sanitize_tool_pairs. change (flat_map call_ids ms) with (ids ms).
  change (λ m, match result_id m with Some i => bool_decide (i ∈ ids ms) | None => true end) with (survives (ids ms)).
  set (kept := List.filter (survives (ids ms)) ms). change (omap result_id kept) with (results kept).
  assert (Hids : ids kept = ids ms) by apply survivors_ids. rewrite patch_ids, Hids.
  pose proof (patch_balances (results kept) kept i) as Hp. rewrite Hids in Hp.
  pose proof (survivors_results (ids ms) ms i) as Hs. fold kept in Hs. pose proof (patch_results (results kept) kept i). tauto.
Qed.

Lemma sanitize_ok ms :
  ordered ms → NoDup (ids ms) →
  anchored [] (sanitize_tool_pairs now_ms ms) ∧ NoDup (ids (sanitize_tool_pairs now_ms ms)) ∧ answered (sanitize_tool_pairs now_ms ms).
Proof.
  intros Ho Hnd. unfold sanitize_tool_pairs. change (flat_map call_ids ms) with (ids ms).
  change (λ m, match result_id m with Some i => bool_decide (i ∈ ids ms) | None => true end) with (survives (ids ms)).
  set (kept := List.filter (survives (ids ms)) ms).
  assert (Hk : ordered kept) by (by eapply ordered_sublist; [apply filter_sublist|]).
  assert (Hids : ids kept = ids ms) by apply survivors_ids. rewrite patch_ids, Hids. split_and!; [|done|].
  - apply patch_anchored; [done|]. intros i Hi%survivors_results. by rewrite Hids.
  - apply patch_answered; [done|by rewrite Hids|done].
Qed.
Lemma sanitize_conversation ms : conversation (sanitize_tool_pairs now_ms ms) = conversation ms.
Proof. unfold sanitize_tool_pairs. rewrite patch_conversation. apply survivors_conversation. Qed.

Lemma pruned_ok ms n threshold :
  ordered ms → NoDup (ids ms) →
  let out := sanitize_tool_pairs now_ms (prune_tool_results_before ms n threshold).1 in
  anchored [] out ∧ NoDup (ids out) ∧ answered out.
Proof.
  intros Ho Hnd out. pose proof (prune_all_same ms n threshold) as Hs. apply sanitize_ok; [by eapply ordered_same|].
  destruct (same_ids _ _ Hs) as [<- _]. done.
Qed.
Lemma pruned_conversation ms n threshold :
  conversation (sanitize_tool_pairs now_ms (prune_tool_results_before ms n threshold).1) = conversation ms.
Proof. rewrite sanitize_conversation. symmetry. apply conversation_same, prune_all_same. Qed.

Lemma splice_ok h bounds m :
  plain m → head_end bounds < tail_start bounds → ordered h → NoDup (ids h) → ordered (splice h bounds m) ∧ NoDup (ids (splice h bounds m)).
Proof.
  intros Hm Hlt Ho Hnd.
  assert (Hsub : take (head_end bounds) h ++ drop (tail_start bounds) h `sublist_of` h).
  { rewrite <- (take_drop (head_end bounds) h) at 3. apply sublist_app; [done|].
    replace (tail_start bounds) with (head_end bounds + (tail_start bounds - head_end bounds)) by lia.
    rewrite <- drop_drop. apply sublist_drop. }
  unfold splice. split; [apply ordered_insert; [done|by eapply ordered_sublist]|].
  destruct Hm as [Hc _].
  assert (Hone : ids [m] = []) by (unfold ids; simpl; by rewrite Hc). change (m :: drop (tail_start bounds) h) with ([m] ++ drop (tail_start bounds) h).
  rewrite !ids_app, Hone, app_nil_l, <- ids_app. eapply sublist_NoDup; [exact Hnd|]. by apply ids_sublist.
Qed.
Lemma user_message_plain text : plain (user_message now_ms text).
Proof. split; reflexivity. Qed.

(** ** Boundaries *)

Lemma walk_spec budget floor_min n ms accumulated start :
  length ms ≤ start →
  let s := walk budget floor_min n ms accumulated start in
  s ≤ start ∧ start - length ms ≤ s ∧ (start ≤ n → n - start ≤ floor_min → floor_min ≤ n - (start - length ms) → s ≤ n - floor_min).
Proof.
  revert accumulated start. induction ms as [|m ms IH]; intros accumulated start Hl; simpl; [split_and!; lia|].
  simpl in Hl. destruct (_ || _) eqn:Ek.
  - destruct (IH (accumulated + message_tokens m)%Z (start - 1) ltac:(lia)) as (H1 & H2 & H3). split_and!; [lia|lia|].
    intros Hn Hf1 Hf2. destruct (decide (n - (start - 1) ≤ floor_min)) as [Hd|Hd]; [apply H3; lia|]. lia.
  - split_and!; [lia|lia|]. intros Hn Hf1 Hf2. apply orb_false_iff in Ek as [_ Ek%Nat.leb_gt]. lia.
Qed.
Lemma take_while_true {A} (f : A → bool) l : Forall (λ x, f x = true) (take_while f l).
Proof. induction l as [|x l IH]; simpl; [done|]. destruct (f x) eqn:E; by constructor. Qed.
Lemma take_while_rest {A} (f : A → bool) l x : head (drop (length (take_while f l)) l) = Some x → f x = false.
Proof. induction l as [|y l IH]; simpl; [done|]. destruct (f y) eqn:E; simpl; [done|]. by intros [= <-]. Qed.
Lemma take_while_length {A} (f : A → bool) l : length (take_while f l) ≤ length l.
Proof. induction l as [|y l IH]; simpl; [done|]. destruct (f y); simpl; lia. Qed.
Lemma take_while_take {A} (f : A → bool) l : take (length (take_while f l)) l = take_while f l.
Proof. induction l as [|y l IH]; simpl; [done|]. destruct (f y); simpl; [by rewrite IH|done]. Qed.

(** Where the tail begins: at most [protect_tail_min] messages from the end, but for the tool messages it would begin with. *)
Lemma bounds_spec h config cw :
  let bounds := compute_boundaries h config cw in
  head_end bounds = min (protect_head config) (length h) ∧ tail_start bounds ≤ length h ∧
  (∀ m, head (drop (tail_start bounds) h) = Some m → is_tool_role_value m = false) ∧
  ∃ start, head_end bounds ≤ start ≤ length h - min (protect_tail_min config) (length h - head_end bounds) ∧
    tail_start bounds = start + length (take_while is_tool_role_value (drop start h)) ∧
    Forall (λ m, is_tool_role_value m = true) (take (tail_start bounds - start) (drop start h)).
Proof.
  intros bounds. set (n := length h). set (hd := min (protect_head config) n). set (tm := min (protect_tail_min config) (n - hd)).
  set (start := walk (tail_budget config cw) tm n (reverse (drop hd h)) 0 n).
  assert (Hts : tail_start bounds = start + length (take_while is_tool_role_value (drop start h))) by reflexivity.
  assert (Hlen : length (reverse (drop hd h)) = n - hd) by (by rewrite length_reverse, length_drop).
  destruct (walk_spec (tail_budget config cw) tm n (reverse (drop hd h)) 0 n) as (H1 & H2 & H3); [rewrite Hlen; lia|].
  fold start in H1, H2, H3. rewrite Hlen in H2, H3. assert (Hs : start ≤ n - tm) by (apply H3; lia).
  pose proof (take_while_length is_tool_role_value (drop start h)) as Htl. rewrite length_drop in Htl.
  split_and!; [done|lia| |].
  - intros m Hm. rewrite Hts, <- drop_drop in Hm. by apply take_while_rest in Hm.
  - exists start. change (head_end bounds) with hd. split_and!; [lia|done|done|].
    replace (tail_start bounds - start) with (length (take_while is_tool_role_value (drop start h))) by lia.
    rewrite take_while_take. apply take_while_true.
Qed.

(** ** The strategies *)

(** What all of them promise of the new history. *)
Definition well_paired (h : list json) : Prop := anchored [] h ∧ NoDup (ids h) ∧ answered h.
Definition repaired (h out : list json) : Prop := balanced out ∧ (ordered h → NoDup (ids h) → well_paired out).
(** Head and tail are kept around a message of the user's role, or everything is. *)
Definition keeps (h : list json) (config : CompactionConfig) (cw : Z) (out : list json) : Prop :=
  let bounds := compute_boundaries h config cw in
  conversation out = conversation h ∨
  head_end bounds < tail_start bounds ∧ ∃ marker, role_is (lit "user") marker = true ∧
    conversation out = conversation (take (head_end bounds) h) ++ [marker] ++ conversation (drop (tail_start bounds) h).

Lemma in_place_ok h config bounds kept :
  in_place_prune_or_err now_ms h config bounds = Ok kept →
  repaired h kept ∧ conversation kept = conversation h.
Proof.
  unfold in_place_prune_or_err. pose proof (sanitize_balanced (prune_tool_results_before h (length h) (tool_prune_char_threshold config)).1) as Hb.
  pose proof (pruned_ok h (length h) (tool_prune_char_threshold config)) as Hok.
  pose proof (pruned_conversation h (length h) (tool_prune_char_threshold config)) as Hc.
  destruct (prune_tool_results_before _ _ _) as [k p]. destruct (p =? 0); [done|]. intros [= <-]. by split; [split|].
Qed.
Lemma spliced_ok h config cw text :
  let bounds := compute_boundaries h config cw in
  head_end bounds < tail_start bounds →
  let out := finalize_kept now_ms (splice h bounds (user_message now_ms text)) config (bound_tail_min bounds) in
  repaired h out ∧ keeps h config cw out.
Proof.
  intros bounds Hlt out. split.
  - split; [apply sanitize_balanced|]. intros Ho Hnd. destruct (splice_ok h bounds (user_message now_ms text)) as [Hso Hsn]; [apply user_message_plain|done..|].
    by apply pruned_ok.
  - right. split; [done|]. exists (user_message now_ms text). split; [reflexivity|]. unfold out, finalize_kept. rewrite pruned_conversation.
    unfold splice. change (user_message now_ms text :: drop (tail_start bounds) h) with ([user_message now_ms text] ++ drop (tail_start bounds) h).
    by rewrite !conversation_app.
Qed.
Lemma recency_ok h config cw o :
  run_recency_preserving now_ms h config cw = Ok o → repaired h (history o) ∧ keeps h config cw (history o).
Proof.
  unfold run_recency_preserving. destruct (Nat.leb_spec (tail_start (compute_boundaries h config cw)) (head_end (compute_boundaries h config cw))) as [Hle|Hlt].
  - destruct (in_place_prune_or_err _ _ _ _) as [kept|] eqn:E; [|done]. intros [= <-]. apply in_place_ok in E as [E1 E2].
    split; [exact E1|by left].
  - intros [= <-]. by apply spliced_ok.
Qed.
Lemma structured_ok `{JsonDisplay} data_dir h config p limit o :
  run_structured now_ms data_dir h config p limit = Ok o →
  repaired h (history o) ∧ keeps h config (context_window p) (history o).
Proof.
  unfold run_structured. destruct (Nat.leb_spec (tail_start (compute_boundaries h config (context_window p)))
    (head_end (compute_boundaries h config (context_window p)))) as [Hle|Hlt].
  - destruct (in_place_prune_or_err _ _ _ _) as [kept|] eqn:E; [|done]. intros [= <-]. apply in_place_ok in E as [E1 E2].
    split; [exact E1|by left].
  - destruct (collect _ _) as [[[summary input] output]|e]; [|apply recency_ok]. destruct (negb _); [apply recency_ok|].
    intros [= <-]. by apply spliced_ok.
Qed.


(** C27. The strategies with boundaries lose nothing at either end: the messages of the head and of the tail, but for those of
    tools, are in the new history, unchanged and in order, around one message for the middle; or all of them are, when there
    is no middle.  The head is as long as configured; the tail has the messages the floor protects, unless it would begin with
    results of tools, which go to the middle with their calls. *)
Theorem boundaries_are_kept `{JsonDisplay} data_dir h config provider limit o :
  let cw := match provider with Some p => context_window p | None => 200000%Z end in
  let bounds := compute_boundaries h config cw in
  run_compaction now_ms data_dir h config provider limit = Ok o →
  mode config = RecencyPreserving ∨ mode config = Structured →
  keeps h config cw (history o) ∧ head_end bounds = min (protect_head config) (length h) ∧
  ∃ start, start ≤ length h - min (protect_tail_min config) (length h - head_end bounds) ∧ start ≤ tail_start bounds ≤ length h ∧
    Forall (λ m, is_tool_role_value m = true) (take (tail_start bounds - start) (drop start h)).
Proof.
  intros cw bounds Hrun Hmode. destruct (bounds_spec h config cw) as (Hh & Hl & _ & start & Hs & Hts & Ht).
  split_and!; [|done|exists start; unfold bounds; split_and!; [exact (proj2 Hs)|rewrite Hts; lia|exact Hl|exact Ht]].
  unfold run_compaction in Hrun. destruct (negb _); [done|]. destruct Hmode as [Hm|Hm]; rewrite Hm in Hrun.
  - apply recency_ok in Hrun as [_ Hk]. exact Hk.
  - destruct provider as [p|]; [|done]. apply structured_ok in Hrun as [_ Hk]. exact Hk.
Qed.
End theorems.

(** * A small history *)

Definition demo_serde : SerdeJson := {| from_str _ := Err []; to_string _ := Some [] |}.
Definition demo_display : JsonDisplay := {| show_json _ := [] |}.
Definition demo_config (m : CompactionMode) : CompactionConfig := {|
  mode := m; threshold_percent := f32_0_95; protect_head := 2; protect_tail_min := 2; tail_budget_ratio := f_of_Z 13421773 (-26);
  tool_prune_char_threshold := 20 |}.
Definition says (role text : str) : json := JObject [(lit "role", JString role); (lit "content", JString text)].
Definition calls (l : list str) : json :=
  JObject [(lit "role", JString "assistant"); (lit "content", JString []);
    (lit "tool_calls", JArray (map (λ i, JObject [(lit "id", JString i)]) l))].
Definition answers (i text : str) : json :=
  JObject [(lit "role", JString "tool"); (lit "tool_call_id", JString i); (lit "content", JString text)].
Definition demo_provider : Provider := {| context_window := 150; stream _ := [] |}.
Definition demo_run (h : list json) : result CompactionOutcome CompactionRunError :=
  run_compaction (H := demo_serde) (H0 := demo_display) 7 [] h (demo_config RecencyPreserving) (Some demo_provider) 1000.

(** A call in the head whose result went with the middle. *)
Definition demo_history : list json :=
  [says "user" "hello"; calls [lit "c1"]; answers "c1" "fine"; says "assistant" "done"; says "user" "and now?"; calls [lit "c2"];
   answers "c2" "a long text that is cut down"; says "assistant" "bye"].
Definition demo_out : list json :=
  [says "user" "hello"; calls [lit "c1"]; stub_tool_result 7 "c1"; build_middle_marker 7 (drop 2 (take 7 demo_history)); says "assistant" "bye"].
Lemma demo_outcome : demo_run demo_history = Ok (outcome demo_out RecencyPreserving 0 0).
Proof. vm_compute. reflexivity. Qed.

Lemma boundaries_are_kept_witness :
  keeps (H := demo_serde) demo_history (demo_config RecencyPreserving) 150 demo_out ∧
  conversation demo_out = [says "user" "hello"; calls [lit "c1"]; build_middle_marker 7 (drop 2 (take 7 demo_history)); says "assistant" "bye"].
Proof.
  split; [|reflexivity].
  destruct (boundaries_are_kept (H := demo_serde) (H0 := demo_display) 7 [] demo_history (demo_config RecencyPreserving)
    (Some demo_provider) 1000 _ demo_outcome (or_introl eq_refl)) as [Hk _]. exact Hk.
Defined.

(** The floor of the tail does not hold for results of tools: here the three newest messages are protected, and none of them
    is kept, although the tail is to have two messages at least. *)
Definition busy_history : list json :=
  [says "user" "hello"; says "assistant" "hi"; says "user" "look"; calls [lit "c1"; lit "c2"; lit "c3"];
   answers "c1" (lit "0123456789012345678901234567890123456789012345678901234567890123456789");
   answers "c2" (lit "0123456789012345678901234567890123456789012345678901234567890123456789");
   answers "c3" (lit "0123456789012345678901234567890123456789012345678901234567890123456789")].
Example tail_is_lost :
  history <$> (match demo_run busy_history with Ok o => Some o | Err _ => None end) =
    Some [says "user" "hello"; says "assistant" "hi"; build_middle_marker 7 (drop 2 busy_history)].
Proof. vm_compute. reflexivity. Qed.

(** Identifiers that are used twice: the call of the head gets no stub, as the tail has a result for its name. *)
Definition repeated_history : list json :=
  [says "user" "a"; calls [lit "call_0"]; answers "call_0" "one"; says "assistant" "b"; says "user" "c";
   calls [lit "call_0"]; answers "call_0" "two"; says "assistant" "d"].
Example reused_identifier :
  sanitize_tool_pairs 7 (take 2 repeated_history ++ [says "user" "elided"] ++ drop 5 repeated_history) =
    [says "user" "a"; calls [lit "call_0"]; says "user" "elided"; calls [lit "call_0"]; answers "call_0" "two"; says "assistant" "d"].
Proof. vm_compute. reflexivity. Qed.
