(* ===== verification/EnvSubst.v ===== *)
(** Environment placeholders in the configuration.

    Models [crates/config/src/env_subst.rs]: the substitution of [${NAME}] when the configuration is
    read, that of [${NAME}] and [$NAME] from explicit values for remote servers, and the tests for
    placeholders.  The process environment is a function.

    A loop over [input[cursor..]] takes the rest of the text and a fuel; each round consumes at least
    one char, so one round more than there are chars is enough ([substitute_fills],
    [pieces_length] for templates).

    Theorems: a text with placeholders is its template with the values put in, once
    ([template_substituted]); the second substitution repeats text after an empty pair of braces
    ([empty_braces_repeat]). *)
From S2P Require Import Prelude.
Local Open Scope nat_scope.

Definition open_brace : str := lit "${".

(** * When the configuration is read *)

(** The [while let] loop, by the rest of the text. *)
Fixpoint substitute_loop (fuel : nat) (lookup : str → option str) (input : str) : str :=
  match fuel with
  | O => input
  | S fuel =>
      match cut open_brace input with
      | None => input
      | Some (before, rest) =>
          match cut (lit "}") rest with
          | None => before ++ open_brace ++ rest
          | Some (var_name, after) =>
              let piece :=
                if negb (is_nonempty var_name) then open_brace
                else match lookup var_name with Some value => value | None => open_brace ++ var_name ++ lit "}" end in
              before ++ piece ++ substitute_loop fuel lookup after
          end
      end
  end.
Definition substitute_env_with (input : str) (lookup : str → option str) : str :=
  if negb (contains open_brace input) then input else substitute_loop (S (length input)) lookup input.
Definition substitute_env (env : str → option str) (input : str) : str := substitute_env_with input env.
Definition substitute_env_with_overrides (env : str → option str) (input : str) (overrides : gmap str str) : str :=
  substitute_env_with input (λ name, or_else (env name) (overrides !! name)).

(** * From explicit values *)

Definition is_env_ident_start (c : char) : bool := (c =? ch "_")%N || is_ascii_alphabetic c.
Definition is_env_ident_continue (c : char) : bool := (c =? ch "_")%N || is_ascii_alphanumeric c.
Definition lookup_override (name : str) (overrides : gmap str str) : option str :=
  value ← overrides !! name; if is_nonempty (trim value) then Some value else None.

(** [out] is what has been written, [rest] is [input[cursor..]]. *)
Fixpoint placeholders_loop (fuel : nat) (overrides : gmap str str) (out rest : str) : str :=
  match fuel with
  | O => out ++ rest
  | S fuel =>
      match cut (lit "$") rest with
      | None => out ++ rest
      | Some (before, after) =>
          let out := out ++ before in
          match after with
          | [] => out ++ lit "$"
          | c :: name_part =>
              if (c =? ch "{")%N then
                match cut (lit "}") name_part with
                | None => out ++ lit "$" ++ after
                | Some (name, after_close) =>
                    if is_nonempty name then
                      placeholders_loop fuel overrides
                        (out ++ match lookup_override name overrides with
                                | Some value => value | None => open_brace ++ name ++ lit "}" end) after_close
                    else (out ++ lit "$" ++ after) ++ rest       (** [break], with the cursor where it was *)
                end
              else if negb (is_env_ident_start c) then placeholders_loop fuel overrides (out ++ lit "$") after
              else
                let name := c :: take_while is_env_ident_continue name_part in
                placeholders_loop fuel overrides
                  (out ++ match lookup_override name overrides with Some value => value | None => lit "$" ++ name end)
                  (drop_while is_env_ident_continue name_part)
          end
      end
  end.
Definition substitute_env_placeholders (input : str) (overrides : gmap str str) : str :=
  placeholders_loop (S (length input)) overrides [] input.

(** For each dollar, what follows it. *)
Fixpoint contains_env_placeholder (input : str) : bool :=
  match input with
  | [] => false
  | c :: after =>
      (c =? ch "$")%N &&
      (match after with
       | [] => false
       | c2 :: name_part =>
           if (c2 =? ch "{")%N then is_some_and (λ p, 0 <? p) (find (lit "}") name_part) else is_env_ident_start c2
       end)
      || contains_env_placeholder after
  end.
Definition is_entire_env_placeholder (value : str) : bool :=
  let trimmed := trim value in
  let all_ident name := is_nonempty name && forallb is_env_ident_continue name in
  if negb (is_nonempty trimmed) then false
  else match rest ← strip_prefix open_brace trimmed; strip_suffix (lit "}") rest with
  | Some name => all_ident name
  | None => is_some_and all_ident (strip_prefix (lit "$") trimmed)
  end.

(** * Templates *)

(** Text, placeholder, text, placeholder, ..., text. *)
Record Template := { pieces : list (str * str); rest : str }.
Definition render (t : Template) : str := concat (map (λ p, p.1 ++ open_brace ++ p.2 ++ lit "}") (pieces t)) ++ rest t.
Definition fill (lookup : str → option str) (t : Template) : str :=
  concat (map (λ p, p.1 ++ match lookup p.2 with Some v => v | None => open_brace ++ p.2 ++ lit "}" end) (pieces t)) ++ rest t.
(** Names are not empty and without a brace; the texts have no placeholder of their own. *)
Definition template_ok (t : Template) : Prop :=
  Forall (λ p, contains open_brace p.1 = false ∧ p.2 ≠ [] ∧ ch "}" ∉ p.2) (pieces t) ∧ contains open_brace (rest t) = false.

Lemma cut_open t r : contains open_brace t = false → cut open_brace (t ++ open_brace ++ r) = Some (t, r).
Proof.
  intros Hc. destruct (find_app_le open_brace t r) as (i & Hf & Hi).
  assert (Hlen : i = length t).
  { destruct (find_Some _ _ _ Hf) as (u & v & E & <-). destruct (decide (length u = length t)) as [|Hne]; [done|]. exfalso.
    assert (Hu : length u < length t) by lia. apply not_true_iff_false in Hc. apply Hc, contains_spec.
    assert (Ht : t = u ++ drop (length u) t).
    { assert (Hp : u = take (length u) t); [|by rewrite Hp at 1; rewrite take_drop].
      apply (f_equal (take (length u))) in E. rewrite take_app_length, take_app_le in E by lia. done. }
    exists u. rewrite Ht in E. rewrite <- app_assoc in E. apply (inj (u ++.)) in E.
    destruct (drop (length u) t) as [|c1 [|c2 w]] eqn:Ed.
    - apply (f_equal length) in Ed. rewrite length_drop in Ed. simpl in Ed. lia.
    - exfalso. simpl in E. injection E as E1 E2 _. discriminate E2.
    - simpl in E. injection E as -> -> _. exists w. exact Ht. }
  subst i. unfold cut. rewrite Hf. simpl. rewrite take_app_length, drop_app_add. done.
Qed.
Lemma cut_char c t r : c ∉ t → cut [c] (t ++ [c] ++ r) = Some (t, r).
Proof.
  intros Hc. destruct (find_app_le [c] t r) as (i & Hf & Hi).
  assert (Hlen : i = length t).
  { destruct (find_Some _ _ _ Hf) as (u & v & E & <-). destruct (decide (length u = length t)) as [|Hne]; [done|]. exfalso.
    apply Hc. apply (f_equal (λ l, l !! length u)) in E. rewrite (lookup_app_l t), lookup_app_r, Nat.sub_diag in E by lia.
    simpl in E. by apply list_elem_of_lookup_2 in E. }
  subst i. unfold cut. rewrite Hf. cbn [fmap option_fmap option_map]. rewrite take_app_length, drop_app_add. done.
Qed.
Lemma contains_cut t : contains open_brace t = false → cut open_brace t = None.
Proof. unfold contains. rewrite cut_None. by destruct (find open_brace t). Qed.

Lemma substitute_fills fuel lookup t :
  template_ok t → length (pieces t) < fuel → substitute_loop fuel lookup (render t) = fill lookup t.
Proof.
  destruct t as [ps r]. intros [Hps Hr]. simpl in *. revert fuel. induction Hps as [|[text name] ps (Ht & Hn & Hb) Hps IH]; intros fuel Hf.
  - destruct fuel as [|fuel]; [simpl in Hf; lia|]. unfold render, fill. simpl. by rewrite contains_cut.
  - destruct fuel as [|fuel]; [simpl in Hf; lia|]. simpl in Hf, Ht, Hn, Hb. unfold render, fill. cbn [pieces rest map concat fst snd].
    cbn [substitute_loop]. rewrite <- !app_assoc. rewrite cut_open by done.
    change (lit "}") with [ch "}"]. rewrite cut_char by done. destruct name as [|c name]; [done|]. cbn [is_nonempty negb].
    f_equal. f_equal. apply (IH fuel). lia.
Qed.
Lemma pieces_length t : length (pieces t) ≤ length (render t).
Proof.
  destruct t as [ps r]. unfold render. simpl. rewrite length_app. induction ps as [|[a b] ps IH]; simpl; [lia|].
  rewrite !length_app. simpl. rewrite length_app. simpl. lia.
Qed.

(** A configuration is its template with the values put in: every placeholder becomes the value of its variable, or stays
    when there is none; the text between them is not touched, and what a value contains is not substituted again. *)
Theorem template_substituted lookup t : template_ok t → substitute_env_with (render t) lookup = fill lookup t.
Proof.
  intros Hok. unfold substitute_env_with. destruct (contains open_brace (render t)) eqn:Hc; cbn [negb].
  - apply substitute_fills; [done|]. pose proof (pieces_length t). lia.
  - destruct t as [[|[a b] ps] r]; [done|]. exfalso. apply not_true_iff_false in Hc. apply Hc, contains_spec.
    exists a, (b ++ lit "}" ++ concat (map (λ p, p.1 ++ open_brace ++ p.2 ++ lit "}") ps) ++ r).
    unfold render. cbn [pieces rest map concat fst snd]. by rewrite <- !app_assoc.
Qed.

(** An empty pair of braces makes the second substitution write the text around it twice: once up to the end, and
    once more from where the search began. *)
Theorem empty_braces_repeat before after overrides :
  ch "$" ∉ before →
  substitute_env_placeholders (before ++ lit "${}" ++ after) overrides = (before ++ lit "${}" ++ after) ++ (before ++ lit "${}" ++ after).
Proof.
  intros Hb. unfold substitute_env_placeholders. cbn [placeholders_loop].
  change (lit "${}" ++ after) with ([ch "$"] ++ ([ch "{"; ch "}"] ++ after)). change (lit "$") with [ch "$"].
  rewrite cut_char by done. simpl. done.
Qed.

Definition demo_template : Template := {| pieces := [(lit "key=", lit "KEY"); (lit "&path=$", lit "NONE")]; rest := lit " end" |}.
Definition demo_lookup (name : str) : option str := if str_eqb name (lit "KEY") then Some (lit "${NONE}") else None.
Lemma template_substituted_witness :
  substitute_env_with (lit "key=${KEY}&path=$${NONE} end") demo_lookup = lit "key=${NONE}&path=$${NONE} end".
Proof.
  apply (template_substituted demo_lookup demo_template). split; [|vm_compute; reflexivity].
  repeat constructor; try (vm_compute; reflexivity); try discriminate; vm_compute; intros Hin;
    repeat (apply elem_of_cons in Hin as [Hin|Hin]; [discriminate Hin|]); by apply not_elem_of_nil in Hin.
Defined.
Lemma empty_braces_repeat_witness :
  substitute_env_placeholders (lit "https://h/${}?a=$A") {[ lit "A" := lit "1" ]} = lit "https://h/${}?a=$Ahttps://h/${}?a=$A".
Proof.
  apply (empty_braces_repeat (lit "https://h/") (lit "?a=$A")). vm_compute. intros Hin.
  repeat (apply elem_of_cons in Hin as [Hin|Hin]; [discriminate Hin|]). by apply not_elem_of_nil in Hin.
Defined.
